(* ===== verification/_CoqProject ===== *)
-Q . S2P
Prelude.v
Gf256.v
Polynomial.v
Utils.v
Tss.v
Primitives.v
Dem.v
Elgamal.v
Ibe.v
Seal.v
SealTheory.v
SealProps.v
Common.v
Chain.v
Metrics.v
Committee.v
RpcClient.v
Keeps.v
ValidPtb.v
Options.v
MasterKeys.v
Mvr.v
KeyServer.v
RequestJson.v
KeyServerTheory.v
Accounting.v
KeyServerProps.v
Signing.v
Sdk.v
Aggregator.v
AggregatorProps.v
EndToEnd.v
Monitors.v
HttpServer.v
HttpProps.v
AggregatorServer.v
MetricsProps.v
MonitorProps.v
AlertProps.v
Proxy.v
MetricsPush.v
ProxyProps.v
SealCli.v
SealCliProps.v
CliConfig.v
Dkg.v
DkgProps.v
CommitteeCli.v
CliCommands.v
CliProps.v
MemberProps.v
MoveLib.v
MoveKeyServer.v
MoveCommittee.v
MoveCommitteeTheory.v
MoveChain.v
MoveCommitteeProps.v
MoveReadable.v
MoveCrypto.v
MoveDecrypt.v
MoveDecryptTheory.v
MoveDecryptProps.v
