(* ===== verification/Prelude.v ===== *)
(** * Seal: a verification development

    Seal is a decentralized secrets manager: an object is encrypted to a set
    of key servers and to an identity, which is a Move package and an id, and a
    key server gives the key of an identity to whoever the package's
    [seal_approve] functions let through. This library models the program,
    which is in Rust under [src/crates/], and the Move contracts that it relies
    on under [src/move/], and proves what makes them correct.

    ** The program and its model

    The parts of the program, from the inside out, with the files that model
    them (paths below [src/crates/] unless they begin with [move/]):

    - Cryptography ([crypto/src/]). [Gf256] ([gf256.rs]) and [Polynomial]
      ([polynomial.rs]) are the arithmetic of the secret sharing in [Tss]
      ([tss.rs]); [Utils] has [utils.rs]. [Dem] ([dem.rs]) encrypts the
      message, [Elgamal] ([elgamal.rs]) the keys on their way to the user,
      [Ibe] ([ibe.rs]) the shares to the key servers. [Seal] ([lib.rs]) puts
      them together in [seal_encrypt] and [seal_decrypt]; [SealTheory] and
      [SealProps] prove them correct. [Primitives] has the interfaces of the
      external cryptography.
    - The key server ([key-server/src/]). A request for keys passes the
      middlewares and the routes of [HttpServer] ([server.rs]: [app], [main];
      [common.rs], [metrics.rs]) to the handlers of [KeyServer] ([server.rs]):
      the transaction in it must be a policy transaction ([ValidPtb]:
      [valid_ptb.rs], [seal_package.rs]), which the full node simulates through
      the retrying client of [RpcClient] ([sui_rpc_client.rs]); its package is
      resolved by [Mvr] ([mvr.rs], [externals.rs], part of [common.rs]); the
      keys are derived from those of [MasterKeys] ([master_keys.rs]), which the
      [Options] ([key_server_options.rs], [utils.rs], [prefixed_hex.rs])
      describe. [Common] ([errors.rs], [time.rs], [types.rs], [common.rs]) has
      errors, durations and versions, [Chain] the outside world. The tasks in
      the background are in [Monitors] ([periodic_updater.rs], [server.rs]) and
      [MetricsPush] ([metrics_push.rs]). [Metrics] ([metrics.rs]) has the
      tables of metrics that the servers register. [RequestJson] has the JSON
      of requests, as the SDK writes it ([seal-sdk/src/types.rs]) and the key
      server reads it ([server.rs]).
    - Committees. The members of a committee hold shares of one key. [Aggregator]
      ([key-server/src/aggregator/]) asks them and combines their answers, and
      [AggregatorServer] is its start and its tasks;
      [Committee] ([seal-committee/src/]) reads their objects on chain;
      [CliConfig], [Dkg], [CommitteeCli] and [CliCommands]
      ([seal-committee-cli/src/]) are the tool with which they generate and
      rotate the key and upgrade the package of the committee.
    - Clients. [Sdk] ([seal-sdk/src/lib.rs]) decrypts with the responses of the
      key servers, [SealCli] ([seal-cli/src/main.rs]) is the tool of users.
    - The metrics proxy: [Proxy] ([seal-proxy/src/]).
    - The contracts: [MoveKeyServer] ([move/seal/sources/key_server.move]) and
      [MoveCommittee] ([move/committee/sources/committee.move]) keep key
      servers and committees on chain; [MoveCrypto] ([gf256.move],
      [polynomial.move], [hmac256ctr.move], [kdf.move]) and [MoveDecrypt]
      ([bf_hmac_encryption.move]) decrypt on chain. [MoveLib] has what they use
      of the Move framework.

    ** How the model corresponds to the code

    A function of the source is a Definition or Fixpoint of the same name,
    prefixed where two files use one name ([gf_mul], [poly_mul], [ibe_decrypt])
    and in a Module per Move module ([KS], [SC], [GF], [MP], [HC], [KD], [BF]).
    A [Result] is an [outcome]: [Ok], [Err] with the source's error, or
    [Panic]; of a Move function, [Err] is an abort with a code of its module
    and [Panic] any other abort. Code with effects is in the monad [ST], a
    state and an outcome: the state is the random number generator in the
    cryptography, the [World] of [Chain] (environment, caches, log of metrics)
    in the servers, files and chain in the tools. Bytes are the 256-constructor
    type of the core library; other integers are [N] with their width written
    out where it matters ([u8_of], [move_uint], [from_mins]); maps are [gmap],
    and where the order of a [HashMap] shows, it is a parameter ([HashOrder]).
    Tasks that run concurrently are step relations, whose steps are the rounds
    of the tasks ([MasterKeys], [MonitorProps], [AlertProps],
    [AggregatorServer]); the chain is a history of transactions
    ([MoveCommittee]).

    Code that is not in the repository is an operation of a type class, and
    what is documented of it and used in proofs is a law of a second class:
    [Symmetric], [Curve], [RecoverC0] (cryptography), [FullNode], [SuiTypes],
    [MvrLib], [ServerLib], [AggregatorLib], [HttpLib] (the network and the
    libraries of the servers), [WatchChannel], [Timer], [EventApi] (the
    asynchronous run time), [FileSystem], [Yaml], [DkgLib], [CliLib] (the
    tools), [RequestJson] ([serde_json]), [ProxyCodecs], [PushNode],
    [ProxyNode], [Prometheus] (metrics), [MoveFramework]
    and [OnChain] (Move). Each has a toy instance that computes and satisfies
    the laws: over the toy groups of [Primitives.Toy] every group is the field
    GF(2⁸), and the theorems run on concrete inputs in their witnesses.

    ** What is proved

    - Cryptography: the tables multiply as the Rijndael polynomial says; shares
      determine a secret and fewer say nothing about it ([Tss]); what is
      encrypted decrypts, with every set of keys that reaches the threshold,
      and what decryption has checked when it succeeds ([Dem], [Ibe],
      [SealProps]), on the client ([Sdk]) as well.
    - All parts together: what is encrypted to key servers and committees
      decrypts with the answers of enough of them, through the aggregator and
      the SDK ([EndToEnd]); what the aggregator and the tool send is what the
      key server reads ([RequestJson]).
    - Authorisation: keys are released to authorised requests only
      ([KeyServerProps]), for valid policy transactions only ([ValidPtb]), with
      the share of the right committee version ([MasterKeys]); the text that a
      user signs has one reading ([Signing]).
    - Committees: the aggregator's keys are right whatever the members answer
      ([AggregatorProps]), through rotations ([AggregatorServer]); the version
      that a server reads changes only for what the chain says, and the alerts
      follow its events ([MonitorProps], [AlertProps]); the members of a key
      generation start from what the chain says of them and of the old
      committee ([MemberProps]), compute its outcome from checked messages
      only and submit the same hash of them ([DkgProps]), lose no data
      ([CliProps]), and execute nothing that they only meant to print
      ([CliProps]).
    - The servers' shell: requests over HTTP are accounted for, answered with
      the version, and refused as documented ([HttpProps]); retries end
      ([RpcClient]); minutes fit their width up to a bound ([Common]); nothing
      that is recorded in the metrics panics ([MetricsProps]); pushed metrics
      arrive and are kept once ([ProxyProps]).
    - The contracts: a key server keeps its key through all rotations, members
      can complete what they proposed, upgrades need a threshold of votes
      ([MoveCommitteeProps], from the invariants of [MoveCommitteeTheory] and
      [MoveChain]); the Rust tools can read whatever is on chain
      ([MoveReadable]); decryption on chain agrees with that in Rust, up to a
      check that only the contract has ([MoveDecryptProps], from
      [MoveDecryptTheory]).
    - The texts that the users' tool prints compose ([SealCliProps]).

    [Keeps], [KeyServerTheory] and [Accounting] have the lemmas that these
    proofs share: relations that computations keep, inversion of successful
    runs, and what handlers record.

    ** Bounds and fuel

    Recursion is structural but for four loops. [Metrics.buckets_loop] has the
    number of its steps as fuel, which [buckets_spec] shows to be enough. Three
    cut pieces off a list, with the list's length as fuel: [Dem.chunks_fuel] and [Proxy.chunks], whose
    lemmas ([ctr_fuel_involutive], [chunks_spec]) hold for any fuel of at least
    that length, and [Proxy.parse_messages], which [parse_messages_total] shows
    never to run out. The retry loop of [RpcClient] recurses on the attempts
    that are left, and [retries_exact] counts them. Loops without end, the
    tasks in the background, are modelled by their rounds. Lengths that are
    encoded as [u64] or by BCS are assumed to fit where a proof needs it.

    ** What is not modelled

    Tests, examples and documentation; the types that protobuf compilers
    generated ([seal-proxy/src/remote_write.rs], beyond the fields in use) and
    serializers that serde derives, which are parameters (but for encrypted
    objects, whose BCS encoding the contract reads: [MoveDecrypt], and for
    requests in JSON: [RequestJson]); the start
    of processes, sockets, signals, logging and the texts that tools print for
    people; eviction from caches, which is a choice of the environment; the
    duration histograms of the proxy. [move/patterns] has example policies,
    which are no part of the system. *)

From Stdlib Require Import NArith Lia.
From Stdlib Require Import Strings.Byte.
From stdpp Require Export prelude gmap strings list fin_maps.

(** ** Outcomes of fallible Rust code

    [Ok] and [Err] are [Result]'s constructors; [Panic] is an unwinding
    panic ([expect], [unwrap], [assert!], arithmetic overflow in a build with
    overflow checks, an index out of bounds). *)
Inductive outcome (E A : Type) : Type :=
  | Ok (a : A)
  | Err (e : E)
  | Panic.
Arguments Ok {E A} a.
Arguments Err {E A} e.
Arguments Panic {E A}.

#[export] Instance outcome_ret (E : Type) : MRet (outcome E) := λ A a, Ok a.
#[export] Instance outcome_bind (E : Type) : MBind (outcome E) :=
  λ A B f m, match m with Ok a => f a | Err e => Err e | Panic => Panic end.
#[export] Instance outcome_fmap (E : Type) : FMap (outcome E) :=
  λ A B f m, match m with Ok a => Ok (f a) | Err e => Err e | Panic => Panic end.

Lemma bind_ok {E A B : Type} (o : outcome E A) (f : A → outcome E B) a :
  o = Ok a → (o ≫= f) = f a.
Proof. by intros ->. Qed.

Lemma bind_ok_inv {E A B : Type} (o : outcome E A) (f : A → outcome E B) b :
  (o ≫= f) = Ok b → ∃ a, o = Ok a ∧ f a = Ok b.
Proof. destruct o; [|done..]. eauto. Qed.

#[export] Instance outcome_eq_dec (E A : Type) `{EqDecision E, EqDecision A} :
  EqDecision (outcome E A).
Proof. solve_decision. Defined.

Definition is_ok {E A : Type} (o : outcome E A) : bool :=
  match o with Ok _ => true | _ => false end.

Definition is_err {E A : Type} (o : outcome E A) : bool :=
  match o with Err _ => true | _ => false end.

Definition map_err {E F A : Type} (f : E → F) (o : outcome E A) : outcome F A :=
  match o with Ok a => Ok a | Err e => Err (f e) | Panic => Panic end.

(** The error type of the cryptographic library the sources call; the code
    itself raises its first three values, the library's own failures are
    [ExternalError]. *)
Inductive FastCryptoError : Type :=
  | InvalidInput
  | GeneralError (msg : string)
  | InputLengthWrong (expected : nat)
  | ExternalError (code : N).

#[export] Instance FastCryptoError_eq_dec : EqDecision FastCryptoError.
Proof. solve_decision. Defined.

(** [Option::ok_or] and [Option::expect]. *)
Definition ok_or {E A : Type} (o : option A) (e : E) : outcome E A :=
  match o with Some a => Ok a | None => Err e end.

(** A [Result] of a library that does not panic. *)
Definition of_sum {E A : Type} (r : A + E) : outcome E A :=
  match r with inl a => Ok a | inr e => Err e end.

Definition expect {E A : Type} (o : option A) : outcome E A :=
  match o with Some a => Ok a | None => Panic end.

(** [Result::expect] and [Result::unwrap], inside code with another error type. *)
Definition expect_ok {E F A : Type} (o : outcome E A) : outcome F A :=
  match o with Ok a => Ok a | _ => Panic end.

(** [assert!]. *)
Definition assert {E : Type} (b : bool) : outcome E unit :=
  if b then Ok () else Panic.

(** [iter.map(f).collect::<Result<Vec<_>>>()]: stops at the first failure. *)
Fixpoint try_map {E A B : Type} (f : A → outcome E B) (l : list A) :
    outcome E (list B) :=
  match l with
  | [] => Ok []
  | x :: l => y ← f x; ys ← try_map f l; Ok (y :: ys)
  end.

(** [for x in l { f(x)?; }]. *)
Fixpoint try_for {E A : Type} (f : A → outcome E unit) (l : list A) :
    outcome E unit :=
  match l with
  | [] => Ok ()
  | x :: l => _ ← f x; try_for f l
  end.

Lemma try_map_ok {E A B : Type} (f : A → outcome E B) (P : A → B → Prop) (l : list A) :
  (∀ x, x ∈ l → ∃ y, f x = Ok y ∧ P x y) →
  ∃ ys, try_map f l = Ok ys ∧ Forall2 P l ys.
Proof.
  induction l as [|x l IH]; intros H; [by exists []|].
  destruct (H x) as (y & Hy & HP); [by left|].
  destruct IH as (ys & Hys & HF). { intros. apply H. by right. }
  exists (y :: ys). simpl. rewrite Hy. simpl. rewrite Hys. by repeat constructor.
Qed.

Lemma Forall2_fmap_eq {A B : Type} (f : A → B) l ys :
  Forall2 (λ x y, y = f x) l ys → ys = f <$> l.
Proof. induction 1; csimpl; congruence. Qed.

Lemma try_map_inv {E A B : Type} (f : A → outcome E B) (l : list A) ys :
  try_map f l = Ok ys ↔ Forall2 (λ x y, f x = Ok y) l ys.
Proof.
  revert ys. induction l as [|x l IH]; intros ys; simpl.
  - split; [intros [= <-]; constructor|]. by inversion 1.
  - split.
    + destruct (f x) as [y| |] eqn:Hy; simpl; try discriminate.
      destruct (try_map f l) as [zs| |] eqn:Hzs; simpl; try discriminate.
      intros [= <-]. constructor; [done|]. by apply IH.
    + inversion 1 as [|? y ? zs Hy Hzs]; subst. rewrite Hy. simpl.
      apply IH in Hzs. by rewrite Hzs.
Qed.

(** Code whose elements can only succeed or panic. *)
Lemma try_map_panic {E A B : Type} (f : A → outcome E B) (l : list A) :
  (∀ x, x ∈ l → f x = Panic ∨ ∃ y, f x = Ok y) →
  (∃ x, x ∈ l ∧ f x = Panic) → try_map f l = Panic.
Proof.
  induction l as [|x l IH]; intros H (z & Hz & HP); [by inversion Hz|].
  simpl. destruct (H x ltac:(by left)) as [->|[y Hy]]; [done|].
  apply elem_of_cons in Hz as [->|Hz]; [by rewrite HP in Hy|].
  rewrite Hy. simpl. rewrite IH; [done| |by exists z].
  intros. apply H. by right.
Qed.

Lemma try_map_fmap {E A B C : Type} (g : A → B) (f : B → outcome E C) (l : list A) :
  try_map f (g <$> l) = try_map (λ x, f (g x)) l.
Proof. induction l as [|x l IH]; csimpl; [done|]. by rewrite IH. Qed.

Lemma try_map_ext {E A B : Type} (f g : A → outcome E B) (l : list A) :
  (∀ x, x ∈ l → f x = g x) → try_map f l = try_map g l.
Proof.
  induction l as [|x l IH]; intros H; simpl; [done|].
  rewrite (H x) by (by left). rewrite IH; [done|]. intros. apply H. by right.
Qed.

(** [iter.enumerate()]. *)
Definition enumerate {A : Type} (l : list A) : list (nat * A) :=
  zip (seq 0 (length l)) l.

Lemma elem_of_enumerate {A : Type} (l : list A) i x :
  (i, x) ∈ enumerate l ↔ l !! i = Some x.
Proof.
  unfold enumerate. rewrite list_elem_of_lookup. split.
  - intros [k Hk]. apply lookup_zip_with_Some in Hk as (a & b & [= -> ->] & H1 & H2).
    apply lookup_seq in H1 as [-> _]. done.
  - intros H. exists i. apply lookup_zip_with_Some. exists i, x.
    split_and!; [done| |done]. apply lookup_seq.
    split; [done|]. by apply lookup_lt_Some in H.
Qed.

Lemma enumerate_length {A : Type} (l : list A) : length (enumerate l) = length l.
Proof. unfold enumerate. rewrite length_zip_with, length_seq. lia. Qed.

Lemma enumerate_NoDup {A : Type} (l : list A) : NoDup (enumerate l).
Proof.
  apply (NoDup_fmap_1 fst). unfold enumerate. rewrite fst_zip; [apply NoDup_seq|].
  by rewrite length_seq.
Qed.

Lemma snd_enumerate {A : Type} (l : list A) : (enumerate l).*2 = l.
Proof. unfold enumerate. apply snd_zip. by rewrite length_seq. Qed.

Lemma fmap_enumerate {A B : Type} (f : A → B) (l : list A) :
  f <$> l = (λ e, f e.2) <$> enumerate l.
Proof.
  transitivity (f <$> (enumerate l).*2); [by rewrite snd_enumerate|].
  by rewrite <-list_fmap_compose.
Qed.

(** ** Stateful fallible code: explicit state passing *)
Definition ST (S E A : Type) : Type := S → outcome E A * S.

#[export] Instance st_ret (S E : Type) : MRet (ST S E) := λ A a s, (Ok a, s).
#[export] Instance st_bind (S E : Type) : MBind (ST S E) :=
  λ A B f m s,
    match m s with
    | (Ok a, s') => f a s'
    | (Err e, s') => (Err e, s')
    | (Panic, s') => (Panic, s')
    end.

Definition st_lift {S E A : Type} (o : outcome E A) : ST S E A := λ s, (o, s).
Definition st_get {S E : Type} : ST S E S := λ s, (Ok s, s).
Definition st_modify {S E : Type} (f : S → S) : ST S E unit := λ s, (Ok (), f s).

(** [Result::map_err] of an effectful computation. *)
Definition st_map_err {S E F A : Type} (f : E → F) (m : ST S E A) : ST S F A :=
  λ s, let '(r, s) := m s in (map_err f r, s).

(** The result as a value: [match ... .await { Ok(a) => .., Err(e) => .. }]. *)
Definition st_try {S E F A : Type} (m : ST S E A) : ST S F (A + E) :=
  λ s, match m s with
       | (Ok a, s) => (Ok (inl a), s)
       | (Err e, s) => (Ok (inr e), s)
       | (Panic, s) => (Panic, s)
       end.

Lemma st_bind_ok {S E A B : Type} (m : ST S E A) (f : A → ST S E B) s a s' :
  m s = (Ok a, s') → (m ≫= f) s = f a s'.
Proof. intros H. unfold mbind, st_bind. by rewrite H. Qed.

Lemma st_bind_err {S E A B : Type} (m : ST S E A) (f : A → ST S E B) s e s' :
  m s = (Err e, s') → (m ≫= f) s = (Err e, s').
Proof. intros H. unfold mbind, st_bind. by rewrite H. Qed.

Lemma st_bind_panic {S E A B : Type} (m : ST S E A) (f : A → ST S E B) s s' :
  m s = (Panic, s') → (m ≫= f) s = (Panic, s').
Proof. intros H. unfold mbind, st_bind. by rewrite H. Qed.

(** Inversion of successful runs. *)
Lemma st_bind_inv {S E A B : Type} (m : ST S E A) (f : A → ST S E B) s b s' :
  (m ≫= f) s = (Ok b, s') → ∃ a s1, m s = (Ok a, s1) ∧ f a s1 = (Ok b, s').
Proof. unfold mbind, st_bind. destruct (m s) as [[a|e|] s1]; [eauto|done..]. Qed.

Lemma st_lift_inv {S E A : Type} (o : outcome E A) (s s' : S) a :
  st_lift o s = (Ok a, s') → o = Ok a ∧ s' = s.
Proof. unfold st_lift. by intros [= -> ->]. Qed.

Lemma st_ret_inv {S E A : Type} (a b : A) (s s' : S) :
  (mret a : ST S E A) s = (Ok b, s') → b = a ∧ s' = s.
Proof. unfold mret, st_ret. by intros [= -> ->]. Qed.

Fixpoint st_map {S E A B : Type} (f : A → ST S E B) (l : list A) : ST S E (list B) :=
  match l with
  | [] => mret []
  | x :: l => y ← f x; ys ← st_map f l; mret (y :: ys)
  end.

(** ** Bytes

    A [u8] is the 256-constructor [byte] of the core library, so that every
    value of the model is in range by construction; [u8_val] and [u8_of] are
    the conversions [u8 as usize] and [usize as u8] (which truncates). *)
Abbreviation byte := Byte.byte.
Abbreviation u8_zero := Byte.x00.

#[export] Instance byte_eq_dec : EqDecision byte := Byte.byte_eq_dec.

#[export] Instance byte_inhabited : Inhabited byte := populate u8_zero.

Definition u8_val (b : byte) : N := Byte.to_N b.

Definition u8_of (n : N) : byte := default u8_zero (Byte.of_N (n `mod` 256)).

Lemma u8_val_bound b : (u8_val b < 256)%N.
Proof. pose proof (Byte.to_N_bounded b). unfold u8_val. lia. Qed.

Lemma u8_of_val b : u8_of (u8_val b) = b.
Proof.
  unfold u8_of. rewrite N.mod_small by apply u8_val_bound.
  unfold u8_val. by rewrite Byte.of_to_N.
Qed.

Lemma u8_val_of n : u8_val (u8_of n) = (n `mod` 256)%N.
Proof.
  unfold u8_of, u8_val.
  destruct (Byte.of_N (n `mod` 256)) as [b|] eqn:E; simpl.
  - by apply Byte.to_of_N in E.
  - apply Byte.of_N_None_iff in E.
    pose proof (N.mod_upper_bound n 256). lia.
Qed.

Lemma u8_val_of_small n : (n < 256)%N → u8_val (u8_of n) = n.
Proof. intros ?. by rewrite u8_val_of, N.mod_small. Qed.

#[export] Instance u8_val_inj : Inj (=) (=) u8_val.
Proof. intros a b H. by rewrite <-(u8_of_val a), <-(u8_of_val b), H. Qed.

#[export] Instance byte_countable : Countable byte :=
  inj_countable' u8_val u8_of u8_of_val.

(** The value of little-endian bytes. *)
Definition le_value (l : list byte) : N := foldr (λ b n, u8_val b + 256 * n)%N 0%N l.

(** A decidable statement about all bytes is a finite check. *)
Definition all_bytes : list byte := u8_of <$> (N.of_nat <$> seq 0 256).

Lemma all_bytes_complete b : b ∈ all_bytes.
Proof.
  unfold all_bytes. apply list_elem_of_fmap. exists (u8_val b).
  split; [by rewrite u8_of_val|]. apply list_elem_of_fmap.
  exists (N.to_nat (u8_val b)). split; [lia|].
  apply elem_of_seq. pose proof (u8_val_bound b). lia.
Qed.

Lemma forall_bytes (P : byte → bool) :
  forallb P all_bytes = true → ∀ b, P b = true.
Proof.
  intros H b. rewrite forallb_forall in H. apply H.
  apply list_elem_of_In, all_bytes_complete.
Qed.

(** Proves [∀ b, P b = true] by running [P] on the 256 bytes. *)
Ltac by_bytes :=
  match goal with
  | |- ∀ b : byte, @?P b = true =>
      apply (forall_bytes P); vm_compute; reflexivity
  end.

(** ** [xor] of bytes *)
Definition byte_xor (a b : byte) : byte := u8_of (N.lxor (u8_val a) (u8_val b)).

Lemma lxor_bound a b n : (a < 2 ^ n → b < 2 ^ n → N.lxor a b < 2 ^ n)%N.
Proof.
  intros Ha Hb. destruct (N.eq_dec (N.lxor a b) 0%N) as [->|Hne]; [lia|].
  apply N.log2_lt_pow2; [lia|].
  pose proof (N.log2_lxor a b) as Hl.
  destruct (N.eq_dec a 0%N) as [->|]; destruct (N.eq_dec b 0%N) as [->|].
  - by rewrite N.lxor_0_l in Hne.
  - rewrite N.lxor_0_l. apply N.log2_lt_pow2; lia.
  - rewrite N.lxor_0_r. apply N.log2_lt_pow2; lia.
  - assert (N.log2 a < n)%N by (apply N.log2_lt_pow2; lia).
    assert (N.log2 b < n)%N by (apply N.log2_lt_pow2; lia). lia.
Qed.

Lemma byte_xor_val a b : u8_val (byte_xor a b) = N.lxor (u8_val a) (u8_val b).
Proof.
  apply u8_val_of_small. apply (lxor_bound _ _ 8); apply u8_val_bound.
Qed.

Lemma byte_xor_comm a b : byte_xor a b = byte_xor b a.
Proof. apply (inj u8_val). by rewrite !byte_xor_val, N.lxor_comm. Qed.

Lemma byte_xor_assoc a b c : byte_xor a (byte_xor b c) = byte_xor (byte_xor a b) c.
Proof. apply (inj u8_val). by rewrite !byte_xor_val, N.lxor_assoc. Qed.

Lemma byte_xor_nilpotent a : byte_xor a a = u8_zero.
Proof. apply (inj u8_val). by rewrite byte_xor_val, N.lxor_nilpotent. Qed.

Lemma byte_xor_0_l a : byte_xor u8_zero a = a.
Proof. apply (inj u8_val). rewrite byte_xor_val. apply N.lxor_0_l. Qed.

Lemma byte_xor_cancel a b : byte_xor (byte_xor a b) b = a.
Proof.
  by rewrite <-byte_xor_assoc, byte_xor_nilpotent, byte_xor_comm, byte_xor_0_l.
Qed.

(** ** Lists *)
Lemma fmap_nth_seq {A B : Type} (h : A → B) (l : list A) (d : A) :
  (λ k, h (nth k l d)) <$> seq 0 (length l) = h <$> l.
Proof.
  induction l as [|a l IH]; [done|]. csimpl. f_equal.
  by rewrite <-fmap_S_seq, <-list_fmap_compose.
Qed.

Lemma nth_fmap {A B : Type} (f : A → B) (l : list A) (d : A) (e : B) k :
  k < length l → nth k (f <$> l) e = f (nth k l d).
Proof.
  revert k. induction l as [|a l IH]; intros [|k] Hk; simpl in *; [lia..|done|].
  apply IH. lia.
Qed.

Lemma nth_lookup_Some {A : Type} (l : list A) k (d x : A) :
  l !! k = Some x → nth k l d = x.
Proof. intros H. by rewrite nth_lookup, H. Qed.

Lemma st_map_ok {S E A B : Type} (f : A → ST S E B) (P : A → B → Prop) (l : list A) :
  (∀ x s, x ∈ l → ∃ y s', f x s = (Ok y, s') ∧ P x y) →
  ∀ s, ∃ ys s', st_map f l s = (Ok ys, s') ∧ Forall2 P l ys.
Proof.
  induction l as [|x l IH]; intros H s; [by exists [], s|].
  destruct (H x s) as (y & s1 & Hy & HP); [by left|].
  destruct (IH) with (s := s1) as (ys & s2 & Hys & HF).
  { intros. apply H. by right. }
  exists (y :: ys), s2. split; [|by constructor].
  simpl. unfold mbind, st_bind. by rewrite Hy, Hys.
Qed.

(** ** Hash maps

    [iter.collect::<HashMap<_, _>>()]: of two entries with the same key, the
    later one remains. *)
Definition hashmap_collect `{Countable K} {V : Type} (l : list (K * V)) : gmap K V :=
  fold_left (λ m '(k, v), <[k := v]> m) l ∅.

Lemma hashmap_collect_lookup `{Countable K} {V : Type} (l : list (K * V)) k v :
  NoDup l.*1 → hashmap_collect l !! k = Some v ↔ (k, v) ∈ l.
Proof.
  intros Hnd. unfold hashmap_collect.
  enough (∀ m : gmap K V, (∀ k, is_Some (m !! k) → k ∉ l.*1) →
    fold_left (λ m '(k, v), <[k := v]> m) l m !! k = Some v ↔ m !! k = Some v ∨ (k, v) ∈ l)
    as E.
  { rewrite E by (intros ?; rewrite lookup_empty; by intros [? ?]).
    rewrite lookup_empty. naive_solver. }
  induction l as [|[k' v'] l IH]; intros m Hm; simpl; [set_solver|].
  csimpl in *. apply NoDup_cons in Hnd as [Hk Hnd]. rewrite IH; [|done|].
  - rewrite elem_of_cons. destruct (decide (k = k')) as [->|Hne].
    + rewrite lookup_insert_eq. split.
      * intros [[= ->]|Hin]; [by right; left|]. destruct Hk.
        apply list_elem_of_fmap. by exists (k', v).
      * intros [Hs|[[= ->]|Hin]]; [|by left|by right].
        destruct (Hm k'); [by eauto|by left].
    + rewrite lookup_insert_ne by done. naive_solver.
  - intros j [x Hj]. destruct (decide (j = k')) as [->|Hne]; [done|].
    rewrite lookup_insert_ne in Hj by done.
    assert (j ∉ k' :: l.*1) as Hnin by (apply Hm; eauto). set_solver.
Qed.

(** The keys of a collected map are the keys of the list. *)
Lemma hashmap_collect_None `{Countable K} {V : Type} (l : list (K * V)) k :
  hashmap_collect l !! k = None ↔ k ∉ l.*1.
Proof.
  unfold hashmap_collect.
  enough (∀ m : gmap K V, fold_left (λ m '(k, v), <[k := v]> m) l m !! k = None ↔
    m !! k = None ∧ k ∉ l.*1) as E by (rewrite E, lookup_empty; naive_solver).
  induction l as [|[k' v'] l IH]; intros m; csimpl; [set_solver|].
  rewrite IH, not_elem_of_cons. destruct (decide (k = k')) as [->|Hne].
  - rewrite lookup_insert_eq. naive_solver.
  - rewrite lookup_insert_ne by done. naive_solver.
Qed.

Lemma hashmap_collect_elem `{Countable K} {V : Type} (l : list (K * V)) k v :
  hashmap_collect l !! k = Some v → (k, v) ∈ l.
Proof.
  unfold hashmap_collect.
  enough (∀ m : gmap K V, fold_left (λ m '(k, v), <[k := v]> m) l m !! k = Some v →
    m !! k = Some v ∨ (k, v) ∈ l) as E.
  { intros Hl. destruct (E ∅ Hl) as [He|]; [|done]. by rewrite lookup_empty in He. }
  induction l as [|[k' v'] l IH]; intros m Hm; simpl in *; [by left|].
  destruct (IH _ Hm) as [Hk|]; [|by right; right].
  destruct (decide (k' = k)) as [->|Hne].
  - rewrite lookup_insert_eq in Hk. injection Hk as ->. right. by left.
  - rewrite lookup_insert_ne in Hk by done. by left.
Qed.

(** A list without duplicates is one as long as its set. *)
Lemma size_list_to_set_le `{Countable A} (l : list A) :
  size (list_to_set l : gset A) ≤ length l.
Proof.
  induction l as [|a l IH]; [done|]. simpl.
  pose proof (size_union_alt ({[a]} : gset A) (list_to_set l)) as Hu. rewrite size_singleton in Hu.
  assert (size ((list_to_set l : gset A) ∖ {[a]}) ≤ size (list_to_set l : gset A))
    by (apply subseteq_size; set_solver). lia.
Qed.

Lemma NoDup_size_list_to_set `{Countable A} (l : list A) :
  size (list_to_set l : gset A) = length l ↔ NoDup l.
Proof.
  split; [|apply size_list_to_set]. induction l as [|a l IH]; [constructor|]. simpl.
  pose proof (size_list_to_set_le l). destruct (decide (a ∈ l)) as [Hin|Hin].
  - assert ({[a]} ∪ list_to_set l = (list_to_set l : gset A)) as -> by set_solver. lia.
  - intros Hs. constructor; [done|]. apply IH.
    rewrite size_union, size_singleton in Hs by set_solver. lia.
Qed.

(** ** Iteration over maps

    A [HashMap] is iterated over in some order of its entries. *)
Class HashOrder : Type := hash_order : ∀ {A : Type}, list A → list A.
Class HashOrderLaws `{HashOrder} : Prop := hash_order_perm A (l : list A) : hash_order l ≡ₚ l.

(** ** Invariants of step relations *)
Lemma rtc_invariant {A : Type} (R : relation A) (P : A → Prop) :
  (∀ x y, P x → R x y → P y) → ∀ x y, rtc R x y → P x → P y.
Proof. intros Hstep x y Hr. induction Hr; eauto. Qed.
