(* ===== verification/Gf256.v ===== *)
(** * The field GF(2⁸) ([crates/crypto/src/gf256.rs])

    The logarithm tables, the field operations built on them, and the proof
    that these operations are those of F₂[x]/(x⁸+x⁴+x³+x+1): the table
    multiplication agrees with shift-and-reduce multiplication, and the field
    axioms follow, so that [ring] and [field] work on the elements. *)

From Stdlib Require Import NArith Lia Btauto Ring Field.
From Stdlib Require Import Strings.Byte.
From S2P Require Import Prelude.

(** An element wraps one byte. *)
Abbreviation GF256 := byte (only parsing).

(** ** The tables *)
Definition EXP : list byte :=
  [x01; x03; x05; x0f; x11; x33; x55; xff; x1a; x2e; x72; x96; xa1; xf8; x13; x35;
   x5f; xe1; x38; x48; xd8; x73; x95; xa4; xf7; x02; x06; x0a; x1e; x22; x66; xaa;
   xe5; x34; x5c; xe4; x37; x59; xeb; x26; x6a; xbe; xd9; x70; x90; xab; xe6; x31;
   x53; xf5; x04; x0c; x14; x3c; x44; xcc; x4f; xd1; x68; xb8; xd3; x6e; xb2; xcd;
   x4c; xd4; x67; xa9; xe0; x3b; x4d; xd7; x62; xa6; xf1; x08; x18; x28; x78; x88;
   x83; x9e; xb9; xd0; x6b; xbd; xdc; x7f; x81; x98; xb3; xce; x49; xdb; x76; x9a;
   xb5; xc4; x57; xf9; x10; x30; x50; xf0; x0b; x1d; x27; x69; xbb; xd6; x61; xa3;
   xfe; x19; x2b; x7d; x87; x92; xad; xec; x2f; x71; x93; xae; xe9; x20; x60; xa0;
   xfb; x16; x3a; x4e; xd2; x6d; xb7; xc2; x5d; xe7; x32; x56; xfa; x15; x3f; x41;
   xc3; x5e; xe2; x3d; x47; xc9; x40; xc0; x5b; xed; x2c; x74; x9c; xbf; xda; x75;
   x9f; xba; xd5; x64; xac; xef; x2a; x7e; x82; x9d; xbc; xdf; x7a; x8e; x89; x80;
   x9b; xb6; xc1; x58; xe8; x23; x65; xaf; xea; x25; x6f; xb1; xc8; x43; xc5; x54;
   xfc; x1f; x21; x63; xa5; xf4; x07; x09; x1b; x2d; x77; x99; xb0; xcb; x46; xca;
   x45; xcf; x4a; xde; x79; x8b; x86; x91; xa8; xe3; x3e; x42; xc6; x51; xf3; x0e;
   x12; x36; x5a; xee; x29; x7b; x8d; x8c; x8f; x8a; x85; x94; xa7; xf2; x0d; x17;
   x39; x4b; xdd; x7c; x84; x97; xa2; xfd; x1c; x24; x6c; xb4; xc7; x52; xf6].

Definition LOG : list byte :=
  [x00; x19; x01; x32; x02; x1a; xc6; x4b; xc7; x1b; x68; x33; xee; xdf; x03; x64;
   x04; xe0; x0e; x34; x8d; x81; xef; x4c; x71; x08; xc8; xf8; x69; x1c; xc1; x7d;
   xc2; x1d; xb5; xf9; xb9; x27; x6a; x4d; xe4; xa6; x72; x9a; xc9; x09; x78; x65;
   x2f; x8a; x05; x21; x0f; xe1; x24; x12; xf0; x82; x45; x35; x93; xda; x8e; x96;
   x8f; xdb; xbd; x36; xd0; xce; x94; x13; x5c; xd2; xf1; x40; x46; x83; x38; x66;
   xdd; xfd; x30; xbf; x06; x8b; x62; xb3; x25; xe2; x98; x22; x88; x91; x10; x7e;
   x6e; x48; xc3; xa3; xb6; x1e; x42; x3a; x6b; x28; x54; xfa; x85; x3d; xba; x2b;
   x79; x0a; x15; x9b; x9f; x5e; xca; x4e; xd4; xac; xe5; xf3; x73; xa7; x57; xaf;
   x58; xa8; x50; xf4; xea; xd6; x74; x4f; xae; xe9; xd5; xe7; xe6; xad; xe8; x2c;
   xd7; x75; x7a; xeb; x16; x0b; xf5; x59; xcb; x5f; xb0; x9c; xa9; x51; xa0; x7f;
   x0c; xf6; x6f; x17; xc4; x49; xec; xd8; x43; x1f; x2d; xa4; x76; x7b; xb7; xcc;
   xbb; x3e; x5a; xfb; x60; xb1; x86; x3b; x52; xa1; x6c; xaa; x55; x29; x9d; x97;
   xb2; x87; x90; x61; xbe; xdc; xfc; xbc; x95; xcf; xcd; x37; x3f; x5b; xd1; x53;
   x39; x84; x3c; x41; xa2; x6d; x47; x14; x2a; x9e; x5d; x56; xf2; xd3; xab; x44;
   x11; x92; xd9; x23; x20; x2e; x89; xb4; x7c; xb8; x26; x77; x99; xe3; xa5; x67;
   x4a; xed; xde; xc5; x31; xfe; x18; x0d; x63; x8c; x80; xc0; xf7; x70; x07].

(** [log] asserts that its argument is not zero ([None] is the failed
    assertion) and reads a [u16] out of the table; [exp] reduces its index
    modulo 255. *)
Definition log (x : GF256) : option N :=
  if decide (x = u8_zero) then None
  else Some (u8_val (nth (N.to_nat (u8_val x) - 1) LOG u8_zero)).

Definition exp (x : N) : GF256 := nth (N.to_nat (x `mod` 255)) EXP u8_zero.

(** ** Operations *)
Definition gf_zero : GF256 := x00.
Definition gf_one : GF256 := x01.

Definition gf_add (a b : GF256) : GF256 := byte_xor a b.
Definition gf_sub (a b : GF256) : GF256 := gf_add a b.
Definition gf_neg (a : GF256) : GF256 := gf_sub gf_zero a.

(** The last branch is the assertion of [log]; [log_nonzero] shows that it is
    never taken. *)
Definition gf_mul (a b : GF256) : GF256 :=
  if decide (a = u8_zero ∨ b = u8_zero) then gf_zero
  else match log a, log b with
       | Some la, Some lb => exp (la + lb)
       | _, _ => gf_zero
       end.

Definition gf_div (a b : GF256) : outcome FastCryptoError GF256 :=
  if decide (b = u8_zero) then Err InvalidInput
  else if decide (a = u8_zero) then Ok gf_zero
  else match log a, log b with
       | Some la, Some lb => Ok (exp (255 + la - lb))
       | _, _ => Panic
       end.

(** [From<u8>] and [From<GF256> for u8]. *)
Definition gf_from_u8 (value : byte) : GF256 := value.
Definition u8_from_gf (value : GF256) : byte := value.

Definition gf_product (l : list GF256) : GF256 := fold_left gf_mul l gf_one.
Definition gf_sum (l : list GF256) : GF256 := fold_left gf_add l gf_zero.

(** ** Reference multiplication

    [xtime] multiplies by x and reduces modulo 0x11b; [rijndael_mul] adds the
    shifted copies of [a] that the bits of [b] select. *)
Definition xtime (n : N) : N :=
  let s := N.shiftl n 1 in
  if N.testbit s 8 then N.lxor s 0x11b else s.

Fixpoint xtimes (i : nat) (n : N) : N :=
  match i with O => n | S i => xtime (xtimes i n) end.

Fixpoint rijndael_sum (k : nat) (a b : N) : N :=
  match k with
  | O => 0
  | S k => N.lxor (if N.testbit b (N.of_nat k) then xtimes k a else 0)
                  (rijndael_sum k a b)
  end.

Definition rijndael_mul (a b : N) : N := rijndael_sum 8 a b.

(** ** The tables are mutually inverse logarithm tables of the generator 3 *)
Lemma exp_mod n : exp (n `mod` 255) = exp n.
Proof. unfold exp. by rewrite N.Div0.mod_mod. Qed.

Lemma log_check x l : log x = Some l → exp l = x ∧ (l < 255)%N.
Proof.
  assert (∀ x, match log x with
    | Some l => bool_decide (exp l = x) && (l <? 255)%N
    | None => true end = true) as H by by_bytes.
  intros E. specialize (H x). rewrite E in H.
  apply andb_true_iff in H as [H1 H2].
  split; [by apply bool_decide_eq_true in H1|by apply N.ltb_lt].
Qed.

Lemma log_nonzero x : x ≠ u8_zero → is_Some (log x).
Proof. unfold log. case_decide; [done|eauto]. Qed.

Lemma exp_check n :
  log (exp n) = Some (n `mod` 255)%N ∧
  u8_val (exp (n + 1)) =
    N.lxor (xtime (u8_val (exp n))) (u8_val (exp n)).
Proof.
  assert (forallb (λ i, let n := N.of_nat i in
      bool_decide (log (exp n) = Some n) &&
      bool_decide (u8_val (exp (n + 1)) =
        N.lxor (xtime (u8_val (exp n))) (u8_val (exp n)))) (seq 0 255) = true)
    as H by (vm_compute; reflexivity).
  rewrite forallb_forall in H.
  assert (n `mod` 255 < 255)%N by (apply N.mod_upper_bound; lia).
  assert (In (N.to_nat (n `mod` 255)) (seq 0 255)) as Hin.
  { apply in_seq. split; [apply Nat.le_0_l|lia]. }
  specialize (H _ Hin). cbv zeta in H. rewrite N2Nat.id in H.
  apply andb_true_iff in H as [H1%bool_decide_eq_true H2%bool_decide_eq_true].
  rewrite exp_mod in H1, H2. split; [done|].
  rewrite <-H2, <-(exp_mod (n + 1)), <-(exp_mod (n `mod` 255 + 1)).
  by rewrite N.Div0.add_mod_idemp_l.
Qed.

Lemma exp_nonzero n : exp n ≠ u8_zero.
Proof.
  intros E. destruct (exp_check n) as [H _]. by rewrite E in H.
Qed.

(** Every element is zero or a power of the generator. *)
Lemma gf_cases a : a = gf_zero ∨ ∃ n, a = exp n.
Proof.
  destruct (decide (a = u8_zero)) as [->|Ha]; [by left|right].
  destruct (log_nonzero a Ha) as [l Hl]. exists l.
  symmetry. by apply log_check.
Qed.

Lemma gf_mul_exp m n : gf_mul (exp m) (exp n) = exp (m + n).
Proof.
  unfold gf_mul. rewrite decide_False.
  2: { intros [H|H]; by apply exp_nonzero in H. }
  rewrite (proj1 (exp_check m)), (proj1 (exp_check n)).
  rewrite <-(exp_mod (m + n)), <-(exp_mod (m `mod` 255 + _)).
  by rewrite <-N.Div0.add_mod.
Qed.

Lemma gf_mul_0_l a : gf_mul gf_zero a = gf_zero.
Proof. unfold gf_mul. by rewrite decide_True by auto. Qed.
Lemma gf_mul_0_r a : gf_mul a gf_zero = gf_zero.
Proof. unfold gf_mul. by rewrite decide_True by auto. Qed.

(** Case analysis of field elements: zero, or a power of the generator. *)
Ltac gf_case a :=
  let n := fresh "n" in
  destruct (gf_cases a) as [->|[n ->]];
  rewrite ?gf_mul_0_l, ?gf_mul_0_r, ?gf_mul_exp; try reflexivity.

Lemma gf_mul_comm a b : gf_mul a b = gf_mul b a.
Proof. gf_case a. gf_case b. by rewrite N.add_comm. Qed.

Lemma gf_mul_assoc a b c : gf_mul a (gf_mul b c) = gf_mul (gf_mul a b) c.
Proof. gf_case a. gf_case b. gf_case c. by rewrite N.add_assoc. Qed.

Lemma gf_mul_1_l a : gf_mul gf_one a = a.
Proof. change gf_one with (exp 0). gf_case a. Qed.

(** ** Agreement with the reference multiplication *)
Ltac lxor_bits :=
  apply N.bits_inj; intros ?; rewrite ?N.lxor_spec, ?N.bits_0; btauto.

Lemma xtime_lxor a b : xtime (N.lxor a b) = N.lxor (xtime a) (xtime b).
Proof.
  unfold xtime. rewrite N.shiftl_lxor, N.lxor_spec.
  destruct (N.testbit (N.shiftl a 1) 8), (N.testbit (N.shiftl b 1) 8);
    simpl xorb; cbv iota; lxor_bits.
Qed.

Lemma xtimes_lxor k a b : xtimes k (N.lxor a b) = N.lxor (xtimes k a) (xtimes k b).
Proof. induction k as [|k IH]; simpl; [done|]. by rewrite IH, xtime_lxor. Qed.

Lemma xtimes_xtime k a : xtimes k (xtime a) = xtime (xtimes k a).
Proof. induction k as [|k IH]; simpl; [done|]. by rewrite IH. Qed.

Lemma xtimes_0 k : xtimes k 0 = 0%N.
Proof. induction k as [|k IH]; simpl; [done|]. by rewrite IH. Qed.

Lemma rijndael_sum_0_l k b : rijndael_sum k 0 b = 0%N.
Proof.
  induction k as [|k IH]; simpl; [done|]. rewrite IH, xtimes_0.
  by destruct (N.testbit b _).
Qed.

Lemma rijndael_sum_lxor_l k a a' b :
  rijndael_sum k (N.lxor a a') b =
  N.lxor (rijndael_sum k a b) (rijndael_sum k a' b).
Proof.
  induction k as [|k IH]; simpl; [done|]. rewrite IH, xtimes_lxor.
  destruct (N.testbit b _); lxor_bits.
Qed.

Lemma rijndael_sum_lxor_r k a b b' :
  rijndael_sum k a (N.lxor b b') =
  N.lxor (rijndael_sum k a b) (rijndael_sum k a b').
Proof.
  induction k as [|k IH]; simpl; [done|]. rewrite IH, N.lxor_spec.
  destruct (N.testbit b _), (N.testbit b' _); simpl xorb; cbv iota; lxor_bits.
Qed.

Lemma rijndael_sum_xtime k a b :
  rijndael_sum k (xtime a) b = xtime (rijndael_sum k a b).
Proof.
  induction k as [|k IH]; simpl; [done|].
  rewrite IH, xtime_lxor, xtimes_xtime. by destruct (N.testbit b _).
Qed.

Lemma rijndael_mul_1_l b : rijndael_mul 1 (u8_val b) = u8_val b.
Proof.
  revert b. assert (∀ b, N.eqb (rijndael_mul 1 (u8_val b)) (u8_val b) = true)
    as H by by_bytes.
  intros b. by apply N.eqb_eq.
Qed.

Lemma gf_mul_rijndael a b :
  u8_val (gf_mul a b) = rijndael_mul (u8_val a) (u8_val b).
Proof.
  destruct (gf_cases a) as [->|[n ->]].
  { rewrite gf_mul_0_l. symmetry. apply rijndael_sum_0_l. }
  rewrite <-(N2Nat.id n). induction (N.to_nat n) as [|m IH].
  { change (exp _) with gf_one. by rewrite gf_mul_1_l, rijndael_mul_1_l. }
  rewrite Nat2N.inj_succ, <-N.add_1_r, (proj2 (exp_check _)).
  unfold rijndael_mul in *.
  rewrite rijndael_sum_lxor_l, rijndael_sum_xtime, <-IH.
  gf_case b. rewrite <-(proj2 (exp_check _)). do 2 f_equal. lia.
Qed.

Lemma gf_mul_add_distr_r a b c :
  gf_mul (gf_add a b) c = gf_add (gf_mul a c) (gf_mul b c).
Proof.
  apply (inj u8_val). unfold gf_add.
  rewrite byte_xor_val, !gf_mul_rijndael, byte_xor_val.
  apply rijndael_sum_lxor_l.
Qed.

(** ** Division *)
Definition gf_inv (a : GF256) : GF256 :=
  match gf_div gf_one a with Ok r => r | _ => gf_zero end.

Lemma gf_div_exp m n : gf_div (exp m) (exp n) = Ok (exp (m + (255 - n `mod` 255))).
Proof.
  unfold gf_div.
  rewrite (decide_False (P := exp n = _)) by apply exp_nonzero.
  rewrite (decide_False (P := exp m = _)) by apply exp_nonzero.
  rewrite (proj1 (exp_check m)), (proj1 (exp_check n)). f_equal.
  assert (n `mod` 255 < 255)%N by (apply N.mod_upper_bound; lia).
  rewrite <-exp_mod, <-(exp_mod (m + _)). f_equal.
  rewrite <-(N.Div0.add_mod_idemp_l m). f_equal.
  generalize (m `mod` 255)%N. generalize dependent (n `mod` 255)%N. lia.
Qed.

Lemma gf_div_inv a b : b ≠ gf_zero → gf_div a b = Ok (gf_mul a (gf_inv b)).
Proof.
  intros Hb. destruct (gf_cases b) as [->|[n ->]]; [done|].
  unfold gf_inv. change gf_one with (exp 0). rewrite gf_div_exp.
  destruct (gf_cases a) as [->|[m ->]].
  - rewrite gf_mul_0_l. unfold gf_div.
    rewrite decide_False by apply exp_nonzero. by rewrite decide_True.
  - rewrite gf_div_exp, gf_mul_exp. f_equal.
Qed.

Lemma gf_mul_inv_l a : a ≠ gf_zero → gf_mul (gf_inv a) a = gf_one.
Proof.
  intros Ha. destruct (gf_cases a) as [->|[n ->]]; [done|].
  unfold gf_inv. change gf_one with (exp 0). rewrite gf_div_exp, gf_mul_exp.
  rewrite <-exp_mod, <-(exp_mod 0). f_equal.
  assert (n `mod` 255 < 255)%N by (apply N.mod_upper_bound; lia).
  rewrite N.add_0_l, <-N.Div0.add_mod_idemp_r.
  replace (255 - n `mod` 255 + n `mod` 255)%N with 255%N by lia. done.
Qed.

(** ** The field structure *)
Lemma gf_field_theory :
  field_theory gf_zero gf_one gf_add gf_mul gf_sub gf_neg
    (λ a b, gf_mul a (gf_inv b)) gf_inv eq.
Proof.
  constructor; [constructor|done|done|apply gf_mul_inv_l]; intros;
    unfold gf_sub, gf_neg, gf_add in *.
  - apply byte_xor_0_l.
  - apply byte_xor_comm.
  - apply byte_xor_assoc.
  - apply gf_mul_1_l.
  - apply gf_mul_comm.
  - apply gf_mul_assoc.
  - apply gf_mul_add_distr_r.
  - unfold gf_sub, gf_add. by rewrite byte_xor_0_l.
  - unfold gf_sub, gf_add. by rewrite byte_xor_0_l, byte_xor_nilpotent.
Qed.

Add Field GF256_field : gf_field_theory.

Lemma gf_mul_eq_0 a b : gf_mul a b = gf_zero → a = gf_zero ∨ b = gf_zero.
Proof.
  intros H. gf_case a; [by left|]. gf_case b; [by right|].
  rewrite gf_mul_exp in H. by apply exp_nonzero in H.
Qed.

Lemma gf_sub_eq_0 a b : gf_sub a b = gf_zero ↔ a = b.
Proof.
  split; [|intros ->; apply byte_xor_nilpotent].
  intros H. rewrite <-(byte_xor_cancel a b).
  change (byte_xor a b) with (gf_sub a b). rewrite H. apply byte_xor_0_l.
Qed.

(** ** Properties *)

(** C11: the table-driven multiplication is multiplication in
    F₂[x]/(x⁸+x⁴+x³+x+1), for all 65536 pairs of bytes. *)
Theorem gf256_mul_reference (a b : GF256) :
  u8_val (gf_mul a b) = rijndael_mul (u8_val a) (u8_val b).
Proof. apply gf_mul_rijndael. Qed.

(** The operations satisfy the field axioms, with inverses computed by
    [gf_div]; division returns the unique quotient, fails with [InvalidInput]
    exactly on a zero divisor, and never reaches the assertion of [log]. *)
Theorem gf256_field_div :
  field_theory gf_zero gf_one gf_add gf_mul gf_sub gf_neg
    (λ a b, gf_mul a (gf_inv b)) gf_inv eq ∧
  ∀ a b, match gf_div a b with
         | Ok c => b ≠ gf_zero ∧ gf_mul c b = a
         | Err e => b = gf_zero ∧ e = InvalidInput
         | Panic => False
         end.
Proof.
  split; [exact gf_field_theory|]. intros a b.
  destruct (decide (b = gf_zero)) as [->|Hb]; [done|].
  rewrite gf_div_inv by done. split; [done|].
  transitivity (gf_mul a (gf_mul (gf_inv b) b)); [ring|].
  rewrite gf_mul_inv_l by done. ring.
Qed.
