(* ===== verification/Polynomial.v ===== *)
(** * Polynomials over GF(2⁸) ([crates/crypto/src/polynomial.rs])

    Coefficient vectors, lowest degree first, with the operations of the
    source, and the theory the secret sharing needs: evaluation is a ring
    morphism, a nonzero polynomial has fewer roots than coefficients, and
    [interpolate] returns the polynomial through the given points. *)

From Stdlib Require Import NArith Lia Ring Field.
From S2P Require Import Prelude Gf256.

Abbreviation Polynomial := (list GF256) (only parsing).

(** ** Operations *)

(** [self.0.len() - 1] on [usize]: the subtraction overflows on the empty
    vector, the representation of the zero polynomial. *)
Definition degree {E : Type} (p : Polynomial) : outcome E nat :=
  match p with [] => Panic | _ => Ok (length p - 1) end.

Definition evaluate (p : Polynomial) (x : GF256) : GF256 :=
  fold_left (λ sum coefficient, gf_add (gf_mul sum x) coefficient)
    (rev p) gf_zero.

Definition poly_zero : Polynomial := [].
Definition poly_one : Polynomial := [gf_one].

(** [while self.0.last() == Some(&zero) { self.0.pop(); }], on the reversed
    vector. *)
Fixpoint drop_leading_zeros (l : list GF256) : list GF256 :=
  match l with
  | [] => []
  | x :: l' => if decide (x = gf_zero) then drop_leading_zeros l' else l
  end.

Definition strip_trailing_zeros (p : Polynomial) : Polynomial :=
  rev (drop_leading_zeros (rev p)).

Definition monic_linear (constant : GF256) : Polynomial := [constant; gf_one].

Fixpoint zip_longest_add (p q : Polynomial) : Polynomial :=
  match p, q with
  | a :: p, b :: q => gf_add a b :: zip_longest_add p q
  | a :: p, [] => a :: p
  | [], q => q
  end.

Definition poly_add (p q : Polynomial) : Polynomial :=
  strip_trailing_zeros (zip_longest_add p q).

Definition poly_sum (l : list Polynomial) : Polynomial :=
  fold_left poly_add l poly_zero.

(** [Mul<&GF256>]. *)
Definition poly_scale (p : Polynomial) (s : GF256) : Polynomial :=
  strip_trailing_zeros ((λ a, gf_mul a s) <$> p).

(** [Mul]: coefficient [i] sums the products [p_j * q_(i-j)] over the indices
    [j] that both vectors have. *)
Definition mul_coefficient (p q : Polynomial) (dp dq i : nat) : GF256 :=
  gf_sum ((λ j, gf_mul (nth j p gf_zero) (nth (i - j) q gf_zero)) <$>
    List.filter (λ j, (j <=? dp) && (i - j <=? dq)) (seq 0 (S i))).

Definition poly_mul {E : Type} (p q : Polynomial) : outcome E Polynomial :=
  dp ← degree p;
  dq ← degree q;
  Ok (mul_coefficient p q dp dq <$> seq 0 (S (dp + dq))).

(** [Div<&GF256>]. *)
Definition poly_div (p : Polynomial) (divisor : GF256) :
    outcome FastCryptoError Polynomial :=
  inverse ← gf_div gf_one divisor;
  Ok (strip_trailing_zeros ((λ a, gf_mul a inverse) <$> p)).

Fixpoint poly_product_from {E : Type} (acc : Polynomial) (l : list Polynomial) :
    outcome E Polynomial :=
  match l with
  | [] => Ok acc
  | f :: l => acc' ← poly_mul acc f; poly_product_from acc' l
  end.

Definition poly_product {E : Type} (l : list Polynomial) : outcome E Polynomial :=
  poly_product_from poly_one l.

(** The factors of the [j]-th Lagrange basis polynomial. *)
Definition lagrange_factors (points : list (GF256 * GF256)) (j : nat) (x_j : GF256) :
    outcome FastCryptoError (list Polynomial) :=
  try_map (λ '(_, (x_i, _)),
      expect_ok (poly_div (monic_linear (gf_neg x_i)) (gf_sub x_j x_i)))
    (List.filter (λ '(i, _), negb (i =? j)) (enumerate points)).

Definition poly_interpolate (points : list (GF256 * GF256)) :
    outcome FastCryptoError Polynomial :=
  terms ← try_map (λ '(j, (x_j, y_j)),
      factors ← lagrange_factors points j x_j;
      prod ← poly_product factors;
      Ok (poly_scale prod y_j))
    (enumerate points);
  Ok (poly_sum terms).

(** ** Evaluation *)

(** Horner evaluation from the low end, the form the proofs use. *)
Fixpoint peval (p : Polynomial) (x : GF256) : GF256 :=
  match p with
  | [] => gf_zero
  | a :: p => gf_add a (gf_mul x (peval p x))
  end.

Lemma evaluate_peval p x : evaluate p x = peval p x.
Proof.
  unfold evaluate. rewrite <-fold_left_rev_right, rev_involutive.
  induction p as [|a p IH]; simpl; [done|]. rewrite IH. ring.
Qed.

Lemma peval_app_zeros p n x : peval (p ++ replicate n gf_zero) x = peval p x.
Proof.
  induction p as [|a p IH]; simpl; [|by rewrite IH].
  induction n as [|n IH]; simpl; [done|]. rewrite IH. ring.
Qed.

Lemma drop_leading_zeros_spec l :
  ∃ n, l = replicate n gf_zero ++ drop_leading_zeros l.
Proof.
  induction l as [|x l [n IH]]; simpl; [by exists 0|].
  case_decide; subst.
  - exists (S n). simpl. by rewrite <-IH.
  - by exists 0.
Qed.

Lemma strip_spec p : ∃ n, p = strip_trailing_zeros p ++ replicate n gf_zero.
Proof.
  unfold strip_trailing_zeros.
  destruct (drop_leading_zeros_spec (rev p)) as [n H]. exists n.
  rewrite <-(rev_involutive p) at 1. rewrite H at 1.
  rewrite rev_app_distr. f_equal.
  clear. induction n as [|n IH]; simpl; [done|].
  rewrite IH. by rewrite <-replicate_cons_app.
Qed.

Lemma strip_length p : length (strip_trailing_zeros p) ≤ length p.
Proof.
  destruct (strip_spec p) as [n H]. rewrite H at 2. rewrite length_app. lia.
Qed.

Lemma peval_strip p x : peval (strip_trailing_zeros p) x = peval p x.
Proof.
  destruct (strip_spec p) as [n H]. rewrite H at 2. by rewrite peval_app_zeros.
Qed.

Lemma peval_zip_longest p q x :
  peval (zip_longest_add p q) x = gf_add (peval p x) (peval q x).
Proof.
  revert q. induction p as [|a p IH]; intros [|b q]; simpl; try ring.
  rewrite IH. ring.
Qed.

Lemma peval_map_mul p s x :
  peval ((λ a, gf_mul a s) <$> p) x = gf_mul (peval p x) s.
Proof. induction p as [|a p IH]; csimpl; [ring|]. rewrite IH. ring. Qed.

Lemma peval_add p q x : peval (poly_add p q) x = gf_add (peval p x) (peval q x).
Proof. unfold poly_add. by rewrite peval_strip, peval_zip_longest. Qed.

Lemma peval_scale p s x : peval (poly_scale p s) x = gf_mul (peval p x) s.
Proof. unfold poly_scale. by rewrite peval_strip, peval_map_mul. Qed.

Lemma zip_longest_length p q :
  length (zip_longest_add p q) = length p `max` length q.
Proof.
  revert q. induction p as [|a p IH]; intros [|b q]; simpl; try lia.
  rewrite IH. lia.
Qed.

Lemma poly_add_length p q n :
  length p ≤ n → length q ≤ n → length (poly_add p q) ≤ n.
Proof.
  intros. unfold poly_add. etrans; [apply strip_length|].
  rewrite zip_longest_length. lia.
Qed.

Lemma poly_scale_length p s : length (poly_scale p s) ≤ length p.
Proof. etrans; [apply strip_length|]. by rewrite length_fmap. Qed.

(** ** Sums *)
Definition gsum (l : list GF256) : GF256 := foldr gf_add gf_zero l.

Lemma gf_sum_gsum l : gf_sum l = gsum l.
Proof.
  unfold gf_sum.
  assert (∀ acc, fold_left gf_add l acc = gf_add acc (gsum l)) as H.
  { induction l as [|a l IH]; intros acc; simpl; [ring|]. rewrite IH. ring. }
  rewrite H. ring.
Qed.

Lemma gsum_filter {A : Type} (P : A → bool) (f : A → GF256) (l : list A) :
  (∀ j, j ∈ l → P j = false → f j = gf_zero) →
  gsum (f <$> List.filter P l) = gsum (f <$> l).
Proof.
  induction l as [|a l IH]; intros H; csimpl; [done|].
  assert (gsum (f <$> List.filter P l) = gsum (f <$> l)) as IH'.
  { apply IH. intros. apply H; [by right|done]. }
  destruct (P a) eqn:E; csimpl; rewrite IH'; [done|].
  rewrite (H a); [ring|by left|done].
Qed.

Lemma gsum_zero {A : Type} (f : A → GF256) (l : list A) :
  (∀ j, f j = gf_zero) → gsum (f <$> l) = gf_zero.
Proof.
  intros H. induction l as [|j l IH]; csimpl; [done|]. rewrite H, IH. ring.
Qed.

Lemma gsum_zero_in {A : Type} (f : A → GF256) (l : list A) :
  (∀ j, j ∈ l → f j = gf_zero) → gsum (f <$> l) = gf_zero.
Proof.
  induction l as [|a l IH]; intros H; csimpl; [done|].
  rewrite (H a), IH; [ring| |by left]. intros. apply H. by right.
Qed.

(** ** Tabulated polynomials and convolution *)
Abbreviation tab f n := (f <$> seq 0 n).

Lemma peval_tab_S (f : nat → GF256) n x :
  peval (tab f (S n)) x = gf_add (f 0) (gf_mul x (peval (tab (λ i, f (S i)) n) x)).
Proof. csimpl. by rewrite <-fmap_S_seq, <-list_fmap_compose. Qed.

Lemma peval_tab_lin (a : GF256) (f g : nat → GF256) n x :
  peval (tab (λ i, gf_add (gf_mul a (f i)) (g i)) n) x =
  gf_add (gf_mul a (peval (tab f n) x)) (peval (tab g n) x).
Proof.
  revert f g. induction n as [|n IH]; intros f g; [simpl; ring|].
  rewrite !peval_tab_S, IH. ring.
Qed.

Lemma peval_tab_zero n x : peval (tab (λ _ : nat, gf_zero) n) x = gf_zero.
Proof. induction n as [|n IH]; [done|]. rewrite peval_tab_S, IH. ring. Qed.

Lemma peval_tab_nth p n x :
  length p ≤ n → peval (tab (λ i, nth i p gf_zero) n) x = peval p x.
Proof.
  revert n. induction p as [|a p IH]; intros n Hn.
  - simpl. etrans; [|apply (peval_tab_zero n x)]. f_equal.
    apply list_fmap_ext. intros i j _. by destruct j.
  - destruct n as [|n]; simpl in Hn; [lia|].
    rewrite peval_tab_S. simpl. by rewrite IH by lia.
Qed.

Definition conv (p q : Polynomial) (i : nat) : GF256 :=
  gsum ((λ j, gf_mul (nth j p gf_zero) (nth (i - j) q gf_zero)) <$> seq 0 (S i)).

Lemma conv_nil q i : conv [] q i = gf_zero.
Proof.
  apply gsum_zero. intros j. destruct j; simpl; ring.
Qed.

Lemma conv_cons_0 a p q : conv (a :: p) q 0 = gf_mul a (nth 0 q gf_zero).
Proof. unfold conv. simpl. ring. Qed.

Lemma conv_cons_S a p q i :
  conv (a :: p) q (S i) = gf_add (gf_mul a (nth (S i) q gf_zero)) (conv p q i).
Proof.
  unfold conv. change (seq 0 (S (S i))) with (0 :: seq 1 (S i)).
  by rewrite fmap_cons, <-fmap_S_seq, <-list_fmap_compose.
Qed.

Lemma peval_conv p q n x :
  length p + length q - 1 ≤ n →
  peval (tab (conv p q) n) x = gf_mul (peval p x) (peval q x).
Proof.
  revert n. induction p as [|a p IH]; intros n Hn; simpl.
  { rewrite gf_mul_0_l. etrans; [|apply (peval_tab_zero n x)]. f_equal.
    apply list_fmap_ext. intros. apply conv_nil. }
  simpl in Hn. destruct n as [|n].
  { destruct p, q; simpl in *; try lia. ring. }
  rewrite peval_tab_S, conv_cons_0.
  erewrite (list_fmap_ext (λ i, conv (a :: p) q (S i)))
    by (intros; apply conv_cons_S).
  rewrite (peval_tab_lin a (λ i, nth (S i) q gf_zero)), IH by lia.
  rewrite <-(peval_tab_nth q (S n)), peval_tab_S by lia. ring.
Qed.

Lemma mul_coefficient_conv p q i :
  p ≠ [] → q ≠ [] →
  mul_coefficient p q (length p - 1) (length q - 1) i = conv p q i.
Proof.
  intros Hp Hq. unfold mul_coefficient, conv. rewrite gf_sum_gsum.
  apply gsum_filter. intros j _ Hj.
  assert (length p ≠ 0) by (by destruct p).
  assert (length q ≠ 0) by (by destruct q).
  apply andb_false_iff in Hj as [Hj|Hj]; apply Nat.leb_gt in Hj.
  - rewrite (nth_overflow p) by lia. ring.
  - rewrite (nth_overflow q) by lia. ring.
Qed.

(** The product of two nonempty vectors: no overflow, and evaluation is
    multiplicative. *)
Lemma poly_mul_spec {E : Type} p q :
  p ≠ [] → q ≠ [] →
  ∃ r, poly_mul (E := E) p q = Ok r ∧ length r = length p + length q - 1 ∧
    ∀ x, peval r x = gf_mul (peval p x) (peval q x).
Proof.
  intros Hp Hq. exists (tab (conv p q) (length p + length q - 1)).
  split_and!.
  - unfold poly_mul, degree. destruct p as [|a p]; [done|].
    destruct q as [|b q]; [done|]. unfold mbind, outcome_bind.
    f_equal. rewrite (list_fmap_ext _ (conv (a :: p) (b :: q))).
    + f_equal. f_equal. simpl. lia.
    + intros. by apply mul_coefficient_conv.
  - by rewrite length_fmap, length_seq.
  - intros x. by apply peval_conv.
Qed.

(** ** Lagrange interpolation *)
Definition gprod (l : list GF256) : GF256 := foldr gf_mul gf_one l.

Lemma gprod_fmap_cons {A : Type} (f : A → GF256) a l :
  gprod (f <$> a :: l) = gf_mul (f a) (gprod (f <$> l)).
Proof. done. Qed.

Lemma gprod_one {A : Type} (f : A → GF256) (l : list A) :
  (∀ a, a ∈ l → f a = gf_one) → gprod (f <$> l) = gf_one.
Proof.
  induction l as [|a l IH]; intros H; csimpl; [done|].
  rewrite (H a), IH; [ring| |by left]. intros. apply H. by right.
Qed.

Lemma gprod_zero {A : Type} (f : A → GF256) (l : list A) a :
  a ∈ l → f a = gf_zero → gprod (f <$> l) = gf_zero.
Proof.
  intros Ha H. induction l as [|b l IH]; [by inversion Ha|]; csimpl.
  apply elem_of_cons in Ha as [<-|Ha]; [rewrite H|rewrite (IH Ha)]; ring.
Qed.

Lemma gsum_single {A : Type} (f : A → GF256) (l : list A) a :
  NoDup l → a ∈ l → (∀ b, b ∈ l → b ≠ a → f b = gf_zero) →
  gsum (f <$> l) = f a.
Proof.
  intros Hl Ha H. induction Hl as [|b l Hb Hl IH]; [by inversion Ha|]; csimpl.
  apply elem_of_cons in Ha as [->|Ha].
  - assert (gsum (f <$> l) = gf_zero) as ->; [|ring].
    apply gsum_zero_in. intros c Hc. apply H; [by right|]. by intros ->.
  - rewrite IH, (H b); [ring|by left|by intros ->|done|].
    intros c Hc. apply H. by right.
Qed.

(** The ratio a factor of a basis polynomial contributes at [z]. *)
Definition lagrange_ratio (x_j z x_i : GF256) : GF256 :=
  gf_mul (gf_sub z x_i) (gf_inv (gf_sub x_j x_i)).

Definition others {A : Type} (points : list A) (j : nat) : list (nat * A) :=
  List.filter (λ '(i, _), negb (i =? j)) (enumerate points).

Definition lagrange_basis (points : list (GF256 * GF256)) (j : nat) (x_j z : GF256) :
    GF256 :=
  gprod ((λ '(_, (x_i, _)), lagrange_ratio x_j z x_i) <$> others points j).

(** The value at [z] of the interpolation polynomial. *)
Definition lagrange (points : list (GF256 * GF256)) (z : GF256) : GF256 :=
  gsum ((λ '(j, (x_j, y_j)), gf_mul (lagrange_basis points j x_j z) y_j)
    <$> enumerate points).

Lemma elem_of_others {A : Type} (points : list A) j i p :
  (i, p) ∈ others points j ↔ points !! i = Some p ∧ i ≠ j.
Proof.
  unfold others. rewrite list_elem_of_In, filter_In, <-list_elem_of_In.
  rewrite elem_of_enumerate, negb_true_iff, Nat.eqb_neq. done.
Qed.

Definition factor_ok (x_j : GF256) (e : nat * (GF256 * GF256)) (f : Polynomial) : Prop :=
  f ≠ [] ∧ length f ≤ 2 ∧ ∀ z, peval f z = lagrange_ratio x_j z e.2.1.

Lemma factor_spec x_j i x_i y_i :
  x_j ≠ x_i →
  ∃ f, expect_ok (F := FastCryptoError)
         (poly_div (monic_linear (gf_neg x_i)) (gf_sub x_j x_i)) = Ok f ∧
    factor_ok x_j (i, (x_i, y_i)) f.
Proof.
  intros Hne. set (d := gf_sub x_j x_i).
  assert (d ≠ gf_zero) as Hd by (unfold d; by rewrite gf_sub_eq_0).
  set (l := (λ a, gf_mul a (gf_inv d)) <$> monic_linear (gf_neg x_i)).
  assert (∀ z, peval l z = lagrange_ratio x_j z x_i) as Hl.
  { intros z. unfold l. rewrite peval_map_mul. unfold lagrange_ratio. simpl.
    fold d. ring. }
  exists (strip_trailing_zeros l). unfold poly_div. rewrite gf_div_inv by done.
  split; [|split_and!].
  - unfold mbind, outcome_bind, expect_ok. do 2 f_equal.
    apply list_fmap_ext. intros. ring.
  - intros E. specialize (Hl x_j). rewrite <-peval_strip, E in Hl. simpl in Hl.
    unfold lagrange_ratio in Hl. fold d in Hl.
    rewrite gf_mul_comm, gf_mul_inv_l in Hl; done.
  - etrans; [apply strip_length|]. done.
  - intros z. by rewrite peval_strip.
Qed.

Lemma poly_product_spec {A : Type} (g : GF256 → A → GF256) (l : list A) fs acc :
  acc ≠ [] →
  Forall2 (λ a f, f ≠ [] ∧ length f ≤ 2 ∧ ∀ z, peval f z = g z a) l fs →
  ∃ r, poly_product_from (E := FastCryptoError) acc fs = Ok r ∧ r ≠ [] ∧
    length r ≤ length acc + length l ∧
    ∀ z, peval r z = gf_mul (peval acc z) (gprod (g z <$> l)).
Proof.
  intros Hacc HF. revert acc Hacc.
  induction HF as [|a f l fs (Hf & Hlen & Hev) HF IH]; intros acc Hacc.
  { exists acc. simpl. split_and!; [done|done|lia|]. intros z. simpl. ring. }
  destruct (poly_mul_spec (E := FastCryptoError) acc f) as (r & Hr & Hrl & Hre);
    [done|done|].
  assert (length acc ≠ 0) by (by destruct acc).
  assert (length f ≠ 0) by (by destruct f).
  destruct (IH r) as (r' & Hr' & Hne & Hl' & He').
  { intros ->. simpl in Hrl. lia. }
  exists r'. split_and!; [by simpl; rewrite Hr|done|simpl; lia|].
  intros z. rewrite He', Hre, Hev, gprod_fmap_cons. ring.
Qed.

Definition term_of (points : list (GF256 * GF256)) (e : nat * (GF256 * GF256)) :
    outcome FastCryptoError Polynomial :=
  match e with
  | (j, (x_j, y_j)) =>
      factors ← lagrange_factors points j x_j;
      prod ← poly_product factors;
      Ok (poly_scale prod y_j)
  end.

Lemma poly_interpolate_term_of points :
  poly_interpolate points =
  terms ← try_map (term_of points) (enumerate points); Ok (poly_sum terms).
Proof.
  unfold poly_interpolate. f_equal.
Qed.

Lemma others_length {A : Type} (points : list A) j p :
  points !! j = Some p → S (length (others points j)) ≤ length points.
Proof.
  intros Hp. rewrite <-(enumerate_length points). unfold others.
  apply elem_of_enumerate in Hp. revert Hp. generalize (enumerate points).
  intros l. induction l as [|[k q] l IH]; intros Hp; [by inversion Hp|].
  assert (∀ l' : list (nat * A),
    length (List.filter (λ '(i, _), negb (i =? j)) l') ≤ length l') as Hle.
  { intros l'. induction l' as [|[??] l' IH']; simpl; [lia|].
    destruct (negb _); simpl; lia. }
  apply elem_of_cons in Hp as [[= <- <-]|Hp]; simpl.
  - rewrite Nat.eqb_refl. simpl. specialize (Hle l). lia.
  - specialize (IH Hp). destruct (negb _); simpl; lia.
Qed.

Lemma term_of_spec points j x_j y_j :
  (∀ i p, points !! i = Some p → i ≠ j → x_j ≠ p.1) →
  points !! j = Some (x_j, y_j) →
  ∃ t, term_of points (j, (x_j, y_j)) = Ok t ∧ length t ≤ length points ∧
    ∀ z, peval t z = gf_mul (lagrange_basis points j x_j z) y_j.
Proof.
  intros Hnd Hj. unfold term_of, lagrange_factors.
  edestruct (try_map_ok (E := FastCryptoError) (λ '(_, (x_i, _)),
      expect_ok (poly_div (monic_linear (gf_neg x_i)) (gf_sub x_j x_i)))
    (factor_ok x_j) (others points j)) as (fs & Hfs & HF).
  { intros [i [x_i y_i]] [Hi Hij]%elem_of_others. apply factor_spec.
    by apply (Hnd i (x_i, y_i)). }
  fold (others points j). rewrite Hfs. simpl.
  destruct (poly_product_spec (λ z e, lagrange_ratio x_j z e.2.1)
    (others points j) fs poly_one) as (r & Hr & _ & Hl & He); [done|done|].
  unfold poly_product. rewrite Hr. simpl. eexists. split; [done|]. split.
  - etrans; [apply poly_scale_length|]. pose proof (others_length _ _ _ Hj).
    simpl in Hl. lia.
  - intros z. rewrite peval_scale, He. unfold lagrange_basis.
    rewrite (list_fmap_ext (λ '(_, (x_i, _)), lagrange_ratio x_j z x_i)
      (λ e, lagrange_ratio x_j z e.2.1)) by (by intros ? [? [??]] _).
    simpl. ring.
Qed.

Lemma poly_sum_spec n (ts : list Polynomial) :
  Forall (λ t, length t ≤ n) ts →
  length (poly_sum ts) ≤ n ∧
  ∀ z, peval (poly_sum ts) z = gsum ((λ t, peval t z) <$> ts).
Proof.
  intros H. unfold poly_sum.
  assert (∀ acc, length acc ≤ n → length (fold_left poly_add ts acc) ≤ n ∧
    ∀ z, peval (fold_left poly_add ts acc) z =
      gf_add (peval acc z) (gsum ((λ t, peval t z) <$> ts))) as Hacc.
  { induction H as [|t ts Ht H IH]; intros acc Hacc; csimpl.
    { split; [done|]. intros. ring. }
    destruct (IH (poly_add acc t)) as [H1 H2]; [by apply poly_add_length|].
    split; [done|]. intros z. rewrite H2, peval_add. ring. }
  destruct (Hacc poly_zero) as [H1 H2]; [simpl; lia|].
  split; [done|]. intros z. rewrite H2. simpl. ring.
Qed.

(** With distinct abscissas [interpolate] does not panic. *)
Lemma poly_interpolate_spec points :
  NoDup points.*1 →
  ∃ p, poly_interpolate points = Ok p ∧ length p ≤ length points ∧
    ∀ z, peval p z = lagrange points z.
Proof.
  intros Hnd. rewrite poly_interpolate_term_of.
  destruct (try_map_ok (term_of points) (λ '(j, (x_j, y_j)) t,
      length t ≤ length points ∧
      ∀ z, peval t z = gf_mul (lagrange_basis points j x_j z) y_j)
    (enumerate points)) as (ts & Hts & HF).
  { intros [j [x_j y_j]] Hj%elem_of_enumerate. apply term_of_spec; [|done].
    intros i [x_i y_i] Hi Hij. simpl. intros ->. apply Hij.
    by apply (NoDup_lookup points.*1 i j x_i);
      rewrite ?list_lookup_fmap, ?Hi, ?Hj. }
  rewrite Hts. simpl. exists (poly_sum ts).
  destruct (poly_sum_spec (length points) ts) as [Hl He].
  { clear -HF. induction HF as [|[? [??]] ? ? ? [??] ? ?]; by constructor. }
  split_and!; [done|done|]. intros z. rewrite He. unfold lagrange. f_equal.
  clear -HF. induction HF as [|[? [??]] t ? ? [? Ht] ? IH]; csimpl; [done|].
  by rewrite Ht, IH.
Qed.

Lemma lagrange_at_point points k x y :
  NoDup points.*1 → points !! k = Some (x, y) → lagrange points x = y.
Proof.
  intros Hnd Hk. unfold lagrange.
  assert ((k, (x, y)) ∈ enumerate points) as Hin by by apply elem_of_enumerate.
  rewrite (gsum_single _ _ (k, (x, y))); [|apply enumerate_NoDup|done|].
  - unfold lagrange_basis. rewrite gprod_one; [ring|].
    intros [i [x_i y_i]] [Hi Hne]%elem_of_others. unfold lagrange_ratio.
    assert (x ≠ x_i).
    { intros ->. apply Hne. by apply (NoDup_lookup points.*1 i k x_i);
        rewrite ?list_lookup_fmap, ?Hi, ?Hk. }
    rewrite gf_mul_comm. apply gf_mul_inv_l. by rewrite gf_sub_eq_0.
  - intros [j [x_j y_j]] Hj%elem_of_enumerate Hne.
    unfold lagrange_basis. rewrite (gprod_zero _ _ (k, (x, y))); [ring| |].
    + apply elem_of_others. split; [done|]. intros ->. congruence.
    + unfold lagrange_ratio. rewrite (proj2 (gf_sub_eq_0 x x)) by done. ring.
Qed.

(** ** Roots *)

(** The quotient of [p - p(r)] by [x - r]. *)
Fixpoint root_quotient (p : Polynomial) (r : GF256) : Polynomial :=
  match p with
  | [] => []
  | _ :: p => zip_longest_add p ((λ a, gf_mul a r) <$> root_quotient p r)
  end.

Lemma root_quotient_spec p r z :
  gf_sub (peval p z) (peval p r) =
  gf_mul (gf_sub z r) (peval (root_quotient p r) z).
Proof.
  induction p as [|a p IH]; simpl; [ring|].
  rewrite peval_zip_longest, peval_map_mul.
  transitivity (gf_add (gf_mul (gf_sub z r) (peval p z))
    (gf_mul r (gf_sub (peval p z) (peval p r)))); [ring|].
  rewrite IH. ring.
Qed.

Lemma root_quotient_length p r : length (root_quotient p r) = length p - 1.
Proof.
  induction p as [|a p IH]; simpl; [done|].
  rewrite zip_longest_length, length_fmap, IH. lia.
Qed.

(** A coefficient vector with at least as many distinct roots as entries is
    zero everywhere. *)
Lemma peval_zero_of_roots p rs :
  NoDup rs → length p ≤ length rs → (∀ r, r ∈ rs → peval p r = gf_zero) →
  ∀ z, peval p z = gf_zero.
Proof.
  intros Hnd. revert p. induction Hnd as [|r rs Hr Hnd IH]; intros p Hl Hz z.
  { destruct p; [done|simpl in Hl; lia]. }
  assert (∀ z, peval p z = gf_mul (gf_sub z r) (peval (root_quotient p r) z)) as Hq.
  { intros z'. rewrite <-root_quotient_spec, (Hz r) by (by left). ring. }
  rewrite Hq, IH; [ring| |].
  - rewrite root_quotient_length. simpl in Hl. lia.
  - intros s Hs. specialize (Hz s ltac:(by right)). rewrite Hq in Hz.
    apply gf_mul_eq_0 in Hz as [Hz|Hz]; [|done].
    apply gf_sub_eq_0 in Hz as ->. done.
Qed.

(** Two vectors of at most [n] coefficients that agree on [n] points agree
    everywhere. *)
Lemma peval_unique p q xs :
  NoDup xs → length p ≤ length xs → length q ≤ length xs →
  (∀ x, x ∈ xs → peval p x = peval q x) → ∀ z, peval p z = peval q z.
Proof.
  intros Hnd Hp Hq H z. apply gf_sub_eq_0.
  assert (∀ z, peval (zip_longest_add p q) z = gf_sub (peval p z) (peval q z)) as Hd.
  { intros z'. by rewrite peval_zip_longest. }
  rewrite <-Hd. apply (peval_zero_of_roots _ xs Hnd).
  - rewrite zip_longest_length. lia.
  - intros x Hx. rewrite Hd. apply gf_sub_eq_0. by apply H.
Qed.

(** A polynomial with few coefficients is the interpolant of its own values. *)
Lemma lagrange_unique points p :
  NoDup points.*1 → length p ≤ length points →
  (∀ x y, (x, y) ∈ points → peval p x = y) → ∀ z, lagrange points z = peval p z.
Proof.
  intros Hnd Hl Hp z. destruct (poly_interpolate_spec points Hnd) as (q & _ & Hq & He).
  rewrite <-He. apply (peval_unique _ _ points.*1); [done|by rewrite length_fmap..|].
  intros x Hx. apply list_elem_of_fmap in Hx as ([x' y] & -> & Hx). simpl.
  rewrite (Hp _ _ Hx), He. apply list_elem_of_lookup in Hx as [k Hk].
  by apply (lagrange_at_point _ k).
Qed.

(** ** Properties *)

(** Evaluation is a morphism for every operation on polynomials; the
    product is computed without overflow exactly on nonempty coefficient
    vectors, and division by a scalar fails exactly on zero. *)
Theorem operations_evaluate (p q : Polynomial) (s x : GF256) :
  evaluate (poly_add p q) x = gf_add (evaluate p x) (evaluate q x) ∧
  evaluate (poly_scale p s) x = gf_mul (evaluate p x) s ∧
  evaluate (strip_trailing_zeros p) x = evaluate p x ∧
  match poly_mul (E := FastCryptoError) p q with
  | Ok r => p ≠ [] ∧ q ≠ [] ∧ length r = length p + length q - 1 ∧
      evaluate r x = gf_mul (evaluate p x) (evaluate q x)
  | Err _ => False
  | Panic => p = [] ∨ q = []
  end ∧
  match poly_div p s with
  | Ok r => s ≠ gf_zero ∧ gf_mul (evaluate r x) s = evaluate p x
  | Err e => s = gf_zero ∧ e = InvalidInput
  | Panic => False
  end.
Proof.
  rewrite !evaluate_peval, peval_add, peval_scale, peval_strip.
  split_and!; [done|done|done| |].
  - destruct p as [|a p]; [by left|]. destruct q as [|b q]; [by right|].
    destruct (poly_mul_spec (E := FastCryptoError) (a :: p) (b :: q))
      as (r & -> & Hl & He); [done|done|]. by rewrite !evaluate_peval, He.
  - unfold poly_div. destruct (decide (s = gf_zero)) as [->|Hs]; [done|].
    rewrite gf_div_inv by done. split; [done|].
    rewrite evaluate_peval, peval_strip, peval_map_mul.
    transitivity (gf_mul (peval p x) (gf_mul (gf_inv s) s)); [ring|].
    rewrite gf_mul_inv_l by done. ring.
Qed.

(** Interpolation through points with distinct abscissas returns a
    polynomial with at most as many coefficients as points that passes
    through every point, and any other such polynomial has the same values. *)
Theorem interpolate_correct points :
  NoDup points.*1 →
  ∃ p, poly_interpolate points = Ok p ∧ length p ≤ length points ∧
    (∀ x y, (x, y) ∈ points → evaluate p x = y) ∧
    (∀ q, length q ≤ length points →
      (∀ x y, (x, y) ∈ points → evaluate q x = y) →
      ∀ z, evaluate q z = evaluate p z).
Proof.
  intros Hnd. destruct (poly_interpolate_spec points Hnd) as (p & Hp & Hl & He).
  exists p. split_and!; [done|done| |].
  - intros x y [k Hk]%list_elem_of_lookup. rewrite evaluate_peval, He.
    by apply (lagrange_at_point _ k).
  - intros q Hq Hqp z. rewrite !evaluate_peval, He. symmetry.
    apply lagrange_unique; [done|done|]. intros x y Hx.
    rewrite <-evaluate_peval. by apply Hqp.
Qed.

Lemma interpolate_correct_witness :
  ∃ p, poly_interpolate [(Byte.x01, Byte.x07); (Byte.x02, Byte.x0b); (Byte.x03, Byte.x11)]
    = Ok p ∧ evaluate p Byte.x02 = Byte.x0b.
Proof.
  destruct (interpolate_correct
    [(Byte.x01, Byte.x07); (Byte.x02, Byte.x0b); (Byte.x03, Byte.x11)])
    as (p & Hp & _ & He & _).
  - by apply (bool_decide_unpack (NoDup _)).
  - exists p. split; [exact Hp|]. apply He. by right; left.
Defined.

Lemma lagrange_factors_panic points j x_j y_j k x_k y_k :
  points !! j = Some (x_j, y_j) → points !! k = Some (x_k, y_k) →
  k ≠ j → x_k = x_j → lagrange_factors points j x_j = Panic.
Proof.
  intros Hj Hk Hne ->. unfold lagrange_factors. fold (others points j).
  apply try_map_panic.
  - intros [i [x_i y_i]] _. destruct (decide (x_j = x_i)) as [->|Hx].
    + left. unfold poly_div, gf_div. rewrite (proj2 (gf_sub_eq_0 x_i x_i)) by done.
      done.
    + right. destruct (factor_spec x_j i x_i y_i Hx) as (f & Hf & _). by exists f.
  - exists (k, (x_j, y_k)). rewrite elem_of_others. split; [done|].
    unfold poly_div, gf_div. by rewrite (proj2 (gf_sub_eq_0 x_j x_j)) by done.
Qed.

Lemma term_of_total points j x_j y_j :
  points !! j = Some (x_j, y_j) →
  term_of points (j, (x_j, y_j)) = Panic ∨
  ∃ t, term_of points (j, (x_j, y_j)) = Ok t.
Proof.
  intros Hj.
  destruct (decide (Exists (λ e, e.2.1 = x_j) (others points j))) as [HE|HE].
  - apply Exists_exists in HE as ([k [x_k y_k]] & [Hk Hne]%elem_of_others & Heq).
    left. unfold term_of. by erewrite lagrange_factors_panic by eauto.
  - right. destruct (term_of_spec points j x_j y_j) as (t & Ht & _); [|done|eauto].
    intros i [x_i y_i] Hi Hij Heq. apply HE, Exists_exists.
    exists (i, (x_i, y_i)). rewrite elem_of_others. done.
Qed.

Lemma not_NoDup_lookup {A : Type} `{EqDecision A} (l : list A) :
  ¬ NoDup l → ∃ i j x, j ≠ i ∧ l !! i = Some x ∧ l !! j = Some x.
Proof.
  induction l as [|a l IH]; intros H; [destruct H; constructor|].
  destruct (decide (a ∈ l)) as [[i Hi]%list_elem_of_lookup|Ha].
  { by exists 0, (S i), a. }
  destruct IH as (i & j & x & Hij & Hi & Hj).
  { intros Hl. apply H. by constructor. }
  exists (S i), (S j), x. split; [lia|done].
Qed.

(** Two points with the same abscissa make interpolation panic, as its
    documentation says. *)
Theorem interpolate_duplicate_panics points :
  ¬ NoDup points.*1 → poly_interpolate points = Panic.
Proof.
  intros Hnd. rewrite poly_interpolate_term_of.
  rewrite try_map_panic; [done| |].
  - intros [j [x_j y_j]] Hj%elem_of_enumerate. by apply term_of_total.
  - destruct (not_NoDup_lookup points.*1 Hnd) as (i & j & x & Hij & Hi & Hj).
    rewrite list_lookup_fmap in Hi, Hj.
    destruct (points !! i) as [[x_i y_i]|] eqn:Ei; [|done].
    destruct (points !! j) as [[x_j y_j]|] eqn:Ej; [|done]. simplify_eq/=.
    exists (i, (x, y_i)). rewrite elem_of_enumerate. split; [done|].
    unfold term_of. by erewrite lagrange_factors_panic by eauto.
Qed.

Lemma interpolate_duplicate_panics_witness :
  poly_interpolate [(Byte.x01, Byte.x07); (Byte.x01, Byte.x0b)] = Panic.
Proof.
  apply interpolate_duplicate_panics.
  by apply (bool_decide_unpack (¬ NoDup _)).
Defined.
