(* ===== verification/Utils.v ===== *)
(** * Byte utilities and randomness ([crates/crypto/src/utils.rs])

    [xor], [transpose] and [generate_random_bytes], over an interface for the
    random number generators the functions are generic in. *)

From Stdlib Require Import NArith Lia.
From S2P Require Import Prelude Gf256.

(** ** Random number generators

    The trait [AllowedRng] of the sources' cryptographic library: a state from
    which a byte can be drawn ([rng.gen::<u8>()]) and a buffer filled
    ([rng.fill_bytes]). *)
Class AllowedRng (R : Type) : Type := {
  rng_u8 : R → byte * R;
  rng_fill : nat → R → list byte * R;
}.

(** [fill_bytes] fills the whole buffer. *)
Class RngLaws (R : Type) `{AllowedRng R} : Prop := {
  rng_fill_length n r : length (rng_fill n r).1 = n;
}.

(** A generator that plays back a tape, and zeros after its end. *)
Fixpoint tape_take (n : nat) (l : list byte) : list byte :=
  match n, l with
  | O, _ => []
  | S n, [] => u8_zero :: tape_take n []
  | S n, b :: l => b :: tape_take n l
  end.

#[export] Instance tape_rng : AllowedRng (list byte) := {
  rng_u8 l := match l with [] => (u8_zero, []) | b :: l => (b, l) end;
  rng_fill n l := (tape_take n l, drop n l);
}.

Lemma tape_take_length n l : length (tape_take n l) = n.
Proof. revert l. induction n as [|n IH]; intros [|b l]; simpl; auto. Qed.

#[export] Instance tape_rng_laws : RngLaws (list byte).
Proof. constructor. intros. apply tape_take_length. Qed.

(** ** xor *)
Definition xor_unchecked (a b : list byte) : list byte := zip_with byte_xor a b.

(** Arrays of the same length: the conversion back to an array cannot fail. *)
Definition xor (a b : list byte) : list byte := xor_unchecked a b.

Lemma xor_unchecked_length a b :
  length (xor_unchecked a b) = length a `min` length b.
Proof. apply length_zip_with. Qed.

Lemma xor_unchecked_comm a b : xor_unchecked a b = xor_unchecked b a.
Proof.
  unfold xor_unchecked. revert b.
  induction a as [|x a IH]; intros [|y b]; simpl; [done..|].
  by rewrite IH, byte_xor_comm.
Qed.

Lemma xor_unchecked_cancel a b :
  length a ≤ length b → xor_unchecked (xor_unchecked a b) b = a.
Proof.
  unfold xor_unchecked. revert b.
  induction a as [|x a IH]; intros [|y b] Hl; simpl in *; [done|done|lia|].
  by rewrite byte_xor_cancel, IH by lia.
Qed.

(** ** Random arrays *)
Definition generate_random_bytes `{AllowedRng R} (N : nat) :
    ST R FastCryptoError (list byte) :=
  λ rng, let '(bytes, rng') := rng_fill N rng in (Ok bytes, rng').

Definition gf_rand `{AllowedRng R} : ST R FastCryptoError GF256 :=
  λ rng, let '(b, rng') := rng_u8 rng in (Ok b, rng').

(** ** transpose *)
Definition transpose (N : nat) (matrix : list (list byte)) :
    outcome FastCryptoError (list (list byte)) :=
  if negb (length matrix =? N) || (length matrix =? 0) then Err InvalidInput
  else match length <$> matrix with
       | m :: rest =>
           if forallb (Nat.eqb m) rest
           then Ok ((λ i, (λ row, nth i row u8_zero) <$> matrix) <$> seq 0 m)
           else Err InvalidInput
       | [] => Err InvalidInput
       end.

Lemma transpose_ok N matrix m :
  length matrix = N → N ≠ 0 → Forall (λ row, length row = m) matrix →
  transpose N matrix =
    Ok ((λ i, (λ row, nth i row u8_zero) <$> matrix) <$> seq 0 m).
Proof.
  intros Hl HN HF. unfold transpose. rewrite Hl, Nat.eqb_refl.
  rewrite (proj2 (Nat.eqb_neq N 0) HN). simpl.
  destruct HF as [|row rows Hrow HF]; [simpl in Hl; lia|]. csimpl. rewrite Hrow.
  replace (forallb _ _) with true; [done|]. symmetry.
  apply forallb_forall. intros k Hk%list_elem_of_In.
  apply list_elem_of_fmap in Hk as (r & -> & Hr). apply Nat.eqb_eq.
  rewrite Forall_forall in HF. symmetry. by apply HF.
Qed.
