(* ===== verification/Tss.v ===== *)
(** * Threshold secret sharing ([crates/crypto/src/tss.rs])

    Shamir's scheme, byte by byte, over GF(2⁸): [split], [combine] and
    [interpolate] with the input validation of the source; reconstruction from
    any [threshold] shares and perfect secrecy below the threshold. *)

From Stdlib Require Import NArith Lia Ring Field.
From S2P Require Import Prelude Gf256 Polynomial Utils.

Record SecretSharing : Type := mkSecretSharing {
  ss_secret : list byte;
  ss_indices : list byte;
  ss_shares : list (list byte);
}.

(** [itertools::all_unique]. *)
Definition all_unique (l : list byte) : bool := bool_decide (NoDup l).

Section operations.
  Context {R : Type} `{AllowedRng R}.

Fixpoint rand_vec (n : nat) : ST R FastCryptoError (list GF256) :=
  match n with
  | O => mret []
  | S n => c ← gf_rand; cs ← rand_vec n; mret (c :: cs)
  end.

Definition split_byte (secret threshold : byte) (indices : list byte) :
    ST R FastCryptoError (list byte) :=
  let number_of_shares := u8_of (N.of_nat (length indices)) in
  if bool_decide (threshold = u8_zero)
     || bool_decide (number_of_shares = u8_zero)
     || (u8_val number_of_shares <? u8_val threshold)%N
     || bool_decide (u8_zero ∈ indices)
     || negb (all_unique indices)
  then st_lift (Err InvalidInput)
  else
    rest ← rand_vec (N.to_nat (u8_val threshold) - 1);
    let polynomial := secret :: rest in
    mret ((λ i, evaluate polynomial i) <$> indices).

Definition split (secret : list byte) (threshold number_of_shares : byte) :
    ST R FastCryptoError SecretSharing :=
  if (u8_val number_of_shares <? u8_val threshold)%N
     || bool_decide (threshold = u8_zero)
  then st_lift (Err InvalidInput)
  else
    let indices := u8_of <$> (N.of_nat <$> seq 1 (N.to_nat (u8_val number_of_shares))) in
    byte_shares ← st_map (λ b, split_byte b threshold indices) secret;
    shares ← st_lift (transpose (length secret) byte_shares);
    mret (mkSecretSharing secret indices shares).
End operations.

Definition combine_byte (shares : list (byte * byte)) : outcome FastCryptoError byte :=
  if (length shares =? 0)
     || negb (all_unique shares.*1)
     || bool_decide (u8_zero ∈ shares.*1)
  then Err InvalidInput
  else
    let product := gf_product shares.*1 in
    quotients ← try_map (λ '(i, share_i),
        let denominator :=
          gf_mul i (gf_product ((λ j, gf_sub j i) <$>
            List.filter (λ j, negb (bool_decide (j = i))) shares.*1)) in
        expect_ok (gf_div share_i denominator)) shares;
    let quotient := gf_sum quotients in
    Ok (gf_mul product quotient).

(** The share bytes at position [i]. *)
Definition shares_at (shares : list (byte * list byte)) (i : nat) : list (byte * byte) :=
  (λ share, (share.1, nth i share.2 u8_zero)) <$> shares.

Definition combine (N : nat) (shares : list (byte * list byte)) :
    outcome FastCryptoError (list byte) :=
  try_map (λ i, combine_byte (shares_at shares i)) (seq 0 N).

(** The closure [interpolate] returns evaluates the [N] polynomials. *)
Definition interpolate (N : nat) (shares : list (byte * list byte)) :
    outcome FastCryptoError (byte → list byte) :=
  if (length shares =? 0)
     || bool_decide (u8_zero ∈ shares.*1)
     || negb (all_unique shares.*1)
  then Err InvalidInput
  else
    polynomials ← try_map (λ i, poly_interpolate (shares_at shares i)) (seq 0 N);
    Ok (λ x : byte, (λ p, evaluate p x) <$> (polynomials : list Polynomial)).

(** ** The combination formula is Lagrange interpolation at zero *)
Lemma gf_product_gprod l : gf_product l = gprod l.
Proof.
  unfold gf_product.
  assert (∀ acc, fold_left gf_mul l acc = gf_mul acc (gprod l)) as H.
  { induction l as [|a l IH]; intros acc; simpl; [ring|]. rewrite IH. ring. }
  rewrite H. ring.
Qed.

Lemma gprod_perm l l' : l ≡ₚ l' → gprod l = gprod l'.
Proof. induction 1; simpl; [done|congruence|ring|congruence]. Qed.

Lemma gf_inv_mul a b :
  a ≠ gf_zero → b ≠ gf_zero → gf_inv (gf_mul a b) = gf_mul (gf_inv a) (gf_inv b).
Proof.
  intros Ha Hb. assert (gf_mul a b ≠ gf_zero) as Hab.
  { intros [?|?]%gf_mul_eq_0; done. }
  transitivity (gf_mul (gf_inv (gf_mul a b))
    (gf_mul (gf_mul (gf_inv a) a) (gf_mul (gf_inv b) b))).
  { rewrite !gf_mul_inv_l by done. ring. }
  transitivity (gf_mul (gf_mul (gf_inv (gf_mul a b)) (gf_mul a b))
    (gf_mul (gf_inv a) (gf_inv b))); [ring|].
  rewrite gf_mul_inv_l by done. ring.
Qed.

Lemma gprod_nonzero l : Forall (λ a, a ≠ gf_zero) l → gprod l ≠ gf_zero.
Proof. induction 1; simpl; [done|]. by intros [?|?]%gf_mul_eq_0. Qed.

(** The ratios of the basis polynomial at zero, in characteristic two. *)
Lemma gprod_ratio x js :
  Forall (λ j, gf_sub j x ≠ gf_zero) js →
  gprod ((λ j, lagrange_ratio x gf_zero j) <$> js) =
  gf_mul (gprod js) (gf_inv (gprod ((λ j, gf_sub j x) <$> js))).
Proof.
  induction 1 as [|j js Hj Hjs IH]; [done|].
  rewrite gprod_fmap_cons, (gprod_fmap_cons (λ j, gf_sub j x)), IH.
  rewrite gf_inv_mul; [|done|by apply gprod_nonzero, Forall_fmap].
  unfold lagrange_ratio. simpl gprod.
  replace (gf_sub x j) with (gf_sub j x) by apply byte_xor_comm.
  replace (gf_sub gf_zero j) with j by (symmetry; apply byte_xor_0_l). ring.
Qed.

Lemma filter_snd {A : Type} (P : nat → bool) (Q : A → bool) (l : list (nat * A)) :
  (∀ i a, (i, a) ∈ l → P i = Q a) →
  (List.filter (λ '(i, _), P i) l).*2 = List.filter Q l.*2.
Proof.
  induction l as [|[i a] l IH]; intros H; csimpl; [done|].
  rewrite (H i a) by (by left).
  assert ((List.filter (λ '(i, _), P i) l).*2 = List.filter Q l.*2) as IH'.
  { apply IH. intros. apply H. by right. }
  destruct (Q a); csimpl; by rewrite IH'.
Qed.

Lemma filter_fmap {A B : Type} (f : A → B) (P : B → bool) (l : list A) :
  List.filter P (f <$> l) = f <$> List.filter (λ a, P (f a)) l.
Proof.
  induction l as [|a l IH]; csimpl; [done|]. destruct (P (f a)); csimpl; by rewrite IH.
Qed.

(** Filtering by position and filtering by value agree on distinct indices. *)
Lemma others_values (points : list (byte * byte)) k x y :
  NoDup points.*1 → points !! k = Some (x, y) →
  (λ e, e.2.1) <$> others points k =
  List.filter (λ j, negb (bool_decide (j = x))) points.*1.
Proof.
  intros Hnd Hk. unfold others.
  transitivity ((List.filter (λ '(i, _), negb (i =? k)) (enumerate points)).*2.*1);
    [by rewrite <-list_fmap_compose|].
  rewrite (filter_snd (λ i, negb (i =? k)) (λ p, negb (bool_decide (p.1 = x)))).
  - by rewrite snd_enumerate, filter_fmap.
  - intros i [x' y'] Hi%elem_of_enumerate. f_equal. simpl.
    destruct (Nat.eqb_spec i k) as [->|Hne]; symmetry.
    + apply bool_decide_eq_true. congruence.
    + apply bool_decide_eq_false. intros ->. apply Hne.
      by apply (NoDup_lookup points.*1 i k x);
        rewrite ?list_lookup_fmap, ?Hi, ?Hk.
Qed.

Lemma filter_ne_perm (xs : list byte) x :
  NoDup xs → x ∈ xs →
  xs ≡ₚ x :: List.filter (λ j, negb (bool_decide (j = x))) xs.
Proof.
  induction 1 as [|a xs Ha Hnd IH]; intros Hx; [by inversion Hx|]. simpl.
  apply elem_of_cons in Hx as [->|Hx].
  - rewrite bool_decide_eq_true_2 by done. simpl. f_equiv.
    clear -Ha. induction xs as [|b xs IH]; [done|].
    apply not_elem_of_cons in Ha as [Hne Ha]. simpl.
    rewrite bool_decide_eq_false_2 by done. simpl. by rewrite <-IH.
  - rewrite bool_decide_eq_false_2 by (by intros ->). simpl.
    rewrite (IH Hx) at 1. apply Permutation_swap.
Qed.

Lemma gsum_mul {A : Type} a (f : A → GF256) l :
  gf_mul a (gsum (f <$> l)) = gsum ((λ x, gf_mul a (f x)) <$> l).
Proof. induction l as [|x l IH]; csimpl; [ring|]. rewrite <-IH. ring. Qed.

Lemma combine_byte_lagrange (shares : list (byte * byte)) :
  shares ≠ [] → NoDup shares.*1 → u8_zero ∉ shares.*1 →
  combine_byte shares = Ok (lagrange shares gf_zero).
Proof.
  intros Hne Hnd Hz. unfold combine_byte, all_unique.
  replace (length shares =? 0) with false by (by destruct shares).
  rewrite (bool_decide_eq_true_2 (NoDup _)) by done.
  rewrite (bool_decide_eq_false_2 (_ ∈ _)) by done. cbn [orb negb].
  set (others_of := λ i, List.filter (λ j, negb (bool_decide (j = i))) shares.*1).
  set (den := λ i, gf_mul i (gprod ((λ j, gf_sub j i) <$> others_of i))).
  assert (∀ i, i ∈ shares.*1 →
    Forall (λ j, gf_sub j i ≠ gf_zero) (others_of i) ∧ i ≠ gf_zero) as Hoth.
  { intros i Hi. split; [|by intros ->]. apply Forall_forall.
    intros j Hj%list_elem_of_In. apply filter_In in Hj as [_ Hj].
    rewrite gf_sub_eq_0. apply negb_true_iff, bool_decide_eq_false in Hj. done. }
  destruct (try_map_ok (E := FastCryptoError) (λ '(i, share_i),
      expect_ok (gf_div share_i (gf_mul i (gf_product ((λ j, gf_sub j i) <$> others_of i)))))
    (λ e q, q = gf_mul e.2 (gf_inv (den e.1))) shares) as (qs & Hqs & HF).
  { intros [i s] His. rewrite gf_product_gprod.
    assert (i ∈ shares.*1) as Hi by (apply list_elem_of_fmap; by exists (i, s)).
    destruct (Hoth i Hi) as [Hd Hi0].
    rewrite gf_div_inv; [by eexists|].
    intros [?|Hp]%gf_mul_eq_0; [done|]. revert Hp.
    by apply gprod_nonzero, Forall_fmap. }
  fold others_of. unfold others_of in Hqs at 1. setoid_rewrite Hqs.
  unfold mbind, outcome_bind. f_equal. rewrite gf_sum_gsum, gf_product_gprod.
  apply Forall2_fmap_eq in HF as ->.
  rewrite gsum_mul. unfold lagrange.
  match goal with |- gsum (?f <$> _) = _ => rewrite (fmap_enumerate f shares) end.
  f_equal. apply list_fmap_ext. intros k [j [i s]] Hk.
  apply list_elem_of_lookup_2, elem_of_enumerate in Hk. unfold compose. simpl.
  assert (i ∈ shares.*1) as Hi.
  { apply list_elem_of_fmap. exists (i, s). split; [done|].
    by apply list_elem_of_lookup_2 in Hk. }
  destruct (Hoth i Hi) as [Hd Hi0].
  assert (lagrange_basis shares j i gf_zero =
    gf_mul (gprod (others_of i)) (gf_inv (gprod ((λ j, gf_sub j i) <$> others_of i)))) as ->.
  { rewrite <-gprod_ratio by done. unfold others_of.
    erewrite <-(others_values shares j) by done. rewrite <-list_fmap_compose.
    unfold lagrange_basis. f_equal. apply list_fmap_ext. by intros ? [? [??]] _. }
  rewrite (gprod_perm _ _ (filter_ne_perm _ i Hnd Hi)). fold (others_of i).
  unfold den. rewrite gf_inv_mul; [|done|by apply gprod_nonzero, Forall_fmap].
  simpl gprod. transitivity (gf_mul (gf_mul (gf_inv i) i) (gf_mul s
    (gf_mul (gprod (others_of i)) (gf_inv (gprod ((λ j, gf_sub j i) <$> others_of i))))));
    [ring|]. rewrite gf_mul_inv_l by done. ring.
Qed.

(** ** Validity of a set of shares *)
Definition valid_shares {A : Type} (shares : list (byte * A)) : Prop :=
  shares ≠ [] ∧ NoDup shares.*1 ∧ u8_zero ∉ shares.*1.

Lemma shares_at_fst shares i : (shares_at shares i).*1 = shares.*1.
Proof. unfold shares_at. rewrite <-list_fmap_compose. by apply list_fmap_ext. Qed.

Lemma shares_at_valid shares i : valid_shares shares → valid_shares (shares_at shares i).
Proof.
  intros (Hne & Hnd & Hz). unfold valid_shares. rewrite !shares_at_fst.
  split_and!; [|done..]. by destruct shares.
Qed.

Lemma combine_lagrange N shares :
  valid_shares shares →
  combine N shares = Ok ((λ i, lagrange (shares_at shares i) gf_zero) <$> seq 0 N).
Proof.
  intros Hv. apply try_map_inv. apply Forall2_fmap_r, Forall_Forall2_diag.
  apply Forall_forall. intros i _.
  destruct (shares_at_valid shares i Hv) as (? & ? & ?).
  by apply combine_byte_lagrange.
Qed.

Lemma interpolate_lagrange N shares :
  valid_shares shares →
  ∃ f, interpolate N shares = Ok f ∧
    ∀ x, f x = (λ i, lagrange (shares_at shares i) x) <$> seq 0 N.
Proof.
  intros Hv. pose proof Hv as (Hne & Hnd & Hz).
  unfold interpolate, all_unique.
  replace (length shares =? 0) with false by (by destruct shares).
  rewrite (bool_decide_eq_true_2 (NoDup _)) by done.
  rewrite (bool_decide_eq_false_2 (_ ∈ _)) by done. cbn [orb negb].
  destruct (try_map_ok (λ i, poly_interpolate (shares_at shares i))
    (λ i p, ∀ z, peval p z = lagrange (shares_at shares i) z) (seq 0 N))
    as (ps & Hps & HF).
  { intros i _. destruct (poly_interpolate_spec (shares_at shares i)) as (p & ? & _ & ?);
      [by rewrite shares_at_fst|eauto]. }
  rewrite Hps. unfold mbind, outcome_bind. eexists. split; [done|]. intros x.
  clear -HF. induction HF as [|i p ? ? Hp ? IH]; csimpl; [done|].
  by rewrite evaluate_peval, Hp, IH.
Qed.

(** The inputs [combine] rejects: the check is made once per byte. *)
Lemma combine_invalid N shares :
  N ≠ 0 → ¬ valid_shares shares → combine N shares = Err InvalidInput.
Proof.
  intros HN Hv. destruct N as [|N]; [done|]. unfold combine. simpl.
  assert (combine_byte (shares_at shares 0) = Err InvalidInput) as ->; [|done].
  unfold combine_byte, all_unique. rewrite shares_at_fst.
  destruct (length (shares_at shares 0) =? 0) eqn:E; [done|].
  destruct (decide (NoDup shares.*1)) as [Hnd|Hnd].
  - rewrite (bool_decide_eq_true_2 _ Hnd).
    destruct (decide (u8_zero ∈ shares.*1)) as [Hz|Hz].
    + by rewrite (bool_decide_eq_true_2 _ Hz).
    + destruct Hv. split_and!; [|done..]. by intros ->.
  - by rewrite (bool_decide_eq_false_2 _ Hnd).
Qed.

(** ** Shares of known polynomials *)
Definition share_of (polys : list Polynomial) (i : byte) : list byte :=
  (λ p, evaluate p i) <$> polys.

Lemma lagrange_share_of polys shares i z :
  valid_shares shares →
  Forall (λ p : Polynomial, length p ≤ length shares) polys →
  (∀ j sh, (j, sh) ∈ shares → sh = share_of polys j) →
  i < length polys →
  lagrange (shares_at shares i) z = evaluate (nth i polys []) z.
Proof.
  intros (Hne & Hnd & Hz) Hlen Hsh Hi.
  destruct (lookup_lt_is_Some_2 polys i Hi) as [p Hp].
  rewrite (nth_lookup_Some _ _ _ _ Hp), evaluate_peval.
  apply lagrange_unique; [by rewrite shares_at_fst| |].
  - unfold shares_at. rewrite length_fmap.
    by apply (Forall_lookup_1 _ _ _ _ Hlen Hp).
  - intros x y Hxy. apply list_elem_of_fmap in Hxy as ([j sh] & [= -> ->] & Hj).
    rewrite (Hsh _ _ Hj). unfold share_of. simpl.
    rewrite (nth_fmap _ _ [] _ _ Hi), (nth_lookup_Some _ _ _ _ Hp).
    by rewrite evaluate_peval.
Qed.

Lemma combine_share_of polys shares :
  valid_shares shares →
  Forall (λ p : Polynomial, length p ≤ length shares) polys →
  (∀ j sh, (j, sh) ∈ shares → sh = share_of polys j) →
  combine (length polys) shares = Ok (share_of polys gf_zero).
Proof.
  intros Hv Hlen Hsh. rewrite combine_lagrange by done. f_equal. unfold share_of.
  rewrite <-(fmap_nth_seq (λ p, evaluate p gf_zero) polys []).
  apply list_fmap_ext. intros k i [-> Hi]%lookup_seq. by apply lagrange_share_of.
Qed.

Lemma interpolate_share_of polys shares :
  valid_shares shares →
  Forall (λ p : Polynomial, length p ≤ length shares) polys →
  (∀ j sh, (j, sh) ∈ shares → sh = share_of polys j) →
  ∃ f, interpolate (length polys) shares = Ok f ∧ ∀ x, f x = share_of polys x.
Proof.
  intros Hv Hlen Hsh.
  destruct (interpolate_lagrange (length polys) shares Hv) as (f & Hf & Hx).
  exists f. split; [done|]. intros x. rewrite Hx. unfold share_of.
  rewrite <-(fmap_nth_seq (λ p, evaluate p x) polys []).
  apply list_fmap_ext. intros k i [-> Hi]%lookup_seq. by apply lagrange_share_of.
Qed.

(** ** Splitting *)
Section splitting.
  Context {R : Type} `{AllowedRng R}.

Lemma rand_vec_spec n (rng : R) :
  ∃ cs rng', rand_vec n rng = (Ok cs, rng') ∧ length cs = n.
Proof.
  revert rng. induction n as [|n IH]; intros rng; [by exists [], rng|].
  simpl. unfold mbind, st_bind, gf_rand.
  destruct (rng_u8 rng) as [c rng1]. destruct (IH rng1) as (cs & rng2 & -> & Hl).
  exists (c :: cs), rng2. simpl. by rewrite Hl.
Qed.

Definition split_byte_valid (threshold : byte) (indices : list byte) : Prop :=
  threshold ≠ u8_zero ∧ length indices < 256 ∧
  N.to_nat (u8_val threshold) ≤ length indices ∧
  (u8_zero ∉ indices) ∧ NoDup indices.

Lemma split_byte_run (secret threshold : byte) (indices : list byte) (rng : R) :
  split_byte_valid threshold indices →
  split_byte secret threshold indices rng =
    mbind (λ rest, mret ((λ i, evaluate (secret :: rest) i) <$> indices))
      (rand_vec (N.to_nat (u8_val threshold) - 1)) rng.
Proof.
  intros (Ht & Hlen & Hle & Hz & Hnd). unfold split_byte, all_unique.
  assert (u8_val threshold ≠ 0%N) by (by intros ?%(inj u8_val threshold u8_zero)).
  assert (u8_val (u8_of (N.of_nat (length indices))) = N.of_nat (length indices)) as Hu
    by (apply u8_val_of_small; lia).
  rewrite (bool_decide_eq_false_2 (threshold = _)) by done.
  rewrite (bool_decide_eq_false_2 (u8_of _ = _)).
  2: { intros E. rewrite E in Hu. simpl in Hu. lia. }
  rewrite Hu, (proj2 (N.ltb_ge _ _)) by lia.
  rewrite (bool_decide_eq_false_2 (_ ∈ _)) by done.
  rewrite (bool_decide_eq_true_2 (NoDup _)) by done. done.
Qed.

Lemma split_byte_spec (secret threshold : byte) (indices : list byte) (rng : R) :
  split_byte_valid threshold indices →
  ∃ rest rng',
    split_byte secret threshold indices rng =
      (Ok ((λ i, evaluate (secret :: rest) i) <$> indices), rng') ∧
    length rest = N.to_nat (u8_val threshold) - 1.
Proof.
  intros Hv. rewrite (split_byte_run _ _ _ _ Hv). unfold mbind, st_bind.
  destruct (rand_vec_spec (N.to_nat (u8_val threshold) - 1) rng)
    as (rest & rng' & -> & Hl).
  by exists rest, rng'.
Qed.

Definition share_indices (n : byte) : list byte :=
  u8_of <$> (N.of_nat <$> seq 1 (N.to_nat (u8_val n))).

Lemma share_indices_length n : length (share_indices n) = N.to_nat (u8_val n).
Proof. unfold share_indices. by rewrite !length_fmap, length_seq. Qed.

Lemma elem_of_share_indices n i :
  i ∈ share_indices n ↔ (1 ≤ u8_val i ≤ u8_val n)%N.
Proof.
  pose proof (u8_val_bound n). unfold share_indices.
  rewrite list_elem_of_fmap. setoid_rewrite list_elem_of_fmap. split.
  - intros (m & -> & k & -> & Hk%elem_of_seq). rewrite u8_val_of_small by lia. lia.
  - intros Hi. exists (u8_val i). rewrite u8_of_val. split; [done|].
    exists (N.to_nat (u8_val i)). rewrite elem_of_seq. lia.
Qed.

Lemma share_indices_NoDup n : NoDup (share_indices n).
Proof.
  unfold share_indices. apply NoDup_fmap_2_strong.
  - intros x y Hx Hy E. pose proof (u8_val_bound n).
    apply list_elem_of_fmap in Hx as (a & -> & Ha%elem_of_seq).
    apply list_elem_of_fmap in Hy as (b & -> & Hb%elem_of_seq).
    apply (f_equal u8_val) in E. rewrite !u8_val_of_small in E by lia. done.
  - apply NoDup_fmap_2, NoDup_seq. intros ???. lia.
Qed.

Lemma share_indices_valid (t n : byte) :
  t ≠ u8_zero → (u8_val t ≤ u8_val n)%N → split_byte_valid t (share_indices n).
Proof.
  intros Ht Hle. pose proof (u8_val_bound n). split_and!; [done| | | |].
  - rewrite share_indices_length. lia.
  - rewrite share_indices_length. lia.
  - rewrite elem_of_share_indices. change (u8_val u8_zero) with 0%N. lia.
  - apply share_indices_NoDup.
Qed.

Lemma split_spec (secret : list byte) (t n : byte) (rng : R) :
  t ≠ u8_zero → (u8_val t ≤ u8_val n)%N → secret ≠ [] →
  ∃ polys rng',
    split secret t n rng =
      (Ok (mkSecretSharing secret (share_indices n)
             (share_of polys <$> share_indices n)), rng') ∧
    Forall (λ p : Polynomial, length p = N.to_nat (u8_val t)) polys ∧
    share_of polys gf_zero = secret.
Proof.
  intros Ht Hle Hne. unfold split.
  rewrite (proj2 (N.ltb_ge _ _)) by lia. rewrite bool_decide_eq_false_2 by done.
  cbn [orb]. fold (share_indices n).
  assert (u8_val t ≠ 0%N) by (by intros ?%(inj u8_val t u8_zero)).
  destruct (st_map_ok (λ b, split_byte b t (share_indices n))
    (λ b row, ∃ p : Polynomial, length p = N.to_nat (u8_val t) ∧
      evaluate p gf_zero = b ∧ row = evaluate p <$> share_indices n) secret)
    with (s := rng) as (rows & rng' & Hrows & HF).
  { intros b s _. destruct (split_byte_spec b t (share_indices n) s) as
      (rest & s' & -> & Hl); [by apply share_indices_valid|].
    eexists _, s'. split; [done|]. exists (b :: rest). simpl. split_and!; [lia| |done].
    rewrite evaluate_peval. simpl. ring. }
  assert (∃ polys, rows = (λ p, evaluate p <$> share_indices n) <$> polys ∧
    share_of polys gf_zero = secret ∧
    Forall (λ p : Polynomial, length p = N.to_nat (u8_val t)) polys)
    as (polys & -> & Hz & Hlen).
  { clear -HF. induction HF as [|b row secret rows (p & Hp & Hb & ->) HF
      (polys & -> & IH1 & IH2)]; [by exists []|].
    exists (p :: polys). unfold share_of in *. csimpl. by rewrite IH1, Hb; auto. }
  exists polys, rng'. split_and!; [|done..].
  unfold mbind, st_bind. rewrite Hrows. unfold st_lift.
  rewrite (transpose_ok _ _ (length (share_indices n))).
  - unfold mret, st_ret. do 3 f_equal.
    rewrite <-(fmap_nth_seq (share_of polys) (share_indices n) u8_zero).
    apply list_fmap_ext. intros k i [-> Hi]%lookup_seq.
    rewrite <-list_fmap_compose. apply list_fmap_ext. intros j p _. simpl.
    by rewrite (nth_fmap _ _ u8_zero) by done.
  - rewrite <-Hz. unfold share_of. by rewrite !length_fmap.
  - by destruct secret.
  - apply Forall_fmap, Forall_forall. intros p _. simpl. by rewrite length_fmap.
Qed.

Lemma split_ok_inv (secret : list byte) (t n : byte) (rng : R) ss rng' :
  split secret t n rng = (Ok ss, rng') →
  t ≠ u8_zero ∧ (u8_val t ≤ u8_val n)%N ∧ secret ≠ [].
Proof.
  unfold split. destruct (N.ltb_spec (u8_val n) (u8_val t)) as [|Hle]; [done|].
  cbn [orb]. case_bool_decide as Ht; [done|]. intros Hs.
  split_and!; [done|lia|]. by intros ->.
Qed.
End splitting.

(** ** Secrecy *)

(** A vector of at most 256 coefficients that vanishes everywhere is zero. *)
Lemma peval_zero_coefficients (p : Polynomial) :
  length p ≤ 256 → (∀ z, peval p z = gf_zero) → p = replicate (length p) gf_zero.
Proof.
  induction p as [|a p IH]; intros Hl Hz; [done|]. simpl in *.
  assert (a = gf_zero) as ->.
  { specialize (Hz gf_zero). simpl in Hz.
    rewrite <-Hz. ring. }
  f_equal. apply IH; [lia|].
  apply (peval_zero_of_roots p (share_indices Byte.xff)).
  - apply share_indices_NoDup.
  - rewrite share_indices_length. change (N.to_nat (u8_val Byte.xff)) with 255. lia.
  - intros r Hr%elem_of_share_indices. specialize (Hz r).
    destruct (gf_mul_eq_0 r (peval p r)) as [->|]; [|simpl in Hr; lia|done].
    rewrite <-Hz. ring.
Qed.

Lemma peval_coefficients_unique (p q : Polynomial) :
  length p = length q → length p ≤ 256 → (∀ z, peval p z = peval q z) → p = q.
Proof.
  intros Hl Hp H.
  assert (zip_longest_add p q = replicate (length p) gf_zero) as Hz.
  { rewrite (peval_zero_coefficients (zip_longest_add p q)).
    - rewrite zip_longest_length. f_equal. lia.
    - rewrite zip_longest_length. lia.
    - intros z. rewrite peval_zip_longest, H. apply byte_xor_nilpotent. }
  clear H Hp. revert q Hl Hz. induction p as [|a p IH]; intros [|b q] Hl Hz;
    simpl in *; try done.
  injection Hz as Ha Hz. f_equal; [by apply gf_sub_eq_0|]. apply IH; [lia|done].
Qed.

(** Given [t - 1] points with distinct nonzero abscissas and any value at
    zero, there is exactly one coefficient vector of length [t]. *)
Lemma interpolate_through (points : list (byte * byte)) (secret : byte) :
  NoDup points.*1 → u8_zero ∉ points.*1 → length points < 256 →
  ∃ rest : list byte, length rest = length points ∧
    (∀ x y, (x, y) ∈ points → evaluate (secret :: rest) x = y) ∧
    (∀ rest', length rest' = length points →
      (∀ x y, (x, y) ∈ points → evaluate (secret :: rest') x = y) → rest' = rest).
Proof.
  intros Hnd Hz Hlt. set (all := (gf_zero, secret) :: points).
  assert (NoDup all.*1) as Hall by (by constructor).
  destruct (poly_interpolate_spec all Hall) as (p & _ & Hl & He).
  assert (∀ x y, (x, y) ∈ all → peval p x = y) as Hp.
  { intros x y [k Hk]%list_elem_of_lookup. rewrite He.
    by apply (lagrange_at_point _ k). }
  set (q := p ++ replicate (S (length points) - length p) gf_zero).
  assert (∀ z, peval q z = peval p z) as Hq by (intros; apply peval_app_zeros).
  assert (length q = S (length points)) as Hql.
  { unfold q. rewrite length_app, length_replicate. simpl in Hl. lia. }
  destruct q as [|c rest] eqn:Eq; [done|]. simpl in Hql.
  assert (c = secret) as ->.
  { rewrite <-(Hp gf_zero secret) by (by left). rewrite <-Hq. simpl. ring. }
  exists rest. split_and!; [lia| |].
  - intros x y Hx. rewrite evaluate_peval, Hq. apply Hp. by right.
  - intros rest' Hl' Hr'.
    assert (secret :: rest' = secret :: rest) as [= ->]; [|done].
    apply peval_coefficients_unique; [simpl; lia|simpl; lia|].
    apply (peval_unique _ _ all.*1 Hall); [simpl; rewrite ?length_fmap; lia..|].
    intros x Hx. apply elem_of_cons in Hx as [->|Hx]; [simpl; ring|].
    apply list_elem_of_fmap in Hx as ([x' y] & -> & Hx). simpl.
    transitivity y.
    + specialize (Hr' _ _ Hx). by rewrite evaluate_peval in Hr'.
    + specialize (Hp x' y ltac:(by right)). by rewrite <-Hq in Hp.
Qed.

Lemma tape_take_id l : tape_take (length l) l = l.
Proof. induction l as [|b l IH]; simpl; [done|]. by rewrite IH. Qed.

Lemma rand_vec_tape n (l : list byte) : rand_vec n l = (Ok (tape_take n l), drop n l).
Proof.
  revert l. induction n as [|n IH]; intros l; [done|].
  simpl. unfold mbind, st_bind, gf_rand. destruct l as [|b l]; simpl; rewrite IH; [|done].
  by rewrite drop_nil.
Qed.

(** ** Properties *)

(** C5: shares that [split] hands out determine the secret: any set of at
    least [threshold] of them, in any order, combines to the secret, and the
    closure of [interpolate] gives the secret at zero and every other share
    at its index. *)
Theorem split_combine {R : Type} `{AllowedRng R} (secret : list byte) (t n : byte)
    (rng rng' : R) (ss : SecretSharing) (sel : list (byte * list byte)) :
  split secret t n rng = (Ok ss, rng') →
  sel ⊆ zip (ss_indices ss) (ss_shares ss) → NoDup sel.*1 →
  N.to_nat (u8_val t) ≤ length sel →
  combine (length secret) sel = Ok secret ∧
  ∃ f, interpolate (length secret) sel = Ok f ∧ f u8_zero = secret ∧
    ∀ i sh, (i, sh) ∈ zip (ss_indices ss) (ss_shares ss) → f i = sh.
Proof.
  intros Hs Hsub Hnd Hlen.
  destruct (split_ok_inv secret t n rng ss rng' Hs) as (Ht & Hle & Hne).
  destruct (split_spec secret t n rng Ht Hle Hne) as (polys & rng'' & Hs' & Hpl & Hz).
  rewrite Hs in Hs'. injection Hs' as -> ->. simpl in *.
  assert (∀ i sh, (i, sh) ∈ zip (share_indices n) (share_of polys <$> share_indices n) →
    i ∈ share_indices n ∧ sh = share_of polys i) as Hzip.
  { intros i sh Hin. rewrite <-(list_fmap_id (share_indices n)) in Hin at 1.
    rewrite zip_with_fmap_l, zip_with_fmap_r, zip_with_diag in Hin.
    by apply list_elem_of_fmap in Hin as (j & [= -> ->] & Hj). }
  assert (u8_val t ≠ 0%N) by (by intros ?%(inj u8_val t u8_zero)).
  assert (valid_shares sel) as Hv.
  { split_and!; [intros ->; simpl in Hlen; lia|done|].
    intros ([i sh] & Hi & Hin)%list_elem_of_fmap. apply Hsub, Hzip in Hin as [Hin _].
    apply elem_of_share_indices in Hin. simpl in Hi. subst i.
    change (u8_val u8_zero) with 0%N in Hin. lia. }
  assert (Forall (λ p : Polynomial, length p ≤ length sel) polys) as Hpl'.
  { eapply Forall_impl; [done|]. simpl. intros p ->. lia. }
  assert (length polys = length secret) as Hlp.
  { rewrite <-Hz. unfold share_of. by rewrite length_fmap. }
  assert (∀ j sh, (j, sh) ∈ sel → sh = share_of polys j) as Hsel.
  { intros j sh Hin. by apply Hzip, Hsub. }
  rewrite <-Hlp. split; [rewrite combine_share_of by done; by rewrite Hz|].
  destruct (interpolate_share_of polys sel Hv Hpl' Hsel) as (f & Hf & Hx).
  exists f. rewrite Hx. split_and!; [done|done|].
  intros i sh [_ ->]%Hzip. apply Hx.
Qed.

Lemma split_combine_witness :
  combine 2 [(Byte.x03, [Byte.x25; Byte.x1c]); (Byte.x01, [Byte.x2f; Byte.x0e])]
  = Ok [Byte.x2a; Byte.x07].
Proof.
  refine (proj1 (split_combine [Byte.x2a; Byte.x07] Byte.x02 Byte.x03
    [Byte.x05; Byte.x09] [] _ _ _ _ _ _)); [vm_compute; reflexivity| | |].
  - intros p Hp. rewrite !elem_of_cons in Hp. simpl. rewrite !elem_of_cons. tauto.
  - by apply (bool_decide_unpack (NoDup _)).
  - vm_compute. lia.
Defined.

(** C6: perfect secrecy. For [threshold - 1] of the shares of a byte, every
    other value of the byte is explained by exactly one choice of the random
    coefficients: the shares carry no information about the secret. *)
Theorem split_byte_secrecy (secret secret' t : byte) (indices tape : list byte)
    (pos : list nat) (shares : list byte) r :
  split_byte_valid t indices →
  split_byte secret t indices tape = (Ok shares, r) →
  NoDup pos → S (length pos) = N.to_nat (u8_val t) →
  (∀ k, k ∈ pos → k < length indices) →
  exists! tape' : list byte, S (length tape') = N.to_nat (u8_val t) ∧
    ∃ shares' r', split_byte secret' t indices tape' = (Ok shares', r') ∧
      ∀ k, k ∈ pos → shares' !! k = shares !! k.
Proof.
  intros Hv Hs Hpos Hlp Hin.
  assert (length shares = length indices) as Hls.
  { destruct (split_byte_spec secret t indices tape Hv) as (rest & ? & Hs' & _).
    rewrite Hs in Hs'. injection Hs' as -> _. by rewrite length_fmap. }
  set (points := (λ k, (nth k indices u8_zero, nth k shares u8_zero)) <$> pos).
  assert (points.*1 = (λ k, nth k indices u8_zero) <$> pos) as Hfst.
  { unfold points. by rewrite <-list_fmap_compose. }
  pose proof Hv as (_ & Hli & Hti & Hzi & Hndi).
  assert (∀ k, k ∈ pos → indices !! k = Some (nth k indices u8_zero)) as Hlk.
  { intros k Hk%Hin. destruct (lookup_lt_is_Some_2 _ _ Hk) as [x Hx].
    by rewrite (nth_lookup_Some _ _ _ _ Hx). }
  assert (length points = length pos) as Hlpt by apply length_fmap.
  destruct (interpolate_through points secret') as (rest & Hl & Hr & Hu).
  - rewrite Hfst. apply NoDup_fmap_2_strong; [|done]. intros a b Ha Hb E.
    eapply (NoDup_lookup indices); [done|by apply Hlk|rewrite E; by apply Hlk].
  - rewrite Hfst. intros (k & Hk & Hkp)%list_elem_of_fmap. apply Hzi. rewrite Hk.
    by eapply list_elem_of_lookup_2, Hlk.
  - lia.
  - assert (∀ tape', S (length tape') = N.to_nat (u8_val t) →
      split_byte secret' t indices tape' =
        (Ok ((λ i, evaluate (secret' :: tape') i) <$> indices), [])) as Hrun.
    { intros tape' Hl'. rewrite split_byte_run by done. unfold mbind, st_bind.
      rewrite rand_vec_tape.
      replace (N.to_nat (u8_val t) - 1) with (length tape') by lia.
      by rewrite tape_take_id, drop_all. }
    assert (∀ tape' : list byte,
      (∀ x y, (x, y) ∈ points → evaluate (secret' :: tape') x = y) ↔
      (∀ k, k ∈ pos → ((λ i, evaluate (secret' :: tape') i) <$> indices) !! k
        = shares !! k)) as Hagree.
    { intros tape'. split.
      - intros H k Hk. rewrite list_lookup_fmap, (Hlk k Hk). simpl.
        assert (k < length shares) as Hks by (rewrite Hls; auto).
        destruct (lookup_lt_is_Some_2 _ _ Hks) as [y Hy].
        rewrite Hy. f_equal. apply H. unfold points. apply list_elem_of_fmap.
        exists k. by rewrite (nth_lookup_Some _ _ _ _ Hy).
      - intros H x y Hxy. apply list_elem_of_fmap in Hxy as (k & [= -> ->] & Hk).
        specialize (H k Hk). rewrite list_lookup_fmap, (Hlk k Hk) in H. simpl in H.
        symmetry. by apply nth_lookup_Some. }
    exists rest. split.
    + split; [lia|]. eexists _, []. split; [apply Hrun; lia|]. by apply Hagree.
    + intros tape' (Hl' & shares' & r' & Hs' & Hk). symmetry. apply Hu; [lia|].
      apply Hagree. rewrite (Hrun _ Hl') in Hs'. by injection Hs' as <- <-.
Qed.

Lemma split_byte_secrecy_witness :
  exists! tape' : list byte, S (length tape') = 2 ∧
    ∃ shares' r', split_byte Byte.x63 Byte.x02 [Byte.x01; Byte.x02; Byte.x03] tape'
        = (Ok shares', r') ∧
      ∀ k, k ∈ [1] → shares' !! k = [Byte.x2f; Byte.x20; Byte.x25] !! k.
Proof.
  refine (split_byte_secrecy Byte.x2a Byte.x63 Byte.x02
    [Byte.x01; Byte.x02; Byte.x03] [Byte.x05] [1] _ [] _ _ _ _ _).
  - split_and!; [done|simpl; lia|vm_compute; lia| |];
      by apply (bool_decide_unpack _).
  - vm_compute. reflexivity.
  - by apply (bool_decide_unpack (NoDup _)).
  - reflexivity.
  - intros k ->%list_elem_of_singleton. simpl. lia.
Defined.

(** [split] accepts exactly the thresholds [1 ≤ t ≤ n] (and secrets of
    at least one byte); it never panics, and its result has one share per
    index [1..=n], each as long as the secret. *)
Theorem split_validates {R : Type} `{AllowedRng R} (secret : list byte) (t n : byte)
    (rng : R) :
  if bool_decide (t ≠ u8_zero ∧ (u8_val t ≤ u8_val n)%N ∧ secret ≠ []) then
    ∃ shares rng', split secret t n rng =
      (Ok (mkSecretSharing secret (share_indices n) shares), rng') ∧
      length shares = N.to_nat (u8_val n) ∧
      Forall (λ sh : list byte, length sh = length secret) shares
  else (split secret t n rng).1 = Err InvalidInput.
Proof.
  case_bool_decide as Hc.
  - destruct Hc as (Ht & Hle & Hne).
    destruct (split_spec secret t n rng Ht Hle Hne) as (polys & rng' & Hs & _ & Hz).
    eexists _, rng'. split_and!; [done|by rewrite length_fmap, share_indices_length|].
    apply Forall_fmap, Forall_forall. intros i _. simpl. rewrite <-Hz.
    unfold share_of. by rewrite !length_fmap.
  - unfold split. destruct (N.ltb_spec (u8_val n) (u8_val t)) as [|Hle]; [done|].
    cbn [orb]. case_bool_decide as Ht; [done|].
    destruct (decide (secret = [])) as [->|Hne]; [done|]. destruct Hc. split_and!; [done|lia|done].
Qed.

(** For shares of at least one byte, [combine] and [interpolate] accept
    exactly the nonempty sets with distinct nonzero indices; they return
    [InvalidInput] on all others and panic on none, and the two
    reconstructions agree at zero. *)
Theorem combine_interpolate_total (N : nat) (shares : list (byte * list byte)) :
  N ≠ 0 →
  (valid_shares shares ∧ ∃ s f, combine N shares = Ok s ∧ length s = N ∧
     interpolate N shares = Ok f ∧ f u8_zero = s) ∨
  (¬ valid_shares shares ∧ combine N shares = Err InvalidInput ∧
     interpolate N shares = Err InvalidInput).
Proof.
  intros HN.
  destruct (decide (shares = [])) as [He|Hne].
  { right. subst. split; [intros [? _]; done|].
    split; [|done]. apply combine_invalid; [done|]. intros [? _]. done. }
  destruct (decide (NoDup shares.*1)) as [Hnd|Hnd].
  1: destruct (decide (u8_zero ∈ shares.*1)) as [Hz|Hz].
  2: { left. assert (valid_shares shares) as Hv by done. split; [done|].
    destruct (interpolate_lagrange N shares Hv) as (f & Hf & Hx).
    eexists _, f. split_and!; [by apply combine_lagrange| |done|apply Hx].
    by rewrite length_fmap, length_seq. }
  all: right; assert (¬ valid_shares shares) as Hv by (intros (? & ? & ?); done);
    split_and!; [done|by apply combine_invalid|].
  all: unfold interpolate, all_unique;
    replace (length shares =? 0) with false by (by destruct shares); cbn [orb].
  - by rewrite (bool_decide_eq_true_2 _ Hz).
  - rewrite (bool_decide_eq_false_2 _ Hnd). by rewrite orb_true_r.
Qed.

Lemma combine_interpolate_total_witness :
  combine 1 [(Byte.x01, [Byte.x07]); (Byte.x01, [Byte.x09])] = Err InvalidInput.
Proof.
  destruct (combine_interpolate_total 1 [(Byte.x01, [Byte.x07]); (Byte.x01, [Byte.x09])])
    as [[(_ & Hnd & _) _]|(_ & H & _)]; [done| |exact H].
  exfalso. revert Hnd. by apply (bool_decide_unpack (¬ NoDup _)).
Defined.
