(* ===== verification/Primitives.v ===== *)
(** * Interfaces of the cryptographic libraries

    The sources build on external crates for hashing, authenticated
    encryption, the BLS12-381 groups and BCS serialization. Each is an
    interface here: a class of operations, which the models of the sources are
    parameterised by, and a class of the documented laws the theorems use.
    The toy instances at the end (every group is the field GF(2⁸)) satisfy all
    the laws and compute, so that the theorems can be run on concrete inputs. *)

From Stdlib Require Import NArith Lia Ring Field.
From S2P Require Import Prelude Gf256 Polynomial Utils.

Definition bytes_of (s : string) : list byte := String.list_byte_of_string s.

Definition KEY_SIZE : nat := 32.

(** ** Hashing, key derivation, authenticated encryption, BCS *)
Class Symmetric : Type := {
  sha3_256 : list byte → list byte;
  hmac_sha3_256 : list byte → list byte → list byte;
  (** [hkdf_sha3_256 ikm salt info length] *)
  hkdf_sha3_256 : list byte → list byte → list byte → nat → list byte;
  (** key, initialization vector, additional data, message *)
  aes_encrypt_authenticated :
    list byte → list byte → list byte → list byte → list byte;
  aes_decrypt_authenticated :
    list byte → list byte → list byte → list byte → outcome FastCryptoError (list byte);
  (** [bcs::to_bytes] of a [u64] *)
  bcs_u64 : N → list byte;
}.

Class SymmetricLaws `{Symmetric} : Prop := {
  sha3_256_length m : length (sha3_256 m) = 32;
  hmac_sha3_256_length k m : length (hmac_sha3_256 k m) = 32;
  aes_decrypt_encrypt k iv aad m :
    aes_decrypt_authenticated k iv aad (aes_encrypt_authenticated k iv aad m) = Ok m;
  bcs_u64_length n : length (bcs_u64 n) = 8;
  bcs_u64_inj m n :
    (m < 2 ^ 64)%N → (n < 2 ^ 64)%N → bcs_u64 m = bcs_u64 n → m = n;
}.

(** ** Groups with a scalar action *)
Class GroupElement (S G : Type) : Type := {
  g_zero : G;
  g_generator : G;
  g_add : G → G → G;
  g_sub : G → G → G;
  g_mul : G → S → G;
}.

Class GroupLaws (S G : Type) `{GroupElement S G} : Prop := {
  g_add_comm a b : g_add a b = g_add b a;
  g_add_assoc a b c : g_add a (g_add b c) = g_add (g_add a b) c;
  g_add_zero a : g_add g_zero a = a;
  g_add_sub a b : g_sub (g_add a b) b = a;
  g_sub_add a b : g_add (g_sub a b) b = a;
  g_mul_add a b s : g_mul (g_add a b) s = g_add (g_mul a s) (g_mul b s);
  g_mul_zero s : g_mul g_zero s = g_zero;
  g_mul_comm a s r : g_mul (g_mul a s) r = g_mul (g_mul a r) s;
}.

(** ** The pairing groups *)
Class Curve : Type := {
  Scalar : Type;
  G1Element : Type;
  G2Element : Type;
  GTElement : Type;
  #[global] G1_group :: GroupElement Scalar G1Element;
  #[global] G2_group :: GroupElement Scalar G2Element;
  #[global] G1_eq_dec :: EqDecision G1Element;
  #[global] G2_eq_dec :: EqDecision G2Element;
  #[global] GT_eq_dec :: EqDecision GTElement;
  gt_add : GTElement → GTElement → GTElement;
  pairing : G1Element → G2Element → GTElement;
  hash_to_group_element : list byte → G1Element;
  g1_to_byte_array : G1Element → list byte;
  g2_to_byte_array : G2Element → list byte;
  gt_to_byte_array : GTElement → list byte;
  scalar_to_byte_array : Scalar → list byte;
  scalar_from_byte_array : list byte → outcome FastCryptoError Scalar;
  buffer_to_scalar_mod_r : list byte → outcome FastCryptoError Scalar;
  (** [bcs::to_bytes] of a [G2Element] *)
  bcs_g2 : G2Element → list byte;
  (** [Scalar::rand] *)
  scalar_rand : ∀ R : Type, AllowedRng R → R → Scalar * R;
}.

Class CurveLaws `{Curve} : Prop := {
  #[global] G1_laws :: GroupLaws Scalar G1Element;
  #[global] G2_laws :: GroupLaws Scalar G2Element;
  gt_add_cancel a b c : gt_add a c = gt_add b c → a = b;
  gt_add_comm a b : gt_add a b = gt_add b a;
  pairing_mul a b s : pairing (g_mul a s) b = pairing a (g_mul b s);
  pairing_add a a' b : pairing (g_add a a') b = gt_add (pairing a b) (pairing a' b);
  pairing_generator_inj a a' :
    pairing a g_generator = pairing a' g_generator → a = a';
  scalar_round_trip s : scalar_from_byte_array (scalar_to_byte_array s) = Ok s;
  scalar_to_byte_array_length s : length (scalar_to_byte_array s) = 32;
}.

(** ** Polynomial recovery ([fastcrypto_tbls::polynomial::Poly::recover_c0])

    From a threshold and indexed values, the constant term of the polynomial
    through them. It is Lagrange interpolation: a linear combination of the
    values whose coefficients depend on the threshold and the indices only. *)
Class RecoverC0 (S G : Type) : Type :=
  recover_c0 : N → list (N * G) → outcome FastCryptoError G.

Fixpoint linear_combination {S G : Type} `{GroupElement S G}
    (cs : list S) (vs : list G) : G :=
  match cs, vs with
  | c :: cs, v :: vs => g_add (g_mul v c) (linear_combination cs vs)
  | _, _ => g_zero
  end.

Class RecoverLaws (S G : Type) `{GroupElement S G, RecoverC0 S G} : Prop :=
  recover_c0_linear :
    ∃ coefficients : N → list N → outcome FastCryptoError (list S),
      ∀ t shares, recover_c0 t shares =
        cs ← coefficients t shares.*1; Ok (linear_combination cs shares.*2).

(** ** Toy instances *)
Module Toy.
Definition rotate_in (acc : list byte) (b : byte) : list byte :=
  match acc with
  | x :: acc => acc ++ [byte_xor (gf_mul x Byte.x03) b]
  | [] => []
  end.

Definition hash (m : list byte) : list byte :=
  fold_left rotate_in m (replicate 32 Byte.x01).

Lemma hash_length m : length (hash m) = 32.
Proof.
  unfold hash. assert (∀ acc, length (fold_left rotate_in m acc) = length acc) as ->;
    [|done].
  induction m as [|b m IH]; intros acc; simpl; [done|]. rewrite IH.
  destruct acc; simpl; [done|]. rewrite length_app. simpl. lia.
Qed.

Fixpoint le_bytes (k : nat) (n : N) : list byte :=
  match k with
  | O => []
  | S k => u8_of n :: le_bytes k (n / 256)
  end.

Lemma le_bytes_inj k m n :
  (m < 256 ^ N.of_nat k)%N → (n < 256 ^ N.of_nat k)%N →
  le_bytes k m = le_bytes k n → m = n.
Proof.
  revert m n. induction k as [|k IH]; intros m n Hm Hn Heq.
  { simpl in *. lia. }
  injection Heq as H0 H1. apply (f_equal u8_val) in H0. rewrite !u8_val_of in H0.
  rewrite Nat2N.inj_succ, N.pow_succ_r' in Hm, Hn.
  apply IH in H1; [|apply N.Div0.div_lt_upper_bound; lia..].
  rewrite (N.div_mod m 256), (N.div_mod n 256) by done. congruence.
Qed.

Definition tag (key iv aad m : list byte) : list byte := hash (key ++ iv ++ aad ++ m).

#[local] Instance symmetric : Symmetric := {
  sha3_256 := hash;
  hmac_sha3_256 k m := hash (k ++ m);
  hkdf_sha3_256 ikm salt info n := take n (hash (ikm ++ salt ++ info) ++ hash (info ++ ikm));
  aes_encrypt_authenticated k iv aad m := tag k iv aad m ++ m;
  aes_decrypt_authenticated k iv aad c :=
    if bool_decide (take 32 c = tag k iv aad (drop 32 c)) then Ok (drop 32 c)
    else Err InvalidInput;
  bcs_u64 := le_bytes 8;
}.

#[local] Instance symmetric_laws : SymmetricLaws.
Proof.
  constructor.
  - apply hash_length.
  - intros. apply hash_length.
  - intros k iv aad m. simpl.
    assert (length (tag k iv aad m) = 32) as Hl by apply hash_length.
    rewrite <-Hl, take_app_length, drop_app_length.
    by rewrite bool_decide_eq_true_2.
  - done.
  - intros m n Hm Hn. by apply (le_bytes_inj 8).
Qed.

#[local] Instance gf_group : GroupElement GF256 GF256 := {
  g_zero := gf_zero; g_generator := gf_one;
  g_add := gf_add; g_sub := gf_sub; g_mul := gf_mul;
}.

#[local] Instance gf_group_laws : GroupLaws GF256 GF256.
Proof. constructor; intros; simpl; ring. Qed.

Definition to_bytes (b : byte) : list byte := replicate 31 u8_zero ++ [b].

Definition from_bytes (l : list byte) : outcome FastCryptoError byte :=
  if bool_decide (take 31 l = replicate 31 u8_zero) then
    match drop 31 l with [b] => Ok b | _ => Err InvalidInput end
  else Err InvalidInput.

(** The order of the scalars of BLS12-381, below which 32 big-endian bytes
    are a scalar. *)
Definition order : N :=
  52435875175126190479447740508185965837690552500527637822603658699938581184513.

Definition scalar_from_bytes (l : list byte) : outcome FastCryptoError byte :=
  if (length l =? 32) && negb (order <=? le_value (rev l))%N
  then Ok (List.last l u8_zero) else Err InvalidInput.

Definition g2_bytes (b : byte) : list byte := replicate 95 u8_zero ++ [b].

#[local] Instance curve : Curve := {
  Scalar := GF256; G1Element := GF256; G2Element := GF256; GTElement := GF256;
  gt_add := gf_add;
  pairing := gf_mul;
  hash_to_group_element m := nth 0 (hash m) u8_zero;
  g1_to_byte_array := to_bytes; g2_to_byte_array := to_bytes;
  gt_to_byte_array := to_bytes; scalar_to_byte_array := to_bytes;
  scalar_from_byte_array := scalar_from_bytes;
  buffer_to_scalar_mod_r l := Ok (nth 0 l u8_zero);
  bcs_g2 := g2_bytes;
  scalar_rand R _ := rng_u8;
}.

#[local] Instance curve_laws : CurveLaws.
Proof.
  constructor; try exact gf_group_laws; intros; simpl in *; try done; try ring.
  - transitivity (gf_sub (gf_add a c) c); [ring|]. rewrite H. ring.
  - transitivity (gf_mul a gf_one); [ring|]. rewrite H. ring.
  - by destruct s; vm_compute.
Qed.

(** Interpolation at zero over GF(2⁸), for indices below 256. *)
#[local] Instance recover : RecoverC0 GF256 GF256 := λ t shares,
  if (N.of_nat (length shares) <? t)%N then Err InvalidInput
  else if bool_decide (NoDup shares.*1) && forallb (λ i, (i <? 256)%N) shares.*1 then
    Ok (lagrange ((λ '(i, v), (u8_of i, v)) <$> shares) gf_zero)
  else Err InvalidInput.

Lemma others_fmap {A B : Type} (f : A → B) (l : list A) j :
  others (f <$> l) j = (λ '(i, a), (i, f a)) <$> others l j.
Proof.
  unfold others, enumerate. rewrite length_fmap. generalize (length l).
  intros n. generalize 0. revert n.
  induction l as [|a l IH]; intros [|n] s; csimpl; try done.
  rewrite IH. by destruct (s =? j).
Qed.

Lemma lagrange_basis_fst points points' j x z :
  points.*1 = points'.*1 → lagrange_basis points j x z = lagrange_basis points' j x z.
Proof.
  intros H.
  assert (∀ ps, lagrange_basis ps j x z =
    gprod ((λ e, lagrange_ratio x z e.2) <$> others ps.*1 j)) as Hps.
  { intros ps. unfold lagrange_basis. rewrite others_fmap, <-list_fmap_compose.
    f_equal. apply list_fmap_ext. by intros ? [? [??]] _. }
  by rewrite !Hps, H.
Qed.

Definition coefficients (t : N) (idx : list N) : outcome FastCryptoError (list GF256) :=
  if (N.of_nat (length idx) <? t)%N then Err InvalidInput
  else if bool_decide (NoDup idx) && forallb (λ i, (i <? 256)%N) idx then
    Ok ((λ '(j, x), lagrange_basis ((λ i, (u8_of i, gf_zero)) <$> idx) j (u8_of x) gf_zero)
          <$> enumerate idx)
  else Err InvalidInput.

#[local] Instance recover_laws : RecoverLaws GF256 GF256.
Proof.
  exists coefficients. intros t shares. unfold recover_c0, recover, coefficients.
  rewrite length_fmap. destruct (_ <? _)%N; [done|].
  destruct (bool_decide _ && _); [|done]. unfold mbind, outcome_bind. f_equal.
  unfold lagrange.
  set (pts := (λ i, (u8_of i, gf_zero)) <$> shares.*1).
  set (pts' := (λ '(i, v), (u8_of i, v)) <$> shares).
  assert (pts'.*1 = pts.*1) as Hfst.
  { unfold pts, pts'. rewrite <-!list_fmap_compose. apply list_fmap_ext.
    by intros ? [??] _. }
  rewrite (list_fmap_ext _ (λ '(j, (x, y)), gf_mul (lagrange_basis pts j x gf_zero) y)).
  2: { intros ? [j [x y]] _. by rewrite (lagrange_basis_fst pts' pts). }
  clearbody pts. unfold pts'. clear Hfst pts'. unfold enumerate. rewrite !length_fmap.
  generalize (length shares). intros n. generalize 0. revert n.
  induction shares as [|[i v] shares IH]; intros [|n] s; csimpl; try done.
  rewrite IH. simpl. ring.
Qed.
End Toy.
