(* ===== verification/Dem.v ===== *)
(** * Data encapsulation ([crates/crypto/src/dem.rs])

    The three encryption modes of [EncryptionInput]: AES-256-GCM with a fixed
    initialization vector, counter mode with HMAC-SHA3-256 as the
    pseudo-random function and a MAC over additional data and ciphertext, and
    the plain mode, which hands out the key itself. *)

From Stdlib Require Import NArith Lia.
From S2P Require Import Prelude Utils Primitives.

Inductive EncryptionInput : Type :=
  | EAes256Gcm (data : list byte) (aad : option (list byte))
  | EPlain
  | EHmac256Ctr (data : list byte) (aad : option (list byte)).

Inductive Ciphertext : Type :=
  | CAes256Gcm (blob : list byte) (aad : option (list byte))
  | CHmac256Ctr (blob : list byte) (aad : option (list byte)) (mac : list byte)
  | CPlain.

#[export] Instance Ciphertext_eq_dec : EqDecision Ciphertext.
Proof. solve_decision. Defined.

Inductive Purpose : Type := Encryption | MAC.

Definition purpose_tag (p : Purpose) : list byte :=
  match p with
  | Encryption => bytes_of "HMAC-CTR-ENC"
  | MAC => bytes_of "HMAC-CTR-MAC"
  end.

(** [slice::chunks]: each piece has [n] elements, the last one at most [n].
    Every piece takes at least one element, so the length is enough fuel. *)
Fixpoint chunks_fuel (fuel n : nat) (l : list byte) : list (list byte) :=
  match fuel, l with
  | S fuel, _ :: _ => take n l :: chunks_fuel fuel n (drop n l)
  | _, _ => []
  end.

Definition chunks (n : nat) (l : list byte) : list (list byte) :=
  chunks_fuel (length l) n l.

Definition AES_IV : list byte :=
  u8_of <$> [138; 55; 153; 253; 198; 46; 121; 219; 160; 128; 89; 7; 214; 156; 148; 220]%N.

Section modes.
  Context `{Symmetric}.

Definition to_bytes (n : N) : list byte := bcs_u64 n.

Definition hmac_input (purpose : Purpose) (data : list byte) : list byte :=
  purpose_tag purpose ++ data.

Definition hmac (purpose : Purpose) (key data : list byte) : list byte :=
  hmac_sha3_256 key (hmac_input purpose data).

Definition encrypt_in_ctr_mode (key msg : list byte) : list byte :=
  concat ((λ '(i, ci),
    xor_unchecked ci (hmac Encryption key (to_bytes (N.of_nat i))))
      <$> enumerate (chunks KEY_SIZE msg)).

Definition mac_input (aad ciphertext : list byte) : list byte :=
  to_bytes (N.of_nat (length aad)) ++ aad ++ ciphertext.

Definition compute_mac (key aad ciphertext : list byte) : list byte :=
  hmac MAC key (mac_input aad ciphertext).

Definition hmac256ctr_encrypt (msg aad key : list byte) : list byte * list byte :=
  let ciphertext := encrypt_in_ctr_mode key msg in
  let mac := compute_mac key aad ciphertext in
  (ciphertext, mac).

Definition hmac256ctr_decrypt (ciphertext mac aad key : list byte) :
    outcome FastCryptoError (list byte) :=
  let actual_mac := compute_mac key aad ciphertext in
  if negb (bool_decide (mac = actual_mac)) then Err (GeneralError "Invalid MAC")
  else
    let msg := encrypt_in_ctr_mode key ciphertext in
    Ok msg.

Definition aes256gcm_encrypt (msg aad key : list byte) : list byte :=
  aes_encrypt_authenticated key AES_IV aad msg.

Definition aes256gcm_decrypt (ciphertext aad key : list byte) :
    outcome FastCryptoError (list byte) :=
  aes_decrypt_authenticated key AES_IV aad ciphertext.

Definition input_encrypt (input : EncryptionInput) (key : list byte) : Ciphertext :=
  match input with
  | EAes256Gcm data aad =>
      let blob := aes256gcm_encrypt data (default [] aad) key in CAes256Gcm blob aad
  | EHmac256Ctr data aad =>
      let '(blob, mac) := hmac256ctr_encrypt data (default [] aad) key in
      CHmac256Ctr blob aad mac
  | EPlain => CPlain
  end.

Definition ciphertext_decrypt (c : Ciphertext) (key : list byte) :
    outcome FastCryptoError (list byte) :=
  match c with
  | CAes256Gcm blob aad => aes256gcm_decrypt blob (default [] aad) key
  | CHmac256Ctr blob aad mac => hmac256ctr_decrypt blob mac (default [] aad) key
  | CPlain => Ok key
  end.
End modes.

(** What decrypting the result of an encryption should give. *)
Definition plaintext_of (input : EncryptionInput) (key : list byte) : list byte :=
  match input with
  | EAes256Gcm data _ | EHmac256Ctr data _ => data
  | EPlain => key
  end.

(** ** Counter mode is an involution *)
Section involution.
  Context (ks : nat → list byte) (n : nat).

Fixpoint ctr_fuel (fuel i : nat) (l : list byte) : list byte :=
  match fuel, l with
  | S fuel, _ :: _ => xor_unchecked (take n l) (ks i) ++ ctr_fuel fuel (S i) (drop n l)
  | _, _ => []
  end.

Lemma ctr_fuel_nil fuel i : ctr_fuel fuel i [] = [].
Proof. by destruct fuel. Qed.

Lemma ctr_fuel_involutive fuel i l :
  n ≠ 0 → (∀ j, length (ks j) = n) → length l ≤ fuel →
  length (ctr_fuel fuel i l) = length l ∧
  ctr_fuel fuel i (ctr_fuel fuel i l) = l.
Proof.
  intros Hn Hks. revert i l. induction fuel as [|fuel IH]; intros i l Hl.
  { by destruct l; simpl in Hl; [|lia]. }
  destruct l as [|b l']; [done|]. set (l := b :: l') in *.
  destruct (IH (S i) (drop n l)) as [IHl IHi].
  { rewrite length_drop. lia. }
  assert (length (xor_unchecked (take n l) (ks i)) = length (take n l)) as Hx.
  { rewrite xor_unchecked_length, Hks, length_take. lia. }
  assert (ctr_fuel (S fuel) i l =
    xor_unchecked (take n l) (ks i) ++ ctr_fuel fuel (S i) (drop n l)) as Hstep by done.
  split.
  - rewrite Hstep, length_app, Hx, IHl, length_take, length_drop. lia.
  - rewrite Hstep.
    destruct (xor_unchecked (take n l) (ks i) ++ _) as [|c r] eqn:E.
    { apply (f_equal length) in E.
      rewrite length_app, Hx, length_take in E. simpl in E. lia. }
    clear Hstep. rewrite <-E. clear c r E.
    remember (xor_unchecked (take n l) (ks i) ++ ctr_fuel fuel (S i) (drop n l)) as r eqn:Er.
    assert (take n r = xor_unchecked (take n l) (ks i) ∧
      drop n r = ctr_fuel fuel (S i) (drop n l)) as [Ht Hd].
    { rewrite Er. destruct (Nat.le_gt_cases n (length l)) as [Hle|Hgt].
      - rewrite take_app_length', drop_app_length'; [done|..];
          rewrite Hx, length_take; lia.
      - rewrite (drop_ge l n) by lia. rewrite ctr_fuel_nil, app_nil_r.
        rewrite take_ge, drop_ge; [done|..]; rewrite Hx, length_take; lia. }
    destruct r as [|c r']; [by apply (f_equal length) in Er;
      rewrite length_app, Hx, length_take in Er; simpl in Er; lia|].
    change (xor_unchecked (take n (c :: r')) (ks i) ++
      ctr_fuel fuel (S i) (drop n (c :: r')) = l).
    rewrite Ht, Hd, IHi, xor_unchecked_cancel; [apply take_drop|].
    rewrite Hks, length_take. lia.
Qed.
End involution.

Section dem_theory.
  Context `{SymmetricLaws}.

Lemma encrypt_in_ctr_mode_fuel key msg :
  encrypt_in_ctr_mode key msg =
  ctr_fuel (λ i, hmac Encryption key (to_bytes (N.of_nat i))) KEY_SIZE (length msg) 0 msg.
Proof.
  unfold encrypt_in_ctr_mode, chunks, enumerate.
  generalize (length msg) as fuel, 0. intros fuel. revert msg.
  induction fuel as [|fuel IH]; intros [|b msg] s; [done..|].
  cbn [chunks_fuel ctr_fuel length seq zip zip_with]. csimpl. by rewrite IH.
Qed.

Lemma encrypt_in_ctr_mode_involutive key msg :
  length (encrypt_in_ctr_mode key msg) = length msg ∧
  encrypt_in_ctr_mode key (encrypt_in_ctr_mode key msg) = msg.
Proof.
  destruct (ctr_fuel_involutive (λ i, hmac Encryption key (to_bytes (N.of_nat i)))
    KEY_SIZE (length msg) 0 msg) as [Hl Hi]; [done| |done|].
  - intros. apply hmac_sha3_256_length.
  - split; [by rewrite encrypt_in_ctr_mode_fuel, Hl|].
    rewrite (encrypt_in_ctr_mode_fuel key msg), encrypt_in_ctr_mode_fuel. by rewrite Hl.
Qed.

Lemma ciphertext_decrypt_encrypt input key :
  ciphertext_decrypt (input_encrypt input key) key = Ok (plaintext_of input key).
Proof.
  destruct input as [data aad| |data aad]; simpl; [|done|].
  - apply aes_decrypt_encrypt.
  - unfold hmac256ctr_decrypt. rewrite bool_decide_eq_true_2 by done. simpl.
    f_equal. apply encrypt_in_ctr_mode_involutive.
Qed.

(** ** Properties *)

(** Decrypting what [EncryptionInput::encrypt] produced, with the same
    key, succeeds and returns the message in the two authenticated modes and
    the key in the plain mode, and [Hmac256Ctr] ciphertexts are as long as
    their messages. *)
Theorem dem_round_trip (input : EncryptionInput) (key : list byte) :
  ciphertext_decrypt (input_encrypt input key) key =
    Ok (match input with EAes256Gcm m _ | EHmac256Ctr m _ => m | EPlain => key end) ∧
  match input, input_encrypt input key with
  | EHmac256Ctr m _, CHmac256Ctr blob _ mac => length blob = length m ∧ length mac = 32
  | EHmac256Ctr _ _, _ => False
  | _, _ => True
  end.
Proof.
  split; [apply ciphertext_decrypt_encrypt|].
  destruct input; simpl; try done.
  split; [apply encrypt_in_ctr_mode_involutive|apply hmac_sha3_256_length].
Qed.

(** C10: [Hmac256Ctr::decrypt] accepts exactly what [Hmac256Ctr::encrypt]
    produces under the same key and additional data: it returns [m] if and
    only if encrypting [m] gives this ciphertext and this MAC, and on
    everything else it returns the error [Invalid MAC]; it never panics. *)
Theorem hmac256ctr_decrypt_exact (ciphertext mac aad key m : list byte) :
  (hmac256ctr_decrypt ciphertext mac aad key = Ok m ↔
     hmac256ctr_encrypt m aad key = (ciphertext, mac)) ∧
  (hmac256ctr_decrypt ciphertext mac aad key = Err (GeneralError "Invalid MAC") ↔
     ∀ m', hmac256ctr_encrypt m' aad key ≠ (ciphertext, mac)).
Proof.
  unfold hmac256ctr_decrypt, hmac256ctr_encrypt.
  destruct (encrypt_in_ctr_mode_involutive key ciphertext) as [_ Hi].
  case_bool_decide as Hm; simpl; split; split.
  - intros [= <-]. by rewrite Hi, Hm.
  - intros [= <- _]. f_equal. apply encrypt_in_ctr_mode_involutive.
  - done.
  - intros Hno. destruct (Hno (encrypt_in_ctr_mode key ciphertext)).
    by rewrite Hi, Hm.
  - done.
  - intros [= <- Hmac]. by destruct Hm.
  - intros _ m' [= <- Hmac]. by destruct Hm.
  - done.
Qed.

(** The strings the modes feed to HMAC under one key never collide: MAC
    inputs differ from counter inputs, distinct counters and distinct pairs
    of additional data and ciphertext give distinct inputs (the length prefix
    keeps the boundary between them). *)
Theorem hmac_inputs_separated (i j : N) (aad aad' c c' : list byte) :
  (i < 2 ^ 64)%N → (j < 2 ^ 64)%N →
  (N.of_nat (length aad) < 2 ^ 64)%N → (N.of_nat (length aad') < 2 ^ 64)%N →
  hmac_input Encryption (to_bytes i) ≠ hmac_input MAC (mac_input aad c) ∧
  (hmac_input Encryption (to_bytes i) = hmac_input Encryption (to_bytes j) → i = j) ∧
  (hmac_input MAC (mac_input aad c) = hmac_input MAC (mac_input aad' c') →
   aad = aad' ∧ c = c').
Proof.
  intros Hi Hj Ha Ha'. unfold hmac_input. split_and!.
  - intros Heq. apply (f_equal (take 12)) in Heq.
    rewrite !take_app_length' in Heq by reflexivity. discriminate Heq.
  - intros Heq%(inj _). by apply bcs_u64_inj.
  - unfold mac_input. intros Heq%(inj _).
    apply app_inj_1 in Heq as [Hl Heq]; [|by unfold to_bytes; rewrite !bcs_u64_length].
    apply bcs_u64_inj in Hl; [|done..].
    apply app_inj_1 in Heq; [done|]. lia.
Qed.
End dem_theory.

Section witnesses.
#[local] Existing Instances Toy.symmetric Toy.symmetric_laws.

Lemma dem_round_trip_witness :
  ciphertext_decrypt
    (input_encrypt (EHmac256Ctr (bytes_of "hello") (Some (bytes_of "aad")))
       (replicate 32 Byte.x07)) (replicate 32 Byte.x07) = Ok (bytes_of "hello").
Proof.
  exact (proj1 (dem_round_trip (EHmac256Ctr (bytes_of "hello") (Some (bytes_of "aad")))
    (replicate 32 Byte.x07))).
Defined.

Lemma hmac256ctr_decrypt_exact_witness :
  hmac256ctr_decrypt (encrypt_in_ctr_mode [Byte.x01] (bytes_of "m"))
    (compute_mac [Byte.x01] [] (encrypt_in_ctr_mode [Byte.x01] (bytes_of "m"))) [] [Byte.x01]
  = Ok (bytes_of "m").
Proof.
  apply (proj1 (hmac256ctr_decrypt_exact _ _ [] [Byte.x01] (bytes_of "m"))). reflexivity.
Defined.

Lemma hmac_inputs_separated_witness :
  hmac_input MAC (mac_input [Byte.x01] [Byte.x02; Byte.x03]) ≠
  hmac_input MAC (mac_input [Byte.x01; Byte.x02] [Byte.x03]).
Proof.
  intros Heq.
  destruct (hmac_inputs_separated 0 1 [Byte.x01] [Byte.x01; Byte.x02]
    [Byte.x02; Byte.x03] [Byte.x03]) as (_ & _ & Hinj); [done..|].
  destruct (Hinj Heq) as [E _]. discriminate E.
Defined.
End witnesses.
