(* ===== verification/Elgamal.v ===== *)
(** * ElGamal encryption of group elements ([crates/crypto/src/elgamal.rs])

    Key generation, encryption, decryption, and the homomorphic aggregation of
    encrypted shares, generic in the group as the source is. *)

From Stdlib Require Import NArith Lia.
From S2P Require Import Prelude Utils Primitives.

Record SecretKey (S : Type) : Type := mkSecretKey { sk_scalar : S }.
Record PublicKey (G : Type) : Type := mkPublicKey { pk_element : G }.
Record VerificationKey (G : Type) : Type := mkVerificationKey { as_element : G }.
Record Encryption (G : Type) : Type := mkEncryption { enc_0 : G; enc_1 : G }.
Arguments mkSecretKey {S} _.
Arguments sk_scalar {S} _.
Arguments mkPublicKey {G} _.
Arguments pk_element {G} _.
Arguments mkVerificationKey {G} _.
Arguments as_element {G} _.
Arguments mkEncryption {G} _ _.
Arguments enc_0 {G} _.
Arguments enc_1 {G} _.

Definition U16_MAX : N := 65535.

Section elgamal.
  Context {S G VG R : Type} `{GroupElement S G, GroupElement S VG}.

(** [rand] is [G::ScalarType::rand]. *)
Definition genkey (rand : R → S * R) (rng : R) :
    (SecretKey S * PublicKey G * VerificationKey VG) * R :=
  let '(sk, rng) := rand rng in
  ((mkSecretKey sk, mkPublicKey (g_mul g_generator sk),
    mkVerificationKey (g_mul g_generator sk)), rng).

Definition encrypt (rand : R → S * R) (rng : R) (msg : G) (pk : PublicKey G) :
    Encryption G * R :=
  let '(r, rng) := rand rng in
  (mkEncryption (g_mul g_generator r) (g_add (g_mul (pk_element pk) r) msg), rng).

Definition decrypt (sk : SecretKey S) (e : Encryption G) : G :=
  g_sub (enc_1 e) (g_mul (enc_0 e) (sk_scalar sk)).

(** The loop over the shares: party ids are checked, and both components
    collected as indexed values. *)
Fixpoint indexed_shares (seen_ids : gset N) (encrypted_shares : list (N * Encryption G)) :
    outcome FastCryptoError (list (N * G) * list (N * G)) :=
  match encrypted_shares with
  | [] => Ok ([], [])
  | (id, enc) :: rest =>
      if bool_decide (id = U16_MAX) || bool_decide (id ∈ seen_ids) then Err InvalidInput
      else
        let index := ((id + 1) `mod` 2 ^ 16)%N in
        _ ← assert (negb (bool_decide (index = 0%N)));
        '(c1_shares, c2_shares) ← indexed_shares ({[id]} ∪ seen_ids) rest;
        Ok ((index, enc_0 enc) :: c1_shares, (index, enc_1 enc) :: c2_shares)
  end.

Definition aggregate_encrypted `{RecoverC0 S G} (threshold : N)
    (encrypted_shares : list (N * Encryption G)) : outcome FastCryptoError (Encryption G) :=
  if bool_decide (threshold = 0%N)
     || (U16_MAX <? N.of_nat (length encrypted_shares))%N
     || (N.of_nat (length encrypted_shares) `mod` 2 ^ 16 <? threshold)%N
  then Err InvalidInput
  else
    '(c1_shares, c2_shares) ← indexed_shares ∅ encrypted_shares;
    result_c1 ← recover_c0 threshold c1_shares;
    result_c2 ← recover_c0 threshold c2_shares;
    Ok (mkEncryption result_c1 result_c2).
End elgamal.

(** ** Group lemmas *)
Section group_theory.
  Context {S G : Type} `{GroupLaws S G}.

Lemma g_add_cancel_r a b c : g_add a c = g_add b c → a = b.
Proof. intros E. by rewrite <-(g_add_sub a c), E, g_add_sub. Qed.

Lemma g_sub_unique a b c : a = g_add c b → g_sub a b = c.
Proof. intros ->. apply g_add_sub. Qed.

Lemma g_mul_sub a b s : g_mul (g_sub a b) s = g_sub (g_mul a s) (g_mul b s).
Proof.
  symmetry. apply g_sub_unique. by rewrite <-g_mul_add, g_sub_add.
Qed.

Lemma g_add_swap a b c d :
  g_add (g_add a b) (g_add c d) = g_add (g_add a c) (g_add b d).
Proof.
  rewrite <-!g_add_assoc. f_equal. rewrite !g_add_assoc. f_equal. apply g_add_comm.
Qed.

Lemma g_sub_add_distr a b c d :
  g_sub (g_add a b) (g_add c d) = g_add (g_sub a c) (g_sub b d).
Proof. apply g_sub_unique. by rewrite g_add_swap, !g_sub_add. Qed.

Lemma g_sub_zero : g_sub g_zero g_zero = g_zero.
Proof. apply g_sub_unique. by rewrite g_add_zero. Qed.

Lemma decrypt_encrypt {R : Type} (rand : R → S * R) rng msg pk sk :
  pk_element pk = g_mul g_generator (sk_scalar sk) →
  decrypt sk (encrypt rand rng msg pk).1 = msg.
Proof.
  intros Hpk. unfold encrypt, decrypt. destruct (rand rng) as [r r']. simpl. rewrite Hpk.
  apply g_sub_unique. by rewrite (g_mul_comm _ r), g_add_comm.
Qed.

(** Decryption commutes with linear combinations of ciphertexts. *)
Lemma decrypt_linear_combination sk cs (es : list (Encryption G)) :
  decrypt sk (mkEncryption (linear_combination cs (enc_0 <$> es))
    (linear_combination cs (enc_1 <$> es)))
  = linear_combination cs (decrypt sk <$> es).
Proof.
  revert cs. unfold decrypt. simpl.
  induction es as [|e es IH]; intros [|c cs]; csimpl;
    try (by rewrite g_mul_zero, g_sub_zero).
  by rewrite <-IH, g_mul_add, g_sub_add_distr, g_mul_sub, (g_mul_comm _ c).
Qed.
End group_theory.

Definition valid_party_ids {A : Type} (shares : list (N * A)) : Prop :=
  NoDup shares.*1 ∧ U16_MAX ∉ shares.*1.

#[export] Instance valid_party_ids_dec {A : Type} (shares : list (N * A)) :
  Decision (valid_party_ids shares).
Proof. unfold valid_party_ids. apply _. Defined.

(** The share indices [NonZeroU16::new(id + 1)]. *)
Definition index_by {A B : Type} (f : A → B) (shares : list (N * A)) : list (N * B) :=
  (λ '(id, a), ((id + 1)%N, f a)) <$> shares.

Lemma index_by_fst {A B : Type} (f : A → B) (shares : list (N * A)) :
  (index_by f shares).*1 = (λ id, id + 1)%N <$> shares.*1.
Proof.
  unfold index_by. rewrite <-!list_fmap_compose. apply list_fmap_ext. by intros ? [??] _.
Qed.

Lemma index_by_snd {A B : Type} (f : A → B) (shares : list (N * A)) :
  (index_by f shares).*2 = f <$> shares.*2.
Proof.
  unfold index_by. rewrite <-!list_fmap_compose. apply list_fmap_ext. by intros ? [??] _.
Qed.

Section aggregation_theory.
  Context {S G : Type} `{GroupLaws S G}.

Lemma indexed_shares_spec (seen : gset N) (shares : list (N * Encryption G)) :
  Forall (λ id, id ≤ U16_MAX)%N shares.*1 →
  indexed_shares seen shares =
    if bool_decide (valid_party_ids shares ∧ Forall (λ id, id ∉ seen) shares.*1)
    then Ok (index_by enc_0 shares, index_by enc_1 shares) else Err InvalidInput.
Proof.
  revert seen. induction shares as [|[id e] shares IH]; intros seen Hb; [done|].
  csimpl. apply Forall_cons_1 in Hb as [Hid Hb].
  destruct (decide (id = U16_MAX)) as [->|Hne].
  { rewrite bool_decide_eq_true_2 by done. simpl. rewrite bool_decide_eq_false_2; [done|].
    intros [[_ Hm] _]. apply Hm. by left. }
  rewrite (bool_decide_eq_false_2 (id = U16_MAX)) by done. cbn [orb].
  destruct (decide (id ∈ seen)) as [Hin|Hin].
  { rewrite bool_decide_eq_true_2 by done. simpl. rewrite bool_decide_eq_false_2; [done|].
    intros [_ [? _]%Forall_cons_1]. done. }
  rewrite bool_decide_eq_false_2 by done. unfold U16_MAX in *. simpl in Hid.
  rewrite N.mod_small by lia.
  rewrite (bool_decide_eq_false_2 (id + 1 = 0)%N) by lia. cbn [assert negb].
  unfold mbind at 1, outcome_bind at 1. rewrite IH by done.
  assert ((valid_party_ids shares ∧ Forall (λ i, i ∉ ({[id]} ∪ seen : gset N)) shares.*1)
    ↔ (valid_party_ids ((id, e) :: shares) ∧ Forall (λ i, i ∉ seen) (id :: shares.*1)))
    as Hiff.
  { unfold valid_party_ids. csimpl.
    rewrite NoDup_cons, not_elem_of_cons, Forall_cons, !Forall_forall.
    split.
    - intros [[Hnd Hm] HF]. split_and!; try done.
      + intros Hi. apply (HF id Hi). set_solver.
      + intros i Hi. specialize (HF i Hi). set_solver.
    - intros [[[Hni Hnd] [_ Hm]] [_ HF]]. split_and!; try done.
      intros i Hi. specialize (HF i Hi). assert (i ≠ id) by (by intros ->). set_solver. }
  rewrite (bool_decide_ext _ _ Hiff). by case_bool_decide.
Qed.

(** The thresholds, share counts and party ids the aggregation accepts. *)
Definition valid_aggregation (t : N) (shares : list (N * Encryption G)) : Prop :=
  t ≠ 0%N ∧ (t ≤ N.of_nat (length shares) ≤ U16_MAX)%N ∧ valid_party_ids shares.

Lemma aggregate_encrypted_spec `{!RecoverC0 S G} t (shares : list (N * Encryption G)) :
  Forall (λ id, id ≤ U16_MAX)%N shares.*1 →
  aggregate_encrypted t shares =
    if decide (valid_aggregation t shares) then
      c1 ← recover_c0 t (index_by enc_0 shares);
      c2 ← recover_c0 t (index_by enc_1 shares);
      Ok (mkEncryption c1 c2)
    else Err InvalidInput.
Proof.
  intros Hb. unfold aggregate_encrypted. rewrite indexed_shares_spec by done.
  set (n := N.of_nat (length shares)).
  destruct (decide (valid_aggregation t shares)) as [(Ht & Hn & Hv)|Hinv].
  - fold n in Hn. rewrite (bool_decide_eq_false_2 (t = 0%N)) by done.
    rewrite (proj2 (N.ltb_ge _ _)) by lia.
    rewrite N.mod_small by (unfold U16_MAX in Hn; lia).
    rewrite (proj2 (N.ltb_ge _ _)) by lia. cbn [orb].
    rewrite bool_decide_eq_true_2; [done|]. split; [done|].
    apply Forall_forall. set_solver.
  - case_bool_decide as Ht; [done|]. destruct (N.ltb_spec U16_MAX n) as [|Hn]; [done|].
    cbn [orb]. rewrite N.mod_small by (unfold U16_MAX in Hn; lia).
    destruct (N.ltb_spec n t) as [|Hnt]; [done|].
    rewrite bool_decide_eq_false_2; [done|]. intros [Hv _]. by destruct Hinv.
Qed.

Lemma recover_c0_decrypt `{!RecoverC0 S G, !RecoverLaws S G} t sk
    (shares : list (N * Encryption G)) :
  (decrypt sk <$> (c1 ← recover_c0 t (index_by enc_0 shares);
                   c2 ← recover_c0 t (index_by enc_1 shares);
                   Ok (mkEncryption c1 c2)))
  = recover_c0 t (index_by (decrypt sk) shares).
Proof.
  destruct (recover_c0_linear (S := S) (G := G)) as [coefficients Hlin].
  rewrite !Hlin, !index_by_fst, !index_by_snd.
  destruct (coefficients t _) as [cs| |]; [|done..].
  unfold mbind, outcome_bind. cbn [fmap outcome_fmap].
  by rewrite decrypt_linear_combination.
Qed.

(** ** Properties *)

(** Aggregating encrypted shares accepts exactly a nonzero threshold,
    between threshold and 65535 shares, and distinct party ids below 65535,
    and returns [InvalidInput] on all other inputs; on accepted inputs,
    decrypting the aggregate equals recovering the constant term from the
    decrypted shares, at the indices [id + 1], errors included. *)
Theorem aggregate_commutes_with_decrypt `{!RecoverC0 S G, !RecoverLaws S G} (t : N)
    (shares : list (N * Encryption G)) (sk : SecretKey S) :
  Forall (λ id, id ≤ U16_MAX)%N shares.*1 →
  (decrypt sk <$> aggregate_encrypted t shares) =
    if decide (t ≠ 0%N ∧ (t ≤ N.of_nat (length shares) ≤ U16_MAX)%N ∧
               NoDup shares.*1 ∧ U16_MAX ∉ shares.*1)
    then recover_c0 t ((λ '(id, e), ((id + 1)%N, decrypt sk e)) <$> shares)
    else Err InvalidInput.
Proof.
  intros Hb. rewrite aggregate_encrypted_spec by done.
  destruct (decide (valid_aggregation t shares)) as [Hv|Hv].
  - rewrite decide_True by done. apply recover_c0_decrypt.
  - by rewrite decide_False.
Qed.

Context {R : Type} (rand : R → S * R).

(** With the keys [genkey] returns, [decrypt] gives back every message
    [encrypt] encrypted, for all random choices, and the verification key has
    the exponent of the public key. *)
Theorem elgamal_round_trip {VG : Type} `{GroupElement S VG} (rng rng' : R) (msg : G) :
  let '((sk, pk, vk), _) := genkey (VG := VG) rand rng in
  decrypt sk (encrypt rand rng' msg pk).1 = msg ∧
  pk_element pk = g_mul g_generator (sk_scalar sk) ∧
  as_element vk = g_mul g_generator (sk_scalar sk).
Proof.
  unfold genkey. destruct (rand rng) as [sk r1]. split; [|done]. by apply decrypt_encrypt.
Qed.
End aggregation_theory.

Section witnesses.
#[local] Existing Instances Toy.gf_group Toy.gf_group_laws Toy.recover Toy.recover_laws.

(** Two shares of [0x2a] on the line [0x2a + 5 x], each encrypted. *)
Example toy_shares : list (N * Encryption byte) :=
  [(0%N, (encrypt rng_u8 [Byte.x09] Byte.x2f (mkPublicKey Byte.x0d)).1);
   (1%N, (encrypt rng_u8 [Byte.x11] Byte.x20 (mkPublicKey Byte.x0d)).1)].

Lemma aggregate_commutes_with_decrypt_witness :
  (decrypt (mkSecretKey Byte.x0d) <$> aggregate_encrypted 2 toy_shares) = Ok Byte.x2a.
Proof.
  rewrite (aggregate_commutes_with_decrypt 2 toy_shares (mkSecretKey Byte.x0d)).
  - vm_compute. reflexivity.
  - repeat constructor; vm_compute; discriminate.
Defined.

Lemma elgamal_round_trip_witness :
  decrypt (mkSecretKey Byte.x0d) (encrypt rng_u8 [Byte.x09] Byte.x2f
    (mkPublicKey (g_mul (g_generator (GroupElement := Toy.gf_group)) Byte.x0d))).1 = Byte.x2f.
Proof.
  exact (proj1 (elgamal_round_trip rng_u8 (VG := byte) [Byte.x0d] [Byte.x09] Byte.x2f)).
Defined.
End witnesses.
