(* ===== verification/Ibe.v ===== *)
(** * Identity-based encryption ([crates/crypto/src/ibe.rs])

    The Boneh-Franklin scheme over the pairing groups: key extraction and
    verification, batched encryption of one plaintext per key server,
    decryption with a user secret key or with the encryption randomness, the
    encryption of the randomness itself, and proofs of possession. *)

From Stdlib Require Import NArith Lia.
From S2P Require Import Prelude Utils Primitives Elgamal.

Definition DST_ID : list byte := bytes_of "SUI-SEAL-IBE-BLS12381-00".
Definition DST_POP : list byte := bytes_of "SUI-SEAL-IBE-BLS12381-POP-00".
Definition DST_KDF : list byte := bytes_of "SUI-SEAL-IBE-BLS12381-H2-00".

(** An object id is its 32 bytes ([sui_sdk_types::Address]). *)
Abbreviation ObjectID := (list byte) (only parsing).

(** The object id of the key server and the share index. *)
Abbreviation Info := (ObjectID * byte)%type (only parsing).

Definition SEED_LENGTH : nat := 32.

(** [u64::to_be_bytes]. *)
Definition u64_to_be_bytes (n : N) : list byte :=
  (λ k, u8_of (N.shiftr n (8 * N.of_nat (7 - k)))) <$> seq 0 8.

(** The type aliases of the source. *)
Abbreviation MasterKey := Scalar (only parsing).
Abbreviation IbePublicKey := G2Element (only parsing).
Abbreviation UserSecretKey := G1Element (only parsing).
Abbreviation Nonce := G2Element (only parsing).
Abbreviation Randomness := Scalar (only parsing).

Section ibe.
  Context {sym : Symmetric} {crv : Curve}.

Definition public_key_from_master_key (master_key : MasterKey) : IbePublicKey :=
  g_mul g_generator master_key.

Definition into_key_pair (master_key : MasterKey) : MasterKey * IbePublicKey :=
  (master_key, public_key_from_master_key master_key).

Definition generate_key_pair {R : Type} `{AllowedRng R} (rng : R) :
    (MasterKey * IbePublicKey) * R :=
  let '(master_key, rng) := scalar_rand R _ rng in (into_key_pair master_key, rng).

Definition generate_seed {R : Type} `{AllowedRng R} : ST R FastCryptoError (list byte) :=
  generate_random_bytes SEED_LENGTH.

Definition derive_master_key {E : Type} (seed : list byte) (derivation_index : N) :
    outcome E MasterKey :=
  let random_bytes := hkdf_sha3_256 seed [] (u64_to_be_bytes derivation_index) 64 in
  expect_ok (buffer_to_scalar_mod_r random_bytes).

Definition hash_to_g1 (id : list byte) : G1Element := hash_to_group_element (DST_ID ++ id).

Definition extract (master_key : MasterKey) (id : list byte) : UserSecretKey :=
  g_mul (hash_to_g1 id) master_key.

Definition verify_user_secret_key (user_secret_key : UserSecretKey) (id : list byte)
    (public_key : IbePublicKey) : outcome FastCryptoError unit :=
  if bool_decide (pairing user_secret_key g_generator = pairing (hash_to_g1 id) public_key)
  then Ok () else Err InvalidInput.

Definition verify_encrypted_signature (encrypted_sig : Encryption G1Element)
    (ephemeral_vk : VerificationKey G2Element) (partial_pk : G2Element) (id : list byte) :
    outcome FastCryptoError unit :=
  if bool_decide (enc_0 encrypted_sig = g_zero)
     || bool_decide (enc_1 encrypted_sig = g_zero)
     || bool_decide (as_element ephemeral_vk = g_zero)
     || bool_decide (partial_pk = g_zero)
  then Err InvalidInput
  else
    let lhs := pairing (enc_1 encrypted_sig) g_generator in
    let rhs := gt_add (pairing (enc_0 encrypted_sig) (as_element ephemeral_vk))
                      (pairing (hash_to_g1 id) partial_pk) in
    if bool_decide (lhs = rhs) then Ok () else Err InvalidInput.

Definition kdf (input : GTElement) (nonce : G2Element) (gid : G1Element) (info : Info) :
    list byte :=
  let '(object_id, index) := info in
  sha3_256 (DST_KDF ++ gt_to_byte_array input ++ g2_to_byte_array nonce ++
            g1_to_byte_array gid ++ object_id ++ [index]).

Definition encrypt_batched_deterministic (randomness : Randomness)
    (plaintexts : list (list byte)) (public_keys : list IbePublicKey) (id : list byte)
    (infos : list Info) : outcome FastCryptoError (Nonce * list (list byte)) :=
  let batch_size := length plaintexts in
  if negb (batch_size =? length public_keys) || negb (batch_size =? length infos)
  then Err InvalidInput
  else
    let gid := hash_to_g1 id in
    let gid_r := g_mul gid randomness in
    let nonce := g_mul g_generator randomness in
    ciphertexts ← try_map (λ i,
        public_key ← expect (public_keys !! i);
        info ← expect (infos !! i);
        plaintext ← expect (plaintexts !! i);
        Ok (xor (kdf (pairing gid_r public_key) nonce gid info) plaintext))
      (seq 0 batch_size);
    Ok (nonce, ciphertexts).

Definition ibe_decrypt (nonce : Nonce) (ciphertext : list byte) (secret_key : UserSecretKey)
    (id : list byte) (info : Info) : list byte :=
  let gid := hash_to_g1 id in
  xor ciphertext (kdf (pairing secret_key nonce) nonce gid info).

Definition verify_nonce (randomness : Randomness) (nonce : Nonce) :
    outcome FastCryptoError unit :=
  if negb (bool_decide (g_mul g_generator randomness = nonce))
  then Err (GeneralError "Invalid randomness") else Ok ().

Definition decrypt_deterministic (randomness : Randomness) (ciphertext : list byte)
    (public_key : IbePublicKey) (id : list byte) (info : Info) :
    outcome FastCryptoError (list byte) :=
  let gid := hash_to_g1 id in
  let gid_r := g_mul gid randomness in
  let nonce := g_mul g_generator randomness in
  Ok (xor ciphertext (kdf (pairing gid_r public_key) nonce gid info)).

Definition encrypt_randomness (randomness : Randomness) (key : list byte) : list byte :=
  xor key (scalar_to_byte_array randomness).

Definition decrypt_randomness (encrypted_randomness derived_key : list byte) :
    outcome FastCryptoError Randomness :=
  scalar_from_byte_array (xor derived_key encrypted_randomness).

Definition create_proof_of_possession (master_key : MasterKey) (message : list byte) :
    G1Element :=
  let public_key := public_key_from_master_key master_key in
  let full_msg := DST_POP ++ bcs_g2 public_key ++ message in
  g_mul (hash_to_group_element full_msg) master_key.
End ibe.

Section ibe_theory.
  Context {sym : Symmetric} {sym_laws : SymmetricLaws} {crv : Curve} {crv_laws : CurveLaws}.

Lemma kdf_length input nonce gid info : length (kdf input nonce gid info) = 32.
Proof. destruct info. apply sha3_256_length. Qed.

Lemma xor_kdf_cancel m input nonce gid info :
  length m = 32 →
  xor (xor (kdf input nonce gid info) m) (kdf input nonce gid info) = m.
Proof.
  intros Hm. unfold xor. rewrite (xor_unchecked_comm (kdf _ _ _ _) m).
  apply xor_unchecked_cancel. rewrite kdf_length. lia.
Qed.

(** The ciphertext of the [i]-th plaintext. *)
Definition batch_ciphertext (r : Randomness) (id : list byte)
    (pk : IbePublicKey) (info : Info) (m : list byte) : list byte :=
  xor (kdf (pairing (g_mul (hash_to_g1 id) r) pk) (g_mul g_generator r) (hash_to_g1 id) info) m.

Lemma encrypt_batched_spec r plaintexts public_keys id infos :
  encrypt_batched_deterministic r plaintexts public_keys id infos =
    if decide (length public_keys = length plaintexts ∧ length infos = length plaintexts)
    then Ok (g_mul g_generator r,
      zip_with (λ '(pk, info) m, batch_ciphertext r id pk info m)
        (zip public_keys infos) plaintexts)
    else Err InvalidInput.
Proof.
  unfold encrypt_batched_deterministic. case_decide as Hl.
  2: { destruct (Nat.eqb_spec (length plaintexts) (length public_keys));
    destruct (Nat.eqb_spec (length plaintexts) (length infos)); simpl; try done. lia. }
  destruct Hl as [Hpk Hi]. rewrite Hpk, Hi, Nat.eqb_refl. cbn [orb negb].
  match goal with |- (cs ← ?x; _) = _ => assert (x = Ok (zip_with
    (λ '(pk, info) m, batch_ciphertext r id pk info m) (zip public_keys infos) plaintexts))
    as -> end; [|done].
  apply try_map_inv, Forall2_same_length_lookup_2.
  { rewrite length_seq, !length_zip_with. lia. }
  intros k x y [-> Hk]%lookup_seq Hy.
  apply lookup_zip_with_Some in Hy as ([pk info] & m & -> & Hz & Hm).
  apply lookup_zip_with_Some in Hz as (pk' & info' & [= -> ->] & Hpk' & Hinfo').
  simpl. by rewrite Hpk', Hinfo', Hm.
Qed.

Lemma ibe_decrypt_batch msk r id info m :
  length m = 32 →
  ibe_decrypt (g_mul g_generator r)
    (batch_ciphertext r id (public_key_from_master_key msk) info m)
    (extract msk id) id info = m.
Proof.
  intros Hm. unfold ibe_decrypt, batch_ciphertext, extract, public_key_from_master_key.
  rewrite <-!pairing_mul, (g_mul_comm _ r). by apply xor_kdf_cancel.
Qed.

Lemma decrypt_deterministic_batch pk r id info m :
  length m = 32 →
  decrypt_deterministic r (batch_ciphertext r id pk info m) pk id info = Ok m.
Proof. intros Hm. unfold decrypt_deterministic. f_equal. by apply xor_kdf_cancel. Qed.

Lemma batch_ciphertext_length r id pk info m :
  length m = 32 → length (batch_ciphertext r id pk info m) = 32.
Proof. intros Hm. unfold batch_ciphertext, xor. rewrite xor_unchecked_length, kdf_length. lia. Qed.

Lemma verify_nonce_ok r : verify_nonce r (g_mul g_generator r) = Ok ().
Proof. unfold verify_nonce. by rewrite bool_decide_eq_true_2. Qed.

Lemma verify_nonce_inv r nonce : verify_nonce r nonce = Ok () → nonce = g_mul g_generator r.
Proof. unfold verify_nonce. case_bool_decide; [done|]. simpl. discriminate. Qed.

Lemma decrypt_encrypt_randomness r key :
  length key = 32 → decrypt_randomness (encrypt_randomness r key) key = Ok r.
Proof.
  intros Hk. unfold decrypt_randomness, encrypt_randomness, xor.
  rewrite (xor_unchecked_comm key (xor_unchecked _ _)).
  rewrite (xor_unchecked_comm key), xor_unchecked_cancel; [apply scalar_round_trip|].
  rewrite Hk, scalar_to_byte_array_length. lia.
Qed.

Lemma pairing_hash_pk id msk :
  pairing (hash_to_g1 id) (public_key_from_master_key msk)
  = pairing (extract msk id) g_generator.
Proof. unfold public_key_from_master_key, extract. by rewrite pairing_mul. Qed.

Lemma verify_user_secret_key_ok usk id msk :
  verify_user_secret_key usk id (public_key_from_master_key msk) = Ok () ↔
  usk = extract msk id.
Proof.
  unfold verify_user_secret_key. rewrite pairing_hash_pk. case_bool_decide as Ha.
  - by apply pairing_generator_inj in Ha.
  - split; [done|]. by intros ->.
Qed.

(** The pairing equation of an encrypted partial key. *)
Lemma encrypted_pairing_iff (e : Encryption G1Element) (sk : SecretKey Scalar) msk id :
  pairing (enc_1 e) g_generator
  = gt_add (pairing (enc_0 e) (g_mul g_generator (sk_scalar sk)))
      (pairing (hash_to_g1 id) (public_key_from_master_key msk))
  ↔ decrypt sk e = extract msk id.
Proof.
  unfold decrypt. rewrite pairing_hash_pk, <-pairing_mul, <-pairing_add. split.
  - intros ->%pairing_generator_inj. apply g_sub_unique, g_add_comm.
  - intros <-. by rewrite g_add_comm, g_sub_add.
Qed.

Lemma verify_encrypted_signature_ok e sk msk id :
  verify_encrypted_signature e (mkVerificationKey (g_mul g_generator (sk_scalar sk)))
    (public_key_from_master_key msk) id = Ok () → decrypt sk e = extract msk id.
Proof.
  unfold verify_encrypted_signature. destruct (_ || _); [done|]. cbn [as_element].
  case_bool_decide as Hb; [|done]. intros _. by apply encrypted_pairing_iff.
Qed.

(** ** Properties *)

(** Batched encryption fails with [InvalidInput] exactly when the number
    of plaintexts, public keys and infos differ; otherwise, each ciphertext is
    opened to its plaintext both by the user secret key extracted from the
    server's master key, and by the encryption randomness, whose nonce check
    passes. *)
Theorem ibe_round_trip (r : Randomness) (master_keys : list MasterKey)
    (plaintexts : list (list byte)) (id : list byte) (infos : list Info) :
  Forall (λ m : list byte, length m = KEY_SIZE) plaintexts →
  match encrypt_batched_deterministic r plaintexts
          (public_key_from_master_key <$> master_keys) id infos with
  | Ok (nonce, ciphertexts) =>
      length ciphertexts = length plaintexts ∧
      verify_nonce r nonce = Ok () ∧
      ∀ i m msk info, plaintexts !! i = Some m → master_keys !! i = Some msk →
        infos !! i = Some info → ∃ c, ciphertexts !! i = Some c ∧
        ibe_decrypt nonce c (extract msk id) id info = m ∧
        decrypt_deterministic r c (public_key_from_master_key msk) id info = Ok m
  | Err e => e = InvalidInput ∧
      ¬ (length master_keys = length plaintexts ∧ length infos = length plaintexts)
  | Panic => False
  end.
Proof.
  intros HF. rewrite encrypt_batched_spec, length_fmap. case_decide as Hl; [|done].
  split_and!.
  - rewrite !length_zip_with, length_fmap. lia.
  - apply verify_nonce_ok.
  - intros i m msk info Hm Hmsk Hinfo. assert (length m = 32).
    { by apply (Forall_lookup_1 _ _ _ _ HF Hm). }
    eexists. split.
    + apply lookup_zip_with_Some. eexists (_, _), m. split_and!; [done| |done].
      apply lookup_zip_with_Some. eexists _, info. split_and!; [done| |done].
      by rewrite list_lookup_fmap, Hmsk.
    + split; [by apply ibe_decrypt_batch|by apply decrypt_deterministic_batch].
Qed.

(** A user secret key is accepted for an identity under the public key
    of a master key if and only if it is the key extracted from that master
    key for that identity. *)
Theorem verify_user_secret_key_iff (usk : UserSecretKey) (id : list byte) (msk : MasterKey) :
  verify_user_secret_key usk id (public_key_from_master_key msk) =
  if bool_decide (usk = extract msk id) then Ok () else Err InvalidInput.
Proof.
  case_bool_decide as Hu; [by apply verify_user_secret_key_ok|].
  unfold verify_user_secret_key. case_bool_decide as Hp; [|done].
  exfalso. apply Hu, verify_user_secret_key_ok. unfold verify_user_secret_key.
  by rewrite bool_decide_true.
Qed.

(** The pairing equation for an encrypted partial key is sound and
    complete: under the verification key of the ElGamal key [sk] and the
    partial public key of [msk], an encrypted signature passes if and only if
    none of the four elements is the identity and it decrypts under [sk] to
    the key extracted from [msk]. *)
Theorem verify_encrypted_signature_iff (e : Encryption G1Element)
    (sk : SecretKey Scalar) (msk : MasterKey) (id : list byte) :
  let vk := mkVerificationKey (g_mul g_generator (sk_scalar sk)) in
  let pk := public_key_from_master_key msk in
  verify_encrypted_signature e vk pk id =
  if decide ((enc_0 e ≠ g_zero ∧ enc_1 e ≠ g_zero ∧ as_element vk ≠ g_zero ∧ pk ≠ g_zero) ∧
             decrypt sk e = extract msk id)
  then Ok () else Err InvalidInput.
Proof.
  intros vk pk. unfold verify_encrypted_signature.
  destruct (decide (enc_0 e = g_zero)); [by rewrite bool_decide_true, decide_False by tauto|].
  destruct (decide (enc_1 e = g_zero)).
  { rewrite (bool_decide_true (enc_1 e = _)), orb_true_r by done. by rewrite decide_False by tauto. }
  destruct (decide (as_element vk = g_zero)).
  { rewrite (bool_decide_true (as_element vk = _)), orb_true_r by done.
    by rewrite decide_False by tauto. }
  destruct (decide (pk = g_zero)).
  { rewrite (bool_decide_true (pk = _)), orb_true_r by done. by rewrite decide_False by tauto. }
  rewrite !bool_decide_false by done. cbn [orb].
  unfold vk, pk. cbn [as_element].
  case_bool_decide as Hb; rewrite encrypted_pairing_iff in Hb.
  - by rewrite decide_True.
  - by rewrite decide_False by tauto.
Qed.
End ibe_theory.

Section witnesses.
#[local] Existing Instances Toy.symmetric Toy.symmetric_laws Toy.curve Toy.curve_laws.

Lemma ibe_round_trip_witness :
  ∃ nonce c,
    encrypt_batched_deterministic (crv := Toy.curve) Byte.x09 [replicate 32 Byte.x2a]
      [public_key_from_master_key (crv := Toy.curve) Byte.x05] [Byte.x01] [([Byte.x07], Byte.x01)]
      = Ok (nonce, [c]) ∧
    ibe_decrypt (crv := Toy.curve) nonce c (extract (crv := Toy.curve) Byte.x05 [Byte.x01])
      [Byte.x01] ([Byte.x07], Byte.x01) = replicate 32 Byte.x2a.
Proof.
  pose proof (ibe_round_trip (crv := Toy.curve) Byte.x09 [Byte.x05] [replicate 32 Byte.x2a] [Byte.x01]
    [([Byte.x07], Byte.x01)] ltac:(by repeat constructor)) as Hrt.
  set (x := encrypt_batched_deterministic _ _ _ _ _) in Hrt.
  assert (∃ nonce c, x = Ok (nonce, [c])) as (nonce & c & Hx)
    by (eexists _, _; vm_compute; reflexivity).
  exists nonce, c. split; [exact Hx|]. rewrite Hx in Hrt.
  destruct Hrt as (_ & _ & Hi).
  destruct (Hi 0 (replicate 32 Byte.x2a) Byte.x05 ([Byte.x07], Byte.x01)) as (c' & [= ->] & Hd & _);
    [reflexivity..|exact Hd].
Defined.

Lemma verify_user_secret_key_iff_witness :
  verify_user_secret_key (crv := Toy.curve) (extract (crv := Toy.curve) Byte.x05 [Byte.x01])
    [Byte.x01] (public_key_from_master_key (crv := Toy.curve) Byte.x05) = Ok ().
Proof.
  rewrite (verify_user_secret_key_iff (crv := Toy.curve)). vm_compute. reflexivity.
Defined.

Lemma verify_encrypted_signature_iff_witness :
  let e := (encrypt (S := Scalar (Curve := Toy.curve)) rng_u8 [Byte.x0b]
    (extract (crv := Toy.curve) Byte.x05 [Byte.x01])
    (mkPublicKey (g_mul g_generator (Byte.x03 : Scalar (Curve := Toy.curve))))).1 in
  verify_encrypted_signature (crv := Toy.curve) e
    (mkVerificationKey (g_mul g_generator (Byte.x03 : Scalar (Curve := Toy.curve))))
    (public_key_from_master_key (crv := Toy.curve) Byte.x05) [Byte.x01] = Ok ().
Proof.
  intros e. rewrite (verify_encrypted_signature_iff (crv := Toy.curve) e (mkSecretKey Byte.x03)).
  vm_compute. reflexivity.
Defined.
End witnesses.
