(* ===== verification/Seal.v ===== *)
(** * Threshold encryption ([crates/crypto/src/lib.rs])

    [seal_encrypt] and [seal_decrypt]: a random base key is secret-shared among
    the key servers, each share is encrypted to its server's public key for the
    full identity, and the message under a key derived from the base key.
    Decryption reconstructs the base key from enough shares and verifies the
    encryption randomness, and optionally the consistency of all shares. *)

From Stdlib Require Import NArith Lia.
From S2P Require Import Prelude Gf256 Polynomial Utils Tss Primitives Dem Elgamal Ibe.

Definition DST_DERIVE_KEY : list byte := bytes_of "SUI-SEAL-IBE-BLS12381-H3-00".

Definition create_full_id (package_id id : list byte) : list byte := package_id ++ id.

Inductive KeyPurpose : Type := EncryptedRandomness | DEM.

Definition key_purpose_tag (p : KeyPurpose) : list byte :=
  match p with EncryptedRandomness => [Byte.x00] | DEM => [Byte.x01] end.

Section types.
  Context {crv : Curve}.

Inductive IBEEncryptions : Type :=
  | BonehFranklinBLS12381 (nonce : Nonce) (encrypted_shares : list (list byte))
      (encrypted_randomness : list byte).

Inductive IBEPublicKeys : Type :=
  | BonehFranklinPublicKeys (public_keys : list IbePublicKey).

Inductive IBEUserSecretKeys : Type :=
  | BonehFranklinUserSecretKeys (user_secret_keys : gmap ObjectID UserSecretKey).

Record EncryptedObject : Type := mkEncryptedObject {
  eo_version : byte;
  eo_package_id : ObjectID;
  eo_id : list byte;
  eo_services : list (ObjectID * byte);
  eo_threshold : byte;
  eo_encrypted_shares : IBEEncryptions;
  eo_ciphertext : Ciphertext;
}.

Definition ciphertexts (e : IBEEncryptions) : list (list byte) :=
  match e with BonehFranklinBLS12381 _ encrypted_shares _ => encrypted_shares end.
End types.

Section seal.
  Context {sym : Symmetric} {crv : Curve}.

Definition derive_key (purpose : KeyPurpose) (base_key : list byte)
    (encrypted_shares : list (list byte)) (threshold : byte) (key_servers : list ObjectID) :
    outcome FastCryptoError (list byte) :=
  _ ← assert (length encrypted_shares =? length key_servers);
  Ok (sha3_256 (DST_DERIVE_KEY ++ base_key ++ key_purpose_tag purpose ++ [threshold]
        ++ concat encrypted_shares ++ concat (key_servers : list (list byte)))).

Definition seal_encrypt {R : Type} `{AllowedRng R} (package_id : ObjectID) (id : list byte)
    (key_servers : list ObjectID) (public_keys : IBEPublicKeys) (threshold : byte)
    (encryption_input : EncryptionInput) :
    ST R FastCryptoError (EncryptedObject * list byte) :=
  let number_of_shares := u8_of (N.of_nat (length key_servers)) in
  if (u8_val number_of_shares <? u8_val threshold)%N || bool_decide (threshold = u8_zero)
  then st_lift (Err InvalidInput)
  else
    let full_id := create_full_id package_id id in
    base_key ← generate_random_bytes KEY_SIZE;
    sharing ← split base_key threshold number_of_shares;
    let services := zip key_servers (ss_indices sharing) in
    encrypted_shares ←
      match public_keys with
      | BonehFranklinPublicKeys pks =>
          if negb (N.of_nat (length pks) =? u8_val number_of_shares)%N
          then st_lift (Err InvalidInput)
          else
            randomness ← (λ rng, let '(r, rng) := scalar_rand R _ rng in (Ok r, rng));
            '(nonce, encrypted_shares) ← st_lift (encrypt_batched_deterministic randomness
                (ss_shares sharing) pks full_id services);
            randomness_key ← st_lift (derive_key EncryptedRandomness base_key
                encrypted_shares threshold key_servers);
            let encrypted_randomness := encrypt_randomness randomness randomness_key in
            mret (BonehFranklinBLS12381 nonce encrypted_shares encrypted_randomness)
      end;
    dem_key ← st_lift (derive_key DEM base_key (ciphertexts encrypted_shares)
                         threshold key_servers);
    let ciphertext := input_encrypt encryption_input dem_key in
    mret (mkEncryptedObject Byte.x00 package_id id services threshold
            encrypted_shares ciphertext, dem_key).

Definition decrypt_all_shares_and_verify_nonce (self : IBEEncryptions) (full_id : list byte)
    (services : list (ObjectID * byte)) (public_keys : IBEPublicKeys)
    (base_key : list byte) (threshold : byte) :
    outcome FastCryptoError (list (byte * list byte)) :=
  match self with
  | BonehFranklinBLS12381 nonce encrypted_shares encrypted_randomness =>
      key ← derive_key EncryptedRandomness base_key (ciphertexts self) threshold services.*1;
      randomness ← decrypt_randomness encrypted_randomness key;
      _ ← verify_nonce randomness nonce;
      match public_keys with
      | BonehFranklinPublicKeys public_keys =>
          if negb (length public_keys =? length encrypted_shares) then Err InvalidInput
          else try_map (λ '((pk, ciphertext), service),
                 plaintext ← decrypt_deterministic randomness ciphertext pk full_id service;
                 Ok (service.2, plaintext))
               (zip (zip public_keys encrypted_shares) services)
      end
  end.

Definition combine_and_check_share_consistency (self : IBEEncryptions)
    (shares : list (byte * list byte)) (full_id : list byte)
    (services : list (ObjectID * byte)) (threshold : byte) (public_keys : IBEPublicKeys) :
    outcome FastCryptoError (list byte) :=
  polynomial ← interpolate KEY_SIZE shares;
  let base_key := polynomial u8_zero in
  all_shares ← decrypt_all_shares_and_verify_nonce self full_id services public_keys
                 base_key threshold;
  if existsb (λ '(i, share), negb (bool_decide (polynomial i = share))) all_shares
  then Err (GeneralError "Inconsistent shares")
  else Ok base_key.

Definition combine_and_verify_nonce (self : IBEEncryptions)
    (shares : list (byte * list byte)) (services : list (ObjectID * byte))
    (threshold : byte) : outcome FastCryptoError (list byte) :=
  base_key ← combine KEY_SIZE shares;
  match self with
  | BonehFranklinBLS12381 nonce encrypted_shares encrypted_randomness =>
      randomness_key ← derive_key EncryptedRandomness base_key encrypted_shares
                         threshold services.*1;
      randomness ← decrypt_randomness encrypted_randomness randomness_key;
      _ ← verify_nonce randomness nonce;
      Ok base_key
  end.

(** The indices of the services for which there is a secret key. *)
Definition service_indices (services : list (ObjectID * byte))
    (user_secret_keys : gmap ObjectID UserSecretKey) : list nat :=
  (List.filter (λ '(_, service), bool_decide (is_Some (user_secret_keys !! service.1)))
    (enumerate services)).*1.

(** The shares that the secret keys open. *)
Definition user_shares (obj : EncryptedObject) (user_secret_keys : IBEUserSecretKeys) :
    outcome FastCryptoError (list (byte * list byte)) :=
  let full_id := create_full_id (eo_package_id obj) (eo_id obj) in
  let services := eo_services obj in
  match eo_encrypted_shares obj, user_secret_keys with
  | BonehFranklinBLS12381 nonce encrypted_shares _,
    BonehFranklinUserSecretKeys user_secret_keys =>
      if negb (length encrypted_shares =? length services) then Err InvalidInput
      else
        let indices := service_indices services user_secret_keys in
        if (N.of_nat (length indices) <? u8_val (eo_threshold obj))%N then Err InvalidInput
        else try_map (λ i,
            service ← expect (services !! i);
            encrypted_share ← expect (encrypted_shares !! i);
            user_secret_key ← expect (user_secret_keys !! service.1);
            Ok (service.2, ibe_decrypt nonce encrypted_share user_secret_key full_id service))
          indices
  end.

Definition seal_decrypt (obj : EncryptedObject) (user_secret_keys : IBEUserSecretKeys)
    (public_keys : option IBEPublicKeys) : outcome FastCryptoError (list byte) :=
  if negb (bool_decide (eo_version obj = Byte.x00)) then Err InvalidInput
  else
    let full_id := create_full_id (eo_package_id obj) (eo_id obj) in
    shares ← user_shares obj user_secret_keys;
    base_key ←
      match public_keys with
      | Some public_keys =>
          combine_and_check_share_consistency (eo_encrypted_shares obj) shares full_id
            (eo_services obj) (eo_threshold obj) public_keys
      | None =>
          combine_and_verify_nonce (eo_encrypted_shares obj) shares (eo_services obj)
            (eo_threshold obj)
      end;
    dem_key ← derive_key DEM base_key (ciphertexts (eo_encrypted_shares obj))
                (eo_threshold obj) (eo_services obj).*1;
    ciphertext_decrypt (eo_ciphertext obj) dem_key.
End seal.
