(* ===== verification/SealTheory.v ===== *)
(** * Correctness of threshold encryption

    The theorems about [seal_encrypt] and [seal_decrypt] of [Seal]: the round
    trip for every set of keys that reaches the threshold, what each of them
    rejects, and what the share-consistency check does and does not ensure. *)

From Stdlib Require Import NArith Lia.
From S2P Require Import Prelude Gf256 Polynomial Utils Tss Primitives Dem Elgamal Ibe Seal.

(** ** The loop over the selected services *)
Section selection.
  Context {A C U V : Type} (key : A → option U) (h : A → C → U → V).

Definition selected (l : list A) (cs : list C) : list V :=
  omap (λ '(a, c), h a c <$> key a) (zip l cs).

Lemma try_map_selected_from (pre l : list A) (pre_c cs : list C) (E : Type) :
  length pre = length pre_c → length l = length cs →
  try_map (E := E) (λ i, a ← expect ((pre ++ l) !! i); c ← expect ((pre_c ++ cs) !! i);
      u ← expect (key a); Ok (h a c u))
    (List.filter (λ '(_, a), bool_decide (is_Some (key a)))
      (zip (seq (length pre) (length l)) l)).*1
  = Ok (selected l cs).
Proof.
  revert pre pre_c cs. induction l as [|a l IH]; intros pre pre_c [|c cs] Hp Hl;
    simpl in Hl; try done. injection Hl as Hl.
  assert (∀ (B : Type) (p : list B) b q, p ++ b :: q = (p ++ [b]) ++ q) as Hcons.
  { intros. by rewrite <-app_assoc. }
  assert (S (length pre) = length (pre ++ [a])) as Hs by (rewrite length_app; simpl; lia).
  assert (length (pre ++ [a]) = length (pre_c ++ [c])) as Hp'
    by (rewrite !length_app; simpl; lia).
  specialize (IH (pre ++ [a]) (pre_c ++ [c]) cs Hp' Hl).
  rewrite <-!Hcons in IH. csimpl. unfold selected. csimpl. rewrite Hs.
  destruct (key a) as [u|] eqn:Hk; csimpl; [|apply IH].
  rewrite (list_lookup_middle pre) by done. simpl.
  rewrite (list_lookup_middle pre_c) by done. simpl. rewrite Hk. simpl.
  by rewrite IH.
Qed.

Lemma try_map_selected (l : list A) (cs : list C) (E : Type) :
  length l = length cs →
  try_map (E := E) (λ i, a ← expect (l !! i); c ← expect (cs !! i);
      u ← expect (key a); Ok (h a c u))
    (List.filter (λ '(_, a), bool_decide (is_Some (key a))) (enumerate l)).*1
  = Ok (selected l cs).
Proof. intros. by apply (try_map_selected_from [] l [] cs E). Qed.

Lemma filter_enumerate_length (P : A → bool) (l : list A) :
  length (List.filter (λ '(_, a), P a) (enumerate l)).*1 = length (List.filter P l).
Proof.
  rewrite length_fmap. unfold enumerate. generalize 0.
  induction l as [|a l IH]; intros s; [done|]. simpl.
  destruct (P a); simpl; by rewrite IH.
Qed.

Lemma selected_length (l : list A) (cs : list C) :
  length l = length cs →
  length (selected l cs) = length (List.filter (λ a, bool_decide (is_Some (key a))) l).
Proof.
  revert cs. induction l as [|a l IH]; intros [|c cs] Hl; simpl in Hl; try done.
  unfold selected in *. csimpl. destruct (key a); csimpl; rewrite IH; lia.
Qed.

Lemma selected_fmap_sublist {B : Type} (g : V → B) (g' : A → B) (l : list A) (cs : list C) :
  (∀ a c u, g (h a c u) = g' a) → g <$> selected l cs `sublist_of` g' <$> l.
Proof.
  intros Hg. revert cs. induction l as [|a l IH]; intros cs; [destruct cs; constructor|].
  destruct cs as [|c cs]; [apply sublist_nil_l|].
  unfold selected in *. csimpl. destruct (key a) as [u|]; csimpl.
  - rewrite Hg. by constructor.
  - by constructor.
Qed.
End selection.

Section theory.
  Context {sym : Symmetric} {sym_laws : SymmetricLaws} {crv : Curve} {crv_laws : CurveLaws}.

Lemma derive_key_ok p bk cs t ks :
  length cs = length ks →
  ∃ key, derive_key p bk cs t ks = Ok key ∧ length key = KEY_SIZE.
Proof.
  intros Hl. unfold derive_key. rewrite Hl, Nat.eqb_refl.
  eexists. split; [done|apply sha3_256_length].
Qed.

(** The number of services for which there is a key. *)
Definition keys_held (obj : EncryptedObject) (usks : gmap ObjectID UserSecretKey) : nat :=
  length (List.filter (λ service, bool_decide (is_Some (usks !! service.1)))
    (eo_services obj)).

(** ** The form of an encrypted object *)

(** [obj] encrypts the shares of [polys] to the public keys [pks] with
    randomness [r], and its data-encapsulation key is [dem_key]. *)
Record encrypts (obj : EncryptedObject) (pks : list IbePublicKey) (polys : list Polynomial)
    (r : Randomness) (dem_key : list byte) : Prop := {
  enc_version : eo_version obj = Byte.x00;
  enc_count : length pks = length (eo_services obj);
  enc_indices : NoDup (eo_services obj).*2 ∧ u8_zero ∉ (eo_services obj).*2;
  enc_polys : length polys = KEY_SIZE ∧
    Forall (λ p : Polynomial, length p = N.to_nat (u8_val (eo_threshold obj))) polys;
  enc_threshold : eo_threshold obj ≠ u8_zero;
  enc_shares :
    let full_id := create_full_id (eo_package_id obj) (eo_id obj) in
    let cs := zip_with (λ pk service, batch_ciphertext r full_id pk service
      (share_of polys service.2)) pks (eo_services obj) in
    ∃ randomness_key, length randomness_key = KEY_SIZE ∧
      derive_key EncryptedRandomness (share_of polys u8_zero) cs (eo_threshold obj)
        (eo_services obj).*1 = Ok randomness_key ∧
      derive_key DEM (share_of polys u8_zero) cs (eo_threshold obj)
        (eo_services obj).*1 = Ok dem_key ∧
      eo_encrypted_shares obj = BonehFranklinBLS12381 (g_mul g_generator r) cs
        (encrypt_randomness r randomness_key);
}.

(** A store of user secret keys that holds only keys extracted from the
    master keys of their services. *)
Definition keys_valid (obj : EncryptedObject) (msks : list MasterKey)
    (usks : gmap ObjectID UserSecretKey) : Prop :=
  ∀ i service msk usk, eo_services obj !! i = Some service → msks !! i = Some msk →
    usks !! service.1 = Some usk →
    usk = extract msk (create_full_id (eo_package_id obj) (eo_id obj)).

Lemma share_of_length polys i : length (share_of polys i) = length polys.
Proof. apply length_fmap. Qed.

Lemma batch_as_shares r id pks (services : list (ObjectID * byte)) polys :
  zip_with (λ '(pk, info) m, batch_ciphertext r id pk info m)
    (zip pks services) (share_of polys <$> services.*2)
  = zip_with (λ pk service, batch_ciphertext r id pk service (share_of polys service.2))
      pks services.
Proof.
  revert pks. induction services as [|[o i] services IH]; intros [|pk pks]; csimpl;
    [done..|]. by rewrite IH.
Qed.

Section encryption.
  Context {R : Type} {rng_inst : AllowedRng R} {rng_laws : RngLaws R}.

(** What [seal_encrypt] does on every input. *)
Lemma seal_encrypt_spec package_id id key_servers pks t input (rng : R) :
  let n := length key_servers in
  let nb := u8_of (N.of_nat n) in
  let o := seal_encrypt package_id id key_servers (BonehFranklinPublicKeys pks) t input rng in
  if (u8_val nb <? u8_val t)%N || bool_decide (t = u8_zero) then o.1 = Err InvalidInput
  else if negb (N.of_nat (length pks) =? u8_val nb)%N then o.1 = Err InvalidInput
  else if negb (n <=? 255) then o.1 = Panic
  else ∃ obj dem_key polys r, o.1 = Ok (obj, dem_key) ∧
    encrypts obj pks polys r dem_key ∧
    eo_package_id obj = package_id ∧ eo_id obj = id ∧
    eo_services obj = zip key_servers (share_indices nb) ∧
    eo_threshold obj = t ∧ eo_ciphertext obj = input_encrypt input dem_key.
Proof.
  intros n nb o. unfold o, seal_encrypt. fold n nb. clear o.
  destruct (_ || _) eqn:Hc1; [done|].
  apply orb_false_iff in Hc1 as [Hle%N.ltb_ge Ht%bool_decide_eq_false].
  pose proof (rng_fill_length KEY_SIZE rng) as Hbk.
  destruct (rng_fill KEY_SIZE rng) as [base_key rng1] eqn:Hfill. simpl in Hbk.
  rewrite (st_bind_ok _ _ _ base_key rng1) by (unfold generate_random_bytes; by rewrite Hfill).
  destruct (split_spec base_key t nb rng1 Ht Hle) as (polys & rng2 & Hs & Hpl & Hz).
  { intros ->. discriminate. }
  rewrite (st_bind_ok _ _ _ _ _ Hs). cbn [ss_indices ss_shares].
  destruct (negb (_ =? u8_val nb)%N) eqn:Hc2; [done|].
  apply negb_false_iff, N.eqb_eq in Hc2.
  assert (u8_val nb = N.of_nat n `mod` 256)%N as Hnb by apply u8_val_of.
  assert (length (share_indices nb) = length pks) as Hli
    by (rewrite share_indices_length; lia).
  assert (length pks ≤ n) as Hpn.
  { pose proof (N.Div0.mod_le (N.of_nat n) 256). lia. }
  set (services := zip key_servers (share_indices nb)).
  assert (length services = length pks) as Hls.
  { unfold services. rewrite length_zip_with, Hli. lia. }
  assert (services.*2 = share_indices nb) as Hs2.
  { unfold services. apply snd_zip. lia. }
  destruct (scalar_rand R rng_inst rng2) as [r rng3] eqn:Hr.
  set (full_id := create_full_id package_id id).
  set (cs := zip_with (λ pk service, batch_ciphertext r full_id pk service
      (share_of polys service.2)) pks services).
  assert (length cs = length pks) as Hlcs.
  { unfold cs. rewrite length_zip_with. lia. }
  assert (encrypt_batched_deterministic r (share_of polys <$> share_indices nb) pks
    full_id services = Ok (g_mul g_generator r, cs)) as Henc.
  { rewrite encrypt_batched_spec, decide_True by (rewrite length_fmap, Hli, Hls; done).
    by rewrite <-Hs2, batch_as_shares. }
  destruct (Nat.leb_spec n 255) as [Hn|Hn]; cbn [negb].
  2: { rewrite (st_bind_panic _ _ _ rng3); [done|].
    rewrite (st_bind_ok _ _ _ r rng3) by (by rewrite Hr).
    rewrite (st_bind_ok _ _ _ (g_mul g_generator r, cs) rng3)
      by (unfold st_lift; by rewrite Henc).
    apply st_bind_panic. unfold st_lift, derive_key.
    rewrite (proj2 (Nat.eqb_neq _ _)); [done|].
    pose proof (u8_val_bound nb). fold n. lia. }
  rewrite N.mod_small in Hnb by lia.
  assert (services.*1 = key_servers) as Hs1.
  { unfold services. apply fst_zip. fold n. lia. }
  assert (length cs = length key_servers) as Hlk by (fold n; lia).
  destruct (derive_key_ok EncryptedRandomness base_key cs t key_servers Hlk)
    as (rk & Hrk & Hlrk).
  destruct (derive_key_ok DEM base_key cs t key_servers Hlk) as (dk & Hdk & _).
  erewrite st_bind_ok.
  2: { rewrite (st_bind_ok _ _ _ r rng3) by (by rewrite Hr).
    rewrite (st_bind_ok _ _ _ (g_mul g_generator r, cs) rng3)
      by (unfold st_lift; by rewrite Henc).
    rewrite (st_bind_ok _ _ _ rk rng3) by (unfold st_lift; by rewrite Hrk).
    reflexivity. }
  rewrite (st_bind_ok _ _ _ dk rng3) by (unfold st_lift; cbn [ciphertexts]; by rewrite Hdk).
  eexists _, dk, polys, r. split; [done|]. split; [|split_and!; done].
  split; cbn; try done.
  - rewrite Hs2. split; [apply share_indices_NoDup|].
    rewrite elem_of_share_indices. intros [Hbad _]. by destruct Hbad.
  - split; [|done]. by rewrite <-(share_of_length polys gf_zero), Hz, Hbk.
  - exists rk. rewrite Hs1. change (share_of polys u8_zero) with (share_of polys gf_zero).
    by rewrite Hz.
Qed.
End encryption.

(** ** The shares that a set of keys opens *)
Definition opened_shares (obj : EncryptedObject) (usks : gmap ObjectID UserSecretKey) :
    list (byte * list byte) :=
  match eo_encrypted_shares obj with
  | BonehFranklinBLS12381 nonce cs _ =>
      selected (λ service : ObjectID * byte, usks !! service.1)
        (λ service c usk, (service.2, ibe_decrypt nonce c usk
           (create_full_id (eo_package_id obj) (eo_id obj)) service))
        (eo_services obj) cs
  end.

Lemma user_shares_spec obj usks :
  user_shares obj (BonehFranklinUserSecretKeys usks) =
    if negb (length (ciphertexts (eo_encrypted_shares obj)) =? length (eo_services obj))
       || (N.of_nat (keys_held obj usks) <? u8_val (eo_threshold obj))%N
    then Err InvalidInput else Ok (opened_shares obj usks).
Proof.
  unfold user_shares, opened_shares.
  destruct (eo_encrypted_shares obj) as [nonce cs er]. cbn [ciphertexts].
  destruct (Nat.eqb_spec (length cs) (length (eo_services obj))) as [Hl|Hl]; [|done].
  cbn [negb orb]. unfold service_indices.
  rewrite (filter_enumerate_length
    (λ service : ObjectID * byte, bool_decide (is_Some (usks !! service.1)))).
  fold (keys_held obj usks). destruct (_ <? _)%N; [done|].
  by apply (try_map_selected (λ service : ObjectID * byte, usks !! service.1)).
Qed.

Lemma opened_shares_sublist obj usks :
  (opened_shares obj usks).*1 `sublist_of` (eo_services obj).*2.
Proof.
  unfold opened_shares. destruct (eo_encrypted_shares obj).
  by apply selected_fmap_sublist.
Qed.

Lemma opened_shares_length obj usks :
  length (ciphertexts (eo_encrypted_shares obj)) = length (eo_services obj) →
  length (opened_shares obj usks) = keys_held obj usks.
Proof.
  unfold opened_shares, keys_held. destruct (eo_encrypted_shares obj). cbn [ciphertexts].
  intros Hl. by rewrite selected_length.
Qed.

Lemma valid_shares_sublist {A : Type} (sel : list (byte * A)) (indices : list byte) :
  sel.*1 `sublist_of` indices → NoDup indices → u8_zero ∉ indices → sel ≠ [] →
  valid_shares sel.
Proof.
  intros Hsub Hnd Hz Hne. split_and!; [done|by eapply sublist_NoDup|].
  intros Hin. apply Hz. by eapply sublist_subseteq.
Qed.

Lemma enc_ciphertexts_length obj pks polys r dk :
  encrypts obj pks polys r dk →
  length (ciphertexts (eo_encrypted_shares obj)) = length (eo_services obj).
Proof.
  intros [_ Hc _ _ _ (rk & _ & _ & _ & ->)]. cbn. rewrite length_zip_with. lia.
Qed.

Lemma opened_shares_on_polys obj msks polys r dk usks j sh :
  encrypts obj (public_key_from_master_key <$> msks) polys r dk → keys_valid obj msks usks →
  (j, sh) ∈ opened_shares obj usks → sh = share_of polys j.
Proof.
  intros [_ Hc _ [Hp32 _] _ (rk & _ & _ & _ & Hes)] Hk Hin.
  unfold opened_shares in Hin. rewrite Hes in Hin. unfold selected in Hin.
  apply list_elem_of_omap in Hin as ([service c] & Hz & Hin).
  apply list_elem_of_lookup in Hz as [i Hz].
  apply lookup_zip_with_Some in Hz as (service' & c' & [= <- <-] & Hs & Hcs).
  apply lookup_zip_with_Some in Hcs as (pk & service' & -> & Hpk & Hs').
  rewrite Hs in Hs'. injection Hs' as <-.
  rewrite list_lookup_fmap in Hpk. destruct (msks !! i) as [msk|] eqn:Hm; [|done].
  injection Hpk as <-.
  apply fmap_Some in Hin as (usk & Husk & [= -> ->]).
  rewrite (Hk i service msk usk Hs Hm Husk). apply ibe_decrypt_batch.
  by rewrite share_of_length, Hp32.
Qed.

(** ** Reconstruction of the base key *)
Lemma decrypt_all_shares_ok obj pks polys r dk :
  encrypts obj pks polys r dk →
  decrypt_all_shares_and_verify_nonce (eo_encrypted_shares obj)
    (create_full_id (eo_package_id obj) (eo_id obj)) (eo_services obj)
    (BonehFranklinPublicKeys pks) (share_of polys u8_zero) (eo_threshold obj)
  = Ok ((λ i, (i, share_of polys i)) <$> (eo_services obj).*2).
Proof.
  intros [_ Hc _ [Hp32 _] _ (rk & Hrk & Hk & _ & Hes)].
  rewrite Hes. unfold decrypt_all_shares_and_verify_nonce. cbn [ciphertexts].
  rewrite Hk. unfold mbind at 1, outcome_bind at 1.
  rewrite decrypt_encrypt_randomness by done. unfold mbind at 1, outcome_bind at 1.
  rewrite verify_nonce_ok. unfold mbind at 1, outcome_bind at 1.
  rewrite length_zip_with, (proj2 (Nat.eqb_eq _ _)) by lia. cbn [negb].
  apply try_map_inv. set (full_id := create_full_id _ _). clear Hes Hk. revert Hc.
  generalize (eo_services obj) as services. clear - Hp32 sym_laws crv_laws.
  induction pks as [|pk pks IH]; intros [|service services] Hc; try done.
  csimpl. constructor; [|apply IH; by injection Hc].
  pose proof (decrypt_deterministic_batch pk r full_id service (share_of polys service.2)
    ltac:(by rewrite share_of_length, Hp32)) as [= Hd]. by rewrite Hd.
Qed.

Lemma base_key_recovered obj pks polys r dk sel :
  encrypts obj pks polys r dk → valid_shares sel →
  (∀ j sh, (j, sh) ∈ sel → sh = share_of polys j) →
  N.to_nat (u8_val (eo_threshold obj)) ≤ length sel →
  combine_and_verify_nonce (eo_encrypted_shares obj) sel (eo_services obj)
    (eo_threshold obj) = Ok (share_of polys u8_zero) ∧
  combine_and_check_share_consistency (eo_encrypted_shares obj) sel
    (create_full_id (eo_package_id obj) (eo_id obj)) (eo_services obj) (eo_threshold obj)
    (BonehFranklinPublicKeys pks) = Ok (share_of polys u8_zero).
Proof.
  intros Henc Hv Hsel Hl. pose proof (decrypt_all_shares_ok _ _ _ _ _ Henc) as Hall.
  destruct Henc as [_ _ _ [Hp32 Hpl] _ (rk & Hrk & Hk & _ & Hes)].
  assert (Forall (λ p : Polynomial, length p ≤ length sel) polys) as Hpl'.
  { eapply Forall_impl; [done|]. simpl. intros p ->. lia. }
  split.
  - unfold combine_and_verify_nonce. rewrite <-Hp32, combine_share_of by done.
    rewrite Hes. unfold mbind at 1, outcome_bind at 1.
    change gf_zero with u8_zero. rewrite Hk. unfold mbind at 1, outcome_bind at 1.
    rewrite decrypt_encrypt_randomness by done. unfold mbind at 1, outcome_bind at 1.
    by rewrite verify_nonce_ok.
  - unfold combine_and_check_share_consistency.
    destruct (interpolate_share_of polys sel Hv Hpl' Hsel) as (f & Hf & Hx).
    rewrite Hp32 in Hf. rewrite Hf. unfold mbind at 1, outcome_bind at 1.
    rewrite Hx, Hall. unfold mbind, outcome_bind.
    replace (existsb _ _) with false; [done|]. symmetry.
    apply not_true_iff_false. rewrite existsb_exists.
    intros ([i sh] & Hin & Hne). apply list_elem_of_In, list_elem_of_fmap in Hin
      as (i' & [= -> ->] & _). by rewrite Hx, bool_decide_eq_true_2 in Hne.
Qed.

Lemma seal_decrypt_ok obj msks polys r dk usks public_keys :
  encrypts obj (public_key_from_master_key <$> msks) polys r dk → keys_valid obj msks usks →
  N.to_nat (u8_val (eo_threshold obj)) ≤ keys_held obj usks →
  public_keys = None ∨
    public_keys = Some (BonehFranklinPublicKeys (public_key_from_master_key <$> msks)) →
  seal_decrypt obj (BonehFranklinUserSecretKeys usks) public_keys
  = ciphertext_decrypt (eo_ciphertext obj) dk.
Proof.
  intros Henc Hk Hheld Hpk.
  pose proof (enc_ciphertexts_length _ _ _ _ _ Henc) as Hl.
  pose proof (opened_shares_length obj usks Hl) as Hol.
  assert (u8_val (eo_threshold obj) ≠ 0%N) as Ht.
  { intros ?%(inj u8_val _ u8_zero). by apply (enc_threshold _ _ _ _ _ Henc). }
  assert (valid_shares (opened_shares obj usks)) as Hv.
  { destruct (enc_indices _ _ _ _ _ Henc).
    apply (valid_shares_sublist _ (eo_services obj).*2); [apply opened_shares_sublist|done..|].
    intros E. rewrite E in Hol. simpl in Hol. lia. }
  destruct (base_key_recovered _ _ _ _ _ (opened_shares obj usks) Henc Hv) as [Hb1 Hb2].
  { intros j sh. by apply (opened_shares_on_polys obj msks polys r dk usks). }
  { by rewrite Hol. }
  unfold seal_decrypt. rewrite (enc_version _ _ _ _ _ Henc). cbn [negb bool_decide].
  rewrite bool_decide_eq_true_2 by done. cbn [negb].
  rewrite user_shares_spec, Hl, Nat.eqb_refl. cbn [negb orb].
  rewrite (proj2 (N.ltb_ge _ _)) by lia. unfold mbind at 1, outcome_bind at 1.
  assert (derive_key DEM (share_of polys u8_zero) (ciphertexts (eo_encrypted_shares obj))
    (eo_threshold obj) (eo_services obj).*1 = Ok dk) as Hdk.
  { by destruct Henc as [_ _ _ _ _ (rk & _ & _ & Hdk & ->)]. }
  destruct Hpk as [-> | ->]; [rewrite Hb1|rewrite Hb2];
    unfold mbind, outcome_bind; by rewrite Hdk.
Qed.
End theory.

(** ** The consistency check on objects of unknown origin *)
Section consistency.
  Context {sym : Symmetric} {sym_laws : SymmetricLaws} {crv : Curve} {crv_laws : CurveLaws}.

Lemma interpolate_inv N shares f :
  interpolate N shares = Ok f →
  valid_shares shares ∧ ∃ polys : list Polynomial, length polys = N ∧
    Forall (λ p : Polynomial, length p ≤ length shares) polys ∧
    ∀ x, f x = share_of polys x.
Proof.
  unfold interpolate, all_unique. destruct (Nat.eqb_spec (length shares) 0) as [|Hl]; [done|].
  case_bool_decide as Hz; [done|]. case_bool_decide as Hnd; [|done]. cbn [orb negb].
  destruct (try_map _ _) as [polys| |] eqn:Hps; [|done..].
  intros [= <-]. assert (valid_shares shares) as Hv by (split_and!; [by intros ->|done..]).
  split; [done|]. exists polys. apply try_map_inv in Hps.
  split_and!; [|clear Hl|done].
  - apply Forall2_length in Hps. by rewrite length_seq in Hps.
  - induction Hps as [|i p idx ps Hp Hps IH]; constructor; [|done].
    destruct (poly_interpolate_spec (shares_at shares i)) as (p' & Hp' & Hlp & _).
    { by rewrite shares_at_fst. }
    rewrite Hp in Hp'. injection Hp' as <-. unfold shares_at in Hlp.
    by rewrite length_fmap in Hlp.
Qed.

(** Under the randomness of the nonce, the two ways to open a share agree. *)
Lemma ibe_decrypt_deterministic msk r c id info :
  decrypt_deterministic r c (public_key_from_master_key msk) id info
  = Ok (ibe_decrypt (g_mul g_generator r) c (extract msk id) id info).
Proof.
  unfold decrypt_deterministic, ibe_decrypt, extract, public_key_from_master_key.
  do 3 f_equal. by rewrite <-!pairing_mul, (g_mul_comm _ r).
Qed.

(** A base key that passes the checks: the randomness it gives makes the nonce. *)
Lemma decrypt_all_inv self full_id services pks base_key t all :
  decrypt_all_shares_and_verify_nonce self full_id services (BonehFranklinPublicKeys pks)
    base_key t = Ok all →
  ∃ r cs er key, self = BonehFranklinBLS12381 (g_mul g_generator r) cs er ∧
    derive_key EncryptedRandomness base_key cs t services.*1 = Ok key ∧
    decrypt_randomness er key = Ok r ∧
    length pks = length cs ∧
    Forall2 (λ '((pk, c), service) s,
      (m ← decrypt_deterministic r c pk full_id service; Ok (service.2, m)) = Ok s)
      (zip (zip pks cs) services) all.
Proof.
  destruct self as [nonce cs er]. cbn [decrypt_all_shares_and_verify_nonce ciphertexts].
  destruct (derive_key _ _ _ _ _) as [key| |] eqn:Hkey; [|done..].
  unfold mbind at 1, outcome_bind at 1.
  destruct (decrypt_randomness er key) as [r| |] eqn:Hr; [|done..].
  unfold mbind at 1, outcome_bind at 1.
  destruct (verify_nonce r nonce) as [[]| |] eqn:Hn; [|done..].
  apply verify_nonce_inv in Hn as ->. unfold mbind at 1, outcome_bind at 1.
  destruct (Nat.eqb_spec (length pks) (length cs)) as [Hl|]; [|done].
  cbn [negb]. intros Hall%try_map_inv.
  exists r, cs, er, key. split_and!; try done.
  eapply Forall2_impl; [exact Hall|]. by intros [[pk c] service] s.
Qed.

(** What success of the consistency check says about the shares. *)
Lemma consistency_check_inv obj msks usks base_key :
  length (ciphertexts (eo_encrypted_shares obj)) = length (eo_services obj) →
  combine_and_check_share_consistency (eo_encrypted_shares obj) (opened_shares obj usks)
    (create_full_id (eo_package_id obj) (eo_id obj)) (eo_services obj) (eo_threshold obj)
    (BonehFranklinPublicKeys (public_key_from_master_key <$> msks)) = Ok base_key →
  valid_shares (opened_shares obj usks) ∧
  ∃ polys : list Polynomial, base_key = share_of polys u8_zero ∧ length polys = KEY_SIZE ∧
    Forall (λ p : Polynomial, length p ≤ keys_held obj usks) polys ∧
    length msks = length (eo_services obj) ∧
    (∀ usks', keys_valid obj msks usks' →
       ∀ j sh, (j, sh) ∈ opened_shares obj usks' → sh = share_of polys j) ∧
    ∃ all, decrypt_all_shares_and_verify_nonce (eo_encrypted_shares obj)
      (create_full_id (eo_package_id obj) (eo_id obj)) (eo_services obj)
      (BonehFranklinPublicKeys (public_key_from_master_key <$> msks)) base_key
      (eo_threshold obj) = Ok all ∧ Forall (λ '(j, sh), sh = share_of polys j) all.
Proof.
  intros Hlen. unfold combine_and_check_share_consistency.
  destruct (interpolate _ _) as [f| |] eqn:Hf; [|done..].
  apply interpolate_inv in Hf as (Hv & polys & Hpl & Hlp & Hx).
  unfold mbind at 1, outcome_bind at 1. rewrite Hx.
  destruct (decrypt_all_shares_and_verify_nonce _ _ _ _ _ _) as [all| |] eqn:Hall; [|done..].
  unfold mbind at 1, outcome_bind at 1.
  destruct (existsb _ all) eqn:Hex; [done|]. intros [= <-].
  assert (Forall (λ '(j, sh), sh = share_of polys j) all) as Hon.
  { apply Forall_forall. intros [j sh] Hin%list_elem_of_In.
    apply not_true_iff_false in Hex. rewrite existsb_exists in Hex.
    destruct (decide (sh = share_of polys j)) as [|Hne]; [done|]. destruct Hex.
    exists (j, sh). split; [done|]. rewrite Hx. by rewrite bool_decide_eq_false_2. }
  pose proof (decrypt_all_inv _ _ _ _ _ _ _ Hall)
    as (r & cs & er & key & Hes & _ & _ & Hlpk & HF).
  rewrite Hes in Hlen. cbn [ciphertexts] in Hlen. rewrite length_fmap in Hlpk.
  rewrite <-(opened_shares_length obj usks) by (by rewrite Hes).
  split; [done|]. exists polys. split_and!; try done; [congruence| |by exists all].
  intros usks' Hk j sh Hin. unfold opened_shares, selected in Hin. rewrite Hes in Hin.
  apply list_elem_of_omap in Hin as ([service c] & Hz & Hin).
  apply fmap_Some in Hin as (usk & Husk & [= -> ->]).
  apply list_elem_of_lookup in Hz as [i Hz].
  apply lookup_zip_with_Some in Hz as (service' & c' & [= <- <-] & Hs & Hc).
  destruct (lookup_lt_is_Some_2 msks i) as [msk Hm].
  { apply lookup_lt_Some in Hc. lia. }
  rewrite (Hk i service msk usk Hs Hm Husk).
  assert (zip (zip (public_key_from_master_key <$> msks) cs) (eo_services obj) !! i
    = Some (public_key_from_master_key msk, c, service)) as Hzz.
  { apply lookup_zip_with_Some. eexists (_, _), _. split_and!; [done| |done].
    apply lookup_zip_with_Some. eexists _, _. split_and!; [done| |done].
    by rewrite list_lookup_fmap, Hm. }
  destruct (Forall2_lookup_l _ _ _ _ _ HF Hzz) as ([j' sh'] & Hi & Hopen).
  rewrite ibe_decrypt_deterministic in Hopen. injection Hopen as <- <-.
  apply (Forall_lookup_1 _ _ _ _ Hon Hi).
Qed.
(** The plain fields of what [seal_encrypt] returns. *)
Lemma seal_encrypt_object {R : Type} `{AllowedRng R, !RngLaws R} package_id id key_servers pks t
    input (rng rng' : R) obj key :
  seal_encrypt package_id id key_servers (BonehFranklinPublicKeys pks) t input rng
    = (Ok (obj, key), rng') →
  eo_package_id obj = package_id ∧ eo_id obj = id ∧ eo_threshold obj = t ∧ t ≠ u8_zero ∧
  (eo_services obj).*1 = key_servers.
Proof.
  intros He. pose proof (seal_encrypt_spec package_id id key_servers pks t input rng) as Hs.
  cbv zeta in Hs. rewrite He in Hs. cbn [fst] in Hs.
  destruct (_ <? u8_val t)%N; [done|]. case_bool_decide as Ht; [done|]. cbn [orb] in Hs.
  destruct (negb _); [done|]. destruct (Nat.leb_spec (length key_servers) 255); [|done].
  destruct Hs as (obj' & key' & polys & r & [= <- <-] & _ & <- & <- & Hsv & <- & _).
  split_and!; try done. rewrite Hsv. apply fst_zip. rewrite share_indices_length.
  rewrite u8_val_of_small by lia. lia.
Qed.

(** What was encrypted to the public keys of [msks] decrypts with any store of
    their extracted keys that covers enough key servers. *)
Lemma seal_decrypt_of_encrypt {R : Type} `{AllowedRng R, !RngLaws R} (package_id : ObjectID)
    (id : list byte) (key_servers : list ObjectID) (msks : list MasterKey) (t : byte)
    (input : EncryptionInput) (rng rng' : R) (obj : EncryptedObject) (key : list byte)
    (usks : gmap ObjectID UserSecretKey) (public_keys : option IBEPublicKeys) :
  let pks := BonehFranklinPublicKeys (public_key_from_master_key <$> msks) in
  seal_encrypt package_id id key_servers pks t input rng = (Ok (obj, key), rng') →
  (∀ i ks msk usk, key_servers !! i = Some ks → msks !! i = Some msk →
     usks !! ks = Some usk → usk = extract msk (create_full_id package_id id)) →
  N.to_nat (u8_val t) ≤
    length (List.filter (λ ks, bool_decide (is_Some (usks !! ks))) key_servers) →
  public_keys = None ∨ public_keys = Some pks →
  seal_decrypt obj (BonehFranklinUserSecretKeys usks) public_keys =
    Ok (match input with EAes256Gcm m _ | EHmac256Ctr m _ => m | EPlain => key end).
Proof.
  intros pks He Hk Ht Hpk.
  pose proof (seal_encrypt_spec package_id id key_servers
    (public_key_from_master_key <$> msks) t input rng) as Hs.
  cbv zeta in Hs. fold pks in Hs. rewrite He in Hs. cbn [fst] in Hs.
  destruct (_ || _); [done|]. destruct (negb _); [done|].
  destruct (Nat.leb_spec (length key_servers) 255) as [Hn|]; [|done].
  destruct Hs as (obj' & key' & polys & r & [= <- <-] & Henc & <- & <- & Hsv & <- & Hct).
  assert ((eo_services obj).*1 = key_servers) as Hs1.
  { rewrite Hsv. apply fst_zip. rewrite share_indices_length.
    rewrite u8_val_of_small by lia. lia. }
  rewrite (seal_decrypt_ok obj msks polys r key usks); try done.
  - rewrite Hct. rewrite ciphertext_decrypt_encrypt. by destruct input.
  - intros i service msk usk Hi Hm Hu. eapply Hk; [|done..].
    by rewrite <-Hs1, list_lookup_fmap, Hi.
  - rewrite <-Hs1, filter_fmap, length_fmap in Ht. done.
Qed.
End consistency.
