(* ===== verification/SealProps.v ===== *)
(** * Properties of threshold encryption

    The claims about [seal_encrypt] and [seal_decrypt], with their witnesses
    on the toy groups, and the example of an object that the share-consistency
    check accepts although its polynomial has a degree above the threshold. *)

From Stdlib Require Import NArith Lia.
From S2P Require Import Prelude Gf256 Polynomial Utils Tss Primitives Dem Elgamal Ibe Seal SealTheory.

(** ** Properties *)
Section properties.
  Context {sym : Symmetric} {sym_laws : SymmetricLaws} {crv : Curve} {crv_laws : CurveLaws}.

(** C1: whatever [seal_encrypt] encrypts to the public keys of the servers'
    master keys, [seal_decrypt] opens with every store of keys extracted from
    those master keys that covers at least [threshold] of the key servers,
    both without public keys and with the share-consistency check: the result
    is the message, or the derived key that [seal_encrypt] returned in the
    plain mode. *)
Theorem seal_round_trip {R : Type} `{AllowedRng R, !RngLaws R} (package_id : ObjectID)
    (id : list byte) (key_servers : list ObjectID) (msks : list MasterKey) (t : byte)
    (input : EncryptionInput) (rng rng' : R) (obj : EncryptedObject) (key : list byte)
    (usks : gmap ObjectID UserSecretKey) (public_keys : option IBEPublicKeys) :
  let pks := BonehFranklinPublicKeys (public_key_from_master_key <$> msks) in
  seal_encrypt package_id id key_servers pks t input rng = (Ok (obj, key), rng') →
  (∀ i ks msk usk, key_servers !! i = Some ks → msks !! i = Some msk →
     usks !! ks = Some usk → usk = extract msk (create_full_id package_id id)) →
  N.to_nat (u8_val t) ≤
    length (List.filter (λ ks, bool_decide (is_Some (usks !! ks))) key_servers) →
  public_keys = None ∨ public_keys = Some pks →
  seal_decrypt obj (BonehFranklinUserSecretKeys usks) public_keys =
    Ok (match input with EAes256Gcm m _ | EHmac256Ctr m _ => m | EPlain => key end).
Proof.
  intros pks. apply seal_decrypt_of_encrypt.
Qed.

(** C14: the outcome of [seal_encrypt] on every input. It returns
    [InvalidInput] for a threshold of zero or above the number of key servers
    modulo 256, or when the number of public keys is not that number; it
    panics when it gets past these checks with more than 255 key servers; in
    every other case it succeeds, in every mode and for every randomness, and
    there is no other error. What it returns is the key that the input was
    encrypted under, and an object of version zero with the key servers in
    order at the share indices [1..=n] and one encrypted share of 32 bytes for
    each. *)
Theorem seal_encrypt_outcome {R : Type} `{AllowedRng R, !RngLaws R} (package_id : ObjectID)
    (id : list byte) (key_servers : list ObjectID) (pks : list IbePublicKey) (t : byte)
    (input : EncryptionInput) (rng : R) :
  let n := N.of_nat (length key_servers) in
  let truncated := (n `mod` 256)%N in
  let o := (seal_encrypt package_id id key_servers (BonehFranklinPublicKeys pks) t
              input rng).1 in
  (o = Err InvalidInput ↔
     t = u8_zero ∨ (truncated < u8_val t)%N ∨ N.of_nat (length pks) ≠ truncated) ∧
  (o = Panic ↔
     t ≠ u8_zero ∧ (u8_val t ≤ truncated)%N ∧ N.of_nat (length pks) = truncated ∧
     (255 < n)%N) ∧
  (is_ok o = true ↔
     t ≠ u8_zero ∧ (u8_val t ≤ n)%N ∧ length pks = length key_servers ∧ (n ≤ 255)%N) ∧
  (∀ e, o = Err e → e = InvalidInput) ∧
  (∀ obj key, o = Ok (obj, key) →
     eo_version obj = Byte.x00 ∧ eo_package_id obj = package_id ∧ eo_id obj = id ∧
     eo_threshold obj = t ∧ eo_ciphertext obj = input_encrypt input key ∧
     (eo_services obj).*1 = key_servers ∧
     (u8_val <$> (eo_services obj).*2) = (N.of_nat <$> seq 1 (length key_servers)) ∧
     length (ciphertexts (eo_encrypted_shares obj)) = length key_servers ∧
     Forall (λ c : list byte, length c = KEY_SIZE) (ciphertexts (eo_encrypted_shares obj))).
Proof.
  intros n truncated o.
  pose proof (seal_encrypt_spec package_id id key_servers pks t input rng) as Hs.
  cbv zeta in Hs. rewrite u8_val_of in Hs. fold n in Hs. fold truncated o in Hs.
  assert ((n ≤ 255)%N → truncated = n) as Hsmall by (intros; apply N.mod_small; lia).
  destruct (N.ltb_spec truncated (u8_val t)) as [Hlt|Hle]; cbn [orb] in Hs.
  { rewrite Hs. split_and!; [split; [tauto|done]|split; [done|lia]| |congruence|done].
    split; [done|]. intros (_ & ? & _ & ?). rewrite Hsmall in Hlt by done. lia. }
  case_bool_decide as Ht.
  { rewrite Hs. split_and!; [split; [tauto|done]|by split; [|intros [? _]]| |congruence|done].
    split; [done|]. by intros [? _]. }
  destruct (N.eqb_spec (N.of_nat (length pks)) truncated) as [Hp|Hp]; cbn [negb] in Hs.
  2: { rewrite Hs. split_and!; [split; [tauto|done]|by split; [|intros (_ & _ & ? & _)]| |congruence|done].
    split; [done|]. intros (_ & _ & Hl & ?). rewrite Hsmall, Hl in Hp by done. by destruct Hp. }
  destruct (Nat.leb_spec (length key_servers) 255) as [Hn|Hn]; cbn [negb] in Hs.
  2: { rewrite Hs. assert (255 < n)%N by (unfold n; lia). split_and!; [|by split| |congruence|done].
    - split; [done|]. intros [?|[?|?]]; [done|lia|done].
    - split; [done|]. intros (_ & _ & _ & ?). lia. }
  destruct Hs as (obj & key & polys & r & Ho & Henc & Hpid & Hid & Hsv & Hth & Hct).
  rewrite Ho. assert (n ≤ 255)%N as Hn8 by (unfold n; lia). rewrite Hsmall in * by done.
  split_and!; [| | |done|].
  - split; [done|]. intros [?|[?|?]]; [done|lia|done].
  - split; [done|]. intros (_ & _ & _ & ?). lia.
  - split; [|done]. intros _. split_and!; [done..|unfold n in Hp; lia|done].
  - intros ? ? [= <- <-].
    assert (N.to_nat (u8_val (u8_of n)) = length key_servers) as Hu.
    { rewrite u8_val_of_small; unfold n; lia. }
    assert (length (eo_services obj) = length key_servers) as Hls.
    { rewrite Hsv, length_zip_with, share_indices_length. fold n. lia. }
    assert ((eo_services obj).*1 = key_servers) as Hs1.
    { rewrite Hsv. apply fst_zip. rewrite share_indices_length. fold n. lia. }
    pose proof (enc_ciphertexts_length _ _ _ _ _ Henc) as Hlc.
    split_and!; try done; [by destruct Henc| |lia|].
    + rewrite Hsv, snd_zip by (rewrite share_indices_length; fold n; lia).
      unfold share_indices. fold n. rewrite Hu, <-!list_fmap_compose.
      apply list_fmap_ext. intros k i [-> Hk]%lookup_seq.
      unfold compose. apply u8_val_of_small. lia.
    + destruct Henc as [_ _ _ [Hp32 _] _ (rk & _ & _ & _ & ->)]. cbn [ciphertexts].
      apply Forall_forall. intros c Hc. apply list_elem_of_lookup in Hc as [i Hc].
      apply lookup_zip_with_Some in Hc as (pk & service & -> & _).
      apply batch_ciphertext_length. by rewrite share_of_length, Hp32.
Qed.

(** C4: what [seal_decrypt] has checked when it succeeds, on any object and
    any keys: the version is zero, there is one encrypted share per service,
    at least [threshold] services have a key, the keyed services have
    distinct nonzero indices, and the nonce is the one made by the encryption
    randomness that the base key of those shares decrypts. *)
Theorem seal_decrypt_sound (obj : EncryptedObject) (usks : gmap ObjectID UserSecretKey)
    (pks : option IBEPublicKeys) (m : list byte) :
  seal_decrypt obj (BonehFranklinUserSecretKeys usks) pks = Ok m →
  eo_version obj = Byte.x00 ∧
  length (ciphertexts (eo_encrypted_shares obj)) = length (eo_services obj) ∧
  N.to_nat (u8_val (eo_threshold obj)) ≤ keys_held obj usks ∧
  valid_shares (opened_shares obj usks) ∧
  ∃ base_key randomness_key r nonce cs er,
    eo_encrypted_shares obj = BonehFranklinBLS12381 nonce cs er ∧
    combine KEY_SIZE (opened_shares obj usks) = Ok base_key ∧
    derive_key EncryptedRandomness base_key cs (eo_threshold obj) (eo_services obj).*1
      = Ok randomness_key ∧
    decrypt_randomness er randomness_key = Ok r ∧ nonce = g_mul g_generator r.
Proof.
  unfold seal_decrypt. case_bool_decide as Hver; [|done]. cbn [negb].
  rewrite user_shares_spec. destruct (Nat.eqb_spec (length (ciphertexts (eo_encrypted_shares obj)))
    (length (eo_services obj))) as [Hl|]; [|done].
  destruct (N.ltb_spec (N.of_nat (keys_held obj usks)) (u8_val (eo_threshold obj)))
    as [|Hle]; [done|]. cbn [negb orb]. unfold mbind at 1, outcome_bind at 1.
  intros Hd. split_and!; [done|done|lia| |].
  - destruct pks as [[pks]|].
    + destruct (combine_and_check_share_consistency _ _ _ _ _ _) eqn:E; try done.
      unfold combine_and_check_share_consistency in E.
      destruct (interpolate _ _) eqn:Hi; try done. by apply interpolate_inv in Hi as [Hv _].
    + destruct (combine_and_verify_nonce _ _ _ _) eqn:E; try done.
      unfold combine_and_verify_nonce in E. destruct (combine _ _) eqn:Hc; try done.
      destruct (decide (valid_shares (opened_shares obj usks))) as [|Hv]; [done|].
      by rewrite combine_invalid in Hc.
  - destruct pks as [[pks]|].
    + destruct (combine_and_check_share_consistency _ _ _ _ _ _) as [bk| |] eqn:E; try done.
      unfold combine_and_check_share_consistency in E.
      destruct (interpolate KEY_SIZE (opened_shares obj usks)) as [f| |] eqn:Hi; try done.
      destruct (interpolate_inv _ _ _ Hi) as (Hv & polys & Hlp & _).
      destruct (interpolate_lagrange KEY_SIZE _ Hv) as (f' & Hi' & Hx).
      rewrite Hi in Hi'. injection Hi' as <-.
      unfold mbind at 1, outcome_bind at 1 in E.
      destruct (decrypt_all_shares_and_verify_nonce _ _ _ _ _ _) as [all| |] eqn:Hall; try done.
      apply decrypt_all_inv in Hall as (r & cs & er & key & Hes & Hk & Hr & _).
      exists (f u8_zero), key, r, (g_mul g_generator r), cs, er.
      split_and!; try done. rewrite combine_lagrange by done. by rewrite Hx.
    + destruct (combine_and_verify_nonce _ _ _ _) as [bk| |] eqn:E; try done.
      unfold combine_and_verify_nonce in E.
      destruct (combine KEY_SIZE _) as [bk'| |] eqn:Hc; try done.
      unfold mbind at 1, outcome_bind at 1 in E.
      destruct (eo_encrypted_shares obj) as [nonce cs er].
      destruct (derive_key EncryptedRandomness _ _ _ _) as [key| |] eqn:Hk; try done.
      unfold mbind at 1, outcome_bind at 1 in E.
      destruct (decrypt_randomness er key) as [r| |] eqn:Hr; try done.
      unfold mbind at 1, outcome_bind at 1 in E.
      destruct (verify_nonce r nonce) as [[]| |] eqn:Hn; try done.
      apply verify_nonce_inv in Hn. by exists bk', key, r, nonce, cs, er.
Qed.

(** C12: decryption with the share-consistency check does not depend on the
    set of keys: for an object of any origin whose services have distinct
    nonzero indices, if one store of valid keys decrypts it to [m], every
    other store of valid keys that covers at least as many services decrypts
    it to the same [m]. *)
Theorem consistency_check_agreement (obj : EncryptedObject) (msks : list MasterKey)
    (usks usks' : gmap ObjectID UserSecretKey) (m : list byte) :
  let pks := BonehFranklinPublicKeys (public_key_from_master_key <$> msks) in
  NoDup (eo_services obj).*2 → u8_zero ∉ (eo_services obj).*2 →
  keys_valid obj msks usks' → keys_held obj usks ≤ keys_held obj usks' →
  seal_decrypt obj (BonehFranklinUserSecretKeys usks) (Some pks) = Ok m →
  seal_decrypt obj (BonehFranklinUserSecretKeys usks') (Some pks) = Ok m.
Proof.
  intros pks Hnd Hz Hk' Hheld. unfold seal_decrypt. case_bool_decide as Hver; [|done].
  cbn [negb]. rewrite !user_shares_spec.
  destruct (Nat.eqb_spec (length (ciphertexts (eo_encrypted_shares obj)))
    (length (eo_services obj))) as [Hl|]; [|done]. cbn [negb orb].
  destruct (N.ltb_spec (N.of_nat (keys_held obj usks)) (u8_val (eo_threshold obj)))
    as [|Hle]; [done|].
  rewrite (proj2 (N.ltb_ge (N.of_nat (keys_held obj usks')) _)) by lia.
  unfold mbind at 1, outcome_bind at 1. unfold mbind at 3, outcome_bind at 3.
  destruct (combine_and_check_share_consistency _ (opened_shares obj usks) _ _ _ _)
    as [bk| |] eqn:Hc; [|done..].
  apply (consistency_check_inv obj msks usks bk Hl) in Hc
    as (Hv & polys & -> & Hp32 & Hlp & Hlm & Hon & all & Hall & HF).
  intros Hd. fold pks in Hall.
  assert (valid_shares (opened_shares obj usks')) as Hv'.
  { apply (valid_shares_sublist _ (eo_services obj).*2); [apply opened_shares_sublist|done..|].
    intros E. apply (f_equal length) in E. rewrite opened_shares_length in E by done.
    destruct Hv as [Hne _]. apply Hne. apply length_zero_iff_nil.
    rewrite opened_shares_length by done. simpl in E. lia. }
  destruct (interpolate_share_of polys (opened_shares obj usks') Hv') as (f & Hf & Hx).
  { eapply Forall_impl; [exact Hlp|]. intros p Hp. simpl in Hp.
    rewrite opened_shares_length by done. lia. }
  { intros j sh. by apply Hon. }
  rewrite Hp32 in Hf. unfold combine_and_check_share_consistency.
  rewrite (bind_ok _ _ _ Hf), Hx, (bind_ok _ _ _ Hall).
  replace (existsb _ all) with false; [exact Hd|]. symmetry.
  apply not_true_iff_false. rewrite existsb_exists. intros ([j sh] & Hin & Hne).
  rewrite Forall_forall in HF. apply list_elem_of_In in Hin. specialize (HF _ Hin).
  simpl in HF. by rewrite Hx, HF, bool_decide_eq_true_2 in Hne.
Qed.
End properties.

(** ** Witnesses on the toy groups *)
Section witnesses.
#[local] Existing Instances Toy.symmetric Toy.symmetric_laws Toy.curve Toy.curve_laws.

Definition toy_package : ObjectID := replicate 32 Byte.x50.
Definition toy_servers : list ObjectID :=
  [replicate 32 Byte.xa1; replicate 32 Byte.xa2; replicate 32 Byte.xa3].
Definition toy_id : list byte := [Byte.x01; Byte.x02].
Definition toy_msks : list (MasterKey (Curve := Toy.curve)) := [Byte.x03; Byte.x05; Byte.x07].
Definition toy_pks : IBEPublicKeys (crv := Toy.curve) :=
  BonehFranklinPublicKeys (public_key_from_master_key <$> toy_msks).
Definition toy_input : EncryptionInput := EHmac256Ctr (bytes_of "seal") None.
Definition toy_encrypt (servers : list ObjectID) (pks : IBEPublicKeys (crv := Toy.curve)) :=
  seal_encrypt (crv := Toy.curve) toy_package toy_id servers pks Byte.x02 toy_input
    (all_bytes).

(** Keys for the servers at the given positions. *)
Definition toy_keys (pos : list nat) : gmap ObjectID (UserSecretKey (Curve := Toy.curve)) :=
  list_to_map ((λ i, (nth i toy_servers [],
    extract (crv := Toy.curve) (nth i toy_msks u8_zero) (create_full_id toy_package toy_id)))
    <$> pos).

Example toy_object : EncryptedObject (crv := Toy.curve) :=
  match (toy_encrypt toy_servers toy_pks).1 with
  | Ok (obj, _) => obj
  | _ => mkEncryptedObject Byte.x01 [] [] [] u8_zero (BonehFranklinBLS12381 u8_zero [] []) CPlain
  end.

Lemma toy_keys_valid pos i ks msk usk :
  Forall (λ p, p < 3) pos →
  toy_servers !! i = Some ks → toy_msks !! i = Some msk → toy_keys pos !! ks = Some usk →
  usk = extract (crv := Toy.curve) msk (create_full_id toy_package toy_id).
Proof.
  intros Hp Hs Hm Hu. apply elem_of_list_to_map_2, list_elem_of_fmap in Hu
    as (p & [= Hks ->] & Hin).
  rewrite Forall_forall in Hp. specialize (Hp p Hin).
  assert (p = i) as ->.
  2: { apply (f_equal (λ k, extract (crv := Toy.curve) k _)).
    exact (nth_lookup_Some _ _ _ _ Hm). }
  apply (NoDup_lookup toy_servers p i ks); [by apply (bool_decide_unpack (NoDup _))| |done].
  destruct (lookup_lt_is_Some_2 toy_servers p Hp) as [x Hx].
  rewrite Hx. f_equal. etransitivity; [|symmetry; exact Hks].
  symmetry. exact (nth_lookup_Some _ _ [] _ Hx).
Qed.

Lemma seal_round_trip_witness :
  seal_decrypt toy_object (BonehFranklinUserSecretKeys (toy_keys [2; 0])) (Some toy_pks)
  = Ok (bytes_of "seal").
Proof.
  assert (∃ obj key rng', toy_encrypt toy_servers toy_pks = (Ok (obj, key), rng') ∧
    toy_object = obj) as (obj & key & rng' & He & Ho)
    by (eexists _, _, _; split; vm_compute; reflexivity).
  rewrite Ho.
  apply (seal_round_trip toy_package toy_id toy_servers toy_msks Byte.x02 toy_input
    all_bytes rng' obj key (toy_keys [2; 0]) (Some toy_pks)).
  - exact He.
  - intros i ks msk usk. apply toy_keys_valid. repeat constructor.
  - vm_compute. lia.
  - by right.
Defined.

(** 257 key servers and one public key: the count is truncated to one, and
    the assertion in [derive_key] fails; with three key servers and their
    three keys, encryption succeeds. *)
Lemma seal_encrypt_outcome_witness :
  (seal_encrypt (crv := Toy.curve) toy_package toy_id (replicate 257 toy_package)
     (BonehFranklinPublicKeys [public_key_from_master_key (crv := Toy.curve) Byte.x03])
     Byte.x01 EPlain all_bytes).1 = Panic ∧
  is_ok (seal_encrypt (crv := Toy.curve) toy_package toy_id toy_servers
     (BonehFranklinPublicKeys (public_key_from_master_key (crv := Toy.curve) <$> toy_msks))
     Byte.x02 EPlain all_bytes).1 = true.
Proof.
  split.
  - apply (seal_encrypt_outcome (crv := Toy.curve) toy_package toy_id (replicate 257 toy_package)
      [public_key_from_master_key (crv := Toy.curve) Byte.x03] Byte.x01 EPlain all_bytes).
    split_and!; [discriminate|vm_compute; discriminate|reflexivity|reflexivity].
  - apply (seal_encrypt_outcome (crv := Toy.curve) toy_package toy_id toy_servers
      (public_key_from_master_key (crv := Toy.curve) <$> toy_msks) Byte.x02 EPlain all_bytes).
    split_and!; [discriminate|vm_compute; discriminate|reflexivity|vm_compute; discriminate].
Defined.

Lemma seal_decrypt_sound_witness :
  valid_shares (opened_shares toy_object (toy_keys [0; 1])).
Proof.
  apply (seal_decrypt_sound toy_object (toy_keys [0; 1]) None (bytes_of "seal")).
  vm_compute. reflexivity.
Defined.

Lemma consistency_check_agreement_witness :
  seal_decrypt toy_object (BonehFranklinUserSecretKeys (toy_keys [1; 2])) (Some toy_pks)
  = Ok (bytes_of "seal").
Proof.
  apply (consistency_check_agreement toy_object toy_msks (toy_keys [0; 1]) (toy_keys [1; 2])).
  - by apply (bool_decide_unpack (NoDup _)).
  - by apply (bool_decide_unpack (_ ∉ _)).
  - intros i service msk usk Hs Hm Hu.
    change (eo_services toy_object) with (zip toy_servers [Byte.x01; Byte.x02; Byte.x03]) in Hs.
    apply lookup_zip_with_Some in Hs as (ks & j & -> & Hs & _).
    eapply (toy_keys_valid [1; 2]); [repeat constructor|done..].
  - vm_compute. lia.
  - vm_compute. reflexivity.
Defined.

(** ** The degree is not checked

    An object made with a polynomial of degree two and threshold two: the
    three servers together decrypt it and pass the consistency check, while
    any two of them, which is the object's threshold, fail. *)
Definition high_degree_polys : list Polynomial :=
  (λ k, [u8_of (N.of_nat k); Byte.x11; Byte.x22]) <$> seq 0 32.

Definition high_degree_object : EncryptedObject (crv := Toy.curve) :=
  let services := zip toy_servers [Byte.x01; Byte.x02; Byte.x03] in
  let full_id := create_full_id toy_package toy_id in
  let r : Randomness (Curve := Toy.curve) := Byte.x09 in
  let cs := zip_with (λ pk service, batch_ciphertext (crv := Toy.curve) r full_id pk service
    (share_of high_degree_polys service.2))
    (public_key_from_master_key (crv := Toy.curve) <$> toy_msks) services in
  match derive_key EncryptedRandomness (share_of high_degree_polys u8_zero) cs Byte.x02
          toy_servers with
  | Ok key => mkEncryptedObject Byte.x00 toy_package toy_id services Byte.x02
      (BonehFranklinBLS12381 (g_mul g_generator r) cs
        (encrypt_randomness (crv := Toy.curve) r key)) CPlain
  | _ => toy_object
  end.

(** The consistency check accepts, with valid keys, an object that the same
    call rejects for a set of valid keys of the size of the threshold. *)
Lemma consistency_check_misses_degree :
  is_ok (seal_decrypt high_degree_object
    (BonehFranklinUserSecretKeys (toy_keys [0; 1; 2])) (Some toy_pks)) = true ∧
  keys_held high_degree_object (toy_keys [0; 1]) =
    N.to_nat (u8_val (eo_threshold high_degree_object)) ∧
  is_err (seal_decrypt high_degree_object
    (BonehFranklinUserSecretKeys (toy_keys [0; 1])) (Some toy_pks)) = true.
Proof. vm_compute. done. Qed.
End witnesses.
