(* ===== verification/Common.v ===== *)
(** * Shared parts of the key server ([crates/key-server/src/]{[errors.rs],
    [time.rs], [types.rs], [common.rs]}, [server.rs::validate_sdk_version_for_type])

    Error values and their HTTP responses, time arithmetic at its width,
    networks, and the validation of client SDK versions. *)

From Stdlib Require Import NArith Lia.
From S2P Require Import Prelude Primitives Ibe.

(** ** Build profile

    Arithmetic overflow panics in builds with overflow checks (the [dev]
    profile) and wraps in builds without (the [release] profile). *)
Class BuildProfile : Type := overflow_checks : bool.

Definition checked_arith `{BuildProfile} {E : Type} (width : N) (n : N) : outcome E N :=
  if (n <? 2 ^ width)%N then Ok n
  else if overflow_checks then Panic else Ok (n `mod` 2 ^ width)%N.

(** ** Errors *)
Inductive InternalError : Type :=
  | InvalidPTB (msg : string)
  | InvalidPackage
  | NoAccess (msg : string)
  | InvalidSignature
  | InvalidSessionSignature
  | InvalidCertificate
  | InvalidSDKType
  | InvalidSDKVersion
  | DeprecatedSDKVersion
  | MissingRequiredHeader (header : string)
  | InvalidParameter (msg : string)
  | InvalidMVRName
  | InvalidServiceId
  | UnsupportedPackageId
  | Failure (debug_msg : string).

#[export] Instance InternalError_eq_dec : EqDecision InternalError.
Proof. solve_decision. Defined.

Definition as_str (e : InternalError) : string :=
  match e with
  | InvalidPTB _ => "InvalidPTB"
  | InvalidPackage => "InvalidPackage"
  | NoAccess _ => "NoAccess"
  | InvalidCertificate => "InvalidCertificate"
  | InvalidSignature => "InvalidSignature"
  | InvalidSessionSignature => "InvalidSessionSignature"
  | InvalidSDKType => "InvalidSDKType"
  | InvalidSDKVersion => "InvalidSDKVersion"
  | DeprecatedSDKVersion => "DeprecatedSDKVersion"
  | MissingRequiredHeader _ => "MissingRequiredHeader"
  | InvalidParameter _ => "InvalidParameter"
  | InvalidMVRName => "InvalidMVRName"
  | InvalidServiceId => "InvalidServiceId"
  | UnsupportedPackageId => "UnsupportedPackageId"
  | Failure _ => "Failure"
  end.

Record ErrorResponse : Type := mkErrorResponse {
  er_error : string;
  er_message : string;
}.

Definition error_response (err : InternalError) : ErrorResponse :=
  let message :=
    match err with
    | InvalidPTB inner => "Invalid PTB: " +:+ inner
    | InvalidPackage => "Invalid package ID"
    | NoAccess inner => "Access denied: " +:+ inner
    | InvalidCertificate => "Invalid certificate time or ttl"
    | InvalidSignature => "Invalid user signature"
    | InvalidSDKType => "Invalid SDK type"
    | InvalidSDKVersion => "Invalid SDK version"
    | DeprecatedSDKVersion => "Deprecated SDK version"
    | MissingRequiredHeader inner => "Missing required header: " +:+ inner
    | InvalidSessionSignature => "Invalid session key signature"
    | InvalidParameter inner => "Invalid parameter to PTB: " +:+ inner
    | InvalidMVRName => "Invalid MVR name"
    | InvalidServiceId => "Invalid service ID"
    | UnsupportedPackageId => "Unsupported package ID"
    | Failure _ => "Internal server error, please try again later"
    end in
  mkErrorResponse (as_str err) message.

Inductive StatusCode : Type :=
  | OK | BAD_REQUEST | FORBIDDEN | UPGRADE_REQUIRED | SERVICE_UNAVAILABLE
  | INTERNAL_SERVER_ERROR | BAD_GATEWAY.

#[export] Instance StatusCode_eq_dec : EqDecision StatusCode.
Proof. solve_decision. Defined.

Definition status_of (r : ErrorResponse) : StatusCode :=
  let named (names : list string) := bool_decide (er_error r ∈ names) in
  if named ["InvalidPTB"; "InvalidPackage"; "NoAccess"; "InvalidCertificate";
         "InvalidSignature"; "InvalidSessionSignature"; "InvalidParameter";
         "InvalidMVRName"] then FORBIDDEN
  else if named ["InvalidSDKType"; "InvalidSDKVersion"; "InvalidServiceId";
              "UnsupportedPackageId"; "MissingRequiredHeader"] then BAD_REQUEST
  else if named ["DeprecatedSDKVersion"] then UPGRADE_REQUIRED
  else SERVICE_UNAVAILABLE.

Definition into_response (e : InternalError) : StatusCode * ErrorResponse :=
  let r := error_response e in (status_of r, r).

(** ** Time

    A [Duration] is a number of nanoseconds; timestamps are milliseconds. *)
Abbreviation Duration := N (only parsing).

Definition duration_from_millis (ms : N) : Duration := (ms * 1000000)%N.
Definition duration_from_secs (s : N) : Duration := (s * 1000000000)%N.

Definition duration_since (now offset : N) : N * bool :=
  if (offset <=? now)%N then ((now - offset)%N, true) else ((offset - now)%N, false).

Definition checked_duration_since (now offset : N) : option Duration :=
  match duration_since now offset with
  | (duration, true) => Some (duration_from_millis duration)
  | _ => None
  end.

(** The product is a [u16], computed before the cast to [u64]. *)
Definition from_mins `{BuildProfile} {E : Type} (mins : N) : outcome E Duration :=
  secs ← checked_arith 16 (mins * 60);
  Ok (duration_from_secs secs).

(** ** Networks *)
Inductive Network : Type :=
  | Devnet (seal_package : ObjectID)
  | Testnet
  | Mainnet.

#[export] Instance Network_eq_dec : EqDecision Network.
Proof. solve_decision. Defined.

Definition default_node_url (network : Network) : string :=
  match network with
  | Devnet _ => "https://fullnode.devnet.sui.io:443"
  | Testnet => "https://fullnode.testnet.sui.io:443"
  | Mainnet => "https://fullnode.mainnet.sui.io:443"
  end.

Definition ascii_lower (c : Ascii.ascii) : Ascii.ascii :=
  let n := Ascii.N_of_ascii c in
  if ((65 <=? n) && (n <=? 90))%N then Ascii.ascii_of_N (n + 32) else c.

(** [str::to_ascii_lowercase]. *)
Definition to_ascii_lowercase (s : string) : string :=
  String.string_of_list_ascii (ascii_lower <$> String.list_ascii_of_string s).

(** [seal_package_env] is the result of [decode_object_id("SEAL_PACKAGE")]. *)
Definition network_from_str (seal_package_env : outcome string ObjectID) (s : string) :
    outcome string Network :=
  let l := to_ascii_lowercase s in
  if bool_decide (l = "devnet") then
    seal_package ← expect_ok seal_package_env; Ok (Devnet seal_package)
  else if bool_decide (l = "testnet") then Ok Testnet
  else if bool_decide (l = "mainnet") then Ok Mainnet
  else Err ("Unknown network: " +:+ s).

(** The trait [NetworkConfig]. *)
Class NetworkConfig (C : Type) : Type := {
  network_of : C → Network;
  node_url_option : C → option string;
}.

Definition node_url `{NetworkConfig C} (c : C) : string :=
  default (default_node_url (network_of c)) (node_url_option c).

(** ** Client SDK versions *)
Definition HEADER_CLIENT_SDK_VERSION : string := "Client-Sdk-Version".

Inductive ClientSdkType : Type := Aggregator | TypeScript | Rust | Other.

Definition from_header (header_value : option string) : outcome InternalError ClientSdkType :=
  match header_value with
  | Some v =>
      if bool_decide (v = "aggregator") then Ok Aggregator
      else if bool_decide (v = "typescript") then Ok TypeScript
      else if bool_decide (v = "rust") then Ok Rust
      else Ok Other
  | None => Ok Other
  end.

Definition sdk_as_str (t : ClientSdkType) : string :=
  match t with
  | Aggregator => "aggregator" | TypeScript => "typescript" | Rust => "rust"
  | Other => "other"
  end.

(** The [semver] crate: parsing a version and matching a requirement. *)
Class SemVer : Type := {
  Version : Type;
  VersionReq : Type;
  version_parse : string → option Version;
  req_parse : string → option VersionReq;
  req_matches : VersionReq → Version → bool;
}.

Definition validate_sdk_version_for_type `{SemVer} (version_string : string)
    (sdk_type : ClientSdkType)
    (aggregator_requirement ts_requirement rust_requirement : VersionReq) :
    outcome InternalError unit :=
  version ← ok_or (version_parse version_string) InvalidSDKVersion;
  match (match sdk_type with
         | Aggregator => Some aggregator_requirement
         | TypeScript => Some ts_requirement
         | Rust => Some rust_requirement
         | Other => None
         end) with
  | None => Ok ()
  | Some requirement =>
      if negb (req_matches requirement version) then Err DeprecatedSDKVersion else Ok ()
  end.

(** ** Lemmas *)
Lemma from_mins_small `{BuildProfile} {E : Type} mins :
  (mins ≤ 1092)%N → from_mins (E := E) mins = Ok (mins * 60000000000)%N.
Proof.
  intros Hm. unfold from_mins, checked_arith.
  rewrite (proj2 (N.ltb_lt _ _)) by (change (2 ^ 16)%N with 65536%N; lia).
  unfold mbind, outcome_bind, duration_from_secs. f_equal. lia.
Qed.

(** ** Properties *)

(** The response to an error depends only on the information meant for
    the client: its status is [503] exactly for internal failures, the debug
    message of a failure never appears in the response, and responses to
    distinct errors other than failures differ. *)
Theorem error_responses (e e' : InternalError) :
  ((into_response e).1 = SERVICE_UNAVAILABLE ↔ ∃ s, e = Failure s) ∧
  (into_response e = into_response e' ↔
     e = e' ∨ ∃ s s', e = Failure s ∧ e' = Failure s') ∧
  ((into_response e).1 = UPGRADE_REQUIRED ↔ e = DeprecatedSDKVersion).
Proof.
  split_and!.
  - split; [|by intros [s ->]]. destruct e; vm_compute; eauto; discriminate.
  - split; [|by intros [->|(s & s' & -> & ->)]].
    intros Heq. apply (f_equal snd) in Heq. unfold into_response, error_response in Heq.
    cbn [snd] in Heq. injection Heq as Hname Hmsg.
    destruct e, e'; try discriminate Hname; eauto;
      left; f_equal; by repeat injection Hmsg as Hmsg.
  - split; [|by intros ->]. destruct e; vm_compute; done.
Qed.

(** C15: minutes to a duration, at the width the code computes at. Up to
    1092 minutes the result is exact; from 1093 minutes the product
    overflows: a build with overflow checks panics, and one without returns a
    shorter duration that is below 65536 seconds whatever the argument. *)
Theorem from_mins_width `{BuildProfile} (mins : N) :
  (mins < 2 ^ 16)%N →
  if (mins <=? 1092)%N
  then from_mins (E := InternalError) mins = Ok (duration_from_secs (mins * 60))
  else if overflow_checks then from_mins (E := InternalError) mins = Panic
  else ∃ d, from_mins (E := InternalError) mins = Ok d ∧
         (d < duration_from_secs 65536)%N ∧ (d < duration_from_secs (mins * 60))%N.
Proof.
  intros Hm. change (2 ^ 16)%N with 65536%N in Hm. destruct (N.leb_spec mins 1092) as [Hle|Hgt].
  - rewrite from_mins_small by done. unfold duration_from_secs. f_equal. lia.
  - unfold from_mins, checked_arith.
    rewrite (proj2 (N.ltb_ge _ _)) by (change (2 ^ 16)%N with 65536%N; lia).
    destruct overflow_checks; [done|]. eexists. split; [done|].
    unfold duration_from_secs. change (2 ^ 16)%N with 65536%N.
    pose proof (N.mod_upper_bound (mins * 60) 65536 ltac:(done)) as Hb.
    split; [apply N.mul_lt_mono_pos_r; [done|exact Hb]|].
    apply N.mul_lt_mono_pos_r; [done|].
    eapply N.lt_le_trans; [exact Hb|]. lia.
Qed.

Lemma from_mins_width_witness :
  from_mins (H := false) (E := InternalError) 1093 = Ok (duration_from_secs 44).
Proof.
  destruct (from_mins_width (H := false) 1093 ltac:(reflexivity)) as (d & Hd & _).
  transitivity (from_mins (H := false) (E := InternalError) 1093); [reflexivity|].
  rewrite Hd. revert Hd. vm_compute. by intros [= <-].
Defined.

(** Every text is a version, and every requirement matches; no overflow checks. *)
Module ToyCommon.
#[local] Instance semver : SemVer := {
  Version := string; VersionReq := string;
  version_parse s := Some s; req_parse s := Some s; req_matches _ _ := true;
}.

#[local] Instance profile : BuildProfile := false.
End ToyCommon.
