(* ===== verification/Chain.v ===== *)
(** * The outside world of the servers

    The interface of the Sui full node, of the clock and of the type and
    identifier libraries, which the servers' code calls, and the state the
    handlers thread through: the environment, the caches and the metrics. *)

From Stdlib Require Import NArith Lia.
From S2P Require Import Prelude Primitives Ibe Common.

Abbreviation Address := (list byte) (only parsing).

(** ** gRPC statuses ([tonic::Code]) and errors
    ([crates/seal-committee/src/rpc_error.rs]) *)
Inductive Code : Type :=
  | COk | CCancelled | CUnknown | CInvalidArgument | CDeadlineExceeded | CNotFound
  | CAlreadyExists | CPermissionDenied | CResourceExhausted | CFailedPrecondition
  | CAborted | COutOfRange | CUnimplemented | CInternal | CUnavailable | CDataLoss
  | CUnauthenticated.

#[export] Instance Code_eq_dec : EqDecision Code.
Proof. solve_decision. Defined.

Record Status : Type := mkStatus { status_code : Code; status_message : string }.

Record RpcError : Type := mkRpcError {
  rpc_message : string;
  rpc_code : option Code;
}.

#[export] Instance RpcError_eq_dec : EqDecision RpcError.
Proof. solve_decision. Defined.

Definition from_grpc (status : Status) : RpcError :=
  mkRpcError (status_message status) (Some (status_code status)).

Definition rpc_error_new (message : string) : RpcError := mkRpcError message None.

Definition rpc_display (code_display : Code → string) (e : RpcError) : string :=
  match rpc_code e with
  | Some code => "gRPC " +:+ code_display code +:+ ": " +:+ rpc_message e
  | None => rpc_message e
  end.

(** ** Identifiers and types of the chain's libraries *)
Inductive TypeTag : Type :=
  | TyU64
  | TyStruct (address : Address) (module name : string) (type_params : list TypeTag).

Class SuiTypes : Type := {
  code_display : Code → string;
  address_to_string : Address → string;
  address_from_str : string → outcome string Address;
  object_id_from_hex_literal : string → option ObjectID;
  to_hex_uncompressed : ObjectID → string;
  (** [StructTag::from_str(s).address()] *)
  struct_tag_address : string → outcome string Address;
  derive_dynamic_child_id : Address → TypeTag → list byte → Address;
  (** [derived_object::derive_object_id] *)
  derive_object_id : Address → TypeTag → list byte → option ObjectID;
  (** [bcs::to_bytes] of an address *)
  bcs_address : Address → list byte;
}.

(** The short addresses [0x2] and the alias state object of the framework. *)
Definition address_two : Address := replicate 31 u8_zero ++ [Byte.x02].

(** ** Responses of the full node *)
Record OwnerProto : Type := mkOwnerProto {
  owner_address : option string;
  owner_version : option N;
}.

Record ObjectProto : Type := mkObjectProto {
  obj_bcs : option (option (list byte)); (** [bcs] and its [value] *)
  obj_owner : option OwnerProto;
  obj_type : option string;
}.

Record GetObjectResponse : Type := mkGetObjectResponse { resp_object : option ObjectProto }.

(** [sui_types::object::Data], as far as the sources look into it. *)
Inductive ObjectData : Type :=
  | DataMove (contents : list byte)
  | DataPackage (original_package_id : ObjectID).

(** [error_details] of an execution error, as far as the sources look into it. *)
Record MoveAbort : Type := mkMoveAbort {
  abort_code : N;
  abort_location : option (option string * option string); (** package, module *)
}.

Record ExecutionError : Type := mkExecutionError {
  exec_function_not_found : bool; (** [kind() == FunctionNotFound] *)
  exec_kind_debug : string;       (** [format!("{:?}", kind())] *)
  exec_description : option string;
  exec_abort : option MoveAbort;
}.

Record SimulateTransactionResponse : Type := mkSimulateResponse {
  sim_error : option ExecutionError; (** [effects().status().error] *)
  sim_computation_cost : N;
}.

(** ** The full node and the clock

    Every call takes the environment and returns the environment after it:
    nothing is assumed about what changes between two calls. [Tx] is the type
    of simulated transactions. *)
Class FullNode (Tx : Type) : Type := {
  Env : Type;
  (** a gRPC client of one full node, made for a URL *)
  GrpcClient : Type;
  grpc_client_new : string → outcome string GrpcClient;
  (** metadata of requests: the error of an invalid value or header name *)
  metadata_value_error : string → option string;
  metadata_key_error : string → option string;
  with_header : GrpcClient → string → string → GrpcClient;
  get_object_rpc :
    GrpcClient → string → list string → Env → (GetObjectResponse + Status) * Env;
  simulate_rpc :
    GrpcClient → Tx → list string → Env → (SimulateTransactionResponse + Status) * Env;
  get_epoch_rgp_rpc : GrpcClient → Env → (N + Status) * Env;
  (** [SuiClientBuilder::build_mainnet]: whether the legacy client could be built *)
  build_mainnet_rpc : Env → bool * Env;
  (** [bcs::from_bytes::<Object>] *)
  bcs_object : list byte → outcome string ObjectData;
  (** [tokio::time::sleep], [SystemTime::now] in milliseconds, [Instant] in milliseconds *)
  env_sleep : Duration → Env → Env;
  env_now : Env → N * Env;
  env_instant : Env → N * Env;
  (** whether an entry is still in the cache: entries can be evicted at any time *)
  env_package_cached : Env → ObjectID → bool;
  env_mvr_cached : Env → string → bool;
  (** the committee version shared with the background task that updates it *)
  env_committee_version : Env → N;
}.

(** ** The state of the handlers *)
Inductive Metric : Type :=
  | Inc (name : string) (labels : list string)
  | Observe (name : string) (labels : list string) (value : N)
  | GaugeInc (name : string) (labels : list string)
  | GaugeDec (name : string) (labels : list string).

#[export] Instance Metric_eq_dec : EqDecision Metric.
Proof. solve_decision. Defined.

Section world.
  Context {Tx : Type} {node : FullNode Tx}.

Record World : Type := mkWorld {
  w_env : Env;
  w_metrics : list Metric; (** latest first *)
  w_package_id_cache : gmap ObjectID ObjectID;
  w_mvr_cache : gmap string ObjectID;
}.

Definition M (E A : Type) : Type := ST World E A.

Definition with_env {A : Type} (f : Env → A * Env) {E : Type} : M E A :=
  λ w, let '(a, env) := f (w_env w) in
       (Ok a, mkWorld env (w_metrics w) (w_package_id_cache w) (w_mvr_cache w)).

Definition record_metric {E : Type} (m : Metric) : M E unit :=
  st_modify (λ w, mkWorld (w_env w) (m :: w_metrics w) (w_package_id_cache w) (w_mvr_cache w)).

Definition grpc {A : Type} (f : Env → (A + Status) * Env) : M RpcError A :=
  r ← with_env f;
  match r with inl a => mret a | inr status => st_lift (Err (from_grpc status)) end.

Definition now {E : Type} : M E N := with_env env_now.

(** [PACKAGE_ID_CACHE] and [MVR_CACHE]: [moka] caches of [cache.rs]. *)
Definition package_cache_get {E : Type} (k : ObjectID) : M E (option ObjectID) :=
  w ← st_get;
  mret (if env_package_cached (w_env w) k then w_package_id_cache w !! k else None).

Definition package_cache_insert {E : Type} (k v : ObjectID) : M E unit :=
  st_modify (λ w, mkWorld (w_env w) (w_metrics w)
                    (<[k := v]> (w_package_id_cache w)) (w_mvr_cache w)).

Definition get_mvr_cache {E : Type} (k : string) : M E (option ObjectID) :=
  w ← st_get;
  mret (if env_mvr_cached (w_env w) k then w_mvr_cache w !! k else None).

Definition insert_mvr_cache {E : Type} (k : string) (v : ObjectID) : M E unit :=
  st_modify (λ w, mkWorld (w_env w) (w_metrics w) (w_package_id_cache w)
                    (<[k := v]> (w_mvr_cache w))).
End world.

(** Texts are their bytes, and derived ids extend their parents. *)
Module ToyChain.
#[local] Instance sui : SuiTypes := {
  code_display _ := "";
  address_to_string a := String.string_of_list_byte a;
  address_from_str s := Ok (bytes_of s);
  object_id_from_hex_literal s := Some (bytes_of s);
  to_hex_uncompressed a := String.string_of_list_byte a;
  struct_tag_address s := Ok (bytes_of s);
  derive_dynamic_child_id a _ b := a ++ b;
  derive_object_id a _ b := Some (a ++ b);
  bcs_address a := a;
}.
End ToyChain.
