(* ===== verification/Metrics.v ===== *)
(** * The metrics of the key server and of the aggregator

    [metrics.rs]: the tables of metrics that [KeyServerMetrics::new] and
    [AggregatorMetrics::new] register, under the names of the structs' fields
    (which is how the handlers of the other files name them), the buckets of
    the histograms, and which recordings a registered metric accepts: a vector
    of metrics panics on a wrong number of label values. The registry of the
    [prometheus] crate is the class [Prometheus].

    The values of the buckets are [f64]s in the source; all of them, and all
    their partial sums, are natural numbers below 2^53, so they are in [N]. *)

From Stdlib Require Import NArith Lia Sorting.Sorted Ascii String.
From S2P Require Import Prelude Common Chain.

(** ** Buckets *)

(** The [while] loop; [fuel] bounds its number of rounds. *)
Fixpoint buckets_loop (fuel : nat) (current end_ step : N) : list N :=
  match fuel with
  | O => []
  | S fuel =>
      if (current <? end_)%N then current :: buckets_loop fuel (current + step) end_ step
      else []
  end.

Definition buckets (start end_ step : N) : list N :=
  buckets_loop (S (N.to_nat ((end_ - start) / step))) start end_ step ++ [end_].

Definition default_fast_call_duration_buckets : list N := buckets 10 100 10.

(** ** Metrics *)
Inductive MetricType : Type :=
  | IntCounter
  | IntCounterVec (labels : list string)
  | Histogram (bounds : list N)
  | HistogramVec (labels : list string) (bounds : list N)
  | IntGaugeVec (labels : list string)
  | ClosureCounter (labels : list string).

Record MetricSpec : Type := mkSpec { ms_name : string; ms_help : string; ms_type : MetricType }.

(** The fields of [KeyServerMetrics], in the order in which they register. *)
Definition key_server_metrics : list (string * MetricSpec) :=
  let fast := default_fast_call_duration_buckets in
  [("requests", mkSpec "total_requests" "Total number of fetch_key requests received" IntCounter);
   ("errors", mkSpec "internal_errors" "Total number of internal errors by type"
      (IntCounterVec ["internal_error_type"]));
   ("service_requests", mkSpec "service_requests" "Total number of service requests received"
      IntCounter);
   ("fetch_pkg_ids_duration", mkSpec "fetch_pkg_ids_duration" "Duration of fetch_pkg_ids"
      (Histogram fast));
   ("check_policy_duration", mkSpec "check_policy_duration" "Duration of check_policy"
      (Histogram fast));
   ("get_reference_gas_price_status", mkSpec "get_reference_gas_price_status"
      "Status of requests of getting the reference gas price" (IntCounterVec ["status"]));
   ("requests_per_number_of_ids", mkSpec "requests_per_number_of_ids"
      "Total number of requests per number of ids" (Histogram (buckets 0 5 1)));
   ("http_request_duration_millis", mkSpec "http_request_duration_millis"
      "HTTP request duration in milliseconds" (HistogramVec ["route"; "status"] fast));
   ("http_requests_total", mkSpec "http_requests_total" "Total number of HTTP requests"
      (IntCounterVec ["route"; "status"]));
   ("http_request_in_flight", mkSpec "http_request_in_flight" "Number of HTTP requests in flight"
      (IntGaugeVec ["route"]));
   ("sui_rpc_request_duration_millis", mkSpec "sui_rpc_request_duration_millis"
      "Sui RPC request duration and status in milliseconds"
      (HistogramVec ["method"; "status"] fast));
   ("dry_run_gas_cost_per_package", mkSpec "dry_run_gas_cost_per_package"
      "Dry run gas cost per package" (HistogramVec ["package"] (buckets 0 500000000 5000000)));
   ("requests_failed_due_to_staleness", mkSpec "requests_failed_due_to_staleness"
      "Total number of requests that failed due to a stale fullnode" IntCounter);
   ("key_server_version", mkSpec "key_server_version" "The current key server version"
      (IntCounterVec ["version"]));
   ("client_sdk_version", mkSpec "client_sdk_version"
      "Client SDK versions by type seen in requests" (IntCounterVec ["sdk_type"; "version"]));
   ("committee_mode_rotation_initiated_total", mkSpec "committee_mode_rotation_initiated_total"
      "Total number of committee rotation initiated events observed while this server was running"
      IntCounter);
   ("committee_mode_package_upgrade_initiated_total",
    mkSpec "committee_mode_package_upgrade_initiated_total"
      "Total number of package upgrade proposals observed while this server was running"
      IntCounter)].

(** The fields of [AggregatorMetrics]. *)
Definition aggregator_metrics : list (string * MetricSpec) :=
  let fast := default_fast_call_duration_buckets in
  [("requests", mkSpec "total_requests" "Total number of fetch_key requests received" IntCounter);
   ("errors", mkSpec "internal_errors" "Total number of internal errors by type"
      (IntCounterVec ["internal_error_type"]));
   ("http_request_duration_millis", mkSpec "http_request_duration_millis"
      "HTTP request duration in milliseconds" (HistogramVec ["route"; "status"] fast));
   ("http_requests_total", mkSpec "http_requests_total" "Total number of HTTP requests"
      (IntCounterVec ["route"; "status"]));
   ("http_request_in_flight", mkSpec "http_request_in_flight" "Number of HTTP requests in flight"
      (IntGaugeVec ["route"]));
   ("client_sdk_version", mkSpec "client_sdk_version"
      "Client SDK versions by type seen in requests" (IntCounterVec ["sdk_type"; "version"]));
   ("upstream_key_server_errors", mkSpec "upstream_key_server_errors"
      "Errors from upstream key servers by server name and error type"
      (IntCounterVec ["key_server_name"; "error_type"]));
   ("key_server_fetch_duration_millis", mkSpec "key_server_fetch_duration_millis"
      "Upstream key server fetch latency in milliseconds by server name"
      (HistogramVec ["key_server_name"] fast));
   ("expected_key_ids_per_request", mkSpec "expected_key_ids_per_request"
      "Number of expected key ids per aggregator request" (Histogram (buckets 0 10 1)));
   ("sui_rpc_request_duration_millis", mkSpec "sui_rpc_request_duration_millis"
      "Sui RPC request duration and status in milliseconds"
      (HistogramVec ["method"; "status"] fast))].

(** The collector of the uptime, whose value is read by a closure. *)
Definition uptime_metric (service_name : string) : MetricSpec :=
  mkSpec "uptime" ("uptime of the " +:+ service_name +:+ " in seconds")
    (ClosureCounter ["version"]).

Definition uptime (start_time now_millis : N) : N := ((now_millis - start_time) / 1000)%N.

(** ** Registration *)
Class Prometheus : Type := {
  Registry : Type;
  PrometheusError : Type;
  (** the names of the registered collectors *)
  registered : Registry → list string;
  register : Registry → MetricSpec → outcome PrometheusError Registry;
}.

(** What a struct of metrics holds: a handle per field. *)
Definition Handles : Type := list (string * MetricType).

Fixpoint handle (handles : Handles) (field : string) : option MetricType :=
  match handles with
  | [] => None
  | (f, t) :: handles => if String.eqb f field then Some t else handle handles field
  end.

Section register.
  Context {prom : Prometheus}.

(** The initialisers of the struct, each with its [unwrap]. *)
Fixpoint register_fields (fields : list (string * MetricSpec)) (registry : Registry) :
    outcome PrometheusError (Handles * Registry) :=
  match fields with
  | [] => Ok ([], registry)
  | (field, spec) :: fields =>
      match register registry spec with
      | Ok registry =>
          '(handles, registry) ← register_fields fields registry;
          Ok ((field, ms_type spec) :: handles, registry)
      | _ => Panic
      end
  end.

Definition key_server_metrics_new : Registry → outcome PrometheusError (Handles * Registry) :=
  register_fields key_server_metrics.

Definition aggregator_metrics_new : Registry → outcome PrometheusError (Handles * Registry) :=
  register_fields aggregator_metrics.
End register.

(** ** Recording *)

(** [with_label_values]: it panics unless there is a value per label. *)
Definition with_label_values (labels values : list string) : bool :=
  length labels =? length values.

(** Whether the handle of the metric's field has the method that records it,
    and takes its label values. *)
Definition accepts (handles : Handles) (m : Metric) : bool :=
  match m with
  | Inc field values =>
      match handle handles field with
      | Some IntCounter => with_label_values [] values
      | Some (IntCounterVec labels) => with_label_values labels values
      | _ => false
      end
  | Observe field values _ =>
      match handle handles field with
      | Some (Histogram _) => with_label_values [] values
      | Some (HistogramVec labels _) => with_label_values labels values
      | _ => false
      end
  | GaugeInc field values | GaugeDec field values =>
      match handle handles field with
      | Some (IntGaugeVec labels) => with_label_values labels values
      | _ => false
      end
  end.

Definition handles_of (fields : list (string * MetricSpec)) : Handles :=
  (λ f, (f.1, ms_type f.2)) <$> fields.

Definition key_server_handles : Handles := handles_of key_server_metrics.
Definition aggregator_handles : Handles := handles_of aggregator_metrics.

(** ** What a registry promises *)
Definition is_letter (c : ascii) : bool :=
  let n := N_of_ascii c in
  ((65 <=? n) && (n <=? 90) || (97 <=? n) && (n <=? 122) || (n =? 95))%N.

Definition is_word_char (c : ascii) : bool :=
  let n := N_of_ascii c in is_letter c || ((48 <=? n) && (n <=? 57))%N.

(** A name that both metrics and labels may have. *)
Definition valid_name (s : string) : bool :=
  match s with
  | "" => false
  | String c s => is_letter c && forallb is_word_char (list_ascii_of_string s)
  end.

Definition valid_labels (labels : list string) : bool :=
  forallb valid_name labels && bool_decide (NoDup labels).

(** Bounds of buckets have to increase strictly. *)
Fixpoint increasing (bounds : list N) : bool :=
  match bounds with
  | b :: (b' :: _) as rest => (b <? b')%N && increasing rest
  | _ => true
  end.

Definition valid_spec (spec : MetricSpec) : bool :=
  valid_name (ms_name spec) && negb (String.eqb (ms_help spec) "")
  && match ms_type spec with
     | IntCounter => true
     | IntCounterVec labels | IntGaugeVec labels | ClosureCounter labels => valid_labels labels
     | Histogram bounds => increasing bounds
     | HistogramVec labels bounds =>
         valid_labels labels && negb (bool_decide ("le" ∈ labels)) && increasing bounds
     end.

Class PrometheusLaws (prom : Prometheus) : Prop := {
  register_fresh : ∀ registry spec, valid_spec spec = true → ms_name spec ∉ registered registry →
    ∃ registry', register registry spec = Ok registry' ∧
      registered registry' = ms_name spec :: registered registry;
  register_again : ∀ registry spec, ms_name spec ∈ registered registry →
    ∃ e, register registry spec = Err e;
}.

(** ** Lemmas *)

(** The rounds of the loop: the values below [end_], [step] apart. *)
Lemma buckets_loop_spec fuel current end_ step :
  (0 < step)%N → (end_ <= current + N.of_nat fuel * step)%N →
  ∀ x, x ∈ buckets_loop fuel current end_ step ↔ ∃ k, x = (current + k * step)%N ∧ (x < end_)%N.
Proof.
  intros Hstep. revert current. induction fuel as [|fuel IH]; intros current Hfuel x; simpl.
  - split; [by intros ?%elem_of_nil|]. intros (k & -> & ?). lia.
  - destruct (current <? end_)%N eqn:Hc; [apply N.ltb_lt in Hc|apply N.ltb_ge in Hc].
    + rewrite elem_of_cons, IH by lia. split.
      * intros [->|(k & -> & ?)]; [exists 0%N|exists (k + 1)%N]; lia.
      * intros (k & -> & ?). destruct (decide (k = 0%N)) as [->|]; [left; lia|right].
        exists (k - 1)%N. nia.
    + split; [by intros ?%elem_of_nil|]. intros (k & -> & ?). lia.
Qed.

Lemma buckets_loop_sorted fuel current end_ step :
  (0 < step)%N → StronglySorted N.lt (buckets_loop fuel current end_ step) ∧
    Forall (λ x, (current <= x < end_)%N) (buckets_loop fuel current end_ step).
Proof.
  intros Hstep. revert current. induction fuel as [|fuel IH]; intros current; simpl.
  - by repeat constructor.
  - destruct (current <? end_)%N eqn:Hc; [apply N.ltb_lt in Hc|by repeat constructor].
    destruct (IH (current + step)%N) as [Hs HF]. split; constructor; try done; try lia;
      (eapply Forall_impl; [exact HF|]); simpl; lia.
Qed.

(** The buckets increase strictly, up to [end_]: the fuel is enough. *)
Lemma buckets_spec start end_ step :
  (0 < step)%N →
  StronglySorted N.lt (buckets start end_ step) ∧
  ∀ x, x ∈ buckets start end_ step ↔
    x = end_ ∨ ∃ k, x = (start + k * step)%N ∧ (x < end_)%N.
Proof.
  intros Hstep. unfold buckets. split.
  - destruct (buckets_loop_sorted (S (N.to_nat ((end_ - start) / step))) start end_ step Hstep)
      as [Hs HF].
    induction Hs as [|x xs Hs IH Hx]; simpl; [by repeat constructor|].
    apply Forall_cons in HF as [Hlt HF]. constructor; [by apply IH|].
    apply Forall_app. split; [done|]. by repeat constructor; lia.
  - intros x. rewrite elem_of_app, list_elem_of_singleton, buckets_loop_spec; [tauto|done|].
    pose proof (N.mul_succ_div_gt (end_ - start) step). lia.
Qed.

Section registration.
  Context {prom : Prometheus} {laws : PrometheusLaws prom}.

Definition names (fields : list (string * MetricSpec)) : list string :=
  (λ f, ms_name f.2) <$> fields.

Lemma register_fields_fresh fields registry :
  Forall (λ f, valid_spec f.2 = true) fields → NoDup (names fields) →
  Forall (λ n, n ∉ registered registry) (names fields) →
  ∃ registry', register_fields fields registry = Ok (handles_of fields, registry') ∧
    registered registry' = reverse (names fields) ++ registered registry.
Proof.
  revert registry. induction fields as [|[field spec] fields IH]; intros registry Hv Hd Hf; simpl.
  - by exists registry.
  - apply Forall_cons in Hv as [Hv Hvs]. apply NoDup_cons in Hd as [Hn Hd].
    apply Forall_cons in Hf as [Hf Hfs]. simpl in *.
    destruct (register_fresh registry spec Hv Hf) as (registry1 & -> & H1).
    destruct (IH registry1) as (registry' & -> & H2); [done..| |].
    + rewrite H1. eapply Forall_impl; [apply Forall_and; split; [exact Hfs|]|].
      * apply Forall_forall. intros n Hin. exact Hin.
      * simpl. intros n [? ?] [->|?]%elem_of_cons; done.
    + exists registry'. split; [done|]. by rewrite H2, H1, reverse_cons, <-app_assoc.
Qed.

Lemma register_fields_again fields registry :
  Forall (λ f, valid_spec f.2 = true) fields →
  Exists (λ n, n ∈ registered registry) (names fields) →
  register_fields fields registry = Panic.
Proof.
  revert registry. induction fields as [|[field spec] fields IH]; intros registry Hv He; simpl.
  - by apply Exists_nil in He.
  - apply Forall_cons in Hv as [Hv Hvs]. simpl in *.
    destruct (decide (ms_name spec ∈ registered registry)) as [Hin|Hf].
    + by destruct (register_again registry spec Hin) as [e ->].
    + destruct (register_fresh registry spec Hv Hf) as (registry1 & -> & H1).
      rewrite IH; [done..|]. apply Exists_cons in He as [?|He]; [done|].
      eapply Exists_impl; [exact He|]. intros n Hn. rewrite H1. by apply elem_of_cons; right.
Qed.
End registration.
