(* ===== verification/Committee.v ===== *)
(** * Committees on chain ([crates/seal-committee/src/])

    The Move types of committees and key servers with their accessors
    ([move_types.rs]), the networks of the committee tools ([types.rs]), the
    map between party ids of two committees ([utils.rs]), and the functions
    that fetch these objects from a full node ([grpc_helper.rs]). *)

From Stdlib Require Import NArith Lia.
From stdpp Require Import pretty.
From S2P Require Import Prelude Primitives Ibe Common Chain.

(** ** [types.rs] *)
Inductive CommitteeNetwork : Type := CTestnet | CMainnet.

Definition committee_network_from_str (to_lowercase : string → string) (s : string) :
    outcome string CommitteeNetwork :=
  let lower := to_lowercase s in
  if bool_decide (lower = "mainnet") then Ok CMainnet
  else if bool_decide (lower = "testnet") then Ok CTestnet
  else Err ("Unknown network: " +:+ s +:+ ". Supported networks: 'mainnet', 'testnet'").

Definition committee_network_display (n : CommitteeNetwork) : string :=
  match n with CMainnet => "Mainnet" | CTestnet => "Testnet" end.

(** The two URLs are constants of the [sui_rpc] client. *)
Definition default_rpc_url (mainnet_fullnode testnet_fullnode : string)
    (n : CommitteeNetwork) : string :=
  match n with CMainnet => mainnet_fullnode | CTestnet => testnet_fullnode end.

(** ** [move_types.rs] *)
Section move_types.
  Context {crv : Curve}.

Record PartialKeyServer : Type := mkPartialKeyServer {
  pks_name : string;
  pks_url : string;
  pks_partial_pk : G2Element;
  pks_party_id : N;
}.

Inductive ServerType : Type :=
  | Independent (url : string)
  | CommitteeServer (version threshold : N) (partial_key_servers : list PartialKeyServer).

Record KeyServerV2 : Type := mkKeyServerV2 {
  ks_name : string;
  ks_key_type : byte;
  ks_pk : list byte;
  ks_server_type : ServerType;
}.

Record PartialKeyServerInfo : Type := mkPartialKeyServerInfo {
  pki_party_id : N;
  pki_partial_pk : G2Element;
  pki_name : string;
  pki_url : string;
}.

Record MemberInfo : Type := mkMemberInfo {
  mi_enc_pk : G1Element;
  mi_signing_pk : G2Element;
  mi_url : string;
  mi_name : string;
}.

(** A Move [VecMap] is its list of entries. *)
Inductive CommitteeState : Type :=
  | Init (members_info : list (Address * MemberInfo))
  | PostDKG (members_info : list (Address * MemberInfo)) (partial_pks : list (list byte))
      (pk messages_hash : list byte) (approvals : list Address)
  | Finalized.

Record SealCommittee : Type := mkSealCommittee {
  sc_id : Address;
  sc_threshold : N;
  sc_members : list Address;
  sc_state : CommitteeState;
  sc_old_committee_id : option Address;
}.

Record ParsedMemberInfo : Type := mkParsedMemberInfo {
  pmi_name : string;
  pmi_party_id : N;
  pmi_address : Address;
  pmi_enc_pk : G1Element;
  pmi_signing_pk : G2Element;
}.

Inductive UpgradeVote : Type := Approve | Reject.

Record UpgradeProposal : Type := mkUpgradeProposal {
  up_digest : list byte;
  up_version : N;
  up_votes : list (Address * UpgradeVote);
}.

Record UpgradeCap : Type := mkUpgradeCap {
  uc_id : Address;
  uc_package : Address;
  uc_version : N;
  uc_policy : byte;
}.

Record UpgradeManager : Type := mkUpgradeManager {
  um_id : Address;
  um_cap : UpgradeCap;
  um_upgrade_proposal : option UpgradeProposal;
}.

Record Field (K V : Type) : Type := mkField {
  field_id : Address;
  field_name : K;
  field_value : V;
}.

(** The derived [Debug] rendering of a state, used in messages only. *)
Context (state_debug : CommitteeState → string) {sui : SuiTypes}.

(** [usize as u16]. *)
Definition as_u16 (n : nat) : N := (N.of_nat n `mod` 2 ^ 16)%N.

Definition extract_committee_info (self : KeyServerV2) :
    outcome string (N * list PartialKeyServer) :=
  match ks_server_type self with
  | CommitteeServer _ threshold partial_key_servers => Ok (threshold, partial_key_servers)
  | Independent _ => Err "Invalid independent key server type"
  end.

Definition to_partial_key_servers (self : KeyServerV2) (members : list Address) :
    outcome string (gmap Address PartialKeyServerInfo) :=
  match ks_server_type self with
  | CommitteeServer _ _ partial_key_servers =>
      entries ← try_map (λ partial_ks,
          let party_id := pks_party_id partial_ks in
          member_addr ← ok_or (members !! N.to_nat party_id)
            ("Party ID " +:+ pretty party_id +:+ " out of range for members list");
          Ok (member_addr, mkPartialKeyServerInfo (pks_party_id partial_ks)
                (pks_partial_pk partial_ks) (pks_name partial_ks) (pks_url partial_ks)))
        partial_key_servers;
      Ok (hashmap_collect entries)
  | Independent _ => Err "KeyServer is not of type Committee"
  end.

(** [iter.position(|a| a == x)]. *)
Fixpoint position (x : Address) (l : list Address) : option nat :=
  match l with
  | [] => None
  | a :: l => if bool_decide (a = x) then Some 0 else S <$> position x l
  end.

Definition get_party_id (self : SealCommittee) (member_addr : Address) : outcome string N :=
  ok_or (as_u16 <$> position member_addr (sc_members self))
    ("Member address " +:+ address_to_string member_addr +:+ " not found in committee "
       +:+ address_to_string (sc_id self)).

Definition is_init (self : SealCommittee) : outcome string unit :=
  match sc_state self with
  | Init _ => Ok ()
  | _ => Err ("Committee " +:+ address_to_string (sc_id self)
           +:+ " is not in Init state. Current state: " +:+ state_debug (sc_state self))
  end.

Definition is_finalized (self : SealCommittee) : outcome string unit :=
  match sc_state self with
  | Finalized => Ok ()
  | _ => Err ("Committee " +:+ address_to_string (sc_id self)
           +:+ " is not in Finalized state. Current state: " +:+ state_debug (sc_state self))
  end.

Definition contains (self : SealCommittee) (member_addr : Address) : bool :=
  bool_decide (member_addr ∈ sc_members self).

Definition get_members_info (self : SealCommittee) :
    outcome string (gmap Address ParsedMemberInfo) :=
  members_info ←
    match sc_state self with
    | Init members_info => Ok members_info
    | PostDKG members_info _ _ _ _ => Ok members_info
    | _ => Err ("Invalid committee state " +:+ address_to_string (sc_id self) +:+ ": "
             +:+ state_debug (sc_state self))
    end;
  let info_map : gmap Address MemberInfo := hashmap_collect members_info in
  entries ← try_map (λ '(party_id, member_addr),
      info ← ok_or (info_map !! member_addr)
        ("Member " +:+ address_to_string member_addr +:+ " not registered in committee "
           +:+ address_to_string (sc_id self)
           +:+ ". Do not init DKG before all members register.");
      Ok (member_addr, mkParsedMemberInfo (mi_name info) (as_u16 party_id) member_addr
            (mi_enc_pk info) (mi_signing_pk info)))
    (enumerate (sc_members self));
  Ok (hashmap_collect entries).

(** ** [utils.rs] *)
Definition build_new_to_old_map (new_committee old_committee : SealCommittee) : gmap N N :=
  hashmap_collect (omap (λ '(party_id, address),
      match get_party_id old_committee address with
      | Ok old_party_id => Some (as_u16 party_id, old_party_id)
      | _ => None
      end) (enumerate (sc_members new_committee))).
End move_types.

Arguments mkField {K V} _ _ _.
Arguments field_id {K V} _.
Arguments field_name {K V} _.
Arguments field_value {K V} _.

(** ** [grpc_helper.rs] *)

(** The BCS encodings of the Move types above, derived by [serde]. *)
Class BcsTypes `{Curve} : Type := {
  decode_field_key_server : list byte → outcome string (Field N KeyServerV2);
  decode_committee : list byte → outcome string SealCommittee;
  (** [Field<Wrapper<Address>, Address>] *)
  decode_field_wrapper : list byte → outcome string (Field Address Address);
  (** [FieldWrapper<UpgradeManagerKey, Address>] *)
  decode_upgrade_manager_wrapper : list byte → outcome string (Field bool Address);
  decode_upgrade_manager : list byte → outcome string UpgradeManager;
  (** [bcs::to_bytes] of [Wrapper<Address>] and [Wrapper<UpgradeManagerKey>] *)
  encode_wrapper : Address → outcome string (list byte);
  encode_upgrade_manager_key : bool → outcome string (list byte);
}.

Definition EXPECTED_KEY_SERVER_VERSION : N := 2.

Section grpc_helper.
  Context {Tx : Type} {node : FullNode Tx} {sui : SuiTypes} {sym : Symmetric}
    {crv : Curve} {bcs : BcsTypes} {profile : BuildProfile}.

  Context (grpc_client : GrpcClient).

(** [map_err(|e| RpcError::new(&e.to_string()))]. *)
Definition rpc_new_err {A : Type} (o : outcome string A) : M RpcError A :=
  st_lift (map_err rpc_error_new o).

Definition ok_or_rpc {A : Type} (o : option A) (message : string) : M RpcError A :=
  st_lift (ok_or o (rpc_error_new message)).

Definition extract_object (response : GetObjectResponse) : outcome string ObjectData :=
  bcs_bytes ← ok_or (obj ← resp_object response; value ← obj_bcs obj; value)
                "No BCS data in response";
  bcs_object bcs_bytes.

Definition fetch_object {T : Type} (decode : list byte → outcome string T)
    (object_id : Address) : M RpcError T :=
  response ← grpc (get_object_rpc grpc_client (address_to_string object_id) ["bcs"]);
  obj ← rpc_new_err (extract_object response);
  match obj with
  | DataMove contents =>
      rpc_new_err (map_err (λ e, "Failed to deserialize contents: " +:+ e) (decode contents))
  | _ => st_lift (Err (rpc_error_new "Object is not a Move struct"))
  end.

Definition fetch_committee_data (committee_id : Address) : M RpcError SealCommittee :=
  fetch_object decode_committee committee_id.

Definition grpc_fetch_key_server_by_id (ks_obj_id : Address) : M RpcError KeyServerV2 :=
  let v2_field_name_bcs := bcs_u64 EXPECTED_KEY_SERVER_VERSION in
  let key_server_v2_field_id := derive_dynamic_child_id ks_obj_id TyU64 v2_field_name_bcs in
  field ← fetch_object decode_field_key_server key_server_v2_field_id;
  mret (field_value field).

Definition fetch_key_server_by_committee (committee_id : Address) :
    M RpcError (Address * KeyServerV2) :=
  wrapper_key_bcs ← rpc_new_err (encode_wrapper committee_id);
  let wrapper_type_tag := TyStruct address_two "dynamic_object_field" "Wrapper"
                            [TyStruct address_two "object" "ID" []] in
  let field_wrapper_id :=
    derive_dynamic_child_id committee_id wrapper_type_tag wrapper_key_bcs in
  field_wrapper ← fetch_object decode_field_wrapper field_wrapper_id;
  let ks_obj_id := field_value field_wrapper in
  key_server_v2 ← grpc_fetch_key_server_by_id ks_obj_id;
  mret (ks_obj_id, key_server_v2).

Definition grpc_fetch_committee_from_key_server (key_server_obj_id : Address) :
    M RpcError (Address * ObjectID) :=
  ks_response ← grpc (get_object_rpc grpc_client (address_to_string key_server_obj_id) ["owner"]);
  ks_object ← ok_or_rpc (resp_object ks_response) "Key server object not found";
  owner_data ← ok_or_rpc (obj_owner ks_object) "Key server object has no owner";
  owner ← ok_or_rpc (owner_address owner_data) "Owner has no address";
  field_wrapper_id ← rpc_new_err (address_from_str owner);
  field ← fetch_object decode_field_wrapper field_wrapper_id;
  let committee_id := field_name field in
  committee_response ← grpc (get_object_rpc grpc_client (address_to_string committee_id) ["object_type"]);
  committee_object ← ok_or_rpc (resp_object committee_response) "Committee object not found";
  committee_type ← ok_or_rpc (obj_type committee_object) "Committee has no type";
  package_id ← rpc_new_err (struct_tag_address committee_type);
  mret (committee_id, package_id).

Definition fetch_upgrade_manager (committee_id : Address) : M RpcError UpgradeManager :=
  committee_response ← grpc (get_object_rpc grpc_client (address_to_string committee_id) ["object_type"]);
  object_type ← ok_or_rpc (obj ← resp_object committee_response; obj_type obj)
                  "Committee object has no type";
  committee_pkg_addr ← rpc_new_err (struct_tag_address object_type);
  wrapper_key_bcs ← rpc_new_err (encode_upgrade_manager_key false);
  let wrapper_type_tag := TyStruct address_two "dynamic_object_field" "Wrapper"
        [TyStruct committee_pkg_addr "seal_committee" "UpgradeManagerKey" []] in
  let field_wrapper_id :=
    derive_dynamic_child_id committee_id wrapper_type_tag wrapper_key_bcs in
  field_wrapper ← fetch_object decode_upgrade_manager_wrapper field_wrapper_id;
  let upgrade_manager_id := field_value field_wrapper in
  fetch_object decode_upgrade_manager upgrade_manager_id.

Definition grpc_fetch_upgrade_proposal (committee_id : Address) :
    M RpcError (option UpgradeProposal) :=
  upgrade_manager ← fetch_upgrade_manager committee_id;
  mret (um_upgrade_proposal upgrade_manager).

Definition get_committee_rotation_info (committee_id : Address) :
    M RpcError (N * option (list byte) * option Address) :=
  committee ← fetch_committee_data committee_id;
  match sc_old_committee_id committee with
  | Some old_committee_id =>
      '(_, key_server_v2) ← fetch_key_server_by_committee old_committee_id;
      let pk := ks_pk key_server_v2 in
      match ks_server_type key_server_v2 with
      | CommitteeServer version _ _ =>
          next ← st_lift (checked_arith 32 (version + 1));
          mret (next, Some pk, Some old_committee_id)
      | _ => st_lift (Err (rpc_error_new "Old KeyServer is not of type Committee"))
      end
  | None => mret (0%N, None, None)
  end.
End grpc_helper.

(** ** Lemmas *)
Lemma as_u16_small i : (N.of_nat i < 65536)%N → as_u16 i = N.of_nat i.
Proof. intros Hi. unfold as_u16. apply N.mod_small. change (2 ^ 16)%N with 65536%N. lia. Qed.

Lemma position_Some x l i :
  position x l = Some i ↔ l !! i = Some x ∧ ∀ j, j < i → l !! j ≠ Some x.
Proof.
  revert i. induction l as [|a l IH]; intros i; simpl; [naive_solver|].
  case_bool_decide as Ha.
  - subst. split.
    + intros [= <-]. split; [done|]. lia.
    + intros [Hi Hj]. destruct i as [|i]; [done|]. destruct (Hj 0); [lia|done].
  - destruct (position x l) as [k|] eqn:Hp; simpl.
    + split.
      * intros [= <-]. destruct (proj1 (IH k) eq_refl) as [Hk Hj]. split; [done|].
        intros [|j] Hlt; simpl; [by intros [= ?]|]. apply Hj. lia.
      * intros [Hi Hj]. destruct i as [|i]; [by injection Hi as ?|]. do 2 f_equal.
        assert (Some k = Some i) as [= ->]; [|done]. apply IH. split; [done|].
        intros j Hlt. apply (Hj (S j)). lia.
    + split; [done|]. intros [Hi Hj]. destruct i as [|i]; [by injection Hi as ?|].
      assert (None = Some i) as Hn; [|done]. apply IH. split; [done|].
      intros j Hlt. apply (Hj (S j)). lia.
Qed.

Lemma position_None x l : position x l = None ↔ x ∉ l.
Proof.
  induction l as [|a l IH]; simpl; [set_solver|]. rewrite not_elem_of_cons.
  case_bool_decide as Ha; [naive_solver|]. rewrite fmap_None, IH. naive_solver.
Qed.

Lemma position_NoDup x l i : NoDup l → position x l = Some i ↔ l !! i = Some x.
Proof.
  intros Hnd. rewrite position_Some. split; [naive_solver|]. intros Hi. split; [done|].
  intros j Hj Hjx. by assert (j = i) by (by eapply NoDup_lookup); lia.
Qed.

Section committee_theory.
  Context {crv : Curve} (state_debug : CommitteeState → string) {sui : SuiTypes}.

(** ** Properties *)

(** The map from party ids of a new committee to those of the old one
    relates two ids exactly when the same member holds them, for committees
    of distinct members; hence it is injective and total on the members that
    continue. *)
Theorem new_to_old_map_spec (new old : SealCommittee) (i j : N) :
  NoDup (sc_members new) → NoDup (sc_members old) →
  (N.of_nat (length (sc_members new)) ≤ 65536)%N →
  (N.of_nat (length (sc_members old)) ≤ 65536)%N →
  build_new_to_old_map new old !! i = Some j ↔
  ∃ address, sc_members new !! N.to_nat i = Some address ∧
             sc_members old !! N.to_nat j = Some address.
Proof.
  intros Hn Ho Hln Hlo. unfold build_new_to_old_map. rewrite hashmap_collect_lookup.
  - rewrite list_elem_of_omap. split.
    + intros ([k address] & Hk%elem_of_enumerate & Hp). unfold get_party_id in Hp.
      destruct (position address (sc_members old)) as [p|] eqn:Hpos; [|done].
      simpl in Hp. injection Hp as <- <-. exists address.
      apply position_NoDup in Hpos; [|done].
      pose proof (lookup_lt_Some _ _ _ Hk). pose proof (lookup_lt_Some _ _ _ Hpos).
      rewrite !as_u16_small by lia. by rewrite !Nat2N.id.
    + intros (address & Hi & Hj). exists (N.to_nat i, address).
      rewrite elem_of_enumerate. split; [done|]. unfold get_party_id.
      rewrite (proj2 (position_NoDup _ _ _ Ho) Hj). simpl.
      pose proof (lookup_lt_Some _ _ _ Hi). pose proof (lookup_lt_Some _ _ _ Hj).
      rewrite !as_u16_small by lia. by rewrite !N2Nat.id.
  - apply (NoDup_fmap_1 N.to_nat). rewrite <-list_fmap_compose. unfold enumerate.
    assert (∀ s, (N.of_nat (s + length (sc_members new)) ≤ 65536)%N →
      NoDup ((N.to_nat ∘ fst) <$> omap (λ '(party_id, address),
        match get_party_id old address with
        | Ok old_party_id => Some (as_u16 party_id, old_party_id) | _ => None end)
        (zip (seq s (length (sc_members new))) (sc_members new))) ∧
      Forall (λ k, s ≤ k) ((N.to_nat ∘ fst) <$> omap (λ '(party_id, address),
        match get_party_id old address with
        | Ok old_party_id => Some (as_u16 party_id, old_party_id) | _ => None end)
        (zip (seq s (length (sc_members new))) (sc_members new)))) as H;
      [|by apply H].
    clear Hn Hln. induction (sc_members new) as [|a l IH]; intros s Hs; csimpl; [split; constructor|].
    simpl in Hs. destruct (IH (S s)) as [Hnd Hf]; [lia|].
    assert (∀ xs, Forall (λ k, S s ≤ k) xs → Forall (λ k, s ≤ k) xs) as Hweak.
    { intros xs HF. eapply Forall_impl; [done|]. simpl. lia. }
    destruct (get_party_id old a); csimpl; [|by split; [|apply Hweak]..].
    rewrite as_u16_small, Nat2N.id by lia. split.
    + constructor; [|done]. intros Hin. rewrite Forall_forall in Hf.
      specialize (Hf s Hin). lia.
    + constructor; [done|by apply Hweak].
Qed.

End committee_theory.

#[local] Existing Instances Toy.curve ToyChain.sui.

Lemma new_to_old_map_spec_witness :
  let c members := mkSealCommittee [] 1 members Finalized None in
  build_new_to_old_map (c [[Byte.x01]; [Byte.x02]]) (c [[Byte.x05]; [Byte.x06]; [Byte.x02]])
    !! 1%N = Some 2%N.
Proof.
  intros c. apply (new_to_old_map_spec (c [[Byte.x01]; [Byte.x02]])
    (c [[Byte.x05]; [Byte.x06]; [Byte.x02]])); simpl; try lia;
    [by apply (bool_decide_unpack (NoDup _))..|]. by exists [Byte.x02].
Defined.
