(* ===== verification/RpcClient.v ===== *)
(** * The retrying full-node client ([crates/key-server/src/sui_rpc_client.rs])

    [sui_rpc_with_retries] with its exponential backoff, and the client whose
    methods run every gRPC call through it. *)

From Stdlib Require Import NArith Lia.
From S2P Require Import Prelude Primitives Ibe Common Chain Committee.

Record RetryConfig : Type := mkRetryConfig {
  max_retries : N;
  min_delay : Duration;
  max_delay : Duration;
}.

Definition default_retry_config : RetryConfig :=
  mkRetryConfig 3 (duration_from_millis 100) (duration_from_secs 10).

Record RpcConfig : Type := mkRpcConfig {
  rpc_timeout : Duration;
  retry_config : RetryConfig;
}.

Definition default_rpc_config : RpcConfig :=
  mkRpcConfig (duration_from_secs 60) default_retry_config.

(** The trait [RetriableError]. *)
Class RetriableError (E : Type) : Type := is_retriable_error : E → bool.

Definition rpc_error_retriable (e : RpcError) : bool :=
  match rpc_code e with
  | Some CUnavailable | Some CDeadlineExceeded | Some CResourceExhausted
  | Some CAborted => true
  | _ => false
  end.

#[export] Instance RpcError_retriable : RetriableError RpcError := rpc_error_retriable.

(** Errors of the legacy JSON-RPC client, as far as retries tell them apart. *)
Inductive ClientError : Type := Transport | RequestTimeout | OtherClientError.
Inductive SuiSdkError : Type := SdkRpcError (rpc_error : ClientError) | OtherSdkError.

Definition sui_sdk_error_retriable (e : SuiSdkError) : bool :=
  match e with
  | SdkRpcError Transport | SdkRpcError RequestTimeout => true
  | _ => false
  end.

#[export] Instance SuiSdkError_retriable : RetriableError SuiSdkError := sui_sdk_error_retriable.

Definition RPC_STATUS_SUCCESS : string := "success".
Definition RPC_STATUS_RETRIABLE_ERROR : string := "retriable_error".
Definition RPC_STATUS_ERROR : string := "error".

(** [Duration::MAX] in nanoseconds; multiplication beyond it panics. *)
Definition DURATION_MAX : Duration := ((2 ^ 64 - 1) * 1000000000 + 999999999)%N.

Definition duration_double {E : Type} (d : Duration) : outcome E Duration :=
  if (2 * d <=? DURATION_MAX)%N then Ok (2 * d)%N else Panic.

(** ** The retry loop

    Over any state [W] in which one can sleep, read the elapsed time and
    report an attempt. [attempts_remaining] decreases with every round. *)
Section retries.
  Context {W E A : Type} `{RetriableError E}.
  Context (func : ST W E A) (sleep : Duration → W → W) (instant : W → N * W)
    (observe_attempt : string → N → W → W).

Fixpoint retry_loop (max_delay : Duration) (attempts_remaining : nat)
    (current_delay : Duration) : ST W E A := λ w,
  let '(start_time, w) := instant w in
  let observe status w :=
    let '(t, w) := instant w in observe_attempt status (t - start_time)%N w in
  match func w with
  | (Ok a, w) => (Ok a, observe RPC_STATUS_SUCCESS w)
  | (Err error, w) =>
      match attempts_remaining with
      | S (S _ as attempts_left) =>
          if is_retriable_error error then
            let w := observe RPC_STATUS_RETRIABLE_ERROR w in
            let w := sleep current_delay w in
            match duration_double (E := E) current_delay with
            | Ok doubled =>
                retry_loop max_delay attempts_left (N.min doubled max_delay) w
            | _ => (Panic, w)
            end
          else (Err error, observe RPC_STATUS_ERROR w)
      | _ => (Err error, observe RPC_STATUS_ERROR w)
      end
  | (Panic, w) => (Panic, w)
  end.

Definition sui_rpc_with_retries (rpc_config : RetryConfig) : ST W E A :=
  retry_loop (max_delay rpc_config) (N.to_nat (max_retries rpc_config))
    (min_delay rpc_config).
End retries.

(** ** Transactions to simulate

    The fields of the protocol message that [strip_transaction] clears. *)
Record InputProto (I : Type) : Type := mkInputProto {
  input_rest : I;
  input_version : option N;
  input_digest : option string;
}.
Arguments mkInputProto {I} _ _ _.
Arguments input_rest {I} _.

Inductive TransactionKindData (I C K : Type) : Type :=
  | KProgrammable (inputs : list (InputProto I)) (commands : C)
  | KOther (k : K).
Arguments KProgrammable {I C K} _ _.
Arguments KOther {I C K} _.

Record TransactionProto (I C K R : Type) : Type := mkTransactionProto {
  tx_bcs : option (list byte);
  tx_kind : option (option (TransactionKindData I C K));
  tx_rest : R;
}.
Arguments mkTransactionProto {I C K R} _ _ _.
Arguments tx_bcs {I C K R} _.
Arguments tx_kind {I C K R} _.
Arguments tx_rest {I C K R} _.

Definition strip_transaction {I C K R : Type} (transaction : TransactionProto I C K R) :
    TransactionProto I C K R :=
  let kind :=
    match tx_kind transaction with
    | Some (Some (KProgrammable inputs commands)) =>
        Some (Some (KProgrammable
          ((λ input, mkInputProto (input_rest input) None None) <$> inputs) commands))
    | kind => kind
    end in
  mkTransactionProto None kind (tx_rest transaction).

(** ** The client *)
Section client_record.
  Context {Tx : Type} {node : FullNode Tx}.

Record SuiRpcClient : Type := mkSuiRpcClient {
  has_sui_client : bool; (** the legacy client, only with event monitoring *)
  sui_grpc_client : GrpcClient;
  rpc_retry_config : RetryConfig;
  request_duration_millis : bool; (** whether there is a histogram *)
}.

(** Environment variables for the API key of the node. *)
Definition build_grpc_client (env_var : string → option string) (url : string) :
    outcome RpcError GrpcClient :=
  client ← map_err (λ e, rpc_error_new ("Failed to create SuiGrpcClient: " +:+ e))
             (grpc_client_new url);
  match env_var "FULL_NODE_RPC_API_NAME", env_var "FULL_NODE_RPC_API_KEY" with
  | Some name, Some key =>
      if negb (bool_decide (name = "")) && negb (bool_decide (key = ""))
      then
        match metadata_value_error key, metadata_key_error name with
        | Some e, _ =>
            Err (rpc_error_new ("Invalid FULL_NODE_RPC_API_KEY value: " +:+ e))
        | _, Some e =>
            Err (rpc_error_new ("Invalid FULL_NODE_RPC_API_NAME header: " +:+ e))
        | _, _ => Ok (with_header client name key)
        end
      else Ok client
  | _, _ => Ok client
  end.
End client_record.

Section client.
  (** The simulated transaction as a protocol message. *)
  Context {I C K R : Type} {node : FullNode (TransactionProto I C K R)} {sui : SuiTypes}
    {sym : Symmetric} {crv : Curve} {bcs : BcsTypes} {profile : BuildProfile}.
  Context (self : SuiRpcClient).

Definition run_grpc_with_retries {E A : Type} `{RetriableError E} (method : string)
    (op : M E A) : M E A :=
  let world_env f w := mkWorld (f (w_env w)) (w_metrics w) (w_package_id_cache w)
                         (w_mvr_cache w) in
  sui_rpc_with_retries op
    (λ d, world_env (env_sleep d))
    (λ w, let '(t, env) := env_instant (w_env w) in (t, world_env (λ _, env) w))
    (λ status duration_ms w,
       if request_duration_millis self then
         mkWorld (w_env w)
           (Observe "sui_rpc_request_duration_millis" [method; status] duration_ms
              :: w_metrics w) (w_package_id_cache w) (w_mvr_cache w)
       else w)
    (rpc_retry_config self).

Definition simulate_transaction (transaction : TransactionProto I C K R) :
    M RpcError SimulateTransactionResponse :=
  let transaction := strip_transaction transaction in
  run_grpc_with_retries "simulate_transaction"
    (grpc (simulate_rpc (sui_grpc_client self) transaction
       ["transaction.effects.status"; "transaction.effects.gas_used"])).

Definition get_object {T : Type} (decode : list byte → outcome string T)
    (object_id : Address) : M RpcError T :=
  run_grpc_with_retries "get_object" (fetch_object (sui_grpc_client self) decode object_id).

Definition object_exists (object_id : Address) : M RpcError bool :=
  run_grpc_with_retries "object_exists"
    (r ← with_env (get_object_rpc (sui_grpc_client self) (address_to_string object_id) []);
     match r with
     | inl _ => mret true
     | inr status =>
         if bool_decide (status_code status = CNotFound) then mret false
         else st_lift (Err (from_grpc status))
     end).

Definition fetch_key_server_by_id (ks_obj_id : Address) : M RpcError KeyServerV2 :=
  run_grpc_with_retries "fetch_key_server_by_id" (grpc_fetch_key_server_by_id (sui_grpc_client self) ks_obj_id).

Definition fetch_committee_info (ks_obj_id : Address) :
    M RpcError (N * list PartialKeyServer) :=
  key_server_v2 ← fetch_key_server_by_id ks_obj_id;
  rpc_new_err (extract_committee_info key_server_v2).

Definition fetch_committee_server_version (ks_obj_id : Address) : M RpcError N :=
  ks ← fetch_key_server_by_id ks_obj_id;
  match ks_server_type ks with
  | CommitteeServer version _ _ => mret version
  | _ => st_lift (Err (rpc_error_new "KeyServer is not of type Committee"))
  end.

Definition fetch_committee_from_key_server (ks_obj_id : Address) :
    M RpcError (Address * Address) :=
  run_grpc_with_retries "fetch_committee_from_key_server"
    (grpc_fetch_committee_from_key_server (sui_grpc_client self) ks_obj_id).

Definition fetch_partial_key_server_for_member (key_server_obj_id member_address : Address) :
    M RpcError PartialKeyServerInfo :=
  '(committee_id, _) ← fetch_committee_from_key_server key_server_obj_id;
  ks ← fetch_key_server_by_id key_server_obj_id;
  committee ← get_object decode_committee committee_id;
  partials ← rpc_new_err (to_partial_key_servers ks (sc_members committee));
  ok_or_rpc (partials !! member_address)
    ("PartialKeyServerInfo not found for member " +:+ address_to_string member_address).

Definition fetch_upgrade_proposal (committee_id : Address) :
    M RpcError (option UpgradeProposal) :=
  run_grpc_with_retries "fetch_upgrade_proposal" (grpc_fetch_upgrade_proposal (sui_grpc_client self) committee_id).

Definition fetch_package_original_id (package_id : Address) : M RpcError Address :=
  run_grpc_with_retries "fetch_package_original_id"
    (response ← grpc (get_object_rpc (sui_grpc_client self) (address_to_string package_id) ["bcs"]);
     obj ← st_lift (map_err (λ _, rpc_error_new "Invalid package") (extract_object response));
     match obj with
     | DataPackage original_package_id => mret original_package_id
     | _ => st_lift (Err (rpc_error_new "Invalid package"))
     end).

Definition client_get_reference_gas_price : M RpcError N :=
  run_grpc_with_retries "get_reference_gas_price" (grpc (get_epoch_rgp_rpc (sui_grpc_client self))).
End client.

(** ** The retry loop on a scripted service

    The state is the list of results the service will give, and the log of
    what the loop did, latest first. *)
Inductive retry_event : Type := Attempt | Sleep (d : Duration) | Report (status : string).

Section scripted.
  Context {E A : Type} `{RetriableError E}.

Definition script : Type := list (A + E) * list retry_event.

Definition scripted_call : ST script E A := λ '(results, log),
  match results with
  | inl a :: results => (Ok a, (results, Attempt :: log))
  | inr e :: results => (Err e, (results, Attempt :: log))
  | [] => (Panic, ([], log))
  end.

Definition scripted_run (config : RetryConfig) (results : list (A + E)) :
    outcome E A * script :=
  sui_rpc_with_retries scripted_call
    (λ d '(results, log), (results, Sleep d :: log)) (λ w, (0%N, w))
    (λ status _ '(results, log), (results, Report status :: log))
    config (results, []).

(** The delay before attempt [k + 2]. *)
Fixpoint delay (config : RetryConfig) (k : nat) : Duration :=
  match k with
  | O => min_delay config
  | S k => N.min (2 * delay config k) (max_delay config)
  end.

(** The log of [k] failed attempts, earliest first. *)
Definition retried (config : RetryConfig) (from k : nat) : list retry_event :=
  concat ((λ i, [Attempt; Report RPC_STATUS_RETRIABLE_ERROR; Sleep (delay config i)])
            <$> seq from k).

Lemma retry_loop_scripted config es (last : A + E) rest left i log :
  Forall (λ e, is_retriable_error e = true) es →
  length es < left ∨ (es = [] ∧ left = 0) →
  (∀ e, last = inr e → is_retriable_error e = false ∨ left ≤ S (length es)) →
  (∀ j, i ≤ j < i + length es → (2 * delay config j ≤ DURATION_MAX)%N) →
  retry_loop scripted_call (λ d '(results, log), (results, Sleep d :: log)) (λ w, (0%N, w))
    (λ status _ '(results, log), (results, Report status :: log))
    (max_delay config) left (delay config i) ((inr <$> es) ++ last :: rest, log)
  = ((match last with inl a => Ok a | inr e => Err e end),
     (rest, Report (match last with inl _ => RPC_STATUS_SUCCESS | inr _ => RPC_STATUS_ERROR end)
        :: Attempt :: rev (retried config i (length es)) ++ log)).
Proof.
  intros Hes. revert left i log.
  induction Hes as [|e es He Hes IH]; intros left i log Hl Hlast Hd; csimpl.
  - destruct left as [|[|left]]; destruct last as [a|e]; csimpl; try done.
    destruct (Hlast e eq_refl) as [->|]; [done|simpl in *; lia].
  - destruct Hl as [Hl|[? _]]; [|done]. destruct left as [|[|left]]; simpl in Hl; [lia..|].
    csimpl. rewrite He.
    unfold duration_double. rewrite (proj2 (N.leb_le _ _)) by (apply Hd; simpl; lia).
    change (N.min (2 * delay config i) (max_delay config)) with (delay config (S i)).
    specialize (IH (S left) (S i)
      (Sleep (delay config i) :: Report RPC_STATUS_RETRIABLE_ERROR :: Attempt :: log)).
    etransitivity; [apply IH|].
    + left. lia.
    + intros e' ->. destruct (Hlast e' eq_refl); [by left|right; simpl in *; lia].
    + intros j Hj. apply Hd. simpl. lia.
    + unfold retried. csimpl. by rewrite <-!app_assoc.
Qed.

(** ** Properties *)

(** C13: the retry loop on every service: after [k] retriable errors, with
    [k + 1] at most [max(1, max_retries)], a success or an error that is not
    retriable ends it, and so does any error when [max_retries] attempts have
    been made. It returns the last result, after one attempt and one report
    per round and exactly [k] sleeps, the first of [min_delay], each later one
    of twice the previous one capped at [max_delay]. Hence [max_retries]
    bounds the attempts, and not, as its documentation says, the retries. *)
Theorem retries_exact (config : RetryConfig) (es : list E) (last : A + E)
    (rest : list (A + E)) :
  Forall (λ e, is_retriable_error e = true) es →
  S (length es) ≤ N.to_nat (N.max 1 (max_retries config)) →
  match last with
  | inl _ => True
  | inr e => is_retriable_error e = false ∨
             S (length es) = N.to_nat (N.max 1 (max_retries config))
  end →
  (∀ j, j < length es → (2 * delay config j ≤ DURATION_MAX)%N) →
  scripted_run config ((inr <$> es) ++ last :: rest) =
    (match last with inl a => Ok a | inr e => Err e end,
     (rest,
      rev (retried config 0 (length es) ++
           [Attempt; Report (match last with
                             | inl _ => RPC_STATUS_SUCCESS
                             | inr _ => RPC_STATUS_ERROR end)]))).
Proof.
  intros Hes Hl Hlast Hd. unfold scripted_run, sui_rpc_with_retries.
  change (min_delay config) with (delay config 0).
  rewrite (retry_loop_scripted config es last rest); try done.
  - by rewrite rev_app_distr, app_nil_r.
  - destruct (decide (max_retries config = 0%N)) as [Hz|Hz].
    + right. rewrite Hz in *. destruct es; [done|simpl in Hl; lia].
    + left. lia.
  - intros e ->. destruct Hlast; [by left|right; lia].
  - intros j Hj. apply Hd. lia.
Qed.
End scripted.

(** [max_retries = 3] makes three attempts, which is two retries. *)
Lemma retries_exact_witness :
  let e := mkRpcError "busy" (Some CUnavailable) in
  scripted_run (A := N) (mkRetryConfig 3 100 150) [inr e; inr e; inr e; inl 7%N] =
  (Err e, ([inl 7%N],
    [Report RPC_STATUS_ERROR; Attempt;
     Sleep 150; Report RPC_STATUS_RETRIABLE_ERROR; Attempt;
     Sleep 100; Report RPC_STATUS_RETRIABLE_ERROR; Attempt])).
Proof.
  intros e. refine (retries_exact (mkRetryConfig 3 100 150) [e; e] (inr e) [inl 7%N] _ _ _ _).
  - by repeat constructor.
  - simpl. lia.
  - right. reflexivity.
  - intros [|[|j]] Hj; simpl in Hj; [vm_compute; discriminate..|lia].
Defined.
