(* ===== verification/Keeps.v ===== *)
(** * Computations that keep a relation between the states before and after

    [keeps R m] states that every run of [m], whatever its result, ends in a
    state that [R] relates to the first one. For a preorder [R] it is closed
    under the operations of the monad and under the retrying client; the
    tactic [keeps] follows the structure of a handler down to the primitive
    steps, for which a file supplies its lemmas as hints. *)

From Stdlib Require Import NArith Lia.
From S2P Require Import Prelude RpcClient.

Section keeps.
  Context {S : Type}.

Definition keeps (R : relation S) {E A : Type} (m : ST S E A) : Prop := ∀ w, R w (m w).2.

Lemma keeps_inv R {E A : Type} (m : ST S E A) w r w' : keeps R m → m w = (r, w') → R w w'.
Proof. intros Hm Hw. specialize (Hm w). by rewrite Hw in Hm. Qed.

Context {R : relation S} `{!PreOrder R}.

Lemma keeps_bind {E A B : Type} (m : ST S E A) (f : A → ST S E B) :
  keeps R m → (∀ a, keeps R (f a)) → keeps R (m ≫= f).
Proof.
  intros Hm Hf w. specialize (Hm w). unfold mbind, st_bind.
  destruct (m w) as [[a|e|] w1]; simpl in *; [|done..]. etrans; [done|apply Hf].
Qed.

Lemma keeps_ret {E A : Type} (a : A) : keeps R (mret a : ST S E A).
Proof. by intros w. Qed.

Lemma keeps_lift {E A : Type} (o : outcome E A) : keeps R (st_lift o : ST S E A).
Proof. by intros w. Qed.

Lemma keeps_get {E : Type} : keeps R (st_get : ST S E S).
Proof. by intros w. Qed.

Lemma keeps_map_err {E F A : Type} (f : E → F) (m : ST S E A) :
  keeps R m → keeps R (st_map_err f m).
Proof. intros Hm w. specialize (Hm w). unfold st_map_err. by destruct (m w). Qed.

Lemma keeps_try {E F A : Type} (m : ST S E A) :
  keeps R m → keeps R (st_try m : ST S F (A + E)).
Proof. intros Hm w. specialize (Hm w). unfold st_try. by destruct (m w) as [[] ?]. Qed.

Lemma keeps_retry_loop {E A : Type} `{RetriableError E} (func : ST S E A) sleep instant observe
    max_delay left delay :
  keeps R func → (∀ d w, R w (sleep d w)) → (∀ w, R w (instant w).2) →
  (∀ s t w, R w (observe s t w)) →
  keeps R (retry_loop func sleep instant observe max_delay left delay).
Proof.
  intros Hf Hs Hi Ho.
  assert (∀ s t w, R w (let '(t', w) := instant w in observe s (t' - t)%N w)) as Hobs.
  { intros s t w. specialize (Hi w). destruct (instant w). by etrans. }
  revert delay. induction left as [|left IH]; intros delay w; simpl;
    pose proof (Hi w) as Hw; destruct (instant w) as [t w1];
    (etrans; [exact Hw|]; clear Hw);
    pose proof (Hf w1) as Hw; destruct (func w1) as [[a|e|] w2];
    (etrans; [exact Hw|]; clear Hw); try done; try apply Hobs.
  destruct left as [|left']; [apply Hobs|]. destruct (is_retriable_error e); [|apply Hobs].
  destruct (duration_double _); [etrans; [apply Hobs|]; etrans; [apply Hs|apply IH]|..];
    (etrans; [apply Hobs|apply Hs]).
Qed.
End keeps.

Create HintDb keeps discriminated.
#[export] Hint Extern 1 (keeps _ (mret _)) => apply keeps_ret : keeps.
#[export] Hint Extern 1 (keeps _ (st_lift _)) => apply keeps_lift : keeps.
#[export] Hint Extern 1 (keeps _ st_get) => apply keeps_get : keeps.

(** Follows the structure of a handler. *)
Ltac keeps :=
  repeat (eauto 1 with keeps nocore;
    match goal with
    | |- keeps _ (_ ≫= _) => apply keeps_bind; [|intros ?]
    | |- keeps _ (st_map_err _ _) => apply keeps_map_err
    | |- keeps _ (st_try _) => apply keeps_try
    | |- keeps _ (match ?x with _ => _ end) => destruct x
    end).

(** ** Computations that do not panic *)
Section no_panic.
  Context {S : Type}.

Definition no_panic {E A : Type} (m : ST S E A) : Prop := ∀ w, (m w).1 ≠ Panic.

Lemma no_panic_bind {E A B : Type} (m : ST S E A) (f : A → ST S E B) :
  no_panic m → (∀ a, no_panic (f a)) → no_panic (m ≫= f).
Proof.
  intros Hm Hf w. specialize (Hm w). unfold mbind, st_bind.
  destruct (m w) as [[a|e|] w1]; simpl in *; [apply Hf|done..].
Qed.

Lemma no_panic_ret {E A : Type} (a : A) : no_panic (mret a : ST S E A).
Proof. by intros w. Qed.

Lemma no_panic_lift {E A : Type} (o : outcome E A) : o ≠ Panic → no_panic (st_lift o : ST S E A).
Proof. by intros Ho w. Qed.

Lemma no_panic_try {E F A : Type} (m : ST S E A) :
  no_panic m → no_panic (st_try m : ST S F (A + E)).
Proof. intros Hm w. specialize (Hm w). unfold st_try. by destruct (m w) as [[] ?]. Qed.

(** Nothing is lost in an attempt at a computation that returns. *)
Lemma st_try_returns {E F A : Type} (m : ST S E A) w :
  (m w).1 ≠ Panic → ∃ r, st_try (F := F) m w = (Ok r, (m w).2) ∧
    of_sum r = (m w).1.
Proof.
  unfold st_try. destruct (m w) as [[a|e|] w']; intros Hp; [by exists (inl a)|by exists (inr e)|done].
Qed.
End no_panic.

Lemma of_sum_no_panic {E A : Type} (r : A + E) : of_sum r ≠ Panic.
Proof. by destruct r. Qed.

Lemma map_err_no_panic {E F A : Type} (f : E → F) (o : outcome E A) :
  o ≠ Panic → map_err f o ≠ Panic.
Proof. by destruct o. Qed.

Create HintDb no_panic discriminated.
#[export] Hint Resolve no_panic_ret no_panic_lift no_panic_try of_sum_no_panic map_err_no_panic
  : no_panic.
#[export] Hint Extern 1 (_ ≠ _) => discriminate : no_panic.

Ltac no_panic :=
  repeat (eauto 3 with no_panic nocore;
    match goal with
    | |- no_panic (_ ≫= _) => apply no_panic_bind; [|intros ?]
    | |- no_panic (st_try _) => apply no_panic_try
    | |- no_panic (match ?x with _ => _ end) => destruct x
    | |- no_panic (st_lift (match _ with _ => _ end)) => apply no_panic_lift
    | |- match ?x with _ => _ end ≠ Panic => destruct x
    end).
