(* ===== verification/ValidPtb.v ===== *)
(** * Policy transactions ([crates/key-server/src/valid_ptb.rs], [seal_package.rs])

    A programmable transaction is accepted for evaluating an access policy
    only in a restricted form ([ptb_try_from]); the key server then prepends a
    check that the full node is not stale ([add_staleness_check_to_ptb]). *)

From Stdlib Require Import NArith Lia.
From S2P Require Import Prelude Primitives Ibe Seal Common Chain.

(** ** Programmable transactions ([sui_types::transaction])

    The constructors that the sources tell apart. *)
Inductive Argument : Type :=
  | GasCoin
  | Input (index : N) (** a [u16] *)
  | CommandResult (index : N)
  | NestedResult (index sub : N).

Inductive CallArg : Type :=
  | Pure (bytes : list byte)
  | SharedObject (id : ObjectID) (initial_shared_version : N) (mutable : bool)
  | OtherObject (description : list byte).

Record ProgrammableMoveCall : Type := mkMoveCall {
  mc_package : ObjectID;
  mc_module : string;
  mc_function : string;
  mc_type_arguments : list string;
  mc_arguments : list Argument;
}.

Inductive Command : Type :=
  | MoveCall (call : ProgrammableMoveCall)
  | OtherCommand (description : list byte).

Record ProgrammableTransaction : Type := mkPtb {
  ptb_inputs : list CallArg;
  ptb_commands : list Command;
}.

#[export] Instance Argument_eq_dec : EqDecision Argument.
Proof. solve_decision. Defined.
#[export] Instance CallArg_eq_dec : EqDecision CallArg.
Proof. solve_decision. Defined.

Abbreviation KeyId := (list byte) (only parsing).

(** Decoders of the [bcs] and [base64] libraries, and the chain's clock. *)
Class PtbLib : Type := {
  base64_decode : string → option (list byte);
  bcs_ptb : list byte → option ProgrammableTransaction;
  bcs_key_id : list byte → option KeyId;
  SUI_CLOCK_OBJECT_ID : ObjectID;
  CLOCK_IMM : CallArg;
}.

Class PtbLibLaws `{PtbLib} : Prop :=
  clock_imm_shared : ∃ v m, CLOCK_IMM = SharedObject SUI_CLOCK_OBJECT_ID v m.

(** ** [valid_ptb.rs] *)
Record ValidPtb : Type := mkValidPtb { vptb : ProgrammableTransaction }.

Definition MAX_COMMANDS : nat := 100.

Section valid_ptb.
  Context {lib : PtbLib}.

Definition get_key_id (ptb : ProgrammableTransaction) (cmd : ProgrammableMoveCall) :
    outcome InternalError KeyId :=
  match mc_arguments cmd with
  | [] => Err (InvalidPTB "Empty args")
  | Input arg_idx :: _ =>
      match ptb_inputs ptb !! N.to_nat arg_idx with
      | Some (Pure id) =>
          ok_or (bcs_key_id id) (InvalidPTB "Invalid BCS for first parameter for seal_approve")
      | _ => Err (InvalidPTB "Invalid first parameter for seal_approve")
      end
  | _ => Err (InvalidPTB "Invalid index for first argument")
  end.

(** The checks on one command. *)
Definition check_command (ptb : ProgrammableTransaction) (pkg_id : ObjectID)
    (cmd : Command) : outcome InternalError unit :=
  match cmd with
  | MoveCall cmd =>
      _ ← try_for (λ arg,
            match arg with
            | Input _ => Ok ()
            | _ => Err (InvalidPTB "Only pure inputs are allowed")
            end) (mc_arguments cmd);
      _ ← get_key_id ptb cmd;
      if negb (String.prefix "seal_approve" (mc_function cmd))
         || negb (bool_decide (mc_package cmd = pkg_id))
      then Err (InvalidPTB "Invalid function or package id") else Ok ()
  | _ => Err (InvalidPTB "Non MoveCall command")
  end.

Definition ptb_try_from (ptb : ProgrammableTransaction) : outcome InternalError ValidPtb :=
  if MAX_COMMANDS <? length (ptb_commands ptb)
  then Err (InvalidPTB "Too many commands in PTB (more than 100)")
  else
    match ptb_inputs ptb, ptb_commands ptb with
    | [], _ | _, [] => Err (InvalidPTB "Empty PTB input or command")
    | _, MoveCall first_cmd :: _ =>
        let pkg_id := mc_package first_cmd in
        _ ← try_for (check_command ptb pkg_id) (ptb_commands ptb);
        Ok (mkValidPtb ptb)
    | _, _ => Err (InvalidPTB "Invalid first command")
    end.

Definition try_from_base64 (s : string) : outcome InternalError ValidPtb :=
  b ← ok_or (base64_decode s) (InvalidPTB "Invalid Base64");
  ptb ← ok_or (bcs_ptb b) (InvalidPTB "Invalid BCS");
  ptb_try_from ptb.

(** [unreachable!()] and [expect] panic. *)
Definition inner_ids {E : Type} (self : ValidPtb) : outcome E (list KeyId) :=
  try_map (λ cmd, match cmd with
                  | MoveCall cmd => expect_ok (get_key_id (vptb self) cmd)
                  | _ => Panic
                  end) (ptb_commands (vptb self)).

Definition vptb_pkg_id {E : Type} (self : ValidPtb) : outcome E ObjectID :=
  cmd ← expect (ptb_commands (vptb self) !! 0);
  match cmd with MoveCall cmd => Ok (mc_package cmd) | _ => Panic end.

Definition full_ids {E : Type} (self : ValidPtb) (first_pkg_id : ObjectID) :
    outcome E (list KeyId) :=
  ids ← inner_ids self;
  Ok ((λ inner_id, create_full_id first_pkg_id inner_id) <$> (ids : list KeyId)).
End valid_ptb.

(** ** [seal_package.rs] *)
Inductive SealPackage : Type :=
  | PkgTestnet
  | PkgMainnet
  | PkgCustom (id : ObjectID).

Definition TESTNET_PACKAGE_ID : string :=
  "0xdccbeb87767be2b2346af5575eb139807205e4c23ec53dc616f951fe1d814112".
Definition MAINNET_PACKAGE_ID : string :=
  "0x931739224160073d8e391c9aa6e7ade9818e9814b4907066b7efa058636c4e45".
Definition STALENESS_ERROR_CODE : N := 93492.
Definition STALENESS_MODULE : string := "time".
Definition STALENESS_FUNCTION : string := "check_staleness".

(** [Network::seal_package] of [types.rs]. *)
Definition seal_package (network : Network) : SealPackage :=
  match network with
  | Devnet seal_package => PkgCustom seal_package
  | Testnet => PkgTestnet
  | Mainnet => PkgMainnet
  end.

Section seal_package.
  Context {lib : PtbLib} {sui : SuiTypes} {sym : Symmetric}.

Definition package_id {E : Type} (self : SealPackage) : outcome E ObjectID :=
  match self with
  | PkgTestnet => expect (object_id_from_hex_literal TESTNET_PACKAGE_ID)
  | PkgMainnet => expect (object_id_from_hex_literal MAINNET_PACKAGE_ID)
  | PkgCustom seal_package => Ok seal_package
  end.

Definition is_staleness_error {E : Type} (self : SealPackage)
    (simulate_response : SimulateTransactionResponse) : outcome E bool :=
  match sim_error simulate_response with
  | Some error =>
      match exec_abort error with
      | Some abort =>
          if (abort_code abort =? STALENESS_ERROR_CODE)%N then
            match abort_location abort with
            | Some (package, module) =>
                pkg ← package_id self;
                Ok (bool_decide (package = Some (address_to_string pkg))
                    && bool_decide (module = Some STALENESS_MODULE))
            | None => Ok false
            end
          else Ok false
      | None => Ok false
      end
  | None => Ok false
  end.

Definition try_argument_from_input_index (input_index : nat) :
    outcome InternalError Argument :=
  if (N.of_nat input_index <? 2 ^ 16)%N then Ok (Input (N.of_nat input_index))
  else Err (InvalidPTB "Index out of bounds").

(** [ptb] is mutated: the new inputs are returned with the argument. *)
Definition try_add_argument (inputs : list CallArg) (argument : CallArg) :
    outcome InternalError (Argument * list CallArg) :=
  let inputs := inputs ++ [argument] in
  arg ← try_argument_from_input_index (length inputs - 1);
  Ok (arg, inputs).

Definition is_clock (arg : CallArg) : bool :=
  match arg with
  | SharedObject id _ _ => bool_decide (id = SUI_CLOCK_OBJECT_ID)
  | _ => false
  end.

(** [iter.position(p)]. *)
Fixpoint position_by {A : Type} (p : A → bool) (l : list A) : option nat :=
  match l with
  | [] => None
  | a :: l => if p a then Some 0 else S <$> position_by p l
  end.

Definition add_staleness_check_to_ptb (self : SealPackage) (current_epoch_time : N)
    (allowed_staleness : Duration) (ptb : ProgrammableTransaction) :
    outcome InternalError ProgrammableTransaction :=
  '(now, inputs) ← try_add_argument (ptb_inputs ptb) (Pure (bcs_u64 current_epoch_time));
  '(staleness, inputs) ← try_add_argument inputs
      (Pure (bcs_u64 ((allowed_staleness / 1000000) `mod` 2 ^ 64)%N));
  '(clock, inputs) ←
    match position_by is_clock inputs with
    | Some index => arg ← try_argument_from_input_index index; Ok (arg, inputs)
    | None => try_add_argument inputs CLOCK_IMM
    end;
  pkg ← package_id self;
  let staleness_check := MoveCall (mkMoveCall pkg STALENESS_MODULE STALENESS_FUNCTION []
                                     [now; staleness; clock]) in
  Ok (mkPtb inputs (staleness_check :: ptb_commands ptb)).
End seal_package.

(** ** The specification of valid policy transactions *)
Section theory.
  Context {lib : PtbLib}.

(** A call of a [seal_approve*] function of package [pkg] on inputs only, the
    first one a plain value that encodes the key id [id]. *)
Definition approves (ptb : ProgrammableTransaction) (pkg : ObjectID) (cmd : Command)
    (id : KeyId) : Prop :=
  ∃ call idx rest bytes, cmd = MoveCall call ∧ mc_package call = pkg ∧
    String.prefix "seal_approve" (mc_function call) = true ∧
    mc_arguments call = Input idx :: rest ∧
    Forall (λ arg, ∃ i, arg = Input i) rest ∧
    ptb_inputs ptb !! N.to_nat idx = Some (Pure bytes) ∧ bcs_key_id bytes = Some id.

Definition valid_policy (ptb : ProgrammableTransaction) (pkg : ObjectID)
    (ids : list KeyId) : Prop :=
  ptb_commands ptb ≠ [] ∧ length (ptb_commands ptb) ≤ MAX_COMMANDS ∧
  Forall2 (approves ptb pkg) (ptb_commands ptb) ids.

Lemma try_for_spec {E A : Type} (f : A → outcome E unit) (l : list A) :
  (∀ x, x ∈ l → f x ≠ Panic) →
  try_for f l = Ok () ∧ Forall (λ x, f x = Ok ()) l ∨
  ∃ x e, x ∈ l ∧ f x = Err e ∧ try_for f l = Err e.
Proof.
  induction l as [|x l IH]; intros Hf; simpl; [by left|].
  destruct (f x) as [[]|e|] eqn:Hx; simpl.
  - destruct IH as [[-> HF]|(y & e & Hy & Hfy & ->)]; [intros; apply Hf; by right|..].
    + left. split; [done|]. by constructor.
    + right. exists y, e. split_and!; [by right|done..].
  - right. exists x, e. split_and!; [by left|done..].
  - exfalso. apply (Hf x); [by left|done].
Qed.

Lemma get_key_id_cases ptb cmd :
  (∃ id, get_key_id ptb cmd = Ok id) ∨ (∃ s, get_key_id ptb cmd = Err (InvalidPTB s)).
Proof.
  unfold get_key_id. destruct (mc_arguments cmd) as [|[] ?]; eauto.
  destruct (ptb_inputs ptb !! _) as [[bytes| |]|]; eauto.
  destruct (bcs_key_id bytes); simpl; eauto.
Qed.

Lemma only_inputs_cases args :
  let o := try_for (λ arg, match arg with
    | Input _ => Ok ()
    | _ => Err (InvalidPTB "Only pure inputs are allowed") end) args in
  (o = Ok () ∧ Forall (λ arg, ∃ i, arg = Input i) args) ∨
  (o = Err (InvalidPTB "Only pure inputs are allowed") ∧
     ¬ Forall (λ arg, ∃ i, arg = Input i) args).
Proof.
  induction args as [|a args IH]; simpl; [by left|].
  destruct a as [|i| |]; simpl;
    try (right; split; [done|]; by intros [[? ?] _]%Forall_cons_1).
  destruct IH as [[-> HF]|[-> HF]]; [left|right].
  - split; [done|]. constructor; eauto.
  - split; [done|]. by intros [_ ?]%Forall_cons_1.
Qed.

Lemma check_command_cases ptb pkg cmd :
  (check_command ptb pkg cmd = Ok () ∧ ∃ id, approves ptb pkg cmd id) ∨
  (∃ s, check_command ptb pkg cmd = Err (InvalidPTB s)).
Proof.
  destruct cmd as [call|]; [|right; simpl; eauto]. unfold check_command.
  destruct (only_inputs_cases (mc_arguments call)) as [[-> Hin]|[-> _]];
    [|right; simpl; eauto].
  unfold mbind at 1 3, outcome_bind at 1 3.
  destruct (get_key_id_cases ptb call) as [[id Hid]|[s Hs]].
  2: { right. rewrite Hs. simpl. eauto. }
  rewrite Hid. unfold mbind, outcome_bind.
  destruct (String.prefix _ _) eqn:Hp; [|right; simpl; eauto].
  case_bool_decide as Hpkg; [|right; simpl; eauto]. left. split; [done|].
  exists id. unfold get_key_id in Hid.
  destruct (mc_arguments call) as [|[|idx| |] rest] eqn:Hargs; try done.
  destruct (ptb_inputs ptb !! _) as [[bytes| |]|] eqn:Hb; try done.
  exists call, idx, rest, bytes. apply Forall_cons_1 in Hin as [_ Hin].
  destruct (bcs_key_id bytes) eqn:Hk; [|done]. simpl in Hid. by injection Hid as ->.
Qed.

Lemma approves_check ptb pkg cmd id :
  approves ptb pkg cmd id → check_command ptb pkg cmd = Ok ().
Proof.
  intros (call & idx & rest & bytes & -> & Hpkg & Hp & Ha & Hrest & Hi & Hb).
  unfold check_command.
  destruct (only_inputs_cases (mc_arguments call)) as [[-> _]|[_ Hn]].
  2: { destruct Hn. rewrite Ha. constructor; eauto. }
  unfold mbind at 1, outcome_bind at 1.
  assert (get_key_id ptb call = Ok id) as Hk.
  { unfold get_key_id. by rewrite Ha, Hi, Hb. }
  rewrite (bind_ok _ _ _ Hk), Hp, bool_decide_eq_true_2; done.
Qed.

Lemma approves_key_id ptb pkg cmd id :
  approves ptb pkg cmd id →
  ∃ call, cmd = MoveCall call ∧ mc_package call = pkg ∧ get_key_id ptb call = Ok id.
Proof.
  intros (call & idx & rest & bytes & -> & Hpkg & Hp & Ha & Hrest & Hi & Hb).
  exists call. split_and!; [done..|]. unfold get_key_id. by rewrite Ha, Hi, Hb.
Qed.

(** The key ids a valid transaction asks for. *)
Lemma valid_policy_inner_ids {E : Type} ptb pkg ids :
  valid_policy ptb pkg ids →
  inner_ids (E := E) (mkValidPtb ptb) = Ok ids ∧ vptb_pkg_id (E := E) (mkValidPtb ptb) = Ok pkg.
Proof.
  intros (Hne & _ & HF). split.
  - apply try_map_inv. eapply Forall2_impl; [exact HF|]. simpl.
    intros cmd id (call & -> & _ & Hk)%approves_key_id. by rewrite Hk.
  - unfold vptb_pkg_id. simpl. destruct HF as [|cmd id cmds ids Hc _]; [done|].
    apply approves_key_id in Hc as (call & -> & <- & _). done.
Qed.

Lemma ptb_try_from_cases ptb :
  (∃ pkg ids, ptb_try_from ptb = Ok (mkValidPtb ptb) ∧ valid_policy ptb pkg ids) ∨
  ((∃ s, ptb_try_from ptb = Err (InvalidPTB s)) ∧ ∀ pkg ids, ¬ valid_policy ptb pkg ids).
Proof.
  unfold ptb_try_from. destruct (Nat.ltb_spec MAX_COMMANDS (length (ptb_commands ptb)))
    as [Hlt|Hle].
  { right. split; [eauto|]. intros pkg ids (_ & ? & _). lia. }
  assert (∀ pkg ids, valid_policy ptb pkg ids → ptb_inputs ptb ≠ []) as Hinputs.
  { intros pkg ids (Hne & _ & HF) Hi. destruct HF as [|cmd id cmds ids Hc _]; [done|].
    destruct Hc as (? & ? & ? & ? & _ & _ & _ & _ & _ & Hl & _). by rewrite Hi in Hl. }
  destruct (ptb_inputs ptb) as [|i0 is0] eqn:Hi.
  { right. split; [eauto|]. intros pkg ids Hv. by destruct (Hinputs _ _ Hv). }
  destruct (ptb_commands ptb) as [|first cmds] eqn:Hc.
  { right. split; [eauto|]. intros pkg ids (Hne & _). by rewrite Hc in Hne. }
  destruct first as [call|].
  2: { right. split; [eauto|]. intros pkg ids (_ & _ & HF). rewrite Hc in HF.
    apply Forall2_cons_inv_l in HF as (id & ids' & (? & ? & ? & ? & E & _) & _).
    discriminate E. }
  rewrite <-Hc. set (pkg := mc_package call).
  destruct (try_for_spec (check_command ptb pkg) (ptb_commands ptb)) as [[Ht HF]|
    (cmd & e & Hcmd & He & Ht)].
  { intros cmd _. destruct (check_command_cases ptb pkg cmd) as [[-> _]|[s ->]]; done. }
  - rewrite Ht. left. exists pkg.
    assert (∃ ids, Forall2 (approves ptb pkg) (ptb_commands ptb) ids) as [ids Hids].
    { clear Ht Hle Hc Hi Hinputs. induction HF as [|cmd cs Hcmd HF [ids IH]]; [by exists []|].
      destruct (check_command_cases ptb pkg cmd) as [[_ [id Hid]]|[s Hs]]; [|congruence].
      exists (id :: ids). by constructor. }
    exists ids. split; [done|]. split_and!; [by rewrite Hc|by rewrite Hc|done].
  - rewrite Ht. right. split.
    { destruct (check_command_cases ptb pkg cmd) as [[Hok _]|[s Hs]]; [congruence|].
      exists s. simpl. congruence. }
    intros pkg' ids (_ & _ & HF). assert (pkg' = pkg) as ->.
    { rewrite Hc in HF. apply Forall2_cons_inv_l in HF
        as (id & ids' & (? & ? & ? & ? & [= <-] & <- & _) & _). done. }
    apply list_elem_of_lookup in Hcmd as [k Hk].
    destruct (Forall2_lookup_l _ _ _ _ _ HF Hk) as (id & _ & Ha).
    apply approves_check in Ha. congruence.
Qed.
End theory.

Section staleness_theory.
  Context {lib : PtbLib} {lib_laws : PtbLibLaws} {sui : SuiTypes} {sym : Symmetric}.

Lemma position_by_Some {A : Type} (p : A → bool) l i :
  position_by p l = Some i → ∃ a, l !! i = Some a ∧ p a = true.
Proof.
  revert i. induction l as [|a l IH]; intros i; simpl; [done|].
  destruct (p a) eqn:Hp; [intros [= <-]; eauto|].
  destruct (position_by p l) as [k|]; [|done]. intros [= <-]. by apply IH.
Qed.

Lemma try_add_argument_spec inputs a :
  try_add_argument inputs a =
    if (N.of_nat (length inputs) <? 65536)%N
    then Ok (Input (N.of_nat (length inputs)), inputs ++ [a])
    else Err (InvalidPTB "Index out of bounds").
Proof.
  unfold try_add_argument, try_argument_from_input_index.
  rewrite length_app. simpl. replace (length inputs + 1 - 1) with (length inputs) by lia.
  change (2 ^ 16)%N with 65536%N. by destruct (_ <? _)%N.
Qed.

Lemma is_clock_shared a :
  is_clock a = true → ∃ v m, a = SharedObject SUI_CLOCK_OBJECT_ID v m.
Proof. destruct a; simpl; try done. intros ->%bool_decide_eq_true. eauto. Qed.

(** The clock argument: an input that already is the clock, or a new one. *)
Lemma clock_argument inputs :
  (N.of_nat (length inputs) < 65536)%N →
  ∃ idx extra v m,
    (match position_by is_clock inputs with
     | Some index => arg ← try_argument_from_input_index index; Ok (arg, inputs)
     | None => try_add_argument inputs CLOCK_IMM
     end) = Ok (Input idx, inputs ++ extra) ∧
    (inputs ++ extra) !! N.to_nat idx = Some (SharedObject SUI_CLOCK_OBJECT_ID v m).
Proof.
  intros Hl. destruct (position_by is_clock inputs) as [k|] eqn:Hp.
  - apply position_by_Some in Hp as (a & Hk & (v & m & ->)%is_clock_shared).
    pose proof (lookup_lt_Some _ _ _ Hk). exists (N.of_nat k), [], v, m.
    unfold try_argument_from_input_index. change (2 ^ 16)%N with 65536%N.
    rewrite (proj2 (N.ltb_lt _ _)) by lia. rewrite app_nil_r, Nat2N.id. done.
  - destruct clock_imm_shared as (v & m & Hc).
    exists (N.of_nat (length inputs)), [CLOCK_IMM], v, m.
    rewrite try_add_argument_spec, (proj2 (N.ltb_lt _ _)) by done.
    by rewrite Nat2N.id, list_lookup_middle, Hc.
Qed.

(** ** Properties *)

(** C8: a transaction is accepted exactly when it is a valid policy
    transaction: one to a hundred calls of [seal_approve*] functions of one
    package, on inputs only, each with a decodable key id as its first input.
    The id may be empty: the code's comment asks for one that is not, but
    nothing looks at its length ([empty_key_id_accepted]). On accepted transactions, the accessors do not panic, and the key ids are
    those of the calls, prefixed with the first package id; every other
    transaction is rejected as [InvalidPTB], without a panic. *)
Theorem ptb_acceptance (ptb : ProgrammableTransaction) (first_pkg_id : ObjectID) :
  match ptb_try_from ptb with
  | Ok v => vptb v = ptb ∧ ∃ pkg ids, valid_policy ptb pkg ids ∧
      vptb_pkg_id (E := InternalError) v = Ok pkg ∧
      full_ids (E := InternalError) v first_pkg_id
        = Ok ((λ id, first_pkg_id ++ id) <$> ids) ∧
      1 ≤ length ids ≤ 100
  | Err e => (∃ s, e = InvalidPTB s) ∧ ∀ pkg ids, ¬ valid_policy ptb pkg ids
  | Panic => False
  end.
Proof.
  destruct (ptb_try_from_cases ptb) as [(pkg & ids & -> & Hv)|[[s ->] Hn]]; [|by eauto].
  split; [done|]. exists pkg, ids.
  destruct (valid_policy_inner_ids (E := InternalError) ptb pkg ids Hv) as [Hi Hp].
  split_and!; [done|done| | |].
  - unfold full_ids. by rewrite Hi.
  - destruct Hv as (Hne & _ & HF). destruct HF; [done|]. simpl. lia.
  - destruct Hv as (_ & Hle & HF). apply Forall2_length in HF. unfold MAX_COMMANDS in Hle. lia.
Qed.

(** What the comment in [ptb_try_from] rules out is accepted: a call whose
    first input encodes the empty key id asks for the key of that id. *)
Theorem empty_key_id_accepted (call : ProgrammableMoveCall) (bytes : list byte) :
  bcs_key_id bytes = Some [] →
  String.prefix "seal_approve" (mc_function call) = true → mc_arguments call = [Input 0] →
  let ptb := mkPtb [Pure bytes] [MoveCall call] in
  ptb_try_from ptb = Ok (mkValidPtb ptb) ∧
  ∀ pkg, full_ids (E := InternalError) (mkValidPtb ptb) pkg = Ok [pkg].
Proof.
  intros Hb Hf Ha ptb.
  assert (valid_policy ptb (mc_package call) [[]]) as Hv.
  { split; [done|]. split; [unfold MAX_COMMANDS; simpl; lia|]. repeat constructor.
    by exists call, 0%N, [], bytes. }
  destruct (ptb_try_from_cases ptb) as [(? & ? & Ht & _)|[_ Hn]]; [|by destruct (Hn _ _ Hv)].
  split; [exact Ht|]. intros pkg. unfold full_ids.
  rewrite (proj1 (valid_policy_inner_ids (E := InternalError) _ _ _ Hv)).
  unfold mbind, outcome_bind, create_full_id. simpl. by rewrite app_nil_r.
Qed.

(** The staleness check of the key server is added in front of the
    commands without disturbing them: whenever the inputs leave room, the
    result has the given commands after the check, the given inputs as a
    prefix of its inputs, and the check reads the current time, the allowed
    staleness in milliseconds and the chain's clock. *)
Theorem staleness_check_added (self : SealPackage) (pkg : ObjectID) (time : N)
    (allowed : Duration) (ptb : ProgrammableTransaction) :
  package_id (E := InternalError) self = Ok pkg →
  (N.of_nat (length (ptb_inputs ptb)) ≤ 65533)%N →
  ∃ extra i_time i_allowed i_clock v m,
    add_staleness_check_to_ptb self time allowed ptb =
      Ok (mkPtb (ptb_inputs ptb ++ extra)
            (MoveCall (mkMoveCall pkg "time" "check_staleness" []
                         [Input i_time; Input i_allowed; Input i_clock])
             :: ptb_commands ptb)) ∧
    let inputs := ptb_inputs ptb ++ extra in
    inputs !! N.to_nat i_time = Some (Pure (bcs_u64 time)) ∧
    inputs !! N.to_nat i_allowed =
      Some (Pure (bcs_u64 ((allowed / 1000000) `mod` 2 ^ 64)%N)) ∧
    inputs !! N.to_nat i_clock = Some (SharedObject SUI_CLOCK_OBJECT_ID v m).
Proof.
  intros Hpkg Hl. unfold add_staleness_check_to_ptb.
  set (n := N.of_nat (length (ptb_inputs ptb))) in *.
  set (a := Pure (bcs_u64 time)). set (b := Pure (bcs_u64 _)).
  rewrite (try_add_argument_spec (ptb_inputs ptb) a). fold n.
  rewrite (proj2 (N.ltb_lt _ _)) by lia. unfold mbind at 1, outcome_bind at 1.
  assert (N.of_nat (length (ptb_inputs ptb ++ [a])) = n + 1)%N as Hl1
    by (rewrite length_app; simpl; lia).
  rewrite try_add_argument_spec, Hl1.
  rewrite (proj2 (N.ltb_lt _ _)) by lia. unfold mbind at 1, outcome_bind at 1.
  destruct (clock_argument ((ptb_inputs ptb ++ [a]) ++ [b])) as (idx & extra & v & m & Hc & Hx).
  { rewrite length_app. simpl. lia. }
  rewrite (bind_ok _ _ _ Hc), Hpkg.
  exists ([a] ++ [b] ++ extra), n, (n + 1)%N, idx, v, m.
  split; [unfold mbind, outcome_bind; by rewrite <-!app_assoc|].
  cbv zeta. rewrite <-!app_assoc in Hx. split_and!; [| |exact Hx].
  - unfold n. rewrite Nat2N.id. by apply list_lookup_middle.
  - replace (N.to_nat (n + 1)) with (length (ptb_inputs ptb ++ [a]))
      by (rewrite length_app; simpl; lia).
    rewrite app_assoc. by apply list_lookup_middle.
Qed.
End staleness_theory.

(** ** Witnesses: a library where one input and one command are encodings *)
Section witnesses.

Definition toy_call (arguments : list Argument) : Command :=
  MoveCall (mkMoveCall [Byte.x07] "policy" "seal_approve_all" [] arguments).

#[local] Instance toy_ptb_lib : PtbLib := {
  base64_decode s := Some (bytes_of s);
  bcs_ptb b := Some (mkPtb [Pure b] [toy_call [Input 0]]);
  bcs_key_id b := Some b;
  SUI_CLOCK_OBJECT_ID := [Byte.x06];
  CLOCK_IMM := SharedObject [Byte.x06] 1 false;
}.

#[local] Instance toy_ptb_lib_laws : PtbLibLaws.
Proof. by exists 1%N, false. Defined.

#[local] Existing Instance ToyChain.sui.

Lemma empty_key_id_accepted_witness :
  full_ids (E := InternalError) (mkValidPtb (mkPtb [Pure []] [toy_call [Input 0]])) [Byte.x01]
  = Ok [[Byte.x01]].
Proof.
  by apply (empty_key_id_accepted (mkMoveCall [Byte.x07] "policy" "seal_approve_all" [] [Input 0])
    []).
Defined.

Lemma staleness_check_added_witness :
  ∃ extra i_time i_allowed i_clock v m,
    add_staleness_check_to_ptb (sym := Toy.symmetric) (PkgCustom [Byte.x01]) 5 120000000000
      (mkPtb [Pure [Byte.x09]] [toy_call [Input 0]]) =
      Ok (mkPtb ([Pure [Byte.x09]] ++ extra)
            [MoveCall (mkMoveCall [Byte.x01] "time" "check_staleness" []
                         [Input i_time; Input i_allowed; Input i_clock]);
             toy_call [Input 0]]) ∧
    ([Pure [Byte.x09]] ++ extra) !! N.to_nat i_clock = Some (SharedObject [Byte.x06] v m).
Proof.
  destruct (staleness_check_added (sym := Toy.symmetric) (PkgCustom [Byte.x01]) [Byte.x01] 5
    120000000000 (mkPtb [Pure [Byte.x09]] [toy_call [Input 0]]) ltac:(reflexivity)
    ltac:(vm_compute; discriminate)) as (extra & i & j & k & v & m & Heq & _ & _ & Hc).
  by exists extra, i, j, k, v, m.
Defined.
End witnesses.
