(* ===== verification/Options.v ===== *)
(** * Configuration of the key server ([crates/key-server/src/key_server_options.rs],
    [utils.rs], [crates/crypto/src/prefixed_hex.rs])

    The options with their defaults, the validation of the client
    configurations of a permissioned server, and the decoding of keys and ids
    from environment variables. *)

From Stdlib Require Import NArith Lia.
From stdpp Require Import pretty.
From S2P Require Import Prelude Primitives Ibe Common Chain RpcClient.

(** ** Environment variables and encodings *)
Class Environment : Type := env_var : string → option string.

(** The trait [Encoding] of the cryptographic library. *)
Class Encoding : Type := {
  decode : string → option (list byte);
  encode : list byte → string;
}.

(** [Hex] and [Base64] of the library; [hex_encode_with_format] adds the prefix. *)
Class Encodings : Type := {
  hex_decode : string → option (list byte);
  hex_encode_with_format : list byte → string;
  base64 : Encoding;
}.

Definition prefixed_hex `{Encodings} : Encoding := {|
  decode s := hex_decode s;
  encode data := hex_encode_with_format data;
|}.

Section utils.
  Context {env : Environment} {encs : Encodings} {crv : Curve}.

Definition decode_byte_array (enc : Encoding) (N : nat) (env_name : string) :
    outcome string (list byte) :=
  hex_string ← ok_or (env_var env_name)
    ("Environment variable " +:+ env_name +:+ " must be set");
  bytes ← ok_or (decode hex_string)
    ("Environment variable " +:+ env_name +:+ " should be hex encoded");
  if length bytes =? N then Ok bytes
  else Err ("Invalid byte array length for environment variable " +:+ env_name
         +:+ ". Must be " +:+ pretty N +:+ " bytes long").

Definition MASTER_KEY_LENGTH : nat := 32.

Definition decode_master_key (enc : Encoding) (env_name : string) :
    outcome string MasterKey :=
  bytes ← decode_byte_array enc MASTER_KEY_LENGTH env_name;
  map_err (λ _, "Invalid master key for environment variable " +:+ env_name)
    (scalar_from_byte_array bytes).

(** [Hex] decoding accepts a prefix, as [PrefixedHex] does. *)
Definition decode_object_id (env_name : string) : outcome string ObjectID :=
  decode_byte_array prefixed_hex 32 env_name.
End utils.

(** ** Options *)
Inductive ClientKeyType : Type :=
  | Derived (derivation_index : N)
  | Imported (env_var : string)
  | Exported (deprecated_derivation_index : N).

Record ClientConfig : Type := mkClientConfig {
  cc_name : string;
  cc_client_master_key : ClientKeyType;
  cc_key_server_object_id : ObjectID;
  cc_package_ids : list ObjectID;
}.

Inductive CommitteeMode : Type :=
  | ActiveMode
  | RotationMode (target_version : N).

Inductive ServerMode : Type :=
  | OpenServer (key_server_object_id : ObjectID)
  | PermissionedServer (client_configs : list ClientConfig)
  | CommitteeServerMode (member_address key_server_obj_id : Address)
      (committee_state : CommitteeMode) (server_name : string).

Record MetricsPushConfig : Type := mkMetricsPushConfig {
  mp_bearer_token : string;
  mp_push_url : string;
  mp_push_interval : Duration;
  mp_labels : option (gmap string string);
}.

Section options.
  Context {semver : SemVer} {sui : SuiTypes} {profile : BuildProfile}.

Record KeyServerOptions : Type := mkKeyServerOptions {
  ko_network : Network;
  ko_node_url : option string;
  ko_server_mode : ServerMode;
  ko_ts_sdk_version_requirement : VersionReq;
  ko_rust_sdk_version_requirement : VersionReq;
  ko_aggregator_version_requirement : VersionReq;
  ko_metrics_host_port : N;
  ko_rgp_update_interval : Duration;
  ko_allowed_staleness : Duration;
  ko_session_key_ttl_max : Duration;
  ko_rpc_config : RpcConfig;
  ko_metrics_push_config : option MetricsPushConfig;
  ko_enable_event_monitoring : bool;
}.

#[global] Instance KeyServerOptions_network : NetworkConfig KeyServerOptions := {
  network_of := ko_network;
  node_url_option := ko_node_url;
}.

Definition default_rgp_update_interval : Duration := duration_from_secs 60.
Definition default_session_key_ttl_max {E : Type} : outcome E Duration := from_mins 30.
Definition default_allowed_staleness {E : Type} : outcome E Duration := from_mins 2.
Definition default_metrics_host_port : N := 9184.
Definition default_enable_event_monitoring : bool := true.
Definition default_ts_sdk_version_requirement {E : Type} : outcome E VersionReq :=
  expect (req_parse ">=0.4.5").
Definition default_aggregator_version_requirement {E : Type} : outcome E VersionReq :=
  expect (req_parse ">=0.6.2").
Definition default_rust_sdk_version_requirement {E : Type} : outcome E VersionReq :=
  expect (req_parse ">=0.0.0").

Definition new_open_server_with_default_values {E : Type} (network : Network)
    (key_server_object_id : ObjectID) : outcome E KeyServerOptions :=
  ts ← default_ts_sdk_version_requirement;
  aggregator ← default_aggregator_version_requirement;
  rust ← default_rust_sdk_version_requirement;
  staleness ← default_allowed_staleness;
  ttl ← default_session_key_ttl_max;
  Ok {| ko_network := network; ko_node_url := None;
        ko_server_mode := OpenServer key_server_object_id;
        ko_ts_sdk_version_requirement := ts;
        ko_rust_sdk_version_requirement := rust;
        ko_aggregator_version_requirement := aggregator;
        ko_metrics_host_port := default_metrics_host_port;
        ko_rgp_update_interval := default_rgp_update_interval;
        ko_allowed_staleness := staleness;
        ko_session_key_ttl_max := ttl;
        ko_rpc_config := default_rpc_config;
        ko_metrics_push_config := None;
        ko_enable_event_monitoring := default_enable_event_monitoring |}.

(** The four sets that [validate] fills. *)
Record Seen : Type := mkSeen {
  seen_names : gset string;
  seen_derivation_indices : gset N;
  seen_env_vars : gset string;
  seen_obj_ids : gset ObjectID;
}.

(** [HashSet::insert] returns whether the element was new. *)
Definition insert_new {A : Type} `{Countable A} (x : A) (s : gset A) (error : string) :
    outcome string (gset A) :=
  if bool_decide (x ∈ s) then Err error else Ok ({[x]} ∪ s).

Fixpoint insert_packages (obj_ids : gset ObjectID) (package_ids : list ObjectID) :
    outcome string (gset ObjectID) :=
  match package_ids with
  | [] => Ok obj_ids
  | pkg_id :: package_ids =>
      obj_ids ← insert_new pkg_id obj_ids ("Duplicate package ID: " +:+ address_to_string pkg_id);
      insert_packages obj_ids package_ids
  end.

Definition validate_config (seen : Seen) (config : ClientConfig) : outcome string Seen :=
  let '(mkSeen names derivation_indices env_vars obj_ids) := seen in
  if bool_decide (cc_package_ids config = []) then
    Err ("Client configuration must have at least one package ID: " +:+ cc_name config)
  else
    names ← insert_new (cc_name config) names ("Duplicate client name: " +:+ cc_name config);
    '(derivation_indices, env_vars) ←
      match cc_client_master_key config with
      | Derived derivation_index | Exported derivation_index =>
          derivation_indices ← insert_new derivation_index derivation_indices
            ("Duplicate derivation index: " +:+ pretty derivation_index);
          Ok (derivation_indices, env_vars)
      | Imported env_var =>
          env_vars ← insert_new env_var env_vars
            ("Duplicate environment variable: " +:+ env_var);
          Ok (derivation_indices, env_vars)
      end;
    obj_ids ← insert_new (cc_key_server_object_id config) obj_ids
      ("Duplicate key server object ID: "
         +:+ address_to_string (cc_key_server_object_id config));
    obj_ids ← insert_packages obj_ids (cc_package_ids config);
    Ok (mkSeen names derivation_indices env_vars obj_ids).

Fixpoint validate_configs (seen : Seen) (configs : list ClientConfig) : outcome string Seen :=
  match configs with
  | [] => Ok seen
  | config :: configs => seen ← validate_config seen config; validate_configs seen configs
  end.

Definition validate (self : KeyServerOptions) : outcome string unit :=
  match ko_server_mode self with
  | PermissionedServer client_configs =>
      seen ← validate_configs (mkSeen ∅ ∅ ∅ ∅) client_configs;
      let derivation_indices := seen_derivation_indices seen in
      if existsb (λ derivation_index,
           negb (bool_decide (N.of_nat derivation_index ∈ derivation_indices)))
           (seq 0 (size derivation_indices))
      then Err "Derivation indexes must be incremental, starting from 0"
      else Ok ()
  | _ => Ok ()
  end.

Definition has_live_key (c : ClientConfig) : bool :=
  match cc_client_master_key c with Derived _ | Imported _ => true | Exported _ => false end.

Definition get_supported_key_server_object_ids (self : KeyServerOptions) : list ObjectID :=
  match ko_server_mode self with
  | OpenServer key_server_object_id => [key_server_object_id]
  | PermissionedServer client_configs =>
      cc_key_server_object_id <$> List.filter has_live_key client_configs
  | CommitteeServerMode _ key_server_obj_id _ _ => [key_server_obj_id]
  end.
End options.

(** ** What [validate] accepts *)
Section theory.
  Context {semver : SemVer} {sui : SuiTypes}.

Definition derivation_index_of (c : ClientConfig) : option N :=
  match cc_client_master_key c with
  | Derived i | Exported i => Some i
  | Imported _ => None
  end.

Definition env_var_of (c : ClientConfig) : option string :=
  match cc_client_master_key c with Imported v => Some v | _ => None end.

Definition object_ids (c : ClientConfig) : list ObjectID :=
  cc_key_server_object_id c :: cc_package_ids c.

(** The six documented rules, and that key server object ids are unique too. *)
Definition valid_configs (configs : list ClientConfig) : Prop :=
  Forall (λ c, cc_package_ids c ≠ []) configs ∧
  NoDup (concat (object_ids <$> configs)) ∧
  NoDup (cc_name <$> configs) ∧
  omap derivation_index_of configs ≡ₚ
    (N.of_nat <$> seq 0 (length (omap derivation_index_of configs))) ∧
  NoDup (omap env_var_of configs).

(** [validate_configs] on fresh elements. *)
Definition fresh {A : Type} `{Countable A} (s : gset A) (l : list A) : Prop :=
  NoDup l ∧ ∀ x, x ∈ l → x ∉ s.

Lemma fresh_nil {A : Type} `{Countable A} (s : gset A) : fresh s [].
Proof. split; [constructor|set_solver]. Qed.

Lemma fresh_cons {A : Type} `{Countable A} (s : gset A) x l :
  fresh s (x :: l) ↔ x ∉ s ∧ fresh ({[x]} ∪ s) l.
Proof. unfold fresh. rewrite NoDup_cons. split; [set_solver|].
  intros (? & ? & Hl). split_and!; [|done|]; [intros Hx; apply Hl in Hx; set_solver|set_solver].
Qed.

Lemma fresh_app {A : Type} `{Countable A} (s : gset A) l l' :
  fresh s (l ++ l') ↔ fresh s l ∧ fresh (list_to_set l ∪ s) l'.
Proof.
  revert s. induction l as [|x l IH]; intros s; simpl.
  - rewrite (left_id_L ∅ _). split; [split; [apply fresh_nil|done]|by intros [_ ?]].
  - rewrite !fresh_cons, IH.
    replace (list_to_set l ∪ ({[x]} ∪ s)) with ({[x]} ∪ list_to_set l ∪ s) by set_solver.
    tauto.
Qed.

Lemma insert_new_cases {A : Type} `{Countable A} (x : A) (s : gset A) e :
  (x ∉ s ∧ insert_new x s e = Ok ({[x]} ∪ s)) ∨ (x ∈ s ∧ insert_new x s e = Err e).
Proof. unfold insert_new. case_bool_decide; auto. Qed.

Lemma insert_packages_cases s l :
  (fresh s l ∧ insert_packages s l = Ok (list_to_set l ∪ s)) ∨
  (¬ fresh s l ∧ ∃ e, insert_packages s l = Err e).
Proof.
  revert s. induction l as [|x l IH]; intros s; simpl.
  { left. split; [apply fresh_nil|]. by rewrite (left_id_L ∅ _). }
  rewrite fresh_cons. destruct (insert_new_cases x s
    ("Duplicate package ID: " +:+ address_to_string x)) as [[Hx ->]|[Hx ->]]; simpl.
  2: { right. split; [naive_solver|eauto]. }
  destruct (IH ({[x]} ∪ s)) as [[Hf ->]|[Hf [e ->]]]; simpl.
  - left. split; [done|]. f_equal. set_solver.
  - right. split; [naive_solver|eauto].
Qed.

Definition config_fresh (seen : Seen) (c : ClientConfig) : Prop :=
  cc_package_ids c ≠ [] ∧ fresh (seen_names seen) [cc_name c] ∧
  fresh (seen_derivation_indices seen) (option_list (derivation_index_of c)) ∧
  fresh (seen_env_vars seen) (option_list (env_var_of c)) ∧
  fresh (seen_obj_ids seen) (object_ids c).

Definition see (seen : Seen) (c : ClientConfig) : Seen :=
  mkSeen (list_to_set [cc_name c] ∪ seen_names seen)
    (list_to_set (option_list (derivation_index_of c)) ∪ seen_derivation_indices seen)
    (list_to_set (option_list (env_var_of c)) ∪ seen_env_vars seen)
    (list_to_set (object_ids c) ∪ seen_obj_ids seen).

Lemma validate_config_cases seen c :
  (config_fresh seen c ∧ validate_config seen c = Ok (see seen c)) ∨
  (¬ config_fresh seen c ∧ ∃ e, validate_config seen c = Err e).
Proof.
  destruct seen as [names ds vs ids]. unfold config_fresh, see, validate_config.
  cbn [seen_names seen_derivation_indices seen_env_vars seen_obj_ids].
  case_bool_decide as Hp; [right; split; [naive_solver|eauto]|].
  rewrite fresh_cons.
  edestruct (insert_new_cases (cc_name c) names) as [[Hn ->]|[Hn ->]]; simpl;
    [|right; split; [naive_solver|eauto]].
  assert ((fresh ds (option_list (derivation_index_of c)) ∧
      fresh vs (option_list (env_var_of c)) ∧
      match cc_client_master_key c with
      | Derived i | Exported i =>
          ds ← insert_new i ds ("Duplicate derivation index: " +:+ pretty i); Ok (ds, vs)
      | Imported v =>
          vs ← insert_new v vs ("Duplicate environment variable: " +:+ v); Ok (ds, vs)
      end = Ok (list_to_set (option_list (derivation_index_of c)) ∪ ds,
                list_to_set (option_list (env_var_of c)) ∪ vs)) ∨
    (¬ (fresh ds (option_list (derivation_index_of c)) ∧
        fresh vs (option_list (env_var_of c))) ∧ ∃ e,
      match cc_client_master_key c with
      | Derived i | Exported i =>
          ds ← insert_new i ds ("Duplicate derivation index: " +:+ pretty i); Ok (ds, vs)
      | Imported v =>
          vs ← insert_new v vs ("Duplicate environment variable: " +:+ v); Ok (ds, vs)
      end = Err (A := gset N * gset string) e)) as Hk.
  { unfold derivation_index_of, env_var_of.
    destruct (cc_client_master_key c) as [i|v|i]; simpl; rewrite fresh_cons.
    1, 3: destruct (insert_new_cases i ds ("Duplicate derivation index: " +:+ pretty i))
      as [[Hi ->]|[Hi ->]]; simpl.
    5: destruct (insert_new_cases v vs ("Duplicate environment variable: " +:+ v))
      as [[Hi ->]|[Hi ->]]; simpl.
    all: try (right; split; [naive_solver|by eauto]).
    all: left; rewrite ?(left_id_L ∅ _), ?(right_id_L ∅ _); split_and!;
      auto using fresh_nil. }
  destruct Hk as [(Hd & Hv & ->)|[Hdv [e ->]]]; simpl;
    [|right; split; [naive_solver|eauto]].
  unfold object_ids. rewrite fresh_cons. simpl.
  edestruct (insert_new_cases (cc_key_server_object_id c) ids) as [[Ho ->]|[Ho ->]]; simpl;
    [|right; split; [naive_solver|eauto]].
  destruct (insert_packages_cases ({[cc_key_server_object_id c]} ∪ ids) (cc_package_ids c))
    as [[Hf ->]|[Hf [e ->]]]; simpl; [|right; split; [naive_solver|eauto]].
  left. split; [split_and!; auto using fresh_nil|]. do 2 f_equal; set_solver.
Qed.

Definition all_fresh (seen : Seen) (configs : list ClientConfig) : Prop :=
  Forall (λ c, cc_package_ids c ≠ []) configs ∧
  fresh (seen_names seen) (cc_name <$> configs) ∧
  fresh (seen_derivation_indices seen) (omap derivation_index_of configs) ∧
  fresh (seen_env_vars seen) (omap env_var_of configs) ∧
  fresh (seen_obj_ids seen) (concat (object_ids <$> configs)).

Lemma omap_cons_option {A B : Type} (f : A → option B) a l :
  omap f (a :: l) = option_list (f a) ++ omap f l.
Proof. csimpl. by destruct (f a). Qed.

Lemma all_fresh_cons seen c configs :
  all_fresh seen (c :: configs) ↔ config_fresh seen c ∧ all_fresh (see seen c) configs.
Proof.
  unfold all_fresh, config_fresh, see.
  cbn [seen_names seen_derivation_indices seen_env_vars seen_obj_ids].
  rewrite Forall_cons, !omap_cons_option, !fresh_app.
  change (cc_name <$> c :: configs) with ([cc_name c] ++ (cc_name <$> configs)).
  change (concat (object_ids <$> c :: configs))
    with (object_ids c ++ concat (object_ids <$> configs)).
  rewrite !fresh_app. tauto.
Qed.

Lemma validate_configs_cases seen configs :
  (all_fresh seen configs ∧ ∃ seen', validate_configs seen configs = Ok seen' ∧
     seen_derivation_indices seen'
     = list_to_set (omap derivation_index_of configs) ∪ seen_derivation_indices seen) ∨
  (¬ all_fresh seen configs ∧ ∃ e, validate_configs seen configs = Err e).
Proof.
  revert seen. induction configs as [|c configs IH]; intros seen; cbn [validate_configs].
  { left. split; [|exists seen; split; [done|]; csimpl; by rewrite (left_id_L ∅ _)].
    split_and!; auto using fresh_nil. }
  rewrite all_fresh_cons.
  destruct (validate_config_cases seen c) as [[Hc ->]|[Hc [e ->]]];
    unfold mbind, outcome_bind; [|right; split; [naive_solver|eauto]].
  destruct (IH (see seen c)) as [(Hf & seen' & -> & Hd)|[Hf [e ->]]];
    [|right; split; [naive_solver|eauto]].
  left. split; [done|]. exists seen'. split; [done|]. rewrite Hd, omap_cons_option.
  unfold see. cbn [seen_derivation_indices]. rewrite list_to_set_app_L. set_solver.
Qed.

Lemma incremental_permutation (l : list N) :
  NoDup l →
  existsb (λ i, negb (bool_decide (N.of_nat i ∈ (list_to_set l : gset N))))
    (seq 0 (size (list_to_set l : gset N))) = false ↔
  l ≡ₚ (N.of_nat <$> seq 0 (length l)).
Proof.
  intros Hnd. rewrite size_list_to_set by done.
  rewrite <-not_true_iff_false, existsb_exists. split.
  - intros Hno. symmetry. apply NoDup_Permutation_bis.
    + apply NoDup_ListNoDup, NoDup_fmap_2; [apply _|apply NoDup_seq].
    + by rewrite length_fmap, length_seq.
    + intros x Hx. apply list_elem_of_In in Hx.
      apply list_elem_of_fmap in Hx as (i & -> & Hi).
      apply list_elem_of_In. destruct (decide (N.of_nat i ∈ l)) as [|Hn]; [done|].
      destruct Hno. exists i. split; [by apply list_elem_of_In|].
      rewrite bool_decide_eq_false_2; [done|]. by rewrite elem_of_list_to_set.
  - intros Hp (i & Hi & Hb). apply list_elem_of_In in Hi.
    assert (N.of_nat i ∈ l) as Hin by (rewrite Hp; by apply list_elem_of_fmap_2).
    rewrite bool_decide_eq_true_2 in Hb; [done|]. by rewrite elem_of_list_to_set.
Qed.

Lemma fresh_empty {A : Type} `{Countable A} (l : list A) : fresh ∅ l ↔ NoDup l.
Proof. unfold fresh. set_solver. Qed.

Lemma validate_iff (self : KeyServerOptions) :
  match ko_server_mode self with
  | PermissionedServer configs =>
      (validate self = Ok () ∧ valid_configs configs) ∨
      ((∃ e, validate self = Err e) ∧ ¬ valid_configs configs)
  | _ => validate self = Ok ()
  end.
Proof.
  unfold validate. destruct (ko_server_mode self) as [|configs|]; [done| |done].
  assert (valid_configs configs ↔ all_fresh (mkSeen ∅ ∅ ∅ ∅) configs ∧
    omap derivation_index_of configs ≡ₚ
      (N.of_nat <$> seq 0 (length (omap derivation_index_of configs)))) as ->.
  { unfold valid_configs, all_fresh.
    cbn [seen_names seen_derivation_indices seen_env_vars seen_obj_ids].
    rewrite !fresh_empty. split; [|tauto]. intros (? & ? & ? & Hp & ?).
    split_and!; try done. rewrite Hp. apply NoDup_fmap_2; [apply _|apply NoDup_seq]. }
  destruct (validate_configs_cases (mkSeen ∅ ∅ ∅ ∅) configs)
    as [(Hf & seen' & -> & Hd)|[Hf [e ->]]]; simpl; [|right; split; [eauto|tauto]].
  cbn [seen_derivation_indices] in Hd. rewrite (right_id_L ∅ _) in Hd.
  pose proof Hf as (_ & _ & [Hnd _] & _ & _).
  pose proof (incremental_permutation _ Hnd) as Hinc. rewrite <-Hd in Hinc.
  destruct (existsb _ _).
  - right. split; [eauto|]. intros [_ Hp]. by apply Hinc in Hp.
  - left. split; [done|]. split; [done|]. by apply Hinc.
Qed.

(** ** Properties *)

(** [validate] accepts a permissioned configuration exactly when every
    client has a package, all object ids (of key servers and of packages) are
    distinct, client names and environment variables are distinct, and the
    derivation indices, those of exported keys included, are [0..n-1] in some
    order. It accepts every open and committee configuration. *)
Theorem validate_exact (self : KeyServerOptions) :
  validate self ≠ Panic ∧
  (validate self = Ok () ↔
   match ko_server_mode self with
   | PermissionedServer configs =>
       Forall (λ c, cc_package_ids c ≠ []) configs ∧
       NoDup (concat (object_ids <$> configs)) ∧
       NoDup (cc_name <$> configs) ∧
       omap derivation_index_of configs ≡ₚ
         (N.of_nat <$> seq 0 (length (omap derivation_index_of configs))) ∧
       NoDup (omap env_var_of configs)
   | _ => True
   end).
Proof.
  pose proof (validate_iff self) as Hv. destruct (ko_server_mode self); [by rewrite Hv| |by rewrite Hv].
  destruct Hv as [[-> Hv]|[[e ->] Hv]]; split; try done.
Qed.
End theory.
