(* ===== verification/MasterKeys.v ===== *)
(** * Master keys and committee rotation ([crates/key-server/src/master_keys.rs])

    The key material of a server in its three modes, how it is loaded from the
    environment, and which key answers for a package or a key server. In
    committee mode, the committee version is shared with a background task
    ([Server::spawn_committee_version_updater] in [server.rs], modelled at the
    end) and decides between the two shares of a rotation. *)

From Stdlib Require Import NArith Lia.
From stdpp Require Import pretty.
From S2P Require Import Prelude Primitives Ibe Common Chain RpcClient Options.

Definition MASTER_KEY_ENV_VAR : string := "MASTER_KEY".

Section master_keys.
  Context {env : Environment} {encs : Encodings} {sym : Symmetric} {crv : Curve}
    {semver : SemVer} {profile : BuildProfile}.

Definition load_master_share (version : N) : outcome string MasterKey :=
  map_err (λ e, "Expected MASTER_SHARE_V" +:+ pretty version +:+ ": " +:+ e)
    (decode_master_key prefixed_hex ("MASTER_SHARE_V" +:+ pretty version)).

Inductive CommitteeKeyState : Type :=
  | KeyActive (master_share : MasterKey)
  | KeyRotation (master_share : option MasterKey) (next_master_share : MasterKey)
      (target_version : N).

(** The committee version itself is an atomic that the server shares with its
    background task: [load] gives its initial value, the operations read it. *)
Inductive MasterKeys : Type :=
  | MKOpen (master_key : MasterKey)
  | MKPermissioned (pkg_id_to_key key_server_oid_to_key : gmap ObjectID MasterKey)
  | MKCommittee (key_state : CommitteeKeyState).

(** [u32::checked_add(1)] and [checked_sub(1)]. *)
Definition checked_succ (n : N) : option N :=
  if (n + 1 <? 2 ^ 32)%N then Some (n + 1)%N else None.
Definition checked_pred (n : N) : option N :=
  if (n =? 0)%N then None else Some (n - 1)%N.

Definition load_committee_key_state (committee_state : CommitteeMode) (committee_version : N) :
    outcome string CommitteeKeyState :=
  match committee_state with
  | ActiveMode =>
      match load_master_share committee_version with
      | Ok master_share => Ok (KeyActive master_share)
      | Panic => Panic
      | Err _ =>
          target ← ok_or (checked_succ committee_version)
            "Invalid committee version: cannot infer next version";
          next_master_share ← load_master_share target;
          Ok (KeyRotation None next_master_share target)
      end
  | RotationMode target =>
      if (target =? 0)%N then Err "Invalid rotation config: target_version cannot be 0"
      else if (committee_version =? target)%N then
        master_share ← load_master_share target;
        Ok (KeyActive master_share)
      else if bool_decide (Some committee_version = checked_pred target) then
        let master_share :=
          match load_master_share committee_version with Ok s => Some s | _ => None end in
        next_master_share ← load_master_share target;
        Ok (KeyRotation master_share next_master_share target)
      else Err ("Rotation mode mismatch: version " +:+ pretty committee_version
             +:+ " doesn't match " +:+ pretty (target - 1)%N +:+ " or " +:+ pretty target)
  end.

(** The master key of a client, [None] for an exported one. *)
Definition client_master_key (seed : list byte) (config : ClientConfig) :
    outcome string (option MasterKey) :=
  match cc_client_master_key config with
  | Derived derivation_index => key ← derive_master_key seed derivation_index; Ok (Some key)
  | Imported env_var => key ← decode_master_key prefixed_hex env_var; Ok (Some key)
  | Exported _ => Ok None
  end.

Fixpoint load_clients (seed : list byte)
    (maps : gmap ObjectID MasterKey * gmap ObjectID MasterKey) (configs : list ClientConfig) :
    outcome string (gmap ObjectID MasterKey * gmap ObjectID MasterKey) :=
  match configs with
  | [] => Ok maps
  | config :: configs =>
      master_key ← client_master_key seed config;
      match master_key with
      | None => load_clients seed maps configs
      | Some master_key =>
          let pkg_id_to_key :=
            fold_left (λ m pkg_id, <[pkg_id := master_key]> m) (cc_package_ids config) maps.1 in
          let key_server_oid_to_key :=
            <[cc_key_server_object_id config := master_key]> maps.2 in
          load_clients seed (pkg_id_to_key, key_server_oid_to_key) configs
      end
  end.

(** Logging derives the next ten keys; it fails where the arithmetic or the
    derivation panics. *)
Definition log_unassigned_public_keys (client_configs : list ClientConfig) (seed : list byte) :
    outcome string unit :=
  let indices := omap derivation_index_of client_configs in
  next_free_derivation_index ←
    match indices with
    | [] => Ok 0%N
    | i :: rest => checked_arith 64 (fold_left N.max rest i + 1)
    end;
  try_for (λ i,
    index ← checked_arith 64 (next_free_derivation_index + N.of_nat i);
    key ← derive_master_key seed index; Ok ()) (seq 0 10).

Definition load (options : KeyServerOptions) (committee_version : option N) :
    outcome string MasterKeys :=
  match ko_server_mode options with
  | OpenServer _ =>
      master_key ←
        match decode_master_key prefixed_hex MASTER_KEY_ENV_VAR with
        | Ok master_key => Ok master_key
        | Panic => Panic
        | Err _ => decode_master_key base64 MASTER_KEY_ENV_VAR
        end;
      Ok (MKOpen master_key)
  | CommitteeServerMode _ _ committee_state _ =>
      committee_version ← expect committee_version;
      key_state ← load_committee_key_state committee_state committee_version;
      Ok (MKCommittee key_state)
  | PermissionedServer client_configs =>
      seed ← decode_byte_array prefixed_hex SEED_LENGTH MASTER_KEY_ENV_VAR;
      maps ← load_clients seed (∅, ∅) client_configs;
      _ ← log_unassigned_public_keys client_configs seed;
      if bool_decide (maps.1 = ∅) then Err "No clients found in the configuration"
      else Ok (MKPermissioned maps.1 maps.2)
  end.

(** [committee_version] is the value the atomic has when it is read. *)
Definition get_committee_server_master_share (self : MasterKeys) (committee_version : N) :
    outcome InternalError MasterKey :=
  match self with
  | MKCommittee key_state =>
      match key_state with
      | KeyActive master_share => Ok master_share
      | KeyRotation master_share next_master_share target_version =>
          let current_version := committee_version in
          if (current_version =? target_version)%N then Ok next_master_share
          else if bool_decide (checked_succ current_version = Some target_version) then
            match master_share with
            | Some old_share => Ok old_share
            | None => Err (Failure ("Rotation in progress: onchain version is "
                +:+ pretty current_version +:+ ", target is " +:+ pretty target_version
                +:+ ". Cannot serve traffic without old share."))
            end
          else Err (Failure ("Invalid rotation state: onchain version is "
              +:+ pretty current_version +:+ ", target is " +:+ pretty target_version +:+ "."))
      end
  | _ => Err (Failure "Invalid server type")
  end.

Definition get_key_for_package (self : MasterKeys) (committee_version : N)
    (package_id : ObjectID) : outcome InternalError MasterKey :=
  match self with
  | MKOpen master_key => Ok master_key
  | MKCommittee _ => get_committee_server_master_share self committee_version
  | MKPermissioned pkg_id_to_key _ =>
      ok_or (pkg_id_to_key !! package_id) UnsupportedPackageId
  end.

Definition has_key_for_package (self : MasterKeys) (committee_version : N) (id : ObjectID) :
    outcome InternalError unit :=
  (λ _, ()) <$> get_key_for_package self committee_version id.

Definition get_key_for_key_server (self : MasterKeys) (committee_version : N)
    (key_server_object_id : ObjectID) : outcome InternalError MasterKey :=
  match self with
  | MKOpen master_key => Ok master_key
  | MKCommittee _ => get_committee_server_master_share self committee_version
  | MKPermissioned _ key_server_oid_to_key =>
      ok_or (key_server_oid_to_key !! key_server_object_id) InvalidServiceId
  end.

Definition get_committee_partial_pk (self : MasterKeys) (committee_version : N) :
    outcome InternalError IbePublicKey :=
  master_key ← get_committee_server_master_share self committee_version;
  Ok (public_key_from_master_key master_key).
End master_keys.

(** ** The background task that follows the on-chain version *)
Section updater.
  Context {crv : Curve}.

(** What the version monitor does with one value from the channel. The
    partial public key on chain is fetched when the target is reached
    ([fetch_and_validate_committee_partial_pk]); the monitor ends, goes on,
    or panics. *)
Inductive MonitorOutcome : Type :=
  | Completed (committee_version : N)
  | Continue
  | MonitorPanic.

Definition monitor_version (target_version : N) (next_master_share : MasterKey)
    (onchain_partial_pk : option IbePublicKey) (received : N) : MonitorOutcome :=
  let version := (received `mod` 2 ^ 32)%N in
  if (version =? target_version)%N then
    match onchain_partial_pk with
    | Some pk =>
        if bool_decide (public_key_from_master_key next_master_share = pk)
        then Completed target_version else MonitorPanic
    | None => MonitorPanic
    end
  else if bool_decide (checked_succ version = Some target_version) then Continue
  else MonitorPanic.

(** The state of the task: running or stopped, and the shared version. *)
Inductive TaskState : Type :=
  | Running (committee_version : N)
  | Finished (committee_version : N)
  | Panicked (committee_version : N).

Definition task_version (s : TaskState) : N :=
  match s with Running v | Finished v | Panicked v => v end.

(** A step handles one received version; the channel delivers any sequence of
    them, with any answer of the full node. *)
Inductive monitor_step (target_version : N) (next_master_share : MasterKey) :
    TaskState → TaskState → Prop :=
  | step_complete v received pk v' :
      monitor_version target_version next_master_share pk received = Completed v' →
      monitor_step target_version next_master_share (Running v) (Finished v')
  | step_continue v received pk :
      monitor_version target_version next_master_share pk received = Continue →
      monitor_step target_version next_master_share (Running v) (Running v)
  | step_panic v received pk :
      monitor_version target_version next_master_share pk received = MonitorPanic →
      monitor_step target_version next_master_share (Running v) (Panicked v).

(** [spawn_committee_version_updater] starts the task only in a rotation that
    is not complete. *)
Definition updater_spawned (key_state : CommitteeKeyState) (current_version : N) : bool :=
  match key_state with
  | KeyRotation _ _ target_version => negb (current_version =? target_version)%N
  | KeyActive _ => false
  end.

(** The versions a server can read after loading with [initial]. *)
Definition reachable_version (key_state : CommitteeKeyState) (initial v : N) : Prop :=
  match key_state with
  | KeyRotation _ next_master_share target_version =>
      if updater_spawned key_state initial then
        ∃ s, rtc (monitor_step target_version next_master_share) (Running initial) s ∧
             task_version s = v
      else v = initial
  | KeyActive _ => v = initial
  end.
End updater.

(** ** Lemmas *)
Section theory.
  Context {env : Environment} {encs : Encodings} {sym : Symmetric} {crv : Curve}
    {semver : SemVer} {sui : SuiTypes} {profile : BuildProfile}.

Lemma insert_all_lookup (l : list ObjectID) (key : MasterKey) (m : gmap ObjectID MasterKey) p k :
  fold_left (λ m pkg_id, <[pkg_id := key]> m) l m !! p = Some k ↔
  (p ∈ l ∧ k = key) ∨ (p ∉ l ∧ m !! p = Some k).
Proof.
  revert m. induction l as [|x l IH]; intros m; simpl; [set_solver|].
  rewrite IH, elem_of_cons. destruct (decide (p = x)) as [->|Hne].
  - rewrite lookup_insert_eq. destruct (decide (x ∈ l)); naive_solver.
  - rewrite lookup_insert_ne by done. naive_solver.
Qed.

(** An entry of the maps comes from the client that lists it, or was there
    before and belongs to no client with a key. *)
Lemma load_clients_spec seed maps configs maps' :
  NoDup (concat (object_ids <$> configs)) →
  load_clients seed maps configs = Ok maps' →
  (∀ c, c ∈ configs → ∃ o, client_master_key seed c = Ok o) ∧
  (∀ p k, maps'.1 !! p = Some k ↔
     (∃ c, c ∈ configs ∧ p ∈ cc_package_ids c ∧ client_master_key seed c = Ok (Some k)) ∨
     (maps.1 !! p = Some k ∧
      ∀ c, c ∈ configs → p ∈ cc_package_ids c → client_master_key seed c = Ok None)) ∧
  (∀ i k, maps'.2 !! i = Some k ↔
     (∃ c, c ∈ configs ∧ i = cc_key_server_object_id c ∧
           client_master_key seed c = Ok (Some k)) ∨
     (maps.2 !! i = Some k ∧
      ∀ c, c ∈ configs → i = cc_key_server_object_id c →
           client_master_key seed c = Ok None)).
Proof.
  revert maps. induction configs as [|c configs IH]; intros maps Hnd Hl.
  { simpl in Hl. injection Hl as ->.
    split_and!; [set_solver|intros p k; set_solver|intros i k; set_solver]. }
  cbn [load_clients] in Hl. apply bind_ok_inv in Hl as (o & Ho & Hl).
  change (concat (object_ids <$> c :: configs))
    with (object_ids c ++ concat (object_ids <$> configs)) in Hnd.
  apply NoDup_app in Hnd as (Hndc & Hdis & Hnd).
  assert (∀ c', c' ∈ configs → ∀ x, x ∈ object_ids c' → x ∉ object_ids c) as Hd.
  { intros c' Hc' x Hx Hxc. apply (Hdis x Hxc). apply list_elem_of_In, in_concat.
    exists (object_ids c'). split; apply list_elem_of_In; [|done].
    by apply list_elem_of_fmap_2. }
  assert (∀ c' p, c' ∈ configs → p ∈ cc_package_ids c' → p ∉ cc_package_ids c) as Hdp.
  { intros c' p Hc' Hp Hpc. apply (Hd c' Hc' p); by right. }
  assert (∀ c', c' ∈ configs → cc_key_server_object_id c ≠ cc_key_server_object_id c') as Hdi.
  { intros c' Hc' He. apply (Hd c' Hc' (cc_key_server_object_id c')); [by left|].
    rewrite <-He. by left. }
  destruct o as [key|]; apply IH in Hl as (Hall & H1 & H2); try done; clear IH.
  - split_and!.
    + intros c' [->|Hc']%elem_of_cons; eauto.
    + intros p k. rewrite H1. cbn [fst]. rewrite insert_all_lookup. split.
      * intros [(c' & Hc' & Hp & Hk)|[[[Hp ->]|[Hp Hm]] Hno]].
        -- left. exists c'. by split_and!; [right|..].
        -- left. exists c. by split_and!; [left|..].
        -- right. split; [done|]. intros c' [->|Hc']%elem_of_cons Hpc; [done|by apply Hno].
      * intros [(c' & [->|Hc']%elem_of_cons & Hp & Hk)|[Hm Hno]].
        -- right. split; [left; split; [done|congruence]|].
           intros c' Hc' Hp'. by destruct (Hdp c' p Hc' Hp').
        -- left. by exists c'.
        -- right. split; [|intros c' Hc'; apply Hno; by right].
           right. split; [|done]. intros Hp.
           specialize (Hno c ltac:(by left) Hp). congruence.
    + intros i k. rewrite H2. cbn [snd].
      destruct (decide (i = cc_key_server_object_id c)) as [->|Hne].
      * rewrite lookup_insert_eq. split.
        -- intros [(c' & Hc' & He & Hk)|[[= ->] Hno]].
           ++ by destruct (Hdi c' Hc').
           ++ left. exists c. by split_and!; [left|..].
        -- intros [(c' & [->|Hc']%elem_of_cons & He & Hk)|[Hm Hno]].
           ++ right. split; [congruence|]. intros c' Hc' He'. by destruct (Hdi c' Hc').
           ++ by destruct (Hdi c' Hc').
           ++ specialize (Hno c ltac:(by left) eq_refl). congruence.
      * rewrite lookup_insert_ne by done. split.
        -- intros [(c' & Hc' & He & Hk)|[Hm Hno]].
           ++ left. exists c'. by split_and!; [right|..].
           ++ right. split; [done|]. intros c' [->|Hc']%elem_of_cons He; [done|by apply Hno].
        -- intros [(c' & [->|Hc']%elem_of_cons & He & Hk)|[Hm Hno]]; [done|left; by exists c'|].
           right. split; [done|]. intros c' Hc'. apply Hno. by right.
  - split_and!.
    + intros c' [->|Hc']%elem_of_cons; eauto.
    + intros p k. rewrite H1. split.
      * intros [(c' & Hc' & Hp & Hk)|[Hm Hno]].
        -- left. exists c'. by split_and!; [right|..].
        -- right. split; [done|]. intros c' [->|Hc']%elem_of_cons Hpc; [done|by apply Hno].
      * intros [(c' & [->|Hc']%elem_of_cons & Hp & Hk)|[Hm Hno]]; [congruence|left; by exists c'|].
        right. split; [done|]. intros c' Hc'. apply Hno. by right.
    + intros i k. rewrite H2. split.
      * intros [(c' & Hc' & Hp & Hk)|[Hm Hno]].
        -- left. exists c'. by split_and!; [right|..].
        -- right. split; [done|]. intros c' [->|Hc']%elem_of_cons Hpc; [done|by apply Hno].
      * intros [(c' & [->|Hc']%elem_of_cons & Hp & Hk)|[Hm Hno]]; [congruence|left; by exists c'|].
        right. split; [done|]. intros c' Hc'. apply Hno. by right.
Qed.

Lemma elem_of_object_ids_inj configs c c' x :
  NoDup (concat (object_ids <$> configs)) → c ∈ configs → c' ∈ configs →
  x ∈ object_ids c → x ∈ object_ids c' → c = c'.
Proof.
  induction configs as [|d configs IH]; intros Hnd Hc Hc' Hx Hx'; [by inversion Hc|].
  change (concat (object_ids <$> d :: configs))
    with (object_ids d ++ concat (object_ids <$> configs)) in Hnd.
  apply NoDup_app in Hnd as (_ & Hdis & Hnd).
  assert (∀ e, e ∈ configs → x ∈ object_ids e → x ∈ object_ids d → False) as Hd.
  { intros e He Hxe Hxd. apply (Hdis x Hxd). apply list_elem_of_In, in_concat.
    exists (object_ids e). split; apply list_elem_of_In; [|done]. by apply list_elem_of_fmap_2. }
  apply elem_of_cons in Hc as [->|Hc], Hc' as [->|Hc']; [done| | |by apply IH].
  - by destruct (Hd c').
  - by destruct (Hd c).
Qed.

(** What loading a valid permissioned configuration gives. *)
Lemma load_permissioned_spec options configs mk v :
  ko_server_mode options = PermissionedServer configs →
  NoDup (concat (object_ids <$> configs)) →
  load options v = Ok mk →
  ∃ seed pkgs oids, decode_byte_array prefixed_hex SEED_LENGTH MASTER_KEY_ENV_VAR = Ok seed ∧
    mk = MKPermissioned pkgs oids ∧
    ∀ c, c ∈ configs → ∃ o, client_master_key seed c = Ok o ∧
      (∀ p, p ∈ cc_package_ids c → pkgs !! p = o) ∧ oids !! cc_key_server_object_id c = o.
Proof.
  intros Hmode Hnd. unfold load. rewrite Hmode.
  intros (seed & Hseed & (maps & Hmaps & ([] & _ & Hl)%bind_ok_inv)%bind_ok_inv)%bind_ok_inv.
  case_bool_decide; [done|]. injection Hl as <-.
  exists seed, maps.1, maps.2. split_and!; [done..|]. intros c Hc.
  destruct (load_clients_spec seed (∅, ∅) configs maps Hnd Hmaps) as (Hall & H1 & H2).
  destruct (Hall c Hc) as [o Ho]. exists o. split; [done|]. split.
  - intros p Hp. apply option_eq. intros k. rewrite H1. cbn [fst]. rewrite lookup_empty. split.
    + intros [(c' & Hc' & Hp' & Hk)|[? _]]; [|done].
      assert (c = c') as <-; [|congruence].
      apply (elem_of_object_ids_inj configs c c' p); try done; by right.
    + intros ->. left. by exists c.
  - apply option_eq. intros k. rewrite H2. cbn [snd]. rewrite lookup_empty. split.
    + intros [(c' & Hc' & Hp' & Hk)|[? _]]; [|done].
      assert (c = c') as <-; [|congruence].
      apply (elem_of_object_ids_inj configs c c' (cc_key_server_object_id c)); try done;
        [by left|rewrite Hp'; by left].
    + intros ->. left. by exists c.
Qed.
End theory.

Section properties.
  Context {env : Environment} {encs : Encodings} {sym : Symmetric} {crv : Curve}
    {semver : SemVer} {sui : SuiTypes} {profile : BuildProfile}.

Lemma checked_succ_Some n m : checked_succ n = Some m ↔ m = (n + 1)%N ∧ (m < 2 ^ 32)%N.
Proof.
  unfold checked_succ. destruct (N.ltb_spec (n + 1) (2 ^ 32)).
  - split; [intros [= <-]; done|]. by intros [-> _].
  - split; [done|]. intros [-> ?]. lia.
Qed.

(** A key state that [load_committee_key_state] gives for [version]. *)
Definition state_loaded (ks : CommitteeKeyState) (version : N) : Prop :=
  match ks with
  | KeyActive s => load_master_share version = Ok s
  | KeyRotation old next target =>
      checked_succ version = Some target ∧ load_master_share target = Ok next ∧
      ∀ s, old = Some s → load_master_share version = Ok s
  end.

Lemma load_committee_key_state_spec mode version ks :
  (version < 2 ^ 32)%N →
  (match mode with ActiveMode => True | RotationMode t => (t < 2 ^ 32)%N end) →
  load_committee_key_state mode version = Ok ks → state_loaded ks version.
Proof.
  intros Hv Ht. destruct mode as [|target]; simpl.
  - destruct (load_master_share version) as [s|e|] eqn:Hs; [by intros [= <-]| |done].
    destruct (checked_succ version) as [t|] eqn:Hc; [|done]. simpl.
    destruct (load_master_share t) eqn:Hn; simpl; try done.
    intros [= <-]. simpl. by split_and!.
  - destruct (N.eqb_spec target 0); [done|]. destruct (N.eqb_spec version target) as [->|Hne].
    + destruct (load_master_share target) eqn:Hn; simpl; try done. by intros [= <-].
    + case_bool_decide as Hp; [|done].
      destruct (load_master_share target) eqn:Hn; simpl; try done.
      intros [= <-]. unfold checked_pred in Hp.
      rewrite (proj2 (N.eqb_neq _ _)) in Hp by done. injection Hp as Hp. simpl.
      split_and!; [apply checked_succ_Some; lia|done|].
      intros s. destruct (load_master_share version) eqn:Hs; [|done..]. by intros [= ->].
Qed.

(** A running task keeps the version; it changes only when the task ends. *)
Lemma monitor_versions target next v s :
  rtc (monitor_step target next) (Running v) s →
  s = Running v ∨ s = Panicked v ∨ s = Finished target.
Proof.
  intros Hr. remember (Running v) as s0 eqn:E. induction Hr as [s|s s' s'' Hs Hr IH].
  { by left. }
  subst. inversion Hs as [? ? ? ? Hm|? ? ? Hm|? ? ? Hm]; subst; [|by apply IH|].
  - inversion Hr as [|? ? ? Hs']; subst; [|inversion Hs'].
    unfold monitor_version in Hm. destruct (_ =? _)%N.
    + destruct pk; [|done]. case_bool_decide; [|done]. injection Hm as ->. by right; right.
    + by case_bool_decide.
  - inversion Hr as [|? ? ? Hs']; subst; [by right; left|inversion Hs'].
Qed.

Lemma reachable_versions ks initial v :
  reachable_version ks initial v →
  v = initial ∨ ∃ old next, ks = KeyRotation old next v.
Proof.
  destruct ks as [s|old next target]; simpl; [by left|].
  destruct (negb _); [|by left]. intros (s & Hr & <-).
  destruct (monitor_versions _ _ _ _ Hr) as [->|[->| ->]]; simpl; eauto.
Qed.

(** C7: in committee mode, the share that answers is always the one of the
    committee version that the server has: whatever versions and answers the
    background task receives, the version is the one at start-up or the target
    of the rotation, the key of a version is [MASTER_SHARE_V{version}], and
    the server refuses requests (with an internal failure, never a panic) only
    in a rotation that started without the old share and is not complete. *)
Theorem committee_share_follows_version (options : KeyServerOptions) (ma ks_id : Address)
    (mode : CommitteeMode) (name : string) (initial v : N) (key_state : CommitteeKeyState) :
  ko_server_mode options = CommitteeServerMode ma ks_id mode name →
  (initial < 2 ^ 32)%N →
  (match mode with ActiveMode => True | RotationMode t => (t < 2 ^ 32)%N end) →
  load options (Some initial) = Ok (MKCommittee key_state) →
  reachable_version key_state initial v →
  match get_committee_server_master_share (MKCommittee key_state) v with
  | Ok s => load_master_share v = Ok s
  | Err e => (∃ msg, e = Failure msg) ∧ v = initial ∧
             ∃ next target, key_state = KeyRotation None next target
  | Panic => False
  end.
Proof.
  intros Hmode Hi Ht Hload Hr. unfold load in Hload. rewrite Hmode in Hload.
  apply bind_ok_inv in Hload as (cv & [= <-] & Hload).
  apply bind_ok_inv in Hload as (ks & Hks & [= ->]).
  pose proof (load_committee_key_state_spec mode initial key_state Hi Ht Hks) as Hl.
  apply reachable_versions in Hr as [->|(old & next & ->)].
  - destruct key_state as [s|old next target]; simpl in *; [done|].
    destruct Hl as (Hc & Hn & Ho). pose proof Hc as [-> _]%checked_succ_Some.
    rewrite (proj2 (N.eqb_neq _ _)) by lia. rewrite bool_decide_eq_true_2 by done.
    destruct old as [s|]; [by apply Ho|]. split_and!; eauto.
  - simpl in *. by rewrite N.eqb_refl; destruct Hl as (_ & ? & _).
Qed.

(** A key that answered a request's first check is still there when the
    response is made, if the committee version only moved as the background
    task moves it: a package that has a key keeps one through the end of a
    rotation. *)
Theorem key_survives_rotation (key_state : CommitteeKeyState) (initial v v' : N)
    (package : ObjectID) :
  state_loaded key_state initial →
  reachable_version key_state initial v → reachable_version key_state initial v' →
  v = v' ∨ v = initial →
  has_key_for_package (MKCommittee key_state) v package = Ok () →
  ∃ k, get_key_for_package (MKCommittee key_state) v' package = Ok k.
Proof.
  intros Hl Hv Hv' Hord. unfold has_key_for_package.
  destruct (get_key_for_package (MKCommittee key_state) v package) as [k| |] eqn:Hk;
    [|done..]. intros _.
  destruct Hord as [->| ->]; [eauto|].
  apply reachable_versions in Hv' as [->|(old & next & ->)]; [eauto|].
  simpl. rewrite N.eqb_refl. eauto.
Qed.

(** In permissioned mode with a validated configuration, the loaded keys
    partition the packages among the clients: a package of a client with a
    derived or imported key answers with exactly that key, and so does the
    client's key server id; packages of exported clients and packages of no
    client are unsupported. *)
Theorem permissioned_keys (options : KeyServerOptions) (configs : list ClientConfig)
    (mk : MasterKeys) (version : option N) (current : N) :
  ko_server_mode options = PermissionedServer configs →
  validate options = Ok () → load options version = Ok mk →
  ∃ seed, decode_byte_array prefixed_hex SEED_LENGTH MASTER_KEY_ENV_VAR = Ok seed ∧
    ∀ c, c ∈ configs →
    match client_master_key seed c with
    | Ok (Some key) =>
        (∀ p, p ∈ cc_package_ids c → get_key_for_package mk current p = Ok key) ∧
        get_key_for_key_server mk current (cc_key_server_object_id c) = Ok key
    | Ok None =>
        (∀ p, p ∈ cc_package_ids c →
           get_key_for_package mk current p = Err UnsupportedPackageId) ∧
        get_key_for_key_server mk current (cc_key_server_object_id c) = Err InvalidServiceId
    | _ => False
    end.
Proof.
  intros Hmode Hval Hload. pose proof (validate_iff options) as Hv. rewrite Hmode in Hv.
  destruct Hv as [[_ (_ & Hnd & _)]|[[e He] _]]; [|congruence].
  destruct (load_permissioned_spec options configs mk version Hmode Hnd Hload)
    as (seed & pkgs & oids & Hseed & -> & Hall).
  exists seed. split; [done|]. intros c Hc. destruct (Hall c Hc) as (o & -> & Hp & Ho).
  destruct o as [key|]; simpl; rewrite Ho; split; try done;
    intros p Hin; by rewrite (Hp p Hin).
Qed.
End properties.

(** ** Witnesses *)
#[local] Existing Instances Toy.symmetric Toy.curve ToyCommon.semver ToyCommon.profile
  ToyChain.sui.

(** Every character of a variable is a byte; 32 characters make a key. *)
#[local] Instance toy_encodings : Encodings := {
  hex_decode s := Some (bytes_of s);
  hex_encode_with_format b := String.string_of_list_byte b;
  base64 := {| decode s := Some (bytes_of s);
               encode b := String.string_of_list_byte b |};
}.

Definition toy_key (b : byte) : string :=
  String.string_of_list_byte (replicate 31 u8_zero ++ [b]).

#[local] Instance toy_environment : Environment := λ name,
  if bool_decide (name = "MASTER_SHARE_V4") then Some (toy_key Byte.x04)
  else if bool_decide (name = "MASTER_SHARE_V5") then Some (toy_key Byte.x05)
  else if bool_decide (name = "MASTER_KEY") then Some (toy_key Byte.x0a)
  else if bool_decide (name = "IMPORTED") then Some (toy_key Byte.x0b)
  else None.

Definition toy_options (mode : ServerMode) : KeyServerOptions :=
  mkKeyServerOptions Testnet None mode "" "" "" 0 0 0 0 default_rpc_config None false.

Lemma committee_share_follows_version_witness :
  load_master_share (crv := Toy.curve) 5 = Ok Byte.x05.
Proof.
  set (ks := KeyRotation (crv := Toy.curve) (Some Byte.x04) Byte.x05 5).
  apply (committee_share_follows_version
    (toy_options (CommitteeServerMode [] [] (RotationMode 5) "")) [] []
    (RotationMode 5) "" 4 5 ks).
  - reflexivity.
  - reflexivity.
  - reflexivity.
  - reflexivity.
  - exists (Finished 5). split; [|reflexivity]. eapply rtc_l; [|apply rtc_refl].
    apply (step_complete 5 _ 4 5 (Some (public_key_from_master_key (crv := Toy.curve) Byte.x05))).
    vm_compute. reflexivity.
Defined.

Lemma key_survives_rotation_witness :
  ∃ k, get_key_for_package (MKCommittee (KeyRotation (crv := Toy.curve) (Some Byte.x04) Byte.x05 5)) 5 []
       = Ok k.
Proof.
  apply (key_survives_rotation (KeyRotation (crv := Toy.curve) (Some Byte.x04) Byte.x05 5) 4 4 5 []).
  - vm_compute. split_and!; [done..|]. by intros s [= <-].
  - exists (Running 4). by split; [apply rtc_refl|].
  - exists (Finished 5). split; [|reflexivity]. eapply rtc_l; [|apply rtc_refl].
    apply (step_complete 5 _ 4 5 (Some (public_key_from_master_key (crv := Toy.curve) Byte.x05))).
    vm_compute. reflexivity.
  - by right.
  - vm_compute. reflexivity.
Defined.

Definition toy_clients : list ClientConfig :=
  [mkClientConfig "alice" (Imported "IMPORTED") [Byte.x01] [[Byte.x11]; [Byte.x12]];
   mkClientConfig "bob" (Exported 0) [Byte.x02] [[Byte.x21]]].

Lemma permissioned_keys_witness :
  ∃ mk, load (toy_options (PermissionedServer toy_clients)) None = Ok mk ∧
    get_key_for_package mk 0 [Byte.x12] = Ok Byte.x0b ∧
    get_key_for_package mk 0 [Byte.x21] = Err UnsupportedPackageId.
Proof.
  assert (is_ok (load (crv := Toy.curve) (toy_options (PermissionedServer toy_clients)) None)
    = true) as Hok by (vm_compute; reflexivity).
  destruct (load (toy_options (PermissionedServer toy_clients)) None) as [mk| |] eqn:Hmk;
    [clear Hok|discriminate Hok..].
  exists mk. split; [reflexivity|].
  destruct (permissioned_keys (toy_options (PermissionedServer toy_clients)) toy_clients mk
    None 0 eq_refl ltac:(vm_compute; reflexivity) Hmk) as (seed & Hseed & Hall).
  split.
  - pose proof (Hall (mkClientConfig "alice" (Imported "IMPORTED") [Byte.x01]
      [[Byte.x11]; [Byte.x12]]) ltac:(by left)) as Ha.
    assert (client_master_key seed (mkClientConfig "alice" (Imported "IMPORTED") [Byte.x01]
      [[Byte.x11]; [Byte.x12]]) = Ok (Some Byte.x0b)) as Hk by (vm_compute; reflexivity).
    rewrite Hk in Ha. apply Ha. right. left.
  - pose proof (Hall (mkClientConfig "bob" (Exported 0) [Byte.x02] [[Byte.x21]])
      ltac:(right; left)) as Hb. simpl in Hb. apply Hb. left.
Defined.
