(* ===== verification/Mvr.v ===== *)
(** * Move Registry names ([crates/key-server/src/mvr.rs], [externals.rs])

    Resolution of a registry name to a package, and the check that the name a
    certificate carries points to the first version of the requested package,
    with its cache; the cached resolution of first package ids
    ([common.rs::fetch_first_pkg_id]). *)

From Stdlib Require Import NArith Lia.
From S2P Require Import Prelude Primitives Ibe Common Chain Committee RpcClient Options.

Definition MVR_REGISTRY : string :=
  "0xe8417c530cde59eddf6dfb760e8a0e3e2c6f17c69ddaab5a73dd6a6e65fc463b".
Definition MVR_CORE : string :=
  "0x62c1f5b1cb9e3bfc3dd1f73c95066487b662048a6358eabdbf67f6cdeca6db4b".
Definition TESTNET_ID : string := "4c78adac".

(** The fields of the registry's objects that the resolution reads; a
    [VecMap] is its list of entries. *)
Record AppInfo : Type := mkAppInfo {
  app_package_info_id : option ObjectID;
  app_package_address : option ObjectID;
}.

Record AppRecord : Type := mkAppRecord {
  app_info : option AppInfo;
  networks : list (string * AppInfo);
}.

Record PackageInfo : Type := mkPackageInfo {
  pi_package_address : ObjectID;
  pi_metadata : list (string * string);
}.

Record VersionedName : Type := mkVersionedName {
  vn_name : list byte; (** the BCS encoding of the [Name] *)
  vn_version : option N;
}.

Record DynamicFieldName : Type := mkDynamicFieldName {
  df_type : TypeTag;
  df_value : list byte;
}.

(** The [mvr_types] library and the BCS decoders of the registry's objects. *)
Class MvrLib : Type := {
  versioned_name_from_str : string → option VersionedName;
  dynamic_field_display : DynamicFieldName → string;
  (** the [value] of a [Field<Name, AppRecord>] *)
  decode_app_record_field : list byte → outcome string AppRecord;
  decode_package_info : list byte → outcome string PackageInfo;
}.

Section mvr.
  Context {I C K R : Type} {node : FullNode (TransactionProto I C K R)} {sui : SuiTypes}
    {sym : Symmetric} {crv : Curve} {bcs : BcsTypes} {profile : BuildProfile}
    {semver : SemVer} {mvr : MvrLib}.

Definition dynamic_field_name (mvr_name : string) :
    outcome InternalError DynamicFieldName :=
  parsed_name ← ok_or (versioned_name_from_str mvr_name) InvalidMVRName;
  if bool_decide (is_Some (vn_version parsed_name)) then Err InvalidMVRName
  else
    core ← expect_ok (address_from_str MVR_CORE);
    Ok (mkDynamicFieldName (TyStruct core "name" "Name" []) (vn_name parsed_name)).

Definition get_from_mvr_registry (mvr_name : string) (mainnet_sui_rpc_client : SuiRpcClient) :
    M InternalError AppRecord :=
  dynamic_field_name ← st_lift (dynamic_field_name mvr_name);
  registry_address ← st_lift (expect_ok (address_from_str MVR_REGISTRY));
  parsed_name ← st_lift (ok_or (versioned_name_from_str mvr_name) InvalidMVRName);
  let name_bcs := vn_name parsed_name in
  core ← st_lift (expect_ok (address_from_str MVR_CORE));
  let name_type_tag := TyStruct core "name" "Name" [] in
  let child_id := derive_dynamic_child_id registry_address name_type_tag name_bcs in
  st_map_err (λ e,
      match rpc_code e with
      | Some CNotFound => InvalidMVRName
      | None => InvalidPackage
      | _ => Failure ("Failed to get dynamic field object '"
               +:+ dynamic_field_display dynamic_field_name +:+ "' from MVR registry")
      end)
    (get_object mainnet_sui_rpc_client decode_app_record_field child_id).

Definition mvr_forward_resolution (sui_rpc_client : SuiRpcClient) (mvr_name : string)
    (key_server_options : KeyServerOptions) : M InternalError ObjectID :=
  match ko_network key_server_options with
  | Mainnet =>
      record ← get_from_mvr_registry mvr_name sui_rpc_client;
      info ← st_lift (ok_or (app_info record) InvalidMVRName);
      st_lift (ok_or (app_package_address info)
        (Failure ("No package_address field on app_info for " +:+ mvr_name +:+ " on mainnet")))
  | Testnet =>
      built ← with_env build_mainnet_rpc;
      _ ← st_lift (if built : bool then Ok () else Err (Failure "Failed to build sui client"));
      mainnet_client ← st_lift (expect_ok (grpc_client_new (default_node_url Mainnet)));
      record ← get_from_mvr_registry mvr_name
        (mkSuiRpcClient true mainnet_client
           (retry_config (ko_rpc_config key_server_options))
           (request_duration_millis sui_rpc_client));
      let networks : gmap string AppInfo := hashmap_collect (networks record) in
      info ← st_lift (ok_or (networks !! TESTNET_ID) InvalidMVRName);
      package_info_id ← st_lift (ok_or (app_package_info_id info)
        (Failure ("No package info ID for MVR name " +:+ mvr_name +:+ " on testnet")));
      package_info ← st_map_err (λ e,
          match rpc_code e with
          | None => InvalidPackage
          | _ => Failure ("Failed to get object " +:+ address_to_string package_info_id)
          end)
        (get_object sui_rpc_client decode_package_info package_info_id);
      let metadata : gmap string string := hashmap_collect (pi_metadata package_info) in
      name_in_package_info ← st_lift (ok_or (metadata !! "default")
        (Failure "No 'default' field on package_info object"));
      if bool_decide (name_in_package_info = mvr_name)
      then mret (pi_package_address package_info)
      else st_lift (Err InvalidMVRName)
  | _ => st_lift (Err (Failure "Invalid network for MVR resolution"))
  end.

(** ** [externals.rs] *)
Definition check_mvr_package_id (mvr_name : option string) (sui_rpc_client : SuiRpcClient)
    (key_server_options : KeyServerOptions) (first_pkg_id : ObjectID) :
    M InternalError unit :=
  match mvr_name with
  | Some mvr_name =>
      cached ← get_mvr_cache mvr_name;
      mvr_package_id ←
        match cached with
        | None =>
            mvr_package_id ← mvr_forward_resolution sui_rpc_client mvr_name key_server_options;
            _ ← insert_mvr_cache mvr_name mvr_package_id;
            mret mvr_package_id
        | Some mvr_package_id => mret mvr_package_id
        end;
      if bool_decide (mvr_package_id = first_pkg_id) then mret ()
      else st_lift (Err InvalidMVRName)
  | None => mret ()
  end.

Definition get_reference_gas_price (sui_rpc_client : SuiRpcClient) : M RpcError N :=
  client_get_reference_gas_price sui_rpc_client.

(** ** [common.rs] *)
Definition fetch_first_pkg_id (sui_rpc_client : SuiRpcClient) (pkg_id : ObjectID) :
    M InternalError ObjectID :=
  cached ← package_cache_get pkg_id;
  match cached with
  | Some first => mret first
  | None =>
      first ← st_map_err (λ e,
          match rpc_code e with
          | Some CNotFound | None => InvalidPackage
          | _ => Failure ("Failed to resolve package id: " +:+ rpc_display code_display e)
          end)
        (fetch_package_original_id sui_rpc_client pkg_id);
      _ ← package_cache_insert pkg_id first;
      mret first
  end.
End mvr.
