(* ===== verification/KeyServer.v ===== *)
(** * The key server ([crates/key-server/src/server.rs], [metrics.rs],
    [signed_message.rs], [seal-sdk]'s [signed_message], [types.rs])

    The request handlers: a request for keys is accepted when its transaction
    is a valid policy, its package is supported, its certificate is in date,
    the user and the session have signed, and the full node has simulated the
    policy without an error; the response has the requested keys encrypted to
    the requester. The middlewares and the remaining endpoints follow. *)

From Stdlib Require Import NArith Lia.
From stdpp Require Import pretty.
From S2P Require Import Prelude Utils Primitives Elgamal Ibe Seal Common Chain Committee RpcClient.
From S2P Require Import ValidPtb Options MasterKeys Mvr.

Definition GAS_BUDGET : N := 500000000.
Definition MAX_REQUEST_SIZE : nat := 180 * 1024.

(** ** Requests and responses *)
Abbreviation ElGamalPublicKey := (PublicKey G1Element) (only parsing).
Abbreviation ElgamalVerificationKey := (VerificationKey G2Element) (only parsing).

Section types.
  Context {crv : Curve}.

Record Certificate : Type := mkCertificate {
  cert_user : Address;
  cert_session_vk : list byte;
  cert_creation_time : N;
  cert_ttl_min : N;
  cert_signature : list byte;
  cert_mvr_name : option string;
}.

Record FetchKeyRequest : Type := mkFetchKeyRequest {
  req_ptb : string;
  req_enc_key : ElGamalPublicKey;
  req_enc_verification_key : ElgamalVerificationKey;
  req_request_signature : list byte;
  req_certificate : Certificate;
}.

Record DecryptionKey : Type := mkDecryptionKey {
  dk_id : KeyId;
  dk_encrypted_key : Encryption G1Element;
}.

Record FetchKeyResponse : Type := mkFetchKeyResponse { decryption_keys : list DecryptionKey }.
End types.

(** The fields of the signed request, each already encoded. *)
Record RequestFormat : Type := mkRequestFormat {
  rf_ptb : list byte;
  rf_enc_key : list byte;
  rf_enc_verification_key : list byte;
}.

(** ** Libraries

    Signatures, dates, and encodings that the server calls; [Tx] is the type
    of simulated transactions. *)
Class ServerLib (Tx : Type) `{Curve, FullNode Tx} : Type := {
  (** [verify_personal_message_signature(signature, message, address, client)] *)
  verify_personal_message_signature :
    list byte → list byte → Address → GrpcClient → Env → bool * Env;
  (** [Ed25519PublicKey::verify] *)
  ed25519_verify : list byte → list byte → list byte → bool;
  ed25519_display : list byte → string;
  (** [DateTime::<Utc>::from_timestamp(secs, 0)], displayed *)
  utc_from_timestamp : N → option string;
  bcs_encode_ptb : ProgrammableTransaction → list byte;
  bcs_encode_g1 : G1Element → list byte;
  bcs_encode_request : RequestFormat → list byte;
  (** [TransactionData::new_with_gas_coins] without gas coins, as a message *)
  transaction_data : ProgrammableTransaction → Address → N → N → Tx;
  SUI_FRAMEWORK_ADDRESS : Address;
  SUI_ADDRESS_ALIAS_STATE_OBJECT_ID : Address;
}.

(** ** The metrics of [metrics.rs]

    A metric goes by the name of its field. *)
Definition KNOWN_ROUTES : list string :=
  ["/v1/fetch_key"; "/v1/service"; "/v1/debug/committee_partial_pk"; "/health"].

Definition normalize_route (path : string) : string :=
  if bool_decide (path ∈ KNOWN_ROUTES) then path else "unknown".

Section metrics.
  Context {Tx : Type} {node : FullNode Tx}.

Definition observe_error {E : Type} (error_type : string) : M E unit :=
  record_metric (Inc "errors" [error_type]).

(** The closure is run between two readings of the clock. *)
Definition call_with_duration {E T : Type} (metrics : option string) (closure : M E T) :
    M E T :=
  match metrics with
  | Some histogram =>
      start ← with_env env_instant;
      result ← closure;
      elapsed ← with_env env_instant;
      _ ← record_metric (Observe histogram [] (elapsed - start)%N);
      mret result
  | None => closure
  end.

Definition status_callback {E : Type} (counter : string) (status : bool) : M E unit :=
  record_metric (Inc counter [if status then "success" else "failure"]).

(** [status] renders the status of a response. *)
Definition metrics_middleware {E A : Type} (status : A → string) (path : string) (next : M E A) :
    M E A :=
  let route := normalize_route path in
  start ← with_env env_instant;
  _ ← record_metric (GaugeInc "http_request_in_flight" [route]);
  response ← next;
  _ ← record_metric (GaugeDec "http_request_in_flight" [route]);
  elapsed ← with_env env_instant;
  let status := status response in
  _ ← record_metric (Observe "http_request_duration_millis" [route; status] (elapsed - start)%N);
  _ ← record_metric (Inc "http_requests_total" [route; status]);
  mret response.
End metrics.

Section server.
  Context {I C K T : Type}.
  Abbreviation Tx := (TransactionProto I C K T).
  Context {node : FullNode Tx} {sui : SuiTypes} {sym : Symmetric} {crv : Curve}
    {bcs : BcsTypes} {profile : BuildProfile} {semver : SemVer} {mvr : MvrLib}
    {ptb_lib : PtbLib} {lib : ServerLib Tx}.

(** ** Signed messages *)
Definition signed_message {E : Type} (package_name : string) (vk : list byte)
    (creation_time ttl_min : N) : outcome E string :=
  date ← expect (utc_from_timestamp (creation_time / 1000)%N);
  Ok ("Accessing keys of package " +:+ package_name +:+ " for " +:+ pretty ttl_min
        +:+ " mins from " +:+ date +:+ ", session key " +:+ ed25519_display vk).

Definition signed_request (ptb : ProgrammableTransaction) (enc_key : ElGamalPublicKey)
    (enc_verification_key : ElgamalVerificationKey) : list byte :=
  bcs_encode_request (mkRequestFormat (bcs_encode_ptb ptb)
    (bcs_encode_g1 (pk_element enc_key)) (bcs_g2 (as_element enc_verification_key))).

(** ** The server *)
Record Server : Type := mkServer {
  sui_rpc_client : SuiRpcClient;
  master_keys : MasterKeys;
  key_server_oid_to_pop : gmap ObjectID G1Element;
  options : KeyServerOptions;
}.

Definition has_address_aliases (sui_rpc_client : SuiRpcClient) (address : Address) :
    M InternalError bool :=
  let alias_key_type := TyStruct SUI_FRAMEWORK_ADDRESS "address_alias" "AliasKey" [] in
  let key_bytes := bcs_address address in
  address_aliases_id ← st_lift (ok_or
    (derive_object_id SUI_ADDRESS_ALIAS_STATE_OBJECT_ID alias_key_type key_bytes)
    InvalidSignature);
  st_map_err (λ e, Failure ("Failed to check address aliases: " +:+ rpc_display code_display e))
    (object_exists sui_rpc_client address_aliases_id).

(** Errors of [anyhow] are their messages. *)
Definition fetch_and_validate_committee_partial_pk (sui_rpc_client : SuiRpcClient)
    (key_server_obj_id member_address : Address) (master_share : MasterKey) :
    M string unit :=
  member_info ← st_map_err (rpc_display code_display)
    (fetch_partial_key_server_for_member sui_rpc_client key_server_obj_id member_address);
  let local_partial_pk := public_key_from_master_key master_share in
  if bool_decide (local_partial_pk = pki_partial_pk member_info) then mret ()
  else st_lift (Err
    "Configured committee master share public key does not match onchain partial public key").

Definition is_committee_mode (self : Server) : bool :=
  match ko_server_mode (options self) with CommitteeServerMode _ _ _ _ => true | _ => false end.

Definition get_committee_server_params (self : Server) : option (Address * string) :=
  match ko_server_mode (options self) with
  | CommitteeServerMode _ key_server_obj_id _ server_name =>
      Some (key_server_obj_id, server_name)
  | _ => None
  end.

(** [version] is the committee version when the keys are read. *)
Definition build_key_server_pop_map {E : Type} (options : KeyServerOptions)
    (master_keys : MasterKeys) (version : N) : outcome E (gmap ObjectID G1Element) :=
  match ko_server_mode options with
  | CommitteeServerMode _ _ _ _ => Ok ∅
  | _ =>
      entries ← try_map (λ ks_oid,
          key ← expect_ok (get_key_for_key_server master_keys version ks_oid);
          let pop := create_proof_of_possession key ks_oid in
          Ok (ks_oid, pop)) (get_supported_key_server_object_ids options);
      Ok (hashmap_collect entries)
  end.

(** [Server::new] for the clients it is given; failures panic. *)
Definition server_new {env : Environment} {encs : Encodings} {E : Type}
    (options : KeyServerOptions) (metrics : bool) (sui_client_built : bool) :
    M E Server :=
  _ ← st_lift (assert (negb (ko_enable_event_monitoring options) || sui_client_built));
  grpc_client ← st_lift (expect_ok (build_grpc_client env_var (node_url options)));
  let sui_rpc_client := mkSuiRpcClient (ko_enable_event_monitoring options) grpc_client
        (retry_config (ko_rpc_config options)) metrics in
  committee_version ←
    match ko_server_mode options with
    | CommitteeServerMode _ key_server_obj_id _ _ =>
        r ← st_try (fetch_committee_server_version sui_rpc_client key_server_obj_id);
        match r with inl v => mret (Some v) | inr _ => st_lift Panic end
    | _ => mret None
    end;
  master_keys ← st_lift (expect_ok (load options committee_version));
  _ ← match ko_server_mode options, master_keys with
      | CommitteeServerMode member_address key_server_obj_id _ _,
        MKCommittee (KeyActive master_share) =>
          r ← st_try (fetch_and_validate_committee_partial_pk sui_rpc_client
                key_server_obj_id member_address master_share);
          match r with inl _ => mret () | inr _ => st_lift Panic end
      | _, _ => mret ()
      end;
  pop ← st_lift (build_key_server_pop_map options master_keys
                   (default 0%N committee_version));
  mret (mkServer sui_rpc_client master_keys pop options).

(** The conditions on the certificate alone. *)
Definition check_certificate_time (options : KeyServerOptions) (cert : Certificate)
    (current_epoch_time : N) : outcome InternalError unit :=
  ttl ← from_mins (cert_ttl_min cert);
  if (ko_session_key_ttl_max options <? ttl)%N then Err InvalidCertificate
  else
    match checked_duration_since current_epoch_time (cert_creation_time cert) with
    | None => Err InvalidCertificate
    | Some duration => if (ttl <? duration)%N then Err InvalidCertificate else Ok ()
    end.

Definition check_signature (self : Server) (ptb : ProgrammableTransaction)
    (enc_key : ElGamalPublicKey) (enc_verification_key : ElgamalVerificationKey)
    (session_sig : list byte) (cert : Certificate) (package_name : string) :
    M InternalError unit :=
  time ← now;
  _ ← st_lift (check_certificate_time (options self) cert time);
  msg ← st_lift (signed_message package_name (cert_session_vk cert)
                   (cert_creation_time cert) (cert_ttl_min cert));
  aliases ← has_address_aliases (sui_rpc_client self) (cert_user cert);
  if aliases : bool then st_lift (Err InvalidSignature)
  else
    valid ← with_env (verify_personal_message_signature (cert_signature cert)
              (bytes_of msg) (cert_user cert) (sui_grpc_client (sui_rpc_client self)));
    if negb valid then st_lift (Err InvalidSignature)
    else
      let signed_msg := signed_request ptb enc_key enc_verification_key in
      if ed25519_verify (cert_session_vk cert) signed_msg session_sig then mret ()
      else st_lift (Err InvalidSessionSignature).

(** The verdict on a simulation, after the staleness check. *)
Definition simulation_verdict (simulate_res : SimulateTransactionResponse) :
    outcome InternalError unit :=
  match sim_error simulate_res with
  | Some error =>
      if exec_function_not_found error then
        Err (InvalidPTB "The seal_approve function was not found on the module")
      else
        let msg := default (exec_kind_debug error) (exec_description error) in
        Err (NoAccess msg)
  | None => Ok ()
  end.

Definition check_policy (self : Server) (sender : Address) (vptb : ValidPtb)
    (gas_price : N) (req_id : option string) (metrics : bool) : M InternalError unit :=
  time ← now;
  let package := seal_package (ko_network (options self)) in
  ptb ← st_lift (add_staleness_check_to_ptb package time
                   (ko_allowed_staleness (options self)) (ValidPtb.vptb vptb));
  let tx_data := transaction_data ptb sender GAS_BUDGET gas_price in
  simulate_res ← st_map_err (λ e,
      if bool_decide (rpc_code e = Some CInvalidArgument)
         || bool_decide (rpc_code e = Some CNotFound)
      then InvalidParameter (rpc_message e)
      else Failure ("Simulate transaction failed (" +:+ rpc_display code_display e
             +:+ ") (req_id: " +:+ default "None" req_id +:+ ")"))
    (simulate_transaction (sui_rpc_client self) tx_data);
  _ ← match metrics, ko_server_mode (options self) with
      | true, PermissionedServer _ =>
          pkg ← st_lift (vptb_pkg_id vptb);
          record_metric (Observe "dry_run_gas_cost_per_package" [to_hex_uncompressed pkg]
                           (sim_computation_cost simulate_res))
      | _, _ => mret ()
      end;
  stale ← st_lift (is_staleness_error package simulate_res);
  if stale : bool then
    _ ← (if metrics then record_metric (Inc "requests_failed_due_to_staleness" [])
         else mret ());
    st_lift (Err (Failure "Fullnode is stale"))
  else st_lift (simulation_verdict simulate_res).

Definition check_request (self : Server) (valid_ptb : ValidPtb)
    (enc_key : ElGamalPublicKey) (enc_verification_key : ElgamalVerificationKey)
    (request_signature : list byte) (certificate : Certificate) (gas_price : N)
    (metrics : bool) (req_id : option string) (mvr_name : option string) :
    M InternalError (ObjectID * list KeyId) :=
  let histogram name := if metrics then Some name else None in
  (** the closures only build a future, which is awaited afterwards *)
  future ← call_with_duration (histogram "fetch_pkg_ids_duration")
    (mret (pkg ← st_lift (vptb_pkg_id valid_ptb);
           fetch_first_pkg_id (sui_rpc_client self) pkg));
  first_pkg_id ← (future : M InternalError ObjectID);
  w ← st_get;
  _ ← st_lift (has_key_for_package (master_keys self)
                 (env_committee_version (w_env w)) first_pkg_id);
  _ ← check_mvr_package_id mvr_name (sui_rpc_client self) (options self) first_pkg_id;
  _ ← check_signature self (ValidPtb.vptb valid_ptb) enc_key enc_verification_key
        request_signature certificate
        (default (to_hex_uncompressed first_pkg_id) mvr_name);
  future ← call_with_duration (histogram "check_policy_duration")
    (mret (check_policy self (cert_user certificate) valid_ptb gas_price req_id metrics));
  _ ← (future : M InternalError unit);
  ids ← st_lift (full_ids valid_ptb first_pkg_id);
  mret (first_pkg_id, ids).

(** The random choices of [thread_rng] are those of the generator [rng]. *)
Section response.
  Context {R : Type} `{AllowedRng R}.

Fixpoint encrypt_keys (master_key : MasterKey) (enc_key : ElGamalPublicKey)
    (ids : list KeyId) (rng : R) : list DecryptionKey * R :=
  match ids with
  | [] => ([], rng)
  | id :: ids =>
      let key := extract master_key id in
      let '(encrypted_key, rng) := encrypt (scalar_rand R _) rng key enc_key in
      let '(keys, rng) := encrypt_keys master_key enc_key ids rng in
      (mkDecryptionKey id encrypted_key :: keys, rng)
  end.

Definition create_response {E : Type} (self : Server) (version : N)
    (first_pkg_id : ObjectID) (ids : list KeyId) (enc_key : ElGamalPublicKey) (rng : R) :
    outcome E FetchKeyResponse :=
  master_key ← expect_ok (get_key_for_package (master_keys self) version first_pkg_id);
  Ok (mkFetchKeyResponse (encrypt_keys master_key enc_key ids rng).1).

(** ** Handlers *)
Definition handle_fetch_key_internal (self : Server) (payload : FetchKeyRequest)
    (req_id : option string) (reference_gas_price : N) :
    M InternalError (ObjectID * list KeyId) :=
  valid_ptb ← st_lift (try_from_base64 (req_ptb payload));
  ids ← st_lift (inner_ids valid_ptb);
  _ ← record_metric (Observe "requests_per_number_of_ids" []
                       (N.of_nat (length (ids : list KeyId))));
  check_request self valid_ptb (req_enc_key payload) (req_enc_verification_key payload)
    (req_request_signature payload) (req_certificate payload) reference_gas_price true
    req_id (cert_mvr_name (req_certificate payload)).

(** [Result::tap_err] with a metric. *)
Definition tap_err {A : Type} (f : InternalError → M InternalError unit)
    (m : M InternalError A) : M InternalError A :=
  r ← st_try m;
  match r with
  | inl a => mret a
  | inr e => _ ← f e; st_lift (Err e)
  end.

Definition handle_fetch_key (self : Server) (payload : FetchKeyRequest)
    (req_id : option string) (reference_gas_price : N) (rng : R) :
    M InternalError FetchKeyResponse :=
  _ ← record_metric (Inc "requests" []);
  '(first_pkg_id, full_ids) ← tap_err (λ e, observe_error (as_str e))
    (handle_fetch_key_internal self payload req_id reference_gas_price);
  w ← st_get;
  st_lift (create_response self (env_committee_version (w_env w)) first_pkg_id full_ids
             (req_enc_key payload) rng).
End response.

Record GetServiceResponse : Type := mkGetServiceResponse {
  service_id : ObjectID;
  service_pop : G1Element;
}.

(** The lock of the map is never poisoned: no holder panics. *)
Definition handle_get_service (self : Server) (params : gmap string string) :
    M InternalError GetServiceResponse :=
  _ ← record_metric (Inc "service_requests" []);
  id ← st_lift (ok_or (params !! "service_id") InvalidServiceId);
  service_id ← st_lift (ok_or (object_id_from_hex_literal id) InvalidServiceId);
  pop ← st_lift (ok_or (key_server_oid_to_pop self !! service_id) InvalidServiceId);
  mret (mkGetServiceResponse service_id pop).

Inductive PartialPkResponse : Type :=
  | Unsupported
  | PartialPk (pk : IbePublicKey)
  | PartialPkError (response : StatusCode * ErrorResponse).

Definition handle_get_committee_server_partial_pk (self : Server) :
    M InternalError PartialPkResponse :=
  _ ← record_metric (Inc "service_requests" []);
  if negb (is_committee_mode self) then mret Unsupported
  else
    w ← st_get;
    match get_committee_partial_pk (master_keys self) (env_committee_version (w_env w)) with
    | Ok pk => mret (PartialPk pk)
    | Err e => mret (PartialPkError (into_response e))
    | Panic => st_lift Panic
    end.

(** A header value is its bytes; [to_str] fails on those that are not visible
    ASCII. *)
Definition validate_sdk_version (self : Server) (version_string : string)
    (sdk_type : ClientSdkType) : outcome InternalError unit :=
  validate_sdk_version_for_type version_string sdk_type
    (ko_aggregator_version_requirement (options self))
    (ko_ts_sdk_version_requirement (options self))
    (ko_rust_sdk_version_requirement (options self)).

Definition handle_request_headers {A : Type} (self : Server)
    (to_str : list byte → option string) (version sdk_type_header : option (list byte))
    (next : M InternalError A) : M InternalError A :=
  sdk_type ← st_lift (from_header (sdk_type_header ≫= to_str));
  version_str ← tap_err (λ e, observe_error (as_str e))
    (v ← st_lift (ok_or version (MissingRequiredHeader HEADER_CLIENT_SDK_VERSION));
     v ← st_lift (ok_or (to_str v) InvalidSDKVersion);
     _ ← st_lift (validate_sdk_version self v sdk_type);
     mret v);
  _ ← record_metric (Inc "client_sdk_version" [sdk_as_str sdk_type; version_str]);
  next.
End server.

(** ** A toy full node, on which witnesses are evaluated *)
Module ToyServer.
#[local] Existing Instances Toy.symmetric Toy.curve ToyChain.sui.

Abbreviation ToyTx := (TransactionProto unit unit unit unit).

(** Packages are original, no address has aliases, and the clock is at 1 s. *)
#[local] Instance node : FullNode ToyTx := {
  Env := unit; GrpcClient := unit;
  grpc_client_new _ := Ok ();
  metadata_value_error _ := None; metadata_key_error _ := None;
  with_header c _ _ := c;
  get_object_rpc _ name mask _ :=
    ((if bool_decide (mask = ["bcs"])
      then inl (mkGetObjectResponse (Some (mkObjectProto (Some (Some (bytes_of name))) None None)))
      else inr (mkStatus CNotFound "none")), ());
  simulate_rpc _ _ _ _ := (inl (mkSimulateResponse None 7), ());
  get_epoch_rgp_rpc _ _ := (inl 1000%N, ());
  build_mainnet_rpc _ := (true, ());
  bcs_object b := Ok (DataPackage b);
  env_sleep _ e := e; env_now e := (1000%N, e); env_instant e := (0%N, e);
  env_package_cached _ _ := true; env_mvr_cached _ _ := true;
  env_committee_version _ := 0%N;
}.

#[local] Instance bcs : BcsTypes := {
  decode_field_key_server _ := Err "none"; decode_committee _ := Err "none";
  decode_field_wrapper _ := Err "none"; decode_upgrade_manager_wrapper _ := Err "none";
  decode_upgrade_manager _ := Err "none"; encode_wrapper a := Ok a;
  encode_upgrade_manager_key _ := Ok [];
}.

#[local] Instance mvr : MvrLib := {
  versioned_name_from_str _ := None; dynamic_field_display _ := "";
  decode_app_record_field _ := Err "none"; decode_package_info _ := Err "none";
}.

(** One call of a policy of package [0x07] for the id that is the request. *)
#[local] Instance ptb_lib : PtbLib := {
  base64_decode s := Some (bytes_of s);
  bcs_ptb b := Some (mkPtb [Pure b]
    [MoveCall (mkMoveCall [Byte.x07] "policy" "seal_approve_all" [] [Input 0])]);
  bcs_key_id b := Some b;
  SUI_CLOCK_OBJECT_ID := [Byte.x06];
  CLOCK_IMM := SharedObject [Byte.x06] 1 false;
}.

#[local] Instance lib : ServerLib ToyTx := {
  verify_personal_message_signature _ _ _ _ e := (true, e);
  ed25519_verify _ _ _ := true; ed25519_display _ := "vk";
  utc_from_timestamp _ := Some "now";
  bcs_encode_ptb _ := []; bcs_encode_g1 g := [g]; bcs_encode_request r := rf_enc_key r;
  transaction_data _ _ _ _ := mkTransactionProto None None ();
  SUI_FRAMEWORK_ADDRESS := [Byte.x02]; SUI_ADDRESS_ALIAS_STATE_OBJECT_ID := [Byte.x0c];
}.
End ToyServer.
