(* ===== verification/RequestJson.v ===== *)
(** * Requests in JSON

    [FetchKeyRequest::to_json_string] of [seal-sdk/src/types.rs], with which
    the aggregator and the command line tool send requests, and the derived
    deserializers of [Certificate] and [FetchKeyRequest] of the key server
    ([server.rs]), which have types of their own. *)

From Stdlib Require Import NArith Lia Ascii.
From stdpp Require Import countable.
From S2P Require Import Prelude Utils Primitives Elgamal Ibe Common Chain KeyServer.

(** [serde_json::Value]; a number is its value as a [u64], if it is one. *)
Inductive Json : Type :=
  | JNull
  | JBool (b : bool)
  | JNumber (n : option N)
  | JString (s : string)
  | JArray (l : list Json)
  | JObject (l : list (string * Json)).

(** [Value::get]. *)
Definition json_get (v : Json) (k : string) : option Json :=
  match v with
  | JObject l => snd <$> List.find (λ '(k', _), bool_decide (k' = k)) l
  | _ => None
  end.

(** How [serde_json] prints and parses, and the texts and values of the
    libraries' types. *)
Class RequestJson `{Curve} : Type := {
  json_print : Json → string;
  json_parse : string → option Json;
  g1_to_json : G1Element → Json;
  g1_from_json : Json → option G1Element;
  g2_to_json : G2Element → Json;
  g2_from_json : Json → option G2Element;
  ed25519_signature_to_json : list byte → Json;
  ed25519_signature_from_json : Json → option (list byte);
  ed25519_key_to_json : list byte → Json;
  ed25519_key_from_json : Json → option (list byte);
  address_to_json : Address → Json;
  address_from_json : Json → option Address;
  (** [UserSignature::to_base64] and the deserializer of [GenericSignature] *)
  signature_to_base64 : list byte → string;
  signature_from_json : Json → option (list byte);
}.

(** The same value, but for the order of the members of objects. *)
Inductive same_json : Json → Json → Prop :=
  | same_refl v : same_json v v
  | same_array l l' : Forall2 same_json l l' → same_json (JArray l) (JArray l')
  | same_object l l' l'' :
      Forall2 (λ m m', m.1 = m'.1 ∧ same_json m.2 m'.2) l l' → l' ≡ₚ l'' →
      same_json (JObject l) (JObject l'').

(** Printed values parse, and group elements are read as they are written. *)
Class RequestJsonLaws {crv : Curve} (js : RequestJson) : Prop := {
  json_parse_print v : ∃ v', json_parse (json_print v) = Some v' ∧ same_json v v';
  g1_json g v : same_json (g1_to_json g) v → g1_from_json v = Some g;
  g2_json g v : same_json (g2_to_json g) v → g2_from_json v = Some g;
}.

Section json.
  Context {crv : Curve} {js : RequestJson}.

(** ** The sender *)
Definition certificate_fields (c : Certificate) : list (string * Json) :=
  [("user", address_to_json (cert_user c));
   ("session_vk", ed25519_key_to_json (cert_session_vk c));
   ("creation_time", JNumber (Some (cert_creation_time c)));
   ("ttl_min", JNumber (Some (cert_ttl_min c)));
   ("signature", JString (signature_to_base64 (cert_signature c)));
   ("mvr_name", match cert_mvr_name c with Some name => JString name | None => JNull end)].

Definition request_fields (r : FetchKeyRequest) (certificate : Json) : list (string * Json) :=
  [("ptb", JString (req_ptb r));
   ("enc_key", g1_to_json (pk_element (req_enc_key r)));
   ("enc_verification_key", g2_to_json (as_element (req_enc_verification_key r)));
   ("request_signature", ed25519_signature_to_json (req_request_signature r));
   ("certificate", certificate)].

Definition to_json_string (r : FetchKeyRequest) : outcome string string :=
  Ok (json_print (JObject (request_fields r
        (JObject (certificate_fields (req_certificate r)))))).

(** ** The receiver *)

(** The values of a struct's fields, as derived deserializers find them: by
    name, each at most once, or by position. *)
Definition struct_fields (names : list string) (v : Json) : option (list (option Json)) :=
  match v with
  | JObject l =>
      if bool_decide (NoDup (filter (λ n, n ∈ names) l.*1)) then Some (json_get v <$> names)
      else None
  | JArray l => if length l =? length names then Some (Some <$> l) else None
  | _ => None
  end.

Definition string_from_json (v : Json) : option string :=
  match v with JString s => Some s | _ => None end.

(** A number below [bound]. *)
Definition unsigned_from_json (bound : N) (v : Json) : option N :=
  match v with JNumber (Some n) => if (n <? bound)%N then Some n else None | _ => None end.

(** An optional string may be absent. *)
Definition option_string_from_json (v : option Json) : option (option string) :=
  match v with
  | None | Some JNull => Some None
  | Some v => Some <$> string_from_json v
  end.

Definition certificate_from_json (v : Json) : option Certificate :=
  fields ← struct_fields ["user"; "session_vk"; "creation_time"; "ttl_min"; "signature"; "mvr_name"] v;
  match fields with
  | [user; session_vk; creation_time; ttl_min; signature; mvr_name] =>
      user ← user ≫= address_from_json;
      session_vk ← session_vk ≫= ed25519_key_from_json;
      creation_time ← creation_time ≫= unsigned_from_json (2 ^ 64);
      ttl_min ← ttl_min ≫= unsigned_from_json (2 ^ 16);
      signature ← signature ≫= signature_from_json;
      mvr_name ← option_string_from_json mvr_name;
      Some (mkCertificate user session_vk creation_time ttl_min signature mvr_name)
  | _ => None
  end.

Definition request_from_json (v : Json) : option FetchKeyRequest :=
  fields ← struct_fields ["ptb"; "enc_key"; "enc_verification_key"; "request_signature"; "certificate"] v;
  match fields with
  | [ptb; enc_key; enc_verification_key; request_signature; certificate] =>
      ptb ← ptb ≫= string_from_json;
      enc_key ← enc_key ≫= g1_from_json;
      enc_verification_key ← enc_verification_key ≫= g2_from_json;
      request_signature ← request_signature ≫= ed25519_signature_from_json;
      certificate ← certificate ≫= certificate_from_json;
      Some (mkFetchKeyRequest ptb (mkPublicKey enc_key) (mkVerificationKey enc_verification_key)
        request_signature certificate)
  | _ => None
  end.

(** ** What the receiver reads *)

(** [read] returns what [write] has written of [x]. *)
Definition reads {A : Type} (read : Json → option A) (x : A) (written : Json) : Prop :=
  ∀ v, same_json written v → read v = Some x.

(** The values are of the types of the source: numbers have their widths, and
    what is bytes here is something that its library can write and read. *)
Record representable (r : FetchKeyRequest) : Prop := {
  rep_signature : reads ed25519_signature_from_json (req_request_signature r)
    (ed25519_signature_to_json (req_request_signature r));
  rep_user : let c := req_certificate r in
    reads address_from_json (cert_user c) (address_to_json (cert_user c));
  rep_session_vk : let c := req_certificate r in
    reads ed25519_key_from_json (cert_session_vk c) (ed25519_key_to_json (cert_session_vk c));
  rep_user_signature : let c := req_certificate r in
    signature_from_json (JString (signature_to_base64 (cert_signature c)))
      = Some (cert_signature c);
  rep_creation_time : (cert_creation_time (req_certificate r) < 2 ^ 64)%N;
  rep_ttl_min : (cert_ttl_min (req_certificate r) < 2 ^ 16)%N;
}.

(** Members of other names. *)
Definition unknown (fields extra : list (string * Json)) : Prop :=
  Forall (λ m, m.1 ∉ fields.*1) extra.

(** An object that has these members, in any order and with values that [R]
    relates to these, and others. *)
Definition carries (R : Json → Json → Prop) (fields l : list (string * Json)) : Prop :=
  ∃ l' extra, Forall2 (λ m m', m.1 = m'.1 ∧ R m.2 m'.2) fields l' ∧ l ≡ₚ l' ++ extra ∧
    unknown fields extra.

Lemma carries_eq fields extra l :
  l ≡ₚ fields ++ extra → unknown fields extra → carries eq fields l.
Proof.
  intros Hp Hu. exists fields, extra. split; [|done].
  clear. induction fields; by constructor.
Qed.

Lemma same_json_object fields v :
  same_json (JObject fields) v → ∃ l, v = JObject l ∧ carries same_json fields l.
Proof.
  intros H. inversion H as [|? ? ?|? l' l'' HF Hp]; subst.
  - exists fields. split; [done|]. exists fields, []. rewrite app_nil_r.
    split_and!; [|done|by constructor]. clear. induction fields; constructor; auto using same_refl.
  - exists l''. split; [done|]. exists l', []. rewrite app_nil_r. by split_and!; [| |constructor].
Qed.

Lemma json_get_unique (names : list string) (l : list (string * Json)) n v :
  NoDup (filter (λ n, n ∈ names) l.*1) → n ∈ names → (n, v) ∈ l → json_get (JObject l) n = Some v.
Proof.
  intros Hnd Hn. induction l as [|[k w] l IH]; [by intros ?%elem_of_nil|].
  intros Hin. simpl. case_bool_decide as Hk; csimpl in Hnd.
  - subst k. rewrite filter_cons_True in Hnd by done. apply NoDup_cons in Hnd as [Hni _].
    apply elem_of_cons in Hin as [[= ->]|Hin]; [done|]. destruct Hni.
    apply list_elem_of_filter. split; [done|]. by apply (list_elem_of_fmap_2 fst) in Hin.
  - apply elem_of_cons in Hin as [[= -> ->]|Hin]; [done|]. apply IH; [|done].
    rewrite filter_cons in Hnd. case_decide; [by apply NoDup_cons in Hnd as [_ ?]|done].
Qed.

Lemma same_names {P : Json → Json → Prop} (l l' : list (string * Json)) :
  Forall2 (λ m m', m.1 = m'.1 ∧ P m.2 m'.2) l l' → l.*1 = l'.*1.
Proof. induction 1 as [|m m' l l' [Hm _] _ IH]; [done|]. csimpl. by rewrite Hm, IH. Qed.

(** Every field is found, with the value that was written. *)
Lemma struct_fields_carries R (fields l : list (string * Json)) :
  NoDup fields.*1 → carries R fields l →
  ∃ vs, struct_fields fields.*1 (JObject l) = Some (Some <$> vs) ∧ Forall2 R fields.*2 vs.
Proof.
  intros Hnd (l' & extra & HF & Hperm & Hex). pose proof (same_names _ _ HF) as Hn.
  assert (NoDup (filter (λ n, n ∈ fields.*1) l.*1)) as Hf.
  { rewrite Hperm, fmap_app, filter_app, <-Hn.
    assert (filter (λ n, n ∈ fields.*1) extra.*1 = []) as ->.
    { clear -Hex. induction Hex as [|m extra Hm _ IH]; csimpl; [done|].
      by rewrite filter_cons_False. }
    rewrite app_nil_r. by apply NoDup_filter. }
  exists l'.*2. unfold struct_fields. rewrite bool_decide_eq_true_2 by done. split.
  - f_equal. rewrite Hn. assert (∀ m, m ∈ l' → json_get (JObject l) m.1 = Some m.2) as Hget.
    { intros [n v] Hm. apply (json_get_unique fields.*1); [done|..].
      - rewrite Hn. by apply (list_elem_of_fmap_2 fst) in Hm.
      - rewrite Hperm. apply elem_of_app. by left. }
    clear -Hget. induction l' as [|m l' IH]; [done|].
    rewrite !fmap_cons. f_equal; [apply Hget; by left|]. apply IH. intros m' Hm'. apply Hget. by right.
  - clear -HF. induction HF as [|m m' l l' [_ Hm] _ IH]; by constructor.
Qed.

Lemma certificate_fields_NoDup c : NoDup (certificate_fields c).*1.
Proof.
  change (NoDup ["user"; "session_vk"; "creation_time"; "ttl_min"; "signature"; "mvr_name"]).
  by apply (bool_decide_unpack (NoDup _)).
Qed.

Lemma request_fields_NoDup r cert : NoDup (request_fields r cert).*1.
Proof.
  change (NoDup ["ptb"; "enc_key"; "enc_verification_key"; "request_signature"; "certificate"]).
  by apply (bool_decide_unpack (NoDup _)).
Qed.

Lemma same_string s v : same_json (JString s) v → v = JString s.
Proof. by inversion 1. Qed.

Lemma same_number n v : same_json (JNumber n) v → v = JNumber n.
Proof. by inversion 1. Qed.

Lemma same_null v : same_json JNull v → v = JNull.
Proof. by inversion 1. Qed.

(** A certificate is read from its members. *)
Lemma certificate_read R r cl :
  (∀ v v', R v v' → same_json v v') → representable r →
  carries R (certificate_fields (req_certificate r)) cl →
  certificate_from_json (JObject cl) = Some (req_certificate r).
Proof.
  intros HR [_ Hu Hk Hs Ht Hm] Hc. destruct (req_certificate r) as [user vk time ttl sig name].
  cbn in Hu, Hk, Hs, Ht, Hm.
  destruct (struct_fields_carries _ _ _ (certificate_fields_NoDup _) Hc)
    as (vs & Hf & HF).
  unfold certificate_from_json. change (certificate_fields _).*1 with
    ["user"; "session_vk"; "creation_time"; "ttl_min"; "signature"; "mvr_name"] in Hf.
  rewrite Hf. eapply (Forall2_impl _ same_json) in HF; [|exact HR]. cbn in HF.
  repeat (apply Forall2_cons_inv_l in HF as (?v & ? & ? & HF & ->)).
  apply Forall2_nil_inv_l in HF as ->. cbn.
  repeat match goal with
  | H : same_json (JString _) _ |- _ => apply same_string in H as ->
  | H : same_json (JNumber _) _ |- _ => apply same_number in H as ->
  end.
  cbn. rewrite Hu, Hk, Hs, !(proj2 (N.ltb_lt _ _)) by done. cbn.
  destruct name; [by match goal with H : same_json (JString _) _ |- _ => apply same_string in H as -> end|].
  by match goal with H : same_json JNull _ |- _ => apply same_null in H as -> end.
Qed.

Lemma request_read {js_laws : RequestJsonLaws js} R r cert rl :
  (∀ v v', R v v' → same_json v v') → representable r →
  (∀ v, R cert v → certificate_from_json v = Some (req_certificate r)) →
  carries R (request_fields r cert) rl → request_from_json (JObject rl) = Some r.
Proof.
  intros HR Hrep Hcert Hc. pose proof (rep_signature _ Hrep) as Hsig.
  destruct (struct_fields_carries _ _ _ (request_fields_NoDup _ _) Hc)
    as (vs & Hf & HF).
  unfold request_from_json. change (request_fields _ _).*1 with
    ["ptb"; "enc_key"; "enc_verification_key"; "request_signature"; "certificate"] in Hf.
  rewrite Hf. cbn in HF.
  apply Forall2_cons_inv_l in HF as (ptb & ? & Hptb%HR%same_string & HF & ->).
  apply Forall2_cons_inv_l in HF as (ek & ? & Hek%HR%g1_json & HF & ->).
  apply Forall2_cons_inv_l in HF as (evk & ? & Hevk%HR%g2_json & HF & ->).
  apply Forall2_cons_inv_l in HF as (sig & ? & Hs%HR%Hsig & HF & ->).
  apply Forall2_cons_inv_l in HF as (c & ? & Hcv%Hcert & HF & ->).
  apply Forall2_nil_inv_l in HF as ->. subst ptb. cbn. rewrite Hek. cbn. rewrite Hevk. cbn.
  rewrite Hs. cbn. rewrite Hcv. cbn. by destruct r as [? [] [] ? ?].
Qed.

(** C39: what is sent is what is received. A request that the aggregator or
    the command-line tool forwards as JSON is read by a key server as the same
    request, although the two sides declare it as types of their own; and it
    is still read as that request when its members, or those of its
    certificate, come in another order or among others that the key server
    does not know. *)
Theorem forwarded_request_read {js_laws : RequestJsonLaws js} (r : FetchKeyRequest) :
  representable r →
  (∃ body v, to_json_string r = Ok body ∧ json_parse body = Some v ∧
     request_from_json v = Some r) ∧
  ∀ cl extra_certificate rl extra_request,
    let certificate := certificate_fields (req_certificate r) in
    let request := request_fields r (JObject cl) in
    cl ≡ₚ certificate ++ extra_certificate → unknown certificate extra_certificate →
    rl ≡ₚ request ++ extra_request → unknown request extra_request →
    request_from_json (JObject rl) = Some r.
Proof.
  intros Hrep. split.
  - unfold to_json_string. set (cert := JObject (certificate_fields (req_certificate r))).
    destruct (json_parse_print (JObject (request_fields r cert))) as (v & Hp & Hv).
    exists (json_print (JObject (request_fields r cert))), v. split; [done|]. split; [done|].
    apply same_json_object in Hv as (l & -> & Hc). apply (request_read same_json r cert); try done.
    intros v (cl & -> & Hcl)%same_json_object. by apply (certificate_read same_json).
  - intros cl ec rl er certificate request Hcl Hec Hrl Her.
    apply (request_read eq r (JObject cl)); [by intros ? ? ->; apply same_refl|done| |].
    + intros v <-. apply (certificate_read eq); [by intros ? ? ->; apply same_refl|done|].
      by eapply carries_eq.
    + by eapply carries_eq.
Qed.
End json.

(** ** Toy texts: a value is printed as the number of its tree *)
Module ToyJson.
#[local] Existing Instance Toy.curve.

Abbreviation leaf := (option (bool + option N + string)).

Fixpoint to_tree (v : Json) : gen_tree leaf :=
  match v with
  | JNull => GenLeaf None
  | JBool b => GenLeaf (Some (inl (inl b)))
  | JNumber n => GenLeaf (Some (inl (inr n)))
  | JString s => GenLeaf (Some (inr s))
  | JArray l => GenNode 0 (to_tree <$> l)
  | JObject l => GenNode 1 ((λ m, GenNode 2 [GenLeaf (Some (inr m.1)); to_tree m.2]) <$> l)
  end.

Fixpoint of_tree (t : gen_tree leaf) : Json :=
  match t with
  | GenLeaf None => JNull
  | GenLeaf (Some (inl (inl b))) => JBool b
  | GenLeaf (Some (inl (inr n))) => JNumber n
  | GenLeaf (Some (inr s)) => JString s
  | GenNode 0 l => JArray (of_tree <$> l)
  | GenNode _ l =>
      JObject ((λ t, match t with
                     | GenNode _ [GenLeaf (Some (inr k)); t] => (k, of_tree t)
                     | _ => ("", JNull)
                     end) <$> l)
  end.

Lemma of_to_tree : ∀ v, of_tree (to_tree v) = v.
Proof.
  fix IH 1. intros [|b|n|s|l|l]; [reflexivity|reflexivity|reflexivity|reflexivity|..].
  - simpl. f_equal. induction l as [|v l IHl]; [done|]. by rewrite !fmap_cons, IH, IHl.
  - simpl. f_equal. induction l as [|[k v] l IHl]; [done|].
    rewrite !fmap_cons, IHl. simpl. by rewrite IH.
Qed.

(** The digits of a number, from the last to the first. *)
Fixpoint print_positive (p : positive) : string :=
  match p with
  | xH => ""
  | xO p => "0" +:+ print_positive p
  | xI p => "1" +:+ print_positive p
  end.

Fixpoint parse_positive (s : string) : positive :=
  match s with
  | "" => xH
  | String c s => if Ascii.eqb c "1"%char then xI (parse_positive s) else xO (parse_positive s)
  end.

Lemma parse_print_positive p : parse_positive (print_positive p) = p.
Proof. induction p as [p IH|p IH|]; [exact (f_equal xI IH)|exact (f_equal xO IH)|done]. Qed.

Definition print (v : Json) : string := print_positive (countable.encode (to_tree v)).
Definition parse (s : string) : option Json := of_tree <$> countable.decode (parse_positive s).

Lemma parse_print_json v : parse (print v) = Some v.
Proof.
  unfold parse, print. rewrite parse_print_positive, decode_encode.
  exact (f_equal Some (of_to_tree v)).
Qed.

Definition byte_to_json (b : byte) : Json := JNumber (Some (u8_val b)).
Definition byte_from_json (v : Json) : option byte :=
  match v with JNumber (Some n) => Some (u8_of n) | _ => None end.
Definition text_to_json (b : list byte) : Json := JString (String.string_of_list_byte b).
Definition text_from_json (v : Json) : option (list byte) :=
  match v with JString s => Some (bytes_of s) | _ => None end.

#[local] Instance json : RequestJson := {
  json_print := print; json_parse := parse;
  g1_to_json := byte_to_json; g1_from_json := byte_from_json;
  g2_to_json := byte_to_json; g2_from_json := byte_from_json;
  ed25519_signature_to_json := text_to_json; ed25519_signature_from_json := text_from_json;
  ed25519_key_to_json := text_to_json; ed25519_key_from_json := text_from_json;
  address_to_json := text_to_json; address_from_json := text_from_json;
  signature_to_base64 := String.string_of_list_byte; signature_from_json := text_from_json;
}.

Lemma byte_json b v : same_json (byte_to_json b) v → byte_from_json v = Some b.
Proof. intros ->%same_number. simpl. by rewrite u8_of_val. Qed.

#[local] Instance json_laws : RequestJsonLaws json.
Proof.
  split; [|exact byte_json..].
  intros v. exists v. split; [apply parse_print_json|apply same_refl].
Defined.
End ToyJson.

(** ** Witness: a certificate for a named package, sent out of order *)
#[local] Existing Instances Toy.curve ToyJson.json ToyJson.json_laws.

Definition toy_forwarded : FetchKeyRequest :=
  mkFetchKeyRequest "AAA=" (mkPublicKey Byte.x0d) (mkVerificationKey Byte.x0d) [Byte.x21]
    (mkCertificate [Byte.x55] [Byte.x56] 1700000000000 30 [Byte.x57] (Some "@my/package")).

Lemma toy_representable : representable toy_forwarded.
Proof. split; cbn; try (intros v ->%same_string); done. Qed.

Lemma forwarded_request_read_witness :
  (∃ body v, to_json_string toy_forwarded = Ok body ∧ json_parse body = Some v ∧
     request_from_json v = Some toy_forwarded) ∧
  request_from_json (JObject (("version", JNull) :: reverse (request_fields toy_forwarded
    (JObject (reverse (certificate_fields (req_certificate toy_forwarded)))))))
  = Some toy_forwarded.
Proof.
  destruct (forwarded_request_read toy_forwarded toy_representable) as [Hsent Hread].
  split; [exact Hsent|].
  apply (Hread (reverse (certificate_fields (req_certificate toy_forwarded))) [] _ [("version", JNull)]).
  - rewrite app_nil_r. apply reverse_Permutation.
  - constructor.
  - rewrite reverse_Permutation. apply Permutation_cons_append.
  - by apply (bool_decide_unpack (Forall _ _)).
Defined.
