(* ===== verification/KeyServerTheory.v ===== *)
(** * Lemmas on the key server

    Inversion of successful runs of the server's monadic code, the keys of a
    response, and what a successful request for keys has passed. *)

From Stdlib Require Import NArith Lia.
From stdpp Require Import pretty.
From S2P Require Import Prelude Utils Primitives Elgamal Ibe Seal Common Chain Committee RpcClient.
From S2P Require Import ValidPtb Options MasterKeys Mvr KeyServer.

(** Splits a successful run of a [bind] into its steps. *)
Ltac st_inv H :=
  lazymatch type of H with
  | (_ ≫= _) _ = (Ok _, _) =>
      let a := fresh "a" in let w := fresh "w" in let Ha := fresh "Hstep" in
      apply st_bind_inv in H as (a & w & Ha & H)
  end.

Section theory.
  Context {I C K T : Type}.
  Abbreviation Tx := (TransactionProto I C K T).
  Context {node : FullNode Tx} {sui : SuiTypes} {sym : Symmetric} {crv : Curve}
    {bcs : BcsTypes} {profile : BuildProfile} {semver : SemVer} {mvr : MvrLib}
    {ptb_lib : PtbLib} {lib : ServerLib Tx}.

Lemma st_map_err_inv {E F A : Type} (f : E → F) (m : M E A) w a w' :
  st_map_err f m w = (Ok a, w') → m w = (Ok a, w').
Proof. unfold st_map_err. destruct (m w) as [[] ?]; by intros [= -> ->]. Qed.

Lemma with_env_inv {E A : Type} (f : Env → A * Env) w a w' :
  with_env (E := E) f w = (Ok a, w') → ∃ env', f (w_env w) = (a, env') ∧ w_env w' = env'.
Proof. unfold with_env. destruct (f (w_env w)) as [a' env']. intros [= <- <-]. eauto. Qed.

Lemma tap_err_inv {A : Type} f (m : M InternalError A) w a w' :
  tap_err f m w = (Ok a, w') → m w = (Ok a, w').
Proof.
  unfold tap_err, st_try, mbind, st_bind. destruct (m w) as [[b|e|] w1]; [|..].
  - by intros [= -> ->].
  - unfold st_lift. destruct (f e w1) as [[]]; done.
  - done.
Qed.

(** Readings of the clock and metrics: what happens between two checks. *)
Inductive idle_step (w w' : World) : Prop :=
  | idle_metric m : record_metric (E := InternalError) m w = (Ok (), w') → idle_step w w'
  | idle_instant t : with_env (E := InternalError) env_instant w = (Ok t, w') → idle_step w w'.

Abbreviation idle := (rtc idle_step).

Lemma record_metric_env {E : Type} m w w' u :
  record_metric (E := E) m w = (Ok u, w') → w_env w' = w_env w.
Proof. by intros [= _ <-]. Qed.

Lemma idle_record {E : Type} m w w' u :
  record_metric (E := E) m w = (Ok u, w') → idle_step w w'.
Proof. intros [= _ <-]. by eapply (idle_metric _ _ m). Qed.

(** The two futures of [check_request] run after the closure that makes them. *)
Lemma call_with_duration_inv {A : Type} h (future : M InternalError A) w fut w' :
  call_with_duration (E := InternalError) h (mret future) w = (Ok fut, w') →
  fut = future ∧ idle w w'.
Proof.
  unfold call_with_duration. destruct h as [h|]; [|by intros [-> ->]%st_ret_inv].
  intros H. do 4 st_inv H. destruct a2.
  apply st_ret_inv in H as [-> ->], Hstep0 as [-> ->]. split; [done|].
  eapply rtc_l; [by eapply idle_instant|]. eapply rtc_l; [by eapply idle_instant|].
  by apply rtc_once, (idle_metric _ _ _ Hstep2).
Qed.

(** ** The keys of a response *)
Section keys.
  Context {R : Type} {arng : AllowedRng R}.

Lemma encrypt_keys_ids key enc_key ids (rng : R) :
  dk_id <$> (encrypt_keys key enc_key ids rng).1 = ids.
Proof.
  revert rng. induction ids as [|id ids IH]; intros rng; simpl; [done|].
  destruct (encrypt _ rng _ _) as [e rng1]. specialize (IH rng1).
  destruct (encrypt_keys key enc_key ids rng1). csimpl in *. by rewrite IH.
Qed.

Lemma encrypt_keys_decrypt `{!CurveLaws} key enc_key ids (rng : R) sk :
  pk_element enc_key = g_mul g_generator (sk_scalar sk) →
  (λ dk, decrypt sk (dk_encrypted_key dk)) <$> (encrypt_keys key enc_key ids rng).1
  = extract key <$> ids.
Proof.
  intros Hpk. revert rng. induction ids as [|id ids IH]; intros rng; simpl; [done|].
  destruct (encrypt _ rng _ _) as [e rng1] eqn:He. specialize (IH rng1).
  destruct (encrypt_keys key enc_key ids rng1). csimpl in *. rewrite IH. f_equal.
  pose proof (decrypt_encrypt (scalar_rand R arng) rng (extract key id) enc_key sk Hpk) as Hd.
  by rewrite He in Hd.
Qed.

Lemma encrypt_keys_each `{!CurveLaws} key enc_key ids (rng : R) sk :
  pk_element enc_key = g_mul g_generator (sk_scalar sk) →
  Forall (λ dk, decrypt sk (dk_encrypted_key dk) = extract key (dk_id dk))
    (encrypt_keys key enc_key ids rng).1.
Proof.
  intros Hpk. apply Forall_forall. intros dk [i Hi]%list_elem_of_lookup_1.
  pose proof (encrypt_keys_decrypt key enc_key ids rng sk Hpk) as Hd.
  rewrite <-(encrypt_keys_ids key enc_key ids rng) in Hd at 2.
  apply (f_equal (.!! i)) in Hd. rewrite !list_lookup_fmap, Hi in Hd. by injection Hd.
Qed.
End keys.

(** ** The checks that a request has passed *)

(** The certificate is in date at time [t] (milliseconds). *)
Definition certificate_in_date (options : KeyServerOptions) (cert : Certificate) (t : N) : Prop :=
  ∃ ttl, from_mins (E := InternalError) (cert_ttl_min cert) = Ok ttl ∧
    (ttl ≤ ko_session_key_ttl_max options)%N ∧ (cert_creation_time cert ≤ t)%N ∧
    ((t - cert_creation_time cert) * 1000000 ≤ ttl)%N.

Lemma check_certificate_time_iff opts cert t :
  check_certificate_time opts cert t = Ok () ↔ certificate_in_date opts cert t.
Proof.
  unfold check_certificate_time, certificate_in_date, checked_duration_since, duration_since,
    duration_from_millis.
  destruct (from_mins (cert_ttl_min cert)) as [ttl| |] eqn:Ht;
    unfold mbind, outcome_bind; [|split; [done|naive_solver]..].
  destruct (N.ltb_spec (ko_session_key_ttl_max opts) ttl).
  { split; [done|]. intros (ttl' & [= <-] & ? & _). lia. }
  destruct (N.leb_spec (cert_creation_time cert) t).
  2: { split; [done|]. intros (ttl' & [= <-] & _ & ? & _). lia. }
  destruct (N.ltb_spec ttl ((t - cert_creation_time cert) * 1000000)).
  { split; [done|]. intros (ttl' & [= <-] & _ & _ & ?). lia. }
  split; [|done]. intros _. by exists ttl.
Qed.

(** From [w] to [w']: the certificate is in date, the user signed it for
    [package_name] and has no aliases, and the session key signed the request. *)
Definition signatures_valid (self : Server) (ptb : ProgrammableTransaction)
    (payload : FetchKeyRequest) (package_name : string) (w w' : World) : Prop :=
  let cert := req_certificate payload in
  ∃ t w1 w2 msg,
    now (E := InternalError) w = (Ok t, w1) ∧ certificate_in_date (options self) cert t ∧
    signed_message (E := InternalError) package_name (cert_session_vk cert)
      (cert_creation_time cert) (cert_ttl_min cert) = Ok msg ∧
    has_address_aliases (sui_rpc_client self) (cert_user cert) w1 = (Ok false, w2) ∧
    with_env (E := InternalError) (verify_personal_message_signature (cert_signature cert)
      (bytes_of msg) (cert_user cert) (sui_grpc_client (sui_rpc_client self))) w2
      = (Ok true, w') ∧
    ed25519_verify (cert_session_vk cert)
      (signed_request ptb (req_enc_key payload) (req_enc_verification_key payload))
      (req_request_signature payload) = true.

(** From [w] to [w']: the full node simulated the policy for the user, with
    the staleness check in front and at the given gas price, without error. *)
Definition policy_satisfied (self : Server) (ptb : ProgrammableTransaction) (user : Address)
    (gas_price : N) (w w' : World) : Prop :=
  ∃ t w1 ptb' sim,
    now (E := InternalError) w = (Ok t, w1) ∧
    add_staleness_check_to_ptb (seal_package (ko_network (options self))) t
      (ko_allowed_staleness (options self)) ptb = Ok ptb' ∧
    simulate_transaction (sui_rpc_client self)
      (transaction_data ptb' user GAS_BUDGET gas_price) w1 = (Ok sim, w') ∧
    sim_error sim = None.

Lemma check_signature_inv self ptb payload package_name w w' :
  check_signature self ptb (req_enc_key payload) (req_enc_verification_key payload)
    (req_request_signature payload) (req_certificate payload) package_name w = (Ok (), w') →
  signatures_valid self ptb payload package_name w w'.
Proof.
  intros H. unfold check_signature in H. do 4 st_inv H.
  apply st_lift_inv in Hstep0 as [Hcert ->], Hstep1 as [Hmsg ->].
  destruct a0. apply check_certificate_time_iff in Hcert.
  destruct a2; [by apply st_lift_inv in H as [? _]|]. st_inv H.
  destruct a0; [|by apply st_lift_inv in H as [? _]]. cbn [negb] in H.
  destruct (ed25519_verify _ _ _) eqn:Hed; [|by apply st_lift_inv in H as [? _]].
  apply st_ret_inv in H as [_ ->]. by exists a, w0, w3, a1.
Qed.

Lemma check_policy_inv self user ptb gas_price req_id metrics w w' :
  check_policy self user (mkValidPtb ptb) gas_price req_id metrics w = (Ok (), w') →
  ∃ w1, policy_satisfied self ptb user gas_price w w1 ∧ idle w1 w'.
Proof.
  intros H. unfold check_policy in H. do 5 st_inv H.
  apply st_lift_inv in Hstep0 as [Hptb ->], Hstep3 as [Hstale ->].
  apply st_map_err_inv in Hstep1.
  destruct a3; [st_inv H; by apply st_lift_inv in H as [? _]|].
  apply st_lift_inv in H as [Hv ->]. unfold simulation_verdict in Hv.
  exists w2. split.
  - exists a, w0, a0, a1. split_and!; [done..|].
    destruct (sim_error a1) as [e|]; [|done]. by destruct (exec_function_not_found e).
  - destruct metrics, (ko_server_mode (options self));
      try (by apply st_ret_inv in Hstep2 as [_ ->]).
    st_inv Hstep2. apply st_lift_inv in Hstep0 as [_ ->]. destruct a2.
    by apply rtc_once, (idle_metric _ _ _ Hstep2).
Qed.

(** What a request has passed, in order, from [w] to [w']: its transaction is
    a valid policy of [pkg] for [ids]; [first] is the first version of [pkg],
    which the server supports and the MVR name, if any, resolves to; the
    signatures are valid and the policy is satisfied. *)
Definition authorised (self : Server) (payload : FetchKeyRequest) (gas_price : N)
    (ptb : ProgrammableTransaction) (pkg first : ObjectID) (ids : list KeyId)
    (w w' : World) : Prop :=
  let mvr_name := cert_mvr_name (req_certificate payload) in
  valid_policy ptb pkg ids ∧
  ∃ w1 w2 w3 w4 w5 w6,
    idle w w1 ∧ fetch_first_pkg_id (sui_rpc_client self) pkg w1 = (Ok first, w2) ∧
    has_key_for_package (master_keys self) (env_committee_version (w_env w2)) first = Ok () ∧
    check_mvr_package_id mvr_name (sui_rpc_client self) (options self) first w2
      = (Ok (), w3) ∧
    signatures_valid self ptb payload (default (to_hex_uncompressed first) mvr_name) w3 w4 ∧
    idle w4 w5 ∧
    policy_satisfied self ptb (cert_user (req_certificate payload)) gas_price w5 w6 ∧
    idle w6 w'.

Lemma check_request_inv self ptb pkg ids payload gas_price metrics req_id w r w' :
  valid_policy ptb pkg ids →
  check_request self (mkValidPtb ptb) (req_enc_key payload) (req_enc_verification_key payload)
    (req_request_signature payload) (req_certificate payload) gas_price metrics req_id
    (cert_mvr_name (req_certificate payload)) w = (Ok r, w') →
  authorised self payload gas_price ptb pkg r.1 ids w w' ∧ r.2 = (λ id, r.1 ++ id) <$> ids.
Proof.
  intros Hvalid H. unfold check_request in H. do 9 st_inv H.
  apply call_with_duration_inv in Hstep as [-> Hi1], Hstep5 as [-> Hi2].
  injection Hstep1 as <- <-. apply st_lift_inv in Hstep2 as [Hkey ->].
  destruct a2, a3, a4, a6. apply check_signature_inv in Hstep4 as Hsig.
  apply check_policy_inv in Hstep6 as (w9 & Hpol & Hi3).
  apply st_bind_inv in Hstep0 as (p & w10 & Hp & Hfetch).
  apply st_lift_inv in Hp as [Hp ->].
  destruct (valid_policy_inner_ids (E := InternalError) ptb pkg ids Hvalid) as [Hi Hpk].
  rewrite Hpk in Hp. injection Hp as <-.
  apply st_lift_inv in Hstep7 as [Hids ->]. apply st_ret_inv in H as [-> ->].
  unfold full_ids in Hids. rewrite Hi in Hids. injection Hids as <-.
  split; [|done]. split; [done|]. by exists w0, w1, w4, w5, w6, w9.
Qed.

Section response.
  Context {R : Type} {arng : AllowedRng R}.

Lemma handle_fetch_key_internal_inv self payload req_id gas_price w r w' :
  handle_fetch_key_internal self payload req_id gas_price w = (Ok r, w') →
  ∃ ptb pkg ids w1, try_from_base64 (req_ptb payload) = Ok (mkValidPtb ptb) ∧
    idle w w1 ∧ authorised self payload gas_price ptb pkg r.1 ids w1 w' ∧
    r.2 = (λ id, r.1 ++ id) <$> ids.
Proof.
  intros H. unfold handle_fetch_key_internal in H. do 3 st_inv H.
  apply st_lift_inv in Hstep as [Hv ->], Hstep0 as [_ ->]. destruct a as [ptb], a1.
  assert (∃ pkg ids, valid_policy ptb pkg ids) as (pkg & ids & Hpol).
  { unfold try_from_base64 in Hv. repeat apply bind_ok_inv in Hv as (? & _ & Hv).
    destruct (ptb_try_from_cases x0) as [(pkg & ids & He & Hpol)|[[s He] _]];
      rewrite He in Hv; [|done]. injection Hv as ->. eauto. }
  destruct (check_request_inv _ _ _ _ _ _ _ _ _ _ _ Hpol H) as [Ha Hr].
  exists ptb, pkg, ids, w2. split_and!; try done.
  by apply rtc_once, (idle_metric _ _ _ Hstep1).
Qed.

(** An answer holds the server's keys for the package, encrypted to the
    requester. *)
Lemma handle_fetch_key_inv self payload req_id gas_price (rng : R) w resp w' :
  handle_fetch_key self payload req_id gas_price rng w = (Ok resp, w') →
  ∃ ptb pkg first ids w1 key,
    try_from_base64 (req_ptb payload) = Ok (mkValidPtb ptb) ∧ idle w w1 ∧
    authorised self payload gas_price ptb pkg first ids w1 w' ∧
    get_key_for_package (master_keys self) (env_committee_version (w_env w')) first = Ok key ∧
    decryption_keys resp =
      (encrypt_keys key (req_enc_key payload) ((λ id, first ++ id) <$> ids) rng).1.
Proof.
  intros H. unfold handle_fetch_key in H. do 2 st_inv H. destruct a0 as [first fids].
  apply tap_err_inv in Hstep0.
  apply handle_fetch_key_internal_inv in Hstep0 as (ptb & pkg & ids & w2 & Hp & Hi & Ha & Hr).
  cbn [fst snd] in Ha, Hr. subst fids. st_inv H. injection Hstep0 as <- <-.
  apply st_lift_inv in H as [Hc ->]. unfold create_response in Hc.
  destruct (get_key_for_package _ _ _) as [key| |] eqn:Hk; [|done..].
  injection Hc as <-. exists ptb, pkg, first, ids, w2, key.
  assert (idle w w0) by (destruct a; by eapply rtc_once, idle_metric).
  by split_and!; [|etrans|..].
Qed.
End response.
End theory.
