(* ===== verification/Accounting.v ===== *)
(** * What the handlers record in the metrics

    The handlers extend the log of metrics, everything they call leaves the
    counters of requests and of errors alone, and the metrics they record are
    registered with these labels: they keep the relation [logs]. The hints
    below prove it for the whole call tree of a request. *)

From Stdlib Require Import NArith Lia.
From S2P Require Import Prelude Utils Primitives Elgamal Ibe Seal Common Chain Committee RpcClient.
From S2P Require Import Metrics Keeps ValidPtb Options MasterKeys Mvr KeyServer KeyServerTheory.

(** A recording that [KeyServerMetrics] accepts: it does not panic. *)
Abbreviation recorded := (λ m, accepts key_server_handles m = true).

(** All but the metrics that account for requests. *)
Definition accounting_counters : list string := ["errors"; "requests"; "http_requests_total"].

Definition uncounted (m : Metric) : Prop :=
  match m with
  | Inc name _ => name ∉ accounting_counters
  | Observe _ _ _ => True
  | GaugeInc _ _ | GaugeDec _ _ => False
  end.

Definition routine (m : Metric) : Prop := uncounted m ∧ recorded m.

#[export] Instance routine_dec m : Decision (routine m).
Proof. destruct m; apply _. Defined.

(** Every call of the full node may be observed. *)
Class RpcObserved (P : Metric → Prop) : Prop :=
  rpc_observed : ∀ method status t,
    P (Observe "sui_rpc_request_duration_millis" [method; status] t).

#[export] Instance routine_rpc_observed : RpcObserved routine.
Proof. by intros method status t. Qed.

Section accounting.
  Context {I C K T : Type}.
  Abbreviation Tx := (TransactionProto I C K T).
  Context {node : FullNode Tx} {sui : SuiTypes} {sym : Symmetric} {crv : Curve}
    {bcs : BcsTypes} {profile : BuildProfile} {semver : SemVer} {mvr : MvrLib}
    {ptb_lib : PtbLib} {lib : ServerLib Tx}.

(** The log of [w'] extends the log of [w] by metrics that satisfy [P]. *)
Definition logs_of (P : Metric → Prop) (w w' : World) : Prop :=
  ∃ ms, w_metrics w' = ms ++ w_metrics w ∧ Forall P ms.

#[export] Instance logs_preorder P : PreOrder (logs_of P).
Proof.
  split; [by exists []|]. intros w1 w2 w3 (ms & H1 & HF) (ms' & H2 & HF').
  exists (ms' ++ ms). rewrite H2, H1, app_assoc. by rewrite Forall_app.
Qed.

Lemma logs_same P w w' : w_metrics w' = w_metrics w → logs_of P w w'.
Proof. by exists []. Qed.

Lemma keeps_weaken {E A : Type} (P Q : Metric → Prop) (m : M E A) :
  (∀ x, P x → Q x) → keeps (logs_of P) m → keeps (logs_of Q) m.
Proof.
  intros HPQ Hm w. destruct (Hm w) as (ms & Hms & HF). exists ms. split; [done|].
  by eapply Forall_impl.
Qed.

Lemma logs_record {E : Type} (P : Metric → Prop) m :
  P m → keeps (logs_of P) (record_metric (E := E) m).
Proof. intros Hm w. exists [m]. by rewrite Forall_singleton. Qed.

Lemma routine_inc {E : Type} name labels :
  bool_decide (name ∈ accounting_counters) = false → recorded (Inc name labels) →
  keeps (logs_of routine) (record_metric (E := E) (Inc name labels)).
Proof. intros Hn Hr. apply logs_record. split; [by apply bool_decide_eq_false in Hn|done]. Qed.

Lemma logs_with_env {E A : Type} P (f : Env → A * Env) : keeps (logs_of P) (with_env f : M E A).
Proof. intros w. unfold with_env. by destruct (f _); apply logs_same. Qed.

Lemma logs_run_grpc {E A : Type} `{RetriableError E} P `{RpcObserved P} client method
    (op : M E A) :
  keeps (logs_of P) op → keeps (logs_of P) (run_grpc_with_retries client method op).
Proof.
  intros Hop. apply keeps_retry_loop; [done|..].
  - intros. by apply logs_same.
  - intros w. destruct (env_instant _). by apply logs_same.
  - intros s t w. destruct (request_duration_millis client); [|done].
    eexists [_]. split; [done|]. apply Forall_singleton, rpc_observed.
Qed.
End accounting.

Abbreviation logs := (logs_of routine).

#[export] Hint Resolve logs_with_env logs_run_grpc : keeps.
#[export] Hint Extern 1 (keeps (logs_of routine) (record_metric _)) =>
  first [apply routine_inc; reflexivity | apply logs_record; split; [exact Logic.I|reflexivity]]
  : keeps.
#[export] Hint Extern 0 (RpcObserved _) => apply _ : keeps.
#[export] Hint Extern 2 (keeps (logs_of _) (record_metric _)) =>
  apply logs_record; reflexivity : keeps.

Section calls.
  Context {I C K T : Type}.
  Abbreviation Tx := (TransactionProto I C K T).
  Context {node : FullNode Tx} {sui : SuiTypes} {sym : Symmetric} {crv : Curve}
    {bcs : BcsTypes} {profile : BuildProfile} {semver : SemVer} {mvr : MvrLib}
    {ptb_lib : PtbLib} {lib : ServerLib Tx}.

(** ** The calls that only observe the full node *)
Section observed.
  Context (P : Metric → Prop) {HP : RpcObserved P}.

Lemma logs_grpc {A : Type} (f : Env → (A + Status) * Env) : keeps (logs_of P) (grpc f).
Proof. unfold grpc. keeps. Qed.
#[local] Hint Resolve logs_grpc : keeps.

Lemma logs_get_object {A : Type} client (decode : list byte → outcome string A) id :
  keeps (logs_of P) (get_object client decode id).
Proof. apply logs_run_grpc; [apply _|]. unfold fetch_object, rpc_new_err. keeps. Qed.
#[local] Hint Resolve logs_get_object : keeps.

Lemma logs_mvr_resolution client name opts :
  keeps (logs_of P) (mvr_forward_resolution client name opts).
Proof. unfold mvr_forward_resolution, get_from_mvr_registry. keeps. Qed.
#[local] Hint Resolve logs_mvr_resolution : keeps.

Lemma logs_check_mvr name client opts first :
  keeps (logs_of P) (check_mvr_package_id name client opts first).
Proof.
  unfold check_mvr_package_id, get_mvr_cache, insert_mvr_cache. keeps.
  by intros w; apply logs_same.
Qed.

Lemma logs_fetch_first client pkg : keeps (logs_of P) (fetch_first_pkg_id client pkg).
Proof.
  unfold fetch_first_pkg_id, package_cache_get, package_cache_insert,
    fetch_package_original_id. keeps; [apply logs_run_grpc; keeps|].
  by intros w; apply logs_same.
Qed.

Lemma logs_check_signature self ptb enc_key vk sig cert name :
  keeps (logs_of P) (check_signature self ptb enc_key vk sig cert name).
Proof.
  unfold check_signature, has_address_aliases, object_exists, now. keeps.
  apply logs_run_grpc; keeps.
Qed.
End observed.
#[local] Hint Resolve logs_grpc logs_get_object : keeps.

(** ** The handlers *)
Abbreviation routine_only := (keeps logs).

Lemma routine_check_policy self sender vptb gas_price req_id metrics :
  routine_only (check_policy self sender vptb gas_price req_id metrics).
Proof. unfold check_policy, simulate_transaction, now. keeps; apply logs_run_grpc; keeps. Qed.

(** A future that is made under [call_with_duration] and awaited afterwards. *)
Lemma routine_awaited {E A B : Type} h (m : M E A) (f : A → M E B) :
  (∀ name t, h = Some name → recorded (Observe name [] t)) →
  routine_only m → (∀ a, routine_only (f a)) →
  routine_only (future ← call_with_duration (E := E) h (mret m); a ← future; f a).
Proof.
  intros Hh Hm Hf. destruct h as [h|]; unfold call_with_duration; intros w.
  - unfold with_env, record_metric, mbind, mret, st_bind, st_ret, st_modify.
    destruct (env_instant (w_env w)) as [t e]. cbn [w_env].
    destruct (env_instant e) as [t' e']. etrans; [|by apply keeps_bind].
    eexists [_]. split; [done|]. repeat constructor. by apply Hh.
  - unfold mbind at 1, st_bind, mret, st_ret. by apply keeps_bind.
Qed.

Lemma routine_check_request self vptb enc_key vk sig cert gas_price metrics req_id name :
  routine_only (check_request self vptb enc_key vk sig cert gas_price metrics req_id name).
Proof.
  unfold check_request.
  apply routine_awaited; [destruct metrics; by intros ? ? [= <-]|keeps; apply (logs_fetch_first _)|].
  intros first. apply keeps_bind; [keeps|intros w].
  apply keeps_bind; [keeps|intros _].
  apply keeps_bind; [apply (logs_check_mvr _)|intros _].
  apply keeps_bind; [apply (logs_check_signature _)|intros _].
  apply routine_awaited; [destruct metrics; by intros ? ? [= <-]|apply routine_check_policy|intros _; keeps].
Qed.

Lemma routine_handle_fetch_key_internal self payload req_id gas_price :
  routine_only (handle_fetch_key_internal self payload req_id gas_price).
Proof. unfold handle_fetch_key_internal. keeps. apply routine_check_request. Qed.

(** The log of a request for keys. *)
Lemma handle_fetch_key_log {R : Type} `{AllowedRng R} (self : Server) payload req_id gas_price
    (rng : R) (w : World) :
  let '(r, w') := handle_fetch_key self payload req_id gas_price rng w in
  ∃ ms, Forall routine ms ∧
    w_metrics w' =
      match r with Err e => [Inc "errors" [as_str e]] | _ => [] end
        ++ ms ++ Inc "requests" [] :: w_metrics w.
Proof.
  unfold handle_fetch_key. erewrite st_bind_ok by done. unfold tap_err.
  set (w1 := mkWorld _ _ _ _).
  destruct (routine_handle_fetch_key_internal self payload req_id gas_price w1)
    as (ms & Hms & HF).
  unfold st_try at 1, mbind, st_bind.
  destruct (handle_fetch_key_internal _ _ _ _ _) as [[[first ids]|e|] w2]; simpl in Hms.
  - unfold st_lift, create_response. exists ms. split; [done|].
    by destruct (get_key_for_package _ _ _); rewrite Hms.
  - exists ms. split; [done|]. simpl. by rewrite Hms.
  - by exists ms.
Qed.
End calls.
