(* ===== verification/KeyServerProps.v ===== *)
(** * Properties of the request handlers

    The authorisation of key requests and what the response holds, the
    accounting of requests and errors in the metrics, the version middleware,
    and the service endpoint; witnesses on a toy full node. *)

From Stdlib Require Import NArith Lia.
From stdpp Require Import pretty.
From S2P Require Import Prelude Utils Primitives Elgamal Ibe Seal Common Chain Committee RpcClient.
From S2P Require Import ValidPtb Options MasterKeys Mvr KeyServer KeyServerTheory Accounting.

Section properties.
  Context {I C K T : Type}.
  Abbreviation Tx := (TransactionProto I C K T).
  Context {node : FullNode Tx} {sui : SuiTypes} {sym : Symmetric} {crv : Curve}
    {bcs : BcsTypes} {profile : BuildProfile} {semver : SemVer} {mvr : MvrLib}
    {ptb_lib : PtbLib} {lib : ServerLib Tx}.
  Context {R : Type} {arng : AllowedRng R}.

Abbreviation idle := (rtc idle_step).

(** C3: keys are released to authorised requests only, and then exactly the
    requested ones: when the handler answers with keys, the request's
    transaction is a valid policy transaction whose package is supported, the
    certificate was in date and the user and the session key had signed, and
    the full node had simulated the policy for that user without an error,
    in this order; the response holds one key per requested id, which the
    requester's secret key decrypts to the server's key for that id. *)
Theorem fetch_key_authorised {crv_laws : CurveLaws} (self : Server) (payload : FetchKeyRequest)
    (req_id : option string) (gas_price : N) (rng : R) (w w' : World)
    (resp : FetchKeyResponse) :
  handle_fetch_key self payload req_id gas_price rng w = (Ok resp, w') →
  ∃ ptb pkg first ids w1 key,
    try_from_base64 (req_ptb payload) = Ok (mkValidPtb ptb) ∧ idle w w1 ∧
    authorised self payload gas_price ptb pkg first ids w1 w' ∧
    get_key_for_package (master_keys self) (env_committee_version (w_env w')) first = Ok key ∧
    dk_id <$> decryption_keys resp = (λ id, first ++ id) <$> ids ∧
    ∀ sk, pk_element (req_enc_key payload) = g_mul g_generator (sk_scalar sk) →
      (λ dk, decrypt sk (dk_encrypted_key dk)) <$> decryption_keys resp
      = (λ id, extract key (first ++ id)) <$> ids.
Proof.
  intros (ptb & pkg & first & ids & w1 & key & Hp & Hi & Ha & Hk & Hd)%handle_fetch_key_inv.
  exists ptb, pkg, first, ids, w1, key. rewrite Hd. split_and!; [done..|apply encrypt_keys_ids|].
  intros sk Hsk. by rewrite encrypt_keys_decrypt, <-list_fmap_compose by done.
Qed.

(** Every request for keys is counted once, and every request that is
    answered with an error is counted once more, as the last thing that is
    recorded, under the name of that error; nothing else counts as a request
    or an error. *)
Theorem fetch_key_accounting (self : Server) (payload : FetchKeyRequest)
    (req_id : option string) (gas_price : N) (rng : R) (w : World) :
  let '(r, w') := handle_fetch_key self payload req_id gas_price rng w in
  ∃ ms, Forall routine ms ∧
    w_metrics w' =
      match r with Err e => [Inc "errors" [as_str e]] | _ => [] end
        ++ ms ++ Inc "requests" [] :: w_metrics w.
Proof. apply handle_fetch_key_log. Qed.

(** The requirement that binds a client which names its type as [t]. *)
Definition requirement_of (o : KeyServerOptions) (t : option string) : option VersionReq :=
  if decide (t = Some "aggregator") then Some (ko_aggregator_version_requirement o)
  else if decide (t = Some "typescript") then Some (ko_ts_sdk_version_requirement o)
  else if decide (t = Some "rust") then Some (ko_rust_sdk_version_requirement o)
  else None.

Lemma validate_sdk_version_spec (self : Server) t : ∃ sdk,
  from_header t = Ok sdk ∧ ∀ v,
  validate_sdk_version self v sdk =
    parsed ← ok_or (version_parse v) InvalidSDKVersion;
    match requirement_of (options self) t with
    | Some req => if req_matches req parsed then Ok () else Err DeprecatedSDKVersion
    | None => Ok ()
    end.
Proof.
  unfold requirement_of, from_header. destruct t as [t|].
  - assert (∀ v (req : VersionReq),
      (parsed ← ok_or (version_parse v) InvalidSDKVersion;
       if negb (req_matches req parsed) then Err DeprecatedSDKVersion else Ok ())
      = (parsed ← ok_or (version_parse v) InvalidSDKVersion;
         if req_matches req parsed then Ok () else Err DeprecatedSDKVersion)) as Hc.
    { intros v req. destruct (version_parse v) as [p|]; [|done]. cbn.
      by destruct (req_matches req p). }
    destruct (decide (t = "aggregator")) as [->|H1]; [exists Aggregator; by split; [|intros v; apply Hc]|].
    destruct (decide (t = "typescript")) as [->|H2]; [exists TypeScript; by split; [|intros v; apply Hc]|].
    destruct (decide (t = "rust")) as [->|H3]; [exists Rust; by split; [|intros v; apply Hc]|].
    exists Other. rewrite !bool_decide_eq_false_2 by done. split; [done|]. intros v.
    unfold validate_sdk_version. by rewrite !decide_False by congruence.
  - by exists Other.
Qed.

(** The version middleware passes a request on exactly when it names a
    version in visible ASCII that parses, and that matches the requirement for
    its type of client if there is one; it then records the version and
    nothing else. Every other request is answered with an error which is
    recorded once, and does not reach the handler. A client that names no
    type, or an unknown one, is not bound by any requirement. *)
Theorem version_middleware {A : Type} (self : Server) (to_str : list byte → option string)
    (version sdk_type : option (list byte)) (next : M InternalError A) (w : World) :
  let requirement := requirement_of (options self) (sdk_type ≫= to_str) in
  let run := handle_request_headers self to_str version sdk_type next w in
  let fails e := run = (_ ← observe_error (as_str e); st_lift (Err e)) w in
  match version, version ≫= to_str, (version ≫= to_str) ≫= version_parse with
  | None, _, _ => fails (MissingRequiredHeader HEADER_CLIENT_SDK_VERSION)
  | Some _, Some v, Some parsed =>
      if match requirement with Some req => req_matches req parsed | None => true end
      then ∃ label, run = (_ ← record_metric (Inc "client_sdk_version" [label; v]); next) w
      else fails DeprecatedSDKVersion
  | Some _, _, _ => fails InvalidSDKVersion
  end.
Proof.
  cbv zeta. unfold handle_request_headers.
  destruct (validate_sdk_version_spec self (sdk_type ≫= to_str)) as (sdk & -> & Hv).
  unfold tap_err, st_try, st_lift, mbind, st_bind, option_bind. cbn [ok_or].
  destruct version as [b|]; cbn [ok_or]; [|done].
  destruct (to_str b) as [v|] eqn:Hb; cbn [ok_or]; [|done]. rewrite Hv.
  destruct (version_parse v) as [parsed|]; [|done].
  change (match sdk_type with Some x => to_str x | None => None end) with (sdk_type ≫= to_str).
  cbn. destruct (requirement_of _ _) as [req|]; [|by exists (sdk_as_str sdk)].
  destruct (req_matches req parsed); [by exists (sdk_as_str sdk)|done].
Qed.

(** The service endpoint. A server that is not a committee member
    answers exactly for its own key servers, and with a proof of possession
    that verifies under the public key of that key server's master key and
    for its object id; every other request gets [InvalidServiceId]. *)
Theorem service_proof_of_possession {crv_laws : CurveLaws} (self : Server) (version : N)
    (params : gmap string string) (w : World) :
  is_committee_mode self = false →
  build_key_server_pop_map (E := string) (options self) (master_keys self) version
    = Ok (key_server_oid_to_pop self) →
  let '(r, w') := handle_get_service self params w in
  w_metrics w' = Inc "service_requests" [] :: w_metrics w ∧
  match params !! "service_id" ≫= object_id_from_hex_literal with
  | Some oid =>
      if decide (oid ∈ get_supported_key_server_object_ids (options self)) then
        ∃ pop key, r = Ok (mkGetServiceResponse oid pop) ∧
          get_key_for_key_server (master_keys self) version oid = Ok key ∧
          let pk := public_key_from_master_key key in
          pairing pop g_generator
          = pairing (hash_to_group_element (DST_POP ++ bcs_g2 pk ++ oid)) pk
      else r = Err InvalidServiceId
  | None => r = Err InvalidServiceId
  end.
Proof.
  intros Hmode Hmap. unfold is_committee_mode in Hmode. unfold build_key_server_pop_map in Hmap.
  assert (∃ entries, Forall2 (λ oid entry,
      (key ← expect_ok (get_key_for_key_server (master_keys self) version oid);
       Ok (oid, create_proof_of_possession key oid)) = Ok (E := string) entry)
      (get_supported_key_server_object_ids (options self)) entries ∧
    hashmap_collect entries = key_server_oid_to_pop self) as (entries & HF & Hpop).
  { destruct (ko_server_mode (options self)); [..|done];
      apply bind_ok_inv in Hmap as (entries & He%try_map_inv & [= <-]); by exists entries. }
  assert (∀ oid pop, (oid, pop) ∈ entries → ∃ key,
    oid ∈ get_supported_key_server_object_ids (options self) ∧
    get_key_for_key_server (master_keys self) version oid = Ok key ∧
    pop = create_proof_of_possession key oid) as Hent.
  { intros oid pop (i & Hi)%list_elem_of_lookup_1.
    destruct (Forall2_lookup_r _ _ _ _ _ HF Hi) as (oid' & Ho & He).
    apply bind_ok_inv in He as (key & Hk & [= -> <-]). exists key.
    split_and!; [by eapply list_elem_of_lookup_2| |done].
    by destruct (get_key_for_key_server _ _ _) as [k| |]; [injection Hk as ->|..]. }
  unfold handle_get_service. erewrite st_bind_ok by done.
  unfold st_lift, mbind, st_bind, option_bind. rewrite <-Hpop.
  destruct (params !! "service_id") as [id|]; cbn [ok_or]; [|done].
  destruct (object_id_from_hex_literal id) as [oid|]; cbn [ok_or]; [|done].
  destruct (hashmap_collect entries !! oid) as [pop|] eqn:Hl; cbn [ok_or].
  - apply hashmap_collect_elem in Hl. destruct (Hent oid pop Hl) as (key & Hin & Hk & ->).
    split; [done|]. rewrite decide_True by done. eexists _, key. split_and!; [done..|].
    cbv zeta. unfold create_proof_of_possession, public_key_from_master_key.
    by rewrite pairing_mul.
  - apply hashmap_collect_None in Hl. split; [done|]. rewrite decide_False; [done|].
    intros Hin. apply Hl. apply list_elem_of_lookup_1 in Hin as (i & Hi).
    destruct (Forall2_lookup_l _ _ _ _ _ HF Hi) as ([oid' pop] & Ho & He).
    apply bind_ok_inv in He as (key & _ & [= -> _]).
    apply list_elem_of_fmap. exists (oid', pop). split; [done|]. by eapply list_elem_of_lookup_2.
Qed.

(** The histogram of [call_with_duration] around a closure that only makes a
    future gets the time between two successive readings of the clock: the
    future runs after the second one. *)
Lemma duration_excludes_future {A : Type} (histogram : string) (future : M InternalError A)
    (w : World) :
  (fut ← call_with_duration (E := InternalError) (Some histogram) (mret future); fut) w =
    let '(start, env) := env_instant (w_env w) in
    let '(stop, env) := env_instant env in
    future (mkWorld env (Observe histogram [] (stop - start)%N :: w_metrics w)
              (w_package_id_cache w) (w_mvr_cache w)).
Proof.
  unfold call_with_duration, with_env, record_metric, st_modify, mbind, mret, st_bind, st_ret.
  destruct (env_instant (w_env w)) as [start env]. cbn [w_env].
  by destruct (env_instant env).
Qed.
End properties.

(** ** Witnesses: an open server and a full node that approves everything *)
#[local] Existing Instances Toy.symmetric Toy.curve Toy.curve_laws ToyCommon.semver
  ToyCommon.profile ToyChain.sui ToyServer.node ToyServer.bcs ToyServer.mvr ToyServer.ptb_lib
  ToyServer.lib.

Definition toy_server : Server :=
  mkServer (mkSuiRpcClient false () default_retry_config true) (MKOpen Byte.x0a)
    (hashmap_collect [([Byte.x31], create_proof_of_possession Byte.x0a [Byte.x31])])
    (mkKeyServerOptions Testnet None (OpenServer [Byte.x31]) "" "" "" 1000 0 120000000000
       3600000000000 default_rpc_config None false).

Definition toy_request : FetchKeyRequest :=
  mkFetchKeyRequest (crv := Toy.curve) "doc" (mkPublicKey Byte.x0d) (mkVerificationKey Byte.x0d)
    [] (mkCertificate [Byte.x55] [] 900 30 [] None).

Definition toy_secret_key : SecretKey (Scalar (Curve := Toy.curve)) := mkSecretKey Byte.x0d.

Definition toy_world : World := mkWorld () [] ∅ ∅.

Lemma fetch_key_authorised_witness :
  ∃ resp w' key first ids,
    handle_fetch_key toy_server toy_request None 1000 [] toy_world = (Ok resp, w') ∧
    (λ dk, decrypt toy_secret_key (dk_encrypted_key dk)) <$> decryption_keys resp
    = (λ id, extract key (first ++ id)) <$> ids.
Proof.
  assert (is_ok (handle_fetch_key toy_server toy_request None 1000 [] toy_world).1 = true)
    as Hok by (vm_compute; reflexivity).
  destruct (handle_fetch_key toy_server toy_request None 1000 [] toy_world)
    as [[resp| |] w'] eqn:Hrun; [clear Hok|discriminate Hok..].
  destruct (fetch_key_authorised toy_server toy_request None 1000 [] toy_world w' resp Hrun)
    as (ptb & pkg & first & ids & w1 & key & _ & _ & _ & _ & _ & Hd).
  exists resp, w', key, first, ids. split; [reflexivity|].
  apply (Hd toy_secret_key). reflexivity.
Defined.

Lemma service_proof_of_possession_witness :
  let '(r, w') := handle_get_service toy_server {["service_id" := "1"]} toy_world in
  w_metrics w' = [Inc "service_requests" []] ∧
  ∃ pop key, r = Ok (mkGetServiceResponse [Byte.x31] pop) ∧
    get_key_for_key_server (MKOpen Byte.x0a) 0 [Byte.x31] = Ok key.
Proof.
  pose proof (service_proof_of_possession toy_server 0 {["service_id" := "1"]} toy_world
    eq_refl eq_refl) as H.
  destruct (handle_get_service toy_server {["service_id" := "1"]} toy_world) as [r w'].
  destruct H as [Hm H]. split; [exact Hm|].
  rewrite lookup_singleton_eq in H. cbn in H.
  rewrite decide_True in H by left. destruct H as (pop & key & Hr & Hk & _).
  exists pop, key. split; [exact Hr|exact Hk].
Defined.
