(* ===== verification/Signing.v ===== *)
(** * What the signature of a certificate binds

    A user signs a text. Read from its end, the text has one reading: so the
    signature is for one package name, one session key, one time to live and
    one second of creation. *)

From Stdlib Require Import NArith Lia Ascii String.
From stdpp Require Import pretty countable.
From S2P Require Import Prelude Utils Primitives Elgamal Ibe Seal Common Chain Committee RpcClient.
From S2P Require Import ValidPtb Options MasterKeys Mvr KeyServer.

(** ** Texts as their bytes *)
Lemma bytes_of_app s s' : bytes_of (s +:+ s') = bytes_of s ++ bytes_of s'.
Proof.
  induction s as [|c s IH]; [done|].
  exact (f_equal (cons (byte_of_ascii c)) IH).
Qed.

#[export] Instance bytes_of_inj : Inj (=) (=) bytes_of.
Proof.
  intros s s' H. unfold bytes_of in H.
  by rewrite <-(string_of_list_byte_of_string s), H, string_of_list_byte_of_string.
Qed.

Definition space : Byte.byte := Byte.x20.

(** A word: a text without spaces. *)
Definition word (s : string) : Prop := space ∉ bytes_of s.

(** Texts of words are read from the end. *)
Lemma last_word (s s' w w' : string) :
  word w → word w' → s +:+ " " +:+ w = s' +:+ " " +:+ w' → s = s' ∧ w = w'.
Proof.
  intros Hw Hw' H. apply (f_equal bytes_of) in H. rewrite !bytes_of_app in H.
  change (bytes_of " ") with [space] in H.
  assert (bytes_of s = bytes_of s' ∧ bytes_of w = bytes_of w') as [?%bytes_of_inj ?%bytes_of_inj];
    [|done].
  revert H Hw Hw'. unfold word. generalize (bytes_of s) (bytes_of s') (bytes_of w) (bytes_of w').
  clear. intros a. induction a as [|x a IH]; intros a' b b' H Hb Hb'; destruct a' as [|x' a'];
    simpl in H.
  - by injection H as ->.
  - injection H as <- ->. destruct Hb. set_solver.
  - injection H as -> <-. destruct Hb'. set_solver.
  - injection H as <- H. by apply IH in H as [-> ->].
Qed.

(** A text, followed by words. *)
Definition sentence (s : string) (ws : list string) : string :=
  foldl (λ s w, s +:+ " " +:+ w) s ws.

Lemma sentence_inj s s' ws ws' :
  length ws = length ws' → Forall word ws → Forall word ws' →
  sentence s ws = sentence s' ws' → s = s' ∧ ws = ws'.
Proof.
  unfold sentence. revert ws'. induction ws as [|w ws IH] using rev_ind; intros ws' Hl Hw Hw' H;
    destruct ws' as [|w' ws' _] using rev_ind; rewrite ?length_app in Hl; simpl in Hl; try lia.
  - done.
  - rewrite !foldl_app in H. apply Forall_app in Hw as [Hw Hlast%Forall_inv].
    apply Forall_app in Hw' as [Hw' Hlast'%Forall_inv].
    destruct (last_word _ _ _ _ Hlast Hlast' H) as [H' ->].
    by destruct (IH ws' ltac:(lia) Hw Hw' H') as [-> ->].
Qed.

Lemma pretty_go_word x s : word s → word (pretty_N_go x s).
Proof.
  revert s. induction x as [x IH] using (well_founded_induction N.lt_wf_0). intros s Hs.
  assert (x = 0 ∨ 0 < x)%N as [->|?] by lia; [by rewrite pretty_N_go_0|].
  rewrite pretty_N_go_step by done. apply IH; [by apply N.div_lt|].
  unfold word, bytes_of in *. simpl. intros [Hc|?]%elem_of_cons; [|done].
  unfold pretty_N_char in Hc. by repeat case_match.
Qed.

Lemma pretty_word (n : N) : word (pretty n).
Proof.
  unfold pretty, pretty_N. case_decide.
  - unfold word. apply (bool_decide_unpack (_ ∉ _)). by vm_compute.
  - apply pretty_go_word. by intros ?%elem_of_nil.
Qed.

Lemma word_snoc s s' : word s → word s' → word (s +:+ s').
Proof. unfold word. rewrite bytes_of_app. set_solver. Qed.

(** ** The displays of the libraries

    Keys are displayed in base64, dates as a day, a time and [UTC]; both
    determine what they display. *)
Class DisplayLaws (Tx : Type) `{lib : ServerLib Tx} : Prop := {
  ed25519_display_inj : Inj (=) (=) ed25519_display;
  ed25519_display_word vk : word (ed25519_display vk);
  date_words t date : utc_from_timestamp t = Some date →
    ∃ day time zone, date = day +:+ " " +:+ time +:+ " " +:+ zone ∧
      word day ∧ word time ∧ word zone;
  date_inj t t' date :
    utc_from_timestamp t = Some date → utc_from_timestamp t' = Some date → t = t';
}.

(** ** The signed message *)
Section signing.
  Context {I C K T : Type}.
  Abbreviation Tx := (TransactionProto I C K T).
  Context {node : FullNode Tx} {sui : SuiTypes} {sym : Symmetric} {crv : Curve}
    {bcs : BcsTypes} {profile : BuildProfile} {semver : SemVer} {mvr : MvrLib}
    {ptb_lib : PtbLib} {lib : ServerLib Tx} {display_laws : DisplayLaws Tx}.

(** The text after the package name, as words. *)
Lemma signed_message_words {E : Type} name vk t ttl msg :
  signed_message (E := E) name vk t ttl = Ok msg →
  ∃ day time zone, utc_from_timestamp (t / 1000)%N = Some (day +:+ " " +:+ time +:+ " " +:+ zone) ∧
    let ws := ["for"; pretty ttl; "mins"; "from"; day; time; zone +:+ ","; "session"; "key";
               ed25519_display vk] in
    Forall word ws ∧ msg = sentence ("Accessing keys of package " +:+ name) ws.
Proof.
  unfold signed_message. intros (date & Hd & [= <-])%bind_ok_inv.
  destruct (utc_from_timestamp _) as [d|] eqn:Hu; [|done]. injection Hd as ->.
  destruct (date_words _ _ Hu) as (day & time & zone & -> & ? & ? & ?).
  exists day, time, zone. split; [done|]. split.
  - repeat constructor; try done; try (by apply (bool_decide_unpack (_ ∉ _)));
      [apply pretty_word|apply word_snoc; [done|by apply (bool_decide_unpack (_ ∉ _))]|
       apply ed25519_display_word].
  - apply bytes_of_inj. unfold sentence. simpl foldl.
    rewrite !bytes_of_app, <-!app_assoc. reflexivity.
Qed.

(** C36: what a user signs for. Two certificates of which the signed texts are
    the same are for the same package name, whatever characters it has, the
    same session key, the same number of minutes, and were created in the same
    second; so a signature on one cannot serve for another package, another
    session key or another period. *)
Theorem signed_message_binds {E : Type} (name name' : string) (vk vk' : list byte)
    (t t' ttl ttl' : N) (msg : string) :
  signed_message (E := E) name vk t ttl = Ok msg →
  signed_message (E := E) name' vk' t' ttl' = Ok msg →
  name = name' ∧ vk = vk' ∧ (t / 1000 = t' / 1000)%N ∧ ttl = ttl'.
Proof.
  intros (day & time & zone & Hu & Hw & ->)%signed_message_words.
  intros (day' & time' & zone' & Hu' & Hw' & Heq)%signed_message_words.
  apply sentence_inj in Heq as [Hn Hws]; [|done..].
  injection Hws as Httl Hday Htime Hzone Hvk. apply (inj pretty) in Httl.
  apply ed25519_display_inj in Hvk. subst.
  assert (name = name') as ->.
  { apply bytes_of_inj. apply (f_equal bytes_of) in Hn. rewrite !bytes_of_app in Hn.
    by apply app_inv_head in Hn. }
  assert (zone = zone') as ->.
  { apply bytes_of_inj. apply (f_equal bytes_of) in Hzone. rewrite !bytes_of_app in Hzone.
    by apply app_inv_tail in Hzone. }
  split_and!; [done..|by eapply date_inj|done].
Qed.
End signing.

(** ** Witness: dates are days of their number, keys are the number of their bytes *)
#[local] Existing Instances Toy.symmetric Toy.curve ToyChain.sui ToyCommon.semver
  ToyCommon.profile ToyServer.node ToyServer.bcs.

#[local] Instance toy_displays : ServerLib (TransactionProto unit unit unit unit) := {
  verify_personal_message_signature :=
    verify_personal_message_signature (ServerLib := ToyServer.lib);
  ed25519_verify := ed25519_verify (ServerLib := ToyServer.lib);
  ed25519_display vk := pretty (Npos (countable.encode vk));
  utc_from_timestamp t := Some (pretty t +:+ " 00:00:00 UTC");
  bcs_encode_ptb := bcs_encode_ptb (ServerLib := ToyServer.lib);
  bcs_encode_g1 := bcs_encode_g1 (ServerLib := ToyServer.lib);
  bcs_encode_request := bcs_encode_request (ServerLib := ToyServer.lib);
  transaction_data := transaction_data (ServerLib := ToyServer.lib);
  SUI_FRAMEWORK_ADDRESS := [Byte.x02]; SUI_ADDRESS_ALIAS_STATE_OBJECT_ID := [Byte.x0c];
}.

#[local] Instance toy_display_laws : DisplayLaws (TransactionProto unit unit unit unit).
Proof.
  split; cbn.
  - intros vk vk' H. apply (inj pretty) in H. injection H as H. by apply (inj countable.encode) in H.
  - intros vk. apply pretty_word.
  - intros t date [= <-]. exists (pretty t), "00:00:00", "UTC". split; [done|].
    split; [apply pretty_word|]. by split; apply (bool_decide_unpack (_ ∉ _)).
  - intros t t' date [= <-] [= H]. apply (inj pretty).
    apply bytes_of_inj. apply (f_equal bytes_of) in H. rewrite !bytes_of_app in H.
    by apply app_inv_tail in H.
Defined.

(** The name of a package may have the words of the text. *)
Lemma signed_message_binds_witness :
  let name := "@my/package for 30 mins from 1 00:00:00 UTC, session key 1" in
  ∃ msg, signed_message (E := unit) name [Byte.x01] 5000 10 = Ok msg ∧
    signed_message (E := unit) name [Byte.x01] 5999 10 = Ok msg ∧ (5000 / 1000 = 5999 / 1000)%N.
Proof.
  cbv zeta. set (name := "@my/package for 30 mins from 1 00:00:00 UTC, session key 1").
  destruct (signed_message (E := unit) name [Byte.x01] 5000 10) as [msg| |] eqn:Hm;
    [|discriminate Hm..].
  exists msg. split; [reflexivity|]. split; [exact Hm|].
  destruct (signed_message_binds (E := unit) name name [Byte.x01] [Byte.x01] 5000 5999 10 10 msg Hm Hm)
    as (_ & _ & Ht & _).
  exact Ht.
Defined.
