(* ===== verification/Sdk.v ===== *)
(** * The client SDK ([crates/seal-sdk/src/lib.rs])

    What a client does with the responses of the key servers: decrypt and
    verify the keys, cache them by identity and server, and decrypt objects
    with the cache. The main theorem does not trust the servers: whatever they
    answered, an object decrypts to what was encrypted as soon as enough of
    the accepted responses held a key for it. *)

From Stdlib Require Import NArith Lia.
From stdpp Require Import pretty.
From S2P Require Import Prelude Utils Primitives Dem Elgamal Ibe Seal SealTheory Common Chain KeyServer.

Abbreviation KeyCache := (gmap (list byte) (gmap ObjectID UserSecretKey)).

Section sdk.
  Context {sym : Symmetric} {crv : Curve} {sui : SuiTypes} (hex_encode : list byte → string).

(** The keys of one response. *)
Fixpoint cache_keys (enc_secret : SecretKey Scalar) (server_id : ObjectID)
    (public_key : IbePublicKey) (decryption_keys : list DecryptionKey)
    (cached_keys : KeyCache) : outcome FastCryptoError KeyCache :=
  match decryption_keys with
  | [] => Ok cached_keys
  | decryption_key :: rest =>
      let user_secret_key := decrypt enc_secret (dk_encrypted_key decryption_key) in
      let id := dk_id decryption_key in
      _ ← verify_user_secret_key user_secret_key id public_key;
      cache_keys enc_secret server_id public_key rest
        (<[id := <[server_id := user_secret_key]> (default ∅ (cached_keys !! id))]> cached_keys)
  end.

Definition no_public_key (server_id : ObjectID) : FastCryptoError :=
  GeneralError ("No public key configured for server " +:+ address_to_string server_id).

Fixpoint cache_responses (enc_secret : SecretKey Scalar)
    (server_pk_map : gmap ObjectID IbePublicKey)
    (seal_responses : list (ObjectID * FetchKeyResponse)) (cached_keys : KeyCache) :
    outcome FastCryptoError KeyCache :=
  match seal_responses with
  | [] => Ok cached_keys
  | (server_id, seal_response) :: rest =>
      public_key ← ok_or (server_pk_map !! server_id) (no_public_key server_id);
      cached_keys ← cache_keys enc_secret server_id public_key
                      (decryption_keys seal_response) cached_keys;
      cache_responses enc_secret server_pk_map rest cached_keys
  end.

Definition decrypt_seal_responses (enc_secret : SecretKey Scalar)
    (seal_responses : list (ObjectID * FetchKeyResponse))
    (server_pk_map : gmap ObjectID IbePublicKey) : outcome FastCryptoError KeyCache :=
  cache_responses enc_secret server_pk_map seal_responses ∅.

(** The loop over the services of an object. *)
Fixpoint service_keys (keys_for_id : gmap ObjectID UserSecretKey)
    (server_pk_map : gmap ObjectID IbePublicKey) (services : list (ObjectID * byte))
    (usks : gmap ObjectID UserSecretKey) (pks : list IbePublicKey) :
    outcome FastCryptoError (gmap ObjectID UserSecretKey * list IbePublicKey) :=
  match services with
  | [] => Ok (usks, pks)
  | (server_id, _) :: services =>
      let usks :=
        match keys_for_id !! server_id with
        | Some user_secret_key => <[server_id := user_secret_key]> usks
        | None => usks
        end in
      pk ← ok_or (server_pk_map !! server_id) (no_public_key server_id);
      service_keys keys_for_id server_pk_map services usks (pks ++ [pk])
  end.

Definition seal_decrypt_object (encrypted_object : EncryptedObject) (cached_keys : KeyCache)
    (server_pk_map : gmap ObjectID IbePublicKey) : outcome FastCryptoError (list byte) :=
  let full_id := create_full_id (eo_package_id encrypted_object) (eo_id encrypted_object) in
  keys_for_id ← ok_or (cached_keys !! full_id)
    (GeneralError ("No keys available for object with full_id " +:+ hex_encode full_id));
  '(usks, pks) ← service_keys keys_for_id server_pk_map (eo_services encrypted_object) ∅ [];
  if (N.of_nat (size usks) <? u8_val (eo_threshold encrypted_object))%N
  then Err (GeneralError ("Insufficient keys for object: have " +:+ pretty (size usks)
         +:+ ", threshold requires " +:+ pretty (u8_val (eo_threshold encrypted_object))))
  else seal_decrypt encrypted_object (BonehFranklinUserSecretKeys usks)
         (Some (BonehFranklinPublicKeys pks)).
End sdk.

(** ** What the cache holds *)
Section theory.
  Context {sym : Symmetric} {sym_laws : SymmetricLaws} {crv : Curve} {crv_laws : CurveLaws}
    {sui : SuiTypes}.

Definition cached (c : KeyCache) (fid : list byte) (s : ObjectID) : option UserSecretKey :=
  c !! fid ≫= (.!! s).

Lemma cached_insert c fid fid' s s' usk :
  cached (<[fid := <[s := usk]> (default ∅ (c !! fid))]> c) fid' s' =
  if decide (fid = fid' ∧ s = s') then Some usk else cached c fid' s'.
Proof.
  unfold cached. destruct (decide (fid = fid')) as [<-|Hne].
  - rewrite lookup_insert_eq. cbn [mbind option_bind]. destruct (decide (s = s')) as [<-|Hs].
    + by rewrite lookup_insert_eq, decide_True.
    + rewrite lookup_insert_ne, decide_False by tauto.
      destruct (c !! fid); [done|]. apply lookup_empty.
  - by rewrite lookup_insert_ne, decide_False by tauto.
Qed.

(** Every cached key was in a response and verified; every key of a response
    is cached, for its server. *)
Lemma cache_keys_spec sk s pk dks c c' :
  cache_keys sk s pk dks c = Ok c' →
  (∀ fid s' usk, cached c' fid s' = Some usk →
     cached c fid s' = Some usk ∨ (s' = s ∧ verify_user_secret_key usk fid pk = Ok ())) ∧
  (∀ fid s', is_Some (cached c fid s') → is_Some (cached c' fid s')) ∧
  (∀ dk, dk ∈ dks → is_Some (cached c' (dk_id dk) s)).
Proof.
  revert c. induction dks as [|dk dks IH]; intros c; simpl.
  { intros [= <-]. split_and!; [by left|done|]. by intros dk ?%elem_of_nil. }
  intros ([] & Hv & Hc)%bind_ok_inv. apply IH in Hc as (H1 & H2 & H3). split_and!.
  - intros fid s' usk Hu. destruct (H1 fid s' usk Hu) as [Hi|]; [|by right].
    rewrite cached_insert in Hi. case_decide as Hd; [|by left].
    destruct Hd as [<- <-]. injection Hi as <-. by right.
  - intros fid s' Hs. apply H2. rewrite cached_insert. case_decide; by eauto.
  - intros dk' [->|Hin]%elem_of_cons; [|by apply H3].
    apply H2. rewrite cached_insert, decide_True by done. eauto.
Qed.

Lemma cache_responses_spec sk pks rs c c' :
  cache_responses sk pks rs c = Ok c' →
  (∀ fid s usk, cached c' fid s = Some usk →
     cached c fid s = Some usk ∨
     ∃ pk, pks !! s = Some pk ∧ verify_user_secret_key usk fid pk = Ok ()) ∧
  (∀ fid s, is_Some (cached c fid s) → is_Some (cached c' fid s)) ∧
  (∀ s r dk, (s, r) ∈ rs → dk ∈ decryption_keys r → is_Some (cached c' (dk_id dk) s)).
Proof.
  revert c. induction rs as [|[s r] rs IH]; intros c; simpl.
  { intros [= <-]. split_and!; [by left|done|]. by intros s r dk ?%elem_of_nil. }
  intros (pk & Hpk & (c1 & Hc1 & Hc)%bind_ok_inv)%bind_ok_inv.
  destruct (pks !! s) as [pk'|] eqn:Hs; [|done]. injection Hpk as ->.
  apply cache_keys_spec in Hc1 as (K1 & K2 & K3). apply IH in Hc as (H1 & H2 & H3).
  split_and!.
  - intros fid s' usk Hu. destruct (H1 fid s' usk Hu) as [Hi|]; [|by right].
    destruct (K1 fid s' usk Hi) as [|[-> ?]]; [by left|]. right. by exists pk.
  - intros fid s' Hi. by apply H2, K2.
  - intros s' r' dk [[= -> ->]|Hin]%elem_of_cons Hdk; [by apply H2, K3|by eapply H3].
Qed.

Lemma service_keys_spec keys pk_map services usks pks :
  Forall (λ service : ObjectID * byte, is_Some (pk_map !! service.1)) services →
  ∃ usks' pks', service_keys keys pk_map services usks pks = Ok (usks', pks ++ pks') ∧
    Forall2 (λ (service : ObjectID * byte) pk, pk_map !! service.1 = Some pk) services pks' ∧
    ∀ s, usks' !! s = if decide (s ∈ services.*1 ∧ is_Some (keys !! s)) then keys !! s
                      else usks !! s.
Proof.
  revert usks pks. induction services as [|[s i] services IH]; intros usks pks HF;
    cbn [service_keys].
  { exists usks, []. rewrite app_nil_r. split_and!; [done|constructor|].
    intros s. by rewrite decide_False by set_solver. }
  apply Forall_cons_1 in HF as [[pk Hpk] HF]. simpl in Hpk. rewrite Hpk.
  edestruct (IH (match keys !! s with Some u => <[s := u]> usks | None => usks end)
    (pks ++ [pk]) HF) as (usks' & pks' & Hrun & H2 & Hl).
  exists usks', (pk :: pks'). split_and!.
  - cbn [ok_or mbind outcome_bind]. by rewrite Hrun, <-app_assoc.
  - by constructor.
  - intros s'. rewrite Hl. destruct (decide (s' ∈ services.*1 ∧ is_Some (keys !! s'))) as [Hd|Hd].
    { rewrite decide_True; [done|]. csimpl. set_solver. }
    destruct (decide (s' = s)) as [->|Hne].
    + destruct (keys !! s) as [u|] eqn:Hu.
      * rewrite lookup_insert_eq, decide_True; [done|]. csimpl. split; [by left|eauto].
      * rewrite decide_False; [done|]. by intros [_ [? ?]].
    + assert (¬ (s' ∈ s :: services.*1 ∧ is_Some (keys !! s'))) by set_solver.
      csimpl. rewrite decide_False by done. destruct (keys !! s); [|done].
      by rewrite lookup_insert_ne.
Qed.
Lemma Forall2_some_unique {A B : Type} (f : A → option B) l k k' :
  Forall2 (λ x y, f x = Some y) l k → Forall2 (λ x y, f x = Some y) l k' → k = k'.
Proof.
  intros Hk. revert k'. induction Hk; inversion 1; [done|]. f_equal; [congruence|auto].
Qed.

(** ** Decryption with a cache *)
Lemma cache_keys_ok sk s pk dks c :
  Forall (λ dk, verify_user_secret_key (decrypt sk (dk_encrypted_key dk)) (dk_id dk) pk = Ok ()) dks →
  ∃ c', cache_keys sk s pk dks c = Ok c'.
Proof.
  intros HF. revert c. induction HF as [|dk dks Hv HF IH]; intros c; simpl; [by eexists|].
  rewrite Hv. apply IH.
Qed.

(** Responses whose keys all verify are accepted. *)
Lemma decrypt_seal_responses_ok sk pks rs :
  Forall (λ '(s, r), ∃ pk, pks !! s = Some pk ∧
    Forall (λ dk, verify_user_secret_key (decrypt sk (dk_encrypted_key dk)) (dk_id dk) pk = Ok ())
      (decryption_keys r)) rs →
  ∃ c, decrypt_seal_responses sk rs pks = Ok c.
Proof.
  unfold decrypt_seal_responses. intros HF. generalize (∅ : KeyCache).
  induction HF as [|[s r] rs (pk & Hpk & Hv) HF IH]; intros c; simpl; [by eexists|].
  rewrite Hpk. destruct (cache_keys_ok sk s pk _ c Hv) as [c' Hc]. cbn [ok_or mbind outcome_bind].
  rewrite Hc. apply IH.
Qed.

(** A cache of verified keys decrypts, once it has enough servers. *)
Lemma cached_keys_decrypt {R : Type} `{AllowedRng R, !RngLaws R} (hex_encode : list byte → string)
    (package_id : ObjectID) (id : list byte) (key_servers : list ObjectID)
    (msks : list MasterKey) (t : byte) (input : EncryptionInput) (rng rng' : R)
    (obj : EncryptedObject) (key : list byte) (server_pk_map : gmap ObjectID IbePublicKey)
    (cached_keys : KeyCache) (servers : list ObjectID) :
  seal_encrypt package_id id key_servers
    (BonehFranklinPublicKeys (public_key_from_master_key <$> msks)) t input rng
    = (Ok (obj, key), rng') →
  Forall2 (λ ks msk, server_pk_map !! ks = Some (public_key_from_master_key msk))
    key_servers msks →
  (∀ fid s usk, cached cached_keys fid s = Some usk →
     ∃ pk, server_pk_map !! s = Some pk ∧ verify_user_secret_key usk fid pk = Ok ()) →
  NoDup servers → N.to_nat (u8_val t) ≤ length servers →
  (∀ s, s ∈ servers → s ∈ key_servers ∧
     is_Some (cached cached_keys (create_full_id package_id id) s)) →
  seal_decrypt_object hex_encode obj cached_keys server_pk_map =
    Ok (match input with EAes256Gcm m _ | EHmac256Ctr m _ => m | EPlain => key end).
Proof.
  intros He Hmap H1 Hnd Ht Hserv. set (fid := create_full_id package_id id) in *.
  pose proof (seal_encrypt_object _ _ _ _ _ _ _ _ _ _ He) as (Hpkg & Hid & Hthr & Ht0 & Hsv).
  unfold seal_decrypt_object. rewrite Hpkg, Hid. fold fid.
  assert (is_Some (cached_keys !! fid)) as [keys Hkeys].
  { destruct servers as [|s servers].
    - assert (u8_val t ≠ 0%N) by (by intros ?%(inj u8_val t u8_zero)). simpl in Ht. lia.
    - destruct (Hserv s) as [_ [usk Hu]]; [by left|]. unfold cached in Hu.
      destruct (cached_keys !! fid); [eauto|done]. }
  rewrite Hkeys. cbn [ok_or mbind outcome_bind].
  destruct (service_keys_spec keys server_pk_map (eo_services obj) ∅ []) as
    (usks & pks & -> & Hpks & Hl).
  { rewrite <-Hsv in Hmap. apply Forall_forall. intros service Hin.
    apply (list_elem_of_fmap_2 fst), list_elem_of_lookup_1 in Hin as [i Hi].
    destruct (Forall2_lookup_l _ _ _ _ _ Hmap Hi) as (msk & _ & Hm). eauto. }
  cbn [mbind outcome_bind app]. rewrite Hsv, Hthr in *.
  assert (pks = public_key_from_master_key <$> msks) as ->.
  { eapply (Forall2_some_unique (server_pk_map !!.)); [|by apply Forall2_fmap_r].
    rewrite <-Hsv. by apply Forall2_fmap_l. }
  assert (∀ s, s ∈ servers → is_Some (usks !! s)) as Husks.
  { intros s Hin. destruct (Hserv s Hin) as [Hks Hc]. unfold cached in Hc.
    rewrite Hkeys in Hc. cbn [mbind option_bind] in Hc. by rewrite Hl, decide_True. }
  rewrite (proj2 (N.ltb_ge _ _)).
  2: { assert (length servers ≤ size usks); [|lia].
       rewrite <-(size_list_to_set (C := gset ObjectID)), <-size_dom by done.
       apply subseteq_size. intros s Hin%elem_of_list_to_set.
       by apply elem_of_dom, Husks. }
  apply (seal_decrypt_of_encrypt _ _ _ _ _ _ _ _ _ _ _ _ He); [| |by right].
  - intros i ks msk usk Hi Hm Hu. rewrite Hl in Hu. case_decide as Hd; [|done].
    assert (cached cached_keys fid ks = Some usk) as Hc by (unfold cached; by rewrite Hkeys).
    destruct (H1 _ _ _ Hc) as (pk & Hpk & Hv).
    rewrite (Forall2_lookup_lr _ _ _ _ _ _ Hmap Hi Hm) in Hpk. injection Hpk as <-.
    by apply verify_user_secret_key_ok.
  - etrans; [exact Ht|]. apply submseteq_length, NoDup_submseteq; [done|].
    intros s Hin. apply list_elem_of_In, filter_In. destruct (Hserv s Hin) as [Hks _].
    split; [by apply list_elem_of_In|]. by apply bool_decide_eq_true, Husks.
Qed.

(** Every cached key verifies; every key of a response is cached. *)
Lemma decrypt_seal_responses_spec sk rs pks c :
  decrypt_seal_responses sk rs pks = Ok c →
  (∀ fid s usk, cached c fid s = Some usk →
     ∃ pk, pks !! s = Some pk ∧ verify_user_secret_key usk fid pk = Ok ()) ∧
  (∀ s r dk, (s, r) ∈ rs → dk ∈ decryption_keys r → is_Some (cached c (dk_id dk) s)).
Proof.
  intros (H1 & _ & H3)%cache_responses_spec. split; [|done]. intros fid s usk Hu.
  destruct (H1 _ _ _ Hu) as [Hn|?]; [|done]. unfold cached in Hn. by rewrite lookup_empty in Hn.
Qed.

(** ** Properties *)

(** Decryption with the SDK needs no honest responses. Suppose an object
    was encrypted to the public keys of [key_servers], the client has those
    public keys, and [decrypt_seal_responses] accepted some responses, whoever
    made them. Once [threshold] distinct key servers of the object have each
    answered a key for the object's full id, [seal_decrypt_object] returns the
    message, or the derived key in the plain mode. *)
Theorem sdk_decrypts {R : Type} `{AllowedRng R, !RngLaws R} (hex_encode : list byte → string)
    (package_id : ObjectID) (id : list byte) (key_servers : list ObjectID)
    (msks : list MasterKey) (t : byte) (input : EncryptionInput) (rng rng' : R)
    (obj : EncryptedObject) (key : list byte) (server_pk_map : gmap ObjectID IbePublicKey)
    (enc_secret : SecretKey Scalar) (responses : list (ObjectID * FetchKeyResponse))
    (cached_keys : KeyCache) (servers : list ObjectID) :
  seal_encrypt package_id id key_servers
    (BonehFranklinPublicKeys (public_key_from_master_key <$> msks)) t input rng
    = (Ok (obj, key), rng') →
  Forall2 (λ ks msk, server_pk_map !! ks = Some (public_key_from_master_key msk))
    key_servers msks →
  decrypt_seal_responses enc_secret responses server_pk_map = Ok cached_keys →
  NoDup servers → N.to_nat (u8_val t) ≤ length servers →
  Forall (λ s, s ∈ key_servers ∧ ∃ r, (s, r) ∈ responses ∧
            create_full_id package_id id ∈ dk_id <$> decryption_keys r) servers →
  seal_decrypt_object hex_encode obj cached_keys server_pk_map =
    Ok (match input with EAes256Gcm m _ | EHmac256Ctr m _ => m | EPlain => key end).
Proof.
  intros He Hmap Hresp Hnd Ht Hs. apply decrypt_seal_responses_spec in Hresp as [H1 H3].
  apply (cached_keys_decrypt _ _ _ _ _ _ _ _ _ _ _ _ _ servers He Hmap H1 Hnd Ht).
  intros s Hin. rewrite Forall_forall in Hs.
  destruct (Hs s Hin) as (Hk & r & Hr & (dk & -> & Hdk)%list_elem_of_fmap_1).
  split; [done|]. by eapply H3.
Qed.
End theory.

(** ** Witness: two of three servers answer, threshold two *)
#[local] Existing Instances Toy.symmetric Toy.symmetric_laws Toy.curve Toy.curve_laws ToyChain.sui.

Definition toy_ids : list ObjectID := [[Byte.xa1]; [Byte.xa2]; [Byte.xa3]].
Definition toy_master_keys : list (MasterKey (Curve := Toy.curve)) :=
  [Byte.x03; Byte.x05; Byte.x07].
Definition toy_full_id : list byte := create_full_id [Byte.x50] [Byte.x01].
Definition toy_pk_map : gmap ObjectID (IbePublicKey (Curve := Toy.curve)) :=
  list_to_map (zip toy_ids (public_key_from_master_key <$> toy_master_keys)).
Definition toy_secret : SecretKey (Scalar (Curve := Toy.curve)) := mkSecretKey Byte.x0d.

Definition toy_response (master_key : MasterKey (Curve := Toy.curve)) : FetchKeyResponse :=
  mkFetchKeyResponse (encrypt_keys (crv := Toy.curve) master_key
    (mkPublicKey (g_mul g_generator (sk_scalar toy_secret))) [toy_full_id] [Byte.x11]).1.

Lemma sdk_decrypts_witness :
  ∃ obj key rng' cached_keys,
    seal_encrypt [Byte.x50] [Byte.x01] toy_ids
      (BonehFranklinPublicKeys (public_key_from_master_key <$> toy_master_keys)) Byte.x02
      (EHmac256Ctr (bytes_of "seal") None) all_bytes = (Ok (obj, key), rng') ∧
    seal_decrypt_object (λ _, "") obj cached_keys toy_pk_map = Ok (bytes_of "seal").
Proof.
  set (rs := [([Byte.xa3], toy_response Byte.x07); ([Byte.xa1], toy_response Byte.x03)]).
  set (enc := seal_encrypt _ _ _ _ _ _ _).
  assert (is_ok enc.1 = true) as He by (vm_compute; reflexivity).
  destruct enc as [[[obj key]| |] rng'] eqn:Henc; [|discriminate He..].
  assert (is_ok (decrypt_seal_responses toy_secret rs toy_pk_map) = true) as Hd
    by (vm_compute; reflexivity).
  destruct (decrypt_seal_responses toy_secret rs toy_pk_map) as [c| |] eqn:Hc;
    [|discriminate Hd..].
  exists obj, key, rng', c. split; [reflexivity|].
  apply (sdk_decrypts (λ _, "") [Byte.x50] [Byte.x01] toy_ids toy_master_keys Byte.x02
    (EHmac256Ctr (bytes_of "seal") None) all_bytes rng' obj key toy_pk_map toy_secret rs c
    [[Byte.xa1]; [Byte.xa3]] Henc).
  - repeat constructor.
  - exact Hc.
  - by apply (bool_decide_unpack (NoDup _)).
  - vm_compute. lia.
  - repeat constructor; try (apply (bool_decide_unpack (_ ∈ _)); vm_compute; exact I).
    + exists (toy_response Byte.x03). split; [right; left|].
      apply (bool_decide_unpack (_ ∈ _)). vm_compute. exact I.
    + exists (toy_response Byte.x07). split; [left|].
      apply (bool_decide_unpack (_ ∈ _)). vm_compute. exact I.
Defined.
