(* ===== verification/Aggregator.v ===== *)
(** * The aggregator ([crates/key-server/src/aggregator/server.rs], [utils.rs])

    A committee's front end: it relays a request for keys to the members'
    servers, verifies their encrypted partial keys, and aggregates [threshold]
    of them, or answers with the most frequent error. *)

From Stdlib Require Import NArith Lia.
From stdpp Require Import pretty.
From S2P Require Import Prelude Utils Primitives Elgamal Ibe Seal Common Chain Committee RpcClient.
From S2P Require Import ValidPtb Options Mvr KeyServer RequestJson.

Definition REFRESH_INTERVAL_SECS : N := 30.

(** ** Options and state *)
Record ApiCredentials : Type := mkApiCredentials { api_key_name : string; api_key : string }.

Section options.
  Context {semver : SemVer} {crv : Curve}.

Record AggregatorOptions : Type := mkAggregatorOptions {
  ao_network : Network;
  ao_node_url : option string;
  ao_key_server_object_id : Address;
  ao_ts_sdk_version_requirement : VersionReq;
  ao_rust_sdk_version_requirement : VersionReq;
  ao_key_server_version_requirement : VersionReq;
  ao_key_server_timeout_secs : N;
  ao_api_credentials : gmap string ApiCredentials;
  ao_rpc_config : RpcConfig;
  ao_metrics_push_config : option MetricsPushConfig;
}.

#[global] Instance AggregatorOptions_network : NetworkConfig AggregatorOptions := {
  network_of := ao_network;
  node_url_option := ao_node_url;
}.

Definition aggregator_ts_sdk_version_requirement {E : Type} : outcome E VersionReq :=
  expect (req_parse ">=0.10.0").
Definition aggregator_rust_sdk_version_requirement {E : Type} : outcome E VersionReq :=
  expect (req_parse ">=0.0.0").
Definition aggregator_key_server_version_requirement {E : Type} : outcome E VersionReq :=
  expect (req_parse ">=0.6.2").
Definition default_key_server_timeout_secs : N := 8.

Record CommitteeSnapshot : Type := mkCommitteeSnapshot {
  cs_threshold : N;
  cs_members : list PartialKeyServer;
}.

(** ** Versions of clients and key servers *)
Definition validate_client_sdk_version (version : string) (sdk_type : ClientSdkType)
    (ts_requirement rust_requirement : VersionReq) : outcome InternalError unit :=
  version ← ok_or (version_parse version) InvalidSDKVersion;
  match sdk_type with
  | TypeScript => if negb (req_matches ts_requirement version) then Err DeprecatedSDKVersion
                  else Ok ()
  | Rust => if negb (req_matches rust_requirement version) then Err DeprecatedSDKVersion
            else Ok ()
  | Aggregator | Other => Err InvalidSDKType
  end.

Definition validate_client_sdk_headers (to_str : list byte → option string)
    (sdk_type_header version_header : option (list byte))
    (ts_requirement rust_requirement : VersionReq) :
    outcome InternalError (ClientSdkType * string) :=
  sdk_type_header ← ok_or sdk_type_header InvalidSDKType;
  sdk_type_str ← ok_or (to_str sdk_type_header) InvalidSDKType;
  sdk_type ← from_header (Some sdk_type_str);
  version_header ← ok_or version_header (MissingRequiredHeader HEADER_CLIENT_SDK_VERSION);
  version_str ← ok_or (to_str version_header) InvalidSDKVersion;
  _ ← validate_client_sdk_version version_str sdk_type ts_requirement rust_requirement;
  Ok (sdk_type, version_str).

(** Versions and requirements are displayed in one message only. *)
Definition validate_key_server_version (to_str : list byte → option string)
    (version_display : Version → string) (requirement_display : VersionReq → string)
    (version : option (list byte)) (ks_version_req : VersionReq) :
    outcome InternalError unit :=
  v ← ok_or version (Failure "Missing key server version header: X-KeyServer-Version");
  s ← ok_or (to_str v) (Failure "Invalid key server version header");
  version ← ok_or (version_parse s) (Failure ("Failed to parse key server version: " +:+ s));
  if negb (req_matches ks_version_req version)
  then Err (Failure ("Key server version " +:+ version_display version
         +:+ " does not meet requirement " +:+ requirement_display ks_version_req))
  else Ok ().
End options.

(** ** [utils.rs] *)

Section utils.
  Context {crv : Curve} {order : HashOrder} (hex_encode : list byte → string).

(** [shares_by_key_id.entry(dk.id).or_default().push(..)]. *)
Definition push_share (shares : gmap (list byte) (list (N * Encryption G1Element)))
    (party_id : N) (dk : DecryptionKey) : gmap (list byte) (list (N * Encryption G1Element)) :=
  <[dk_id dk := default [] (shares !! dk_id dk) ++ [(party_id, dk_encrypted_key dk)]]> shares.

Definition shares_by_key_id (responses : list (N * FetchKeyResponse)) :
    gmap (list byte) (list (N * Encryption G1Element)) :=
  fold_left (λ shares '(party_id, response),
    fold_left (λ shares dk, push_share shares party_id dk) (decryption_keys response) shares)
    responses ∅.

Definition aggregate_verified_encrypted_responses `{RecoverC0 Scalar G1Element} (threshold : N)
    (responses : list (N * FetchKeyResponse)) : outcome FastCryptoError FetchKeyResponse :=
  if negb (N.of_nat (length responses) =? threshold)%N then Err InvalidInput
  else
    decryption_keys ← try_map (λ '(key_id, encrypted_shares),
        aggregated_encrypted ← aggregate_encrypted threshold encrypted_shares;
        Ok (mkDecryptionKey key_id aggregated_encrypted))
      (hash_order (map_to_list (shares_by_key_id responses)));
    Ok (mkFetchKeyResponse decryption_keys).

Context (error_display : FastCryptoError → string) (ids_debug : list string → string).

Definition verify_decryption_keys (decryption_keys : list DecryptionKey)
    (partial_pk : G2Element) (ephemeral_vk : ElgamalVerificationKey) (party_id : N)
    (expected_full_ids : gset (list byte)) : outcome InternalError unit :=
  if negb (length decryption_keys =? size expected_full_ids)
  then Err (Failure ("party " +:+ pretty party_id +:+ " returned "
         +:+ pretty (length decryption_keys) +:+ " key(s), expected "
         +:+ pretty (size expected_full_ids)))
  else
    let seen : gset (list byte) := list_to_set (dk_id <$> decryption_keys) in
    if negb (size seen =? length decryption_keys)
    then Err (Failure ("duplicate key ids from party " +:+ pretty party_id))
    else if negb (bool_decide (seen = expected_full_ids)) then
      let seen_ids := hex_encode <$> hash_order (elements seen) in
      let expected_ids := hex_encode <$> hash_order (elements expected_full_ids) in
      Err (Failure ("returned key ids did not match expected ids for party "
        +:+ pretty party_id +:+ ": returned=" +:+ ids_debug seen_ids
        +:+ ", expected=" +:+ ids_debug expected_ids))
    else try_for (λ dk,
        map_err (λ e, Failure ("verification failed for party " +:+ pretty party_id
                  +:+ " key_id=" +:+ hex_encode (dk_id dk) +:+ ": " +:+ error_display e))
          (verify_encrypted_signature (dk_encrypted_key dk) ephemeral_vk partial_pk (dk_id dk)))
      decryption_keys.
End utils.

(** ** The most frequent error *)
Section errors.
  Context {order : HashOrder}.

Fixpoint error_counts (counts : gmap string (nat * ErrorResponse))
    (errors : list ErrorResponse) : gmap string (nat * ErrorResponse) :=
  match errors with
  | [] => counts
  | err :: errors =>
      let entry :=
        match counts !! er_error err with
        | Some (count, first) => (S count, first)
        | None => (1, err)
        end in
      error_counts (<[er_error err := entry]> counts) errors
  end.

(** [Iterator::max_by_key] returns the last of the maxima. *)
Fixpoint max_by_key {A : Type} (key : A → nat) (best : option A) (l : list A) : option A :=
  match l with
  | [] => best
  | x :: l =>
      let best :=
        match best with
        | Some b => if key x <? key b then Some b else Some x
        | None => Some x
        end in
      max_by_key key best l
  end.

Definition handle_insufficient_responses (errors_debug : list ErrorResponse → string)
    (got threshold : nat) (errors : list ErrorResponse) : ErrorResponse :=
  let msg := "Insufficient responses: got " +:+ pretty got +:+ ", need " +:+ pretty threshold
               +:+ ". Errors: " +:+ errors_debug errors in
  match max_by_key (λ e : string * (nat * ErrorResponse), e.2.1) None
          (hash_order (map_to_list (error_counts ∅ errors))) with
  | Some (_, (_, majority_error)) => majority_error
  | None => error_response (Failure msg)
  end.
End errors.

(** ** The server *)

(** What the code reads of an HTTP response. *)
Record HttpResponse `{Curve} : Type := mkHttpResponse {
  http_is_success : bool;
  http_status : string;
  http_header : string → option (list byte);
  http_json_error : option ErrorResponse;
  http_json_body : outcome string FetchKeyResponse;
}.

(** The HTTP client, the JSON library, and renderings in messages. *)
Class AggregatorLib (Tx : Type) `{Curve, SemVer, FullNode Tx} : Type := {
  (** URL, headers, body, timeout in seconds *)
  http_post : string → list (string * string) → string → N → Env → (HttpResponse + string) * Env;
  #[global] agg_json :: RequestJson;
  header_to_str : list byte → option string;
  agg_package_version : string;
  version_display : Version → string;
  requirement_display : VersionReq → string;
  crypto_error_display : FastCryptoError → string;
  agg_hex_encode : list byte → string;
  agg_ids_debug : list string → string;
  agg_errors_debug : list ErrorResponse → string;
}.

Section server.
  Context {I C K T : Type}.
  Abbreviation Tx := (TransactionProto I C K T).
  Context {node : FullNode Tx} {sui : SuiTypes} {sym : Symmetric} {crv : Curve}
    {bcs : BcsTypes} {profile : BuildProfile} {semver : SemVer} {ptb_lib : PtbLib}
    {order : HashOrder} {recover : RecoverC0 Scalar G1Element} {lib : AggregatorLib Tx}.

(** [Err(..)?] of an internal error in a function that returns an
    [ErrorResponse]. *)
Definition internal {A : Type} (o : outcome InternalError A) : M ErrorResponse A :=
  st_lift (map_err error_response o).

Definition get_expected_full_ids (sui_rpc_client : SuiRpcClient) (ptb_b64 : string) :
    M InternalError (gset (list byte)) :=
  valid_ptb ← st_lift (try_from_base64 ptb_b64);
  pkg_id ← st_lift (vptb_pkg_id valid_ptb);
  first_pkg_id ← fetch_first_pkg_id sui_rpc_client pkg_id;
  ids ← st_lift (full_ids valid_ptb first_pkg_id);
  mret (list_to_set ids).

Definition fetch_from_member (member : PartialKeyServer) (request : FetchKeyRequest)
    (req_id : string) (ks_version_req : VersionReq) (api_credentials : ApiCredentials)
    (timeout_secs : N) (expected_full_ids : gset (list byte)) :
    M ErrorResponse FetchKeyResponse :=
  body ← st_lift (expect_ok (to_json_string request));
  sent ← with_env (http_post (pks_url member +:+ "/v1/fetch_key")
    [("Client-Sdk-Type", "aggregator"); (HEADER_CLIENT_SDK_VERSION, agg_package_version);
     ("Request-Id", req_id); ("Content-Type", "application/json");
     (api_key_name api_credentials, api_key api_credentials)] body timeout_secs);
  match sent with
  | inr e => internal (Err (Failure ("Request failed (req_id: " +:+ req_id +:+ "): " +:+ e)))
  | inl response =>
      if negb (http_is_success response) then
        match http_json_error response with
        | Some error_response => st_lift (Err error_response)
        | None => internal (Err (Failure ("HTTP " +:+ http_status response +:+ " (req_id: "
                    +:+ req_id +:+ ")")))
        end
      else
        _ ← internal (validate_key_server_version header_to_str version_display
              requirement_display (http_header response "X-KeyServer-Version") ks_version_req);
        body ← internal (map_err (λ e, Failure ("Parse failed: " +:+ e +:+ " (req_id: "
                           +:+ req_id +:+ ")")) (http_json_body response));
        _ ← internal (verify_decryption_keys agg_hex_encode crypto_error_display agg_ids_debug
              (decryption_keys body) (pks_partial_pk member)
              (req_enc_verification_key request) (pks_party_id member) expected_full_ids);
        mret body
  end.

(** The future of one member: its effects are those of the one HTTP call it
    awaits and of the metrics it records when it completes. *)
Definition member_task (options : AggregatorOptions) (request : FetchKeyRequest)
    (req_id : string) (expected_full_ids : gset (list byte)) (member : PartialKeyServer) :
    M ErrorResponse (N * FetchKeyResponse) :=
  match ao_api_credentials options !! pks_name member with
  | None => internal (Err (Failure ("Missing API credentials config for server '"
              +:+ pks_name member +:+ "' (" +:+ pks_url member +:+ ")")))
  | Some creds =>
      start ← with_env env_instant;
      result ← st_try (fetch_from_member member request req_id
                 (ao_key_server_version_requirement options) creds
                 (ao_key_server_timeout_secs options) expected_full_ids);
      elapsed ← with_env env_instant;
      _ ← record_metric (Observe "key_server_fetch_duration_millis" [pks_name member]
                           (elapsed - start)%N);
      match result with
      | inl response => mret (pks_party_id member, response)
      | inr e =>
          _ ← record_metric (Inc "upstream_key_server_errors" [pks_name member; er_error e]);
          st_lift (Err e)
      end
  end.

(** The loop over the futures as they complete, [pending] in that order; the
    futures that are left when it ends are dropped. *)
Fixpoint collect_responses {A B R : Type} (task : A → M ErrorResponse R)
    (threshold committee_size completed : nat) (pending : list A) (responses : list R)
    (errors : list ErrorResponse) : M B (list R * list ErrorResponse) :=
  match pending with
  | [] => mret (responses, errors)
  | member :: pending =>
      result ← st_try (task member);
      let completed := S completed in
      let '(responses, errors) :=
        match result with
        | inl response => (responses ++ [response], errors)
        | inr e => (responses, errors ++ [e])
        end in
      let reached := match result with inl _ => threshold <=? length responses | _ => false end in
      if reached then mret (responses, errors)
      else
        let tasks_remaining := committee_size - completed in
        if length responses + tasks_remaining <? threshold then mret (responses, errors)
        else collect_responses task threshold committee_size completed pending responses errors
  end.

(** [committee] is read from its lock when the requests are sent; [schedule]
    is the order in which the members' futures complete. *)
Definition aggregator_handle_fetch_key (sui_rpc_client : SuiRpcClient)
    (options : AggregatorOptions) (committee : CommitteeSnapshot)
    (schedule : list PartialKeyServer → list PartialKeyServer)
    (sdk_type_header version_header : option (list byte)) (req_id : string)
    (request : FetchKeyRequest) : M ErrorResponse FetchKeyResponse :=
  _ ← record_metric (Inc "requests" []);
  '(sdk_type, version_str) ← st_map_err error_response
    (tap_err (λ e, observe_error (as_str e))
      (st_lift (validate_client_sdk_headers header_to_str sdk_type_header version_header
         (ao_ts_sdk_version_requirement options) (ao_rust_sdk_version_requirement options))));
  _ ← record_metric (Inc "client_sdk_version" [sdk_as_str sdk_type; version_str]);
  expected_full_ids ← st_map_err error_response
    (tap_err (λ e, observe_error (as_str e))
      (get_expected_full_ids sui_rpc_client (req_ptb request)));
  _ ← record_metric (Observe "expected_key_ids_per_request" []
                       (N.of_nat (size (expected_full_ids : gset (list byte)))));
  if bool_decide (expected_full_ids = ∅) then
    let err := InvalidPTB "Empty key ids" in
    _ ← observe_error (as_str err);
    internal (Err err)
  else
    let threshold := N.to_nat (cs_threshold committee) in
    let members := cs_members committee in
    '(responses, errors) ← collect_responses
      (member_task options request req_id expected_full_ids)
      threshold (length members) 0 (schedule members) [] [];
    if length responses <? threshold then
      let err := handle_insufficient_responses agg_errors_debug (length responses) threshold
                   errors in
      _ ← observe_error (er_error err);
      st_lift (Err err)
    else
      match aggregate_verified_encrypted_responses (cs_threshold committee) responses with
      | Ok aggregated_response => mret aggregated_response
      | Err e =>
          let internal_err :=
            Failure ("Aggregating responses failed: " +:+ crypto_error_display e) in
          _ ← observe_error (as_str internal_err);
          internal (Err internal_err)
      | Panic => st_lift Panic
      end.

Definition aggregator_handle_get_service : StatusCode * string := (BAD_REQUEST, "Unsupported").

(** ** Committee state *)
Definition check_missing_api_credentials (members : list PartialKeyServer)
    (api_credentials : gmap string ApiCredentials) : list PartialKeyServer :=
  List.filter (λ member, bool_decide (api_credentials !! pks_name member = None)) members.

(** [sui_client_built] is whether the legacy client could be built. *)
Definition load_committee_state (options : AggregatorOptions) (sui_client_built : bool) :
    M string (SuiRpcClient * CommitteeSnapshot) :=
  grpc_client ← st_lift (map_err (λ _, "Failed to create SuiGrpcClient")
                  (grpc_client_new (node_url options)));
  _ ← st_lift (if sui_client_built then Ok () else Err "Failed to build SuiClient");
  let sui_rpc_client := mkSuiRpcClient true grpc_client
        (retry_config (ao_rpc_config options)) true in
  '(threshold, members) ← st_map_err (rpc_display code_display)
    (RpcClient.fetch_committee_info sui_rpc_client (ao_key_server_object_id options));
  mret (sui_rpc_client, mkCommitteeSnapshot threshold members).

(** One round of [monitor_members_update]: the snapshot after it. *)
Definition refresh_committee {E : Type} (sui_rpc_client : SuiRpcClient)
    (options : AggregatorOptions) (current : CommitteeSnapshot) : M E CommitteeSnapshot :=
  r ← st_try (key_server ← fetch_key_server_by_id sui_rpc_client (ao_key_server_object_id options);
              rpc_new_err (extract_committee_info key_server));
  match r with
  | inl (threshold, members) => mret (mkCommitteeSnapshot threshold members)
  | inr _ => mret current
  end.
End server.
