(* ===== verification/AggregatorProps.v ===== *)
(** * Properties of the aggregator

    The loop over the members' answers, what verification and aggregation
    guarantee without trust in the members' servers, and which honest answers
    verification rejects. *)

From Stdlib Require Import NArith Lia.
From stdpp Require Import pretty.
From S2P Require Import Prelude Gf256 Utils Primitives Elgamal Ibe Seal Common Chain Committee RpcClient.
From S2P Require Import ValidPtb Options MasterKeys Mvr KeyServer RequestJson KeyServerTheory Aggregator.

(** ** The collection loop *)
Section collect.
  Context {I C K T : Type}.
  Context {node : FullNode (TransactionProto I C K T)} {A R : Type} (task : A → M ErrorResponse R).

(** The tasks of a list run one after another. *)
Inductive runs : list A → World → list (R + ErrorResponse) → World → Prop :=
  | runs_nil w : runs [] w [] w
  | runs_snoc l w outs w1 a out w2 :
      runs l w outs w1 → st_try (F := ErrorResponse) (task a) w1 = (Ok out, w2) →
      runs (l ++ [a]) w (outs ++ [out]) w2.

Definition successes (outs : list (R + ErrorResponse)) : list R :=
  omap (λ o, match o with inl r => Some r | inr _ => None end) outs.
Definition failures (outs : list (R + ErrorResponse)) : list ErrorResponse :=
  omap (λ o, match o with inl _ => None | inr e => Some e end) outs.

Lemma runs_length l w outs w' : runs l w outs w' → length outs = length l.
Proof. induction 1; [done|]. rewrite !length_app. simpl. lia. Qed.

Lemma collect_spec {B : Type} threshold ran pending w0 w outs :
  runs ran w0 outs w → length (successes outs) < threshold →
  match collect_responses (B := B) task threshold (length (ran ++ pending)) (length ran) pending
          (successes outs) (failures outs) w with
  | (Ok (rs, es), w') => ∃ ran' rest outs', ran ++ pending = ran' ++ rest ∧
      runs ran' w0 outs' w' ∧ rs = successes outs' ∧ es = failures outs' ∧
      length rs ≤ threshold ∧
      (length rs < threshold → length rs + length rest < threshold)
  | (Err _, _) => False
  | (Panic, _) => ∃ a w1, a ∈ pending ∧ (task a w1).1 = Panic
  end.
Proof.
  revert ran w outs. induction pending as [|a pending IH]; intros ran w outs Hruns Hlt;
    cbn [collect_responses].
  { exists ran, [], outs. split_and!; [done..|lia|simpl; lia]. }
  unfold mbind, st_bind. destruct (st_try (F := B) (task a) w) as [[out|e|] w1] eqn:Ht.
  - assert (runs (ran ++ [a]) w0 (outs ++ [out]) w1) as Hruns'.
    { eapply runs_snoc; [done|]. revert Ht. unfold st_try.
      by destruct (task a w) as [[] ?]; intros [= <- <-]. }
    assert (ran ++ a :: pending = (ran ++ [a]) ++ pending) as Hl by by rewrite <-app_assoc.
    assert (length (ran ++ [a]) = S (length ran)) as Hlr by (rewrite length_app; simpl; lia).
    assert (length (ran ++ a :: pending) - S (length ran) = length pending) as Hrem
      by (rewrite length_app; simpl; lia).
    assert (∀ out', out = out' →
      length (successes (outs ++ [out'])) < threshold →
      match
        (if length (successes (outs ++ [out'])) + (length (ran ++ a :: pending) - S (length ran))
              <? threshold
         then mret (successes (outs ++ [out']), failures (outs ++ [out']))
         else collect_responses (B := B) task threshold (length (ran ++ a :: pending))
                (S (length ran)) pending (successes (outs ++ [out']))
                (failures (outs ++ [out']))) w1
      with
      | (Ok (rs, es), w') => ∃ ran' rest outs', ran ++ a :: pending = ran' ++ rest ∧
          runs ran' w0 outs' w' ∧ rs = successes outs' ∧ es = failures outs' ∧
          length rs ≤ threshold ∧
          (length rs < threshold → length rs + length rest < threshold)
      | (Err _, _) => False
      | (Panic, _) => ∃ a0 w2, a0 ∈ a :: pending ∧ (task a0 w2).1 = Panic
      end) as Hgo.
    { intros out' <- Hlt'. rewrite Hrem. destruct (Nat.ltb_spec
        (length (successes (outs ++ [out])) + length pending) threshold).
      - exists (ran ++ [a]), pending, (outs ++ [out]). split_and!; [done..|lia|lia].
      - rewrite Hl, <-Hlr. pose proof (IH _ _ _ Hruns' Hlt') as IH'.
        destruct (collect_responses _ _ _ _ _ _ _ _) as [[[]| |] w']; [done|done|].
        destruct IH' as (a0 & w2 & ? & ?). exists a0, w2. split; [by right|done]. }
    destruct out as [r|e].
    + replace (successes outs ++ [r]) with (successes (outs ++ [inl r]))
        by (unfold successes; by rewrite omap_app).
      replace (failures outs) with (failures (outs ++ [inl r]))
        by (unfold failures; by rewrite omap_app, app_nil_r).
      destruct (Nat.leb_spec threshold (length (successes (outs ++ [inl r])))) as [Hge|Hnr].
      * exists (ran ++ [a]), pending, (outs ++ [inl r]). split_and!; [done..| |lia].
        unfold successes. rewrite omap_app, length_app. simpl.
        unfold successes in Hlt. lia.
      * by apply Hgo.
    + replace (successes outs) with (successes (outs ++ [inr e]))
        by (unfold successes; by rewrite omap_app, app_nil_r).
      replace (failures outs ++ [e]) with (failures (outs ++ [inr e]))
        by (unfold failures; by rewrite omap_app).
      apply Hgo; [done|]. unfold successes in *. by rewrite omap_app, app_nil_r.
  - exfalso. revert Ht. unfold st_try. by destruct (task a w) as [[] ?].
  - exists a, w. split; [by left|]. revert Ht. unfold st_try.
    by destruct (task a w) as [[] ?].
Qed.

(** The loop over the members' answers, in any order of completion. It
    returns the answers of the tasks that completed, successes and errors each
    in order, with at most [threshold] successes; it stops as soon as it has
    [threshold] of them, and gives up early only when even a success of every
    member that is left could not reach the threshold; it panics only if a
    task does. *)
Theorem responses_collected {B : Type} (threshold : nat) (order : list A) (w : World) :
  0 < threshold →
  match collect_responses (B := B) task threshold (length order) 0 order [] [] w with
  | (Ok (responses, errors), w') => ∃ completed dropped outs,
      order = completed ++ dropped ∧ runs completed w outs w' ∧
      responses = successes outs ∧ errors = failures outs ∧
      (length responses = threshold ∨
       length responses < threshold ∧ length responses + length dropped < threshold)
  | (Err _, _) => False
  | (Panic, _) => ∃ a w1, a ∈ order ∧ (task a w1).1 = Panic
  end.
Proof.
  intros Ht. pose proof (collect_spec (B := B) threshold [] order w w [] (runs_nil w) Ht) as H.
  cbn [app length successes failures omap list_omap] in H.
  destruct (collect_responses _ _ _ _ _ _ _ _) as [[[rs es]| |] w']; [|done|done].
  destruct H as (c & d & outs & ? & ? & ? & ? & Hle & Hd). exists c, d, outs.
  split_and!; [done..|]. destruct (Nat.eq_dec (length rs) threshold); [by left|right].
  split; [lia|]. apply Hd. lia.
Qed.
End collect.

(** ** Verified answers *)
Section verified.
  Context {sym : Symmetric} {sym_laws : SymmetricLaws} {crv : Curve} {crv_laws : CurveLaws}
    {order : HashOrder} {order_laws : HashOrderLaws}.
  Context (hex_encode : list byte → string) (error_display : FastCryptoError → string)
    (ids_debug : list string → string).

Abbreviation verify := (verify_decryption_keys hex_encode error_display ids_debug).

Lemma verify_decryption_keys_spec dks pk vk party expected :
  match verify dks pk vk party expected with
  | Ok () => NoDup (dk_id <$> dks) ∧ list_to_set (dk_id <$> dks) = expected ∧
      Forall (λ dk, verify_encrypted_signature (dk_encrypted_key dk) vk pk (dk_id dk) = Ok ()) dks
  | Err e => (∃ msg, e = Failure msg) ∧
      ¬ (NoDup (dk_id <$> dks) ∧ list_to_set (dk_id <$> dks) = expected ∧
         Forall (λ dk, verify_encrypted_signature (dk_encrypted_key dk) vk pk (dk_id dk) = Ok ())
           dks)
  | Panic => False
  end.
Proof.
  unfold verify_decryption_keys. set (ids := dk_id <$> dks).
  assert (length dks = length ids) as Hlen by (unfold ids; by rewrite length_fmap).
  assert (NoDup ids → size (list_to_set ids : gset (list byte)) = length ids) as Hsz
    by apply size_list_to_set.
  destruct (Nat.eqb_spec (length dks) (size expected)) as [He|He]; cbn [negb].
  2: { split; [by eexists|]. intros (Hnd & <- & _). by rewrite Hsz in He. }
  destruct (Nat.eqb_spec (size (list_to_set ids : gset (list byte))) (length dks)) as [Hs|Hs];
    cbn [negb].
  2: { split; [by eexists|]. intros (Hnd & _). by rewrite Hsz in Hs. }
  case_bool_decide as Hset; cbn [negb]; [|split; [by eexists|]; by intros (_ & ? & _)].
  assert (NoDup ids) as Hnd by (apply NoDup_size_list_to_set; lia).
  match goal with |- context [try_for ?f dks] =>
    destruct (try_for_spec f dks) as [[-> HF]|(dk & e & Hin & Hv & ->)] end.
  { intros dk _. unfold verify_encrypted_signature. by repeat case_match. }
  - split_and!; [done..|]. eapply Forall_impl; [done|]. intros dk. simpl.
    by destruct (verify_encrypted_signature _ _ _ _) as [[]| |].
  - split.
    + revert Hv. by destruct (verify_encrypted_signature _ _ _ _); intros [= <-]; eexists.
    + intros (_ & _ & HF). rewrite Forall_forall in HF. by rewrite (HF dk Hin) in Hv.
Qed.

(** ** Aggregation of verified answers *)

(** The encrypted keys for [id] in an answer of [party]. *)
Definition entries (id : list byte) (party : N) (dks : list DecryptionKey) :
    list (N * Encryption G1Element) :=
  omap (λ dk, if decide (dk_id dk = id) then Some (party, dk_encrypted_key dk) else None) dks.

#[local] Arguments entries : simpl never.

Lemma entries_cons id party dk dks :
  entries id party (dk :: dks) =
  (if decide (dk_id dk = id) then [(party, dk_encrypted_key dk)] else []) ++ entries id party dks.
Proof. unfold entries. csimpl. by destruct (decide _). Qed.

Lemma push_shares_lookup party dks shares id :
  fold_left (λ shares dk, push_share shares party dk) dks shares !! id =
  match entries id party dks with
  | [] => shares !! id
  | l => Some (default [] (shares !! id) ++ l)
  end.
Proof.
  revert shares. induction dks as [|dk dks IH]; intros shares; [done|].
  cbn [fold_left]. rewrite IH, entries_cons. unfold push_share.
  destruct (decide (dk_id dk = id)) as [->|Hne].
  - rewrite lookup_insert_eq. cbn [app from_option]. unfold Datatypes.id.
    destruct (entries id party dks); [done|]. by rewrite <-app_assoc.
  - rewrite lookup_insert_ne by done. done.
Qed.

Lemma shares_by_key_id_lookup responses id :
  shares_by_key_id responses !! id =
  match concat ((λ '(party, r), entries id party (decryption_keys r)) <$> responses) with
  | [] => None
  | l => Some l
  end.
Proof.
  unfold shares_by_key_id.
  enough (∀ shares, fold_left (λ shares '(party_id, response),
      fold_left (λ shares dk, push_share shares party_id dk) (decryption_keys response) shares)
      responses shares !! id =
    match concat ((λ '(party, r), entries id party (decryption_keys r)) <$> responses) with
    | [] => shares !! id
    | l => Some (default [] (shares !! id) ++ l)
    end) as E by (rewrite E, lookup_empty; by destruct (concat _)).
  induction responses as [|[party r] responses IH]; intros shares; csimpl; [done|].
  rewrite IH, push_shares_lookup.
  destruct (entries id party (decryption_keys r)) as [|e l]; csimpl; [done|].
  destruct (concat _); [by rewrite app_nil_r|]. csimpl. by rewrite <-app_assoc.
Qed.

Lemma entries_None id party dks : id ∉ dk_id <$> dks → entries id party dks = [].
Proof.
  induction dks as [|dk dks IH]; csimpl; [done|]. intros Hn.
  by rewrite entries_cons, decide_False, IH by set_solver.
Qed.

Lemma entries_NoDup id party dks :
  NoDup (dk_id <$> dks) → id ∈ dk_id <$> dks →
  ∃ dk, dk ∈ dks ∧ dk_id dk = id ∧ entries id party dks = [(party, dk_encrypted_key dk)].
Proof.
  induction dks as [|dk dks IH]; csimpl; [by intros _ ?%elem_of_nil|].
  intros [Hni Hnd]%NoDup_cons [->|Hin]%elem_of_cons; rewrite entries_cons.
  - exists dk. split_and!; [by left|done|]. by rewrite decide_True, entries_None by done.
  - destruct (IH Hnd Hin) as (dk' & ? & ? & ->). exists dk'. split_and!; [by right|done|].
    rewrite decide_False; [done|]. congruence.
Qed.

(** The answer of [party] passed verification: its keys are encryptions under
    [sk] of the keys that the share of the party gives for [expected]. *)
Definition answers (sk : SecretKey Scalar) (share : N → Scalar) (expected : gset (list byte))
    (response : N * FetchKeyResponse) : Prop :=
  let dks := decryption_keys response.2 in
  NoDup (dk_id <$> dks) ∧ list_to_set (dk_id <$> dks) = expected ∧
  Forall (λ dk, decrypt sk (dk_encrypted_key dk) = extract (share response.1) (dk_id dk)) dks.

Lemma verified_answers sk share expected party r :
  verify (decryption_keys r) (public_key_from_master_key (share party))
    (mkVerificationKey (g_mul g_generator (sk_scalar sk))) party expected = Ok () →
  answers sk share expected (party, r).
Proof.
  intros Hv. pose proof (verify_decryption_keys_spec (decryption_keys r)
    (public_key_from_master_key (share party))
    (mkVerificationKey (g_mul g_generator (sk_scalar sk))) party expected) as Hs.
  rewrite Hv in Hs. destruct Hs as (? & ? & HF). split_and!; [done..|].
  eapply Forall_impl; [exact HF|]. intros dk. simpl. by intros ?%verify_encrypted_signature_ok.
Qed.

Lemma answers_shares sk share expected responses id :
  Forall (answers sk share expected) responses → id ∈ expected →
  let l := concat ((λ '(party, r), entries id party (decryption_keys r)) <$> responses) in
  l.*1 = responses.*1 ∧
  index_by (decrypt sk) l = (λ '(party, _), ((party + 1)%N, extract (share party) id)) <$> responses.
Proof.
  intros HF Hid. cbv zeta. induction HF as [|[party r] responses (Hnd & Hset & Hd) HF IH];
    csimpl; [done|].
  destruct (entries_NoDup id party (decryption_keys r)) as (dk & Hin & Hdk & ->); [done| |].
  { rewrite <-Hset in Hid. by apply elem_of_list_to_set in Hid. }
  destruct IH as [IH1 IH2]. unfold index_by in *. csimpl. rewrite IH1, IH2. split; [done|].
  rewrite Forall_forall in Hd. by rewrite (Hd dk Hin), Hdk.
Qed.

Lemma answers_no_shares sk share expected responses id :
  Forall (answers sk share expected) responses → id ∉ expected →
  concat ((λ '(party, r), entries id party (decryption_keys r)) <$> responses) = [].
Proof.
  intros HF Hid. induction HF as [|[party r] responses (_ & Hset & _) HF IH]; csimpl; [done|].
  rewrite IH, entries_None; [done|]. rewrite <-Hset in Hid. by rewrite elem_of_list_to_set in Hid.
Qed.

Context {recover : RecoverC0 Scalar G1Element} {recover_laws : RecoverLaws Scalar G1Element}.

(** Every [t] of the parties' shares recover the key of [msk] in the exponent,
    as the shares of a distributed key generation do. *)
Definition shares_of (t : N) (parties : list N) (share : N → Scalar) (msk : Scalar) : Prop :=
  ∀ ps id, NoDup ps → ps ⊆ parties → N.of_nat (length ps) = t →
    recover_c0 t ((λ p, ((p + 1)%N, extract (share p) id)) <$> ps) = Ok (extract msk id).

Lemma aggregate_shares sk t l key :
  valid_aggregation t l → Forall (λ p, p ≤ U16_MAX)%N l.*1 →
  recover_c0 t (index_by (decrypt sk) l) = Ok key →
  ∃ e, aggregate_encrypted t l = Ok e ∧ decrypt sk e = key.
Proof.
  intros Hv Hb Hrec. rewrite aggregate_encrypted_spec, decide_True by done.
  pose proof (recover_c0_decrypt t sk l) as Hd. rewrite Hrec in Hd.
  destruct (recover_c0 t (index_by enc_0 l)) as [c1| |]; [|done..].
  destruct (recover_c0 t (index_by enc_1 l)) as [c2| |]; [|done..].
  eexists. split; [done|]. by injection Hd.
Qed.

Lemma aggregate_answers sk share msk parties expected t responses :
  t ≠ 0%N → (t ≤ U16_MAX)%N → N.of_nat (length responses) = t →
  NoDup responses.*1 → responses.*1 ⊆ parties → Forall (λ p, p < U16_MAX)%N parties →
  shares_of t parties share msk → Forall (answers sk share expected) responses →
  ∃ resp, aggregate_verified_encrypted_responses t responses = Ok resp ∧
    dk_id <$> decryption_keys resp ≡ₚ elements expected ∧
    Forall (λ dk, decrypt sk (dk_encrypted_key dk) = extract msk (dk_id dk)) (decryption_keys resp).
Proof.
  intros Ht Hmax Hlen Hnd Hsub Hp Hshares Hans. unfold aggregate_verified_encrypted_responses.
  rewrite Hlen, N.eqb_refl. cbn [negb]. set (m := shares_by_key_id responses).
  assert (∀ id, id ∈ expected → is_Some (m !! id)) as Hdom.
  { intros id Hid. unfold m. rewrite shares_by_key_id_lookup.
    destruct (answers_shares _ _ _ _ _ Hans Hid) as [Hl _].
    destruct (concat _); [|by eexists]. destruct responses; [by subst t|done]. }
  assert (∀ id l, m !! id = Some l → id ∈ expected ∧
    ∃ e, aggregate_encrypted t l = Ok e ∧ decrypt sk e = extract msk id) as Hm.
  { intros id l Hl. unfold m in Hl. rewrite shares_by_key_id_lookup in Hl.
    destruct (decide (id ∈ expected)) as [Hid|Hid].
    2: { by rewrite (answers_no_shares _ _ _ _ _ Hans Hid) in Hl. }
    destruct (answers_shares _ _ _ _ _ Hans Hid) as [H1 H2]. split; [done|].
    assert (concat ((λ '(party, r), entries id party (decryption_keys r)) <$> responses) = l)
      as Hc by (destruct (concat _); [done|by injection Hl as ->]).
    rewrite Hc in H1, H2. clear Hc Hl. apply (aggregate_shares sk t l (extract msk id)).
    - split; [done|]. split; [|split].
      + rewrite <-(length_fmap fst), H1, length_fmap. lia.
      + by rewrite H1.
      + rewrite H1. intros Hin%Hsub. rewrite Forall_forall in Hp. specialize (Hp _ Hin). lia.
    - rewrite H1. apply Forall_forall. intros p Hin%Hsub. rewrite Forall_forall in Hp.
      specialize (Hp _ Hin). lia.
    - rewrite H2, <-(Hshares responses.*1 id); [|done..|by rewrite length_fmap].
      rewrite <-list_fmap_compose. f_equal. apply list_fmap_ext. by intros ? [??] _. }
  match goal with |- context [try_map ?f ?l] =>
    destruct (try_map_ok f (λ entry dk, dk_id dk = entry.1 ∧
      decrypt sk (dk_encrypted_key dk) = extract msk entry.1) l) as (dks & Htry & HF);
    [|rewrite Htry] end.
  { intros [id l] Hin. rewrite hash_order_perm in Hin. apply elem_of_map_to_list in Hin.
    destruct (Hm id l Hin) as (_ & e & -> & He). by eexists. }
  eexists. split; [done|]. cbn [decryption_keys].
  assert (dk_id <$> dks = (hash_order (map_to_list m)).*1) as Hids.
  { clear -HF. induction HF as [|? ? ? ? [? _]]; csimpl; congruence. }
  split.
  - rewrite Hids, hash_order_perm. apply NoDup_Permutation.
    + apply NoDup_fst_map_to_list.
    + apply NoDup_elements.
    + intros id. rewrite elem_of_elements. split.
      * intros ([? l] & -> & Hin%elem_of_map_to_list)%list_elem_of_fmap_1. by eapply Hm.
      * intros [l Hl]%Hdom. apply list_elem_of_fmap. exists (id, l). split; [done|].
        by apply elem_of_map_to_list.
  - clear -HF. induction HF as [|? ? ? ? [Hid Hd]]; constructor; [|done]. by rewrite Hid.
Qed.
End verified.

(** ** Honest answers *)
Section honest.
  Context {I C K T : Type}.
  Context {node : FullNode (TransactionProto I C K T)} {sui : SuiTypes} {sym : Symmetric}
    {sym_laws : SymmetricLaws} {crv : Curve} {crv_laws : CurveLaws} {semver : SemVer}
    {order : HashOrder} {R : Type} {arng : AllowedRng R}.
  Context (hex_encode : list byte → string) (error_display : FastCryptoError → string)
    (ids_debug : list string → string).

(** Which answers of an honest member are accepted. The keys that a key
    server makes with its share for a request whose transaction asks for [ids],
    with the nonzero elements that [verify_encrypted_signature] insists on,
    pass the aggregator's verification against the set of these ids exactly
    when no id is asked for twice; an answer to a request that repeats an id is
    always rejected, with an error that blames the member. *)
Theorem honest_response_verified_iff (self : Server) (version : N) (first : ObjectID)
    (ids : list KeyId) (rng : R) (share : MasterKey) (sk : SecretKey Scalar) (party : N)
    (resp : FetchKeyResponse) :
  let vk := mkVerificationKey (g_mul g_generator (sk_scalar sk)) in
  let verdict := verify_decryption_keys hex_encode error_display ids_debug
    (decryption_keys resp) (public_key_from_master_key share) vk party (list_to_set ids) in
  create_response (E := InternalError) self version first ids
    (mkPublicKey (g_mul g_generator (sk_scalar sk))) rng = Ok resp →
  get_key_for_package (master_keys self) version first = Ok share →
  Forall (λ dk, enc_0 (dk_encrypted_key dk) ≠ g_zero ∧ enc_1 (dk_encrypted_key dk) ≠ g_zero)
    (decryption_keys resp) →
  as_element vk ≠ g_zero → public_key_from_master_key share ≠ g_zero →
  (verdict = Ok () ↔ NoDup ids) ∧
  (¬ NoDup ids → verdict = Err (Failure ("party " +:+ pretty party +:+ " returned "
      +:+ pretty (length ids) +:+ " key(s), expected "
      +:+ pretty (size (list_to_set ids : gset KeyId))))).
Proof.
  intros vk verdict Hr Hk Hnz Hvk Hpk. unfold create_response in Hr.
  rewrite Hk in Hr. injection Hr as <-. cbn [decryption_keys] in *.
  set (dks := (encrypt_keys share _ ids rng).1) in *.
  assert (dk_id <$> dks = ids) as Hids by apply encrypt_keys_ids.
  assert (length dks = length ids) as Hlen by by rewrite <-Hids, length_fmap.
  split; [split|].
  - intros Hv. pose proof (verify_decryption_keys_spec hex_encode error_display ids_debug dks
      (public_key_from_master_key share) vk party (list_to_set ids)) as Hs.
    fold verdict in Hs. rewrite Hv, Hids in Hs. apply Hs.
  - intros Hnd. pose proof (verify_decryption_keys_spec hex_encode error_display ids_debug dks
      (public_key_from_master_key share) vk party (list_to_set ids)) as Hs.
    fold verdict in Hs. destruct verdict as [[]|e|]; [done| |done].
    destruct Hs as [_ []]. rewrite Hids. split_and!; [done..|].
    pose proof (encrypt_keys_each share (mkPublicKey (g_mul g_generator (sk_scalar sk)))
      ids rng sk eq_refl) as Hd. fold dks in Hd. rewrite Forall_forall in Hd.
    apply Forall_forall. intros dk Hin. rewrite Forall_forall in Hnz.
    destruct (Hnz dk Hin) as [H0 H1]. unfold verify_encrypted_signature.
    rewrite !bool_decide_eq_false_2 by done. cbn [orb].
    rewrite bool_decide_eq_true_2; [done|]. by apply encrypted_pairing_iff, Hd.
  - intros Hdup. unfold verdict, verify_decryption_keys. rewrite Hlen.
    destruct (Nat.eqb_spec (length ids) (size (list_to_set ids : gset KeyId))) as [He|]; [|done].
    destruct Hdup. by apply NoDup_size_list_to_set.
Qed.
End honest.

(** ** The handler *)
Section handler.
  Context {I C K T : Type}.
  Abbreviation Tx := (TransactionProto I C K T).
  Context {node : FullNode Tx} {sui : SuiTypes} {sym : Symmetric} {sym_laws : SymmetricLaws}
    {crv : Curve} {crv_laws : CurveLaws} {bcs : BcsTypes} {profile : BuildProfile}
    {semver : SemVer} {ptb_lib : PtbLib} {order : HashOrder} {order_laws : HashOrderLaws}
    {recover : RecoverC0 Scalar G1Element} {recover_laws : RecoverLaws Scalar G1Element}
    {lib : AggregatorLib Tx}.

Abbreviation verified request expected member r :=
  (verify_decryption_keys agg_hex_encode crypto_error_display agg_ids_debug
     (decryption_keys r) (pks_partial_pk member) (req_enc_verification_key request)
     (pks_party_id member) expected = Ok ()).

Lemma internal_inv {A : Type} (o : outcome InternalError A) w a w' :
  internal o w = (Ok a, w') → o = Ok a.
Proof. unfold internal, st_lift. by destruct o; intros [= <- _]. Qed.

Lemma fetch_from_member_inv member request req_id req creds timeout expected w r w' :
  fetch_from_member member request req_id req creds timeout expected w = (Ok r, w') →
  verified request expected member r.
Proof.
  intros H. unfold fetch_from_member in H. do 2 st_inv H.
  destruct a0 as [response|e]; [|by apply internal_inv in H].
  destruct (http_is_success response); cbn [negb] in H.
  2: { destruct (http_json_error response); [by apply st_lift_inv in H as [? _]|].
       by apply internal_inv in H. }
  do 3 st_inv H. apply st_ret_inv in H as [-> _]. apply internal_inv in Hstep3.
  by destruct a2.
Qed.

Lemma member_task_inv options request req_id expected member w p r w' :
  member_task options request req_id expected member w = (Ok (p, r), w') →
  p = pks_party_id member ∧ verified request expected member r.
Proof.
  intros H. unfold member_task in H.
  destruct (ao_api_credentials options !! pks_name member); [|by apply internal_inv in H].
  do 4 st_inv H. destruct a1 as [body|e]; [|st_inv H; by apply st_lift_inv in H as [? _]].
  apply st_ret_inv in H as [[= -> ->] _]. split; [done|]. unfold st_try in Hstep0.
  destruct (fetch_from_member _ _ _ _ _ _ _ _) as [[r'|e|] w4] eqn:Hf; [|done..].
  injection Hstep0 as -> _. by eapply fetch_from_member_inv.
Qed.

Lemma runs_answers options request req_id expected sk share members w outs w' :
  req_enc_verification_key request = mkVerificationKey (g_mul g_generator (sk_scalar sk)) →
  Forall (λ m, pks_partial_pk m = public_key_from_master_key (share (pks_party_id m))) members →
  runs (member_task options request req_id expected) members w outs w' →
  Forall (answers sk share expected) (successes outs) ∧
  (successes outs).*1 `sublist_of` (pks_party_id <$> members).
Proof.
  intros Hvk Hpk Hr. induction Hr as [|l w outs w1 m out w2 Hr IH Ht]; [by split|].
  apply Forall_app in Hpk as [Hpk Hm]. rewrite Forall_singleton in Hm. cbn beta in Hm.
  destruct (IH Hpk) as [HF Hsub]. unfold successes in *. rewrite omap_app.
  destruct out as [[p r]|e]; csimpl.
  - unfold st_try in Ht. destruct (member_task _ _ _ _ _ _) as [[[p' r']| |] w3] eqn:Hmt; try done.
    injection Ht as -> -> _. apply member_task_inv in Hmt as [-> Hv].
    rewrite Hvk, Hm in Hv. split.
    + apply Forall_app. split; [done|]. constructor; [|done]. by eapply verified_answers.
    + rewrite !fmap_app. by apply sublist_app.
  - rewrite app_nil_r. split; [done|]. rewrite fmap_app. by apply sublist_inserts_r.
Qed.

(** One key of [msk] for each expected id, encrypted to the owner of [sk]. *)
Definition keys_for (sk : SecretKey Scalar) (msk : Scalar) (expected : gset (list byte))
    (resp : FetchKeyResponse) : Prop :=
  dk_id <$> decryption_keys resp ≡ₚ elements expected ∧
  Forall (λ dk, decrypt sk (dk_encrypted_key dk) = extract msk (dk_id dk)) (decryption_keys resp).

Lemma aggregator_answer (client : SuiRpcClient) (options : AggregatorOptions)
    (committee : CommitteeSnapshot) (schedule : list PartialKeyServer → list PartialKeyServer)
    (sdk_type version : option (list byte)) (req_id : string) (request : FetchKeyRequest)
    (sk : SecretKey Scalar) (share : N → Scalar) (msk : Scalar) (resp : FetchKeyResponse)
    (w w' : World) :
  let parties := pks_party_id <$> cs_members committee in
  (∀ l, schedule l ≡ₚ l) →
  NoDup parties → Forall (λ p, p < U16_MAX)%N parties →
  (0 < cs_threshold committee ≤ U16_MAX)%N →
  Forall (λ m, pks_partial_pk m = public_key_from_master_key (share (pks_party_id m)))
    (cs_members committee) →
  shares_of (cs_threshold committee) parties share msk →
  req_enc_verification_key request = mkVerificationKey (g_mul g_generator (sk_scalar sk)) →
  aggregator_handle_fetch_key client options committee schedule sdk_type version req_id request w
    = (Ok resp, w') →
  ∃ expected w1 w2, rtc idle_step w w1 ∧
    get_expected_full_ids client (req_ptb request) w1 = (Ok expected, w2) ∧
    keys_for sk msk expected resp.
Proof.
  intros parties Hsched Hnd Hp [Ht Hmax] Hpk Hsh Hvk H. unfold aggregator_handle_fetch_key in H.
  do 2 st_inv H. destruct a0 as [sdk v]. apply st_map_err_inv, tap_err_inv, st_lift_inv in Hstep0
    as [_ ->].
  do 3 st_inv H. apply st_map_err_inv, tap_err_inv in Hstep1. destruct a, a0, a2.
  exists a1, w1, w2. split; [|split; [done|]].
  { eapply rtc_l; [by eapply idle_record|]. by eapply rtc_once, idle_record. }
  case_bool_decide; [st_inv H; by apply internal_inv in H|]. st_inv H.
  destruct a as [rs es]. set (t := N.to_nat (cs_threshold committee)) in *.
  pose proof (Hsched (cs_members committee)) as Hperm.
  pose proof (collect_spec (B := ErrorResponse) (member_task options request req_id a1) t []
    (schedule (cs_members committee)) w3 w3 [] (runs_nil _ _) ltac:(unfold t; simpl; lia)) as Hc.
  cbn [app] in Hc. rewrite (Permutation_length Hperm) in Hc. cbn [length] in Hc.
  unfold successes at 1, failures at 1 in Hc. cbn [omap list_omap] in Hc. rewrite Hstep3 in Hc.
  destruct Hc as (done & rest & outs & Hdone & Hruns & -> & -> & Hle & _).
  assert (Forall (λ m, pks_partial_pk m = public_key_from_master_key (share (pks_party_id m)))
    done) as Hpk'.
  { rewrite <-Hperm, Hdone in Hpk. by apply Forall_app in Hpk as [? _]. }
  destruct (runs_answers _ _ _ _ _ _ _ _ _ _ Hvk Hpk' Hruns) as [Hans Hsub].
  assert ((successes outs).*1 `sublist_of` pks_party_id <$> schedule (cs_members committee))
    as Hsub'.
  { etrans; [exact Hsub|]. rewrite Hdone, fmap_app. by apply sublist_inserts_r. }
  destruct (Nat.ltb_spec (length (successes outs)) t); [st_inv H; by apply st_lift_inv in H as [? _]|].
  destruct (aggregate_answers agg_hex_encode sk share msk parties a1 (cs_threshold committee) (successes outs))
    as (resp' & Hagg & Hids & Hkeys); try done; [lia|unfold t in *; lia| | |].
  - eapply sublist_NoDup; [|exact Hsub']. by rewrite Hperm.
  - intros p Hin. eapply sublist_subseteq in Hsub'. apply Hsub' in Hin. by rewrite Hperm in Hin.
  - rewrite Hagg in H. apply st_ret_inv in H as [-> _]. by split.
Qed.

(** A committee's keys need no honest member. If the members' partial
    public keys on chain are those of threshold shares of [msk], as key
    generation leaves them, then whatever the members' servers answer, in
    whatever order: when the aggregator answers with keys, they are exactly
    one key for each full id that the request's transaction asks for, and the
    requester's secret key decrypts each to the key of [msk] for its id. *)
Theorem aggregated_keys_correct (client : SuiRpcClient) (options : AggregatorOptions)
    (committee : CommitteeSnapshot) (schedule : list PartialKeyServer → list PartialKeyServer)
    (sdk_type version : option (list byte)) (req_id : string) (request : FetchKeyRequest)
    (sk : SecretKey Scalar) (share : N → Scalar) (msk : Scalar) (resp : FetchKeyResponse)
    (w w' : World) :
  let parties := pks_party_id <$> cs_members committee in
  (∀ l, schedule l ≡ₚ l) →
  NoDup parties → Forall (λ p, p < U16_MAX)%N parties →
  (0 < cs_threshold committee ≤ U16_MAX)%N →
  Forall (λ m, pks_partial_pk m = public_key_from_master_key (share (pks_party_id m)))
    (cs_members committee) →
  shares_of (cs_threshold committee) parties share msk →
  req_enc_verification_key request = mkVerificationKey (g_mul g_generator (sk_scalar sk)) →
  aggregator_handle_fetch_key client options committee schedule sdk_type version req_id request w
    = (Ok resp, w') →
  ∃ expected w1 w2, rtc idle_step w w1 ∧
    get_expected_full_ids client (req_ptb request) w1 = (Ok expected, w2) ∧
    dk_id <$> decryption_keys resp ≡ₚ elements expected ∧
    Forall (λ dk, decrypt sk (dk_encrypted_key dk) = extract msk (dk_id dk)) (decryption_keys resp).
Proof. intros parties. apply aggregator_answer. Qed.
End handler.

(** ** Witnesses: four members, of which one fails and one lies *)
#[local] Existing Instances Toy.symmetric Toy.symmetric_laws Toy.curve Toy.curve_laws
  ToyCommon.semver ToyCommon.profile ToyChain.sui ToyServer.node ToyServer.bcs ToyServer.mvr
  ToyServer.ptb_lib ToyServer.lib.
#[local] Instance toy_recover : RecoverC0 (Scalar (Curve := Toy.curve)) G1Element := Toy.recover.
#[local] Instance toy_recover_laws : RecoverLaws (Scalar (Curve := Toy.curve)) G1Element :=
  Toy.recover_laws.
#[local] Instance toy_order : HashOrder := λ _ l, reverse l.
#[local] Instance toy_order_laws : HashOrderLaws.
Proof. intros A l. apply reverse_Permutation. Defined.

(** Shares of [0x2a] on the line [0x2a + 5 x]. *)
Definition toy_msk : Scalar (Curve := Toy.curve) := Byte.x2a.
Definition toy_share (party : N) : Scalar (Curve := Toy.curve) :=
  gf_add toy_msk (gf_mul Byte.x05 (u8_of (party + 1))).
Definition toy_parties : list N := [0; 1; 2; 3]%N.

Lemma toy_shares_of : shares_of 2 toy_parties toy_share toy_msk.
Proof.
  intros ps id Hnd Hsub Hlen. destruct ps as [|p [|q [|]]]; try (simpl in Hlen; lia).
  unfold extract. generalize (hash_to_g1 id : byte). intros h.
  assert (p ∈ toy_parties ∧ q ∈ toy_parties) as [Hp Hq] by set_solver.
  assert (p ≠ q) as Hne by (apply NoDup_cons in Hnd as [? _]; set_solver).
  assert (forallb (λ p, forallb (λ q, (p =? q)%N || forallb (λ h : byte,
      match recover_c0 (S := byte) (G := byte) (RecoverC0 := toy_recover) 2
          [((p + 1)%N, gf_mul h (toy_share p)); ((q + 1)%N, gf_mul h (toy_share q))] with
      | Ok k => bool_decide (k = gf_mul h toy_msk)
      | _ => false
      end) all_bytes) toy_parties) toy_parties = true) as Hall by (vm_compute; reflexivity).
  rewrite forallb_forall in Hall. specialize (Hall p (proj1 (list_elem_of_In _ _) Hp)).
  rewrite forallb_forall in Hall. specialize (Hall q (proj1 (list_elem_of_In _ _) Hq)).
  rewrite (proj2 (N.eqb_neq _ _) Hne) in Hall. cbn [orb] in Hall.
  rewrite forallb_forall in Hall.
  specialize (Hall h (proj1 (list_elem_of_In _ _) (all_bytes_complete h))).
  change (recover_c0 (S := byte) (G := byte) (RecoverC0 := toy_recover) 2
    [((p + 1)%N, gf_mul h (toy_share p)); ((q + 1)%N, gf_mul h (toy_share q))]
    = Ok (gf_mul h toy_msk)).
  destruct (recover_c0 _ _) as [k| |]; [|discriminate Hall..].
  apply bool_decide_eq_true in Hall. by rewrite Hall.
Qed.

Definition toy_secret : SecretKey (Scalar (Curve := Toy.curve)) := mkSecretKey Byte.x0d.
Definition toy_id : list byte := create_full_id [Byte.x07] (bytes_of "doc").

(** Servers answer for the id of [toy_id] with their share; that of [c] with
    another share, and that of [b] with an error. *)
#[local] Instance toy_lib : AggregatorLib (TransactionProto unit unit unit unit) := {
  http_post url _ _ _ e :=
    let answer party := mkHttpResponse Toy.curve true "200" (λ _, Some []) None
      (Ok (mkFetchKeyResponse (encrypt_keys (crv := Toy.curve) (toy_share party)
        (mkPublicKey Byte.x0d) [toy_id] [Byte.x11]).1)) in
    (match bytes_of url with
     | Byte.x61 :: _ => inl (answer 0%N)
     | Byte.x63 :: _ => inl (answer 7%N)
     | Byte.x64 :: _ => inl (answer 3%N)
     | _ => inr "refused"
     end, e);
  agg_json := ToyJson.json;
  header_to_str b := Some (String.string_of_list_byte b);
  agg_package_version := "0.6.2"; version_display _ := ""; requirement_display _ := "";
  crypto_error_display _ := ""; agg_hex_encode _ := ""; agg_ids_debug _ := "";
  agg_errors_debug _ := "";
}.

Definition toy_member (party : N) (name : string) : PartialKeyServer :=
  mkPartialKeyServer name name (public_key_from_master_key (toy_share party)) party.
Definition toy_committee : CommitteeSnapshot :=
  mkCommitteeSnapshot 2 [toy_member 0 "a"; toy_member 1 "b"; toy_member 2 "c"; toy_member 3 "d"].
Definition toy_options : AggregatorOptions :=
  mkAggregatorOptions Testnet None [] "" "" "" 8
    (list_to_map ((λ m, (pks_name m, mkApiCredentials "k" "v")) <$> cs_members toy_committee))
    default_rpc_config None.
Definition toy_request : FetchKeyRequest :=
  mkFetchKeyRequest (crv := Toy.curve) "doc" (mkPublicKey Byte.x0d) (mkVerificationKey Byte.x0d)
    [] (mkCertificate [Byte.x55] [] 900 30 [] None).
Definition toy_client : SuiRpcClient := mkSuiRpcClient false () default_retry_config true.
Definition toy_world : World := mkWorld () [] ∅ ∅.
Definition toy_server : Server :=
  mkServer toy_client (MKOpen Byte.x0a) ∅
    (mkKeyServerOptions Testnet None (OpenServer []) "" "" "" 1000 0 120000000000
       3600000000000 default_rpc_config None false).

Lemma responses_collected_witness :
  ∃ responses errors w',
    collect_responses (B := ErrorResponse)
      (member_task toy_options toy_request "r" {[toy_id]}) 2 4 0
      (cs_members toy_committee) [] [] toy_world = (Ok (responses, errors), w') ∧
    length responses = 2.
Proof.
  pose proof (responses_collected (B := ErrorResponse)
    (member_task toy_options toy_request "r" {[toy_id]}) 2 (cs_members toy_committee)
    toy_world ltac:(lia)) as H.
  set (run := collect_responses _ _ _ _ _ _ _ _) in *.
  change (collect_responses _ _ _ _ _ _ _ _) with run.
  assert (match run.1 with Ok (rs, _) => length rs = 2 | _ => False end) as Hrun
    by (vm_compute; reflexivity).
  destruct run as [[[rs es]| |] w']; [|destruct Hrun..].
  exists rs, es, w'. split; [reflexivity|exact Hrun].
Defined.

Lemma aggregated_keys_correct_witness :
  ∃ resp w', aggregator_handle_fetch_key toy_client toy_options toy_committee (λ l, l)
      (Some (bytes_of "typescript")) (Some (bytes_of "1")) "r" toy_request toy_world
    = (Ok resp, w') ∧
    Forall (λ dk, decrypt toy_secret (dk_encrypted_key dk) = extract toy_msk (dk_id dk))
      (decryption_keys resp).
Proof.
  set (run := aggregator_handle_fetch_key _ _ _ _ _ _ _ _ _).
  assert (is_ok run.1 = true) as Hok by (vm_compute; reflexivity).
  destruct run as [[resp| |] w'] eqn:Hrun; [|discriminate Hok..].
  exists resp, w'. split; [reflexivity|].
  edestruct (aggregated_keys_correct toy_client toy_options toy_committee (λ l, l)
    (Some (bytes_of "typescript")) (Some (bytes_of "1")) "r" toy_request toy_secret toy_share
    toy_msk resp toy_world w') as (_ & _ & _ & _ & _ & _ & Hd); [..|exact Hd].
  - reflexivity.
  - by apply (bool_decide_unpack (NoDup _)).
  - by apply (bool_decide_unpack (Forall _ _)).
  - split; [reflexivity|discriminate].
  - repeat constructor.
  - exact toy_shares_of.
  - reflexivity.
  - exact Hrun.
Defined.

Lemma honest_response_verified_iff_witness :
  ∃ resp, create_response (E := InternalError) toy_server 0 [Byte.x07] [toy_id; toy_id]
      (mkPublicKey (g_mul g_generator (sk_scalar toy_secret))) [Byte.x11; Byte.x12] = Ok resp ∧
    verify_decryption_keys (λ _, "") (λ _, "") (λ _, "") (decryption_keys resp)
      (public_key_from_master_key Byte.x0a)
      (mkVerificationKey (g_mul g_generator (sk_scalar toy_secret))) 3
      (list_to_set [toy_id; toy_id])
    = Err (Failure "party 3 returned 2 key(s), expected 1").
Proof.
  set (pk := mkPublicKey (g_mul g_generator (sk_scalar toy_secret))).
  set (run := create_response _ _ _ _ _ _).
  set (nonzero := λ dk : DecryptionKey, enc_0 (dk_encrypted_key dk) ≠ g_zero ∧
                    enc_1 (dk_encrypted_key dk) ≠ g_zero).
  assert (match run with Ok r => bool_decide (Forall nonzero (decryption_keys r)) | _ => false end
    = true) as Hok by (vm_compute; reflexivity).
  destruct run as [resp| |] eqn:Hrun; [|discriminate Hok..].
  exists resp. split; [reflexivity|].
  apply (honest_response_verified_iff (λ _, "") (λ _, "") (λ _, "") toy_server 0 [Byte.x07]
    [toy_id; toy_id] [Byte.x11; Byte.x12] Byte.x0a toy_secret 3 resp).
  - exact Hrun.
  - reflexivity.
  - by apply bool_decide_eq_true in Hok.
  - by apply (bool_decide_unpack (_ ≠ _)).
  - by apply (bool_decide_unpack (_ ≠ _)).
  - intros [Hn _]%NoDup_cons. apply Hn. by left.
Defined.
