(* ===== verification/EndToEnd.v ===== *)
(** * From encryption to decryption across all parts

    An object is encrypted to several key servers, of which some are single
    servers and some are committees behind an aggregator; a user requests
    keys from enough of them, and decrypts with the SDK. *)

From Stdlib Require Import NArith Lia.
From S2P Require Import Prelude Utils Primitives Dem Elgamal Ibe Seal SealTheory Common Chain Committee.
From S2P Require Import RpcClient ValidPtb Options MasterKeys Mvr KeyServer KeyServerTheory.
From S2P Require Import KeyServerProps Sdk Aggregator AggregatorProps.

Section end_to_end.
  Context {I C K T : Type}.
  Abbreviation Tx := (TransactionProto I C K T).
  Context {node : FullNode Tx} {sui : SuiTypes} {sym : Symmetric} {sym_laws : SymmetricLaws}
    {crv : Curve} {crv_laws : CurveLaws} {bcs : BcsTypes} {profile : BuildProfile}
    {semver : SemVer} {mvr : MvrLib} {ptb_lib : PtbLib} {lib : ServerLib Tx}
    {order : HashOrder} {order_laws : HashOrderLaws}
    {recover : RecoverC0 Scalar G1Element} {recover_laws : RecoverLaws Scalar G1Element}
    {agg_lib : AggregatorLib Tx}.

(** A run that answered with [resp] to a request by the owner of [sk], with a
    key for the full id [fid]: of a single key server, whose key for the
    package of [fid] is [msk], or of the aggregator of a committee whose
    members hold threshold shares of [msk], whatever the members did. *)
Inductive answered (sk : SecretKey Scalar) (fid : list byte) (msk : MasterKey)
    (resp : FetchKeyResponse) : Prop :=
  | by_key_server {R : Type} `{AllowedRng R} self payload req_id gas_price (rng : R) w w' :
      pk_element (req_enc_key payload) = g_mul g_generator (sk_scalar sk) →
      handle_fetch_key self payload req_id gas_price rng w = (Ok resp, w') →
      fid ∈ dk_id <$> decryption_keys resp →
      (∀ package key, package `prefix_of` fid →
         get_key_for_package (master_keys self) (env_committee_version (w_env w')) package
           = Ok key → key = msk) →
      answered sk fid msk resp
  | by_committee client options committee schedule sdk_type version req_id request share w w' :
      (∀ l, schedule l ≡ₚ l) →
      NoDup (pks_party_id <$> cs_members committee) →
      Forall (λ p, p < U16_MAX)%N (pks_party_id <$> cs_members committee) →
      (0 < cs_threshold committee ≤ U16_MAX)%N →
      Forall (λ m, pks_partial_pk m = public_key_from_master_key (share (pks_party_id m)))
        (cs_members committee) →
      shares_of (cs_threshold committee) (pks_party_id <$> cs_members committee) share msk →
      req_enc_verification_key request = mkVerificationKey (g_mul g_generator (sk_scalar sk)) →
      aggregator_handle_fetch_key client options committee schedule sdk_type version req_id
        request w = (Ok resp, w') →
      fid ∈ dk_id <$> decryption_keys resp →
      answered sk fid msk resp.

Lemma answered_keys sk fid msk resp :
  answered sk fid msk resp →
  fid ∈ dk_id <$> decryption_keys resp ∧
  Forall (λ dk, decrypt sk (dk_encrypted_key dk) = extract msk (dk_id dk)) (decryption_keys resp).
Proof.
  intros [R ? self payload req_id gas_price rng w w' Hsk Hrun Hfid Hkey
         |client options committee schedule sdk_type version req_id request share w w' Hsched Hnd
            Hp Ht Hpk Hsh Hvk Hrun Hfid]; (split; [done|]).
  - apply handle_fetch_key_inv in Hrun as (ptb & pkg & first & ids & w1 & key & _ & _ & _ & Hk & Hd).
    assert (key = msk) as ->.
    { rewrite Hd, encrypt_keys_ids in Hfid. apply list_elem_of_fmap_1 in Hfid as (id & -> & _).
      eapply Hkey; [by apply prefix_app_r|exact Hk]. }
    rewrite Hd. by apply encrypt_keys_each.
  - destruct (aggregator_answer client options committee schedule sdk_type version req_id request
      sk share msk resp w w' Hsched Hnd Hp Ht Hpk Hsh Hvk Hrun) as (_ & _ & _ & _ & _ & _ & HF).
    done.
Qed.

(** C2: encryption, key servers, aggregators and the SDK compose. An object
    was encrypted to the public keys of [key_servers], and at least
    [threshold] distinct ones among them have answered the user's requests,
    each either as a single key server or as a committee behind an
    aggregator, of whose members any may be faulty. Then the SDK accepts the
    answers, and with the cached keys it decrypts the object to the message,
    or to the derived key in the plain mode. *)
Theorem encrypted_requested_decrypted {R : Type} `{AllowedRng R, !RngLaws R}
    (hex_encode : list byte → string) (package_id : ObjectID) (id : list byte)
    (key_servers : list ObjectID) (msks : list MasterKey) (t : byte) (input : EncryptionInput)
    (rng rng' : R) (obj : EncryptedObject) (key : list byte)
    (server_pk_map : gmap ObjectID IbePublicKey) (enc_secret : SecretKey Scalar)
    (responses : list (ObjectID * FetchKeyResponse)) :
  seal_encrypt package_id id key_servers
    (BonehFranklinPublicKeys (public_key_from_master_key <$> msks)) t input rng
    = (Ok (obj, key), rng') →
  Forall2 (λ ks msk, server_pk_map !! ks = Some (public_key_from_master_key msk))
    key_servers msks →
  Forall (λ response, ∃ i msk, key_servers !! i = Some response.1 ∧ msks !! i = Some msk ∧
            answered enc_secret (create_full_id package_id id) msk response.2) responses →
  NoDup responses.*1 → N.to_nat (u8_val t) ≤ length responses →
  ∃ cached_keys,
    decrypt_seal_responses enc_secret responses server_pk_map = Ok cached_keys ∧
    seal_decrypt_object hex_encode obj cached_keys server_pk_map =
      Ok (match input with EAes256Gcm m _ | EHmac256Ctr m _ => m | EPlain => key end).
Proof.
  intros He Hmap Ha Hnd Ht.
  destruct (decrypt_seal_responses_ok enc_secret server_pk_map responses) as [c Hc].
  { eapply Forall_impl; [exact Ha|]. intros [s r] (i & msk & Hs & Hm & [_ HF]%answered_keys).
    exists (public_key_from_master_key msk).
    split; [apply (Forall2_lookup_lr _ _ _ _ _ _ Hmap Hs Hm)|].
    eapply Forall_impl; [exact HF|]. intros dk Hdk. by apply verify_user_secret_key_ok. }
  exists c. split; [done|]. destruct (decrypt_seal_responses_spec _ _ _ _ Hc) as [H1 H3].
  apply (cached_keys_decrypt _ _ _ _ _ _ _ _ _ _ _ _ _ responses.*1 He Hmap H1 Hnd).
  { by rewrite length_fmap. }
  intros s ([s' r] & -> & Hin)%list_elem_of_fmap_1. rewrite Forall_forall in Ha.
  destruct (Ha _ Hin) as (i & msk & Hs & _ & [(dk & -> & Hdk)%list_elem_of_fmap_1 _]%answered_keys).
  split; [by eapply list_elem_of_lookup_2|by eapply H3].
Qed.
End end_to_end.

(** ** Witness: a single server and a committee of four, of which two misbehave *)
#[local] Existing Instances Toy.symmetric Toy.symmetric_laws Toy.curve Toy.curve_laws
  ToyCommon.semver ToyCommon.profile ToyChain.sui ToyServer.node ToyServer.bcs ToyServer.mvr
  ToyServer.ptb_lib ToyServer.lib AggregatorProps.toy_recover AggregatorProps.toy_recover_laws
  AggregatorProps.toy_order AggregatorProps.toy_order_laws AggregatorProps.toy_lib.

Definition toy_servers : list ObjectID := [[Byte.x31]; [Byte.x77]].
Definition toy_keys : list (MasterKey (Curve := Toy.curve)) := [Byte.x0a; toy_msk].
Definition toy_public_keys : gmap ObjectID (IbePublicKey (Curve := Toy.curve)) :=
  list_to_map (zip toy_servers (public_key_from_master_key <$> toy_keys)).

Lemma encrypted_requested_decrypted_witness :
  ∃ obj key rng' responses cached_keys,
    seal_encrypt [Byte.x07] (bytes_of "doc") toy_servers
      (BonehFranklinPublicKeys (public_key_from_master_key <$> toy_keys)) Byte.x02
      (EHmac256Ctr (bytes_of "seal") None) all_bytes = (Ok (obj, key), rng') ∧
    decrypt_seal_responses toy_secret responses toy_public_keys = Ok cached_keys ∧
    seal_decrypt_object (λ _, "") obj cached_keys toy_public_keys = Ok (bytes_of "seal").
Proof.
  set (enc := seal_encrypt _ _ _ _ _ _ _).
  assert (is_ok enc.1 = true) as He by (vm_cast_no_check (eq_refl true)).
  destruct enc as [[[obj key]| |] rng'] eqn:Henc; [|discriminate He..].
  set (run1 := handle_fetch_key KeyServerProps.toy_server KeyServerProps.toy_request None 1000
    ([] : list byte) KeyServerProps.toy_world).
  assert (match run1.1 with
          | Ok resp => bool_decide (toy_id ∈ dk_id <$> decryption_keys resp)
          | _ => false end = true) as H1 by (vm_cast_no_check (eq_refl true)).
  destruct run1 as [[resp1| |] w1] eqn:Hrun1; [|discriminate H1..].
  set (run2 := aggregator_handle_fetch_key toy_client toy_options toy_committee (λ l, l)
    (Some (bytes_of "typescript")) (Some (bytes_of "1")) "r" toy_request toy_world).
  assert (match run2.1 with
          | Ok resp => bool_decide (toy_id ∈ dk_id <$> decryption_keys resp)
          | _ => false end = true) as H2 by (vm_cast_no_check (eq_refl true)).
  destruct run2 as [[resp2| |] w2] eqn:Hrun2; [|discriminate H2..].
  apply bool_decide_eq_true in H1, H2. cbn [fst] in H1, H2.
  set (responses := [([Byte.x77], resp2); ([Byte.x31], resp1)]).
  destruct (encrypted_requested_decrypted (λ _, "") [Byte.x07] (bytes_of "doc") toy_servers
    toy_keys Byte.x02 (EHmac256Ctr (bytes_of "seal") None) all_bytes rng' obj key toy_public_keys
    toy_secret responses Henc) as (c & Hc & Hd).
  - repeat constructor.
  - repeat constructor.
    + exists 1, toy_msk. split; [reflexivity|]. split; [reflexivity|].
      apply (by_committee _ _ _ _ toy_client toy_options toy_committee (λ l, l)
        (Some (bytes_of "typescript")) (Some (bytes_of "1")) "r" toy_request toy_share toy_world w2).
      * reflexivity.
      * by apply (bool_decide_unpack (NoDup _)).
      * by apply (bool_decide_unpack (Forall _ _)).
      * split; [reflexivity|discriminate].
      * repeat constructor.
      * exact toy_shares_of.
      * reflexivity.
      * exact Hrun2.
      * exact H2.
    + exists 0, Byte.x0a. split; [reflexivity|]. split; [reflexivity|].
      apply (by_key_server _ _ _ _ KeyServerProps.toy_server KeyServerProps.toy_request None 1000%N
        ([] : list byte) KeyServerProps.toy_world w1).
      * reflexivity.
      * exact Hrun1.
      * exact H1.
      * intros package k _ [= <-]. reflexivity.
  - by apply (bool_decide_unpack (NoDup _)).
  - vm_compute. lia.
  - exists obj, key, rng', responses, c. split; [reflexivity|]. split; [exact Hc|exact Hd].
Defined.
