(* ===== verification/Monitors.v ===== *)
(** * Background tasks ([crates/key-server/src/periodic_updater.rs], [server.rs])

    The periodic updater and what runs on it: the reference gas price, the
    committee version during a rotation, and the upgrade proposals; the
    monitor of rotation events; and the task that watches over them. A task
    is a loop; here it is one round of it, which the step relations of
    [MonitorProps] repeat and interleave. *)

From Stdlib Require Import NArith Lia.
From S2P Require Import Prelude Primitives Ibe Common Chain Committee RpcClient Options.
From S2P Require Import ValidPtb MasterKeys Mvr KeyServer.

(** ** Channels and timers of [tokio]

    A [watch] channel with the mark of one receiver: it holds the latest value
    that was sent, and whether the receiver has seen it. *)
Class WatchChannel : Type := {
  Chan : Type;
  watch_channel : N → Chan;
  watch_send : N → Chan → Chan;
  watch_borrow : Chan → N;
  (** whether [changed().await] returns at once *)
  watch_changed : Chan → bool;
  (** after [changed().await] or [borrow_and_update] *)
  watch_mark_seen : Chan → Chan;
}.

Class WatchLaws `{WatchChannel} : Prop := {
  borrow_channel v : watch_borrow (watch_channel v) = v;
  changed_channel v : watch_changed (watch_channel v) = false;
  borrow_send v c : watch_borrow (watch_send v c) = v;
  changed_send v c : watch_changed (watch_send v c) = true;
  borrow_mark_seen c : watch_borrow (watch_mark_seen c) = watch_borrow c;
  changed_mark_seen c : watch_changed (watch_mark_seen c) = false;
}.

(** [Interval::tick] of an interval with this period. *)
Class Timer (Tx : Type) `{FullNode Tx} : Type := interval_tick : Duration → Env → Env.

(** Events of the legacy client. *)
Record CommitteeRotationInitiatedEvent : Type := mkCommitteeRotationInitiatedEvent {
  re_committee_id : Address;
  re_old_committee_id : Address;
}.

Class EventApi (Tx : Type) `{FullNode Tx} : Type := {
  EventID : Type;
  EventFilter : Type;
  (** [EventFilter::MoveEventType] of a parsed struct tag *)
  move_event_type : string → option EventFilter;
  (** [query_events(filter, cursor, Some(limit), descending)]: ids and contents *)
  query_events : EventFilter → option EventID → nat → bool → Env →
    (list (EventID * list byte) + string) * Env;
  decode_rotation_event : list byte → outcome string CommitteeRotationInitiatedEvent;
}.

Section monitors.
  Context {I C K T : Type}.
  Abbreviation Tx := (TransactionProto I C K T).
  Context {node : FullNode Tx} {sui : SuiTypes} {sym : Symmetric} {crv : Curve}
    {bcs : BcsTypes} {profile : BuildProfile} {semver : SemVer} {mvr : MvrLib}
    {ptb_lib : PtbLib} {lib : ServerLib Tx} {watch : WatchChannel} {timer : Timer Tx}.

Definition env_effect {E : Type} (f : Env → Env) : M E unit := with_env (λ e, ((), f e)).

Definition THIRTY_SECONDS : Duration := duration_from_secs 30.

(** ** The periodic updater *)
Definition updater_round {E : Type} (update_interval : Duration) (fetch_fn : M RpcError N)
    (success_callback : option (bool → M E unit)) (sender : Chan) : M E Chan :=
  result ← st_try fetch_fn;
  _ ← match success_callback with
      | Some scb => scb (match result with inl _ => true | inr _ => false end)
      | None => mret ()
      end;
  let sender := match result with inl new_value => watch_send new_value sender | inr _ => sender end in
  _ ← env_effect (interval_tick update_interval);
  mret sender.

(** [spawn_periodic_updater] returns when a value has been sent; [None]: it
    still waits after this many rounds. *)
Fixpoint await_value {E : Type} (rounds : nat) (round : Chan → M E Chan) (ch : Chan) :
    M E (option Chan) :=
  if watch_changed ch then mret (Some (watch_mark_seen ch))
  else
    match rounds with
    | O => mret None
    | S rounds => ch ← round ch; await_value rounds round ch
    end.

Definition spawn_periodic_updater {E : Type} (rounds : nat) (update_interval : Duration)
    (fetch_fn : M RpcError N) (success_callback : option (bool → M E unit)) :
    M E (option Chan) :=
  await_value rounds (updater_round update_interval fetch_fn success_callback) (watch_channel 0).

(** ** The reference gas price *)
Definition reference_gas_price_round {E : Type} (self : Server) (metrics : bool) (ch : Chan) :
    M E Chan :=
  updater_round (ko_rgp_update_interval (options self))
    (get_reference_gas_price (sui_rpc_client self))
    (if metrics then Some (status_callback "get_reference_gas_price_status") else None) ch.

Definition spawn_reference_gas_price_updater {E : Type} (rounds : nat) (self : Server)
    (metrics : bool) : M E (option Chan) :=
  spawn_periodic_updater rounds (ko_rgp_update_interval (options self))
    (get_reference_gas_price (sui_rpc_client self))
    (if metrics then Some (status_callback "get_reference_gas_price_status") else None).

(** [MyState::reference_gas_price] *)
Definition reference_gas_price (receiver : Chan) : N := watch_borrow receiver.

(** ** The committee version during a rotation *)
Record VersionUpdater : Type := mkVersionUpdater {
  vu_member_address : Address;
  vu_key_server_obj_id : Address;
  vu_target_version : N;
  vu_target_master_share : MasterKey;
}.

(** What [spawn_committee_version_updater] starts; [version] is the shared
    committee version. *)
Definition committee_version_updater (self : Server) (version : N) : option VersionUpdater :=
  match ko_server_mode (options self), master_keys self with
  | CommitteeServerMode member_address key_server_obj_id _ _,
    MKCommittee (KeyRotation _ next_master_share target_version) =>
      if (version =? target_version)%N then None
      else Some (mkVersionUpdater member_address key_server_obj_id target_version
                   next_master_share)
  | _, _ => None
  end.

Definition committee_version_round {E : Type} (self : Server) (u : VersionUpdater) (ch : Chan) :
    M E Chan :=
  updater_round THIRTY_SECONDS
    (fetch_committee_server_version (sui_rpc_client self) (vu_key_server_obj_id u)) None ch.

(** The monitor task on a change of the channel. *)
Definition committee_version_received {E : Type} (self : Server) (u : VersionUpdater)
    (receiver : Chan) : M E MonitorOutcome :=
  let version := (watch_borrow receiver `mod` 2 ^ 32)%N in
  if (version =? vu_target_version u)%N then
    r ← st_try (fetch_and_validate_committee_partial_pk (sui_rpc_client self)
          (vu_key_server_obj_id u) (vu_member_address u) (vu_target_master_share u));
    match r with
    | inl _ => mret (Completed (vu_target_version u))
    | inr _ => mret MonitorPanic
    end
  else if bool_decide (checked_succ version = Some (vu_target_version u)) then mret Continue
  else mret MonitorPanic.

(** ** Upgrade proposals *)
Definition fetch_proposal_version (self : Server) (key_server_obj_id : Address) : M RpcError N :=
  '(committee_id, _) ← fetch_committee_from_key_server (sui_rpc_client self) key_server_obj_id;
  proposal_opt ← fetch_upgrade_proposal (sui_rpc_client self) committee_id;
  mret (match proposal_opt with Some proposal => up_version proposal | None => 0%N end).

Definition proposal_round {E : Type} (self : Server) (key_server_obj_id : Address) (ch : Chan) :
    M E Chan :=
  updater_round THIRTY_SECONDS (fetch_proposal_version self key_server_obj_id) None ch.

Definition PACKAGE_UPGRADE_COUNTER : string := "committee_mode_package_upgrade_initiated_total".

(** The monitor task on a change of the channel; [last_proposal_id] after it. *)
Definition proposal_received {E : Type} (last_proposal_id : N) (receiver : Chan) :
    M E (N * Chan) :=
  let proposal_id := watch_borrow receiver in
  _ ← (if negb (proposal_id =? 0)%N && negb (proposal_id =? last_proposal_id)%N
       then record_metric (Inc PACKAGE_UPGRADE_COUNTER [])
       else mret ());
  mret (proposal_id, watch_mark_seen receiver).

(** ** Rotation events *)
Section events.
  Context {events : EventApi Tx}.

Record EventMonitor : Type := mkEventMonitor {
  last_event_seq : option EventID;
  initialized : bool;
}.

Definition event_monitor_start : EventMonitor := mkEventMonitor None false.

Definition ROTATION_COUNTER : string := "committee_mode_rotation_initiated_total".

(** A mismatch of committee ids is only logged. *)
Fixpoint handle_events {E : Type} (page : list (EventID * list byte))
    (last_event_seq : option EventID) : M E (option EventID) :=
  match page with
  | [] => mret last_event_seq
  | (id, bytes) :: page =>
      _ ← st_lift (expect_ok (decode_rotation_event bytes));
      _ ← record_metric (Inc ROTATION_COUNTER []);
      handle_events page (Some id)
  end.

Definition rotation_event_round {E : Type} (self : Server) (key_server_obj_id : Address)
    (st : EventMonitor) : M E EventMonitor :=
  fetched ← st_try (fetch_committee_from_key_server (sui_rpc_client self) key_server_obj_id);
  match fetched with
  | inr _ => _ ← env_effect (env_sleep THIRTY_SECONDS); mret st
  | inl (committee_id, committee_pkg_id) =>
      event_filter ← st_lift (expect (move_event_type (address_to_string committee_pkg_id
                        +:+ "::seal_committee::CommitteeRotationInitiated")));
      if negb (initialized st) then
        page ← with_env (query_events event_filter None 1 true);
        let st :=
          match page with
          | inl page => mkEventMonitor (head page.*1) true
          | inr _ => st
          end in
        _ ← env_effect (env_sleep THIRTY_SECONDS);
        mret st
      else
        events_result ← with_env (query_events event_filter (last_event_seq st) 1 false);
        st ← match events_result with
             | inl page =>
                 last ← handle_events page (last_event_seq st);
                 mret (mkEventMonitor last (initialized st))
             | inr _ => mret st
             end;
        _ ← env_effect (env_sleep THIRTY_SECONDS);
        mret st
  end.

(** The monitor is started in committee mode only, and needs the legacy
    client. *)
Definition spawn_committee_rotation_event_monitor {E : Type} (self : Server) :
    outcome E (option Address) :=
  match ko_server_mode (options self) with
  | CommitteeServerMode _ key_server_obj_id _ _ =>
      _ ← assert (has_sui_client (sui_rpc_client self)); Ok (Some key_server_obj_id)
  | _ => Ok None
  end.
End events.

(** ** Supervision ([start_server_background_tasks]) *)

(** How a task ended: it returned, panicked, or was cancelled. *)
Inductive JoinResult : Type := JoinOk | JoinPanic | JoinCancelled.

Inductive BackgroundTask : Type := GasPriceTask | MetricsPushTask | VersionMonitorTask.

(** The task around the committee version updater never returns: when the
    updater completes, or none was started, it waits forever ([None]). *)
Definition version_monitor_task (updater : option JoinResult) : option JoinResult :=
  match updater with
  | Some JoinOk | None => None
  | Some JoinPanic | Some JoinCancelled => Some JoinPanic
  end.

(** What the supervisor does when the first task ends: it panics, returns the
    task's error, or reaches the [unreachable!]. *)
Inductive Supervision : Type := ResumePanic | ReturnError | ReachUnreachable.

Definition supervise (ended : BackgroundTask * JoinResult) : Supervision :=
  match ended.2 with
  | JoinOk => ReachUnreachable
  | JoinPanic => ResumePanic
  | JoinCancelled => ReturnError
  end.
End monitors.

(** ** A toy committee server on which witnesses are evaluated

    The environment counts the rotation events that have been emitted, one
    with every sleep. *)
Module ToyMonitors.
#[local] Existing Instances Toy.symmetric Toy.curve ToyCommon.semver ToyCommon.profile ToyChain.sui.

Abbreviation ToyTx := (TransactionProto unit unit unit unit).

Definition share : MasterKey (Curve := Toy.curve) := Byte.x0a.

#[local] Instance node : FullNode ToyTx := {
  Env := nat; GrpcClient := unit;
  grpc_client_new _ := Ok ();
  metadata_value_error _ := None; metadata_key_error _ := None;
  with_header c _ _ := c;
  get_object_rpc _ name _ e :=
    (inl (mkGetObjectResponse (Some (mkObjectProto (Some (Some (bytes_of name)))
            (Some (mkOwnerProto (Some "o") (Some 1%N))) (Some "p")))), e);
  simulate_rpc _ _ _ e := (inl (mkSimulateResponse None 7), e);
  get_epoch_rgp_rpc _ e := (inl 1000%N, e);
  build_mainnet_rpc e := (true, e);
  bcs_object b := Ok (DataMove b);
  env_sleep _ e := S e; env_now e := (1000%N, e); env_instant e := (0%N, e);
  env_package_cached _ _ := true; env_mvr_cached _ _ := true;
  env_committee_version _ := 1%N;
}.

#[local] Instance bcs : BcsTypes := {
  decode_field_key_server _ := Ok (mkField [] 2%N (mkKeyServerV2 "ks" Byte.x00 []
    (CommitteeServer 2 1
      [mkPartialKeyServer "member" "url" (public_key_from_master_key share) 0])));
  decode_committee _ := Ok (mkSealCommittee [Byte.x01] 1 [[Byte.x55]] Finalized None);
  decode_field_wrapper _ := Ok (mkField [] [Byte.x01] [Byte.x02]);
  decode_upgrade_manager_wrapper _ := Ok (mkField [] false [Byte.x03]);
  decode_upgrade_manager _ := Ok (mkUpgradeManager [] (mkUpgradeCap [] [] 1 Byte.x00)
    (Some (mkUpgradeProposal [] 3 [])));
  encode_wrapper a := Ok a; encode_upgrade_manager_key _ := Ok [];
}.

#[local] Instance watch : WatchChannel := {
  Chan := (N * bool)%type;
  watch_channel v := (v, false); watch_send v _ := (v, true);
  watch_borrow := fst; watch_changed := snd; watch_mark_seen c := (c.1, false);
}.
#[local] Instance watch_laws : WatchLaws.
Proof. by split. Defined.

#[local] Instance timer : Timer ToyTx := λ _ e, e.

#[local] Instance lib : ServerLib ToyTx := {
  verify_personal_message_signature _ _ _ _ e := (true, e);
  ed25519_verify _ _ _ := true; ed25519_display _ := "vk";
  utc_from_timestamp _ := Some "now";
  bcs_encode_ptb _ := []; bcs_encode_g1 g := [g]; bcs_encode_request r := rf_enc_key r;
  transaction_data _ _ _ _ := mkTransactionProto None None ();
  SUI_FRAMEWORK_ADDRESS := [Byte.x02]; SUI_ADDRESS_ALIAS_STATE_OBJECT_ID := [Byte.x0c];
}.

(** The [i]-th event has id [i]. *)
Definition log (n : nat) : list (nat * list byte) := (λ i, (i, [])) <$> seq 0 n.

#[local] Instance events : EventApi ToyTx := {
  EventID := nat; EventFilter := unit;
  move_event_type _ := Some ();
  query_events _ cursor _ descending e :=
    (inl (if descending then take 1 (reverse (log e))
          else take 1 (drop (match cursor with Some i => S i | None => 0 end) (log e))), e);
  decode_rotation_event _ := Ok (mkCommitteeRotationInitiatedEvent [Byte.x07] [Byte.x01]);
}.

Definition client : SuiRpcClient := mkSuiRpcClient true () default_retry_config true.

Definition server : Server :=
  mkServer client (MKCommittee (KeyRotation (Some Byte.x05) share 2)) ∅
    (mkKeyServerOptions Testnet None
       (CommitteeServerMode [Byte.x55] [Byte.x77] (RotationMode 2) "member") "" "" "" 1000 0
       120000000000 3600000000000 default_rpc_config None true).

Definition world : World := mkWorld 3 [] ∅ ∅.
End ToyMonitors.
