(* ===== verification/HttpServer.v ===== *)
(** * The HTTP server ([crates/key-server/src/server.rs]: [app], [main];
    [common.rs]: [add_response_headers]; [metrics.rs]: the middlewares;
    [aggregator/server.rs]: [main])

    The routes and the layers around them, from the outside in: CORS, the
    limit on the body, the metrics, the version headers of a response, the
    check of the client's version, the handler; the start of the server. *)

From Stdlib Require Import NArith Lia.
From stdpp Require Import pretty.
From S2P Require Import Prelude Utils Primitives Elgamal Ibe Common Chain Committee RpcClient.
From S2P Require Import Options ValidPtb MasterKeys Mvr KeyServer Aggregator Monitors.

(** ** Requests and replies *)
Inductive Method : Type := GET | HEAD | POST | OPTIONS | OtherMethod.

#[export] Instance Method_eq_dec : EqDecision Method.
Proof. solve_decision. Defined.

Record HttpRequest : Type := mkHttpRequest {
  hr_method : Method;
  hr_path : string;
  hr_query : string;
  hr_content_length : option N; (** if there is one, and it parses *)
  hr_header : string → option (list byte);
  hr_body : list byte;
}.

Record Reply : Type := mkReply {
  rp_status : N;
  rp_headers : gmap string string;
  rp_body : list byte;
}.

Definition HEADER_CLIENT_SDK_TYPE : string := "Client-Sdk-Type".
Definition HEADER_KEYSERVER_VERSION : string := "X-KeyServer-Version".
Definition HEADER_KEYSERVER_GIT_VERSION : string := "X-KeyServer-GitVersion".
Definition DEFAULT_PORT : N := 2024.

Definition status_code (s : StatusCode) : N :=
  match s with
  | OK => 200 | BAD_REQUEST => 400 | FORBIDDEN => 403 | UPGRADE_REQUIRED => 426
  | SERVICE_UNAVAILABLE => 503 | INTERNAL_SERVER_ERROR => 500 | BAD_GATEWAY => 502
  end.

(** The web framework: extractors with their rejections, the replies it makes
    by itself, JSON, and the CORS layer. *)
Class HttpLib `{Curve} : Type := {
  (** [HeaderValue::to_str] *)
  value_to_str : list byte → option string;
  (** [Json<FetchKeyRequest>] of the body, or of one that exceeds the limit *)
  extract_payload : HttpRequest → list byte + unit → FetchKeyRequest + Reply;
  (** [Query<HashMap<String, String>>] *)
  extract_query : string → gmap string string + Reply;
  json_fetch_key : FetchKeyResponse → list byte;
  json_service : GetServiceResponse → list byte;
  json_partial_pk : IbePublicKey → list byte;
  json_error : ErrorResponse → list byte;
  method_not_allowed : HttpRequest → Reply;
  payload_too_large : Reply;
  (** the routes that [get_mysten_service] comes with, and its answer to the
      paths that no route has *)
  mysten_service : HttpRequest → Reply;
  cors_preflight : Reply;
  cors_headers : Reply → Reply;
  package_version : string;
  GIT_VERSION : string;
}.

(** CORS adds headers of its own. *)
Class HttpLaws `{HttpLib} : Prop := {
  cors_status r : rp_status (cors_headers r) = rp_status r;
  cors_body r : rp_body (cors_headers r) = rp_body r;
  cors_versions r h : h ∈ [HEADER_KEYSERVER_VERSION; HEADER_KEYSERVER_GIT_VERSION] →
    rp_headers (cors_headers r) !! h = rp_headers r !! h;
}.

Section replies.
  Context {crv : Curve} {http : HttpLib}.

Definition json_reply (status : N) (body : list byte) : Reply :=
  mkReply status {["content-type" := "application/json"]} body.

Definition text_reply (status : StatusCode) (body : string) : Reply :=
  mkReply (status_code status) {["content-type" := "text/plain; charset=utf-8"]} (bytes_of body).

(** [IntoResponse] of an error. *)
Definition error_reply (r : ErrorResponse) : Reply :=
  json_reply (status_code (status_of r)) (json_error r).

Definition add_response_headers (package_version git_version : string) (response : Reply) : Reply :=
  mkReply (rp_status response)
    (<[HEADER_KEYSERVER_GIT_VERSION := git_version]>
       (<[HEADER_KEYSERVER_VERSION := package_version]> (rp_headers response)))
    (rp_body response).

(** A [GET] route also answers [HEAD], without the body. *)
Definition without_body (req : HttpRequest) (reply : Reply) : Reply :=
  if decide (hr_method req = HEAD) then mkReply (rp_status reply) (rp_headers reply) []
  else reply.

Definition content_length_exceeds (limit : N) (req : HttpRequest) : bool :=
  match hr_content_length req with Some n => (limit <? n)%N | None => false end.

(** The body as the extractors see it behind [RequestBodyLimitLayer]. *)
Definition limited_body (limit : N) (req : HttpRequest) : list byte + unit :=
  if (N.of_nat (length (hr_body req)) <=? limit)%N then inl (hr_body req) else inr ().
End replies.

Section server.
  Context {I C K T : Type}.
  Abbreviation Tx := (TransactionProto I C K T).
  Context {node : FullNode Tx} {sui : SuiTypes} {sym : Symmetric} {crv : Curve}
    {bcs : BcsTypes} {profile : BuildProfile} {semver : SemVer} {mvr : MvrLib}
    {ptb_lib : PtbLib} {lib : ServerLib Tx} {http : HttpLib}.
  Context {R : Type} `{AllowedRng R}.

(** [IntoResponse] of a [Result]. *)
Definition into_reply {E A : Type} (ok : A → Reply) (m : M InternalError A) : M E Reply :=
  r ← st_try m;
  mret (match r with inl a => ok a | inr e => error_reply (into_response e).2 end).

Definition fetch_key_route {E : Type} (self : Server) (gas_price : N) (rng : R)
    (req : HttpRequest) : M E Reply :=
  match extract_payload req (limited_body (N.of_nat MAX_REQUEST_SIZE) req) with
  | inr rejection => mret rejection
  | inl payload =>
      let req_id := (λ v, default "" (value_to_str v)) <$> hr_header req "Request-Id" in
      into_reply (λ r, json_reply 200 (json_fetch_key r))
        (handle_fetch_key self payload req_id gas_price rng)
  end.

Definition service_route {E : Type} (self : Server) (req : HttpRequest) : M E Reply :=
  match extract_query (hr_query req) with
  | inr rejection => mret rejection
  | inl params =>
      into_reply (λ r, json_reply 200 (json_service r)) (handle_get_service self params)
  end.

Definition partial_pk_route {E : Type} (self : Server) : M E Reply :=
  into_reply (λ r,
      match r with
      | Unsupported => text_reply BAD_REQUEST "Unsupported"
      | PartialPk pk => json_reply 200 (json_partial_pk pk)
      | PartialPkError (_, e) => error_reply e
      end) (handle_get_committee_server_partial_pk self).

(** The handler of a path and a method; [None]: another path. *)
Definition route {E : Type} (self : Server) (gas_price : N) (rng : R) (req : HttpRequest) :
    option (M E Reply) :=
  let get (handler : M E Reply) :=
    if decide (hr_method req ∈ [GET; HEAD]) then
      reply ← handler; mret (without_body req reply)
    else mret (method_not_allowed req) in
  if decide (hr_path req = "/v1/fetch_key") then
    Some (if decide (hr_method req = POST) then fetch_key_route self gas_price rng req
          else mret (method_not_allowed req))
  else if decide (hr_path req = "/v1/service") then Some (get (service_route self req))
  else if decide (hr_path req = "/v1/debug/committee_partial_pk") then
    Some (get (partial_pk_route self))
  else None.

(** The layers of the routes. *)
Definition layered {E : Type} (self : Server) (handler : M InternalError Reply)
    (req : HttpRequest) : M E Reply :=
  metrics_middleware (λ r, pretty (rp_status r)) (hr_path req)
    (response ← into_reply (λ r, r)
       (handle_request_headers self value_to_str (hr_header req HEADER_CLIENT_SDK_VERSION)
          (hr_header req HEADER_CLIENT_SDK_TYPE) handler);
     mret (add_response_headers package_version GIT_VERSION response)).

(** The router that [app] returns, on one request. *)
Definition app_call {E : Type} (self : Server) (gas_price : N) (rng : R) (req : HttpRequest) :
    M E Reply :=
  if decide (hr_method req = OPTIONS) then mret cors_preflight
  else
    reply ←
      (if content_length_exceeds (N.of_nat MAX_REQUEST_SIZE) req then mret payload_too_large
       else
         match route self gas_price rng req with
         | Some handler => layered self handler req
         | None => mret (mysten_service req)
         end);
    mret (cors_headers reply).
End server.

(** ** The aggregator's router *)
Section aggregator.
  Context {I C K T : Type}.
  Abbreviation Tx := (TransactionProto I C K T).
  Context {node : FullNode Tx} {sui : SuiTypes} {sym : Symmetric} {crv : Curve}
    {bcs : BcsTypes} {profile : BuildProfile} {semver : SemVer} {ptb_lib : PtbLib}
    {order : HashOrder} {recover : RecoverC0 Scalar G1Element} {lib : AggregatorLib Tx}
    {http : HttpLib}.

(** The metrics of the aggregator have the key server's names. *)
Definition aggregator_metrics_middleware {E A : Type} (status : A → string) (path : string)
    (next : M E A) : M E A :=
  let route := normalize_route path in
  start ← with_env env_instant;
  _ ← record_metric (GaugeInc "http_request_in_flight" [route]);
  response ← next;
  _ ← record_metric (GaugeDec "http_request_in_flight" [route]);
  elapsed ← with_env env_instant;
  let status := status response in
  _ ← record_metric (Observe "http_request_duration_millis" [route; status] (elapsed - start)%N);
  _ ← record_metric (Inc "http_requests_total" [route; status]);
  mret response.

Definition aggregator_fetch_key_route {E : Type} (sui_rpc_client : SuiRpcClient)
    (options : AggregatorOptions) (committee : CommitteeSnapshot)
    (schedule : list PartialKeyServer → list PartialKeyServer) (req : HttpRequest) : M E Reply :=
  match extract_payload req (inl (hr_body req)) with
  | inr rejection => mret rejection
  | inl payload =>
      r ← st_try (aggregator_handle_fetch_key sui_rpc_client options committee schedule
            (hr_header req HEADER_CLIENT_SDK_TYPE) (hr_header req HEADER_CLIENT_SDK_VERSION)
            (default "" (hr_header req "Request-Id" ≫= header_to_str)) payload);
      mret (match r with
            | inl response => json_reply 200 (json_fetch_key response)
            | inr e => error_reply e
            end)
  end.

Definition aggregator_route {E : Type} (sui_rpc_client : SuiRpcClient)
    (options : AggregatorOptions) (committee : CommitteeSnapshot)
    (schedule : list PartialKeyServer → list PartialKeyServer) (req : HttpRequest) :
    option (M E Reply) :=
  if decide (hr_path req = "/v1/fetch_key") then
    Some (if decide (hr_method req = POST)
          then aggregator_fetch_key_route sui_rpc_client options committee schedule req
          else mret (method_not_allowed req))
  else if decide (hr_path req = "/v1/service") then
    Some (if decide (hr_method req ∈ [GET; HEAD])
          then let '(status, body) := aggregator_handle_get_service in
               mret (without_body req (text_reply status body))
          else mret (method_not_allowed req))
  else None.

Definition aggregator_call {E : Type} (sui_rpc_client : SuiRpcClient)
    (options : AggregatorOptions) (committee : CommitteeSnapshot)
    (schedule : list PartialKeyServer → list PartialKeyServer) (req : HttpRequest) : M E Reply :=
  if decide (hr_method req = OPTIONS) then mret cors_preflight
  else
    reply ← aggregator_metrics_middleware (λ r, pretty (rp_status r)) (hr_path req)
      (match aggregator_route sui_rpc_client options committee schedule req with
       | Some handler =>
           response ← handler;
           mret (add_response_headers package_version GIT_VERSION response)
       | None => mret (mysten_service req)
       end);
    mret (cors_headers reply).
End aggregator.

(** ** Start *)

(** The configuration file: it cannot be opened ([Err]), or not be parsed
    ([Panic]). *)
Class ConfigFile `{SemVer, SuiTypes} : Type := {
  read_config : string → outcome string KeyServerOptions;
}.

Definition set_node_url `{SemVer, SuiTypes} (url : string) (o : KeyServerOptions) :
    KeyServerOptions :=
  {| ko_network := ko_network o; ko_node_url := Some url;
     ko_server_mode := ko_server_mode o;
     ko_ts_sdk_version_requirement := ko_ts_sdk_version_requirement o;
     ko_rust_sdk_version_requirement := ko_rust_sdk_version_requirement o;
     ko_aggregator_version_requirement := ko_aggregator_version_requirement o;
     ko_metrics_host_port := ko_metrics_host_port o;
     ko_rgp_update_interval := ko_rgp_update_interval o;
     ko_allowed_staleness := ko_allowed_staleness o;
     ko_session_key_ttl_max := ko_session_key_ttl_max o;
     ko_rpc_config := ko_rpc_config o;
     ko_metrics_push_config := ko_metrics_push_config o;
     ko_enable_event_monitoring := ko_enable_event_monitoring o |}.

Section start.
  Context {I C K T : Type}.
  Abbreviation Tx := (TransactionProto I C K T).
  Context {node : FullNode Tx} {sui : SuiTypes} {sym : Symmetric} {crv : Curve}
    {bcs : BcsTypes} {profile : BuildProfile} {semver : SemVer} {mvr : MvrLib}
    {ptb_lib : PtbLib} {lib : ServerLib Tx} {http : HttpLib} {watch : WatchChannel}
    {timer : Timer Tx} {env : Environment} {encs : Encodings} {config : ConfigFile}.

(** Which options the server starts with. *)
Definition app_options : outcome string KeyServerOptions :=
  match env_var "CONFIG_PATH" with
  | Some config_path =>
      opts ← read_config config_path;
      match ko_node_url opts, env_var "NODE_URL" with
      | Some _, Some _ => Panic
      | None, Some url => Ok (set_node_url url opts)
      | _, None => Ok opts
      end
  | None =>
      network ← match env_var "NETWORK" with
                | Some n =>
                    match network_from_str (decode_object_id "SEAL_PACKAGE") n with
                    | Ok network => Ok network
                    | Err _ => Ok Testnet
                    | Panic => Panic
                    end
                | None => Ok Testnet
                end;
      key_server_object_id ← decode_object_id "KEY_SERVER_OBJECT_ID";
      new_open_server_with_default_values network key_server_object_id
  end.

(** The tasks that run beside the handlers. *)
Record BackgroundTasks : Type := mkBackgroundTasks {
  bt_reference_gas_price : Chan;
  bt_committee_version : option (VersionUpdater * Chan);
  bt_upgrade_proposals : option Chan;
  bt_metrics_push : bool;
}.

(** A value that may still be waited for. *)
Definition awaited {E A B : Type} (m : M E (option A)) (f : A → M E (option B)) : M E (option B) :=
  r ← m; match r with Some a => f a | None => mret None end.

Definition start_server_background_tasks {events : EventApi Tx} {E : Type} (rounds : nat)
    (self : Server) : M E (option BackgroundTasks) :=
  awaited (spawn_reference_gas_price_updater rounds self true) (λ reference_gas_price,
  w ← st_get;
  awaited (match committee_version_updater self (env_committee_version (w_env w)) with
           | Some u =>
               awaited (spawn_periodic_updater rounds THIRTY_SECONDS
                   (fetch_committee_server_version (sui_rpc_client self)
                      (vu_key_server_obj_id u)) None)
                 (λ ch, mret (Some (Some (u, ch))))
           | None => mret (Some None)
           end) (λ committee_version,
  awaited (if ko_enable_event_monitoring (options self) then
             monitored ← st_lift (spawn_committee_rotation_event_monitor self);
             match monitored with
             | Some key_server_obj_id =>
                 awaited (spawn_periodic_updater rounds THIRTY_SECONDS
                     (fetch_proposal_version self key_server_obj_id) None)
                   (λ ch, mret (Some (Some ch)))
             | None => mret (Some None)
             end
           else mret (Some None)) (λ upgrade_proposals,
  mret (Some (mkBackgroundTasks reference_gas_price committee_version upgrade_proposals
    (match ko_metrics_push_config (options self) with Some _ => true | None => false end)))))).

(** [app] up to the router; [None]: it still waits for the full node. *)
Definition app {events : EventApi Tx} (rounds : nat) (sui_client_built : bool) :
    M string (option (Server * BackgroundTasks)) :=
  options ← st_lift app_options;
  _ ← st_lift (validate options);
  server ← server_new options true sui_client_built;
  _ ← record_metric (Inc "key_server_version" [package_version]);
  awaited (start_server_background_tasks rounds server) (λ tasks, mret (Some (server, tasks))).

(** [PORT] of [main], parsed by [parse_u16]. *)
Definition port (parse_u16 : string → option N) : outcome string N :=
  match env_var "PORT" with
  | Some p => ok_or (parse_u16 p) "Invalid PORT"
  | None => Ok DEFAULT_PORT
  end.
End start.
