(* ===== verification/HttpProps.v ===== *)
(** * Properties of the HTTP server

    Every request for a route of the key server is accounted for, passes the
    check of its version or is refused, and gets the server's version; the
    server that starts is consistent with its options. *)

From Stdlib Require Import NArith Lia.
From stdpp Require Import pretty.
From S2P Require Import Prelude Utils Primitives Elgamal Ibe Common Chain Committee RpcClient.
From S2P Require Import Metrics Keeps Options ValidPtb MasterKeys Mvr KeyServer KeyServerTheory Accounting.
From S2P Require Import KeyServerProps Monitors HttpServer.

(** Metrics that do not account for HTTP requests. *)
Definition not_http (m : Metric) : Prop :=
  match m with
  | Inc name _ => name ≠ "http_requests_total"
  | Observe _ _ _ => True
  | GaugeInc _ _ | GaugeDec _ _ => False
  end.

(** What the layers below the middleware of the metrics record. *)
Definition quiet (m : Metric) : Prop := not_http m ∧ recorded m.

Lemma routine_quiet m : routine m → quiet m.
Proof.
  intros [Hu Hr]. split; [|done]. destruct m; simpl in *; try done.
  intros ->. apply Hu. by vm_compute; right; right; left.
Qed.

Section http.
  Context {I C K T : Type}.
  Abbreviation Tx := (TransactionProto I C K T).
  Context {node : FullNode Tx} {sui : SuiTypes} {sym : Symmetric} {crv : Curve}
    {bcs : BcsTypes} {profile : BuildProfile} {semver : SemVer} {mvr : MvrLib}
    {ptb_lib : PtbLib} {lib : ServerLib Tx} {http : HttpLib}.
  Context {R : Type} `{AllowedRng R}.

Abbreviation quietly := (logs_of quiet).

Lemma keeps_quietly {E A : Type} (m : M E A) : keeps logs m → keeps quietly m.
Proof. apply keeps_weaken, routine_quiet. Qed.

Lemma handle_fetch_key_quiet self payload req_id gas_price (rng : R) :
  keeps quietly (handle_fetch_key self payload req_id gas_price rng).
Proof.
  intros w. pose proof (handle_fetch_key_log self payload req_id gas_price rng w) as Hlog.
  destruct (handle_fetch_key _ _ _ _ _ w) as [r w']. destruct Hlog as (ms & Hms & Hw').
  simpl. exists (match r with Err e => [Inc "errors" [as_str e]] | _ => [] end ++ ms
                  ++ [Inc "requests" []]).
  split; [by rewrite Hw', <-!app_assoc|].
  rewrite !Forall_app. split_and!; [by destruct r; repeat constructor| |by repeat constructor].
  eapply Forall_impl; [done|]. apply routine_quiet.
Qed.

Lemma keeps_into_reply {E A : Type} (ok : A → Reply) (m : M InternalError A) :
  keeps quietly m → keeps quietly (into_reply (E := E) ok m).
Proof. intros Hm. unfold into_reply. keeps. Qed.

Lemma route_quiet {E : Type} self gas_price (rng : R) req (handler : M E Reply) :
  route self gas_price rng req = Some handler → keeps quietly handler.
Proof.
  unfold route. repeat case_decide; intros [= <-]; try (apply keeps_ret).
  - unfold fetch_key_route. destruct (extract_payload _ _); [|apply keeps_ret].
    apply keeps_into_reply, handle_fetch_key_quiet.
  - apply keeps_bind; [|intros ?; apply keeps_ret].
    unfold service_route. destruct (extract_query _); [|apply keeps_ret].
    apply keeps_into_reply, keeps_quietly. unfold handle_get_service. keeps.
  - apply keeps_bind; [|intros ?; apply keeps_ret].
    apply keeps_into_reply, keeps_quietly. unfold handle_get_committee_server_partial_pk. keeps.
Qed.

(** ** The layers *)

(** What the middleware of the metrics records around [next]. *)
Lemma metrics_middleware_log {E A : Type} (status : A → string) path (next : M E A) (w : World) :
  let '(r, w') := metrics_middleware status path next w in
  ∃ w1, w_metrics w1
      = GaugeInc "http_request_in_flight" [normalize_route path] :: w_metrics w ∧
    (next w1).1 = r ∧
    match r with
    | Ok a => ∃ t, w_metrics w' =
        [Inc "http_requests_total" [normalize_route path; status a];
         Observe "http_request_duration_millis" [normalize_route path; status a] t;
         GaugeDec "http_request_in_flight" [normalize_route path]] ++ w_metrics (next w1).2
    | _ => w' = (next w1).2
    end.
Proof.
  unfold metrics_middleware, with_env, record_metric, mbind, st_bind, mret, st_ret, st_modify.
  destruct (env_instant (w_env w)) as [t e]. cbn [w_env w_metrics w_package_id_cache w_mvr_cache].
  set (w1 := mkWorld e _ _ _).
  destruct (next w1) as [[a|e'|] w2] eqn:Hn; [|by exists w1; rewrite Hn..].
  destruct (env_instant (w_env w2)) as [t' e'']. exists w1. rewrite Hn. split_and!; [done..|].
  by eexists.
Qed.

(** Why a request is refused for its version. *)
Definition version_verdict (self : Server) (req : HttpRequest) : option InternalError :=
  match hr_header req HEADER_CLIENT_SDK_VERSION with
  | None => Some (MissingRequiredHeader HEADER_CLIENT_SDK_VERSION)
  | Some b =>
      match value_to_str b ≫= version_parse with
      | None => Some InvalidSDKVersion
      | Some version =>
          match requirement_of (options self)
                  (hr_header req HEADER_CLIENT_SDK_TYPE ≫= value_to_str) with
          | Some req => if req_matches req version then None else Some DeprecatedSDKVersion
          | None => None
          end
      end
  end.

Lemma request_headers_verdict {A : Type} self req (next : M InternalError A) w :
  let run := handle_request_headers self value_to_str (hr_header req HEADER_CLIENT_SDK_VERSION)
               (hr_header req HEADER_CLIENT_SDK_TYPE) next w in
  match version_verdict self req with
  | Some e => run = (_ ← observe_error (as_str e); st_lift (Err e)) w
  | None => ∃ label v, run = (_ ← record_metric (Inc "client_sdk_version" [label; v]); next) w
  end.
Proof.
  pose proof (version_middleware self value_to_str (hr_header req HEADER_CLIENT_SDK_VERSION)
    (hr_header req HEADER_CLIENT_SDK_TYPE) next w) as Hv. cbv zeta in *. unfold version_verdict.
  destruct (hr_header req HEADER_CLIENT_SDK_VERSION) as [b|]; [|done].
  cbn [mbind option_bind] in *. destruct (value_to_str b) as [v|]; [|done]. cbn in *.
  destruct (version_parse v) as [version|]; [|done].
  destruct (requirement_of _ _) as [r|]; [|by destruct Hv as [l ?]; exists l, v].
  destruct (req_matches r version); [by destruct Hv as [l ?]; exists l, v|done].
Qed.
Lemma into_reply_ok {E A : Type} (ok : A → Reply) (m : M InternalError A) (w : World) :
  into_reply (E := E) ok m w =
    (match (m w).1 with
     | Ok a => Ok (ok a) | Err e => Ok (error_reply (into_response e).2) | Panic => Panic
     end, (m w).2).
Proof. unfold into_reply, st_try, mbind, st_bind. by destruct (m w) as [[] ?]. Qed.

Lemma bind_ret_run {E A B : Type} (m : M E A) (f : A → B) (w : World) :
  (a ← m; mret (f a)) w = (f <$> (m w).1, (m w).2).
Proof. unfold mbind, st_bind. by destruct (m w) as [[] ?]. Qed.

Definition ROUTES : list string :=
  ["/v1/fetch_key"; "/v1/service"; "/v1/debug/committee_partial_pk"].

Lemma route_known {E : Type} self gas_price (rng : R) req : hr_path req ∈ ROUTES →
  normalize_route (hr_path req) = hr_path req ∧
  ∃ handler : M E Reply, route self gas_price rng req = Some handler.
Proof.
  unfold ROUTES. rewrite !elem_of_cons, elem_of_nil.
  intros [Hp|[Hp|[Hp|[]]]]; rewrite Hp; (split; [done|]);
    unfold route; rewrite Hp; simpl; by eexists.
Qed.

(** The inner layers: the log, and the reply to a refused request. *)
Lemma checked_log self req (handler : M InternalError Reply) w :
  keeps quietly handler →
  let '(r, w') := into_reply (E := string) (λ r, r)
    (handle_request_headers self value_to_str (hr_header req HEADER_CLIENT_SDK_VERSION)
       (hr_header req HEADER_CLIENT_SDK_TYPE) handler) w in
  ∃ ms, w_metrics w' = ms ++ w_metrics w ∧ Forall quiet ms ∧
    match version_verdict self req with
    | Some e => r = Ok (error_reply (into_response e).2) ∧ ms = [Inc "errors" [as_str e]]
    | None => (∀ e, r ≠ Err e) ∧
        ∃ label v handled, ms = handled ++ [Inc "client_sdk_version" [label; v]]
    end.
Proof.
  intros Hh. rewrite into_reply_ok.
  pose proof (request_headers_verdict self req handler w) as Hv. cbv zeta in Hv.
  destruct (version_verdict self req) as [e|].
  - rewrite Hv. eexists [_]. split; [done|]. split; [by repeat constructor|done].
  - destruct Hv as (label & v & ->). unfold record_metric, st_modify, mbind, st_bind.
    destruct (Hh (mkWorld (w_env w) (Inc "client_sdk_version" [label; v] :: w_metrics w)
      (w_package_id_cache w) (w_mvr_cache w))) as (ms & Hms & HF).
    exists (ms ++ [Inc "client_sdk_version" [label; v]]).
    split; [by rewrite <-app_assoc|]. split; [rewrite Forall_app; by repeat constructor|].
    split; [by destruct (handler _) as [[] ?]|by exists label, v, ms].
Qed.

(** What a refused client is told. *)
Definition refusal (e : InternalError) : Reply :=
  cors_headers (add_response_headers package_version GIT_VERSION (error_reply (into_response e).2)).

(** C24: requests over HTTP, for the routes of the key server. A preflight
    ([OPTIONS]) is answered by the CORS layer, and a body that is announced as
    too large by the limit, both without a trace in the metrics. Every other
    request is counted as in flight while it is handled, and once with its
    status when it is answered; nothing in between counts as a request. The
    answer carries the version of the server, on errors too. A client without
    a version, or with one that is not supported, is told the error that says
    so, in the status and the body of the answer; the error is counted, and
    nothing else is: the request does not reach the handler. Only a handler
    that panics leaves the request without an answer, and then the gauge of
    requests in flight is never decremented. *)
Theorem requests_accounted {http_laws : HttpLaws} (self : Server) (gas_price : N) (rng : R)
    (req : HttpRequest) (w : World) :
  hr_path req ∈ ROUTES →
  let '(r, w') := app_call (E := string) self gas_price rng req w in
  let path := hr_path req in
  if decide (hr_method req = OPTIONS) then r = Ok cors_preflight ∧ w' = w
  else if content_length_exceeds (N.of_nat MAX_REQUEST_SIZE) req then
    r = Ok (cors_headers payload_too_large) ∧ w' = w
  else
  ∃ ms, Forall quiet ms ∧
    match version_verdict self req with
    | Some e => ms = [Inc "errors" [as_str e]] ∧ r = Ok (refusal e) ∧
        rp_status (refusal e) = status_code (status_of (into_response e).2) ∧
        rp_body (refusal e) = json_error (into_response e).2
    | None => ∃ label v handled, ms = handled ++ [Inc "client_sdk_version" [label; v]]
    end ∧
    let in_flight := ms ++ GaugeInc "http_request_in_flight" [path] :: w_metrics w in
    match r with
    | Ok reply =>
        rp_headers reply !! HEADER_KEYSERVER_VERSION = Some package_version ∧
        rp_headers reply !! HEADER_KEYSERVER_GIT_VERSION = Some GIT_VERSION ∧
        ∃ t, w_metrics w' =
          [Inc "http_requests_total" [path; pretty (rp_status reply)];
           Observe "http_request_duration_millis" [path; pretty (rp_status reply)] t;
           GaugeDec "http_request_in_flight" [path]] ++ in_flight
    | Err _ => False
    | Panic => w_metrics w' = in_flight
    end.
Proof.
  intros Hp. unfold app_call. case_decide as Hm; [done|].
  destruct (content_length_exceeds _ req) eqn:Hl; [done|].
  destruct (route_known (E := InternalError) self gas_price rng req Hp) as (Hnorm & handler & Hr).
  rewrite Hr, bind_ret_run. unfold layered.
  match goal with |- context [metrics_middleware ?s ?p ?n w] =>
    pose proof (metrics_middleware_log s p n w) as Hlog;
    destruct (metrics_middleware s p n w) as [r w'] end.
  destruct Hlog as (w1 & Hw1 & Hn & Hlog). rewrite Hnorm, bind_ret_run in *.
  pose proof (checked_log self req handler w1 (route_quiet _ _ _ _ _ Hr)) as Hc.
  destruct (into_reply _ _ w1) as [r1 w2]. destruct Hc as (ms & Hms & HF & Hv).
  rewrite Hw1 in Hms. cbn [fst snd] in Hn, Hlog. subst r.
  destruct r1 as [reply|e|]; cbn in Hlog |- *.
  - destruct Hlog as (t & Ht). rewrite Hms in Ht. exists ms. split; [done|]. split.
    + destruct (version_verdict self req) as [e|]; [|by destruct Hv].
      destruct Hv as ([= ->] & ->). split; [done|]. split; [done|]. unfold refusal.
      by rewrite cors_status, cors_body.
    + rewrite (cors_versions _ HEADER_KEYSERVER_VERSION), (cors_versions _ HEADER_KEYSERVER_GIT_VERSION),
        cors_status by set_solver.
      cbn [rp_headers add_response_headers].
      rewrite lookup_insert_eq, lookup_insert_ne, lookup_insert_eq by done. split_and!; [done..|].
      by exists t.
  - destruct (version_verdict self req); [by destruct Hv|]. by destruct (proj1 Hv e).
  - subst w'. exists ms. destruct (version_verdict self req) as [e|]; [by destruct Hv|].
    by destruct Hv as [_ Hv].
Qed.
End http.

(** ** The start of the server *)
Section start.
  Context {I C K T : Type}.
  Abbreviation Tx := (TransactionProto I C K T).
  Context {node : FullNode Tx} {sui : SuiTypes} {sym : Symmetric} {crv : Curve}
    {bcs : BcsTypes} {profile : BuildProfile} {semver : SemVer} {mvr : MvrLib}
    {ptb_lib : PtbLib} {lib : ServerLib Tx} {http : HttpLib} {watch : WatchChannel}
    {timer : Timer Tx} {env : Environment} {encs : Encodings} {config : ConfigFile}
    {events : EventApi Tx}.

(** What the handlers and the background tasks take for granted of a server:
    the options are valid, the keys and the proofs of possession are those of
    the options, and the full node has confirmed an active committee share. *)
Record well_formed (self : Server) : Prop := {
  wf_options : validate (options self) = Ok ();
  wf_keys : ∃ version,
    (is_committee_mode self = true ↔ version ≠ None) ∧
    load (options self) version = Ok (master_keys self) ∧
    build_key_server_pop_map (E := string) (options self) (master_keys self) (default 0%N version)
      = Ok (key_server_oid_to_pop self);
  wf_share : ∀ member_address key_server_obj_id mode name share,
    ko_server_mode (options self) = CommitteeServerMode member_address key_server_obj_id mode name →
    master_keys self = MKCommittee (KeyActive share) →
    ∃ w w', fetch_and_validate_committee_partial_pk (sui_rpc_client self) key_server_obj_id
              member_address share w = (Ok (), w');
}.

Lemma expect_ok_inv {E F A : Type} (o : outcome E A) (a : A) :
  expect_ok (E := E) (F := F) o = Ok a → o = Ok a.
Proof. by destruct o; intros [= ->]. Qed.

Lemma try_or_panic_inv {E F A B : Type} (m : M E A) (f : A → M F B) (w w' : World) b :
  (r ← st_try m; match r with inl a => f a | inr _ => st_lift Panic end) w = (Ok b, w') →
  ∃ a w1, m w = (Ok a, w1) ∧ f a w1 = (Ok b, w').
Proof.
  unfold st_try, mbind, st_bind. destruct (m w) as [[a|e|] w1]; [|done..]. by exists a, w1.
Qed.

Lemma server_new_spec (o : KeyServerOptions) built (w w' : World) self :
  server_new (E := string) o true built w = (Ok self, w') →
  options self = o ∧ (validate o = Ok () → well_formed self).
Proof.
  intros Hs. unfold server_new in Hs. do 2 st_inv Hs. st_inv Hs. rename a1 into version.
  assert (bool_decide (version ≠ None) = match ko_server_mode o with
    CommitteeServerMode _ _ _ _ => true | _ => false end) as Hversion.
  { destruct (ko_server_mode o); [by apply st_ret_inv in Hstep1 as [-> _]..|].
    apply try_or_panic_inv in Hstep1 as (v & w3 & _ & [-> _]%st_ret_inv). done. }
  clear Hstep1. do 3 st_inv Hs. apply st_ret_inv in Hs as [-> _].
  apply st_lift_inv in Hstep1 as [Hload%expect_ok_inv ->], Hstep3 as [Hpop ->].
  split; [done|]. intros Hv. split; cbn; [done|..].
  - exists version. split; [|done]. unfold is_committee_mode. cbn.
    rewrite <-Hversion. by rewrite bool_decide_eq_true.
  - intros ma ks mode name share Hmode ->. rewrite Hmode in Hstep2.
    apply try_or_panic_inv in Hstep2 as ([] & w5 & Hf & _). by eexists _, _.
Qed.
(** [v] was told by the full node. *)
Definition told (fetch : M RpcError N) (v : N) : Prop := ∃ w w', fetch w = (Ok v, w').

Lemma updater_told {watch_laws : WatchLaws} {E : Type} rounds interval fetch
    (callback : option (bool → M E unit)) ch (w w' : World) ch' :
  watch_changed ch = false →
  await_value rounds (updater_round interval fetch callback) ch w = (Ok (Some ch'), w') →
  told fetch (watch_borrow ch').
Proof.
  intros Hc. revert w. induction rounds as [|rounds IH]; intros w; cbn [await_value]; rewrite Hc;
    [done|]. intros H. st_inv H. unfold updater_round, st_try, mbind at 1, st_bind at 1 in Hstep.
  destruct (fetch w) as [[v|e|] w2] eqn:Hf; [| |done]; do 2 st_inv Hstep;
    apply st_ret_inv in Hstep as [-> _].
  - assert (ch' = watch_mark_seen (watch_send v ch)) as ->.
    { destruct rounds; cbn [await_value] in H; rewrite changed_send in H; by injection H. }
    rewrite borrow_mark_seen, borrow_send. by eexists _, _.
  - by apply IH in H.
Qed.

Lemma spawned_told {watch_laws : WatchLaws} {E : Type} rounds interval fetch
    (callback : option (bool → M E unit)) (w w' : World) ch :
  spawn_periodic_updater rounds interval fetch callback w = (Ok (Some ch), w') →
  told fetch (watch_borrow ch).
Proof. apply updater_told, changed_channel. Qed.

Lemma awaited_inv {E A B : Type} (m : M E (option A)) (f : A → M E (option B)) (w w' : World) b :
  awaited m f w = (Ok (Some b), w') →
  ∃ a w1, m w = (Ok (Some a), w1) ∧ f a w1 = (Ok (Some b), w').
Proof.
  intros H. unfold awaited in H. st_inv H. destruct a as [a|]; [by exists a, w0|].
  by apply st_ret_inv in H as [? _].
Qed.

(** What runs beside the handlers, for a rotation: when the server is a
    committee member with the keys of one and the version shared by then is
    [version]. *)
Definition rotation_followed (self : Server) (version : N) :
    option VersionUpdater :=
  match ko_server_mode (options self), master_keys self with
  | CommitteeServerMode member_address key_server_obj_id _ _,
    MKCommittee (KeyRotation _ next_master_share target_version) =>
      if bool_decide (version = target_version) then None
      else Some (mkVersionUpdater member_address key_server_obj_id target_version next_master_share)
  | _, _ => None
  end.

Lemma rotation_followed_updater self version :
  rotation_followed self version = committee_version_updater self version.
Proof.
  unfold rotation_followed, committee_version_updater.
  destruct (ko_server_mode _), (master_keys self) as [| |[|share next target]]; try done.
  by destruct (N.eqb_spec version target) as [->|Hne];
    [rewrite bool_decide_eq_true_2|rewrite bool_decide_eq_false_2].
Qed.

(** C25: a server that starts is well formed. Its options are those of the
    configuration and are valid, its keys and proofs of possession are those
    of the options, an active committee share is the one that the chain knows,
    and the full node has told the reference gas price. The committee version
    is followed, for the target version and the next share, if and only if the
    server is a committee member with the keys of a rotation whose target is
    not already the version it has when the price has been told; the full node
    has then told the committee version. Upgrade proposals are followed if and
    only if the options ask a committee member for it, when the full node has
    told the current one, and metrics are pushed as the options say. *)
Theorem started_server {watch_laws : WatchLaws} (rounds : nat) (built : bool) (w w' : World)
    (self : Server) (tasks : BackgroundTasks) :
  app rounds built w = (Ok (Some (self, tasks)), w') →
  app_options = Ok (options self) ∧ well_formed self ∧
  told (get_reference_gas_price (sui_rpc_client self))
       (reference_gas_price (bt_reference_gas_price tasks)) ∧
  (∃ w1,
     (_ ← server_new (E := string) (options self) true built;
      _ ← record_metric (Inc "key_server_version" [package_version]);
      spawn_reference_gas_price_updater rounds self true) w
     = (Ok (Some (bt_reference_gas_price tasks)), w1) ∧
     match rotation_followed self (env_committee_version (w_env w1)) with
     | Some u => ∃ ch, bt_committee_version tasks = Some (u, ch) ∧
         told (fetch_committee_server_version (sui_rpc_client self) (vu_key_server_obj_id u))
              (watch_borrow ch)
     | None => bt_committee_version tasks = None
     end) ∧
  match ko_server_mode (options self), ko_enable_event_monitoring (options self) with
  | CommitteeServerMode _ key_server_obj_id _ _, true =>
      ∃ ch, bt_upgrade_proposals tasks = Some ch ∧
        told (fetch_proposal_version self key_server_obj_id) (watch_borrow ch)
  | _, _ => bt_upgrade_proposals tasks = None
  end ∧
  (bt_metrics_push tasks = true ↔ is_Some (ko_metrics_push_config (options self))).
Proof.
  intros H. unfold app in H. do 4 st_inv H.
  apply st_lift_inv in Hstep as [Ho ->], Hstep0 as [Hv ->].
  pose proof Hstep1 as Hnew. apply server_new_spec in Hstep1 as [Hopts Hwf]. destruct a0, a2.
  apply awaited_inv in H as (t & w4 & Ht & [[= <- <-] _]%st_ret_inv).
  rewrite <-Hopts in *. split; [done|]. split; [by apply Hwf|].
  apply awaited_inv in Ht as (gas & w5 & Hgas & Ht). st_inv Ht.
  apply awaited_inv in Ht as (version & w7 & Hversion & Ht).
  apply awaited_inv in Ht as (proposals & w8 & Hproposals & [[= ->] _]%st_ret_inv). cbn.
  split; [by eapply spawned_told|]. split; [|split].
  - exists w5. rewrite (st_bind_ok _ _ _ _ _ Hnew), (st_bind_ok _ _ _ _ _ Hstep2).
    split; [exact Hgas|]. injection Hstep as -> ->. rewrite rotation_followed_updater.
    destruct (committee_version_updater _ _) as [u|]; [|by apply st_ret_inv in Hversion as [[= ->] _]].
    apply awaited_inv in Hversion as (ch & w9 & Hch & [[= ->] _]%st_ret_inv). exists ch.
    split; [done|]. by eapply spawned_told.
  - destruct (ko_enable_event_monitoring (options self)).
    2: { apply st_ret_inv in Hproposals as [[= ->] _]. by destruct (ko_server_mode (options self)). }
    apply st_bind_inv in Hproposals as (m & w6 & [Hm ->]%st_lift_inv & Hproposals).
    unfold spawn_committee_rotation_event_monitor in Hm.
    destruct (ko_server_mode (options self)) as [| |ma ks mode name].
    1,2: injection Hm as <-; by apply st_ret_inv in Hproposals as [[= ->] _].
    apply bind_ok_inv in Hm as ([] & _ & [= <-]).
    apply awaited_inv in Hproposals as (ch & w9 & Hch & [[= ->] _]%st_ret_inv). exists ch.
    split; [done|]. by eapply spawned_told.
  - destruct (ko_metrics_push_config (options self)); split; try done; by intros [].
Qed.
End start.

(** ** Witnesses *)
#[local] Existing Instances Toy.symmetric Toy.curve Toy.curve_laws ToyCommon.semver
  ToyCommon.profile ToyChain.sui ToyServer.mvr ToyServer.ptb_lib.

#[local] Instance toy_http : HttpLib := {
  value_to_str b := Some (String.string_of_list_byte b);
  extract_payload _ body := match body with
                            | inl _ => inl toy_request
                            | inr _ => inr (text_reply BAD_REQUEST "too large")
                            end;
  extract_query _ := inl ∅;
  json_fetch_key _ := bytes_of "keys"; json_service _ := []; json_partial_pk pk := [pk];
  json_error r := bytes_of (er_error r);
  method_not_allowed _ := mkReply 405 ∅ []; payload_too_large := mkReply 413 ∅ [];
  mysten_service _ := mkReply 404 ∅ []; cors_preflight := mkReply 200 ∅ [];
  cors_headers r := r;
  package_version := "0.6.3"; GIT_VERSION := "abc";
}.

#[local] Instance toy_http_laws : HttpLaws.
Proof. by split. Defined.

Definition toy_http_request : HttpRequest :=
  mkHttpRequest POST "/v1/fetch_key" "" None
    (λ h, if decide (h = HEADER_CLIENT_SDK_VERSION) then Some (bytes_of "1") else None) [].

Section open.
#[local] Existing Instances ToyServer.node ToyServer.bcs ToyServer.lib.

(** A request that is answered, and one without a version that is refused. *)
Definition toy_http_unversioned : HttpRequest :=
  mkHttpRequest POST "/v1/fetch_key" "" None (λ _, None) [].

Lemma requests_accounted_witness :
  (let '(r, _) := app_call (E := string) (R := list byte) toy_server 1000 [] toy_http_request
                    toy_world in
   ∃ reply, r = Ok reply ∧ rp_body reply = bytes_of "keys" ∧
     rp_headers reply !! HEADER_KEYSERVER_VERSION = Some "0.6.3") ∧
  (app_call (E := string) (R := list byte) toy_server 1000 [] toy_http_unversioned toy_world).1
  = Ok (refusal (MissingRequiredHeader HEADER_CLIENT_SDK_VERSION)).
Proof.
  split.
  - pose proof (requests_accounted toy_server 1000 ([] : list byte) toy_http_request toy_world
      ltac:(by left)) as H.
    assert (match (app_call (E := string) (R := list byte) toy_server 1000 [] toy_http_request
               toy_world).1 with
            | Ok reply => bool_decide (rp_body reply = bytes_of "keys") | _ => false end = true)
      as Hok by (vm_compute; reflexivity).
    destruct (app_call _ _ _ _ _) as [[reply|e|] w']; [|discriminate Hok..].
    destruct H as (ms & _ & _ & Hv & _). exists reply. split; [reflexivity|].
    apply bool_decide_eq_true in Hok. split; [exact Hok|exact Hv].
  - pose proof (requests_accounted toy_server 1000 ([] : list byte) toy_http_unversioned toy_world
      ltac:(by left)) as H.
    destruct (app_call _ _ _ _ _) as [r w'].
    destruct H as (ms & _ & (_ & Hr & _) & _). exact Hr.
Defined.
End open.

(** A committee member in a rotation, configured by a file. *)
#[local] Existing Instances toy_encodings ToyMonitors.node ToyMonitors.bcs ToyMonitors.lib
  ToyMonitors.watch ToyMonitors.watch_laws ToyMonitors.timer ToyMonitors.events.

#[local] Instance toy_config : ConfigFile := {
  read_config _ := Ok (mkKeyServerOptions Testnet None
    (CommitteeServerMode [Byte.x55] [Byte.x77] (RotationMode 3) "member") "" "" "" 1000 0
    120000000000 3600000000000 default_rpc_config None true);
}.

#[local] Instance toy_http_environment : Environment := λ name,
  if decide (name = "CONFIG_PATH") then Some "config.yaml"
  else if decide (name = "MASTER_SHARE_V2") then Some (toy_key ToyMonitors.share)
  else if decide (name = "MASTER_SHARE_V3") then Some (toy_key Byte.x0c)
  else None.

Lemma started_server_witness :
  ∃ self tasks, app_options = Ok (options self) ∧ well_formed self ∧
    told (get_reference_gas_price (sui_rpc_client self))
       (reference_gas_price (bt_reference_gas_price tasks)) ∧
    ∃ u ch, bt_committee_version tasks = Some (u, ch) ∧
      told (fetch_committee_server_version (sui_rpc_client self) (vu_key_server_obj_id u))
           (watch_borrow ch).
Proof.
  destruct (app 1 true ToyMonitors.world) as [r w'] eqn:Hrun.
  assert (match r with
          | Ok (Some (self, _)) => bool_decide (is_Some (rotation_followed self 1))
          | _ => false end = true) as Hok.
  { change r with (r, w').1. rewrite <-Hrun. vm_compute. reflexivity. }
  destruct r as [[[self tasks]|]| |]; [|discriminate Hok..].
  destruct (started_server 1 true ToyMonitors.world w' self tasks Hrun)
    as (Ho & Hwf & Hg & (w1 & _ & Hc) & _).
  exists self, tasks. split; [exact Ho|split; [exact Hwf|split; [exact Hg|]]].
  change (env_committee_version (w_env w1)) with 1%N in Hc.
  apply bool_decide_eq_true in Hok as [u Hu]. rewrite Hu in Hc.
  destruct Hc as (ch & Hch & Ht). exists u, ch. split; [exact Hch|exact Ht].
Defined.
