(* ===== verification/AggregatorServer.v ===== *)
(** * The aggregator as a server ([aggregator/server.rs]: [main])

    How it starts, the monitor that refreshes the committee beside the
    requests, and that every request is served for the committee that was last
    read from the chain. *)

From Stdlib Require Import NArith Lia.
From S2P Require Import Prelude Utils Primitives Elgamal Ibe Common Chain Committee RpcClient.
From S2P Require Import ValidPtb Options MasterKeys Mvr KeyServer KeyServerTheory RequestJson.
From S2P Require Import Monitors HttpServer HttpProps Aggregator AggregatorProps.

(** The configuration file of the aggregator: an error of [serde_yaml] or of
    the file system is its message. *)
Class AggregatorFile `{SemVer, SuiTypes} : Type := {
  read_aggregator_config : string → outcome string AggregatorOptions;
}.

Section server.
  Context {I C K T : Type}.
  Abbreviation Tx := (TransactionProto I C K T).
  Context {node : FullNode Tx} {sui : SuiTypes} {sym : Symmetric} {crv : Curve}
    {bcs : BcsTypes} {profile : BuildProfile} {semver : SemVer} {ptb_lib : PtbLib}
    {order : HashOrder} {recover : RecoverC0 Scalar G1Element} {lib : AggregatorLib Tx}
    {http : HttpLib} {env : Environment} {file : AggregatorFile}.

(** What the handlers and the monitor share; the committee is behind a lock. *)
Record AppState : Type := mkAppState {
  as_sui_rpc_client : SuiRpcClient;
  as_committee : CommitteeSnapshot;
  as_options : AggregatorOptions;
}.

(** [main] up to the router: the state and the port. [sui_client_built] is
    whether the legacy client could be built. *)
Definition aggregator_main (parse_u16 : string → option N) (sui_client_built : bool) :
    M string (AppState * N) :=
  config_path ← st_lift (ok_or (env_var "CONFIG_PATH") "CONFIG_PATH environment variable not set");
  options ← st_lift (read_aggregator_config config_path);
  '(sui_rpc_client, committee) ← load_committee_state options sui_client_built;
  port ← st_lift (match env_var "PORT" with
                  | Some p => ok_or (parse_u16 p) "Invalid PORT"
                  | None => Ok DEFAULT_PORT
                  end);
  mret (mkAppState sui_rpc_client committee options, port).

(** ** The running server *)

(** A request is served with the committee that it reads from the lock; the
    monitor replaces it after a round; between, the world goes on. *)
Inductive aggregator_step : AppState * World → AppState * World → Prop :=
  | serve_step st schedule req r w w' :
      (∀ l, schedule l ≡ₚ l) →
      aggregator_call (E := string) (as_sui_rpc_client st) (as_options st) (as_committee st)
        schedule req w = (r, w') →
      aggregator_step (st, w) (st, w')
  | refresh_step st committee w w' :
      refresh_committee (E := string) (as_sui_rpc_client st) (as_options st) (as_committee st) w
        = (Ok committee, w') →
      aggregator_step (st, w)
        (mkAppState (as_sui_rpc_client st) committee (as_options st), w')
  | world_step st w w' : aggregator_step (st, w) (st, w').

(** The chain has described the committee of the key server [id] as [c]. *)
Definition described (client : SuiRpcClient) (id : Address) (c : CommitteeSnapshot) : Prop :=
  ∃ w ks w', fetch_key_server_by_id client id w = (Ok ks, w') ∧
    extract_committee_info ks = Ok (cs_threshold c, cs_members c).

Definition up_to_date (st : AppState) : Prop :=
  described (as_sui_rpc_client st) (ao_key_server_object_id (as_options st)) (as_committee st).

Lemma rpc_new_err_inv {A : Type} (o : outcome string A) w a w' :
  rpc_new_err o w = (Ok a, w') → o = Ok a ∧ w' = w.
Proof. unfold rpc_new_err, st_lift. by destruct o; intros [= <- <-]. Qed.

Lemma main_up_to_date parse_u16 built w st port w' :
  aggregator_main parse_u16 built w = (Ok (st, port), w') → up_to_date st.
Proof.
  intros H. unfold aggregator_main in H. do 3 st_inv H. destruct a1 as [client committee].
  st_inv H. apply st_ret_inv in H as [[= -> ->] _]. unfold up_to_date. cbn.
  unfold load_committee_state in Hstep1. do 3 st_inv Hstep1.
  destruct a4 as [t members]. apply st_ret_inv in Hstep1 as [[= -> ->] _].
  apply st_map_err_inv in Hstep5. unfold RpcClient.fetch_committee_info in Hstep5.
  st_inv Hstep5. apply rpc_new_err_inv in Hstep5 as [Hi ->]. repeat eexists; eauto.
Qed.

Lemma step_up_to_date s s' : aggregator_step s s' → up_to_date s.1 → up_to_date s'.1.
Proof.
  intros [st schedule req r w w' _ _|st committee w w' Hr|st w w']; [done| |done].
  unfold up_to_date. cbn. unfold refresh_committee in Hr. st_inv Hr. unfold st_try in Hstep.
  match type of Hstep with match ?run with _ => _ end = _ =>
    destruct run as [[[t members]|e|] w1] eqn:Hf end; [| |done]; injection Hstep as <- <-.
  - apply st_ret_inv in Hr as [-> _]. intros _. st_inv Hf.
    apply rpc_new_err_inv in Hf as [Hi _]. repeat eexists; eauto.
  - by apply st_ret_inv in Hr as [-> _].
Qed.

Lemma steps_keep s s' : rtc aggregator_step s s' →
  as_sui_rpc_client s'.1 = as_sui_rpc_client s.1 ∧ as_options s'.1 = as_options s.1 ∧
  (up_to_date s.1 → up_to_date s'.1).
Proof.
  induction 1 as [s|s1 s2 s3 Hs _ (H1 & H2 & H3)]; [done|]. rewrite H1, H2.
  split_and!; [by destruct Hs..|]. intros Hu. by eapply H3, step_up_to_date.
Qed.

(** ** Correct service *)

(** A committee whose members hold threshold shares of [msk]. A rotation or a
    refresh of the shares gives other members other shares of the same key. *)
Definition committee_of (msk : Scalar) (c : CommitteeSnapshot) : Prop :=
  let parties := pks_party_id <$> cs_members c in
  NoDup parties ∧ Forall (λ p, p < U16_MAX)%N parties ∧ (0 < cs_threshold c ≤ U16_MAX)%N ∧
  ∃ share, Forall (λ m, pks_partial_pk m = public_key_from_master_key (share (pks_party_id m)))
             (cs_members c) ∧
    shares_of (cs_threshold c) parties share msk.

(** C9: an aggregator serves its committee through rotations. Suppose that
    whenever the chain describes the key server's committee, its members hold
    threshold shares of one master key, though rotations may change the
    members, the threshold and the shares. Then from the start of the server
    on, after any sequence of requests and of rounds of the monitor, of which
    any may fail, an answered request holds exactly one key per id that the
    transaction asks for, and the requester's secret key decrypts each to the
    master key's key for its id, whatever the members had answered. *)
Theorem aggregator_serves {sym_laws : SymmetricLaws} {crv_laws : CurveLaws}
    {order_laws : HashOrderLaws} {recover_laws : RecoverLaws Scalar G1Element}
    (parse_u16 : string → option N) (built : bool) (msk : Scalar) (w0 w1 w w' : World)
    (st0 st : AppState) (port : N) (schedule : list PartialKeyServer → list PartialKeyServer)
    (sdk_type version : option (list byte)) (req_id : string) (request : FetchKeyRequest)
    (sk : SecretKey Scalar) (resp : FetchKeyResponse) :
  aggregator_main parse_u16 built w0 = (Ok (st0, port), w1) →
  (∀ c, described (as_sui_rpc_client st0) (ao_key_server_object_id (as_options st0)) c →
    committee_of msk c) →
  rtc aggregator_step (st0, w1) (st, w) →
  (∀ l, schedule l ≡ₚ l) →
  req_enc_verification_key request = mkVerificationKey (g_mul g_generator (sk_scalar sk)) →
  aggregator_handle_fetch_key (as_sui_rpc_client st) (as_options st) (as_committee st) schedule
    sdk_type version req_id request w = (Ok resp, w') →
  ∃ expected w2 w3, rtc idle_step w w2 ∧
    get_expected_full_ids (as_sui_rpc_client st) (req_ptb request) w2 = (Ok expected, w3) ∧
    keys_for sk msk expected resp.
Proof.
  intros Hmain Hchain Hrun Hsched Hvk Hresp. apply main_up_to_date in Hmain.
  destruct (steps_keep _ _ Hrun) as (Hclient & Hoptions & Hup). cbn in Hclient, Hoptions, Hup.
  apply Hup in Hmain. unfold up_to_date in Hmain. rewrite Hclient, Hoptions in Hmain.
  destruct (Hchain _ Hmain) as (Hnd & Hp & Ht & share & Hpk & Hsh).
  exact (aggregator_answer _ _ _ _ _ _ _ _ _ _ _ _ _ _ Hsched Hnd Hp Ht Hpk Hsh Hvk Hresp).
Qed.

Lemma shares_of_subset (t : N) (parties parties' : list N) (share : N → Scalar) (msk : Scalar) :
  parties' ⊆ parties → shares_of t parties share msk → shares_of t parties' share msk.
Proof. intros Hsub Hsh ps id Hnd Hps. apply Hsh; [done|set_solver]. Qed.

(** What a retried call returned, one of its attempts returned. *)
Lemma run_grpc_ok {E A : Type} `{RetriableError E} client method (op : M E A) w a w' :
  run_grpc_with_retries client method op w = (Ok a, w') → ∃ w1 w2, op w1 = (Ok a, w2).
Proof.
  unfold run_grpc_with_retries, sui_rpc_with_retries.
  match goal with |- context [retry_loop ?f ?s ?i ?o ?m ?l ?d] =>
    generalize s i o m l d end.
  intros sleep instant observe max_delay left delay. revert delay w.
  induction left as [|left IH]; intros delay w; simpl; destruct (instant w) as [t w1];
    destruct (op w1) as [[b|e|] w2] eqn:Ho; try done; [by intros [= -> _]; eauto..|].
  destruct left as [|left']; [done|]. destruct (is_retriable_error e); [|done].
  destruct (duration_double _); [apply IH|done..].
Qed.
End server.

(** ** Witness: the chain describes a committee of four until the first sleep,
    and two of them afterwards *)
#[local] Existing Instances Toy.symmetric Toy.symmetric_laws Toy.curve Toy.curve_laws
  ToyCommon.semver ToyCommon.profile ToyChain.sui ToyServer.ptb_lib AggregatorProps.toy_recover
  AggregatorProps.toy_recover_laws AggregatorProps.toy_order AggregatorProps.toy_order_laws
  HttpProps.toy_http.

Abbreviation ToyTx := (TransactionProto unit unit unit unit).

#[local] Instance toy_node : FullNode ToyTx := {
  Env := nat; GrpcClient := unit;
  grpc_client_new _ := Ok ();
  metadata_value_error _ := None; metadata_key_error _ := None;
  with_header c _ _ := c;
  get_object_rpc _ name mask e :=
    (inl (mkGetObjectResponse (Some (mkObjectProto
       (Some (Some (u8_of (N.of_nat (e `min` 1)) :: bytes_of name))) None None))), e);
  simulate_rpc _ _ _ e := (inl (mkSimulateResponse None 7), e);
  get_epoch_rgp_rpc _ e := (inl 1000%N, e);
  build_mainnet_rpc e := (true, e);
  bcs_object b := match b with
                  | _ :: Byte.x6b :: _ => Ok (DataMove b)
                  | _ => Ok (DataPackage (drop 1 b))
                  end;
  env_sleep _ e := S e; env_now e := (1000%N, e); env_instant e := (0%N, e);
  env_package_cached _ _ := true; env_mvr_cached _ _ := true;
  env_committee_version _ := 0%N;
}.

Definition toy_members (epoch : byte) : list PartialKeyServer :=
  if bool_decide (epoch = Byte.x00) then cs_members toy_committee
  else [toy_member 3 "d"; toy_member 0 "a"].

#[local] Instance toy_bcs : BcsTypes := {
  decode_field_key_server b := Ok (mkField [] 2%N (mkKeyServerV2 "ks" Byte.x00 []
    (CommitteeServer 2 2 (toy_members (hd Byte.x00 b)))));
  decode_committee _ := Err "none"; decode_field_wrapper _ := Err "none";
  decode_upgrade_manager_wrapper _ := Err "none"; decode_upgrade_manager _ := Err "none";
  encode_wrapper a := Ok a; encode_upgrade_manager_key _ := Ok [];
}.

#[local] Instance toy_agg_lib : AggregatorLib ToyTx := {
  http_post url headers body timeout e :=
    ((http_post (AggregatorLib := AggregatorProps.toy_lib) url headers body timeout ()).1, e);
  agg_json := ToyJson.json;
  header_to_str b := Some (String.string_of_list_byte b);
  agg_package_version := "0.6.2"; version_display _ := ""; requirement_display _ := "";
  crypto_error_display _ := ""; agg_hex_encode _ := ""; agg_ids_debug _ := "";
  agg_errors_debug _ := "";
}.

#[local] Instance toy_environment : Environment := λ name,
  if decide (name = "CONFIG_PATH") then Some "aggregator.yaml" else None.

Definition toy_server_options : AggregatorOptions := {|
  ao_network := Testnet; ao_node_url := None; ao_key_server_object_id := [Byte.x6b];
  ao_ts_sdk_version_requirement := ""; ao_rust_sdk_version_requirement := "";
  ao_key_server_version_requirement := ""; ao_key_server_timeout_secs := 8;
  ao_api_credentials := ao_api_credentials toy_options; ao_rpc_config := default_rpc_config;
  ao_metrics_push_config := None |}.

#[local] Instance toy_file : AggregatorFile :=
  { read_aggregator_config _ := Ok toy_server_options }.

Definition toy_state (members : list PartialKeyServer) : AppState :=
  mkAppState (mkSuiRpcClient true () default_retry_config true)
    (mkCommitteeSnapshot 2 members) toy_server_options.

Definition toy_world (epoch : nat) (ms : list Metric) : World := mkWorld (epoch : Env) ms ∅ ∅.

Lemma toy_committee_of epoch :
  committee_of toy_msk (mkCommitteeSnapshot 2 (toy_members epoch)).
Proof.
  unfold committee_of, toy_members. cbn [cs_members cs_threshold].
  case_bool_decide; (split; [by apply (bool_decide_unpack (NoDup _))|]);
    (split; [by apply (bool_decide_unpack (Forall _ _))|]); (split; [done|]);
    exists toy_share; (split; [by repeat constructor|]).
  - exact toy_shares_of.
  - eapply shares_of_subset, toy_shares_of. by apply (bool_decide_unpack (_ ⊆ _)).
Qed.

(** Whatever the world, the chain tells of one of the two committees. *)
Lemma toy_described client c :
  described client [Byte.x6b] c → committee_of toy_msk c.
Proof.
  intros (w & ks & w' & Hf & He). apply run_grpc_ok in Hf as (w1 & w2 & Hf).
  destruct w1 as [e ms packages names], c as [t members]. cbn [cs_threshold cs_members] in *.
  assert (ks = mkKeyServerV2 "ks" Byte.x00 []
    (CommitteeServer 2 2 (toy_members (u8_of (N.of_nat (e `min` 1)))))) as -> by by injection Hf.
  injection He as <- <-. apply toy_committee_of.
Qed.

(** The server starts, the world sleeps, and the monitor reads the committee
    of two; the request is then served by both of its members. *)
Lemma aggregator_serves_witness :
  ∃ resp w',
    aggregator_handle_fetch_key (as_sui_rpc_client (toy_state (toy_members Byte.x01)))
      toy_server_options (mkCommitteeSnapshot 2 (toy_members Byte.x01)) (λ l, l)
      (Some (bytes_of "typescript")) (Some (bytes_of "1")) "r" AggregatorProps.toy_request
      (toy_world 1 [Observe "sui_rpc_request_duration_millis" ["fetch_key_server_by_id"; "success"] 0])
      = (Ok resp, w') ∧
    Forall (λ dk, decrypt toy_secret (dk_encrypted_key dk) = extract toy_msk (dk_id dk))
      (decryption_keys resp).
Proof.
  set (m := Observe "sui_rpc_request_duration_millis" ["fetch_key_server_by_id"; "success"] 0).
  assert (aggregator_main (λ _, None) true (toy_world 0 []) =
    (Ok (toy_state (toy_members Byte.x00), 2024%N), toy_world 0 [m])) as Hmain by reflexivity.
  assert (refresh_committee (E := string) (as_sui_rpc_client (toy_state (toy_members Byte.x00)))
    toy_server_options (mkCommitteeSnapshot 2 (toy_members Byte.x00)) (toy_world 1 []) =
    (Ok (mkCommitteeSnapshot 2 (toy_members Byte.x01)), toy_world 1 [m])) as Hrefresh
    by reflexivity.
  set (run := aggregator_handle_fetch_key _ _ _ _ _ _ _ _ _).
  assert (is_ok run.1 = true) as Hok by (vm_cast_no_check (eq_refl true)).
  destruct run as [[resp| |] w'] eqn:Hrun; [|discriminate Hok..].
  exists resp, w'. split; [reflexivity|].
  destruct (aggregator_serves (λ _, None) true toy_msk (toy_world 0 []) (toy_world 0 [m])
    (toy_world 1 [m]) w' (toy_state (toy_members Byte.x00)) (toy_state (toy_members Byte.x01)) 2024
    (λ l, l) (Some (bytes_of "typescript")) (Some (bytes_of "1")) "r" AggregatorProps.toy_request
    toy_secret resp Hmain) as (expected & w2 & w3 & _ & _ & _ & HF).
  - intros c Hc. exact (toy_described _ _ Hc).
  - eapply rtc_l; [apply (world_step _ _ (toy_world 1 []))|].
    eapply rtc_once, (refresh_step (toy_state (toy_members Byte.x00)) _ _ _ Hrefresh).
  - reflexivity.
  - reflexivity.
  - exact Hrun.
  - exact HF.
Defined.
