(* ===== verification/MetricsProps.v ===== *)
(** * What is recorded has been registered

    The metrics of [metrics.rs] register, once, in a registry that has none of
    them; and no recording of the handlers, of the background tasks and of the
    start panics: its metric is of the struct, of the right kind, and gets a
    value per label. *)

From Stdlib Require Import NArith Lia.
From stdpp Require Import pretty.
From S2P Require Import Prelude Utils Primitives Elgamal Ibe Common Chain Committee RpcClient.
From S2P Require Import Metrics Keeps Options ValidPtb MasterKeys Mvr KeyServer KeyServerTheory.
From S2P Require Import Accounting KeyServerProps Aggregator AggregatorProps Monitors HttpServer HttpProps.

(** ** The structs of metrics *)
Section registered.
  Context {prom : Prometheus} {laws : PrometheusLaws prom}.

(** None of the metrics' names is taken. *)
Definition unregistered (fields : list (string * MetricSpec)) (registry : Registry) : Prop :=
  Forall (λ n, n ∉ registered registry) (names fields).

Lemma fields_valid fields :
  forallb (λ f : string * MetricSpec, valid_spec f.2) fields = true → Forall (λ f : string * MetricSpec, valid_spec f.2 = true) fields.
Proof.
  rewrite forallb_forall. intros H. apply Forall_forall. intros f Hf. by apply H, list_elem_of_In.
Qed.

(** A struct of metrics is made once. *)
Lemma metrics_once fields handles registry :
  forallb (λ f : string * MetricSpec, valid_spec f.2) fields && bool_decide (NoDup (names fields)) = true →
  handles_of fields = handles → fields ≠ [] → unregistered fields registry →
  ∃ registry', register_fields fields registry = Ok (handles, registry') ∧
    register_fields fields registry' = Panic.
Proof.
  intros [Hv Hd%bool_decide_eq_true]%andb_true_iff <- Hne Hf. apply fields_valid in Hv.
  destruct (register_fields_fresh _ _ Hv Hd Hf) as (registry' & Hr & Hn).
  exists registry'. split; [done|]. apply register_fields_again; [done|].
  destruct fields as [|f fields]; [done|]. apply Exists_cons. left. rewrite Hn.
  apply elem_of_app. left. apply elem_of_reverse. by left.
Qed.

Lemma key_server_metrics_once registry :
  unregistered key_server_metrics registry →
  ∃ registry', key_server_metrics_new registry = Ok (key_server_handles, registry') ∧
    key_server_metrics_new registry' = Panic.
Proof. by apply metrics_once; [vm_compute|..]. Qed.

Lemma aggregator_metrics_once registry :
  unregistered aggregator_metrics registry →
  ∃ registry', aggregator_metrics_new registry = Ok (aggregator_handles, registry') ∧
    aggregator_metrics_new registry' = Panic.
Proof. by apply metrics_once; [vm_compute|..]. Qed.
End registered.

(** A recording that [AggregatorMetrics] accepts. *)
Abbreviation aggregated := (λ m, accepts aggregator_handles m = true).

#[local] Instance recorded_rpc : RpcObserved recorded.
Proof. done. Qed.

#[local] Instance aggregated_rpc : RpcObserved aggregated.
Proof. done. Qed.

(** Every metric that a run of [m] records has a handle that accepts it, so
    that [with_label_values] does not panic. *)
Definition accepted {I C K T : Type} {node : FullNode (TransactionProto I C K T)}
    (handles : Handles) {E A : Type} (m : M E A) : Prop :=
  ∀ w, ∃ ms, w_metrics (m w).2 = ms ++ w_metrics w ∧
    Forall (λ x, accepts handles x = true) ms.

(** ** Reads of the committee *)
Section committee.
  Context {I C K T : Type}.
  Abbreviation Tx := (TransactionProto I C K T).
  Context {node : FullNode Tx} {sui : SuiTypes} {sym : Symmetric} {crv : Curve}
    {bcs : BcsTypes}.
  Context (P : Metric → Prop) {HP : RpcObserved P}.

Lemma logs_rpc {A : Type} (f : Env → (A + Status) * Env) : keeps (logs_of P) (grpc f).
Proof. unfold grpc. keeps. Qed.
#[local] Hint Resolve logs_rpc : keeps.

Lemma logs_fetch_object {A : Type} client (decode : list byte → outcome string A) id :
  keeps (logs_of P) (fetch_object client decode id).
Proof. unfold fetch_object, rpc_new_err. keeps. Qed.
#[local] Hint Resolve logs_fetch_object : keeps.

Lemma logs_fetch_key_server client id : keeps (logs_of P) (fetch_key_server_by_id client id).
Proof.
  apply logs_run_grpc; [apply _|].
  unfold grpc_fetch_key_server_by_id, rpc_new_err, ok_or_rpc. keeps.
Qed.

Lemma logs_fetch_committee client id :
  keeps (logs_of P) (fetch_committee_from_key_server client id).
Proof.
  apply logs_run_grpc; [apply _|].
  unfold grpc_fetch_committee_from_key_server, rpc_new_err, ok_or_rpc. keeps.
Qed.

Lemma logs_fetch_upgrade_proposal client id :
  keeps (logs_of P) (fetch_upgrade_proposal client id).
Proof.
  apply logs_run_grpc; [apply _|].
  unfold grpc_fetch_upgrade_proposal, fetch_upgrade_manager, rpc_new_err, ok_or_rpc. keeps.
Qed.
#[local] Hint Resolve logs_fetch_key_server logs_fetch_committee : keeps.

Lemma logs_fetch_version client id :
  keeps (logs_of P) (fetch_committee_server_version client id).
Proof. unfold fetch_committee_server_version. keeps. Qed.

Lemma logs_fetch_info client id : keeps (logs_of P) (RpcClient.fetch_committee_info client id).
Proof. unfold RpcClient.fetch_committee_info, rpc_new_err. keeps. Qed.

Lemma logs_validate_partial_pk client id member share :
  keeps (logs_of P) (fetch_and_validate_committee_partial_pk client id member share).
Proof.
  unfold fetch_and_validate_committee_partial_pk, fetch_partial_key_server_for_member,
    rpc_new_err, ok_or_rpc. keeps. apply logs_run_grpc; keeps.
Qed.
End committee.

(** ** The key server *)
Section key_server.
  Context {I C K T : Type}.
  Abbreviation Tx := (TransactionProto I C K T).
  Context {node : FullNode Tx} {sui : SuiTypes} {sym : Symmetric} {crv : Curve}
    {bcs : BcsTypes} {profile : BuildProfile} {semver : SemVer} {mvr : MvrLib}
    {ptb_lib : PtbLib} {lib : ServerLib Tx} {http : HttpLib} {watch : WatchChannel}
    {timer : Timer Tx} {env : Environment} {encs : Encodings} {config : ConfigFile}
    {events : EventApi Tx}.

Lemma recorded_app_call {R : Type} `{AllowedRng R} {E : Type} self gas_price (rng : R) req :
  keeps (logs_of recorded) (app_call (E := E) self gas_price rng req).
Proof.
  assert (∀ handler : M InternalError Reply,
    route self gas_price rng req = Some handler → keeps (logs_of recorded) handler) as Hr.
  { intros handler Hh. by eapply keeps_weaken, route_quiet; [intros x [_ Hx]|]. }
  unfold app_call. case_decide; [keeps|]. destruct (content_length_exceeds _ _); [keeps|].
  destruct (route _ _ _ _) as [handler|]; [|keeps]. specialize (Hr handler eq_refl).
  unfold layered, metrics_middleware, into_reply, handle_request_headers, tap_err, observe_error.
  keeps.
Qed.

Lemma recorded_updater {E : Type} interval (fetch : M RpcError N)
    (callback : option (bool → M E unit)) ch :
  keeps (logs_of recorded) fetch →
  (∀ scb b, callback = Some scb → keeps (logs_of recorded) (scb b)) →
  keeps (logs_of recorded) (updater_round interval fetch callback ch).
Proof.
  intros Hf Hc. unfold updater_round, env_effect. keeps. by apply Hc.
Qed.

Lemma recorded_await {E : Type} rounds (round : Chan → M E Chan) ch :
  (∀ ch, keeps (logs_of recorded) (round ch)) →
  keeps (logs_of recorded) (await_value rounds round ch).
Proof.
  intros Hr. revert ch. induction rounds as [|rounds IH]; intros ch; simpl; keeps.
Qed.

Lemma recorded_gas_price {E : Type} self metrics ch :
  keeps (logs_of recorded) (reference_gas_price_round (E := E) self metrics ch).
Proof.
  apply recorded_updater.
  - unfold get_reference_gas_price, client_get_reference_gas_price.
    apply logs_run_grpc; [apply _|]. apply (logs_rpc recorded).
  - destruct metrics; [|done]. intros ? b [= <-]. unfold status_callback. keeps.
Qed.

Lemma recorded_committee_version {E : Type} self u ch :
  keeps (logs_of recorded) (committee_version_round (E := E) self u ch).
Proof. apply recorded_updater; [apply (logs_fetch_version _)|done]. Qed.

Lemma recorded_version_received {E : Type} self u ch :
  keeps (logs_of recorded) (committee_version_received (E := E) self u ch).
Proof. unfold committee_version_received. keeps. apply (logs_validate_partial_pk _). Qed.

Lemma recorded_proposal_round {E : Type} self id ch :
  keeps (logs_of recorded) (proposal_round (E := E) self id ch).
Proof.
  apply recorded_updater; [|done]. unfold fetch_proposal_version.
  keeps; [apply (logs_fetch_committee _)|apply (logs_fetch_upgrade_proposal _)].
Qed.

Lemma recorded_proposal_received {E : Type} proposal ch :
  keeps (logs_of recorded) (proposal_received (E := E) proposal ch).
Proof. unfold proposal_received. keeps. Qed.

Lemma recorded_events {E : Type} page prev :
  keeps (logs_of recorded) (handle_events (E := E) page prev).
Proof. revert prev. induction page as [|[id b] page IH]; intros prev; simpl; keeps. Qed.

Lemma recorded_event_round {E : Type} self id st :
  keeps (logs_of recorded) (rotation_event_round (E := E) self id st).
Proof.
  unfold rotation_event_round, env_effect. keeps; [apply (logs_fetch_committee _)|apply recorded_events].
Qed.

Lemma recorded_app rounds built : keeps (logs_of recorded) (app rounds built).
Proof.
  unfold app, server_new, start_server_background_tasks, spawn_reference_gas_price_updater,
    spawn_periodic_updater, awaited. keeps.
  - apply (logs_fetch_version _).
  - apply (logs_validate_partial_pk _).
  - apply recorded_await. intros ch. by apply (recorded_gas_price _ true).
  - apply recorded_await. intros ch'. apply recorded_updater; [apply (logs_fetch_version _)|done].
  - apply recorded_await. apply recorded_proposal_round.
Qed.

(** C40: the metrics of the key server. [KeyServerMetrics::new] succeeds on a
    registry in which none of its names is taken, and panics when it is run
    again. Nothing the server then records panics: whatever the request, the
    state of the world and the answers of the full node, each metric that the
    router with its handlers, a round of a background task, its monitor or
    the start of the server records is a field of the struct, of the right
    kind, and gets as many label values as it was registered with labels. *)
Theorem key_server_metrics_accepted {prom : Prometheus} {laws : PrometheusLaws prom}
    {R : Type} `{AllowedRng R} (registry : Registry) :
  unregistered key_server_metrics registry →
  ∃ handles registry', key_server_metrics_new registry = Ok (handles, registry') ∧
    key_server_metrics_new registry' = Panic ∧
    (∀ rounds built, accepted handles (app rounds built)) ∧
    (∀ E self gas_price (rng : R) req, accepted handles (app_call (E := E) self gas_price rng req)) ∧
    ∀ E self,
      (∀ metrics ch, accepted handles (reference_gas_price_round (E := E) self metrics ch)) ∧
      (∀ u ch, accepted handles (committee_version_round (E := E) self u ch)) ∧
      (∀ u ch, accepted handles (committee_version_received (E := E) self u ch)) ∧
      (∀ id ch, accepted handles (proposal_round (E := E) self id ch)) ∧
      (∀ proposal ch, accepted handles (proposal_received (E := E) proposal ch)) ∧
      (∀ id st, accepted handles (rotation_event_round (E := E) self id st)).
Proof.
  intros Hf. destruct (key_server_metrics_once registry Hf) as (registry' & Hn & Ha).
  exists key_server_handles, registry'. split; [done|]. split; [done|].
  split; [exact recorded_app|]. split; [intros; apply recorded_app_call|].
  intros E self. split_and!; intros ? ?.
  - apply recorded_gas_price.
  - apply recorded_committee_version.
  - apply recorded_version_received.
  - apply recorded_proposal_round.
  - apply recorded_proposal_received.
  - apply recorded_event_round.
Qed.
End key_server.

(** ** The aggregator *)
Section aggregator.
  Context {I C K T : Type}.
  Abbreviation Tx := (TransactionProto I C K T).
  Context {node : FullNode Tx} {sui : SuiTypes} {sym : Symmetric} {crv : Curve}
    {bcs : BcsTypes} {profile : BuildProfile} {semver : SemVer} {ptb_lib : PtbLib}
    {order : HashOrder} {recover : RecoverC0 Scalar G1Element} {lib : AggregatorLib Tx}
    {http : HttpLib}.

Lemma aggregated_collect {A B R : Type} (task : A → M ErrorResponse R) threshold size completed
    pending responses errors :
  (∀ a, keeps (logs_of aggregated) (task a)) →
  keeps (logs_of aggregated) (collect_responses (B := B) task threshold size completed pending
    responses errors).
Proof.
  intros Ht. revert completed responses errors.
  induction pending as [|a pending IH]; intros completed responses errors; simpl; keeps.
Qed.

Lemma aggregated_task options request req_id expected member :
  keeps (logs_of aggregated) (member_task options request req_id expected member).
Proof. unfold member_task, internal, fetch_from_member, internal. keeps. Qed.

Lemma aggregated_fetch_key client options committee schedule sdk_type version req_id request :
  keeps (logs_of aggregated) (aggregator_handle_fetch_key client options committee schedule
    sdk_type version req_id request).
Proof.
  unfold aggregator_handle_fetch_key, get_expected_full_ids, internal, tap_err, observe_error.
  keeps; [apply (logs_fetch_first _)|apply aggregated_collect, aggregated_task].
Qed.

Lemma aggregated_route {E : Type} client options committee schedule req handler :
  aggregator_route (E := E) client options committee schedule req = Some handler →
  keeps (logs_of aggregated) handler.
Proof.
  unfold aggregator_route. case_decide; [|case_decide; [|done]]; intros [= <-]; [|keeps].
  unfold aggregator_fetch_key_route. keeps. apply aggregated_fetch_key.
Qed.

Lemma aggregated_call {E : Type} client options committee schedule req :
  keeps (logs_of aggregated) (aggregator_call (E := E) client options committee schedule req).
Proof.
  pose proof (aggregated_route (E := E) client options committee schedule req) as Hr.
  unfold aggregator_call, aggregator_metrics_middleware.
  destruct (aggregator_route _ _ _ _ _) as [handler|]; [specialize (Hr _ eq_refl)|]; keeps.
Qed.

Lemma aggregated_load options built :
  keeps (logs_of aggregated) (load_committee_state options built).
Proof. unfold load_committee_state. keeps. apply (logs_fetch_info _). Qed.

Lemma aggregated_refresh {E : Type} client options current :
  keeps (logs_of aggregated) (refresh_committee (E := E) client options current).
Proof. unfold refresh_committee, rpc_new_err. keeps. apply (logs_fetch_key_server _). Qed.

(** The metrics of the aggregator. [AggregatorMetrics::new] succeeds on a
    registry in which none of its names is taken, and nothing that the
    aggregator then records panics: neither a request, whatever the members
    answer and in whatever order, nor the loading and the refreshing of the
    committee. *)
Theorem aggregator_metrics_accepted {prom : Prometheus} {laws : PrometheusLaws prom}
    (registry : Registry) :
  unregistered aggregator_metrics registry →
  ∃ handles registry', aggregator_metrics_new registry = Ok (handles, registry') ∧
    aggregator_metrics_new registry' = Panic ∧
    (∀ options built, accepted handles (load_committee_state options built)) ∧
    (∀ E client options committee schedule req,
      accepted handles (aggregator_call (E := E) client options committee schedule req)) ∧
    (∀ E client options current,
      accepted handles (refresh_committee (E := E) client options current)).
Proof.
  intros Hf. destruct (aggregator_metrics_once registry Hf) as (registry' & Hn & Ha).
  exists aggregator_handles, registry'. split; [done|]. split; [done|].
  split; [exact aggregated_load|].
  split; intros; [apply aggregated_call|apply aggregated_refresh].
Qed.
End aggregator.

(** ** Witnesses: a registry is the list of its names *)
#[local] Instance toy_prometheus : Prometheus := {
  Registry := list string; PrometheusError := string;
  registered registry := registry;
  register registry spec :=
    if decide (ms_name spec ∈ registry) then Err "duplicate"
    else if valid_spec spec then Ok (ms_name spec :: registry) else Err "invalid";
}.

#[local] Instance toy_prometheus_laws : PrometheusLaws toy_prometheus.
Proof.
  split; intros registry spec; cbn.
  - intros -> Hf. rewrite decide_False by done. by eexists.
  - intros Hin. rewrite decide_True by done. by eexists.
Defined.

#[local] Existing Instances Toy.symmetric Toy.curve ToyCommon.semver ToyCommon.profile
  ToyChain.sui ToyServer.mvr ToyServer.ptb_lib HttpProps.toy_http.

Section aggregated.
#[local] Existing Instances ToyServer.node ToyServer.bcs AggregatorProps.toy_order
  AggregatorProps.toy_recover AggregatorProps.toy_lib.

Lemma aggregator_metrics_accepted_witness :
  ∃ handles registry', aggregator_metrics_new ["uptime"] = Ok (handles, registry') ∧
    ∃ ms, w_metrics (aggregator_call (E := string) AggregatorProps.toy_client
        AggregatorProps.toy_options AggregatorProps.toy_committee (λ l, l)
        HttpProps.toy_http_request KeyServerProps.toy_world).2 = ms ++ [] ∧
      Forall (λ x, accepts handles x = true) ms.
Proof.
  assert (unregistered (prom := toy_prometheus) aggregator_metrics ["uptime"]) as Hf
    by (by apply (bool_decide_unpack (Forall _ _))).
  destruct (aggregator_metrics_accepted (prom := toy_prometheus) ["uptime"] Hf)
    as (handles & registry' & Hn & _ & _ & Hcall & _).
  exists handles, registry'. split; [exact Hn|].
  exact (Hcall string AggregatorProps.toy_client AggregatorProps.toy_options
    AggregatorProps.toy_committee (λ l, l) HttpProps.toy_http_request KeyServerProps.toy_world).
Defined.
End aggregated.

#[local] Existing Instances ToyMonitors.node ToyMonitors.bcs ToyMonitors.lib ToyMonitors.watch
  ToyMonitors.timer ToyMonitors.events MasterKeys.toy_encodings HttpProps.toy_config
  HttpProps.toy_http_environment.

Lemma key_server_metrics_accepted_witness :
  ∃ handles registry', key_server_metrics_new ["uptime"] = Ok (handles, registry') ∧
    ∃ ms, w_metrics (app_call (E := string) (R := list byte) ToyMonitors.server 1000 []
        HttpProps.toy_http_request ToyMonitors.world).2 = ms ++ [] ∧
      Forall (λ x, accepts handles x = true) ms.
Proof.
  assert (unregistered (prom := toy_prometheus) key_server_metrics ["uptime"]) as Hf
    by (by apply (bool_decide_unpack (Forall _ _))).
  destruct (key_server_metrics_accepted (prom := toy_prometheus) (R := list byte) ["uptime"] Hf)
    as (handles & registry' & Hn & _ & _ & Hcall & _).
  exists handles, registry'. split; [exact Hn|].
  exact (Hcall string ToyMonitors.server 1000%N [] HttpProps.toy_http_request ToyMonitors.world).
Defined.
