(* ===== verification/MonitorProps.v ===== *)
(** * Properties of the background tasks

    The price that is served, and the task that follows the committee version
    as an implementation of the step relation of [MasterKeys]. *)

From Stdlib Require Import NArith Lia.
From S2P Require Import Prelude Primitives Ibe Common Chain Committee RpcClient Keeps Options.
From S2P Require Import ValidPtb MasterKeys Mvr KeyServer KeyServerTheory Monitors.

Section updater.
  Context {I C K T : Type}.
  Abbreviation Tx := (TransactionProto I C K T).
  Context {node : FullNode Tx} {sui : SuiTypes} {sym : Symmetric} {crv : Curve}
    {bcs : BcsTypes} {profile : BuildProfile} {semver : SemVer} {mvr : MvrLib}
    {ptb_lib : PtbLib} {lib : ServerLib Tx} {watch : WatchChannel} {watch_laws : WatchLaws}
    {timer : Timer Tx}.

(** The successful results of an updater, in order. *)
Definition fetched (results : list (N + RpcError)) : list N :=
  omap (λ r, match r with inl v => Some v | inr _ => None end) results.

Lemma fetched_app l r : fetched (l ++ r) = fetched l ++ fetched r.
Proof. apply omap_app. Qed.

Definition status_of_result (r : N + RpcError) : Metric :=
  Inc "get_reference_gas_price_status"
    [match r with inl _ => "success" | inr _ => "failure" end].

(** ** The periodic updater *)
Section rounds.
  Context (interval : Duration) (fetch : M RpcError N)
    (callback : option (bool → M InternalError unit)).

(** Rounds of the updater between steps of other tasks, with the results of
    its fetches. *)
Inductive updater_trace : list (N + RpcError) → Chan * World → Chan * World → Prop :=
  | trace_nil s : updater_trace [] s s
  | trace_other l s ch w w' :
      updater_trace l s (ch, w) → updater_trace l s (ch, w')
  | trace_round l s ch w r w1 ch' w2 :
      updater_trace l s (ch, w) →
      st_try (F := InternalError) fetch w = (Ok r, w1) →
      updater_round interval fetch callback ch w = (Ok ch', w2) →
      updater_trace (l ++ [r]) s (ch', w2).

Lemma updater_round_inv ch w ch' w' :
  updater_round interval fetch callback ch w = (Ok ch', w') →
  ∃ r w1, st_try (F := InternalError) fetch w = (Ok r, w1) ∧
    ch' = match r with inl v => watch_send v ch | inr _ => ch end.
Proof.
  unfold updater_round. intros H. do 3 st_inv H. apply st_ret_inv in H as [-> _].
  exists a, w0. by split.
Qed.

Lemma updater_round_chan ch w r w1 ch' w' :
  st_try (F := InternalError) fetch w = (Ok r, w1) →
  updater_round interval fetch callback ch w = (Ok ch', w') →
  ch' = match r with inl v => watch_send v ch | inr _ => ch end.
Proof.
  intros Hr (r' & w2 & Hr' & ->)%updater_round_inv. rewrite Hr in Hr'. by injection Hr' as <- _.
Qed.

Lemma updater_trace_value l ch w ch' w' :
  updater_trace l (ch, w) (ch', w') →
  watch_borrow ch' = default (watch_borrow ch) (last (fetched l)) ∧
  (fetched l = [] → ch' = ch).
Proof.
  remember (ch, w) as s eqn:Es. remember (ch', w') as s' eqn:Es'. intros Ht.
  revert ch' w' Es'. induction Ht as [s|l s ch1 w1 w2 Ht IH|l s ch1 w1 r w2 ch2 w3 Ht IH Hr Hu];
    intros ch' w' Es'; subst.
  - injection Es' as -> ->. done.
  - injection Es' as -> ->. by eapply IH.
  - injection Es' as -> ->. apply (updater_round_chan _ _ _ _ _ _ Hr) in Hu as ->.
    destruct (IH eq_refl _ _ eq_refl) as [IH1 IH2]. rewrite fetched_app.
    destruct r as [v|e]; cbn [fetched omap list_omap].
    + rewrite last_snoc, borrow_send. split; [done|]. by intros []%app_nil.
    + by rewrite app_nil_r.
Qed.

Lemma await_value_spec rounds ch w :
  match await_value rounds (updater_round interval fetch callback) ch w with
  | (Ok (Some ch'), w') =>
      if watch_changed ch then ch' = watch_mark_seen ch ∧ w' = w
      else ∃ errors v ch1, updater_trace ((inr <$> errors) ++ [inl v]) (ch, w) (ch1, w') ∧
        ch' = watch_mark_seen (watch_send v ch)
  | (Ok None, w') => ∃ errors, length errors = rounds ∧
      updater_trace (inr <$> errors) (ch, w) (ch, w')
  | _ => True
  end.
Proof.
  enough (∀ errors0 w0, watch_changed ch = false →
    updater_trace (inr <$> errors0) (ch, w0) (ch, w) →
    match await_value rounds (updater_round interval fetch callback) ch w with
    | (Ok (Some ch'), w') =>
        ∃ errors v ch1, updater_trace ((inr <$> errors) ++ [inl v]) (ch, w0) (ch1, w') ∧
        ch' = watch_mark_seen (watch_send v ch)
    | (Ok None, w') => ∃ errors, length errors = length errors0 + rounds ∧
        updater_trace (inr <$> errors) (ch, w0) (ch, w')
    | _ => True
    end) as Hgo.
  { specialize (Hgo [] w). destruct (watch_changed ch) eqn:Hc.
    - destruct rounds; simpl; by rewrite Hc.
    - apply Hgo; [done|constructor]. }
  intros errors0 w0 Hc. revert errors0 w. induction rounds as [|rounds IH]; intros errors0 w Ht.
  { simpl. rewrite Hc. exists errors0. split; [lia|done]. }
  cbn [await_value]. rewrite Hc. unfold mbind, st_bind.
  destruct (updater_round _ _ _ ch w) as [[ch1|e|] w1] eqn:Hu; [|done..].
  destruct (updater_round_inv _ _ _ _ Hu) as (r & w2 & Hr & ->). destruct r as [v|e].
  - assert (await_value rounds (updater_round interval fetch callback) (watch_send v ch) w1
      = (Ok (Some (watch_mark_seen (watch_send v ch))), w1)) as ->
      by (destruct rounds; simpl; by rewrite changed_send).
    exists errors0, v, (watch_send v ch). split; [|done]. by eapply trace_round.
  - specialize (IH (errors0 ++ [e]) w1). rewrite fmap_app in IH.
    specialize (IH (trace_round _ _ _ _ _ _ _ _ Ht Hr Hu)). rewrite length_app in IH.
    destruct (await_value _ _ _ _) as [[[]| |] ?]; [done| |done..].
    destruct IH as (errors & Hl & ?). exists errors. simpl in Hl. split; [lia|done].
Qed.
End rounds.

Abbreviation gas_price_trace self metrics :=
  (updater_trace (ko_rgp_update_interval (options self))
     (get_reference_gas_price (sui_rpc_client self))
     (if metrics then Some (status_callback "get_reference_gas_price_status") else None)).

(** The reference gas price that requests are simulated with. The server
    does not start before the full node has told a price: as long as the
    fetches fail, the start waits. From then on, whatever the other tasks do
    in between, the price is always the latest that the full node has told;
    a failed fetch leaves it alone. *)
Theorem gas_price_is_latest (self : Server) (metrics : bool) (rounds : nat) (w w' : World)
    (started : option Chan) :
  spawn_reference_gas_price_updater (E := InternalError) rounds self metrics w
    = (Ok started, w') →
  match started with
  | None => ∃ errors, length errors = rounds ∧
      gas_price_trace self metrics (inr <$> errors)
                  (watch_channel 0, w) (watch_channel 0, w')
  | Some ch => ∃ v, reference_gas_price ch = v ∧
      (∃ errors ch1, gas_price_trace self metrics ((inr <$> errors) ++ [inl v])
                       (watch_channel 0, w) (ch1, w')) ∧
      ∀ results w1 ch2 w2, gas_price_trace self metrics results (ch, w1) (ch2, w2) →
        reference_gas_price ch2 = default v (last (fetched results))
  end.
Proof.
  intros H. pose proof (await_value_spec (ko_rgp_update_interval (options self))
    (get_reference_gas_price (sui_rpc_client self))
    (if metrics then Some (status_callback "get_reference_gas_price_status") else None)
    rounds (watch_channel 0) w) as Hs.
  unfold spawn_reference_gas_price_updater, spawn_periodic_updater in H. rewrite H in Hs.
  rewrite changed_channel in Hs. destruct started as [ch|]; [|exact Hs].
  destruct Hs as (errors & v & ch1 & Ht & ->). exists v. unfold reference_gas_price.
  assert (watch_borrow (watch_mark_seen (watch_send v (watch_channel 0))) = v) as Hv
    by by rewrite borrow_mark_seen, borrow_send.
  split_and!; [done|by eexists _, _|]. intros results w1 ch2 w2 Ht2.
  apply updater_trace_value in Ht2 as [-> _]. by rewrite Hv.
Qed.

(** ** The committee version *)
Section version.
  Context (self : Server) (u : VersionUpdater).

(** The updater, the channel between it and the monitor, and the monitor with
    the version that the server reads. *)
Record VersionSystem : Type := mkVersionSystem {
  vs_chan : Chan;
  vs_alive : bool; (** the updater runs *)
  vs_task : TaskState;
  vs_world : World;
}.

Definition task_after (v : N) (o : MonitorOutcome) : TaskState :=
  match o with
  | Completed v' => Finished v'
  | Continue => Running v
  | MonitorPanic => Panicked v
  end.

Inductive version_step : VersionSystem → VersionSystem → Prop :=
  | version_round ch t w ch' w' :
      committee_version_round (E := InternalError) self u ch w = (Ok ch', w') →
      version_step (mkVersionSystem ch true t w) (mkVersionSystem ch' true t w')
  | version_round_panic ch t w w' :
      committee_version_round (E := InternalError) self u ch w = (Panic, w') →
      version_step (mkVersionSystem ch true t w) (mkVersionSystem ch false t w')
  | version_receive ch alive v w o w' :
      watch_changed ch = true →
      committee_version_received (E := InternalError) self u (watch_mark_seen ch) w = (Ok o, w') →
      version_step (mkVersionSystem ch alive (Running v) w)
        (mkVersionSystem (watch_mark_seen ch)
           (match o with Completed _ => false | _ => alive end) (task_after v o) w')
  | version_receive_panic ch alive v w w' :
      watch_changed ch = true →
      committee_version_received (E := InternalError) self u (watch_mark_seen ch) w = (Panic, w') →
      version_step (mkVersionSystem ch alive (Running v) w)
        (mkVersionSystem (watch_mark_seen ch) alive (Panicked v) w')
  | version_closed ch v w :
      watch_changed ch = false →
      version_step (mkVersionSystem ch false (Running v) w)
        (mkVersionSystem ch false (Panicked v) w)
  | version_other ch alive t w w' :
      version_step (mkVersionSystem ch alive t w) (mkVersionSystem ch alive t w').

Lemma received_refines ch w o w' :
  committee_version_received (E := InternalError) self u ch w = (Ok o, w') →
  ∃ pk, monitor_version (vu_target_version u) (vu_target_master_share u) pk (watch_borrow ch) = o.
Proof.
  unfold committee_version_received, monitor_version.
  destruct (_ =? _)%N.
  - intros H. st_inv H. destruct a as [[]|e]; apply st_ret_inv in H as [-> _]; [|by exists None].
    exists (Some (public_key_from_master_key (vu_target_master_share u))).
    by rewrite bool_decide_eq_true_2.
  - intros H. exists None. case_bool_decide; by apply st_ret_inv in H as [-> _].
Qed.

(** A value on which the monitor panics. *)
Lemma panic_possible v :
  monitor_step (vu_target_version u) (vu_target_master_share u) (Running v) (Panicked v).
Proof.
  apply (step_panic _ _ v (vu_target_version u) None). unfold monitor_version.
  destruct (N.eqb_spec (vu_target_version u `mod` 2 ^ 32) (vu_target_version u)) as [|Hne]; [done|].
  rewrite bool_decide_eq_false_2; [done|]. unfold checked_succ.
  destruct (N.ltb_spec (vu_target_version u `mod` 2 ^ 32 + 1) (2 ^ 32)) as [Hlt|]; [|done].
  intros [= Heq]. apply Hne, N.mod_small. lia.
Qed.

Lemma version_step_refines s s' :
  version_step s s' →
  rtc (monitor_step (vu_target_version u) (vu_target_master_share u)) (vs_task s) (vs_task s').
Proof.
  intros []; cbn [vs_task]; try done; try apply rtc_once, panic_possible.
  match goal with H : _ = (Ok _, _) |- _ => apply received_refines in H as [pk Hm] end.
  apply rtc_once. destruct o; [by eapply step_complete|by eapply step_continue|by eapply step_panic].
Qed.

(** ** What happened in a run

    A state of a run, between its first and its last. *)
Definition between (s s' : VersionSystem) (P : VersionSystem → Prop) : Prop :=
  ∃ s1, rtc version_step s s1 ∧ rtc version_step s1 s' ∧ P s1.

Lemma between_step s s1 s2 P : version_step s1 s2 → between s s1 P → between s s2 P.
Proof.
  intros Hs (s0 & H1 & H2 & HP). exists s0. split_and!; [done| |done].
  by eapply rtc_r.
Qed.

Lemma between_last s s1 (P : VersionSystem → Prop) : rtc version_step s s1 → P s1 → between s s1 P.
Proof. intros Hr HP. exists s1. by split_and!. Qed.

(** The full node, asked by the running updater, answers version [n], or the
    request panics. *)
Definition node_answers (n : N) (s : VersionSystem) : Prop :=
  vs_alive s = true ∧
  ∃ w', fetch_committee_server_version (sui_rpc_client self) (vu_key_server_obj_id u) (vs_world s)
        = (Ok n, w').

Definition request_panics (s : VersionSystem) : Prop :=
  vs_alive s = true ∧
  (fetch_committee_server_version (sui_rpc_client self) (vu_key_server_obj_id u) (vs_world s)).1
  = Panic.

(** The full node, asked by the monitor, knows the member's partial public
    key, and it is that of the new share. *)
Definition share_on_chain (s : VersionSystem) : Prop :=
  ∃ info w', fetch_partial_key_server_for_member (sui_rpc_client self) (vu_key_server_obj_id u)
      (vu_member_address u) (vs_world s) = (Ok info, w') ∧
    pki_partial_pk info = public_key_from_master_key (vu_target_master_share u).

(** The monitor, with the version [v] shared, has [n] to receive, which the
    full node has answered before. *)
Definition has_received (s : VersionSystem) (v n : N) (s1 : VersionSystem) : Prop :=
  vs_task s1 = Running v ∧ watch_changed (vs_chan s1) = true ∧ watch_borrow (vs_chan s1) = n ∧
  between s s1 (node_answers n).

Abbreviation as_u32 n := (n `mod` 2 ^ 32)%N.

(** Why a monitor ends, in a run from [s] to [s']. *)
Definition completion_cause (s s' : VersionSystem) (v : N) : Prop :=
  ∃ n, as_u32 n = vu_target_version u ∧
    between s s' (λ s1, has_received s v n s1 ∧ share_on_chain s1).

Definition panic_cause (s s' : VersionSystem) (v : N) : Prop :=
  (∃ n, as_u32 n ≠ vu_target_version u ∧ checked_succ (as_u32 n) ≠ Some (vu_target_version u) ∧
     between s s' (has_received s v n)) ∨
  (∃ n, as_u32 n = vu_target_version u ∧
     between s s' (λ s1, has_received s v n s1 ∧ ¬ share_on_chain s1)) ∨
  between s s' request_panics.

Lemma panic_cause_step s s1 s2 v : version_step s1 s2 → panic_cause s s1 v → panic_cause s s2 v.
Proof.
  intros Hs [(n & ? & ? & H)|[(n & ? & H)|H]]; [left; exists n|right; left; exists n|right; right];
    eauto using between_step.
Qed.

Lemma completion_cause_step s s1 s2 v :
  version_step s1 s2 → completion_cause s s1 v → completion_cause s s2 v.
Proof. intros Hs (n & ? & H). exists n. eauto using between_step. Qed.

(** The world in which the monitor validates is the one of the step. *)
Lemma validated_iff w :
  (fetch_and_validate_committee_partial_pk (sui_rpc_client self) (vu_key_server_obj_id u)
     (vu_member_address u) (vu_target_master_share u) w).1 = Ok () ↔
  ∃ info w', fetch_partial_key_server_for_member (sui_rpc_client self) (vu_key_server_obj_id u)
      (vu_member_address u) w = (Ok info, w') ∧
    pki_partial_pk info = public_key_from_master_key (vu_target_master_share u).
Proof.
  unfold fetch_and_validate_committee_partial_pk, st_map_err, mbind, st_bind.
  destruct (fetch_partial_key_server_for_member _ _ _ w) as [[info|e|] w'];
    [|by split; [|intros (? & ? & ? & _)]..]. simpl. case_bool_decide as Hpk; split.
  - intros _. eauto.
  - done.
  - done.
  - intros (info' & ? & [= <- <-] & Heq). by destruct Hpk.
Qed.

(** What the monitor does with what it has received. *)
Lemma received_outcome v ch alive w :
  let s1 := mkVersionSystem ch alive (Running v) w in
  let n := watch_borrow ch in
  match (committee_version_received (E := InternalError) self u (watch_mark_seen ch) w).1 with
  | Ok (Completed v') => v' = vu_target_version u ∧ as_u32 n = vu_target_version u ∧
      share_on_chain s1
  | Ok Continue => as_u32 n ≠ vu_target_version u
  | Ok MonitorPanic | Panic =>
      (as_u32 n ≠ vu_target_version u ∧ checked_succ (as_u32 n) ≠ Some (vu_target_version u)) ∨
      (as_u32 n = vu_target_version u ∧ ¬ share_on_chain s1)
  | Err _ => False
  end.
Proof.
  intros s1 n. unfold committee_version_received. rewrite borrow_mark_seen. fold n.
  destruct (N.eqb_spec (as_u32 n) (vu_target_version u)) as [Heq|Hne].
  - unfold st_try, mbind, st_bind. pose proof (validated_iff w) as Hv.
    destruct (fetch_and_validate_committee_partial_pk _ _ _ _ w) as [[[]|e|] w']; cbn in Hv |- *.
    + split_and!; [done..|]. by apply Hv.
    + right. split; [done|]. by intros ?%Hv.
    + right. split; [done|]. by intros ?%Hv.
  - case_bool_decide; [done|]. left. done.
Qed.

(** What is known along a run in which the monitor started with [v], with
    nothing left to receive. *)
Record run_inv (s : VersionSystem) (v : N) (s' : VersionSystem) : Prop := {
  ri_channel : watch_changed (vs_chan s') = true →
    between s s' (node_answers (watch_borrow (vs_chan s')));
  ri_updater : ∀ x, vs_task s' = Running x → vs_alive s' = false → between s s' request_panics;
  ri_task :
    match vs_task s' with
    | Running x => x = v
    | Finished x => x = vu_target_version u ∧ completion_cause s s' v
    | Panicked x => x = v ∧ panic_cause s s' v
    end;
}.

Lemma round_answers ch w ch' w' t :
  committee_version_round (E := InternalError) self u ch w = (Ok ch', w') →
  ch' = ch ∨ ∃ n, ch' = watch_send n ch ∧ node_answers n (mkVersionSystem ch true t w).
Proof.
  unfold committee_version_round. intros (r & w1 & Hr & ->)%updater_round_inv.
  destruct r as [n|e]; [right|by left]. exists n. split; [done|]. split; [done|]. cbn.
  unfold st_try in Hr. destruct (fetch_committee_server_version _ _ w) as [[]]; try done.
  injection Hr as -> ->. eauto.
Qed.

Lemma round_panics ch w w' t :
  committee_version_round (E := InternalError) self u ch w = (Panic, w') →
  request_panics (mkVersionSystem ch true t w).
Proof.
  unfold committee_version_round, updater_round, st_try, mbind, st_bind. intros H.
  split; [done|]. cbn. destruct (fetch_committee_server_version _ _ w) as [[n|e|] w1]; [..|done];
    unfold env_effect, with_env, mret, st_ret in H; cbn in H; discriminate.
Qed.

Lemma run_inv_step s v s1 s2 :
  rtc version_step s s1 → run_inv s v s1 → version_step s1 s2 → run_inv s v s2.
Proof.
  intros Hr [Hch Hup Htask] Hs. pose proof (λ P, between_step s s1 s2 P Hs) as Hb.
  pose proof (completion_cause_step s _ _ v Hs) as Hcc. pose proof (panic_cause_step s _ _ v Hs) as Hpc.
  assert (match vs_task s1 with
    | Running x => x = v
    | Finished x => x = vu_target_version u ∧ completion_cause s s2 v
    | Panicked x => x = v ∧ panic_cause s s2 v
    end) as Hkept by (destruct (vs_task s1); naive_solver).
  destruct Hs as [ch t w ch' w' Hround|ch t w w' Hround|ch alive x w o w' Hc Ho|
    ch alive x w w' Hc Ho|ch x w Hc|ch alive t w w']; cbn [vs_chan vs_alive vs_task] in *.
  - split; cbn; [|done|done]. intros Hc.
    destruct (round_answers _ _ _ _ t Hround) as [->|(n & -> & Hn)]; [by apply Hb, Hch|].
    rewrite borrow_send. apply Hb. by apply between_last.
  - split; cbn; [by intros; apply Hb, Hch| |done]. intros _ _ _. apply Hb.
    apply between_last; [done|]. by eapply round_panics.
  - subst x. pose proof (received_outcome v ch alive w) as Hout. cbv zeta in Hout.
    rewrite Ho in Hout. cbn [fst] in Hout.
    assert (has_received s v (watch_borrow ch) (mkVersionSystem ch alive (Running v) w)) as Hrec
      by (split_and!; [done..|by apply Hch]).
    split; cbn.
    + by rewrite changed_mark_seen.
    + destruct o; cbn; [done| |done]. intros ? _ Ha. apply Hb. by eapply Hup.
    + destruct o as [v'| |]; cbn; [|done|].
      * destruct Hout as (-> & Hn & Hshare). split; [done|]. exists (watch_borrow ch).
        split; [done|]. apply Hb. by apply between_last.
      * split; [done|]. destruct Hout as [(? & ?)|(? & ?)]; [left|right; left];
          exists (watch_borrow ch); (split_and!; [done..|]); apply Hb; by apply between_last.
  - subst x. pose proof (received_outcome v ch alive w) as Hout. cbv zeta in Hout.
    rewrite Ho in Hout. cbn [fst] in Hout.
    assert (has_received s v (watch_borrow ch) (mkVersionSystem ch alive (Running v) w)) as Hrec
      by (split_and!; [done..|by apply Hch]).
    split; cbn; [by rewrite changed_mark_seen|done|]. split; [done|].
    destruct Hout as [(? & ?)|(? & ?)]; [left|right; left];
      exists (watch_borrow ch); (split_and!; [done..|]); apply Hb; by apply between_last.
  - subst x. split; cbn; [by rewrite Hc|done|]. split; [done|]. right; right. apply Hb.
    by eapply Hup.
  - split; cbn; [by intros; apply Hb, Hch|by intros; eapply Hb, Hup|done].
Qed.

Lemma run_inv_holds s v s' :
  vs_task s = Running v → vs_alive s = true → watch_changed (vs_chan s) = false →
  rtc version_step s s' → run_inv s v s'.
Proof.
  intros Ht Ha Hc Hr. apply rtc_nsteps in Hr as [n Hn]. revert s' Hn.
  induction n as [|n IH]; intros s' Hn.
  { inversion Hn; subst. split; [by rewrite Hc|by rewrite Ha|by rewrite Ht]. }
  apply nsteps_inv_r in Hn as (s1 & Hn & Hs). eapply run_inv_step; [|by apply IH|done].
  apply rtc_nsteps. by exists n.
Qed.

(** C16: the version that the server reads during a rotation, in every run of
    the updater, the monitor and the other tasks from the start of the monitor
    with version [v]. As long as the monitor runs, and if it panics, the
    version is still [v]. It is another one only when the monitor has
    finished, and then it is the target: the full node has answered the target
    version to the updater, and after that, when the monitor had this answer
    to receive and asked for its member's partial public key, the full node
    answered the one of the new share. The monitor panics only if it received
    an answer that is neither the target nor the version before it, or
    received the target when the full node did not answer that partial public
    key, or if a request of the updater panicked. An answer is taken as the
    32-bit number that a version is. Each such run is one of the step relation that [committee_share_follows_version] is about. *)
Theorem version_updater_refines (s s' : VersionSystem) (v : N) :
  vs_task s = Running v → vs_alive s = true → watch_changed (vs_chan s) = false →
  rtc version_step s s' →
  rtc (monitor_step (vu_target_version u) (vu_target_master_share u)) (vs_task s) (vs_task s') ∧
  match vs_task s' with
  | Running v' => v' = v
  | Finished v' => v' = vu_target_version u ∧ completion_cause s s' v
  | Panicked v' => v' = v ∧ panic_cause s s' v
  end.
Proof.
  intros Ht Ha Hc Hr. split; [|by destruct (run_inv_holds s v s' Ht Ha Hc Hr)].
  clear Ht Ha Hc. induction Hr as [s|s s1 s' Hs _ IH]; [done|].
  etrans; [by apply version_step_refines|done].
Qed.

(** The node has completed the rotation: it answers the target version, and
    the partial public key of the new share. *)
Definition rotated : Prop :=
  (vu_target_version u < 2 ^ 32)%N ∧
  (∀ w, ∃ w', fetch_committee_server_version (sui_rpc_client self) (vu_key_server_obj_id u) w
              = (Ok (vu_target_version u), w')) ∧
  (∀ w, ∃ w', fetch_and_validate_committee_partial_pk (sui_rpc_client self)
                (vu_key_server_obj_id u) (vu_member_address u) (vu_target_master_share u) w
              = (Ok (), w')).

Lemma rotated_round ch w :
  rotated → ∃ w', committee_version_round (E := InternalError) self u ch w
                  = (Ok (watch_send (vu_target_version u) ch), w').
Proof.
  intros (_ & Hf & _). unfold committee_version_round, updater_round, mbind, st_bind.
  destruct (Hf w) as [w1 Hw]. unfold st_try. rewrite Hw.
  unfold env_effect, with_env, mret, st_ret. cbn. by eexists.
Qed.

Lemma rotated_received ch w :
  rotated → watch_borrow ch = vu_target_version u →
  ∃ w', committee_version_received (E := InternalError) self u ch w
        = (Ok (Completed (vu_target_version u)), w').
Proof.
  intros (Ht & _ & Hv) Hb. unfold committee_version_received. rewrite Hb, N.mod_small by done.
  rewrite N.eqb_refl. destruct (Hv w) as [w1 Hw]. unfold st_try, mbind, st_bind.
  rewrite Hw. by eexists.
Qed.

(** Once the updater has made a round on a rotated node, either the new value
    is still to be received, or the task has finished. *)
Definition completing (s : VersionSystem) : Prop :=
  watch_borrow (vs_chan s) = vu_target_version u ∧
  ((∃ v, vs_task s = Running v ∧ vs_alive s = true ∧ watch_changed (vs_chan s) = true) ∨
   vs_task s = Finished (vu_target_version u)).

Lemma completing_step s s' :
  rotated → completing s → version_step s s' →
  completing s' ∧ ∀ v, vs_task s' ≠ Panicked v.
Proof.
  intros Hrot [Hb Hs] Hst. unfold completing.
  destruct Hst; cbn [vs_chan vs_task vs_alive] in *.
  - destruct (rotated_round ch w Hrot) as [w1 Hr]. match goal with H : _ = (Ok _, _) |- _ =>
      rewrite Hr in H; injection H as <- _ end.
    rewrite borrow_send, changed_send. split; [split; [done|]|].
    + destruct Hs as [(v & -> & _)| ->]; [left|right]; eauto.
    + by destruct Hs as [(v & -> & _)| ->].
  - destruct (rotated_round ch w Hrot) as [w1 Hr]. by rewrite Hr in *.
  - rewrite borrow_mark_seen. destruct (rotated_received (watch_mark_seen ch) w Hrot) as [w1 Hr].
    { by rewrite borrow_mark_seen. }
    match goal with H : _ = (Ok o, _) |- _ => rewrite Hr in H; injection H as <- _ end.
    split; [|done]. split; [done|by right].
  - destruct (rotated_received (watch_mark_seen ch) w Hrot) as [w1 Hr].
    { by rewrite borrow_mark_seen. }
    by rewrite Hr in *.
  - by destruct Hs as [(? & _ & ? & _)|?].
  - split; [done|]. by destruct Hs as [(v' & -> & _)| ->].
Qed.

Lemma completing_steps s s' : rotated → rtc version_step s s' → completing s → completing s'.
Proof.
  intros Hrot. apply rtc_invariant. intros x y Hx Hxy. by apply (completing_step x).
Qed.

(** C17: rotations complete. When the node answers with the target version
    and the new partial public key, every round of the updater on a running
    monitor leads to the new version: however the tasks go on from there, the
    monitor does not panic, and as long as the server does not read the target
    version, a step of the monitor is enabled and the server reads it after
    that step. *)
Theorem rotation_completes (s1 s2 s3 : VersionSystem) (v : N) :
  rotated →
  vs_task s1 = Running v → vs_alive s1 = true →
  (∃ ch' w', committee_version_round (E := InternalError) self u (vs_chan s1) (vs_world s1)
     = (Ok ch', w') ∧ s2 = mkVersionSystem ch' true (vs_task s1) w') →
  rtc version_step s2 s3 →
  (∀ v', vs_task s3 ≠ Panicked v') ∧
  (vs_task s3 = Finished (vu_target_version u) ∨
   ∃ s4, version_step s3 s4 ∧ vs_task s4 = Finished (vu_target_version u)).
Proof.
  intros Hrot Hv Ha (ch' & w' & Hr & ->) Hst.
  destruct (rotated_round (vs_chan s1) (vs_world s1) Hrot) as [w1 Hr1].
  rewrite Hr1 in Hr. injection Hr as <- <-. rewrite Hv in Hst.
  assert (completing s3) as [Hb Hs3].
  { apply (completing_steps _ _ Hrot Hst). split; [apply borrow_send|]. left. exists v.
    split_and!; [done..|apply changed_send]. }
  split; [by destruct Hs3 as [(? & -> & _)| ->]|].
  destruct Hs3 as [(v3 & Ht & _ & Hc)|]; [right|by left].
  destruct s3 as [ch alive t w]; cbn [vs_chan vs_task vs_alive] in *. subst t.
  destruct (rotated_received (watch_mark_seen ch) w Hrot) as [w2 Hr]; [by rewrite borrow_mark_seen|].
  eexists. split; [by eapply version_receive|]. done.
Qed.
End version.
End updater.

(** ** Witnesses *)
#[local] Existing Instances Toy.symmetric Toy.curve ToyCommon.semver ToyCommon.profile ToyChain.sui
  ToyMonitors.node ToyMonitors.bcs ToyMonitors.watch ToyMonitors.watch_laws ToyMonitors.timer
  ToyMonitors.lib ToyServer.mvr ToyServer.ptb_lib.

Lemma gas_price_is_latest_witness :
  ∃ ch w', spawn_reference_gas_price_updater (E := InternalError) 1 ToyMonitors.server true
    ToyMonitors.world = (Ok (Some ch), w') ∧ reference_gas_price ch = 1000%N.
Proof.
  pose proof (gas_price_is_latest ToyMonitors.server true 1 ToyMonitors.world) as H.
  set (run := spawn_reference_gas_price_updater _ _ _ _) in *.
  change (spawn_reference_gas_price_updater (E := InternalError) 1 ToyMonitors.server true
    ToyMonitors.world) with run.
  assert (match run.1 with Ok (Some ch) => ch.1 = 1000%N | _ => False end) as Hrun
    by (vm_compute; reflexivity).
  destruct run as [[[ch|]|e|] w']; [|destruct Hrun..]. exists ch, w'. split; [reflexivity|].
  destruct (H w' (Some ch) eq_refl) as (v & Hv & _). exact Hrun.
Defined.

Definition toy_updater : VersionUpdater :=
  mkVersionUpdater [Byte.x55] [Byte.x77] 2 ToyMonitors.share.

Definition toy_system : VersionSystem :=
  mkVersionSystem (watch_channel 1) true (Running 1) ToyMonitors.world.

(** The state after a round of the updater. *)
Definition toy_round : VersionSystem :=
  match committee_version_round (E := InternalError) ToyMonitors.server toy_updater
          (vs_chan toy_system) (vs_world toy_system) with
  | (Ok ch, w) => mkVersionSystem ch true (Running 1) w
  | _ => toy_system
  end.

Lemma toy_rotated : rotated ToyMonitors.server toy_updater.
Proof.
  assert (∀ (A : Type) (r : A * World) a, r.1 = a → ∃ w', r = (a, w')) as Hfst.
  { intros A [a w] ? <-. by eexists. }
  split; [done|]. split; intros [e m c1 c2]; apply Hfst; vm_compute; reflexivity.
Qed.

(** The monitor, after it has received what the updater sent. *)
Definition toy_finished : VersionSystem :=
  match committee_version_received (E := InternalError) ToyMonitors.server toy_updater
          (watch_mark_seen (vs_chan toy_round)) (vs_world toy_round) with
  | (Ok o, w) =>
      mkVersionSystem (watch_mark_seen (vs_chan toy_round))
        (match o with Completed _ => false | _ => true end) (task_after 1 o) w
  | _ => toy_round
  end.

Lemma toy_run : rtc (version_step ToyMonitors.server toy_updater) toy_system toy_finished.
Proof.
  pose proof (rotated_round ToyMonitors.server toy_updater (vs_chan toy_system)
    (vs_world toy_system) toy_rotated) as [w1 Hr].
  assert (toy_round = mkVersionSystem (watch_send 2 (vs_chan toy_system)) true (Running 1) w1) as Ht
    by (unfold toy_round; by rewrite Hr).
  transitivity toy_round; [rewrite Ht; apply rtc_once; by apply version_round|].
  apply rtc_once. unfold toy_finished.
  rewrite Ht. cbn [vs_chan vs_world].
  destruct (committee_version_received _ _ _ _) as [[o| |] w2] eqn:Ho; [|apply version_other..].
  by apply version_receive.
Qed.

(** The run ends with the version of the rotation, and its cause. *)
Lemma version_updater_refines_witness :
  vs_task toy_finished = Finished 2 ∧
  completion_cause ToyMonitors.server toy_updater toy_system toy_finished 1.
Proof.
  assert (vs_task toy_finished = Finished 2) as Hf by (vm_compute; reflexivity).
  split; [exact Hf|].
  destruct (version_updater_refines ToyMonitors.server toy_updater toy_system toy_finished 1
    eq_refl eq_refl eq_refl toy_run) as [_ H].
  rewrite Hf in H. exact (proj2 H).
Defined.

Lemma rotation_completes_witness :
  ∃ s, version_step ToyMonitors.server toy_updater toy_round s ∧ vs_task s = Finished 2.
Proof.
  destruct (rotation_completes ToyMonitors.server toy_updater toy_system toy_round toy_round 1)
    as [_ [Hf|Hs]].
  - exact toy_rotated.
  - reflexivity.
  - reflexivity.
  - destruct (rotated_round ToyMonitors.server toy_updater (vs_chan toy_system)
      (vs_world toy_system) toy_rotated) as [w' Hr].
    eexists _, w'. split; [exact Hr|]. unfold toy_round. by rewrite Hr.
  - reflexivity.
  - unfold toy_round in Hf. destruct (committee_version_round _ _ _ _) as [[]]; discriminate Hf.
  - exact Hs.
Defined.
