(* ===== verification/AlertProps.v ===== *)
(** * Properties of the alerts in committee mode

    The monitor of upgrade proposals counts every change that it receives; the
    monitor of rotation events implements an abstract alerter that handles
    every event once. *)

From Stdlib Require Import NArith Lia.
From S2P Require Import Prelude Primitives Ibe Common Chain Committee RpcClient Keeps Options.
From S2P Require Import ValidPtb MasterKeys Mvr KeyServer KeyServerTheory Monitors MonitorProps.

(** ** Alerts *)
Section alerts.
  Context {I C K T : Type}.
  Abbreviation Tx := (TransactionProto I C K T).
  Context {node : FullNode Tx} {sui : SuiTypes} {sym : Symmetric} {crv : Curve}
    {bcs : BcsTypes} {profile : BuildProfile}.

(** How often a counter has been incremented. *)
Definition alerts (counter : string) (w : World) : nat :=
  length (filter (λ m, m = Inc counter []) (w_metrics w)).

Lemma alerts_record {E : Type} counter w w' u :
  record_metric (E := E) (Inc counter []) w = (Ok u, w') → alerts counter w' = S (alerts counter w).
Proof. intros [= _ <-]. unfold alerts. cbn [w_metrics]. by rewrite filter_cons_True. Qed.

(** Nothing that the monitors call counts an alert, nor moves the environment
    against [P]. *)
Context (P : relation Env) `{!PreOrder P} (counter : string).
Context (P_get_object : ∀ c n m e, P e (get_object_rpc c n m e).2)
  (P_sleep : ∀ d e, P e (env_sleep d e)) (P_instant : ∀ e, P e (env_instant e).2).

Definition quiet (w w' : World) : Prop :=
  alerts counter w' = alerts counter w ∧ P (w_env w) (w_env w').

#[export] Instance quiet_preorder : PreOrder quiet.
Proof.
  split; [done|]. intros w1 w2 w3 [H1 HP1] [H2 HP2]. split; [congruence|by etrans].
Qed.

Lemma quiet_with_env {E A : Type} (f : Env → A * Env) :
  (∀ e, P e (f e).2) → keeps quiet (with_env f : M E A).
Proof.
  intros Hf w. unfold with_env. specialize (Hf (w_env w)).
  by destruct (f (w_env w)) as [a e].
Qed.

Lemma quiet_record {E : Type} m :
  m ≠ Inc counter [] → keeps quiet (record_metric (E := E) m).
Proof.
  intros Hm w. split; [|done]. unfold alerts. cbn [record_metric st_modify snd w_metrics].
  by rewrite filter_cons_False.
Qed.

Lemma quiet_run_grpc {E A : Type} `{RetriableError E} client method (op : M E A) :
  keeps quiet op → keeps quiet (run_grpc_with_retries client method op).
Proof.
  intros Hop. apply keeps_retry_loop; [done|..].
  - intros d w. by split; [|apply P_sleep].
  - intros w. pose proof (P_instant (w_env w)). by destruct (env_instant _).
  - intros s t w. destruct (request_duration_millis client); [|done].
    split; [|done]. unfold alerts. cbn [w_metrics]. by rewrite filter_cons_False.
Qed.

Lemma quiet_get_object_rpc client name mask :
  keeps quiet (grpc (get_object_rpc client name mask)).
Proof. unfold grpc. keeps. by apply quiet_with_env. Qed.
#[local] Hint Resolve quiet_get_object_rpc : keeps.

Lemma quiet_fetch_object {A : Type} client (decode : list byte → outcome string A) id :
  keeps quiet (fetch_object client decode id).
Proof. unfold fetch_object, rpc_new_err. keeps. Qed.
#[local] Hint Resolve quiet_fetch_object : keeps.

Lemma quiet_fetch_committee client id :
  keeps quiet (fetch_committee_from_key_server client id).
Proof.
  apply quiet_run_grpc. unfold grpc_fetch_committee_from_key_server, rpc_new_err, ok_or_rpc. keeps.
Qed.

Lemma quiet_fetch_upgrade_proposal client id :
  keeps quiet (fetch_upgrade_proposal client id).
Proof.
  apply quiet_run_grpc. unfold grpc_fetch_upgrade_proposal, fetch_upgrade_manager, rpc_new_err,
    ok_or_rpc. keeps.
Qed.
End alerts.

(** ** Upgrade proposals *)
Section proposals.
  Context {I C K T : Type}.
  Abbreviation Tx := (TransactionProto I C K T).
  Context {node : FullNode Tx} {sui : SuiTypes} {sym : Symmetric} {crv : Curve}
    {bcs : BcsTypes} {profile : BuildProfile} {semver : SemVer} {mvr : MvrLib}
    {ptb_lib : PtbLib} {lib : ServerLib Tx} {watch : WatchChannel} {watch_laws : WatchLaws}
    {timer : Timer Tx}.
  Context (self : Server) (key_server_obj_id : Address).

Abbreviation upgrade_alerts := (alerts PACKAGE_UPGRADE_COUNTER).

(** The channel, the last proposal of the monitor, and, to speak about the
    run, the values that were sent and those that the monitor received. *)
Record ProposalSystem : Type := mkProposalSystem {
  ps_chan : Chan;
  ps_last : N;
  ps_sent : list N;
  ps_received : list N;
  ps_world : World;
}.

Inductive proposal_step : ProposalSystem → ProposalSystem → Prop :=
  | proposal_update ch prev sent received w r w1 ch' w' :
      st_try (F := InternalError) (fetch_proposal_version self key_server_obj_id) w = (Ok r, w1) →
      proposal_round (E := InternalError) self key_server_obj_id ch w = (Ok ch', w') →
      proposal_step (mkProposalSystem ch prev sent received w)
        (mkProposalSystem ch' prev (sent ++ fetched [r]) received w')
  | proposal_receive ch prev sent received w prev' ch' w' :
      watch_changed ch = true →
      proposal_received (E := InternalError) prev ch w = (Ok (prev', ch'), w') →
      proposal_step (mkProposalSystem ch prev sent received w)
        (mkProposalSystem ch' prev' sent (received ++ [watch_borrow ch]) w')
  | proposal_other ch prev sent received w w' :
      upgrade_alerts w' = upgrade_alerts w →
      proposal_step (mkProposalSystem ch prev sent received w)
        (mkProposalSystem ch prev sent received w').

(** How often a sequence changes to a proposal ([0] stands for none). *)
Fixpoint new_proposals (previous : N) (values : list N) : nat :=
  match values with
  | [] => 0
  | v :: values =>
      (if negb (v =? 0)%N && negb (v =? previous)%N then 1 else 0) + new_proposals v values
  end.

Lemma new_proposals_snoc previous values v :
  new_proposals previous (values ++ [v]) = new_proposals previous values +
    (if negb (v =? 0)%N && negb (v =? default previous (last values))%N then 1 else 0).
Proof.
  revert previous. induction values as [|x values IH]; intros previous; simpl; [lia|].
  rewrite IH. assert (default x (last values) = default previous (last (x :: values))) as ->
    by (rewrite last_cons; by destruct (last values)). lia.
Qed.

Lemma quiet_proposal_round ch :
  keeps (quiet (λ _ _, True) PACKAGE_UPGRADE_COUNTER)
    (proposal_round (E := InternalError) self key_server_obj_id ch).
Proof.
  unfold proposal_round, updater_round, fetch_proposal_version, env_effect.
  assert (PreOrder (λ _ _ : Env, True)) as HP by done.
  keeps; by first [apply quiet_with_env|apply quiet_fetch_committee|
    apply quiet_fetch_upgrade_proposal].
Qed.

(** The values received are a selection from [v0] and the first part of those
    sent, and the rest of those sent is what the channel has still to show. *)
Definition proposal_inv (v0 : N) (alerts0 : nat) (s : ProposalSystem) : Prop :=
  ∃ values seen unseen, ps_received s = v0 :: values ∧
    ps_sent s = seen ++ unseen ∧ values `sublist_of` seen ∧
    upgrade_alerts (ps_world s) = alerts0 + new_proposals v0 values ∧
    default v0 (last values) = ps_last s ∧ default v0 (last seen) = ps_last s ∧
    (watch_changed (ps_chan s) = false ↔ unseen = []) ∧
    watch_borrow (ps_chan s) = default v0 (last (ps_sent s)).

Lemma received_sublist (values seen unseen : list N) (v0 : N) :
  values `sublist_of` seen → unseen ≠ [] →
  values ++ [default v0 (last (seen ++ unseen))] `sublist_of` seen ++ unseen.
Proof.
  intros Hsub Hne. destruct unseen as [|x unseen _] using rev_ind; [done|].
  rewrite app_assoc, last_snoc. cbn [default from_option id].
  apply sublist_app; [by apply sublist_inserts_r|done].
Qed.

Lemma proposal_inv_step v0 alerts0 s s' :
  proposal_inv v0 alerts0 s → proposal_step s s' → proposal_inv v0 alerts0 s'.
Proof.
  intros (values & seen & unseen & Hrec & Hsent & Hsub & Hal & Hl1 & Hl2 & Hc & Hb) Hs.
  destruct Hs as [ch prev sent received w r w1 ch' w' Hf Hr|ch prev sent received w prev' ch' w'
    Hch Hr|ch prev sent received w w' Hw]; unfold proposal_inv;
    cbn [ps_chan ps_last ps_sent ps_received ps_world] in *.
  - destruct (keeps_inv _ _ _ _ _ (quiet_proposal_round ch) Hr) as [Hq _].
    apply (updater_round_chan _ _ _ _ _ _ _ _ _ Hf) in Hr as ->.
    exists values, seen, (unseen ++ fetched [r]). rewrite Hsent, app_assoc, Hq.
    destruct r as [v|e]; cbn [fetched omap list_omap].
    + rewrite borrow_send, changed_send, last_snoc. split_and!; try done.
      split; [done|by intros []%app_nil].
    + rewrite !app_nil_r. by rewrite <-Hsent.
  - unfold proposal_received in Hr. st_inv Hr. apply st_ret_inv in Hr as [[= -> ->] <-].
    exists (values ++ [watch_borrow ch]), sent, []. rewrite app_nil_r.
    split_and!; [by rewrite Hrec| done| | |by rewrite last_snoc|by rewrite <-Hb| |].
    + rewrite Hb, Hsent. apply received_sublist; [done|].
      intros ->. destruct Hc as [_ Hc]. by rewrite Hc in Hch.
    + rewrite new_proposals_snoc, Hl1. destruct (negb _ && negb _).
      * apply alerts_record in Hstep. lia.
      * apply st_ret_inv in Hstep as [_ ->]. lia.
    + by rewrite changed_mark_seen.
    + by rewrite borrow_mark_seen.
  - exists values, seen, unseen. by rewrite Hw.
Qed.

(** C18: the alerts on upgrade proposals. The monitor receives the proposal
    that was current when it started and then, in order, some of those that
    the updater sent; values that were overwritten before it looked are lost,
    but the latest is never, so that after the last change was received, the
    monitor knows the latest. The counter has been incremented once for each
    change to a proposal in what it received. *)
Theorem upgrade_alerts_exact (ch0 : Chan) (w0 : World) (s : ProposalSystem) :
  watch_changed ch0 = false →
  rtc proposal_step
    (mkProposalSystem ch0 (watch_borrow ch0) [] [watch_borrow ch0] w0) s →
  (∃ values, ps_received s = watch_borrow ch0 :: values ∧
     values `sublist_of` ps_sent s ∧
     upgrade_alerts (ps_world s)
     = upgrade_alerts w0 + new_proposals (watch_borrow ch0) values) ∧
  last (ps_received s) = Some (ps_last s) ∧
  (watch_changed (ps_chan s) = false →
     last (watch_borrow ch0 :: ps_sent s) = Some (ps_last s)).
Proof.
  intros Hch0 Hr.
  assert (proposal_inv (watch_borrow ch0) (upgrade_alerts w0) s) as Hinv.
  { remember (mkProposalSystem _ _ _ _ _) as s0 eqn:E0.
    assert (proposal_inv (watch_borrow ch0) (upgrade_alerts w0) s0) as H0.
    { subst s0. exists [], [], []. cbn. rewrite Hch0. split_and!; try done; lia. }
    clear E0. revert H0. apply (rtc_invariant proposal_step); [|done].
    apply proposal_inv_step. }
  destruct Hinv as (values & seen & unseen & Hrec & Hsent & Hsub & Hal & Hl1 & Hl2 & Hc & Hb).
  rewrite Hrec. split_and!.
  - exists values. split_and!; [done| |done]. rewrite Hsent. by apply sublist_inserts_r.
  - rewrite last_cons, <-Hl1. by destruct (last values).
  - intros ->%Hc. rewrite Hsent, app_nil_r, last_cons, <-Hl2. by destruct (last seen).
Qed.
End proposals.

(** ** Rotation events *)

(** What the event service promises: the log of the events of a filter only
    grows, with distinct ids, and a successful query answers from it. *)
Class EventLog (Tx : Type) `{EventApi Tx} : Type :=
  event_log : EventFilter → Env → list (EventID * list byte).

(** The events after a cursor. *)
Inductive after_cursor `{EventApi Tx} (log : list (EventID * list byte)) :
    option EventID → list (EventID * list byte) → Prop :=
  | after_start : after_cursor log None log
  | after_event before id b rest :
      log = before ++ (id, b) :: rest → after_cursor log (Some id) rest.

Class EventLogLaws (Tx : Type) `{EventLog Tx} : Prop := {
  event_ids_distinct f e : NoDup (event_log f e).*1;
  query_latest f e page e' :
    query_events f None 1 true e = (inl page, e') → page = take 1 (reverse (event_log f e'));
  query_next f cursor e page e' rest :
    query_events f cursor 1 false e = (inl page, e') →
    after_cursor (event_log f e') cursor rest → page = take 1 rest;
  log_query f g c n d e : event_log f e `prefix_of` event_log f (query_events g c n d e).2;
  log_get_object f c n m e : event_log f e `prefix_of` event_log f (get_object_rpc c n m e).2;
  log_sleep f d e : event_log f e `prefix_of` event_log f (env_sleep d e);
  log_instant f e : event_log f e `prefix_of` event_log f (env_instant e).2;
}.

(** The specification: an alerter at a position of a log, of which only the
    length matters, that raises one alert for each event from the position at
    which it started. *)
Record Alerter : Type := mkAlerter {
  al_length : nat;
  al_position : option nat; (** [None] before it has started *)
  al_alerts : nat;
}.

Inductive alerter_step : Alerter → Alerter → Prop :=
  | alerter_grow n n' p a : n ≤ n' → alerter_step (mkAlerter n p a) (mkAlerter n' p a)
  | alerter_start n a : alerter_step (mkAlerter n None a) (mkAlerter n (Some n) a)
  | alerter_alert n p a :
      p < n → alerter_step (mkAlerter n (Some p) a) (mkAlerter n (Some (S p)) (S a)).

(** What the specification amounts to. *)
Lemma alerter_counts n0 a0 a :
  rtc alerter_step (mkAlerter n0 None a0) a →
  match al_position a with
  | None => al_alerts a = a0
  | Some p => ∃ start, n0 ≤ start ≤ p ∧ p ≤ al_length a ∧ al_alerts a = a0 + (p - start)
  end.
Proof.
  intros Ha.
  enough (n0 ≤ al_length a ∧ match al_position a with
    | None => al_alerts a = a0
    | Some p => ∃ start, n0 ≤ start ≤ p ∧ p ≤ al_length a ∧ al_alerts a = a0 + (p - start)
    end) by tauto.
  apply rtc_nsteps in Ha as [n Hn]. revert a Hn. induction n as [|n IH]; intros a Hn.
  { by inversion Hn; subst. }
  apply nsteps_inv_r in Hn as (a1 & Hn & Hs). specialize (IH a1 Hn).
  destruct Hs as [m m' p k Hm|m k|m p k Hp]; cbn in *; destruct IH as [Hle IH].
  - split; [lia|]. destruct p as [p|]; [|done]. destruct IH as (start & ? & ? & ?).
    exists start. lia.
  - split; [lia|]. exists m. lia.
  - split; [lia|]. destruct IH as (start & ? & ? & ?). exists start. lia.
Qed.

Section rotations.
  Context {I C K T : Type}.
  Abbreviation Tx := (TransactionProto I C K T).
  Context {node : FullNode Tx} {sui : SuiTypes} {sym : Symmetric} {crv : Curve}
    {bcs : BcsTypes} {profile : BuildProfile} {semver : SemVer} {mvr : MvrLib}
    {ptb_lib : PtbLib} {lib : ServerLib Tx} {events : EventApi Tx} {elog : EventLog Tx}
    {log_laws : EventLogLaws Tx}.
  Context (self : Server) (key_server_obj_id : Address) (f : EventFilter).

Abbreviation log w := (event_log f (w_env w)).
Abbreviation rotation_alerts := (alerts ROTATION_COUNTER).
Abbreviation grows := (quiet (λ e e', event_log f e `prefix_of` event_log f e') ROTATION_COUNTER).

(** The committees of the key server are of one package, whose rotation events
    have filter [f]. *)
Definition one_package : Prop :=
  ∀ w committee_id pkg w',
    fetch_committee_from_key_server (sui_rpc_client self) key_server_obj_id w
    = (Ok (committee_id, pkg), w') →
    move_event_type (address_to_string pkg +:+ "::seal_committee::CommitteeRotationInitiated")
    = Some f.

Definition decodable (ev : EventID * list byte) : Prop :=
  is_ok (decode_rotation_event ev.2) = true.

(** Rounds of the monitor between steps of other tasks. *)
Inductive rotation_step : EventMonitor * World → EventMonitor * World → Prop :=
  | rotation_round st w st' w' :
      rotation_event_round (E := InternalError) self key_server_obj_id st w = (Ok st', w') →
      rotation_step (st, w) (st', w')
  | rotation_other st w w' : grows w w' → rotation_step (st, w) (st, w').

(** The cursor is the event before position [p] of the log. *)
Definition cursor_at (l : list (EventID * list byte)) (cursor : option EventID) (p : nat) : Prop :=
  p ≤ length l ∧ after_cursor l cursor (drop p l).

Lemma cursor_grows l l' cursor p :
  l `prefix_of` l' → cursor_at l cursor p → cursor_at l' cursor p.
Proof.
  intros [k ->] [Hp Ha]. split; [rewrite length_app; lia|].
  rewrite drop_app_le by done. inversion Ha as [Hc Hd|before id b rest Hl Hc Hd].
  - assert (p = 0) as -> by (destruct p, l; simpl in *; try lia;
      apply (f_equal length) in Hd; rewrite length_drop in Hd; simpl in Hd; lia).
    rewrite drop_0. constructor.
  - apply (after_event _ before id b). by rewrite Hl at 1; rewrite <-app_assoc.
Qed.

Lemma cursor_next l cursor p id b rest :
  cursor_at l cursor p → drop p l = (id, b) :: rest → cursor_at l (Some id) (S p).
Proof.
  intros [Hp Ha] Hd.
  assert (p < length l) as Hlt by (apply (f_equal length) in Hd; rewrite length_drop in Hd;
    simpl in Hd; lia).
  split; [lia|]. assert (drop (S p) l = rest) as ->.
  { replace (S p) with (p + 1) by lia. by rewrite <-drop_drop, Hd. }
  apply (after_event _ (take p l) id b). by rewrite <-Hd, take_drop.
Qed.

Lemma cursor_latest l : cursor_at l (head (take 1 (reverse l)).*1) (length l).
Proof.
  split; [done|]. rewrite drop_all. destruct l as [|[id b] l _] using rev_ind; [constructor|].
  rewrite reverse_snoc. simpl. by apply (after_event _ l id b).
Qed.

(** The monitor implements the alerter. *)
Definition represents (s : EventMonitor * World) (a : Alerter) : Prop :=
  al_length a = length (log s.2) ∧ al_alerts a = rotation_alerts s.2 ∧
  match al_position a with
  | None => s.1 = event_monitor_start
  | Some p => initialized s.1 = true ∧ cursor_at (log s.2) (last_event_seq s.1) p
  end.

Lemma represents_grows st w w' a :
  represents (st, w) a → grows w w' →
  ∃ a', alerter_step a a' ∧ al_position a' = al_position a ∧ represents (st, w') a'.
Proof.
  intros (Hl & Ha & Hp) [Hq Hpre]. destruct a as [n p k]; cbn in *. subst.
  exists (mkAlerter (length (log w')) p (rotation_alerts w)). split_and!; [|done|].
  - constructor. by apply prefix_length.
  - unfold represents; cbn. split_and!; [done..|]. destruct p as [p|]; [|done].
    destruct Hp. split; [done|]. by eapply cursor_grows.
Qed.

#[local] Instance log_preorder : PreOrder (λ e e', event_log f e `prefix_of` event_log f e').
Proof. split; [by intros e|]. intros e1 e2 e3 H1 H2. by etrans. Qed.

Lemma grows_fetch w r w' :
  st_try (F := InternalError)
    (fetch_committee_from_key_server (sui_rpc_client self) key_server_obj_id) w = (r, w') →
  grows w w'.
Proof.
  apply keeps_inv, keeps_try, quiet_fetch_committee; [apply _|intros; apply log_get_object|
    intros; apply log_sleep|intros; apply log_instant].
Qed.

Lemma grows_query cursor desc w r w' :
  with_env (E := InternalError) (query_events f cursor 1 desc) w = (r, w') → grows w w'.
Proof. apply keeps_inv, quiet_with_env. intros. apply log_query. Qed.

Lemma grows_sleep w r w' :
  env_effect (E := InternalError) (env_sleep THIRTY_SECONDS) w = (r, w') → grows w w'.
Proof. apply keeps_inv, quiet_with_env. intros. apply log_sleep. Qed.

(** A page of the next event, if there is one, is handled by one alert. *)
Lemma represents_event st w a page :
  Forall decodable page → represents (st, w) a → initialized st = true →
  (∀ rest, after_cursor (log w) (last_event_seq st) rest → page = take 1 rest) →
  ∃ last' w' p, handle_events (E := InternalError) page (last_event_seq st) w = (Ok last', w') ∧
    al_position a = Some p ∧
    let a' := if p <? al_length a then mkAlerter (al_length a) (Some (S p)) (S (al_alerts a))
              else a in
    rtc alerter_step a a' ∧ represents (mkEventMonitor last' true, w') a'.
Proof.
  intros Hdec (Hl & Ha & Hp) Hi Hpage. destruct a as [n p k]; cbn in Hl, Ha, Hp. subst.
  cbn [al_length al_position al_alerts].
  destruct p as [p|]; [|by rewrite Hp in Hi]. destruct Hp as [_ Hc].
  specialize (Hpage _ (proj2 Hc)).
  destruct (drop p (log w)) as [|[id b] rest] eqn:Hd; cbn in Hpage; subst page.
  { eexists _, _, p. split; [reflexivity|]. split; [done|]. cbv zeta.
    rewrite (proj2 (Nat.ltb_ge _ _)) by (apply (f_equal length) in Hd;
      rewrite length_drop in Hd; simpl in Hd; lia).
    split; [done|]. unfold represents; cbn. eauto. }
  assert (p < length (log w)) as Hlt.
  { apply (f_equal length) in Hd. rewrite length_drop in Hd. simpl in Hd. lia. }
  assert (is_ok (decode_rotation_event b) = true) as Hb.
  { by apply Forall_cons_1 in Hdec as [Hb _]. }
  cbn [handle_events]. destruct (decode_rotation_event b) as [ev| |]; [|discriminate Hb..].
  eexists (Some id), _, p. split; [reflexivity|]. split; [done|]. cbv zeta.
  rewrite (proj2 (Nat.ltb_lt _ _)) by done.
  split; [by apply rtc_once, alerter_alert|]. split; [done|]. split; [|].
  - symmetry. by eapply (alerts_record (E := InternalError) ROTATION_COUNTER w).
  - split; [done|]. by eapply cursor_next.
Qed.

Lemma handled_decodable page last w last' w' :
  handle_events (E := InternalError) page last w = (Ok last', w') → Forall decodable page.
Proof.
  revert last w. induction page as [|[id b] page IH]; intros last w H; [constructor|].
  cbn [handle_events] in H. do 2 st_inv H. apply st_lift_inv in Hstep as [Hb ->].
  constructor; [|by eapply IH]. unfold decodable. cbn.
  by destruct (decode_rotation_event b).
Qed.

Lemma represents_step s s' a :
  one_package → represents s a → rotation_step s s' →
  ∃ a', rtc alerter_step a a' ∧ represents s' a'.
Proof.
  intros Hone Hr Hs. destruct Hs as [st w st' w' H|st w w' Hg].
  2: { destruct (represents_grows _ _ _ _ Hr Hg) as (a' & ? & _ & ?). exists a'.
       by split; [apply rtc_once|]. }
  unfold rotation_event_round in H. st_inv H. rename a0 into fetched0.
  pose proof (grows_fetch _ _ _ Hstep) as Hg.
  destruct (represents_grows _ _ _ _ Hr Hg) as (a1 & Ha1 & Hpos1 & Hr1).
  destruct fetched0 as [[committee_id pkg]|e].
  2: { st_inv H. apply st_ret_inv in H as [-> <-]. apply grows_sleep in Hstep0.
       destruct (represents_grows _ _ _ _ Hr1 Hstep0) as (a2 & Ha2 & _ & Hr2).
       exists a2. split; [|done]. eapply rtc_l; [done|]. by apply rtc_once. }
  st_inv H. apply st_lift_inv in Hstep0 as [Hf ->].
  assert (a0 = f) as ->.
  { unfold st_try in Hstep. destruct (fetch_committee_from_key_server _ _ w) as [[[]| |] ?] eqn:E;
      try done. injection Hstep as -> -> ->. apply Hone in E. rewrite E in Hf. by injection Hf. }
  destruct (negb (initialized st)) eqn:Hi.
  - do 2 st_inv H. apply st_ret_inv in H as [-> <-]. apply negb_true_iff in Hi.
    destruct a1 as [n p k]. assert (p = None) as ->.
    { destruct p; [|done]. destruct Hr1 as (_ & _ & Hi' & _). cbn in Hi'. congruence. }
    destruct (with_env_inv _ _ _ _ Hstep0) as (e' & Hq & Hw2).
    pose proof (grows_query _ _ _ _ _ Hstep0) as Hg2. apply grows_sleep in Hstep1 as Hg3.
    destruct (represents_grows _ _ _ _ Hr1 Hg2) as ([n2 p2 k2] & Ha2 & Hp2 & Hr2).
    cbn in Hp2. subst p2. destruct a0 as [page|e].
    + assert (represents (mkEventMonitor (head page.*1) true, w1)
        (mkAlerter n2 (Some n2) k2)) as Hr3.
      { destruct Hr2 as (Hl & Ha & _). unfold represents; cbn in *. subst n2 k2.
        split_and!; [done..|]. apply query_latest in Hq as ->. rewrite <-Hw2. apply cursor_latest. }
      destruct (represents_grows _ _ _ _ Hr3 Hg3) as (a3 & Ha3 & _ & Hr4). exists a3.
      split; [|done]. eapply rtc_l; [done|]. eapply rtc_l; [done|].
      eapply rtc_l; [apply alerter_start|]. by apply rtc_once.
    + destruct (represents_grows _ _ _ _ Hr2 Hg3) as (a3 & Ha3 & _ & Hr4). exists a3.
      split; [|done]. eapply rtc_l; [done|]. eapply rtc_l; [done|]. by apply rtc_once.
  - do 3 st_inv H. apply st_ret_inv in H as [-> <-]. apply negb_false_iff in Hi.
    destruct (with_env_inv _ _ _ _ Hstep0) as (e' & Hq & Hw2).
    pose proof (grows_query _ _ _ _ _ Hstep0) as Hg2. apply grows_sleep in Hstep2 as Hg3.
    destruct (represents_grows _ _ _ _ Hr1 Hg2) as (b2 & Ha2 & _ & Hr2).
    assert (∃ b3, rtc alerter_step b2 b3 ∧ represents (a2, w2) b3) as (b3 & Ha3 & Hr3).
    { destruct a0 as [page|e].
      - rewrite Hi in Hstep1.
        destruct (st_bind_inv _ _ _ _ _ Hstep1) as (last & w4 & Hhandled & _).
        destruct (represents_event st w1 b2 page (handled_decodable _ _ _ _ _ Hhandled) Hr2 Hi) as (l & w3 & p & Hh & _ & Hst & Hr3).
        { intros rest Hrest. rewrite <-Hw2 in *. by eapply query_next. }
        unfold mbind, st_bind in Hstep1. rewrite Hh in Hstep1. injection Hstep1 as <- <-. by eexists.
      - apply st_ret_inv in Hstep1 as [-> <-]. by exists b2. }
    destruct (represents_grows _ _ _ _ Hr3 Hg3) as (b4 & Ha5 & _ & Hr4). exists b4.
    split; [|done]. eapply rtc_l; [done|]. eapply rtc_l; [done|].
    etrans; [done|]. by apply rtc_once.
Qed.

(** C19: the monitor of rotation events refines the alerter, when the
    committees of the key server are all of one package, whose rotation events
    are those of the log. Whatever else the full node answers, errors included, and whatever
    the other tasks do, a run of the monitor, as long as it does not panic, is
    a run of the specification: it starts at the end of the log of rotation
    events that some query found, and has from there on raised exactly one
    alert for each event up to its cursor, none twice and none skipped. *)
Theorem rotation_monitor_refines (w0 : World) (s : EventMonitor * World) :
  one_package → rtc rotation_step (event_monitor_start, w0) s →
  ∃ a, rtc alerter_step (mkAlerter (length (log w0)) None (rotation_alerts w0)) a ∧
    represents s a ∧
    match al_position a with
    | None => rotation_alerts s.2 = rotation_alerts w0
    | Some p => ∃ start, length (log w0) ≤ start ≤ p ∧ p ≤ length (log s.2) ∧
        rotation_alerts s.2 = rotation_alerts w0 + (p - start)
    end.
Proof.
  intros Hone Hs.
  assert (∃ a, rtc alerter_step (mkAlerter (length (log w0)) None (rotation_alerts w0)) a ∧
    represents s a) as (a & Ha & Hr).
  { apply rtc_nsteps in Hs as [n Hn]. revert s Hn. induction n as [|n IH]; intros s Hn.
    { inversion Hn; subst. eexists. split; [done|]. by split_and!. }
    apply nsteps_inv_r in Hn as (s1 & Hn & Hs). destruct (IH s1 Hn) as (a1 & Ha1 & Hr1).
    destruct (represents_step _ _ _ Hone Hr1 Hs) as (a2 & Ha2 & Hr2).
    exists a2. split; [by etrans|done]. }
  exists a. split_and!; [done..|]. apply alerter_counts in Ha. destruct Hr as (<- & <- & _).
  by destruct (al_position a).
Qed.

(** The full node answers every call of the monitor, with events that decode. *)
Definition available : Prop :=
  (∀ w, ∃ r w', fetch_committee_from_key_server (sui_rpc_client self) key_server_obj_id w
                = (Ok r, w')) ∧
  (∀ cursor e, ∃ page e', query_events f cursor 1 false e = (inl page, e') ∧
     Forall decodable page).

Fixpoint rounds (n : nat) (st : EventMonitor) : M InternalError EventMonitor :=
  match n with
  | O => mret st
  | S n => st ← rotation_event_round self key_server_obj_id st; rounds n st
  end.

Lemma round_progress st w a p :
  one_package → available → represents (st, w) a → al_position a = Some p →
  p < al_length a →
  ∃ st' w' a', rotation_event_round (E := InternalError) self key_server_obj_id st w
               = (Ok st', w') ∧
    represents (st', w') a' ∧ al_position a' = Some (S p) ∧ al_length a ≤ al_length a' ∧
    al_alerts a' = S (al_alerts a).
Proof.
  intros Hone [Hf Hq] Hr Hp Hlt. destruct (Hf w) as ([committee_id pkg] & w1 & Hw1).
  assert (st_try (F := InternalError) (fetch_committee_from_key_server (sui_rpc_client self)
    key_server_obj_id) w = (Ok (inl (committee_id, pkg)), w1)) as Htry
    by (unfold st_try; by rewrite Hw1).
  destruct (represents_grows _ _ _ _ Hr (grows_fetch _ _ _ Htry)) as (a1 & Hs1 & Hp1 & Hr1).
  pose proof (Hone _ _ _ _ Hw1) as Hfilter.
  assert (initialized st = true) as Hi.
  { destruct Hr as (_ & _ & Hi). rewrite Hp in Hi. by destruct Hi. }
  destruct (Hq (last_event_seq st) (w_env w1)) as (page & e2 & He2 & Hdec).
  set (w2 := mkWorld e2 (w_metrics w1) (w_package_id_cache w1) (w_mvr_cache w1)).
  assert (with_env (E := InternalError) (query_events f (last_event_seq st) 1 false) w1
    = (Ok (inl page), w2)) as Hquery by (unfold with_env; by rewrite He2).
  destruct (represents_grows _ _ _ _ Hr1 (grows_query _ _ _ _ _ Hquery)) as (a2 & Hs2 & Hp2 & Hr2).
  destruct (represents_event st w2 a2 page) as (l & w3 & p' & Hh & Hp' & _ & Hr3); try done.
  { intros rest Hrest. by eapply query_next. }
  assert (p' = p) as -> by congruence.
  assert (al_length a ≤ al_length a1 ∧ al_length a1 ≤ al_length a2 ∧
    al_alerts a2 = al_alerts a) as (Hl1 & Hl2 & Hal).
  { inversion Hs1; inversion Hs2; subst; simpl in *; simplify_eq; lia. }
  rewrite (proj2 (Nat.ltb_lt _ _)) in Hr3 by lia.
  destruct (env_effect (E := InternalError) (env_sleep THIRTY_SECONDS) w3) as [[[]| |] w4] eqn:Hsl;
    [|done..].
  destruct (represents_grows _ _ _ _ Hr3 (grows_sleep _ _ _ Hsl)) as (a4 & Hs4 & Hp4 & Hr4).
  exists (mkEventMonitor l true), w4, a4. split; [|split; [done|]].
  - unfold rotation_event_round. rewrite (st_bind_ok _ _ _ _ _ Htry).
    assert (st_lift (S := World) (E := InternalError) (expect (move_event_type
      (address_to_string pkg +:+ "::seal_committee::CommitteeRotationInitiated"))) w1 = (Ok f, w1))
      as Hlift by (unfold st_lift; by rewrite Hfilter).
    rewrite (st_bind_ok _ _ _ _ _ Hlift), Hi. cbn [negb].
    rewrite (st_bind_ok _ _ _ _ _ Hquery). cbv beta iota.
    unfold mbind, st_bind. rewrite Hh. unfold mret, st_ret. by rewrite Hsl.
  - rewrite Hp4. cbn [al_position]. split; [done|].
    inversion Hs4; subst; simpl in *; simplify_eq; lia.
Qed.

(** Every rotation event is alerted. From any state that a run can be in,
    when the full node answers, the monitor does not panic and every round
    handles an event until none is left that was in the log: the [d] rounds for
    [d] events after the cursor raise [d] alerts. *)
Theorem rotation_events_alerted (st : EventMonitor) (w : World) (n p k d : nat) :
  one_package → available → represents (st, w) (mkAlerter n (Some p) k) → d ≤ n - p →
  ∃ st' w' a', rounds d st w = (Ok st', w') ∧ represents (st', w') a' ∧
    al_position a' = Some (p + d) ∧ rotation_alerts w' = k + d.
Proof.
  intros Hone Hav. revert st w n p k. induction d as [|d IH]; intros st w n p k Hr Hd;
    cbn [rounds].
  { exists st, w, (mkAlerter n (Some p) k). destruct (Hr) as (_ & Hk & _). cbn in *.
    rewrite <-Hk, !Nat.add_0_r. by split_and!. }
  destruct (round_progress _ _ _ p Hone Hav Hr) as (st1 & w1 & [n1 p1 k1] & Hround & Hr1 & Hp1 & Hn1
    & Hk1); [done|simpl; lia|]. cbn in Hp1, Hn1, Hk1. subst p1 k1.
  destruct (IH st1 w1 n1 (S p) (S k) Hr1) as (st2 & w2 & a2 & Hrs & Hr2 & Hp2 & Hk2); [lia|].
  exists st2, w2, a2. rewrite (st_bind_ok _ _ _ _ _ Hround). split_and!; [done..| |].
  - rewrite Hp2. f_equal. lia.
  - lia.
Qed.
End rotations.

(** ** Witnesses *)
#[local] Existing Instances Toy.symmetric Toy.curve ToyCommon.semver ToyCommon.profile ToyChain.sui
  ToyMonitors.node ToyMonitors.bcs ToyMonitors.watch ToyMonitors.watch_laws ToyMonitors.timer
  ToyMonitors.lib ToyMonitors.events ToyServer.mvr ToyServer.ptb_lib.

#[local] Instance toy_log : EventLog ToyMonitors.ToyTx := λ _ e, ToyMonitors.log e.

Lemma toy_log_length n : length (ToyMonitors.log n) = n.
Proof. unfold ToyMonitors.log. by rewrite length_fmap, length_seq. Qed.

#[local] Instance toy_log_laws : EventLogLaws ToyMonitors.ToyTx.
Proof.
  split; unfold event_log, toy_log.
  - intros _ e. unfold ToyMonitors.log. rewrite <-list_fmap_compose.
    rewrite (list_fmap_ext _ id), list_fmap_id; [apply NoDup_seq|done].
  - by intros _ e page e' [= <- <-].
  - intros _ cursor e page e' rest [= <- <-] Hc. do 2 f_equal.
    inversion Hc as [Hcur Hd|before id b rest' Hl Hcur Hd]; [done|]. subst rest'.
    assert (ToyMonitors.log e !! length before = Some (id, b)) as Hlook
      by (rewrite Hl; by apply list_lookup_middle).
    unfold ToyMonitors.log in Hlook. rewrite list_lookup_fmap in Hlook.
    destruct (seq 0 e !! length before) as [i|] eqn:Hs; [|done].
    apply lookup_seq in Hs as [-> _]. injection Hlook as <- <-.
    change (drop (S (length before)) (ToyMonitors.log e) = rest).
    rewrite Hl, cons_middle, app_assoc. apply drop_app_length'. rewrite length_app. simpl. lia.
  - done.
  - done.
  - intros _ d e. change (ToyMonitors.log e `prefix_of` ToyMonitors.log (S e)).
    unfold ToyMonitors.log. rewrite seq_S, fmap_app. by apply prefix_app_r.
  - done.
Defined.

(** The updater has found a proposal, and the monitor has received it. *)
Definition toy_proposals : ProposalSystem :=
  match proposal_round (E := InternalError) ToyMonitors.server [Byte.x77] (watch_channel 0)
          ToyMonitors.world with
  | (Ok ch, w) =>
      match proposal_received (E := InternalError) 0 ch w with
      | (Ok (last, ch'), w') => mkProposalSystem ch' last [3%N] [0%N; watch_borrow ch] w'
      | _ => mkProposalSystem (watch_channel 0) 0 [] [0%N] ToyMonitors.world
      end
  | _ => mkProposalSystem (watch_channel 0) 0 [] [0%N] ToyMonitors.world
  end.

Lemma toy_proposals_reached :
  rtc (proposal_step ToyMonitors.server [Byte.x77])
    (mkProposalSystem (watch_channel 0) 0 [] [0%N] ToyMonitors.world) toy_proposals.
Proof.
  unfold toy_proposals.
  assert ((st_try (F := InternalError) (fetch_proposal_version ToyMonitors.server [Byte.x77])
    ToyMonitors.world).1 = Ok (inl 3%N)) as Hf by (vm_compute; reflexivity).
  destruct (st_try _ _) as [r w1] eqn:Hfetch. change (r = Ok (inl 3%N)) in Hf. subst r.
  destruct (proposal_round _ _ _ _) as [[ch| |] w] eqn:Hr; [|done..].
  pose proof Hr as Hch. unfold proposal_round in Hch.
  apply (updater_round_chan _ _ _ _ _ _ _ _ _ Hfetch) in Hch.
  destruct (proposal_received 0 ch w) as [[[last ch']| |] w'] eqn:Hrec; [|done..].
  eapply rtc_l; [eapply proposal_update; [exact Hfetch|exact Hr]|].
  apply rtc_once. apply (proposal_receive _ _ _ _ [3%N] [0%N]); [|done].
  by rewrite Hch, changed_send.
Qed.

Lemma upgrade_alerts_exact_witness :
  ps_last toy_proposals = 3%N ∧
  alerts PACKAGE_UPGRADE_COUNTER (ps_world toy_proposals) = 1.
Proof.
  assert (ps_last toy_proposals = 3%N) as Hlast by (vm_compute; reflexivity).
  assert (ps_received toy_proposals = [0; 3]%N) as Hrec by (vm_compute; reflexivity).
  split; [exact Hlast|].
  destruct (upgrade_alerts_exact ToyMonitors.server [Byte.x77] (watch_channel 0) ToyMonitors.world
    toy_proposals) as [(values & Hv & _ & Ha) _].
  - reflexivity.
  - exact toy_proposals_reached.
  - rewrite Hrec in Hv. injection Hv as <-. exact Ha.
Defined.

Definition toy_filter : EventFilter (EventApi := ToyMonitors.events) := tt.

Lemma toy_one_package : one_package ToyMonitors.server [Byte.x77] toy_filter.
Proof. done. Qed.

Definition toy_monitor : EventMonitor (events := ToyMonitors.events) :=
  ltac:(exact (mkEventMonitor (Some 0) true)).

Lemma toy_represents :
  represents toy_filter (toy_monitor, ToyMonitors.world) (mkAlerter 3 (Some 1) 0).
Proof.
  split; [done|]. split; [done|]. split; [done|]. split; [vm_compute; lia|].
  change (after_cursor (Tx := ToyMonitors.ToyTx) (ToyMonitors.log 3) (Some 0)
    (drop 1 (ToyMonitors.log 3))).
  exact (@after_event ToyMonitors.ToyTx ToyMonitors.node ToyMonitors.events _ [] 0 [] _ eq_refl).
Qed.

(** Two rounds from the start: the first finds the end of the log, and an
    event comes in while it sleeps; the second alerts it. *)
Definition toy_rounds : EventMonitor (events := ToyMonitors.events) * World :=
  match rounds ToyMonitors.server [Byte.x77] 2 event_monitor_start ToyMonitors.world with
  | (Ok st, w) => (st, w)
  | _ => (event_monitor_start, ToyMonitors.world)
  end.

Lemma rounds_steps n st w st' w' :
  rounds ToyMonitors.server [Byte.x77] n st w = (Ok st', w') →
  rtc (rotation_step ToyMonitors.server [Byte.x77] toy_filter) (st, w) (st', w').
Proof.
  revert st w. induction n as [|n IH]; intros st w H; cbn [rounds] in H.
  { apply st_ret_inv in H as [-> ->]. reflexivity. }
  apply st_bind_inv in H as (st1 & w1 & H1 & H). eapply rtc_l; [by apply rotation_round|].
  by apply IH.
Qed.

Lemma rotation_monitor_refines_witness :
  ∃ a, rtc alerter_step (mkAlerter 3 None 0) a ∧ represents toy_filter toy_rounds a ∧
    is_Some (al_position a) ∧ al_alerts a = 1.
Proof.
  assert (rtc (rotation_step ToyMonitors.server [Byte.x77] toy_filter)
    (event_monitor_start, ToyMonitors.world) toy_rounds) as Hrun.
  { unfold toy_rounds. destruct (rounds _ _ _ _ _) as [[st| |] w] eqn:Hr; [|done..].
    by eapply rounds_steps. }
  destruct (rotation_monitor_refines ToyMonitors.server [Byte.x77] toy_filter ToyMonitors.world
    toy_rounds toy_one_package Hrun) as (a & Ha & Hr & Hp).
  assert (alerts ROTATION_COUNTER toy_rounds.2 = 1) as Hone by (vm_compute; reflexivity).
  assert (alerts ROTATION_COUNTER ToyMonitors.world = 0) as Hzero by (vm_compute; reflexivity).
  exists a. split; [exact Ha|]. split; [exact Hr|]. split.
  - destruct (al_position a) as [p|]; [by exists p|].
    rewrite Hone in Hp. by rewrite Hzero in Hp.
  - destruct Hr as (_ & Hal & _). by rewrite Hal.
Defined.

Lemma rotation_events_alerted_witness :
  ∃ st w, rounds ToyMonitors.server [Byte.x77] 2 toy_monitor ToyMonitors.world
    = (Ok st, w) ∧ alerts ROTATION_COUNTER w = 2.
Proof.
  destruct (rotation_events_alerted ToyMonitors.server [Byte.x77] toy_filter toy_monitor
    ToyMonitors.world 3 1 0 2) as (st & w & a & Hr & _ & _ & Ha).
  - exact toy_one_package.
  - split; [|intros cursor e; eexists _, e; split; [done|by apply Forall_true]].
    intros [e m c1 c2]. eexists _, _. vm_compute. reflexivity.
  - exact toy_represents.
  - lia.
  - exists st, w. split; [exact Hr|exact Ha].
Defined.
