(* ===== verification/Proxy.v ===== *)
(** * The metrics proxy ([crates/seal-proxy])

    Key servers push their metrics to the proxy, which authenticates them by
    bearer token, adds labels, forwards counters and gauges to Mimir
    ([consumer.rs], [prom_to_mimir.rs], [remote_write.rs]) and keeps the
    histograms for a local agent to scrape ([histogram_relay.rs]).
    The histograms of latencies that the code records are left out. *)

From Stdlib Require Import NArith ZArith Lia Ascii.
From stdpp Require Import sorting.
From S2P Require Import Prelude Primitives.

(** ** Metrics in the Prometheus format

    What the code reads and writes of the protobuf types of the [prometheus]
    crate. Values ([f64]), histograms and summaries are only moved. *)
Class MetricValues : Type := {
  F64 : Type;
  f64_zero : F64;
  f64_positive : F64 → bool; (** [> 0.0] *)
  f64_to_string : F64 → string;
  HistogramProto : Type;
  SummaryProto : Type;
}.

Record LabelPair : Type := mkLabelPair { lp_name : string; lp_value : string }.

#[export] Instance LabelPair_eq_dec : EqDecision LabelPair.
Proof. solve_decision. Defined.

Inductive MetricType : Type := COUNTER | GAUGE | SUMMARY | UNTYPED | HISTOGRAM.

Section protos.
  Context {values : MetricValues}.

Record MetricProto : Type := mkMetricProto {
  m_label : list LabelPair;
  m_gauge : option F64;
  m_counter : option F64;
  m_summary : option SummaryProto;
  m_untyped : option F64;
  m_histogram : option HistogramProto;
  m_timestamp_ms : Z;
}.

Record MetricFamily : Type := mkMetricFamily {
  mf_name : string;
  mf_help : string;
  mf_type : MetricType;
  mf_metric : list MetricProto;
}.

Definition mf_set_metric (mf : MetricFamily) (metric : list MetricProto) : MetricFamily :=
  mkMetricFamily (mf_name mf) (mf_help mf) (mf_type mf) metric.

(** ** The remote-write format ([remote_write.rs]) *)
Record Sample : Type := mkSample { sample_value : F64; sample_timestamp : Z }.

Record TimeSeries : Type := mkTimeSeries {
  ts_labels : list LabelPair;
  ts_samples : list Sample;
}.

Record WriteRequest : Type := mkWriteRequest { timeseries : list TimeSeries }.
End protos.

(** ** Configuration ([config.rs]) *)
Record RemoteWriteConfig : Type := mkRemoteWriteConfig {
  rw_url : string;
  rw_username : string;
  rw_password : string;
  rw_pool_max_idle_per_host : N;
}.

(** [LabelActions], by modifier. *)
Record LabelActions : Type := mkLabelActions {
  actions_add : option (gmap string string);
  actions_remove : option (gmap string string);
}.

Record ProxyConfig : Type := mkProxyConfig {
  pc_pool_max_idle_per_host : N;
  pc_label_actions : LabelActions;
  pc_remote_write : RemoteWriteConfig;
  pc_listen_address : string;
  pc_metrics_address : string;
  pc_histogram_address : string;
}.

Definition pool_max_idle_per_host_default : N := 8.
Definition listen_address_default : string := "0.0.0.0:8000".
Definition metrics_address_default : string := "0.0.0.0:9185".
Definition histogram_address_default : string := "0.0.0.0:8001".
Definition default_label_actions : LabelActions := mkLabelActions None None.

Record BearerTokenConfigItem : Type := mkBearerTokenConfigItem { bt_token : string; bt_name : string }.

(** ** Bearer tokens ([providers/seal/provider.rs]) *)
Definition BearerTokenProvider : Type := gmap string string.

Definition provider_new (config : list BearerTokenConfigItem) : BearerTokenProvider :=
  hashmap_collect ((λ item, (bt_token item, bt_name item)) <$> config).

Definition get_bearer_token_owner_name (self : BearerTokenProvider) (token : string) :
    option string := self !! token.

Definition allowed (self : BearerTokenProvider) (token : string) : bool * string :=
  match self !! token with
  | Some name => (true, name)
  | None => (false, "")
  end.

(** ** Labels ([consumer.rs]) *)
Section labels.
  Context {values : MetricValues} {order : HashOrder}.

Record MetricFamilyWithStaticLabels : Type := mkMetricFamilyWithStaticLabels {
  static_labels : option (list LabelPair);
  metric_families : list MetricFamily;
}.

(** The pairs that are appended to every metric. *)
Definition label_pairs (node_name : string) (label_actions : LabelActions)
    (labels : option (list LabelPair)) (client_ip : string) : list LabelPair :=
  let to_add_labels :=
    match actions_add label_actions with
    | Some add_labels =>
        (λ '(name, value), mkLabelPair name value) <$> hash_order (map_to_list add_labels)
    | None => []
    end in
  to_add_labels
    ++ List.filter (λ label, negb (existsb (λ l, bool_decide (lp_name l = lp_name label)) to_add_labels))
         (default [] labels)
    ++ [mkLabelPair "node_name" node_name; mkLabelPair "client_ip" client_ip].

Definition label_metric (pairs : list LabelPair) (to_remove_labels : option (gmap string string))
    (m : MetricProto) : MetricProto :=
  let label := List.filter (λ label,
      match to_remove_labels with
      | Some remove_labels => negb (bool_decide (is_Some (remove_labels !! lp_name label)))
      | None => true
      end) (m_label m ++ pairs) in
  mkMetricProto label (m_gauge m) (m_counter m) (m_summary m) (m_untyped m) (m_histogram m)
    (m_timestamp_ms m).

Definition populate_labels (node_name : string) (label_actions : LabelActions)
    (data : MetricFamilyWithStaticLabels) (client_ip : string) : list MetricFamily :=
  let pairs := label_pairs node_name label_actions (static_labels data) client_ip in
  (λ mf, mf_set_metric mf
     (label_metric pairs (actions_remove label_actions) <$> mf_metric mf))
    <$> metric_families data.

(** ** Conversion to remote-write requests ([prom_to_mimir.rs]) *)

(** The order of pairs of strings, bytewise. *)
Definition label_le (a b : LabelPair) : Prop :=
  match String.compare (lp_name a) (lp_name b) with
  | Lt => True
  | Eq => String.compare (lp_value a) (lp_value b) ≠ Gt
  | Gt => False
  end.

#[export] Instance label_le_dec : RelDecision label_le.
Proof. intros a b. unfold label_le. destruct (String.compare _ _); apply _. Defined.

Definition mimir_labels (m : MetricProto) : list LabelPair := merge_sort label_le (m_label m).

Definition mimir_timeseries (mf : MetricFamily) : list TimeSeries :=
  (λ metric,
     let labels := mkLabelPair "__name__" (mf_name mf) :: mimir_labels metric in
     let sample value := mkSample value (m_timestamp_ms metric) in
     let samples :=
       match m_counter metric with
       | Some c => [sample c]
       | None =>
           match m_gauge metric with
           | Some g => [sample g]
           | None => []
           end
       end in
     mkTimeSeries labels samples) <$> mf_metric mf.

Definition supported (mt : MetricType) : bool :=
  match mt with COUNTER | GAUGE => true | SUMMARY | UNTYPED | HISTOGRAM => false end.

(** [Itertools::chunks] of a size that is not zero; the fuel is the length. *)
Fixpoint chunks {A : Type} (fuel size : nat) (l : list A) : list (list A) :=
  match fuel with
  | O => []
  | S fuel =>
      match l with
      | [] => []
      | _ => take size l :: chunks fuel size (drop size l)
      end
  end.

(** [size] is [MIMIR_MAX_SAMPLE_SIZE]; [chunks(0)] panics. *)
Definition mimir_write_requests {E : Type} (size : nat) (mfs : list MetricFamily) :
    outcome E (list WriteRequest) :=
  let series := mfs ≫= λ mf, if supported (mf_type mf) then mimir_timeseries mf else [] in
  if size =? 0 then Panic
  else Ok (mkWriteRequest <$> chunks (length series) size series).
End labels.

(** ** The histogram relay ([histogram_relay.rs]) *)
Inductive ProxyMetric : Type :=
  | PInc (name : string) (labels : list string)
  | PIncBy (name : string) (labels : list string) (amount : nat).

(** The environment: the clock in seconds, and Mimir. *)
Class ProxyNode `{MetricValues} : Type := {
  PEnv : Type;
  penv_now_secs : PEnv → Z * PEnv;
  (** an environment variable, parsed as a number *)
  number_var : string → option (option Z);
  (** [TextEncoder::encode_to_string] *)
  encode_text : list MetricFamily → string + string;
  (** [WriteRequest::encode] and the snappy encoder *)
  encode_write_request : WriteRequest → option (list byte);
  snappy_compress : list byte → list byte + string;
  (** the post of a compressed request to Mimir: status and body, the body
      [None] when it cannot be decoded; or no response *)
  post_mimir : RemoteWriteConfig → list byte → PEnv → option (N * option string) * PEnv;
}.

Section relay.
  Context {values : MetricValues} {order : HashOrder} {pnode : ProxyNode}.

Record ProxyState : Type := mkProxyState {
  px_env : PEnv;
  px_queue : list (Z * list MetricFamily); (** the relay, oldest first *)
  px_metrics : list ProxyMetric;           (** latest first *)
}.

Definition PM (E A : Type) : Type := ST ProxyState E A.

Definition penv {A E : Type} (f : PEnv → A * PEnv) : PM E A :=
  λ s, let '(a, env) := f (px_env s) in (Ok a, mkProxyState env (px_queue s) (px_metrics s)).

Definition pmetric {E : Type} (m : ProxyMetric) : PM E unit :=
  st_modify (λ s, mkProxyState (px_env s) (px_queue s) (m :: px_metrics s)).

Definition set_queue {E : Type} (q : list (Z * list MetricFamily)) : PM E unit :=
  st_modify (λ s, mkProxyState (px_env s) q (px_metrics s)).

(** [var!(key, default)]: a value that does not parse panics. *)
Definition var {E : Type} (key : string) (dflt : Z) : outcome E Z :=
  match number_var key with
  | Some (Some v) => Ok v
  | Some None => Panic
  | None => Ok dflt
  end.

Definition only_histogram (m : MetricProto) : option MetricProto :=
  match m_histogram m with
  | Some h => Some (mkMetricProto (m_label m) None None None None (Some h) (m_timestamp_ms m))
  | None => None
  end.

Definition extract_histograms (data : list MetricFamily) : list MetricFamily :=
  omap (λ mf,
    match omap only_histogram (mf_metric mf) with
    | [] => None
    | only_histograms => Some (mkMetricFamily (mf_name mf) (mf_help mf) (mf_type mf) only_histograms)
    end) data.

Definition RELAY_PRESSURE : string := "relay_pressure".

(** [VecDeque::retain] with its counter. *)
Fixpoint retain_recent {E : Type} (timestamp_secs : Z) (queue : list (Z * list MetricFamily)) :
    PM E (list (Z * list MetricFamily)) :=
  match queue with
  | [] => mret []
  | v :: queue =>
      max ← st_lift (var "MAX_QUEUE_TIME_SECS" 300);
      if (timestamp_secs - v.1 <? max)%Z then
        queue ← retain_recent timestamp_secs queue; mret (v :: queue)
      else
        _ ← pmetric (PInc RELAY_PRESSURE ["overflow"]);
        retain_recent timestamp_secs queue
  end.

Definition submit {E : Type} (data : list MetricFamily) : PM E unit :=
  _ ← pmetric (PInc RELAY_PRESSURE ["submit"]);
  timestamp_secs ← penv penv_now_secs;
  s ← st_get;
  queue ← retain_recent timestamp_secs (px_queue s);
  let data := extract_histograms data in
  _ ← pmetric (PIncBy RELAY_PRESSURE ["submitted"] (length data));
  set_queue (queue ++ [(timestamp_secs, data)]).

Definition export : PM string string :=
  _ ← pmetric (PInc RELAY_PRESSURE ["export"]);
  s ← st_get;
  _ ← set_queue [];
  let histograms := concat (px_queue s).*2 in
  text ← st_lift (of_sum (encode_text histograms));
  _ ← pmetric (PIncBy RELAY_PRESSURE ["exported"] (length histograms));
  mret text.

Definition relay_metrics {E : Type} : PM E (N * string) :=
  r ← st_try export;
  match r with
  | inl expformat => mret (200%N, expformat)
  | inr _ => mret (500%N, "unable to pop metrics from HistogramRelay")
  end.
End relay.

(** ** Decoding of what a node pushes ([consumer.rs], [middleware.rs]) *)

(** The payload in JSON: the static labels and the encoded families. *)
Record Payload : Type := mkPayload { pl_labels : option (gmap string string); pl_buf : list byte }.

(** A pushed request as the code reads it; typed headers are parsed by the
    framework, which answers with a rejection when they are missing. *)
Record PublishRequest : Type := mkPublishRequest {
  pr_bearer : string + N * string;
  pr_content_length : N + N * string;
  pr_header : string → option (list byte);
  pr_socket_addr : option string; (** the extension of type [SocketAddr] *)
  pr_body : list byte;
}.

Class ProxyCodecs `{MetricValues} : Type := {
  read_raw_varint32 : list byte → N * list byte + string;
  parse_from_bytes : list byte → MetricFamily + string;
  (** the body up to the limit, or the framework's rejection *)
  bytes_from_request : N → list byte → list byte + N * string;
  snappy_decompress : list byte → list byte + string;
  json_payload : list byte → Payload + string;
  header_value_to_str : list byte → option string;
}.

(** What the decoder relies on: a varint takes at least a byte. *)
Class VarintLaws `{ProxyCodecs} : Prop :=
  varint_progress buf len rest :
    read_raw_varint32 buf = inl (len, rest) → length rest < length buf.

Section decoder.
  Context {values : MetricValues} {order : HashOrder} {pnode : ProxyNode} {codecs : ProxyCodecs}.

(** The fuel bounds the messages; [Panic] stands for its exhaustion. *)
Fixpoint parse_messages (fuel : nat) (buf : list byte) : outcome string (list MetricFamily) :=
  match buf with
  | [] => Ok []
  | _ =>
      match fuel with
      | O => Panic
      | S fuel =>
          '(len, rest) ← of_sum (read_raw_varint32 buf);
          if (N.of_nat (length rest) <? len)%N then Err "failed to fill whole buffer"
          else
            message ← of_sum (parse_from_bytes (take (N.to_nat len) rest));
            messages ← parse_messages fuel (drop (N.to_nat len) rest);
            Ok (message :: messages)
      end
  end.

Definition parse (buf : list byte) : outcome string (list MetricFamily) :=
  parse_messages (length buf) buf.

Definition MIDDLEWARE_OPS : string := "middleware_operations".

(** [map_err] with a counter of the failed operation. *)
Definition counted {E A : Type} (labels : list string) (o : outcome E A) : PM E A :=
  match o with
  | Err e => _ ← pmetric (PInc MIDDLEWARE_OPS labels); st_lift (Err e)
  | o => st_lift o
  end.

Definition len_delim_protobuf (max_body_size : N) (req : PublishRequest) :
    PM (N * string) MetricFamilyWithStaticLabels :=
  _ ← st_lift (match pr_header req "content-encoding" with
               | Some v => if bool_decide (v = bytes_of "snappy") then Ok ()
                           else Err (400%N, "snappy compression is required")
               | None => Err (400%N, "snappy compression is required")
               end);
  body ← counted ["LenDelimProtobuf_from_request"; "unable-to-extract-bytes"]
    (map_err (λ '(status, e), (status, "error extracting bytes; " +:+ e))
       (of_sum (bytes_from_request max_body_size (pr_body req))));
  decompressed ← counted ["LenDelimProtobuf_decompress_vec"; "unable-to-decode-snappy"]
    (map_err (λ e, (400%N, "unable to decode snappy encoded protobufs; " +:+ e))
       (of_sum (snappy_decompress body)));
  metric_payload ← st_lift (map_err (λ _, (400%N, "unable to deserialize MetricPayload"))
                              (of_sum (json_payload decompressed)));
  metric_families ← counted ["LenDelimProtobuf_from_request"; "unable-to-decode-protobufs"]
    (map_err (λ e, (400%N, "unable to decode len delimited protobufs; " +:+ e))
       (parse (pl_buf metric_payload)));
  let labels := (λ map, (λ '(k, v), mkLabelPair k v) <$> hash_order (map_to_list map))
                  <$> pl_labels metric_payload in
  mret (mkMetricFamilyWithStaticLabels labels metric_families).

(** ** Forwarding to Mimir ([consumer.rs]) *)
Definition CONSUMER_OPS : string := "consumer_operations".
Definition CONSUMER_OPS_SUBMITTED : string := "consumer_operations_submitted".

Definition encode_compress (request : WriteRequest) : PM (N * string) (list byte) :=
  match encode_write_request request with
  | None =>
      _ ← pmetric (PInc CONSUMER_OPS ["encode_compress"; "failed"]);
      st_lift (Err (500%N, "unable to encode prompb to remote_write pb"))
  | Some buf =>
      match snappy_compress buf with
      | inl compressed =>
          _ ← pmetric (PInc CONSUMER_OPS ["encode_compress"; "success"]);
          mret compressed
      | inr _ =>
          _ ← pmetric (PInc CONSUMER_OPS ["encode_compress"; "failed"]);
          st_lift (Err (500%N, "unable to compress to snappy block format"))
      end
  end.

Definition contains (body pattern : string) : bool :=
  bool_decide (is_Some (String.index 0 pattern body)).

Definition check_response (response : N * option string) : PM (N * string) unit :=
  let '(status, text) := response in
  if (status =? 200)%N then pmetric (PInc CONSUMER_OPS ["check_response"; "OK"])
  else if (status =? 400)%N then
    let body := default "response body cannot be decoded" text in
    if contains body "err-mimir-sample-out-of-order" then
      _ ← pmetric (PInc CONSUMER_OPS ["check_response"; "BAD_REQUEST"]);
      st_lift (Err (500%N, "IGNORING METRICS due to err-mimir-sample-out-of-order"))
    else
      _ ← pmetric (PInc CONSUMER_OPS ["check_response"; "INTERNAL_SERVER_ERROR"]);
      st_lift (Err (500%N, "unknown bad request error encountered in remote_push"))
  else
    _ ← pmetric (PInc CONSUMER_OPS ["check_response"; "INTERNAL_SERVER_ERROR"]);
    st_lift (Err (500%N, "unknown error encountered in remote_push")).

(** The conversion runs in a blocking task; its panics become an error. *)
Definition convert (mfs : list MetricFamily) : PM (N * string) (list WriteRequest) :=
  match size ← var (E := string) "MIMIR_MAX_SAMPLE_SIZE" 500;
        mimir_write_requests (E := string) (Z.to_nat size) mfs with
  | Ok v => mret v
  | _ => st_lift (Err (500%N, "DROPPING METRICS; unable to convert to remote_write"))
  end.

Definition send_request (settings : RemoteWriteConfig) (request : WriteRequest) :
    PM (N * string) unit :=
  compressed ← encode_compress request;
  sent ← penv (post_mimir settings compressed);
  match sent with
  | None =>
      _ ← pmetric (PInc CONSUMER_OPS ["check_response"; "INTERNAL_SERVER_ERROR"]);
      st_lift (Err (500%N, "DROPPING METRICS due to post error"))
  | Some response => check_response response
  end.

Fixpoint send_requests (settings : RemoteWriteConfig) (requests : list WriteRequest) (mf_cnt : nat) :
    PM (N * string) nat :=
  match requests with
  | [] => mret mf_cnt
  | request :: requests =>
      _ ← send_request settings request;
      send_requests settings requests (S mf_cnt)
  end.

(** The function returns its errors and its success alike. *)
Definition convert_to_remote_write {E : Type} (settings : RemoteWriteConfig)
    (node_metric : list MetricFamily) : PM E (N * string) :=
  r ← st_try
    (remote_write_protos ← convert node_metric;
     mf_cnt ← send_requests settings remote_write_protos 0;
     pmetric (PIncBy CONSUMER_OPS_SUBMITTED [] mf_cnt));
  mret (match r with inl _ => (201%N, "created") | inr e => e end).

(** ** The handlers ([handlers.rs], [admin.rs]) *)
Definition is_ascii_whitespace (c : Ascii.ascii) : bool :=
  let n := Ascii.N_of_ascii c in ((9 <=? n) && (n <=? 13) || (n =? 32))%N.

Fixpoint trim_start (s : string) : string :=
  match s with
  | String.String c s' => if is_ascii_whitespace c then trim_start s' else s
  | String.EmptyString => s
  end.

(** [str::trim] on ASCII text. *)
Definition trim (s : string) : string := String.rev (trim_start (String.rev (trim_start s))).

(** [s.split(',').next()] *)
Fixpoint before_comma (s : string) : string :=
  match s with
  | String.String c s' =>
      if Ascii.eqb c ","%char then String.EmptyString else String.String c (before_comma s')
  | String.EmptyString => s
  end.

Definition or_else {A : Type} (o : option A) (f : option A) : option A :=
  match o with Some a => Some a | None => f end.

Definition extract_client_ip (req : PublishRequest) : string :=
  let header name := pr_header req name ≫= header_value_to_str in
  default "unknown"
    (or_else (or_else (or_else ((λ s, trim (before_comma s)) <$> header "X-Forwarded-For")
                               (header "X-Real-IP"))
                      (header "X-Client-IP"))
             (pr_socket_addr req)).

Definition HANDLER_HITS : string := "http_handler_hits".

Definition publish_metrics (allower : BearerTokenProvider) (label_actions : LabelActions)
    (settings : RemoteWriteConfig) (client_ip : string) (max_body_size : N)
    (req : PublishRequest) : PM (N * string) (N * string) :=
  token ← st_lift (of_sum (pr_bearer req));
  data ← len_delim_protobuf max_body_size req;
  node_name ← st_lift (expect (get_bearer_token_owner_name allower token));
  _ ← pmetric (PInc HANDLER_HITS ["publish_metrics"; node_name]);
  let data := populate_labels node_name label_actions data client_ip in
  _ ← submit data;
  convert_to_remote_write settings data.

(** The limit that [app] reads when it is built. *)
Definition app_max_body_size {E : Type} : outcome E Z := var "MAX_BODY_SIZE" (1024 * 1024 * 5).

(** The middlewares of [middleware.rs]: the headers that they extract are of
    the request, or are rejections. *)
Definition expect_valid_bearer_token {A : Type} (allower : BearerTokenProvider)
    (req : PublishRequest) (next : PM (N * string) A) : PM (N * string) A :=
  token ← st_lift (of_sum (pr_bearer req));
  if (allowed allower token).1 then next else st_lift (Err (401%N, "Unauthorized")).

Definition expect_content_length {A : Type} (req : PublishRequest)
    (next : PM (N * string) A) : PM (N * string) A :=
  _ ← st_lift (of_sum (pr_content_length req)); next.

(** The route of [app] with its layers, the last added outermost; a rejection
    is a response like any other. The timeout of the whole request is left
    out. *)
Definition app_publish {E : Type} (allower : BearerTokenProvider) (label_actions : LabelActions)
    (settings : RemoteWriteConfig) (max_body_size : N) (req : PublishRequest) :
    PM E (N * string) :=
  r ← st_try
    (expect_valid_bearer_token allower req
      (let client_ip := extract_client_ip req in
       expect_content_length req
         (publish_metrics allower label_actions settings client_ip max_body_size req)));
  mret (match r with inl response | inr response => response end).

(** ** Health ([metrics.rs]) *)

(** The value that the liveness check knows, after a scrape of [families]. *)
Definition scrape_health (families : list MetricFamily) (consumer_operations_submitted : F64) : F64 :=
  let submitted := omap (λ v,
      if bool_decide (mf_name v = "consumer_operations_submitted") then
        m ← head (mf_metric v); Some (default f64_zero (m_counter m))
      else None) families in
  default consumer_operations_submitted (head submitted).

Definition liveness (consumer_operations_submitted : F64) : N * string :=
  if f64_positive consumer_operations_submitted
  then (200%N, f64_to_string consumer_operations_submitted)
  else (503%N, f64_to_string consumer_operations_submitted).
End decoder.

