(* ===== verification/MetricsPush.v ===== *)
(** * Pushing metrics to the proxy ([crates/key-server/src/metrics_push.rs])

    What the key server and the aggregator push, and the rounds of the tasks
    that push it ([spawn_metrics_push_job] of [server.rs] and of
    [aggregator/server.rs]). *)

From Stdlib Require Import NArith ZArith Lia Ascii.
From S2P Require Import Prelude Primitives Ibe Common Chain Committee RpcClient Options.
From S2P Require Import ValidPtb MasterKeys Mvr KeyServer Proxy.

Definition push_interval_default : Duration := duration_from_secs 10.

(** The registry, the clock in milliseconds, the host, and the client. *)
Class PushNode `{MetricValues} : Type := {
  NEnv : Type;
  gather : NEnv → list MetricFamily * NEnv;
  now_millis : NEnv → Z * NEnv;
  (** [hostname::get()]: no name, or a name that may not be UTF-8 *)
  hostname : NEnv → option (option string);
  (** [ProtobufEncoder::encode] *)
  encode_families : list MetricFamily → list byte + string;
  json_encode : Payload → list byte + string;
  push_compress : list byte → list byte + string;
  (** url, authorization, content encoding, body: status and text, the text
      [None] when it cannot be decoded; or a transport error *)
  post_proxy : string → string → string → list byte → NEnv → ((N * option string) + string) * NEnv;
  status_display : N → string;
}.

Section push.
  Context {values : MetricValues} {push : PushNode}.

Definition set_timestamp_ms (now : Z) (m : MetricProto) : MetricProto :=
  mkMetricProto (m_label m) (m_gauge m) (m_counter m) (m_summary m) (m_untyped m)
    (m_histogram m) now.

(** The families with the collection timestamp. *)
Definition stamp (now : Z) (mfs : list MetricFamily) : list MetricFamily :=
  (λ mf, mf_set_metric mf (set_timestamp_ms now <$> mf_metric mf)) <$> mfs.

Definition push_labels (config : MetricsPushConfig) (env : NEnv) : gmap string string :=
  let labels := default ∅ (mp_labels config) in
  match hostname env with
  | Some (Some hostname_str) => <["hostname" := hostname_str]> labels
  | _ => labels
  end.

Definition nenv {A E : Type} (f : NEnv → A * NEnv) : ST NEnv E A :=
  λ e, let '(a, e) := f e in (Ok a, e).

(** The body of the request: the payload in JSON, compressed. *)
Definition push_body (config : MetricsPushConfig) : ST NEnv string (list byte) :=
  now ← nenv now_millis;
  metric_families ← nenv gather;
  buf ← st_lift (of_sum (encode_families (stamp now metric_families)));
  env ← st_get;
  serialized ← st_lift (of_sum (json_encode (mkPayload (Some (push_labels config env)) buf)));
  st_lift (of_sum (push_compress serialized)).

Definition is_success (status : N) : bool := ((200 <=? status) && (status <? 300))%N.

Definition push_metrics (config : MetricsPushConfig) : ST NEnv string unit :=
  compressed ← push_body config;
  response ← nenv (post_proxy (mp_push_url config) ("Bearer " +:+ mp_bearer_token config) "snappy"
                     compressed);
  match response with
  | inr error => st_lift (Err error)
  | inl (status, text) =>
      if is_success status then mret ()
      else
        st_lift (Err ("metrics push failed: [" +:+ status_display status +:+ "]:"
          +:+ default "couldn't decode response body" text))
  end.

(** The configuration of one push: the labels of the config and those that
    name the server. *)
Definition dynamic_config (push_config : MetricsPushConfig) (added : list (string * string)) :
    MetricsPushConfig :=
  let labels := fold_left (λ labels '(k, v), <[k := v]> labels) added
                  (default ∅ (mp_labels push_config)) in
  mkMetricsPushConfig (mp_bearer_token push_config) (mp_push_url push_config)
    (mp_push_interval push_config) (Some labels).

(** A tick of the task: whether it made a new client. *)
Definition push_round {E : Type} (push_config : MetricsPushConfig)
    (added : list (string * string)) : ST NEnv E bool :=
  r ← st_try (push_metrics (dynamic_config push_config added));
  mret (match r with inl _ => false | inr _ => true end).
End push.

Section jobs.
  Context {I C K T : Type}.
  Abbreviation Tx := (TransactionProto I C K T).
  Context {node : FullNode Tx} {sui : SuiTypes} {sym : Symmetric} {crv : Curve}
    {bcs : BcsTypes} {profile : BuildProfile} {semver : SemVer} {mvr : MvrLib}
    {ptb_lib : PtbLib} {lib : ServerLib Tx} {values : MetricValues} {push : PushNode}.

(** Without a configuration the task waits forever ([None]). *)
Definition server_push_round {E : Type} (self : Server) : option (ST NEnv E bool) :=
  push_config ← ko_metrics_push_config (options self);
  Some (push_round push_config
          (match get_committee_server_params self with
           | Some (key_server_obj_id, server_name) =>
               [("key_server_object_id", address_to_string key_server_obj_id);
                ("server_name", server_name)]
           | None => []
           end)).

Definition aggregator_push_round {E : Type} (push_config : option MetricsPushConfig)
    (key_server_object_id : Address) : option (ST NEnv E bool) :=
  push_config ← push_config;
  Some (push_round push_config
          [("key_server_object_id", address_to_string key_server_object_id)]).
End jobs.

(** ** Toy codecs on which witnesses are evaluated

    Families have a name of one character and one counter, collected at time
    5; the only labels are those of [labels]. *)
Module ToyProxy.
#[local] Instance values : MetricValues := {
  F64 := byte; f64_zero := Byte.x00; f64_positive b := bool_decide (b ≠ Byte.x00);
  f64_to_string _ := ""; HistogramProto := unit; SummaryProto := unit;
}.

Definition labels : gmap string string := {["hostname" := "h"]}.

Definition family (c : Ascii.ascii) (v : byte) : MetricFamily :=
  mkMetricFamily (String.String c String.EmptyString) "" COUNTER
    [mkMetricProto [] None (Some v) None None None 5].

Definition encode_family (mf : MetricFamily) : option (list byte) :=
  match mf with
  | mkMetricFamily (String.String c String.EmptyString) String.EmptyString COUNTER
      [mkMetricProto [] None (Some v) None None None t] =>
      if (t =? 5)%Z then Some [Byte.x02; Ascii.byte_of_ascii c; v] else None
  | _ => None
  end.

Fixpoint encode_all (mfs : list MetricFamily) : option (list byte) :=
  match mfs with
  | [] => Some []
  | mf :: mfs => c ← encode_family mf; cs ← encode_all mfs; Some (c ++ cs)
  end.

#[local] Instance push : PushNode := {
  NEnv := unit;
  gather e := ([family "a"%char Byte.x11; family "b"%char Byte.x22], e);
  now_millis e := (5%Z, e);
  hostname _ := Some (Some "h");
  encode_families mfs := match encode_all mfs with Some b => inl b | None => inr "no" end;
  json_encode p := if bool_decide (pl_labels p = Some labels) then inl (pl_buf p) else inr "no";
  push_compress b := inl b;
  post_proxy _ _ _ _ e := (inl (201%N, None), e);
  status_display _ := "";
}.

#[local] Instance node : ProxyNode := {
  PEnv := Z; penv_now_secs e := (e, e); number_var _ := None;
  encode_text _ := inl ""; encode_write_request _ := Some []; snappy_compress b := inl b;
  post_mimir _ _ e := (Some (200%N, None), e);
}.

#[local] Instance codecs : ProxyCodecs := {
  read_raw_varint32 buf := match buf with n :: rest => inl (u8_val n, rest) | [] => inr "eof" end;
  parse_from_bytes body :=
    match body with [c; v] => inl (family (Ascii.ascii_of_byte c) v) | _ => inr "no" end;
  bytes_from_request limit body :=
    if (N.of_nat (length body) <=? limit)%N then inl body else inr (413%N, "too large");
  snappy_decompress b := inl b;
  json_payload b := inl (mkPayload (Some labels) b);
  header_value_to_str b := Some (String.string_of_list_byte b);
}.

#[local] Instance varint_laws : VarintLaws.
Proof. intros [|n buf] len rest; [done|]. intros [= _ <-]. simpl. lia. Defined.

Definition env : NEnv (PushNode := push) := tt.

Definition request (token : string) (body : list byte) : PublishRequest :=
  mkPublishRequest (inl token) (inl (N.of_nat (length body)))
    (λ name, if bool_decide (name = "content-encoding") then Some (bytes_of "snappy") else None)
    None body.
End ToyProxy.
