(* ===== verification/ProxyProps.v ===== *)
(** * Properties of the metrics proxy

    Pushed metrics are decoded to what was pushed; only known nodes reach the
    relay and Mimir; the relay neither loses nor repeats a histogram but by its
    time limit; the write requests have the samples that were pushed. *)

From Stdlib Require Import NArith ZArith Lia Ascii.
From stdpp Require Import sorting.
From S2P Require Import Prelude Primitives Ibe Common Chain Committee RpcClient Options Proxy.
From S2P Require Import Keeps MetricsPush.

(** ** Write requests *)
Section mimir.
  Context {values : MetricValues}.

Lemma chunks_spec {A : Type} size fuel (l : list A) :
  0 < size → length l ≤ fuel →
  concat (chunks fuel size l) = l ∧
  Forall (λ c, 0 < length c ≤ size) (chunks fuel size l) ∧
  ∀ c, c ∈ removelast (chunks fuel size l) → length c = size.
Proof.
  intros Hs. revert l. induction fuel as [|fuel IH]; intros l Hl.
  { destruct l; [|simpl in Hl; lia]. simpl. split_and!; [done|constructor|set_solver]. }
  destruct l as [|a l]; [simpl; split_and!; [done|constructor|set_solver]|].
  cbn [chunks]. destruct (IH (drop size (a :: l))) as (H1 & H2 & H3).
  { rewrite length_drop. simpl in *. lia. }
  set (cs := chunks fuel size (drop size (a :: l))) in *. split_and!.
  - cbn [concat]. by rewrite H1, take_drop.
  - constructor; [|done]. rewrite length_take. simpl. lia.
  - intros c. destruct cs as [|c' cs'] eqn:Hcs; [simpl; set_solver|].
    change (removelast (take size (a :: l) :: c' :: cs'))
      with (take size (a :: l) :: removelast (c' :: cs')).
    intros [->|Hc]%elem_of_cons; [|by apply H3].
    rewrite length_take. assert (length (drop size (a :: l)) ≠ 0); [|rewrite length_drop in *; lia].
    rewrite <-H1. simpl. rewrite length_app. inversion H2; subst. lia.
Qed.

#[local] Instance label_le_total : Total label_le.
Proof.
  intros a b. unfold label_le. rewrite (String.compare_antisym (lp_name b) (lp_name a)).
  destruct (String.compare (lp_name a) (lp_name b)) eqn:Hn; simpl; [|by left|by right].
  rewrite (String.compare_antisym (lp_value b) (lp_value a)).
  destruct (String.compare (lp_value a) (lp_value b)); simpl; auto.
Qed.

(** The samples of a metric of a supported family. *)
Definition metric_series (name : string) (metric : MetricProto) (ts : TimeSeries) : Prop :=
  (∃ labels, ts_labels ts = mkLabelPair "__name__" name :: labels ∧
     labels ≡ₚ m_label metric ∧ Sorted label_le labels) ∧
  ts_samples ts =
    match m_counter metric, m_gauge metric with
    | Some v, _ | None, Some v => [mkSample v (m_timestamp_ms metric)]
    | None, None => []
    end.

(** C20: what Mimir is sent. Counters and gauges, and nothing else, become one
    time series each, in the order in which they were pushed, with the name of
    the family first, then the metric's labels in sorted order, and its value
    with the time at which it was collected; the series are cut into requests
    of exactly the configured number, but for the last, and none is empty. A
    configured size of zero panics. *)
Theorem write_requests_exact {E : Type} (size : nat) (mfs : list MetricFamily) :
  match mimir_write_requests (E := E) size mfs with
  | Ok requests => 0 < size ∧
      Forall2 (λ '(name, metric) ts, metric_series name metric ts)
        (filter (λ mf, supported (mf_type mf) = true) mfs ≫= λ mf, (mf_name mf,.) <$> mf_metric mf)
        (concat (timeseries <$> requests)) ∧
      Forall (λ r, 0 < length (timeseries r) ≤ size) requests ∧
      ∀ r, r ∈ removelast requests → length (timeseries r) = size
  | Err _ => False
  | Panic => size = 0
  end.
Proof.
  unfold mimir_write_requests. destruct (Nat.eqb_spec size 0) as [->|Hs]; [done|].
  set (series := mfs ≫= _).
  destruct (chunks_spec size (length series) series) as (H1 & H2 & H3); [lia|done|].
  split; [lia|]. rewrite <-list_fmap_compose. unfold compose. cbn [timeseries].
  rewrite list_fmap_id, H1. split_and!.
  - unfold series. clear. induction mfs as [|mf mfs IH]; [constructor|].
    rewrite filter_cons. csimpl. destruct (supported (mf_type mf)) eqn:Hsup.
    + rewrite decide_True by done. csimpl. apply Forall2_app; [|done].
      unfold mimir_timeseries. apply Forall2_fmap, Forall_Forall2_diag, Forall_forall.
      intros metric _. split; simpl.
      * eexists. split; [done|]. split; [apply merge_sort_Permutation|apply Sorted_merge_sort, _].
      * by destruct (m_counter metric), (m_gauge metric).
    + by rewrite decide_False.
  - by apply Forall_fmap.
  - intros r Hr. assert (∀ l : list (list TimeSeries), removelast (mkWriteRequest <$> l)
      = mkWriteRequest <$> removelast l) as Hrl.
    { intros l. induction l as [|x [|y l] IHl]; [done..|]. csimpl in *. by rewrite IHl. }
    rewrite Hrl in Hr. apply list_elem_of_fmap in Hr as (c & -> & Hc). by apply H3.
Qed.
End mimir.

Section proxy.
  Context {values : MetricValues} {order : HashOrder} {order_laws : HashOrderLaws}
    {pnode : ProxyNode}.

(** ** The histogram relay *)

Lemma st_bind_eq {S E A B : Type} (m : ST S E A) (f : A → ST S E B) s r s' :
  m s = (Ok r, s') → (m ≫= f) s = f r s'.
Proof. apply st_bind_ok. Qed.

Definition recent (max now : Z) (v : Z * list MetricFamily) : bool := (now - v.1 <? max)%Z.

Lemma retain_recent_spec {E : Type} max now q s :
  var (E := E) "MAX_QUEUE_TIME_SECS" 300 = Ok max →
  ∃ metrics, retain_recent (E := E) now q s
    = (Ok (List.filter (recent max now) q), mkProxyState (px_env s) (px_queue s) metrics).
Proof.
  intros Hvar. revert s. induction q as [|v q IH]; intros s; cbn [retain_recent List.filter].
  { exists (px_metrics s). by destruct s. }
  unfold mbind, st_bind, st_lift. rewrite Hvar. fold (recent max now v).
  destruct (recent max now v).
  - destruct (IH s) as [metrics ->]. by exists metrics.
  - unfold pmetric, st_modify. destruct (IH (mkProxyState (px_env s) (px_queue s)
      (PInc RELAY_PRESSURE ["overflow"] :: px_metrics s))) as [metrics ->]. by exists metrics.
Qed.

Lemma submit_spec {E : Type} max data s now env' :
  var (E := E) "MAX_QUEUE_TIME_SECS" 300 = Ok max →
  penv_now_secs (px_env s) = (now, env') →
  ∃ metrics, submit (E := E) data s
    = (Ok (), mkProxyState env'
         (List.filter (recent max now) (px_queue s) ++ [(now, extract_histograms data)]) metrics).
Proof.
  intros Hvar Hnow. unfold submit, mbind, st_bind, pmetric, st_modify, penv, st_get. cbn.
  rewrite Hnow. cbn.
  match goal with |- context [retain_recent now _ ?s1] =>
    destruct (retain_recent_spec max now (px_queue s) s1 Hvar) as [metrics Hr] end.
  rewrite Hr. cbn. by eexists.
Qed.

(** Runs of the relay, with the histograms that were submitted, that a scrape
    got, that overflowed, and that were lost to a scrape that failed. *)
Record RelayRun : Type := mkRelayRun {
  rr_state : ProxyState;
  rr_submitted : list MetricFamily;
  rr_exported : list MetricFamily;
  rr_overflowed : list MetricFamily;
  rr_lost : list MetricFamily;
}.

Definition queued (s : ProxyState) : list MetricFamily := concat (px_queue s).*2.

Inductive relay_step (max : Z) : RelayRun → RelayRun → Prop :=
  | relay_submit s sub exp over lost data now env' s' :
      penv_now_secs (px_env s) = (now, env') →
      submit (E := string) data s = (Ok (), s') →
      relay_step max (mkRelayRun s sub exp over lost)
        (mkRelayRun s' (sub ++ extract_histograms data) exp
           (over ++ concat (List.filter (λ v, negb (recent max now v)) (px_queue s)).*2) lost)
  | relay_export s sub exp over lost text s' :
      export s = (Ok text, s') → encode_text (queued s) = inl text →
      relay_step max (mkRelayRun s sub exp over lost)
        (mkRelayRun s' sub (exp ++ queued s) over lost)
  | relay_export_failed s sub exp over lost e s' :
      export s = (Err e, s') →
      relay_step max (mkRelayRun s sub exp over lost)
        (mkRelayRun s' sub exp over (lost ++ queued s))
  | relay_other s sub exp over lost s' :
      px_queue s' = px_queue s →
      relay_step max (mkRelayRun s sub exp over lost) (mkRelayRun s' sub exp over lost).

Lemma filter_split {A B : Type} (f : A → bool) (g : A → list B) (l : list A) :
  concat (g <$> List.filter f l) ++ concat (g <$> List.filter (λ a, negb (f a)) l)
  ≡ₚ concat (g <$> l).
Proof.
  induction l as [|a l IH]; csimpl; [done|]. destruct (f a); csimpl; rewrite <-IH.
  - by rewrite <-app_assoc.
  - rewrite !app_assoc. by rewrite (Permutation_app_comm (g a)).
Qed.

Lemma export_queue s r s' : export s = (r, s') → px_queue s' = [] ∧
  r = of_sum (encode_text (queued s)).
Proof.
  unfold export, mbind, st_bind, pmetric, set_queue, st_modify, st_get, st_lift. cbn.
  fold (queued s). destruct (encode_text (queued s)); by intros [= <- <-].
Qed.

Definition accounted (r : RelayRun) : Prop :=
  rr_submitted r ≡ₚ rr_exported r ++ rr_overflowed r ++ rr_lost r ++ queued (rr_state r).

(** C21: the relay accounts for every histogram. Whatever the pushes and the
    scrapes, each family of histograms that was submitted is in exactly one
    place: a scrape got it, it was dropped for its age, it was lost with the
    whole queue because that scrape could not be encoded, or it is queued. *)
Theorem relay_conservation (max : Z) (s0 : ProxyState) (r : RelayRun) :
  var (E := string) "MAX_QUEUE_TIME_SECS" 300 = Ok max →
  px_queue s0 = [] →
  rtc (relay_step max) (mkRelayRun s0 [] [] [] []) r →
  accounted r.
Proof.
  intros Hvar Hq0 Hr.
  apply (rtc_invariant _ accounted) in Hr; [done| |unfold accounted, queued; cbn; by rewrite Hq0].
  clear Hr Hq0 s0 r. unfold accounted. intros r0 r1 Hinv Hs.
  destruct Hs as [s sub exp over lost data now env' s' Hnow Hsub|
    s sub exp over lost text s' Hexp Henc|s sub exp over lost e s' Hexp|s sub exp over lost s' Hq];
    cbn in *.
  - destruct (submit_spec (E := string) max data s now env' Hvar Hnow) as [metrics Hs].
    rewrite Hs in Hsub. injection Hsub as <-. unfold queued at 1. cbn.
    rewrite fmap_app, concat_app. cbn. rewrite app_nil_r, Hinv. unfold queued.
    rewrite <-(filter_split (recent max now) snd (px_queue s)). solve_Permutation.
  - apply export_queue in Hexp as [Hq _]. unfold queued at 2. rewrite Hq, Hinv. cbn.
    solve_Permutation.
  - apply export_queue in Hexp as [Hq _]. unfold queued at 2. rewrite Hq, Hinv. cbn.
    solve_Permutation.
  - unfold queued in *. by rewrite Hq.
Qed.
End proxy.

(** ** Authentication and the way of a request *)
Section publish.
  Context {values : MetricValues} {order : HashOrder} {order_laws : HashOrderLaws}
    {pnode : ProxyNode} {codecs : ProxyCodecs} {varint_laws : VarintLaws}.

Lemma parse_messages_total fuel buf : length buf ≤ fuel → parse_messages fuel buf ≠ Panic.
Proof.
  revert buf. induction fuel as [|fuel IH]; intros [|b buf] Hl; try done; [simpl in Hl; lia|].
  cbn [parse_messages]. destruct (read_raw_varint32 (b :: buf)) as [[len rest]|e] eqn:Hv; [|done].
  apply varint_progress in Hv. unfold mbind, outcome_bind. cbn [of_sum].
  destruct (N.ltb_spec (N.of_nat (length rest)) len); [done|].
  destruct (parse_from_bytes _); [|done]. cbn [of_sum].
  specialize (IH (drop (N.to_nat len) rest)). rewrite length_drop in IH.
  destruct (parse_messages fuel _); [done..|]. destruct IH; [simpl in *; lia|done].
Qed.

Lemma no_panic_counted {E A : Type} labels (o : outcome E A) : o ≠ Panic → no_panic (counted labels o).
Proof. intros Ho. destruct o; [by intros s|by intros s|done]. Qed.
Lemma no_panic_pmetric {E : Type} m : no_panic (pmetric (E := E) m).
Proof. by intros s. Qed.
Lemma no_panic_penv {E A : Type} (f : PEnv → A * PEnv) : no_panic (penv (E := E) f).
Proof. intros s. unfold penv. by destruct (f (px_env s)). Qed.
#[local] Hint Resolve no_panic_counted no_panic_pmetric no_panic_penv : no_panic.

Lemma no_panic_len_delim limit req : no_panic (len_delim_protobuf limit req).
Proof.
  unfold len_delim_protobuf, parse.
  assert (∀ buf, parse_messages (length buf) buf ≠ Panic) as Hparse
    by (intros; by apply parse_messages_total).
  no_panic.
Qed.

Lemma no_panic_send_request settings request : no_panic (send_request settings request).
Proof. unfold send_request, encode_compress, check_response. no_panic. Qed.
#[local] Hint Resolve no_panic_send_request : no_panic.

Lemma no_panic_send_requests settings requests n : no_panic (send_requests settings requests n).
Proof.
  revert n. induction requests as [|request requests IH]; intros n; cbn [send_requests]; no_panic.
Qed.
#[local] Hint Resolve no_panic_send_requests : no_panic.

Lemma no_panic_convert {E : Type} settings data :
  no_panic (convert_to_remote_write (E := E) settings data).
Proof. unfold convert_to_remote_write, convert. no_panic. Qed.

(** The relay is the queue; the rest leaves it alone. *)
Definition same_queue (s s' : ProxyState) : Prop := px_queue s' = px_queue s.

#[local] Instance same_queue_preorder : PreOrder same_queue.
Proof. unfold same_queue. split; congruence. Qed.

Lemma keeps_pmetric {E : Type} m : keeps same_queue (pmetric (E := E) m).
Proof. by intros s. Qed.
Lemma keeps_penv {E A : Type} (f : PEnv → A * PEnv) : keeps same_queue (penv (E := E) f).
Proof. intros s. unfold penv, same_queue. by destruct (f (px_env s)). Qed.
#[local] Hint Resolve keeps_pmetric keeps_penv : keeps.

Lemma keeps_len_delim limit req : keeps same_queue (len_delim_protobuf limit req).
Proof. unfold len_delim_protobuf, counted. keeps. Qed.

Lemma keeps_send_requests settings requests n :
  keeps same_queue (send_requests settings requests n).
Proof.
  revert n. induction requests as [|request requests IH]; intros n; cbn [send_requests];
    unfold send_request, encode_compress, check_response; keeps.
Qed.
#[local] Hint Resolve keeps_send_requests : keeps.

Lemma keeps_convert {E : Type} settings data :
  keeps same_queue (convert_to_remote_write (E := E) settings data).
Proof. unfold convert_to_remote_write, convert. keeps. Qed.

Lemma convert_returns {E : Type} settings data s :
  ∃ response s', convert_to_remote_write (E := E) settings data s = (Ok response, s').
Proof.
  pose proof (no_panic_convert (E := E) settings data s) as Hn. revert Hn.
  unfold convert_to_remote_write. generalize (remote_write_protos ← convert data;
    mf_cnt ← send_requests settings remote_write_protos 0;
    pmetric (PIncBy CONSUMER_OPS_SUBMITTED [] mf_cnt)). intros m.
  unfold st_try, mbind, st_bind, mret, st_ret.
  destruct (m s) as [[a|e|] s']; intros Hn; [eauto..|done].
Qed.

(** *** What a node's metrics are labelled with *)

(** The labels that the configuration adds, and those that it lets stand. *)
Definition label_added (actions : LabelActions) (l : LabelPair) : Prop :=
  ∃ add, actions_add actions = Some add ∧ add !! lp_name l = Some (lp_value l).

Definition label_kept (actions : LabelActions) (name : string) : Prop :=
  ∀ removed, actions_remove actions = Some removed → removed !! name = None.

(** [m] is the histogram of [m0], as it came with the payload's [static]
    labels from the node [name] at [client_ip]. *)
Record relabelled (name client_ip : string) (actions : LabelActions) (static : list LabelPair)
    (m0 m : MetricProto) : Prop := {
  rl_histogram : m_histogram m = m_histogram m0 ∧ m_timestamp_ms m = m_timestamp_ms m0;
  rl_nothing_else : m_gauge m = None ∧ m_counter m = None ∧ m_summary m = None ∧ m_untyped m = None;
  rl_labels l : l ∈ m_label m ↔ label_kept actions (lp_name l) ∧
    (l ∈ m_label m0 ∨ label_added actions l ∨
     (l ∈ static ∧ ∀ l', label_added actions l' → lp_name l' ≠ lp_name l) ∨
     l = mkLabelPair "node_name" name ∨ l = mkLabelPair "client_ip" client_ip);
  rl_own : label_kept actions "node_name" → label_kept actions "client_ip" →
    ∃ before, m_label m
      = before ++ [mkLabelPair "node_name" name; mkLabelPair "client_ip" client_ip];
}.

Definition has_histogram (m : MetricProto) : Prop := is_Some (m_histogram m).
#[local] Instance has_histogram_dec m : Decision (has_histogram m).
Proof. unfold has_histogram. apply _. Defined.

(** The families of [families] that have histograms, with nothing else. *)
Definition relabelled_families (name client_ip : string) (actions : LabelActions)
    (data : MetricFamilyWithStaticLabels) (families : list MetricFamily) : Prop :=
  Forall2 (λ mf0 mf, mf_name mf = mf_name mf0 ∧ mf_help mf = mf_help mf0 ∧
             mf_type mf = mf_type mf0 ∧
             Forall2 (relabelled name client_ip actions (default [] (static_labels data)))
               (filter has_histogram (mf_metric mf0)) (mf_metric mf))
    (filter (λ mf, filter has_histogram (mf_metric mf) ≠ []) (metric_families data)) families.

Lemma elem_of_filterb {A : Type} (p : A → bool) (l : list A) (a : A) :
  a ∈ List.filter p l ↔ a ∈ l ∧ p a = true.
Proof. by rewrite !list_elem_of_In, filter_In. Qed.

Lemma label_kept_spec actions name :
  label_kept actions name ↔
  match actions_remove actions with
  | Some removed => negb (bool_decide (is_Some (removed !! name)))
  | None => true
  end = true.
Proof.
  unfold label_kept. destruct (actions_remove actions) as [removed|]; [|naive_solver].
  rewrite negb_true_iff, bool_decide_eq_false, <-eq_None_not_Some. naive_solver.
Qed.

Lemma elem_of_added actions l :
  l ∈ match actions_add actions with
      | Some add_labels =>
          (λ '(name, value), mkLabelPair name value) <$> hash_order (map_to_list add_labels)
      | None => []
      end ↔ label_added actions l.
Proof.
  unfold label_added. destruct (actions_add actions) as [add|]; [|set_solver].
  rewrite list_elem_of_fmap. split.
  - intros ([k v] & -> & Hin). rewrite hash_order_perm, elem_of_map_to_list in Hin. by exists add.
  - intros (add' & [= <-] & Hl). exists (lp_name l, lp_value l). split; [by destruct l|].
    by rewrite hash_order_perm, elem_of_map_to_list.
Qed.

Lemma elem_of_label_pairs name actions static client_ip l :
  l ∈ label_pairs name actions static client_ip ↔
  label_added actions l ∨
  (l ∈ default [] static ∧ ∀ l', label_added actions l' → lp_name l' ≠ lp_name l) ∨
  l = mkLabelPair "node_name" name ∨ l = mkLabelPair "client_ip" client_ip.
Proof.
  unfold label_pairs. rewrite !elem_of_app, elem_of_added, elem_of_filterb, negb_true_iff.
  rewrite !elem_of_cons. set (added := match actions_add actions with Some _ => _ | None => _ end).
  assert (existsb (λ l', bool_decide (lp_name l' = lp_name l)) added = false ↔
    ∀ l', label_added actions l' → lp_name l' ≠ lp_name l) as ->; [|set_solver].
  rewrite <-not_true_iff_false, existsb_exists. split.
  - intros Hn l' Hl' He. apply Hn. exists l'. rewrite bool_decide_eq_true. split; [|done].
    apply list_elem_of_In. by apply elem_of_added.
  - intros Hn (l' & Hin & He%bool_decide_eq_true). apply (Hn l'); [|done].
    apply elem_of_added. by apply list_elem_of_In.
Qed.

Lemma filterb_app {A : Type} (p : A → bool) (l k : list A) :
  List.filter p (l ++ k) = List.filter p l ++ List.filter p k.
Proof. apply List.filter_app. Qed.

Lemma label_metric_spec name client_ip actions static m0 m :
  only_histogram (label_metric (label_pairs name actions static client_ip)
                    (actions_remove actions) m0) = Some m →
  relabelled name client_ip actions (default [] static) m0 m.
Proof.
  unfold only_histogram, label_metric. cbn. destruct (m_histogram m0) as [h|] eqn:Hh; [|done].
  intros [= <-]. split; cbn; [by rewrite Hh|done| |].
  - intros l. rewrite elem_of_filterb, elem_of_app, elem_of_label_pairs, label_kept_spec. tauto.
  - rewrite !label_kept_spec. intros Hn Hc. unfold label_pairs. rewrite !filterb_app. cbn.
    rewrite Hn, Hc, !app_assoc. by eexists.
Qed.

Lemma only_histograms_spec name client_ip actions static ms :
  Forall2 (relabelled name client_ip actions (default [] static)) (filter has_histogram ms)
    (omap only_histogram (label_metric (label_pairs name actions static client_ip)
                            (actions_remove actions) <$> ms)).
Proof.
  induction ms as [|m ms IH]; [constructor|]. rewrite filter_cons. csimpl.
  destruct (only_histogram _) as [m'|] eqn:Hm.
  - rewrite decide_True; [by constructor; [apply label_metric_spec|]|].
    unfold only_histogram, label_metric in Hm. cbn in Hm. unfold has_histogram.
    by destruct (m_histogram m).
  - rewrite decide_False; [done|]. unfold only_histogram, label_metric in Hm. cbn in Hm.
    unfold has_histogram. destruct (m_histogram m); [done|]. by intros [? ?].
Qed.

Lemma relabelled_spec name client_ip actions data :
  relabelled_families name client_ip actions data
    (extract_histograms (populate_labels name actions data client_ip)).
Proof.
  unfold relabelled_families, extract_histograms, populate_labels.
  induction (metric_families data) as [|mf mfs IH]; [constructor|].
  rewrite filter_cons. csimpl. unfold mf_set_metric at 1 2. cbn [mf_metric mf_name mf_help mf_type].
  pose proof (only_histograms_spec name client_ip actions (static_labels data) (mf_metric mf)) as HF.
  destruct (omap only_histogram _) as [|m ms] eqn:Hms; cbn [omap list_omap].
  - apply Forall2_nil_inv_r in HF. rewrite decide_False by (intros Hn; by apply Hn). exact IH.
  - rewrite decide_True; [by constructor|]. intros Hn. rewrite Hn in HF. by inversion HF.
Qed.

(** What stays in the queue: the limit of age, a variable of the environment,
    is read for each entry, and panics if it is not a number. *)
Definition retained (now : Z) (q : list (Z * list MetricFamily)) :
    option (list (Z * list MetricFamily)) :=
  match var (E := N * string) "MAX_QUEUE_TIME_SECS" 300, q with
  | Ok max, _ => Some (List.filter (recent max now) q)
  | _, [] => Some []
  | _, _ => None
  end.

Lemma submit_cases data s :
  let now := (penv_now_secs (px_env s)).1 in
  let '(r, s') := submit (E := N * string) data s in
  match retained now (px_queue s) with
  | Some q => r = Ok () ∧ px_queue s' = q ++ [(now, extract_histograms data)]
  | None => r = Panic ∧ px_queue s' = px_queue s
  end.
Proof.
  cbv zeta. unfold retained. destruct (penv_now_secs (px_env s)) as [now env'] eqn:Hnow. cbn.
  destruct (var _ _) as [max|e|] eqn:Hvar.
  - destruct (submit_spec max data s now env' Hvar Hnow) as [metrics ->]. done.
  - unfold var in Hvar. by destruct (number_var _) as [[]|].
  - unfold submit, mbind, st_bind, pmetric, st_modify, penv, st_get. cbn. rewrite Hnow. cbn.
    destruct (px_queue s) as [|v q] eqn:Hq; [done|]. cbn [retain_recent].
    unfold mbind, st_bind, st_lift. by rewrite Hvar.
Qed.

(** The handler of a known node. *)
Lemma publish_outcome allower label_actions settings client_ip limit req token name s :
  pr_bearer req = inl token → allower !! token = Some name →
  let '(r, s') := publish_metrics allower label_actions settings client_ip limit req s in
  match len_delim_protobuf limit req s with
  | (Ok data, s1) =>
      let now := (penv_now_secs (px_env s1)).1 in
      match retained now (px_queue s) with
      | Some q => (∃ response, r = Ok response) ∧
          px_queue s' = q ++
            [(now, extract_histograms (populate_labels name label_actions data client_ip))]
      | None => r = Panic ∧ px_queue s' = px_queue s
      end
  | (Err e, s1) => r = Err e ∧ s' = s1 ∧ px_queue s1 = px_queue s
  | (Panic, _) => False
  end.
Proof.
  intros Hb Ht.
  unfold publish_metrics, get_bearer_token_owner_name, mbind, st_bind, st_lift. rewrite Hb.
  cbn [of_sum]. rewrite Ht. cbn [expect].
  pose proof (keeps_len_delim limit req s) as Hq. pose proof (no_panic_len_delim limit req s) as Hn.
  destruct (len_delim_protobuf limit req s) as [[data|e|] s1] eqn:Hd; cbn in Hq, Hn; [|done..].
  unfold pmetric, st_modify at 1.
  match goal with |- context [submit ?d ?s2] =>
    pose proof (submit_cases d s2) as Hs; destruct (submit d s2) as [rs s3] end.
  cbn [px_env px_queue] in Hs. unfold same_queue in Hq. rewrite Hq in Hs. cbv zeta in *.
  destruct (retained _ _) as [q|]; destruct Hs as [-> Hs]; [|by split].
  pose proof (keeps_convert (E := N * string) settings
    (populate_labels name label_actions data client_ip) s3) as Hq2.
  destruct (convert_returns (E := N * string) settings (populate_labels name label_actions data client_ip) s3)
    as (response & s' & Hc).
  rewrite Hc in *. split; [by eexists|]. unfold same_queue in Hq2. cbn in Hq2. by rewrite Hq2.
Qed.

(** C22: only known nodes are heard. A request without a known bearer token
    gets an error and changes nothing. For one with the token of [name], the
    lookup of the owner does not panic; without a content length, or with a
    body that does not decode, it is answered by that error and the relay is
    left alone. Otherwise it is answered, and the relay drops what is too old
    and gains exactly the histograms of what the request decodes to, each with
    the labels it had, those that the configuration adds, the payload's own,
    and [name] and the client's address, less those that the configuration
    removes; unless the configured age is not a number and there is something
    in the queue to compare with it, when the handler panics. *)
Theorem publish_authenticated (allower : BearerTokenProvider) (label_actions : LabelActions)
    (settings : RemoteWriteConfig) (limit : N) (req : PublishRequest) (s : ProxyState) :
  let '(r, s') := app_publish (E := string) allower label_actions settings limit req s in
  match pr_bearer req with
  | inr rejection => r = Ok rejection ∧ s' = s
  | inl token =>
      match allower !! token, pr_content_length req, len_delim_protobuf limit req s with
      | None, _, _ => r = Ok (401%N, "Unauthorized") ∧ s' = s
      | Some _, inr rejection, _ => r = Ok rejection ∧ s' = s
      | Some _, inl _, (Err error, s1) => r = Ok error ∧ s' = s1 ∧ px_queue s1 = px_queue s
      | Some name, inl _, (Ok data, s1) =>
          let now := (penv_now_secs (px_env s1)).1 in
          match retained now (px_queue s) with
          | Some q => (∃ response, r = Ok response) ∧
              ∃ families, px_queue s' = q ++ [(now, families)] ∧
                relabelled_families name (extract_client_ip req) label_actions data families
          | None => r = Panic ∧ px_queue s' = px_queue s
          end
      | Some _, inl _, (Panic, _) => False
      end
  end.
Proof.
  unfold app_publish, expect_valid_bearer_token, expect_content_length, allowed, st_try, mbind,
     st_bind, st_lift, mret, st_ret.
  destruct (pr_bearer req) as [token|rejection] eqn:Hb; [|done]. cbn [of_sum].
  destruct (allower !! token) as [name|] eqn:Ht; [|done]. cbn [fst].
  destruct (pr_content_length req) as [n|rejection]; [|done]. cbn [of_sum].
  pose proof (publish_outcome allower label_actions settings (extract_client_ip req) limit req
    token name s Hb Ht) as Hp.
  destruct (publish_metrics _ _ _ _ _ _ _) as [r s'].
  destruct (len_delim_protobuf limit req s) as [[data|e|] s1]; [|by destruct Hp as [-> ?]|done].
  cbv zeta in *. destruct (retained _ _) as [q|]; [|by destruct Hp as [-> ?]].
  destruct Hp as [[response ->] Hq]. split; [by eexists|]. eexists. split; [exact Hq|].
  apply relabelled_spec.
Qed.
End publish.

(** ** What is pushed is what is decoded *)
Section transport.
  Context {values : MetricValues} {order : HashOrder} {order_laws : HashOrderLaws}
    {pnode : ProxyNode} {codecs : ProxyCodecs} {varint_laws : VarintLaws} {push : PushNode}.

(** A message with its length before it, followed by anything. *)
Definition delimited (chunk : list byte) (mf : MetricFamily) : Prop :=
  chunk ≠ [] ∧ ∀ rest, ∃ len body,
    read_raw_varint32 (chunk ++ rest) = inl (len, body ++ rest) ∧
    N.to_nat len = length body ∧ parse_from_bytes body = inl mf.

(** The codecs of the two sides fit together. *)
Class TransportLaws : Prop := {
  snappy_round_trip b c : push_compress b = inl c → snappy_decompress c = inl b;
  json_round_trip p b : json_encode p = inl b → json_payload b = inl p;
  body_within_limit limit body :
    (N.of_nat (length body) ≤ limit)%N → bytes_from_request limit body = inl body;
  families_delimited mfs buf : encode_families mfs = inl buf →
    ∃ chunks, buf = concat chunks ∧ Forall2 delimited chunks mfs;
}.
Context {transport_laws : TransportLaws}.

Lemma parse_delimited chunks mfs fuel :
  Forall2 delimited chunks mfs → length (concat chunks) ≤ fuel →
  parse_messages fuel (concat chunks) = Ok mfs.
Proof.
  intros HF. revert fuel. induction HF as [|c mf chunks mfs [Hne Hd] HF IH]; intros fuel Hl;
    [by destruct fuel|].
  destruct (Hd (concat chunks)) as (len & body & Hv & Hlen & Hp).
  cbn [concat] in *. destruct c as [|b c]; [done|]. destruct fuel as [|fuel]; [simpl in Hl; lia|].
  pose proof (varint_progress _ _ _ Hv) as Hprog.
  cbn [parse_messages]. change ((b :: c) ++ concat chunks) with (b :: (c ++ concat chunks)) in *.
  rewrite Hv. unfold mbind, outcome_bind. cbn [of_sum].
  destruct (N.ltb_spec (N.of_nat (length (body ++ concat chunks))) len) as [Hlt|_].
  { rewrite length_app in Hlt. lia. }
  rewrite Hlen, take_app_length, drop_app_length, Hp. cbn [of_sum].
  rewrite IH; [done|]. rewrite length_app in *. simpl in *. lia.
Qed.

(** C23: from the key server to the proxy nothing is lost. The body that a
    server pushes, if it fits the proxy's limit, is decoded by the proxy to
    all the families of the server's registry, every metric with the time of
    the push, and to the server's static labels with its host name. *)
Theorem push_reaches_proxy (config : MetricsPushConfig) (env env' : NEnv) (body : list byte)
    (limit : N) (req : PublishRequest) (s : ProxyState) :
  push_body config env = (Ok body, env') →
  (N.of_nat (length body) ≤ limit)%N →
  pr_body req = body → pr_header req "content-encoding" = Some (bytes_of "snappy") →
  let '(now, env1) := now_millis env in
  let '(mfs, env2) := gather env1 in
  ∃ labels, len_delim_protobuf limit req s
    = (Ok (mkMetricFamilyWithStaticLabels (Some labels) (stamp now mfs)), s) ∧
    ∀ k v, mkLabelPair k v ∈ labels ↔ push_labels config env2 !! k = Some v.
Proof.
  intros Hp Hl Hb Hh. unfold push_body, nenv, mbind, st_bind, st_get, st_lift in Hp.
  destruct (now_millis env) as [now env1]. destruct (gather env1) as [mfs env2].
  destruct (encode_families _) as [buf|] eqn:He; [|done]. cbn [of_sum] in Hp.
  destruct (json_encode _) as [json|] eqn:Hj; [|done]. cbn [of_sum] in Hp.
  destruct (push_compress json) as [c|] eqn:Hc; [|done]. injection Hp as -> <-.
  exists ((λ '(k, v), mkLabelPair k v) <$> hash_order (map_to_list (push_labels config env2))).
  split.
  - unfold len_delim_protobuf, mbind, st_bind, st_lift, counted. rewrite Hh, Hb.
    rewrite bool_decide_eq_true_2 by done. rewrite body_within_limit by done. cbn [of_sum map_err st_lift].
    rewrite (snappy_round_trip _ _ Hc). cbn [of_sum map_err st_lift].
    rewrite (json_round_trip _ _ Hj). cbn [of_sum map_err st_lift pl_buf pl_labels].
    destruct (families_delimited _ _ He) as (chunks & -> & HF). unfold parse.
    by rewrite (parse_delimited chunks _ _ HF).
  - intros k v. rewrite list_elem_of_fmap. setoid_rewrite hash_order_perm. split.
    + intros ([k' v'] & [= -> ->] & Hin). by apply elem_of_map_to_list.
    + intros Hlook. exists (k, v). split; [done|]. by apply elem_of_map_to_list.
Qed.
End transport.

(** ** Witnesses *)
#[local] Existing Instances ToyProxy.values ToyProxy.push ToyProxy.node ToyProxy.codecs
  ToyProxy.varint_laws.
#[local] Instance toy_order : HashOrder := λ _ l, reverse l.
#[local] Instance toy_order_laws : HashOrderLaws.
Proof. intros A l. apply reverse_Permutation. Defined.

Lemma toy_encode_all mfs buf : ToyProxy.encode_all mfs = Some buf →
  ∃ chunks, buf = concat chunks ∧ Forall2 delimited chunks mfs.
Proof.
  revert buf. induction mfs as [|mf mfs IH]; intros buf; simpl.
  { intros [= <-]. by exists []. }
  destruct (ToyProxy.encode_family mf) as [c|] eqn:Hc; [|done].
  destruct (ToyProxy.encode_all mfs) as [cs|]; [|done]. intros [= <-].
  destruct (IH cs eq_refl) as (chunks & -> & HF). exists (c :: chunks). split; [done|].
  constructor; [|done]. clear -Hc.
  destruct mf as [[|ch [|]] [|] [] [|[[|] [|] [v|] [|] [|] [|] t] [|]]]; try discriminate Hc.
  simpl in Hc. destruct (Z.eqb_spec t 5) as [->|]; [|done]. injection Hc as <-.
  split; [done|]. intros rest. exists 2%N, [Ascii.byte_of_ascii ch; v]. split_and!; [done..|].
  cbn. by rewrite Ascii.ascii_of_byte_of_ascii.
Qed.

#[local] Instance toy_transport_laws : TransportLaws.
Proof.
  split.
  - by intros b c [= ->].
  - intros [l buf] b. cbn. case_bool_decide as Hl; [|done]. intros [= ->]. by rewrite Hl.
  - intros limit body Hl. cbn. by rewrite (proj2 (N.leb_le _ _)).
  - intros mfs buf. cbn. destruct (ToyProxy.encode_all mfs) eqn:He; [|done].
    intros [= ->]. by apply toy_encode_all.
Defined.

Definition toy_config : MetricsPushConfig := mkMetricsPushConfig "token" "url" 10000000000 None.
Definition toy_proxy : ProxyState := mkProxyState (1000%Z : PEnv) [] [].
Definition toy_body : list byte := [Byte.x02; Byte.x61; Byte.x11; Byte.x02; Byte.x62; Byte.x22].

Lemma push_reaches_proxy_witness :
  ∃ data, len_delim_protobuf 100 (ToyProxy.request "token" toy_body) toy_proxy
    = (Ok data, toy_proxy) ∧
    metric_families data = [ToyProxy.family "a"%char Byte.x11; ToyProxy.family "b"%char Byte.x22].
Proof.
  destruct (push_reaches_proxy toy_config ToyProxy.env ToyProxy.env toy_body 100 (ToyProxy.request "token" toy_body)
    toy_proxy) as (labels & Hd & _).
  - vm_compute. reflexivity.
  - vm_compute. discriminate.
  - reflexivity.
  - reflexivity.
  - eexists. split; [exact Hd|]. reflexivity.
Defined.

Definition toy_families : list MetricFamily :=
  [mkMetricFamily "h" "" HISTOGRAM [mkMetricProto [] None None None None (Some tt) 5]].
Definition toy_run : RelayRun :=
  match submit (E := string) toy_families toy_proxy with
  | (Ok _, s) => mkRelayRun s (extract_histograms toy_families) [] [] []
  | _ => mkRelayRun toy_proxy [] [] [] []
  end.

Lemma relay_conservation_witness : accounted toy_run.
Proof.
  apply (relay_conservation 300 toy_proxy); [reflexivity|reflexivity|].
  unfold toy_run. destruct (submit toy_families toy_proxy) as [[[]| |] s] eqn:Hs; [|constructor..].
  apply rtc_once. by apply (relay_submit 300 toy_proxy [] [] [] [] toy_families 1000 1000%Z).
Defined.

(** Another decoder: every message is a histogram, so that the relay gets it. *)
Section histograms.
Definition toy_histogram (c : Ascii.ascii) : MetricFamily :=
  mkMetricFamily (String.String c String.EmptyString) "" HISTOGRAM
    [mkMetricProto [mkLabelPair "le" "1"] None None None None (Some tt) 5].

#[local] Instance histogram_codecs : ProxyCodecs := {
  read_raw_varint32 buf := match buf with n :: rest => inl (u8_val n, rest) | [] => inr "eof" end;
  parse_from_bytes body :=
    match body with [c; v] => inl (toy_histogram (Ascii.ascii_of_byte c)) | _ => inr "no" end;
  bytes_from_request limit body := inl body;
  snappy_decompress b := inl b;
  json_payload b := inl (mkPayload (Some ToyProxy.labels) b);
  header_value_to_str b := Some (String.string_of_list_byte b);
}.

#[local] Instance histogram_varint_laws : VarintLaws.
Proof. intros [|n buf] len rest; [done|]. intros [= _ <-]. simpl. lia. Defined.

(** An unknown node is refused; the histograms of a known one reach the relay
    with its name, and the entry that is too old leaves. *)
Lemma publish_authenticated_witness :
  let s := mkProxyState (1000%Z : PEnv) [(600%Z, toy_families); (900%Z, toy_families)] [] in
  let publish token := app_publish (E := string) {["token" := "node"]} default_label_actions
     (mkRemoteWriteConfig "" "" "" 8) 100 (ToyProxy.request token toy_body) s in
  publish "other" = (Ok (401%N, "Unauthorized"), s) ∧
  ∃ mf mf', px_queue (publish "token").2 = [(900%Z, toy_families); (1000%Z, [mf; mf'])] ∧
    Forall (λ m, mkLabelPair "node_name" "node" ∈ m_label m ∧ mkLabelPair "le" "1" ∈ m_label m)
      (mf_metric mf).
Proof.
  intros s publish. split.
  - pose proof (publish_authenticated {["token" := "node"]} default_label_actions
      (mkRemoteWriteConfig "" "" "" 8) 100 (ToyProxy.request "other" toy_body) s) as H.
    unfold publish. destruct (app_publish _ _ _ _ _ _) as [r s']. cbn in H.
    by destruct H as [-> ->].
  - pose proof (publish_authenticated {["token" := "node"]} default_label_actions
      (mkRemoteWriteConfig "" "" "" 8) 100 (ToyProxy.request "token" toy_body) s) as H.
    unfold publish. destruct (app_publish _ _ _ _ _ _) as [r s']. cbn [fst snd].
    set (data := mkMetricFamilyWithStaticLabels (Some [mkLabelPair "hostname" "h"])
      [toy_histogram "a"; toy_histogram "b"]).
    assert (len_delim_protobuf 100 (ToyProxy.request "token" toy_body) s = (Ok data, s)) as Hd
      by (vm_compute; reflexivity).
    rewrite Hd in H.
    change (({["token" := "node"]} : gmap string string) !! "token") with (Some "node") in H.
    change (retained _ _) with (Some [(900%Z, toy_families)]) in H. cbn in H.
    destruct H as [_ (families & Hq & HF)].
    apply Forall2_cons_inv_l in HF as (mf & rest & (_ & _ & _ & Hms) & HF & ->).
    apply Forall2_cons_inv_l in HF as (mf' & rest' & _ & HF & ->).
    apply Forall2_nil_inv_l in HF as ->. exists mf, mf'. split; [exact Hq|].
    apply Forall2_cons_inv_l in Hms as (m & ms & Hm & Hms & ->).
    apply Forall2_nil_inv_l in Hms as ->.
    constructor; [|constructor]. destruct Hm as [_ _ Hl _].
    split; apply Hl; (split; [by intros removed|]).
    + right; right; right; left. reflexivity.
    + left. left.
Defined.
End histograms.
