(* ===== verification/SealCli.v ===== *)
(** * The command-line tool of users ([crates/seal-cli/src/main.rs])

    Generating keys, extracting and verifying user keys, encrypting,
    decrypting and parsing objects, with every value printed and read as the
    prefixed hexadecimal digits of its BCS encoding; and the two commands that
    look up key servers on chain. *)

From Stdlib Require Import NArith Lia Ascii.
From stdpp Require Import pretty.
From S2P Require Import Prelude Utils Primitives Dem Elgamal Ibe Seal Common Chain Committee Options.
From S2P Require Import KeyServer RequestJson.

(** BCS of a type ([serde]'s [Serialize] and [Deserialize]). *)
Class Bcs (T : Type) : Type := {
  bcs_to_bytes : T → outcome string (list byte);
  bcs_from_bytes : list byte → outcome string T;
}.

(** [SuiParsedData] of an object; the fields have a conversion to JSON. *)
Inductive SuiParsedData : Type :=
  | ParsedMoveObject (fields_json : outcome string Json)
  | ParsedPackage.

Record SuiObjectData : Type := mkSuiObjectData { sod_content : option SuiParsedData }.
Record SuiObjectResponse : Type := mkSuiObjectResponse { sor_data : option SuiObjectData }.

Section seal_cli.
  Context {sym : Symmetric} {crv : Curve} {sui : SuiTypes} {encs : Encodings}.

Record CliHttpResponse : Type := mkCliHttpResponse {
  chr_success : bool;
  (** the body, decoded; [None] if it cannot be read or is not a response *)
  chr_response : option FetchKeyResponse;
}.

Class UserTools : Type := {
  Net : Type; (** the full node and the key servers, over time *)
  SuiClient : Type;
  sui_client_build : string → Net → (SuiClient + string) * Net;
  get_dynamic_field_object : SuiClient → ObjectID → string → Net →
    (SuiObjectResponse + string) * Net;
  post_fetch_key : string → list (string * string) → string → Net →
    (CliHttpResponse + string) * Net;
  #[global] tools_json :: RequestJson;
  SUI_MAINNET_FULLNODE : string;
  SUI_TESTNET_FULLNODE : string;
  plain_hex_encode : list byte → string; (** [Hex::encode], without prefix *)
  error_display : FastCryptoError → string;
  g2_from_byte_array : list byte → outcome FastCryptoError G2Element;
  #[global] Bcs_object :: Bcs EncryptedObject;
  #[global] Bcs_scalar :: Bcs Scalar;
  #[global] Bcs_g1 :: Bcs G1Element;
  #[global] Bcs_g2 :: Bcs G2Element;
  #[global] Bcs_request :: Bcs FetchKeyRequest;
  #[global] Bcs_responses :: Bcs (list (ObjectID * FetchKeyResponse));
}.
Context {tools : UserTools}.

(** ** Key servers on chain *)
Record KeyServerInfo : Type := mkKeyServerInfo {
  ksi_object_id : ObjectID;
  ksi_name : string;
  ksi_url : string;
  ksi_public_key : string;
}.

Definition general {A : Type} (message : string) : outcome FastCryptoError A :=
  Err (GeneralError message).

(** [n.as_u64().and_then(|n| u8::try_from(n).ok())]. *)
Definition json_byte (v : Json) : option byte :=
  match v with
  | JNumber (Some n) => if (n <? 256)%N then Some (u8_of n) else None
  | _ => None
  end.

Definition json_public_key (v : Json) : option string :=
  match v with
  | JArray arr => plain_hex_encode <$> mapM json_byte arr
  | JString s => Some s
  | _ => None
  end.

Definition json_str (v : Json) : option string :=
  match v with JString s => Some s | _ => None end.

Definition parse_key_server (object_id : ObjectID) (fields : outcome string Json) :
    outcome FastCryptoError KeyServerInfo :=
  fields_json ← map_err (λ e, GeneralError ("Failed to serialize fields: " +:+ e)) fields;
  value_struct ← ok_or (json_get fields_json "value")
    (GeneralError ("Missing 'value' field for object " +:+ address_to_string object_id));
  value_fields ← ok_or (json_get value_struct "fields")
    (GeneralError ("Missing 'fields' in value struct for object " +:+ address_to_string object_id));
  url ← ok_or (json_get value_fields "url" ≫= json_str)
    (GeneralError ("Missing or invalid 'url' field in value fields for object "
       +:+ address_to_string object_id));
  let name := default "Unknown" (json_get value_fields "name" ≫= json_str) in
  public_key ← ok_or (json_get value_fields "pk" ≫= json_public_key)
    (GeneralError ("Missing or invalid 'pk' field in value fields for object "
       +:+ address_to_string object_id));
  Ok (mkKeyServerInfo object_id name url public_key).

Definition key_server_of_response (object_id : ObjectID) (response : SuiObjectResponse) :
    outcome FastCryptoError KeyServerInfo :=
  match sor_data response with
  | Some object_data =>
      match sod_content object_data with
      | Some (ParsedMoveObject fields) => parse_key_server object_id fields
      | Some ParsedPackage =>
          general ("Unexpected content type for object " +:+ address_to_string object_id)
      | None => general ("No content found for object " +:+ address_to_string object_id)
      end
  | None => general ("Object " +:+ address_to_string object_id +:+ " not found")
  end.

(** A request to the network, with its error. *)
Definition on_net {A S : Type} (get : S → Net) (set : Net → S → S)
    (f : Net → (A + string) * Net) : ST S FastCryptoError (A + string) :=
  λ s, let '(r, n) := f (get s) in (Ok r, set n s).

(** ** The state of a run: randomness and the network *)
Context {R : Type} {rng : AllowedRng R}.

Definition UM (A : Type) : Type := ST (R * Net) FastCryptoError A.

Definition with_net {A : Type} (f : Net → (A + string) * Net) : UM (A + string) :=
  on_net snd (λ n s, (s.1, n)) f.

Definition with_thread_rng {A : Type} (m : ST R FastCryptoError A) : UM A :=
  λ '(r, n), let '(a, r) := m r in (a, (r, n)).

Definition fetch_key_server (sui_client : SuiClient) (object_id : ObjectID) : UM KeyServerInfo :=
  response ← with_net (get_dynamic_field_object sui_client object_id "1");
  match response with
  | inl response => st_lift (key_server_of_response object_id response)
  | inr e => st_lift (general ("Failed to fetch dynamic field for object "
               +:+ address_to_string object_id +:+ ": " +:+ e))
  end.

Definition fetch_key_server_urls (network : CommitteeNetwork) (key_server_ids : list ObjectID)
    (custom_rpc_url : option string) : UM (list KeyServerInfo) :=
  let sui_rpc := default (default_rpc_url SUI_MAINNET_FULLNODE SUI_TESTNET_FULLNODE network)
                   custom_rpc_url in
  sui_client ← with_net (sui_client_build sui_rpc);
  match sui_client with
  | inl sui_client => st_map (fetch_key_server sui_client) key_server_ids
  | inr e => st_lift (general ("Failed to build Sui client: " +:+ e))
  end.

(** ** Inputs *)
Definition KEY_LENGTH : nat := 32.

(** [DefaultEncoding] is the prefixed hexadecimal encoding. *)
Definition DefaultEncoding : Encoding := prefixed_hex.

Definition encoded_bytes_from_str (s : string) : outcome FastCryptoError (list byte) :=
  ok_or (decode (Encoding := DefaultEncoding) s) InvalidInput.

Definition encoded_byte_array_from_str (N : nat) (s : string) :
    outcome FastCryptoError (list byte) :=
  bytes ← ok_or (decode (Encoding := DefaultEncoding) s) InvalidInput;
  if length bytes =? N then Ok bytes else Err (InputLengthWrong N).

Definition parse_serializable {T : Type} `{Bcs T} (E : Encoding) (s : string) : outcome string T :=
  bytes ← ok_or (decode (Encoding := E) s) (error_display InvalidInput);
  bcs_from_bytes bytes.

(** ** Outputs *)
Definition default_encode (b : list byte) : string := encode (Encoding := DefaultEncoding) b.

Definition serializable_to_string {T E : Type} `{Bcs T} (t : T) : outcome E string :=
  bytes ← expect_ok (bcs_to_bytes t);
  Ok (default_encode bytes).

Definition newline : string := String (ascii_of_nat 10) EmptyString.
Definition quoted (s : string) : string :=
  String (ascii_of_nat 34) (s +:+ String (ascii_of_nat 34) EmptyString).

Definition genkey_output {E : Type} (k : MasterKey * IbePublicKey) : outcome E string :=
  master_key ← serializable_to_string (k.1 : Scalar);
  public_key ← serializable_to_string (k.2 : G2Element);
  Ok ("Master key: " +:+ master_key +:+ newline +:+ "Public key: " +:+ public_key).

Definition gen_seed_output (seed : list byte) : string := "Seed: " +:+ default_encode seed.

Definition extract_output {E : Type} (key : UserSecretKey) : outcome E string :=
  key ← serializable_to_string (key : G1Element);
  Ok ("User secret key: " +:+ key).

Definition verify_output (r : outcome FastCryptoError unit) : string :=
  if is_ok r then "Verification successful" else "Verification failed".

Definition encryption_output {E : Type} (o : EncryptedObject * list byte) : outcome E string :=
  bytes ← expect_ok (bcs_to_bytes o.1);
  Ok ("Encrypted object (bcs): " +:+ default_encode bytes +:+ newline
        +:+ "Symmetric key: " +:+ default_encode o.2).

Definition decryption_output (message : list byte) : string :=
  "Decrypted message: " +:+ default_encode message.

Definition symmetric_decrypt_output (message : list byte) : string :=
  "Decrypted message: " +:+ default_encode message +:+ newline.

Definition line (s : string) : string := s +:+ newline.
Definition lines (l : list string) : string := foldr String.append "" (line <$> l).

Definition ciphertext_lines (c : Ciphertext) : string :=
  let aad_text := λ aad, match aad with Some a => default_encode a | None => "None" end in
  match c with
  | CAes256Gcm blob aad =>
      lines ["  Type: AES-256-GCM"; "  Blob: " +:+ default_encode blob;
             "  AAD: " +:+ aad_text aad +:+ newline]
  | CHmac256Ctr blob aad mac =>
      lines ["  Type: HMAC-256-CTR"; "  Blob: " +:+ default_encode blob;
             "  AAD: " +:+ aad_text aad; "  MAC: " +:+ default_encode mac]
  | CPlain => lines ["  Type: Plain"]
  end.

Definition parse_output {E : Type} (o : EncryptedObject) : outcome E string :=
  match eo_encrypted_shares o with
  | BonehFranklinBLS12381 encapsulation shares _ =>
      encapsulation ← serializable_to_string (encapsulation : G2Element);
      Ok (lines ["Version: " +:+ pretty (u8_val (eo_version o));
                 "Package ID: " +:+ address_to_string (eo_package_id o);
                 "ID: " +:+ default_encode (eo_id o); "Services: share index:"]
          +:+ lines ((λ '(id, index), "  " +:+ address_to_string id +:+ ": " +:+ pretty (u8_val index))
                       <$> eo_services o)
          +:+ lines ["Threshold: " +:+ pretty (u8_val (eo_threshold o)); "Ciphertext:"]
          +:+ ciphertext_lines (eo_ciphertext o)
          +:+ lines ["Encrypted shares:"; "  Type: Boneh-Franklin BLS12-381"; "  Shares:"]
          +:+ lines ((λ share, "    " +:+ default_encode share) <$> shares)
          +:+ "  Encapsulation: " +:+ encapsulation)
  end.

(** ** Commands *)
Inductive Command : Type :=
  | Genkey
  | GenSeed
  | DeriveKey (seed : list byte) (index : N)
  | Extract (package_id : ObjectID) (id : list byte) (master_key : Scalar)
  | Verify (package_id : ObjectID) (id : list byte) (user_secret_key : G1Element)
      (public_key : G2Element)
  | PlainKey (package_id : ObjectID) (id : list byte) (threshold : byte)
      (public_keys : list G2Element) (object_ids : list ObjectID)
  | EncryptAes (message : list byte) (aad : option (list byte)) (package_id : ObjectID)
      (id : list byte) (threshold : byte) (public_keys : list G2Element)
      (object_ids : list ObjectID)
  | EncryptHmac (message : list byte) (aad : option (list byte)) (package_id : ObjectID)
      (id : list byte) (threshold : byte) (public_keys : list G2Element)
      (object_ids : list ObjectID)
  | Decrypt (encrypted_object : EncryptedObject) (secret_keys : list G1Element)
      (object_ids : list ObjectID)
  | Parse (encrypted_object : EncryptedObject)
  | SymmetricDecrypt (encrypted_object : EncryptedObject) (key : list byte)
  | Encrypt (secret id : list byte) (package_id : ObjectID) (key_server_ids : list ObjectID)
      (threshold : byte) (network : CommitteeNetwork) (rpc_url : option string)
  | FetchKeys (request : list byte) (key_server_ids : list ObjectID) (threshold : byte)
      (network : CommitteeNetwork) (rpc_url : option string).

Definition encrypt_command (package_id : ObjectID) (id : list byte) (threshold : byte)
    (public_keys : list G2Element) (object_ids : list ObjectID) (input : EncryptionInput) :
    UM string :=
  o ← with_thread_rng (seal_encrypt package_id id object_ids
        (BonehFranklinPublicKeys public_keys) threshold input);
  st_lift (encryption_output o).

Definition symmetric_decrypt (encrypted_object : EncryptedObject) (key : list byte) :
    outcome FastCryptoError (list byte) :=
  match eo_ciphertext encrypted_object with
  | CAes256Gcm blob aad => aes256gcm_decrypt blob (default [] aad) key
  | CHmac256Ctr blob aad mac => hmac256ctr_decrypt blob mac (default [] aad) key
  | CPlain => Err InvalidInput
  end.

Definition server_public_key (info : KeyServerInfo) : outcome FastCryptoError IbePublicKey :=
  bytes ← ok_or (hex_decode (ksi_public_key info))
            (GeneralError ("Invalid public key hex: " +:+ error_display InvalidInput));
  if length bytes =? 96 then g2_from_byte_array bytes
  else general "Invalid public key length".

Definition encrypt_to_servers (secret id : list byte) (package_id : ObjectID)
    (key_server_ids : list ObjectID) (threshold : byte) (network : CommitteeNetwork)
    (rpc_url : option string) : UM string :=
  key_server_infos ← st_map_err
    (λ e, GeneralError ("Failed to fetch key server info: " +:+ error_display e))
    (fetch_key_server_urls network key_server_ids rpc_url);
  pks ← st_lift (try_map server_public_key key_server_infos);
  '(encrypted_object, _) ← st_map_err
    (λ e, GeneralError ("Encryption failed: " +:+ error_display e))
    (with_thread_rng (seal_encrypt package_id id key_server_ids (BonehFranklinPublicKeys pks)
       threshold (EAes256Gcm secret None)));
  bytes ← st_lift (expect_ok (bcs_to_bytes encrypted_object));
  mret ("Encoded encrypted object:" +:+ newline +:+ plain_hex_encode bytes).

Definition fetch_headers : list (string * string) :=
  [("Client-Sdk-Type", "rust"); ("Client-Sdk-Version", "0.0.0"); ("Content-Type", "application/json")].

(** A server's answer, if it is a success; a success that cannot be decoded
    is a panic. *)
Definition fetch_from_server (request : FetchKeyRequest) (server : KeyServerInfo) :
    UM (option (ObjectID * FetchKeyResponse)) :=
  body ← st_lift (expect_ok (to_json_string request));
  r ← with_net (post_fetch_key (ksi_url server +:+ "/v1/fetch_key") fetch_headers body);
  match r with
  | inl response =>
      if chr_success response then
        response ← st_lift (expect (chr_response response));
        mret (Some (ksi_object_id server, response))
      else mret None
  | inr _ => mret None
  end.

(** The loop, which stops when there are enough responses. *)
Fixpoint fetch_from_servers (request : FetchKeyRequest) (threshold : byte)
    (servers : list KeyServerInfo) (seal_responses : list (ObjectID * FetchKeyResponse)) :
    UM (list (ObjectID * FetchKeyResponse)) :=
  match servers with
  | [] => mret seal_responses
  | server :: servers =>
      r ← fetch_from_server request server;
      let seal_responses := seal_responses ++ option_list r in
      if (u8_val threshold <=? N.of_nat (length seal_responses))%N then mret seal_responses
      else fetch_from_servers request threshold servers seal_responses
  end.

Definition fetch_keys (request : list byte) (key_server_ids : list ObjectID) (threshold : byte)
    (network : CommitteeNetwork) (rpc_url : option string) : UM string :=
  request ← st_lift (map_err
    (λ e, GeneralError ("Failed to parse FetchKeyRequest from BCS: " +:+ e))
    (bcs_from_bytes request));
  servers ← st_map_err (λ e, GeneralError ("Failed to fetch key server URLs: " +:+ error_display e))
    (fetch_key_server_urls network key_server_ids rpc_url);
  seal_responses ← fetch_from_servers request threshold servers [];
  if (N.of_nat (length seal_responses) <? u8_val threshold)%N then
    st_lift (general ("Failed to get enough responses: " +:+ pretty (length seal_responses)
      +:+ " < " +:+ pretty (u8_val threshold)))
  else
    bytes ← st_lift (expect_ok (bcs_to_bytes seal_responses));
    mret (newline +:+ " " +:+ pretty (length seal_responses) +:+ " Encoded seal responses: "
      +:+ quoted (plain_hex_encode bytes)).

Definition run (command : Command) : UM string :=
  match command with
  | Genkey =>
      k ← with_thread_rng (λ r, let '(k, r) := generate_key_pair r in (Ok k, r));
      st_lift (genkey_output k)
  | GenSeed => seed ← with_thread_rng generate_seed; mret (gen_seed_output seed)
  | DeriveKey seed derivation_index =>
      if negb (length seed =? SEED_LENGTH) then st_lift (Err (InputLengthWrong SEED_LENGTH))
      else
        master_key ← st_lift (derive_master_key seed derivation_index);
        st_lift (genkey_output (into_key_pair master_key))
  | Extract package_id id master_key =>
      st_lift (extract_output (extract master_key (create_full_id package_id id)))
  | Verify package_id id user_secret_key public_key =>
      mret (verify_output (verify_user_secret_key user_secret_key (create_full_id package_id id)
                             public_key))
  | PlainKey package_id id threshold public_keys object_ids =>
      encrypt_command package_id id threshold public_keys object_ids EPlain
  | EncryptAes message aad package_id id threshold public_keys object_ids =>
      encrypt_command package_id id threshold public_keys object_ids (EAes256Gcm message aad)
  | EncryptHmac message aad package_id id threshold public_keys object_ids =>
      encrypt_command package_id id threshold public_keys object_ids (EHmac256Ctr message aad)
  | Decrypt encrypted_object secret_keys object_ids =>
      message ← st_lift (seal_decrypt encrypted_object
        (BonehFranklinUserSecretKeys (hashmap_collect (zip object_ids secret_keys))) None);
      mret (decryption_output message)
  | Parse encrypted_object => st_lift (parse_output encrypted_object)
  | SymmetricDecrypt encrypted_object key =>
      message ← st_lift (symmetric_decrypt encrypted_object key);
      mret (symmetric_decrypt_output message)
  | Encrypt secret id package_id key_server_ids threshold network rpc_url =>
      encrypt_to_servers secret id package_id key_server_ids threshold network rpc_url
  | FetchKeys request key_server_ids threshold network rpc_url =>
      fetch_keys request key_server_ids threshold network rpc_url
  end.
End seal_cli.
