(* ===== verification/SealCliProps.v ===== *)
(** * What the command-line tool of users guarantees

    Its commands compose through the texts that they print: what [encrypt-*]
    prints, with the keys that [extract] prints, is what [decrypt] and
    [symmetric-decrypt] need; and [fetch-keys] asks no more key servers than
    it must. *)

From Stdlib Require Import NArith Lia.
From S2P Require Import Prelude Utils Primitives Dem Elgamal Ibe Seal SealTheory Common Chain.
From S2P Require Import Options KeyServer RequestJson SealCli.

(** Encodings that are read back. *)
Class BcsLaws (T : Type) `{Bcs T} : Prop :=
  bcs_round_trip t b : bcs_to_bytes t = Ok b → bcs_from_bytes b = Ok t.

Class HexLaws `{Encodings} : Prop :=
  hex_round_trip b : hex_decode (hex_encode_with_format b) = Some b.

Section theory.
  Context {sym : Symmetric} {sym_laws : SymmetricLaws} {crv : Curve} {crv_laws : CurveLaws}
    {sui : SuiTypes} {encs : Encodings} {hex_laws : HexLaws} {tools : UserTools}
    {obj_laws : BcsLaws EncryptedObject} {g1_laws : BcsLaws G1Element}
    {R : Type} {rng : AllowedRng R} {rng_laws : RngLaws R}.

Lemma parse_serializable_print {T E : Type} `{BcsLaws T} (t : T) (s : string) :
  serializable_to_string (E := E) t = Ok s → parse_serializable DefaultEncoding s = Ok t.
Proof.
  unfold serializable_to_string, parse_serializable. intros (b & Hb & [= <-])%bind_ok_inv.
  unfold default_encode, DefaultEncoding, prefixed_hex. cbn [encode decode].
  rewrite hex_round_trip. simpl. destruct (bcs_to_bytes t) eqn:Ht; [|done..].
  injection Hb as ->. by apply bcs_round_trip.
Qed.

Lemma encoded_byte_array_print n b :
  length b = n → encoded_byte_array_from_str n (default_encode b) = Ok b.
Proof.
  intros <-. unfold encoded_byte_array_from_str, default_encode, DefaultEncoding, prefixed_hex.
  cbn [encode decode]. rewrite hex_round_trip. simpl. by rewrite Nat.eqb_refl.
Qed.

(** The key that [seal_encrypt] returns is the one of the ciphertext. *)
Lemma seal_encrypt_key package_id id key_servers pks t input (r r' : R) obj key :
  seal_encrypt package_id id key_servers (BonehFranklinPublicKeys pks) t input r
    = (Ok (obj, key), r') →
  eo_ciphertext obj = input_encrypt input key ∧ length key = KEY_LENGTH.
Proof.
  intros He. pose proof (seal_encrypt_spec package_id id key_servers pks t input r) as Hs.
  cbv zeta in Hs. rewrite He in Hs. cbn [fst] in Hs.
  destruct (_ || _); [done|]. destruct (negb _); [done|]. destruct (negb _); [done|].
  destruct Hs as (obj' & key' & polys & x & [= <- <-] & Henc & _ & _ & _ & _ & Hct).
  split; [done|]. destruct (enc_shares _ _ _ _ _ Henc) as (rk & _ & _ & Hk & _).
  unfold derive_key in Hk. apply bind_ok_inv in Hk as (_ & _ & [= <-]). apply sha3_256_length.
Qed.

Lemma symmetric_decrypt_encrypted input obj key :
  eo_ciphertext obj = input_encrypt input key →
  symmetric_decrypt obj key =
    match input with EPlain => Err InvalidInput | _ => Ok (plaintext_of input key) end.
Proof.
  intros Hct. pose proof (ciphertext_decrypt_encrypt input key) as Hd.
  unfold symmetric_decrypt. rewrite Hct. by destruct input.
Qed.

(** The command that encrypts an input. *)
Definition encrypt_with (input : EncryptionInput) (package_id : ObjectID) (id : list byte)
    (threshold : byte) (public_keys : list G2Element) (object_ids : list ObjectID) : Command :=
  match input with
  | EAes256Gcm message aad => EncryptAes message aad package_id id threshold public_keys object_ids
  | EHmac256Ctr message aad => EncryptHmac message aad package_id id threshold public_keys object_ids
  | EPlain => PlainKey package_id id threshold public_keys object_ids
  end.

Lemma encrypt_with_inv input package_id id t pks key_servers (s s' : R * Net) out :
  run (encrypt_with input package_id id t pks key_servers) s = (Ok out, s') →
  ∃ obj key r r', seal_encrypt package_id id key_servers (BonehFranklinPublicKeys pks) t input r
      = (Ok (obj, key), r') ∧ encryption_output (E := FastCryptoError) (obj, key) = Ok out.
Proof.
  intros H. assert (encrypt_command package_id id t pks key_servers input s = (Ok out, s')) as H'
    by (destruct input; exact H). clear H. destruct s as [r n].
  unfold encrypt_command in H'. apply st_bind_inv in H' as ([obj key] & s1 & H1 & [H2 _]%st_lift_inv).
  unfold with_thread_rng in H1. destruct (seal_encrypt _ _ _ _ _ _ r) as [o r1] eqn:He.
  injection H1 as -> _. exists obj, key, r, r1. split; [exact He|exact H2].
Qed.

(** A key that was read from what [extract] prints. *)
Definition extracted (package_id : ObjectID) (id : list byte) (msk : MasterKey)
    (usk : UserSecretKey) : Prop :=
  ∃ (s : R * Net) text, run (Extract package_id id msk) s = (Ok ("User secret key: " +:+ text), s) ∧
    parse_serializable DefaultEncoding text = Ok usk.

Lemma append_inj_l (a b c : string) : a +:+ b = a +:+ c → b = c.
Proof. induction a as [|x a IH]; simpl; [done|]. intros H. apply IH. by injection H. Qed.

Lemma extracted_inv package_id id msk usk :
  extracted package_id id msk usk → usk = extract msk (create_full_id package_id id).
Proof.
  intros (s & text & Hrun & Hp). unfold run in Hrun. apply st_lift_inv in Hrun as [He _].
  unfold extract_output in He. apply bind_ok_inv in He as (key & Hk & Heq).
  assert (key = text) as -> by (injection Heq; apply append_inj_l).
  apply parse_serializable_print in Hk. rewrite Hp in Hk. by injection Hk.
Qed.

(** Keys for some of the key servers, in any order. *)
Lemma zip_keys_lookup (P : ObjectID → UserSecretKey → Prop) ids usks ks usk :
  NoDup ids → Forall2 P ids usks →
  (hashmap_collect (zip ids usks) : gmap ObjectID UserSecretKey) !! ks = Some usk → P ks usk.
Proof.
  intros Hnd HF Hl. apply hashmap_collect_elem in Hl.
  induction HF as [|i u ids usks HP HF IH]; [by apply not_elem_of_nil in Hl|].
  simpl in Hl. apply elem_of_cons in Hl as [[= -> ->]|Hl]; [done|].
  apply NoDup_cons in Hnd as [_ Hnd]. by apply IH.
Qed.

Lemma zip_keys_count ids (usks : list UserSecretKey) key_servers :
  NoDup ids → length ids = length usks → ids ⊆ key_servers →
  length ids ≤ length (List.filter (λ ks, bool_decide (is_Some
    ((hashmap_collect (zip ids usks) : gmap ObjectID UserSecretKey) !! ks))) key_servers).
Proof.
  intros Hnd Hl Hsub. apply submseteq_length, NoDup_submseteq; [done|].
  intros ks Hks. apply list_elem_of_In, filter_In. split; [apply list_elem_of_In, Hsub, Hks|].
  apply bool_decide_eq_true. apply not_eq_None_Some. rewrite hashmap_collect_None.
  rewrite fst_zip by lia. auto.
Qed.

(** ** Properties *)

(** C31: The commands of the tool compose through what they print. What
    [encrypt-aes], [encrypt-hmac] and [plain] print for the public keys of the
    key servers' master keys is an object and a symmetric key that the tool
    reads back; [symmetric-decrypt] opens the object with that key, and refuses
    an object without a message; and [decrypt], given keys that [extract]
    printed for at least [threshold] of the key servers, in any order, prints
    the message, or for [plain] the symmetric key. *)
Theorem printed_texts_compose (input : EncryptionInput) (package_id : ObjectID) (id : list byte)
    (t : byte) (key_servers : list ObjectID) (msks : list MasterKey) (s s' : R * Net)
    (out : string) :
  NoDup key_servers →
  run (encrypt_with input package_id id t (public_key_from_master_key <$> msks) key_servers) s
    = (Ok out, s') →
  ∃ obj key obj_text key_text,
    out = "Encrypted object (bcs): " +:+ obj_text +:+ newline +:+ "Symmetric key: " +:+ key_text ∧
    parse_serializable DefaultEncoding obj_text = Ok obj ∧
    encoded_byte_array_from_str KEY_LENGTH key_text = Ok key ∧
    (∀ s1, run (SymmetricDecrypt obj key) s1 =
       (match input with
        | EAes256Gcm m _ | EHmac256Ctr m _ => Ok (symmetric_decrypt_output m)
        | EPlain => Err InvalidInput
        end, s1)) ∧
    (∀ object_ids usks s1,
       NoDup object_ids → N.to_nat (u8_val t) ≤ length object_ids →
       Forall2 (λ ks usk, ∃ i msk, key_servers !! i = Some ks ∧ msks !! i = Some msk ∧
                  extracted package_id id msk usk) object_ids usks →
       run (Decrypt obj usks object_ids) s1 = (Ok (decryption_output (plaintext_of input key)), s1)).
Proof.
  intros Hnd H. apply encrypt_with_inv in H as (obj & key & r & r' & He & Hout).
  destruct (seal_encrypt_key _ _ _ _ _ _ _ _ _ _ He) as [Hct Hlen].
  unfold encryption_output in Hout. apply bind_ok_inv in Hout as (b & Hb & [= <-]).
  exists obj, key, (default_encode b), (default_encode key). split_and!.
  - done.
  - apply (parse_serializable_print (E := FastCryptoError)). unfold serializable_to_string.
    cbn [fst] in Hb. by rewrite Hb.
  - by apply encoded_byte_array_print.
  - intros s1. unfold run. rewrite (symmetric_decrypt_encrypted _ _ _ Hct). by destruct input.
  - intros object_ids usks s1 Hids Hcount HF. unfold run.
    rewrite (seal_decrypt_of_encrypt _ _ _ _ _ _ _ _ _ _
      (hashmap_collect (zip object_ids usks)) None He).
    + by destruct input.
    + intros i ks msk usk Hi Hm Hu.
      apply (zip_keys_lookup _ _ _ _ _ Hids HF) in Hu as (j & msk' & Hj & Hm' & Hex).
      assert (i = j) as -> by exact (NoDup_lookup _ _ _ _ Hnd Hi Hj).
      rewrite Hm in Hm'. injection Hm' as ->. by apply extracted_inv.
    + etrans; [exact Hcount|]. apply zip_keys_count; [exact Hids|exact (Forall2_length _ _ _ HF)|].
      intros ks Hks. apply list_elem_of_lookup in Hks as [i Hi].
      destruct (Forall2_lookup_l _ _ _ _ _ HF Hi) as (usk & _ & j & _ & Hj & _).
      by eapply list_elem_of_lookup_2.
    + by left.
Qed.
End theory.

(** ** A tool without a network

    Encodings are the digits of countable codes; the key servers are [0x01],
    [0x02] and [0x03]. *)
Module ToyTool.
#[local] Existing Instances Toy.curve Toy.symmetric ToyChain.sui.

#[local] Instance encodings : Encodings := {
  hex_decode s := Some (bytes_of s);
  hex_encode_with_format b := String.string_of_list_byte b;
  base64 := {| Options.decode s := Some (bytes_of s);
               Options.encode b := String.string_of_list_byte b |};
}.

#[local] Instance hex_laws : HexLaws.
Proof. intros b. simpl. unfold bytes_of. by rewrite String.list_byte_of_string_of_list_byte. Qed.

(** The codes of a tree are its bits, in bytes. *)
Fixpoint bits (p : positive) : list byte :=
  match p with xH => [] | xO p => Byte.x00 :: bits p | xI p => Byte.x01 :: bits p end.
Fixpoint of_bits (b : list byte) : positive :=
  match b with
  | [] => xH
  | b :: l => if bool_decide (b = Byte.x01) then xI (of_bits l) else xO (of_bits l)
  end.

Lemma of_bits_bits p : of_bits (bits p) = p.
Proof. induction p; simpl; congruence. Qed.

#[local] Instance bcs_of_code {T C : Type} `{Countable C} (code : T → C) (of_code : C → T) : Bcs T := {
  bcs_to_bytes t := Ok (bits (countable.encode (code t)));
  bcs_from_bytes b := of_code <$> ok_or (countable.decode (of_bits b)) "invalid bytes";
}.

Lemma bcs_of_code_laws {T C : Type} `{Countable C} (code : T → C) (of_code : C → T) :
  (∀ t, of_code (code t) = t) → @BcsLaws T (bcs_of_code code of_code).
Proof.
  intros Hc t b Hb. unfold bcs_from_bytes, bcs_to_bytes, bcs_of_code in *. injection Hb as <-.
  rewrite of_bits_bits, countable.decode_encode. simpl. by rewrite Hc.
Qed.

Definition object_code (o : EncryptedObject) :=
  let 'BonehFranklinBLS12381 nonce shares randomness := eo_encrypted_shares o in
  (eo_version o, eo_package_id o, eo_id o, eo_services o, eo_threshold o,
   (nonce : byte, shares, randomness),
   match eo_ciphertext o with
   | CAes256Gcm blob aad => inl (inl (blob, aad))
   | CHmac256Ctr blob aad mac => inl (inr (blob, aad, mac))
   | CPlain => inr ()
   end).

Definition object_of_code
    (c : byte * list byte * list byte * list (list byte * byte) * byte
         * (byte * list (list byte) * list byte)
         * ((list byte * option (list byte)) + (list byte * option (list byte) * list byte) + unit)) :
    EncryptedObject :=
  let '(v, p, i, services, t, (nonce, shares, randomness), ct) := c in
  mkEncryptedObject v p i services t (BonehFranklinBLS12381 (nonce : G2Element) shares randomness)
    (match ct with
     | inl (inl (blob, aad)) => CAes256Gcm blob aad
     | inl (inr (blob, aad, mac)) => CHmac256Ctr blob aad mac
     | inr () => CPlain
     end).

Lemma object_of_object_code o : object_of_code (object_code o) = o.
Proof. by destruct o as [? ? ? ? ? [] []]. Qed.

#[local] Instance tools : UserTools := {
  Net := unit; SuiClient := unit;
  sui_client_build _ n := (inr "no network", n);
  get_dynamic_field_object _ _ _ n := (inr "no network", n);
  post_fetch_key _ _ _ n := (inr "no network", n);
  tools_json := ToyJson.json;
  SUI_MAINNET_FULLNODE := ""; SUI_TESTNET_FULLNODE := "";
  plain_hex_encode b := String.string_of_list_byte b;
  error_display _ := "";
  g2_from_byte_array _ := Err InvalidInput;
  Bcs_object := bcs_of_code object_code object_of_code;
  Bcs_scalar := bcs_of_code (T := byte) (C := byte) id id;
  Bcs_g1 := bcs_of_code (T := byte) (C := byte) id id;
  Bcs_g2 := bcs_of_code (T := byte) (C := byte) id id;
  Bcs_request := {| bcs_to_bytes _ := Err ""; bcs_from_bytes _ := Err "" |};
  Bcs_responses := {| bcs_to_bytes _ := Err ""; bcs_from_bytes _ := Err "" |};
}.

#[local] Instance object_laws : BcsLaws EncryptedObject.
Proof. apply (bcs_of_code_laws _ _ object_of_object_code). Qed.

#[local] Instance g1_laws : BcsLaws G1Element.
Proof. by apply (bcs_of_code_laws (T := byte) (C := byte) id id). Qed.

Definition servers : list ObjectID := [[Byte.x01]; [Byte.x02]; [Byte.x03]].
Definition msks : list Scalar := [Byte.x0a; Byte.x0b; Byte.x0c].
End ToyTool.

#[local] Existing Instances Toy.curve Toy.curve_laws Toy.symmetric Toy.symmetric_laws ToyChain.sui
  ToyTool.encodings ToyTool.hex_laws ToyTool.tools ToyTool.object_laws ToyTool.g1_laws.

(** A message is decrypted with the keys of the third and of the first server. *)
Lemma printed_texts_compose_witness :
  let input := EHmac256Ctr (bytes_of "hi") None in
  let keys := (λ msk, extract msk (create_full_id [Byte.x07] [Byte.x09]))
                <$> [Byte.x0c; Byte.x0a] in
  ∃ obj, run (R := list byte) (Decrypt obj keys [[Byte.x03]; [Byte.x01]]) ([], ())
         = (Ok (decryption_output (bytes_of "hi")), ([], ())).
Proof.
  intros input keys.
  assert (is_ok (run (R := list byte) (encrypt_with input [Byte.x07] [Byte.x09] Byte.x02
    (public_key_from_master_key <$> ToyTool.msks) ToyTool.servers) ([], ())).1 = true) as Hok
    by (vm_compute; reflexivity).
  destruct (run (R := list byte) _ _) as [[out|e|] s'] eqn:H; try discriminate Hok.
  assert (NoDup ToyTool.servers) as Hnd
    by (apply (bool_decide_unpack (NoDup _)); vm_compute; reflexivity).
  destruct (printed_texts_compose input [Byte.x07] [Byte.x09] Byte.x02 ToyTool.servers
    ToyTool.msks _ s' out Hnd H) as (obj & key & ot & kt & _ & _ & _ & _ & Hd).
  exists obj. apply (Hd [[Byte.x03]; [Byte.x01]] keys ([], ())).
  - apply (bool_decide_unpack (NoDup _)). vm_compute. reflexivity.
  - vm_compute. lia.
  - assert (∀ msk, extracted (R := list byte) [Byte.x07] [Byte.x09] msk
      (extract msk (create_full_id [Byte.x07] [Byte.x09]))) as Hex.
    { intros msk. exists ([], ()). eexists. split; [reflexivity|].
      apply (parse_serializable_print (E := FastCryptoError)). reflexivity. }
    constructor; [|constructor; [|constructor]].
    + exists 2, Byte.x0c. split; [reflexivity|]. split; [reflexivity|]. apply Hex.
    + exists 0, Byte.x0a. split; [reflexivity|]. split; [reflexivity|]. apply Hex.
Defined.
