(* ===== verification/CliConfig.v ===== *)
(** * The files of a committee member ([crates/seal-committee-cli/src/])

    [dkg.yaml], which every step of the key generation reads and extends, as
    the helpers of [main.rs] see it: the accessors of its fields, the updates,
    and what is checked before and after the outputs of a key generation are
    written. The file system and YAML are parameters. *)

From Stdlib Require Import NArith Lia.
From Stdlib Require Import Ascii.
From stdpp Require Import pretty countable.
From S2P Require Import Prelude Primitives Ibe Common Chain Committee RpcClient Options.

(** ** Files and YAML *)
Class FileSystem : Type := {
  Files : Type;
  fs_read_to_string : string → Files → string + string;
  fs_write : string → string → Files → (unit + string) * Files;
  fs_set_mode : string → N → Files → (unit + string) * Files;
  fs_create_dir_all : string → Files → (unit + string) * Files;
  fs_remove_file : string → Files → (unit + string) * Files;
  path_exists : string → Files → bool;
  (** the paths of the entries of a directory *)
  fs_read_dir : string → Files → list (string + string) + string;
}.

(** A write changes one file, the rest only the permissions and directories. *)
Class FileSystemLaws `{FileSystem} : Prop := {
  read_write p c w w' : fs_write p c w = (inl (), w') → fs_read_to_string p w' = inl c;
  read_write_other p p' c w r w' : fs_write p c w = (r, w') → p ≠ p' →
    fs_read_to_string p' w' = fs_read_to_string p' w;
  read_set_mode p p' m w r w' : fs_set_mode p m w = (r, w') →
    fs_read_to_string p' w' = fs_read_to_string p' w;
  read_create_dir p p' w r w' : fs_create_dir_all p w = (r, w') →
    fs_read_to_string p' w' = fs_read_to_string p' w;
}.

(** [serde_yaml::Value]: [v.get(k)], [v[k] = x], and conversions. *)
Class Yaml : Type := {
  Value : Type;
  yaml_get : Value → string → option Value;
  (** panics on a value that is neither a mapping nor null *)
  yaml_set : string → Value → Value → outcome string Value;
  (** [v[k]] where it is assigned to: null if there is none *)
  yaml_null : Value;
  as_str : Value → option string;
  as_sequence : Value → option (list Value);
  as_u64 : Value → option N;
  yaml_string : string → Value;
  yaml_empty_mapping : Value;
  yaml_from_str : string → outcome string Value;
  yaml_to_string : Value → outcome string string;
}.

Class YamlLaws `{Yaml} : Prop := {
  get_set k x v v' k' : yaml_set k x v = Ok v' →
    yaml_get v' k' = if decide (k = k') then Some x else yaml_get v k';
  get_empty k : yaml_get yaml_empty_mapping k = None;
  get_null k : yaml_get yaml_null k = None;
  as_str_string s : as_str (yaml_string s) = Some s;
  yaml_round_trip v s : yaml_to_string v = Ok s → yaml_from_str s = Ok v;
}.

Section config.
  Context {fs : FileSystem} {yaml : Yaml} {encs : Encodings} {sui : SuiTypes}.

(** ** Running on files; errors of [anyhow] are their messages *)
Definition FM (A : Type) : Type := ST Files string A.

Definition fs_get {A : Type} (f : Files → A + string) : FM A :=
  w ← st_get; st_lift (of_sum (f w)).

Definition fs_do {A : Type} (f : Files → (A + string) * Files) : FM A :=
  λ w, let '(r, w) := f w in (of_sum r, w).

Definition write_secret_file (path content : string) : FM unit :=
  _ ← fs_do (fs_write path content);
  fs_do (fs_set_mode path 384 (* 0o600 *)).

Definition derive_paths (state_dir : string) : string * string :=
  (state_dir +:+ "/dkg.yaml", state_dir +:+ "/dkg.key").

Definition load_config (path : string) : FM Value :=
  content ← st_map_err (λ _, "Failed to read config file: " +:+ path)
              (fs_get (fs_read_to_string path));
  st_lift (map_err (λ _, "Failed to parse YAML config: " +:+ path) (yaml_from_str content)).

(** ** The fields *)
Definition get_config_field (config : Value) (section field : string) : option Value :=
  section ← yaml_get config section; yaml_get section field.

Definition str_field (config : Value) (section field : string) : option string :=
  get_config_field config section field ≫= as_str.

Section accessors.
  Context (to_lowercase : string → string).

Definition get_network (config : Value) : outcome string CommitteeNetwork :=
  network_str ← ok_or (str_field config "init-params" "NETWORK")
                  "NETWORK not found in config or invalid";
  map_err (λ e, "Invalid NETWORK " +:+ network_str +:+ ": " +:+ e)
    (committee_network_from_str to_lowercase network_str).
End accessors.

Definition get_node_url (config : Value) : option string :=
  str_field config "init-params" "NODE_URL".

Definition get_members (config : Value) : outcome string (list Address) :=
  members ← ok_or (get_config_field config "init-params" "MEMBERS" ≫= as_sequence)
              "MEMBERS list not found or invalid in config";
  match members with
  | [] => Err "MEMBERS list is empty"
  | _ =>
      try_map (λ '(index, member),
        addr_str ← ok_or (as_str member) ("MEMBERS[" +:+ pretty index +:+ "] must be a string");
        address_from_str addr_str) (enumerate members)
  end.

(** The cast to [u16] drops the upper bits. *)
Definition get_threshold (config : Value) : outcome string N :=
  threshold ← ok_or (get_config_field config "init-params" "THRESHOLD" ≫= as_u64)
                "THRESHOLD not found or invalid in config";
  if (threshold <=? 1)%N then
    Err ("THRESHOLD must be greater than 1, got " +:+ pretty threshold)
  else Ok (threshold `mod` 2 ^ 16)%N.

Definition get_key_server_obj_id (config : Value) : outcome string Address :=
  id_str ← ok_or (str_field config "init-rotation-params" "KEY_SERVER_OBJ_ID")
             "KEY_SERVER_OBJ_ID not found in config";
  address_from_str id_str.

Definition committee_id_section (config : Value) : string :=
  match get_config_field config "init-rotation-params" "KEY_SERVER_OBJ_ID" with
  | Some _ => "init-rotation"
  | None => "publish-and-init"
  end.

Definition get_committee_pkg (config : Value) : outcome string Address :=
  pkg_str ← ok_or (str_field config (committee_id_section config) "COMMITTEE_PKG")
              "COMMITTEE_PKG not found in config";
  address_from_str pkg_str.

Definition get_committee_id (config : Value) : outcome string Address :=
  id_str ← ok_or (str_field config (committee_id_section config) "COMMITTEE_ID")
             "COMMITTEE_ID not found in config";
  address_from_str id_str.

Definition get_my_address (config : Value) : outcome string Address :=
  addr_str ← ok_or (str_field config "genkey-and-register" "MY_ADDRESS")
               "MY_ADDRESS not found in config";
  address_from_str addr_str.

(** ** Updates *)

(** [config[section][key] = value] *)
Definition set_config_field (section key : string) (value config : Value) : outcome string Value :=
  s ← yaml_set key value (default yaml_null (yaml_get config section));
  yaml_set section s config.

Fixpoint set_config_fields (section : string) (updates : list (string * Value)) (config : Value) :
    outcome string Value :=
  match updates with
  | [] => Ok config
  | (key, value) :: updates =>
      config ← set_config_field section key value config;
      set_config_fields section updates config
  end.

(** The common part of the two updates. *)
Definition update_config (path section : string) (updates : list (string * Value)) : FM unit :=
  content ← fs_get (fs_read_to_string path);
  config ← st_lift (yaml_from_str content);
  config ← st_lift (match yaml_get config section with
                    | None => yaml_set section yaml_empty_mapping config
                    | Some _ => Ok config
                    end);
  config ← st_lift (set_config_fields section updates config);
  updated ← st_lift (yaml_to_string config);
  fs_do (fs_write path updated).

Definition update_config_bytes_val (path section : string) (updates : list (string * list byte)) :
    FM unit :=
  update_config path section
    ((λ '(key, bytes), (key, yaml_string (hex_encode_with_format bytes))) <$> updates).

(** A string that is YAML is stored as what it parses to. *)
Definition yaml_of_string (value : string) : Value :=
  match yaml_from_str value with Ok v => v | _ => yaml_string value end.

Definition update_config_string_val (path section : string) (updates : list (string * string)) :
    FM unit :=
  update_config path section ((λ '(key, value), (key, yaml_of_string value)) <$> updates).

(** ** The outputs of a key generation *)
Definition PROCESS_SECTION : string := "process-all-and-propose".
Definition master_share_key (version : N) : string := "MASTER_SHARE_V" +:+ pretty version.
Definition partial_pks_key (version : N) : string := "PARTIAL_PKS_V" +:+ pretty version.

Definition persist_process_outputs (trim : string → string) (config : string) (next_version : N)
    (key_server_pk_bytes : list byte) (old_key_server_pk : option (list byte))
    (partial_pks_yaml : string) (master_share_bytes : list byte) : FM unit :=
  _ ← (if (next_version =? 0)%N then
         update_config_bytes_val config PROCESS_SECTION [("KEY_SERVER_PK", key_server_pk_bytes)]
       else
         onchain_pk ← st_lift (expect old_key_server_pk);
         if bool_decide (onchain_pk = key_server_pk_bytes) then mret ()
         else st_lift (Err ("KEY_SERVER_PK mismatch!\n  Expected (onchain): "
                +:+ hex_encode_with_format onchain_pk +:+ "\n  Got (from rotation DKG): "
                +:+ hex_encode_with_format key_server_pk_bytes)));
  _ ← update_config_string_val config PROCESS_SECTION
        [(partial_pks_key next_version, trim partial_pks_yaml)];
  update_config_bytes_val config PROCESS_SECTION
    [(master_share_key next_version, master_share_bytes)].

Definition expected_process_output_fields (next_version : N) : list string :=
  [master_share_key next_version; partial_pks_key next_version]
    ++ (if (next_version =? 0)%N then ["KEY_SERVER_PK"] else []).

Definition has_field (config : Value) (field : string) : bool :=
  bool_decide (is_Some (get_config_field config PROCESS_SECTION field)).

Definition existing_process_output_fields (config : Value) (next_version : N) : list string :=
  List.filter (has_field config) (expected_process_output_fields next_version).

(** [fields_debug] renders names in messages. *)
Definition validate_process_section (fields_debug : list string → string) (config : Value)
    (next_version : N) (old_key_server_pk : option (list byte)) : outcome string unit :=
  match existing_process_output_fields config next_version with
  | [] =>
      if (next_version =? 0)%N then Ok ()
      else
        onchain_pk ← ok_or old_key_server_pk ("Rotation output for version "
          +:+ pretty next_version +:+ " requires the old onchain KEY_SERVER_PK");
        match str_field config PROCESS_SECTION "KEY_SERVER_PK" with
        | Some config_pk =>
            config_pk_bytes ← ok_or (hex_decode config_pk)
              "process-all-and-propose.KEY_SERVER_PK must be hex";
            if bool_decide (config_pk_bytes = onchain_pk) then Ok ()
            else Err ("process-all-and-propose.KEY_SERVER_PK mismatch!\n  Expected (onchain): "
                   +:+ hex_encode_with_format onchain_pk +:+ "\n  Got (config): "
                   +:+ hex_encode_with_format config_pk_bytes)
        | None => Ok ()
        end
  | existing => Err ("process-all-and-propose already contains output field(s) for version "
                  +:+ pretty next_version +:+ ": " +:+ fields_debug existing
                  +:+ ". Remove them before reprocessing.")
  end.

Definition validate_process_outputs_added (fields_debug : list string → string) (config : Value)
    (next_version : N) : outcome string unit :=
  match List.filter (λ field, negb (has_field config field))
          (expected_process_output_fields next_version) with
  | [] => Ok ()
  | missing => Err ("process-all-and-propose did not write expected field(s) for version "
                 +:+ pretty next_version +:+ ": " +:+ fields_debug missing)
  end.
End config.

(** ** Gas budgets *)
Definition PACKAGE_OPS_TESTNET : N := 100000000.
Definition PACKAGE_OPS_MAINNET : N := 100000000.
Definition REGULAR_TESTNET : N := 10000000.
Definition REGULAR_MAINNET : N := 10000000.

Definition package_ops_budget (gas_budget : option N) (network : CommitteeNetwork) : N :=
  default (match network with CTestnet => PACKAGE_OPS_TESTNET | CMainnet => PACKAGE_OPS_MAINNET end)
    gas_budget.

Definition regular_gas_budget (gas_budget : option N) (network : CommitteeNetwork) : N :=
  default (match network with CTestnet => REGULAR_TESTNET | CMainnet => REGULAR_MAINNET end)
    gas_budget.

(** ** Lemmas *)
Section theory.
  Context {fs : FileSystem} {fs_laws : FileSystemLaws} {yaml : Yaml} {yaml_laws : YamlLaws}
    {encs : Encodings}.

Lemma fs_get_inv {A : Type} (f : Files → A + string) w a w' :
  fs_get f w = (Ok a, w') → f w = inl a ∧ w' = w.
Proof. unfold fs_get, mbind, st_bind, st_get, st_lift. destruct (f w); by intros [= -> ->]. Qed.

Lemma load_config_inv path w c w' :
  load_config path w = (Ok c, w') →
  w' = w ∧ ∃ content, fs_read_to_string path w = inl content ∧ yaml_from_str content = Ok c.
Proof.
  unfold load_config, st_map_err, fs_get, mbind, st_bind, st_get, st_lift.
  destruct (fs_read_to_string path w) as [content|]; [|done]. simpl.
  destruct (yaml_from_str content) eqn:Hc; intros [= -> ->]. eauto.
Qed.

Lemma load_config_ok path w content c :
  fs_read_to_string path w = inl content → yaml_from_str content = Ok c →
  load_config path w = (Ok c, w).
Proof.
  intros Hr Hc. unfold load_config, st_map_err, fs_get, mbind, st_bind, st_get, st_lift.
  by rewrite Hr; simpl; rewrite Hc.
Qed.

Lemma set_config_field_get section key v c c' :
  set_config_field section key v c = Ok c' →
  ∀ s k, get_config_field c' s k
         = if decide (section = s ∧ key = k) then Some v else get_config_field c s k.
Proof.
  unfold set_config_field. intros (m & Hm & Hc)%bind_ok_inv s k. unfold get_config_field.
  rewrite (get_set _ _ _ _ _ Hc). case_decide as Hs; cbn [mbind option_bind].
  - subst. rewrite (get_set _ _ _ _ _ Hm). case_decide as Hk.
    + subst. by rewrite decide_True.
    + rewrite decide_False by naive_solver. destruct (yaml_get c s); [done|]. apply get_null.
  - by rewrite decide_False by naive_solver.
Qed.

(** What an update changes: the fields that it names, and nothing else. *)
Definition updated (section : string) (updates : list (string * Value)) (c c' : Value) : Prop :=
  (NoDup updates.*1 → ∀ k v, (k, v) ∈ updates → get_config_field c' section k = Some v) ∧
  ∀ s k, (s = section → k ∉ updates.*1) → get_config_field c' s k = get_config_field c s k.

Lemma set_config_fields_updated section updates c c' :
  set_config_fields section updates c = Ok c' → updated section updates c c'.
Proof.
  revert c. induction updates as [|[k v] updates IH]; intros c; cbn [set_config_fields].
  { intros [= <-]. split; [set_solver|done]. }
  intros (c1 & H1 & H2)%bind_ok_inv. pose proof (set_config_field_get _ _ _ _ _ H1) as Hg.
  destruct (IH _ H2) as [IH1 IH2]. split; csimpl.
  - intros [Hk Hnd]%NoDup_cons k' v'. rewrite elem_of_cons. intros [[= -> ->]|Hin]; [|by apply IH1].
    rewrite IH2 by done. rewrite Hg. by rewrite decide_True.
  - intros s k' Hn. rewrite IH2, Hg; [|set_solver]. rewrite decide_False; [done|set_solver].
Qed.

Lemma update_config_spec path section updates w w' :
  update_config path section updates w = (Ok (), w') →
  ∃ c c', load_config path w = (Ok c, w) ∧ load_config path w' = (Ok c', w') ∧
    updated section updates c c' ∧
    ∀ p, p ≠ path → fs_read_to_string p w' = fs_read_to_string p w.
Proof.
  unfold update_config. intros H.
  apply st_bind_inv in H as (content & w1 & [Hr ->]%fs_get_inv & H).
  apply st_bind_inv in H as (c & w2 & [Hc ->]%st_lift_inv & H).
  apply st_bind_inv in H as (c1 & w3 & [Hc1 ->]%st_lift_inv & H).
  apply st_bind_inv in H as (c2 & w4 & [Hc2%set_config_fields_updated ->]%st_lift_inv & H).
  apply st_bind_inv in H as (text & w5 & [Ht ->]%st_lift_inv & H).
  unfold fs_do in H. destruct (fs_write path text w) as [r w6] eqn:Hw.
  destruct r as [[]|]; [|done]. injection H as <-.
  exists c, c2. split; [by eapply load_config_ok|].
  split; [by eapply load_config_ok; [eapply read_write|eapply yaml_round_trip]|].
  split; [|by intros p Hp; eapply read_write_other].
  assert (∀ s k, get_config_field c1 s k = get_config_field c s k) as Hsame.
  { intros s k. destruct (yaml_get c section) eqn:Hs; [by injection Hc1 as ->|].
    unfold get_config_field. rewrite (get_set _ _ _ _ _ Hc1). case_decide; [|done]. subst.
    rewrite Hs. cbn. apply get_empty. }
  destruct Hc2 as [H1 H2]. split; [done|]. intros s k Hn. by rewrite H2.
Qed.

(** The update of one field. *)
Lemma update_one_spec path section key v c w w' :
  load_config path w = (Ok c, w) → update_config path section [(key, v)] w = (Ok (), w') →
  ∃ c', load_config path w' = (Ok c', w') ∧ get_config_field c' section key = Some v ∧
    (∀ s k, (s = section → k ≠ key) → get_config_field c' s k = get_config_field c s k) ∧
    ∀ p, p ≠ path → fs_read_to_string p w' = fs_read_to_string p w.
Proof.
  intros Hc Hu. apply update_config_spec in Hu as (c0 & c' & Hc0 & Hc' & [H1 H2] & Hp).
  rewrite Hc in Hc0. injection Hc0 as <-. exists c'. split; [done|]. split.
  - apply H1; [apply NoDup_singleton|by left].
  - split; [|done]. intros s k Hn. apply H2. set_solver.
Qed.

Lemma master_share_key_other version key :
  key = partial_pks_key version ∨ key = "KEY_SERVER_PK" → master_share_key version ≠ key.
Proof. by intros [-> | ->]. Qed.

(** What is written, and that the rest is as it was. *)
Lemma persist_process_outputs_spec trim path version pk old_pk pks share c w w' :
  load_config path w = (Ok c, w) →
  persist_process_outputs trim path version pk old_pk pks share w = (Ok (), w') →
  ∃ c', load_config path w' = (Ok c', w') ∧
    (∀ s k, (s = PROCESS_SECTION → k ∉ expected_process_output_fields version) →
       get_config_field c' s k = get_config_field c s k) ∧
    get_config_field c' PROCESS_SECTION (master_share_key version)
      = Some (yaml_string (hex_encode_with_format share)) ∧
    get_config_field c' PROCESS_SECTION (partial_pks_key version)
      = Some (yaml_of_string (trim pks)) ∧
    (if (version =? 0)%N
     then get_config_field c' PROCESS_SECTION "KEY_SERVER_PK"
            = Some (yaml_string (hex_encode_with_format pk))
     else old_pk = Some pk) ∧
    ∀ p, p ≠ path → fs_read_to_string p w' = fs_read_to_string p w.
Proof.
  intros Hc H. unfold persist_process_outputs, expected_process_output_fields in *.
  apply st_bind_inv in H as ([] & w1 & H1 & H).
  apply st_bind_inv in H as ([] & w2 & H2 & H3).
  assert (∃ c1, load_config path w1 = (Ok c1, w1) ∧
    (∀ s k, (s = PROCESS_SECTION → k ∉ (if (version =? 0)%N then ["KEY_SERVER_PK"] else [])) →
       get_config_field c1 s k = get_config_field c s k) ∧
    (if (version =? 0)%N
     then get_config_field c1 PROCESS_SECTION "KEY_SERVER_PK"
            = Some (yaml_string (hex_encode_with_format pk))
     else old_pk = Some pk) ∧
    ∀ p, p ≠ path → fs_read_to_string p w1 = fs_read_to_string p w)
    as (c1 & Hc1 & Hsame1 & Hpk & Hp1).
  { destruct (version =? 0)%N.
    - destruct (update_one_spec _ _ _ _ _ _ _ Hc H1) as (c1 & ? & ? & Hs & ?).
      exists c1. split_and!; try done. intros s k Hn. apply Hs. set_solver.
    - apply st_bind_inv in H1 as (onchain & w0 & [Ho ->]%st_lift_inv & H1).
      destruct old_pk; [|done]. injection Ho as ->. case_bool_decide; [|by apply st_lift_inv in H1 as [? _]].
      apply st_ret_inv in H1 as [_ ->]. subst. eauto 10. }
  destruct (update_one_spec _ _ _ _ _ _ _ Hc1 H2) as (c2 & Hc2 & Hpks & Hsame2 & Hp2).
  destruct (update_one_spec _ _ _ _ _ _ _ Hc2 H3) as (c3 & Hc3 & Hshare & Hsame3 & Hp3).
  exists c3. split_and!; try done.
  - intros s k Hn. rewrite Hsame3, Hsame2, Hsame1; set_solver.
  - by rewrite Hsame3.
  - destruct (version =? 0)%N; [|done]. by rewrite Hsame3, Hsame2.
  - intros p Hp. by rewrite Hp3, Hp2, Hp1.
Qed.

(** What the check before the processing excludes. *)
Lemma validate_process_section_none debug c version old_pk :
  validate_process_section debug c version old_pk = Ok () →
  ∀ k, k ∈ expected_process_output_fields version → get_config_field c PROCESS_SECTION k = None.
Proof.
  unfold validate_process_section, existing_process_output_fields. intros H k Hk.
  destruct (List.filter _ _) as [|x l] eqn:Hf; [|done].
  destruct (get_config_field c PROCESS_SECTION k) eqn:Hg; [|done].
  assert (In k (List.filter (has_field c) (expected_process_output_fields version))) as Hin;
    [|by rewrite Hf in Hin].
  apply filter_In. split; [by apply list_elem_of_In|].
  unfold has_field. rewrite Hg. by apply bool_decide_eq_true.
Qed.
End theory.

(** ** Concrete files

    Values of a countable type are written as the binary digits of their
    codes; files are a map, and YAML values are trees, a mapping being the list
    of its keys and values, where the first entry of a key counts. *)
Module ToyFiles.
Fixpoint digits (p : positive) : string :=
  match p with
  | xH => EmptyString
  | xO p => String "0" (digits p)
  | xI p => String "1" (digits p)
  end.

Fixpoint of_digits (s : string) : positive :=
  match s with
  | EmptyString => xH
  | String c s => if Ascii.eqb c "1" then xI (of_digits s) else xO (of_digits s)
  end.

Lemma of_digits_digits p : of_digits (digits p) = p.
Proof. induction p; simpl; congruence. Qed.

Definition print `{Countable A} (a : A) : string := digits (countable.encode a).
Definition parse `{Countable A} (s : string) : option A := countable.decode (of_digits s).

Lemma parse_print `{Countable A} (a : A) : parse (print a) = Some a.
Proof. unfold parse, print. by rewrite of_digits_digits, countable.decode_encode. Qed.

#[local] Instance file_system : FileSystem := {
  Files := gmap string string;
  fs_read_to_string p w := match w !! p with Some c => inl c | None => inr "not found" end;
  fs_write p c w := (inl (), <[p := c]> w);
  fs_set_mode p _ w := (inl (), w);
  fs_create_dir_all _ w := (inl (), w);
  fs_remove_file p w := (inl (), delete p w);
  path_exists p w := bool_decide (is_Some (w !! p));
  fs_read_dir d w := inl (inl <$> List.filter (String.prefix (d +:+ "/")) (map_to_list w).*1);
}.

#[local] Instance file_system_laws : FileSystemLaws.
Proof.
  split; simpl.
  - intros p c w w' [= <-]. by rewrite lookup_insert_eq.
  - intros p p' c w r w' [= _ <-] Hp. by rewrite lookup_insert_ne.
  - by intros p p' m w r w' [= _ <-].
  - by intros p p' w r w' [= _ <-].
Qed.

Definition Tree : Type := gen_tree (string + N).

Fixpoint get_pair (k : string) (l : list Tree) : option Tree :=
  match l with
  | GenLeaf (inl k') :: v :: l => if decide (k' = k) then Some v else get_pair k l
  | _ => None
  end.

#[local] Instance yaml : Yaml := {
  Value := Tree;
  yaml_get v k := match v with GenNode 0 l => get_pair k l | _ => None end;
  yaml_set k x v :=
    match v with
    | GenNode 0 l => Ok (GenNode 0 (GenLeaf (inl k) :: x :: l))
    | GenNode 2 [] => Ok (GenNode 0 [GenLeaf (inl k); x])
    | _ => Panic
    end;
  yaml_null := GenNode 2 [];
  as_str v := match v with GenLeaf (inl s) => Some s | _ => None end;
  as_sequence v := match v with GenNode 1 l => Some l | _ => None end;
  as_u64 v := match v with GenLeaf (inr n) => Some n | _ => None end;
  yaml_string s := GenLeaf (inl s);
  yaml_empty_mapping := GenNode 0 [];
  yaml_from_str s := ok_or (parse s) "invalid YAML";
  yaml_to_string v := Ok (print v);
}.

#[local] Instance yaml_laws : YamlLaws.
Proof.
  split; try done.
  - intros k x v v' k'. simpl. destruct v as [|[|[|[|]]] l]; try done; [by intros [= <-]|].
    destruct l; [|done]. intros [= <-]. done.
  - intros v s Hs. injection Hs as <-. unfold yaml_from_str, yaml. by rewrite parse_print.
Qed.

(** Texts are their bytes. *)
#[local] Instance encodings : Encodings := {
  hex_decode s := Some (bytes_of s);
  hex_encode_with_format b := String.string_of_list_byte b;
  base64 := {| Options.decode s := Some (bytes_of s);
               Options.encode b := String.string_of_list_byte b |};
}.
End ToyFiles.
