(* ===== verification/Dkg.v ===== *)
(** * Distributed key generation ([crates/seal-committee-cli/src/types.rs],
    [main.rs]: the messages and [process_dkg_messages])

    Every member of a committee signs a message, gets those of all the others,
    and computes its share of the key from them. The protocol itself is that
    of a library, a parameter here; the sources decide whose messages it is
    given, check their signatures, and stop at a complaint. *)

From Stdlib Require Import NArith Lia Ascii.
From stdpp Require Import pretty sorting.
From S2P Require Import Prelude Gf256 Primitives Ibe Common Chain Committee RpcClient Options.
From S2P Require Import CliConfig.

(** ** The library of the protocol *)
Record DkgNode `{Curve} : Type := mkDkgNode { dn_id : N; dn_pk : G1Element; dn_weight : N }.
Arguments mkDkgNode {_} _ _ _.
Arguments dn_id {_} _.
Arguments dn_pk {_} _.
Arguments dn_weight {_} _.

(** Encryption keys are pairs in [G1], signing keys have their public key in
    [G2]; a source of randomness is passed through every call that draws. *)
Class DkgLib `{Curve} : Type := {
  Rng : Type;
  Message : Type;
  msg_sender : Message → N;
  DLNizk : Type;
  Signature : Type;
  Complaint : Type;
  complaint_bytes : Complaint → outcome string (list byte);
  Nodes : Type;
  nodes_new : list DkgNode → outcome string Nodes;
  num_nodes : Nodes → nat;
  RandomOracle : Type;
  random_oracle_new : string → RandomOracle;
  Party : Type;
  (** key, nodes, threshold, oracle, old share, old threshold *)
  new_advanced : Scalar → Nodes → N → RandomOracle → option Scalar → option N → Rng →
    outcome string Party * Rng;
  create_message : Party → Rng → outcome string Message * Rng;
  nizk_pop_of_secret : Party → Rng → DLNizk * Rng;
  ProcessedMessage : Type;
  pm_sender : ProcessedMessage → N;
  pm_complaint : ProcessedMessage → option Complaint;
  process_message_with_checks : Party → Message → option G2Element → option DLNizk → Rng →
    outcome string ProcessedMessage * Rng;
  Confirmation : Type;
  confirmation_complaints : Confirmation → list Complaint;
  UsedProcessedMessages : Type;
  merge : Party → list ProcessedMessage → outcome string (Confirmation * UsedProcessedMessages);
  Output : Type;
  complete_optimistic : Party → UsedProcessedMessages → outcome string Output;
  complete_optimistic_key_rotation :
    Party → UsedProcessedMessages → gmap N N → outcome string Output;
  (** [output.vss_pk.c0()], [output.vss_pk.eval(index)], the values of [output.shares] *)
  output_c0 : Output → G2Element;
  output_eval : Output → N → G2Element;
  output_shares : Output → option (list Scalar);
  bls_sign : Scalar → list byte → Signature;
  bls_verify : G2Element → list byte → Signature → outcome string unit;
  blake2b256 : list byte → list byte;
}.

Definition DST_DKG : string := "SEAL_DKG_V0:".
Definition DST_DKG_MESSAGE_SIGNATURE : string := "SEAL_DKG_MESSAGE_SIGNATURE_V0".

Section types.
  Context {crv : Curve} {dkg : DkgLib}.

Record KeysFile : Type := mkKeysFile {
  kf_enc_sk : Scalar;
  kf_enc_pk : G1Element;
  kf_signing_sk : Scalar;
  kf_signing_pk : G2Element;
}.

Record InitializedConfig : Type := mkInitializedConfig {
  ic_my_party_id : N;
  ic_nodes : Nodes;
  ic_committee_id : Address;
  ic_threshold : N;
  ic_signing_pks : gmap N G2Element;
  ic_old_threshold : option N;
  ic_new_to_old_mapping : option (gmap N N);
  ic_expected_old_pks : option (gmap N G2Element);
  ic_my_old_share : option Scalar;
  ic_my_old_pk : option G2Element;
}.

Record DkgState : Type := mkDkgState {
  ds_config : InitializedConfig;
  ds_my_message : option Message;
  ds_received_messages : gmap N Message;
  ds_processed_messages : list ProcessedMessage;
  ds_confirmation : option (Confirmation * UsedProcessedMessages);
  ds_output : option Output;
}.

Record MessageSignaturePayload : Type := mkPayload {
  sp_domain : string;
  sp_committee_id : Address;
  sp_message : Message;
  sp_nizk_proof : DLNizk;
}.

Record SignedMessage : Type := mkSignedMessage {
  sm_message : Message;
  sm_signature : Signature;
  sm_nizk_proof : DLNizk;
}.

Definition sm_sender (m : SignedMessage) : N := msg_sender (sm_message m).
End types.

(** BCS and JSON of the types above. *)
Class DkgCodecs `{DkgLib} : Type := {
  bcs_payload : MessageSignaturePayload → outcome string (list byte);
  bcs_signed_message : SignedMessage → outcome string (list byte);
  bcs_decode_signed_message : list byte → outcome string SignedMessage;
  bcs_signed_messages : list SignedMessage → outcome string (list byte);
  (** the field [message] of a JSON file, and the file with it *)
  json_message : string → outcome string (option string);
  json_of_message : string → outcome string string;
  json_keys_file : KeysFile → outcome string string;
  json_decode_keys_file : string → outcome string KeysFile;
  json_state : DkgState → outcome string string;
  json_decode_state : string → outcome string DkgState;
  hex_encode : list byte → string;
  ids_debug : list N → string;
}.

Section dkg.
  Context {crv : Curve} {dkg : DkgLib} {codecs : DkgCodecs} {fs : FileSystem}
    {encs : Encodings} {sui : SuiTypes}.

(** ** Files *)
Definition keys_load (path : string) : FM KeysFile :=
  keys_content ← st_map_err (λ e, "Failed to read keys file " +:+ path +:+ ": " +:+ e)
                   (fs_get (fs_read_to_string path));
  st_lift (map_err (λ e, "Failed to parse keys file " +:+ path +:+ ": " +:+ e)
             (json_decode_keys_file keys_content)).

Definition state_save (self : DkgState) (state_dir : string) : FM unit :=
  _ ← fs_do (fs_create_dir_all state_dir);
  json ← st_lift (json_state self);
  fs_do (fs_write (state_dir +:+ "/state.json") json).

Definition state_load (state_dir : string) : FM DkgState :=
  json ← fs_get (fs_read_to_string (state_dir +:+ "/state.json"));
  st_lift (json_decode_state json).

(** [Path::extension]: what follows the last dot of the file name, unless the
    name begins with it. *)
Fixpoint split_at (c : ascii) (s : string) : option (string * string) :=
  match s with
  | EmptyString => None
  | String c' s' =>
      if Ascii.eqb c c' then Some ("", s')
      else '(before, after) ← split_at c s'; Some (String c' before, after)
  end.

Definition extension (path : string) : option string :=
  let reversed := String.rev path in
  let name := match split_at "/" reversed with Some (name, _) => name | None => reversed end in
  match split_at "." name with
  | Some (ext, stem) => if bool_decide (stem = "") then None else Some (String.rev ext)
  | None => None
  end.

(** ** Signatures *)
Definition sign_message (committee_id : Address) (message : Message) (sk : Scalar)
    (nizk_proof : DLNizk) : outcome string SignedMessage :=
  let payload := mkPayload DST_DKG_MESSAGE_SIGNATURE committee_id message nizk_proof in
  payload_bytes ← expect_ok (bcs_payload payload);
  Ok (mkSignedMessage message (bls_sign sk payload_bytes) nizk_proof).

Definition verify_signature (committee_id : Address) (signed_msg : SignedMessage)
    (pk : G2Element) : outcome string unit :=
  let payload := mkPayload DST_DKG_MESSAGE_SIGNATURE committee_id (sm_message signed_msg)
                   (sm_nizk_proof signed_msg) in
  payload_bytes ← bcs_payload payload;
  bls_verify pk payload_bytes (sm_signature signed_msg).

Definition create_dkg_random_oracle (committee_id : Address) : RandomOracle :=
  random_oracle_new (DST_DKG +:+ address_to_string committee_id).

(** ** The messages of a directory *)
Definition load_message (path : string) : FM SignedMessage :=
  content ← st_map_err (λ e, "Failed to read " +:+ path +:+ ": " +:+ e)
              (fs_get (fs_read_to_string path));
  message ← st_lift (map_err (λ e, "Failed to parse " +:+ path +:+ ": " +:+ e)
                       (json_message content));
  message_hex ← st_lift (ok_or message ("Missing 'message' field in " +:+ path));
  st_lift (map_err (λ e, "Failed to deserialize message from " +:+ path +:+ ": " +:+ e)
    (bytes ← ok_or (hex_decode message_hex) "invalid hex"; bcs_decode_signed_message bytes)).

Fixpoint load_entries (entries : list (string + string)) : FM (list SignedMessage) :=
  match entries with
  | [] => mret []
  | entry :: entries =>
      path ← st_lift (of_sum entry);
      if negb (bool_decide (extension path = Some "json")) then load_entries entries
      else
        signed_message ← load_message path;
        messages ← load_entries entries;
        mret (signed_message :: messages)
  end.

Definition load_messages_from_dir (messages_dir : string) : FM (list SignedMessage) :=
  entries ← st_map_err (λ e, "Failed to read messages directory " +:+ messages_dir +:+ ": " +:+ e)
              (fs_get (fs_read_dir messages_dir));
  messages ← load_entries entries;
  match messages with
  | [] => st_lift (Err ("No message files found in directory: " +:+ messages_dir))
  | _ => mret messages
  end.

(** ** Processing *)

(** The state of [process_dkg_messages]: [&mut DkgState], and randomness. *)
Definition DM (A : Type) : Type := ST (DkgState * Rng) string A.

Definition with_rng {A : Type} (f : Rng → outcome string A * Rng) : DM A :=
  λ '(st, rng), let '(r, rng) := f rng in (r, (st, rng)).

Definition modify_state (f : DkgState → DkgState) : DM unit :=
  st_modify (λ '(st, rng), (f st, rng)).

(** The loop that looks for duplicates: all senders. *)
Fixpoint distinct_senders (seen : gset N) (messages : list SignedMessage) :
    outcome string (gset N) :=
  match messages with
  | [] => Ok seen
  | m :: messages =>
      if bool_decide (sm_sender m ∈ seen)
      then Err ("Duplicate DKG message from party " +:+ pretty (sm_sender m))
      else distinct_senders ({[sm_sender m]} ∪ seen) messages
  end.

Definition sender_le (a b : SignedMessage) : Prop := (sm_sender a ≤ sm_sender b)%N.
#[global] Instance sender_le_dec a b : Decision (sender_le a b).
Proof. unfold sender_le. apply _. Defined.

Definition validate_rotation_message_senders (old_threshold : N) (new_to_old_mapping : gmap N N)
    (message_senders : gset N) : outcome string unit :=
  if negb (size message_senders =? N.to_nat old_threshold) then
    Err ("Key rotation requires exactly " +:+ pretty old_threshold
           +:+ " messages from continuing members, got " +:+ pretty (size message_senders))
  else
    match merge_sort N.le (elements (filter (λ sender, new_to_old_mapping !! sender = None)
                                       message_senders)) with
    | [] => Ok ()
    | invalid => Err ("Key rotation messages must come from continuing members. Invalid new party ID(s): "
                   +:+ ids_debug invalid)
    end.

(** The count of the messages. *)
Definition validate_senders (config : InitializedConfig) (count : nat) (seen_senders : gset N) :
    outcome string unit :=
  match ic_old_threshold config with
  | Some old_threshold =>
      new_to_old_mapping ← ok_or (ic_new_to_old_mapping config)
                             "Missing new-to-old mapping for key rotation";
      validate_rotation_message_senders old_threshold new_to_old_mapping seen_senders
  | None =>
      if count =? num_nodes (ic_nodes config) then Ok ()
      else Err ("Fresh DKG requires " +:+ pretty (num_nodes (ic_nodes config))
             +:+ " messages (one from each party), got " +:+ pretty count)
  end.

(** The key that a message must be a resharing of, in a rotation. *)
Definition expected_pk (config : InitializedConfig) (sender_party_id : N) :
    outcome string (option G2Element) :=
  match ic_old_threshold config with
  | Some _ =>
      new_to_old_mapping ← ok_or (ic_new_to_old_mapping config)
                             "Missing new-to-old mapping for key rotation";
      old_party_id ← ok_or (new_to_old_mapping !! sender_party_id)
        ("Party " +:+ pretty sender_party_id +:+ " not found in old committee mapping");
      expected_old_pks ← ok_or (ic_expected_old_pks config)
                           "Missing expected old partial PKs for key rotation";
      pk ← ok_or (expected_old_pks !! old_party_id)
        ("Partial PK not found for old party " +:+ pretty old_party_id);
      Ok (Some pk)
  | None => Ok None
  end.

Definition process_message (config : InitializedConfig) (party : Party)
    (signed_msg : SignedMessage) : DM unit :=
  let sender_party_id := sm_sender signed_msg in
  sender_signing_pk ← st_lift (ok_or (ic_signing_pks config !! sender_party_id)
    ("Signing public key not found for party " +:+ pretty sender_party_id));
  _ ← st_lift (verify_signature (ic_committee_id config) signed_msg sender_signing_pk);
  pk ← st_lift (expected_pk config sender_party_id);
  processed ← (let checked := with_rng (process_message_with_checks party (sm_message signed_msg)
                     pk (Some (sm_nizk_proof signed_msg))) in
               match ic_old_threshold config with
               | Some _ => st_map_err (λ e, "Key rotation verification failed for party "
                             +:+ pretty sender_party_id +:+ ": " +:+ e) checked
               | None => checked
               end);
  match pm_complaint processed with
  | Some complaint =>
      bytes ← st_lift (complaint_bytes complaint);
      st_lift (Err ("Do NOT propose onchain. Complaint against party "
        +:+ pretty (pm_sender processed)
        +:+ ".\nAbort the protocol and share the following proof with the coordinator:\n  "
        +:+ hex_encode bytes))
  | None =>
      modify_state (λ st, mkDkgState (ds_config st) (ds_my_message st) (ds_received_messages st)
        (ds_processed_messages st ++ [processed]) (ds_confirmation st) (ds_output st))
  end.

Fixpoint process_messages (config : InitializedConfig) (party : Party)
    (messages : list SignedMessage) : DM unit :=
  match messages with
  | [] => mret ()
  | m :: messages => _ ← process_message config party m; process_messages config party messages
  end.

Definition process_dkg_messages (messages : list SignedMessage) (local_keys : KeysFile) :
    DM (Output * list byte) :=
  seen_senders ← st_lift (distinct_senders ∅ messages);
  let messages := merge_sort sender_le messages in
  hash_input ← st_lift (bcs_signed_messages messages);
  let messages_hash := blake2b256 hash_input in
  '(st, _) ← st_get;
  let config := ds_config st in
  _ ← st_lift (validate_senders config (length messages) seen_senders);
  party ← with_rng (new_advanced (kf_enc_sk local_keys) (ic_nodes config) (ic_threshold config)
            (create_dkg_random_oracle (ic_committee_id config)) (ic_my_old_share config)
            (ic_old_threshold config));
  _ ← process_messages config party messages;
  '(st, _) ← st_get;
  '(confirmation, used_msgs) ← st_lift (merge party (ds_processed_messages st));
  match confirmation_complaints confirmation with
  | [] =>
      _ ← modify_state (λ st, mkDkgState (ds_config st) (ds_my_message st)
            (ds_received_messages st) (ds_processed_messages st)
            (Some (confirmation, used_msgs)) (ds_output st));
      output ← st_lift (match ic_old_threshold config with
                        | Some _ =>
                            new_to_old_mapping ← ok_or (ic_new_to_old_mapping config)
                              "Missing new-to-old mapping for key rotation";
                            complete_optimistic_key_rotation party used_msgs new_to_old_mapping
                        | None => complete_optimistic party used_msgs
                        end);
      _ ← modify_state (λ st, mkDkgState (ds_config st) (ds_my_message st)
            (ds_received_messages st) (ds_processed_messages st) (ds_confirmation st)
            (Some output));
      mret (output, messages_hash)
  | complaints => st_lift (Err ("Do NOT propose onchain. " +:+ pretty (length complaints)
      +:+ " complaint(s) found.\nAbort the protocol and share with the coordinator."))
  end.
End dkg.

(** ** A concrete key generation

    Polynomials are constant: every message carries the share that its sender
    gives to everyone, the key is their sum, and in a rotation a message is a
    resharing if it carries the old share. *)
Module ToyDkg.
#[local] Existing Instance Toy.curve.

#[local] Instance dkg : DkgLib := {
  Rng := N;
  Message := N * byte;
  msg_sender := fst;
  DLNizk := unit;
  Signature := byte;
  Complaint := unit;
  complaint_bytes _ := Ok [];
  Nodes := list (N * byte);
  nodes_new l := Ok ((λ n, (dn_id n, dn_pk n)) <$> l);
  num_nodes := length;
  RandomOracle := string;
  random_oracle_new s := s;
  Party := N * option byte;
  new_advanced sk nodes _ _ share _ g :=
    (match List.find (λ n, bool_decide (n.2 = gf_mul gf_one sk)) nodes with
     | Some n => Ok (n.1, share)
     | None => Err "no such party"
     end, g);
  create_message party g := (Ok (party.1, default (u8_of g) party.2), (g + 1)%N);
  nizk_pop_of_secret _ g := ((), g);
  ProcessedMessage := N * byte;
  pm_sender := fst;
  pm_complaint _ := None;
  process_message_with_checks _ m pk _ g :=
    (match pk with
     | Some k => if bool_decide (k = gf_mul gf_one m.2) then Ok m else Err "not a resharing"
     | None => Ok m
     end, g);
  Confirmation := unit;
  confirmation_complaints _ := [];
  UsedProcessedMessages := list (N * byte);
  merge _ l := Ok ((), l);
  Output := byte;
  complete_optimistic _ l := Ok (foldr gf_add gf_zero l.*2);
  complete_optimistic_key_rotation _ l _ := Ok (foldr gf_add gf_zero l.*2);
  output_c0 s := gf_mul gf_one s;
  output_eval s _ := gf_mul gf_one s;
  output_shares s := Some [s];
  bls_sign sk m := gf_mul (nth 0 (Toy.hash m) u8_zero) sk;
  bls_verify pk m s :=
    if bool_decide (gf_mul (nth 0 (Toy.hash m) u8_zero) pk = gf_mul s gf_one)
    then Ok () else Err "invalid signature";
  blake2b256 := Toy.hash;
}.

Definition config_fields (c : InitializedConfig) :=
  (ic_my_party_id c, ic_nodes c : list (N * byte), ic_committee_id c, ic_threshold c,
   ic_signing_pks c : gmap N byte, ic_old_threshold c, ic_new_to_old_mapping c,
   ic_expected_old_pks c : option (gmap N byte), ic_my_old_share c : option byte,
   ic_my_old_pk c : option byte).

Definition state_fields (s : DkgState) :=
  (config_fields (ds_config s), ds_my_message s : option (N * byte),
   ds_received_messages s : gmap N (N * byte), ds_processed_messages s : list (N * byte),
   ds_confirmation s : option (unit * list (N * byte)), ds_output s : option byte).

Definition bytes_print `{Countable A} (a : A) : list byte := bytes_of (ToyFiles.print a).
Definition bytes_parse `{Countable A} (b : list byte) : option A :=
  ToyFiles.parse (String.string_of_list_byte b).

#[local] Instance codecs : DkgCodecs := {
  bcs_payload p := Ok (bytes_print (sp_domain p, sp_committee_id p, sp_message p : N * byte));
  bcs_signed_message m := Ok (bytes_print (sm_message m : N * byte, sm_signature m : byte));
  bcs_decode_signed_message b :=
    match bytes_parse (A := N * byte * byte) b with
    | Some (m, s) => Ok (mkSignedMessage (m : Message) (s : Signature) (() : DLNizk))
    | None => Err "invalid message"
    end;
  bcs_signed_messages l :=
    Ok (bytes_print ((λ m, (sm_message m : N * byte, sm_signature m : byte)) <$> l));
  json_message s := Ok (Some s);
  json_of_message s := Ok s;
  json_keys_file k :=
    Ok (ToyFiles.print (kf_enc_sk k : byte, kf_enc_pk k : byte, kf_signing_sk k : byte,
                        kf_signing_pk k : byte));
  json_decode_keys_file s :=
    match ToyFiles.parse (A := byte * byte * byte * byte) s with
    | Some (esk, epk, ssk, spk) => Ok (mkKeysFile esk epk ssk spk)
    | None => Err "invalid keys"
    end;
  json_state s := Ok (ToyFiles.print (state_fields s));
  json_decode_state s :=
    match ToyFiles.parse (A := (N * list (N * byte) * list byte * N * gmap N byte * option N *
              option (gmap N N) * option (gmap N byte) * option byte * option byte) *
              option (N * byte) * gmap N (N * byte) * list (N * byte) *
              option (unit * list (N * byte)) * option byte) s with
    | Some ((id, nodes, committee, t, pks, old_t, map, old_pks, share, pk), m, received,
            processed, confirmation, output) =>
        Ok (mkDkgState (mkInitializedConfig id (nodes : Nodes) committee t pks old_t map old_pks
              share pk) m received processed confirmation output)
    | None => Err "invalid state"
    end;
  hex_encode := String.string_of_list_byte;
  ids_debug _ := "";
}.
End ToyDkg.
