(* ===== verification/DkgProps.v ===== *)
(** * What the processing of the messages of a key generation guarantees

    That members who hold the same messages submit the same hash, and that for
    each of them the order in which its directory lists the files makes no
    difference; and which messages an outcome is computed from. *)

From Stdlib Require Import NArith Lia.
From stdpp Require Import pretty sorting.
From S2P Require Import Prelude Primitives Ibe Common Chain Committee RpcClient Options CliConfig.
From S2P Require Import Dkg.

Section theory.
  Context {crv : Curve} {dkg : DkgLib} {codecs : DkgCodecs} {fs : FileSystem}
    {encs : Encodings} {sui : SuiTypes}.

(** What is established of a message before it takes part. *)
Record checked_message (config : InitializedConfig) (party : Party) (m : SignedMessage)
    (p : ProcessedMessage) : Prop := {
  cm_signed : ∃ pk, ic_signing_pks config !! sm_sender m = Some pk ∧
    verify_signature (ic_committee_id config) m pk = Ok ();
  cm_processed : ∃ pk g g', expected_pk config (sm_sender m) = Ok pk ∧
    process_message_with_checks party (sm_message m) pk (Some (sm_nizk_proof m)) g = (Ok p, g');
  cm_no_complaint : pm_complaint p = None;
}.

(** The messages of a key generation, or of a rotation. *)
Definition right_messages (config : InitializedConfig) (messages : list SignedMessage) : Prop :=
  match ic_old_threshold config with
  | None => length messages = num_nodes (ic_nodes config)
  | Some old_threshold =>
      length messages = N.to_nat old_threshold ∧
      ∀ m, m ∈ messages → ∃ mapping old_pks old_party pk,
        ic_new_to_old_mapping config = Some mapping ∧ ic_expected_old_pks config = Some old_pks ∧
        mapping !! sm_sender m = Some old_party ∧ old_pks !! old_party = Some pk ∧
        expected_pk config (sm_sender m) = Ok (Some pk)
  end.

Definition completes (config : InitializedConfig) (party : Party)
    (used : UsedProcessedMessages) (output : Output) : Prop :=
  match ic_old_threshold config with
  | None => complete_optimistic party used = Ok output
  | Some _ => ∃ mapping, ic_new_to_old_mapping config = Some mapping ∧
      complete_optimistic_key_rotation party used mapping = Ok output
  end.

(** ** Senders *)
Lemma distinct_senders_spec seen messages :
  (NoDup (sm_sender <$> messages) ∧ (∀ m, m ∈ messages → sm_sender m ∉ seen) ∧
     distinct_senders seen messages = Ok (list_to_set (sm_sender <$> messages) ∪ seen)) ∨
  (¬ (NoDup (sm_sender <$> messages) ∧ ∀ m, m ∈ messages → sm_sender m ∉ seen) ∧
     ∃ e, distinct_senders seen messages = Err e).
Proof.
  revert seen. induction messages as [|m messages IH]; intros seen; simpl.
  { left. split; [constructor|]. split; [set_solver|]. f_equal. set_solver. }
  case_bool_decide as Hm; [right; split; [set_solver|eauto]|].
  rewrite NoDup_cons. destruct (IH ({[sm_sender m]} ∪ seen)) as [(Hnd & Hs & ->)|[Hn He]].
  - left. split_and!.
    + intros (m' & He & Hin)%list_elem_of_fmap. apply (Hs _ Hin). set_solver.
    + done.
    + set_solver.
    + f_equal. set_solver.
  - right. split; [|done]. intros [[Hm' Hnd] Hs]. apply Hn. split; [done|]. intros m' Hin.
    rewrite elem_of_union, elem_of_singleton. intros [Heq|?]; [|set_solver].
    apply Hm'. rewrite <-Heq. by apply list_elem_of_fmap_2.
Qed.

Lemma distinct_senders_inv messages seen :
  distinct_senders ∅ messages = Ok seen →
  NoDup (sm_sender <$> messages) ∧ seen = list_to_set (sm_sender <$> messages).
Proof.
  destruct (distinct_senders_spec ∅ messages) as [(Hnd & _ & ->)|[_ [e ->]]]; [|done].
  intros [= <-]. split; [done|]. set_solver.
Qed.

Lemma distinct_senders_NoDup messages :
  NoDup (sm_sender <$> messages) →
  distinct_senders ∅ messages = Ok (list_to_set (sm_sender <$> messages)).
Proof.
  intros Hnd. destruct (distinct_senders_spec ∅ messages) as [(_ & _ & ->)|[Hn _]].
  - f_equal. set_solver.
  - destruct Hn. split; [done|]. set_solver.
Qed.

#[local] Instance sender_le_trans : Transitive sender_le.
Proof. unfold sender_le. intros ???. lia. Qed.
#[local] Instance sender_le_total : Total sender_le.
Proof. intros a b. unfold sender_le. lia. Qed.

(** Sorting forgets the order, when no two messages have the same sender. *)
Lemma sort_senders_unique messages1 messages2 :
  messages1 ≡ₚ messages2 → NoDup (sm_sender <$> messages1) →
  merge_sort sender_le messages1 = merge_sort sender_le messages2.
Proof.
  intros Hp Hnd. apply (StronglySorted_unique_strong sender_le).
  - intros m1 m2 H1 H2 Hle1 Hle2. rewrite merge_sort_Permutation in H1, H2. rewrite <-Hp in H2.
    apply list_elem_of_lookup in H1 as [i Hi]. apply list_elem_of_lookup in H2 as [j Hj].
    assert (i = j) as ->; [|congruence].
    apply (NoDup_lookup _ i j (sm_sender m1) Hnd).
    + by rewrite list_lookup_fmap, Hi.
    + rewrite list_lookup_fmap, Hj. unfold sender_le in *. simpl. f_equal. lia.
  - apply (StronglySorted_merge_sort _).
  - apply (StronglySorted_merge_sort _).
  - by rewrite !merge_sort_Permutation.
Qed.

Lemma sorted_strictly messages :
  StronglySorted sender_le messages → NoDup (sm_sender <$> messages) →
  StronglySorted (λ a b, (sm_sender a < sm_sender b)%N) messages.
Proof.
  induction 1 as [|m messages Hs IH Hle]; [constructor|]. csimpl. rewrite NoDup_cons.
  intros [Hm Hnd]. constructor; [by apply IH|]. rewrite Forall_forall in *. intros m' Hin.
  specialize (Hle _ Hin). unfold sender_le in Hle.
  assert (sm_sender m ≠ sm_sender m'); [|lia]. intros He. apply Hm. rewrite He.
  by apply list_elem_of_fmap_2.
Qed.

Lemma validate_rotation_inv old_threshold mapping senders :
  validate_rotation_message_senders old_threshold mapping senders = Ok () →
  size senders = N.to_nat old_threshold ∧ ∀ s, s ∈ senders → is_Some (mapping !! s).
Proof.
  unfold validate_rotation_message_senders. destruct (_ =? _) eqn:Hs; [|done]. simpl.
  destruct (merge_sort _ _) as [|x l] eqn:Hl; [|done]. intros _.
  split; [by apply Nat.eqb_eq|]. intros s Hin. destruct (mapping !! s) eqn:Hm; [done|].
  assert (s ∈ (merge_sort N.le (elements (filter (λ sender, mapping !! sender = None) senders))))
    as Hx; [|rewrite Hl in Hx; by apply not_elem_of_nil in Hx].
  rewrite merge_sort_Permutation, elem_of_elements, elem_of_filter. done.
Qed.

(** ** Files in any order *)
Lemma load_message_keeps path w r w' : load_message path w = (r, w') → w' = w.
Proof.
  unfold load_message, st_map_err, fs_get, mbind, st_bind, st_get, st_lift.
  destruct (of_sum _) as [c|e|]; simpl; [|by intros [= _ <-]..].
  destruct (map_err _ (json_message c)) as [j|e|]; simpl; [|by intros [= _ <-]..].
  destruct (ok_or j _) as [x|e|]; simpl; by intros [= _ <-].
Qed.

(** A message is read from the content of its file alone. *)
Lemma load_message_same_file p1 p2 w1 w2 m :
  fs_read_to_string p1 w1 = fs_read_to_string p2 w2 →
  load_message p1 w1 = (Ok m, w1) → load_message p2 w2 = (Ok m, w2).
Proof.
  intros Hr. unfold load_message, fs_get, st_map_err, mbind, st_bind, st_get, st_lift.
  rewrite Hr. destruct (fs_read_to_string p2 w2) as [c|e]; simpl; [|done].
  destruct (json_message c) as [[x|]|e|]; simpl; [|done..]. unfold mbind, outcome_bind.
  destruct (hex_decode x) as [b|]; simpl; [|done].
  destruct (bcs_decode_signed_message b); simpl; [|done..]. by intros [= ->].
Qed.

(** Files of two machines with the same content and kind; the directories and
    the names may be others. *)
Definition same_file (w1 w2 : Files) (entry1 entry2 : string + string) : Prop :=
  ∃ p1 p2, entry1 = inl p1 ∧ entry2 = inl p2 ∧
    (extension p1 = Some "json" ↔ extension p2 = Some "json") ∧
    fs_read_to_string p1 w1 = fs_read_to_string p2 w2.

(** What an entry of the directory adds. *)
Definition entry_yields (w : Files) (entry : string + string) (messages : list SignedMessage) :
    Prop :=
  ∃ path, entry = inl path ∧
    if bool_decide (extension path = Some "json")
    then ∃ m, load_message path w = (Ok m, w) ∧ messages = [m]
    else messages = [].

Lemma load_entries_spec entries messages w w' :
  load_entries entries w = (Ok messages, w') ↔
  w' = w ∧ ∃ parts, Forall2 (entry_yields w) entries parts ∧ messages = mjoin parts.
Proof.
  revert messages w'. induction entries as [|entry entries IH]; intros messages w'; cbn [load_entries].
  { split; [by intros [-> ->]%st_ret_inv; eauto|].
    by intros (-> & parts & ->%Forall2_nil_inv_l & ->). }
  split.
  - intros (path & w1 & [Hp ->]%st_lift_inv & H)%st_bind_inv.
    destruct entry as [p|]; [|done]. injection Hp as ->.
    destruct (bool_decide (extension path = Some "json")) eqn:Hj; simpl in H.
    + apply st_bind_inv in H as (m & w2 & Hm & H).
      pose proof (load_message_keeps _ _ _ _ Hm) as ->.
      apply st_bind_inv in H as (rest & w3 & (-> & parts & HF & ->)%IH & [-> ->]%st_ret_inv).
      split; [done|]. exists ([m] :: parts). split; [|done]. constructor; [|done].
      exists path. rewrite Hj. eauto.
    + apply IH in H as (-> & parts & HF & ->). split; [done|]. exists ([] :: parts).
      split; [|done]. constructor; [|done]. exists path. by rewrite Hj.
  - intros (-> & parts & HF & ->).
    destruct parts as [|part parts]; [by apply Forall2_nil_inv_r in HF|].
    apply Forall2_cons in HF as [(path & -> & Hpart) HF].
    assert (load_entries entries w = (Ok (mjoin parts), w)) as Hr by (apply IH; eauto).
    unfold of_sum, mbind at 1, st_bind at 1, st_lift at 1.
    destruct (bool_decide _); simpl; [|by subst]. destruct Hpart as (m & Hm & ->).
    by rewrite (st_bind_ok _ _ _ _ _ Hm), (st_bind_ok _ _ _ _ _ Hr).
Qed.

Lemma entry_yields_same w1 w2 entry1 entry2 messages :
  same_file w1 w2 entry1 entry2 → entry_yields w1 entry1 messages → entry_yields w2 entry2 messages.
Proof.
  intros (p1 & p2 & -> & -> & Hext & Hread) (path & [= <-] & Hy). exists p2. split; [done|].
  rewrite <-(bool_decide_ext _ _ Hext). case_bool_decide; [|done].
  destruct Hy as (m & Hm & ->). exists m. split; [|done]. by eapply load_message_same_file.
Qed.

Lemma load_entries_same_files w1 w2 entries1 entries entries2 messages1 w1' :
  Forall2 (same_file w1 w2) entries1 entries → entries ≡ₚ entries2 →
  load_entries entries1 w1 = (Ok messages1, w1') →
  ∃ messages2, load_entries entries2 w2 = (Ok messages2, w2) ∧ messages1 ≡ₚ messages2.
Proof.
  intros Hsame Hp (-> & parts1 & HF & ->)%load_entries_spec.
  assert (Forall2 (entry_yields w2) entries parts1) as HF1.
  { clear Hp. revert parts1 HF. induction Hsame as [|e1 e2 l1 l2 He Hl IH]; intros parts1 HF.
    - by apply Forall2_nil_inv_l in HF as ->.
    - apply Forall2_cons_inv_l in HF as (y & parts & Hy & HF & ->).
      constructor; [by eapply entry_yields_same|by apply IH]. }
  destruct (Permutation_Forall2 Hp HF1) as (parts2 & Hparts & HF2).
  exists (mjoin parts2). split; [apply load_entries_spec; eauto|by rewrite Hparts].
Qed.

(** ** The loop *)
Lemma process_message_inv config party m st g u st' g' :
  process_message config party m (st, g) = (Ok u, (st', g')) →
  ∃ p, checked_message config party m p ∧
    st' = mkDkgState (ds_config st) (ds_my_message st) (ds_received_messages st)
            (ds_processed_messages st ++ [p]) (ds_confirmation st) (ds_output st).
Proof.
  unfold process_message. intros H.
  apply st_bind_inv in H as (spk & s1 & [Hspk ->]%st_lift_inv & H).
  apply st_bind_inv in H as ([] & s2 & [Hv ->]%st_lift_inv & H).
  apply st_bind_inv in H as (pk & s3 & [Hpk ->]%st_lift_inv & H).
  apply st_bind_inv in H as (p & s4 & Hp & H). exists p.
  assert (∃ g1, s4 = (st, g1) ∧
    process_message_with_checks party (sm_message m) pk (Some (sm_nizk_proof m)) g = (Ok p, g1))
    as (g1 & -> & Hprocess).
  { destruct (ic_old_threshold config); unfold st_map_err, with_rng in Hp;
      destruct (process_message_with_checks _ _ _ _ _) as [[] g1]; simpl in Hp; try done;
      injection Hp as <- <-; eauto. }
  destruct (pm_complaint p) eqn:Hc.
  { by apply st_bind_inv in H as (? & ? & _ & [? _]%st_lift_inv). }
  unfold modify_state, st_modify in H. injection H as _ <- <-. split; [|done].
  split; [|by eauto 10|done].
  exists spk. destruct (_ !! _); simpl in Hspk; [by injection Hspk as ->|done].
Qed.

Lemma process_messages_inv config party messages st g u st' g' :
  process_messages config party messages (st, g) = (Ok u, (st', g')) →
  ∃ processed, Forall2 (checked_message config party) messages processed ∧
    st' = mkDkgState (ds_config st) (ds_my_message st) (ds_received_messages st)
            (ds_processed_messages st ++ processed) (ds_confirmation st) (ds_output st).
Proof.
  revert st g. induction messages as [|m messages IH]; intros st g H; cbn [process_messages] in H.
  { apply st_ret_inv in H as [_ [= -> _]]. exists []. rewrite app_nil_r. by destruct st. }
  apply st_bind_inv in H as (v & [st1 g1] & (p & Hm & ->)%process_message_inv & H).
  apply IH in H as (processed & HF & ->). exists (p :: processed). split; [by constructor|].
  simpl. by rewrite <-app_assoc.
Qed.

(** The senders of a rotation are continuing members, with known keys. *)
Lemma right_messages_intro config party messages sorted processed :
  messages ≡ₚ sorted → NoDup (sm_sender <$> messages) →
  validate_senders config (length sorted) (list_to_set (sm_sender <$> messages)) = Ok () →
  Forall2 (checked_message config party) sorted processed →
  right_messages config messages.
Proof.
  intros Hp Hnd Hv HF. unfold validate_senders, right_messages in *.
  destruct (ic_old_threshold config) as [t|] eqn:Ht.
  - apply bind_ok_inv in Hv as (mapping & Hmap & Hv).
    destruct (ic_new_to_old_mapping config) as [mapping'|] eqn:Hmap'; [|done].
    injection Hmap as ->. apply validate_rotation_inv in Hv as [Hsize Hin].
    rewrite size_list_to_set, length_fmap in Hsize by done.
    split; [lia|]. intros m Hm. rewrite Hp in Hm.
    apply list_elem_of_lookup in Hm as [i Hi].
    destruct (Forall2_lookup_l _ _ _ _ _ HF Hi) as (p & _ & [_ (pk & _ & _ & Hpk & _) _]).
    revert Hpk. unfold expected_pk. rewrite Ht, Hmap'. simpl.
    destruct (mapping !! sm_sender m) as [o|] eqn:Ho; simpl; [|done].
    destruct (ic_expected_old_pks config) as [old|] eqn:Hold; simpl; [|done].
    destruct (old !! o) as [k|] eqn:Hk; simpl; [|done]. intros _. eauto 10.
  - destruct (_ =? _) eqn:Hl; [|done]. rewrite Hp. by apply Nat.eqb_eq.
Qed.

(** ** Properties *)

(** The hash is that of the messages, sorted by party. *)
Definition messages_hash (messages : list SignedMessage) (hash : list byte) : Prop :=
  ∃ bytes, bcs_signed_messages (merge_sort sender_le messages) = Ok bytes ∧ hash = blake2b256 bytes.

Lemma process_inv messages keys st g output hash st' g' :
  process_dkg_messages messages keys (st, g) = (Ok (output, hash), (st', g')) →
  NoDup (sm_sender <$> messages) ∧ messages_hash messages hash ∧
  validate_senders (ds_config st) (length (merge_sort sender_le messages))
    (list_to_set (sm_sender <$> messages)) = Ok () ∧
  ∃ party g1 processed confirmation used,
    new_advanced (kf_enc_sk keys) (ic_nodes (ds_config st)) (ic_threshold (ds_config st))
      (create_dkg_random_oracle (ic_committee_id (ds_config st))) (ic_my_old_share (ds_config st))
      (ic_old_threshold (ds_config st)) g = (Ok party, g1) ∧
    Forall2 (checked_message (ds_config st) party) (merge_sort sender_le messages) processed ∧
    merge party (ds_processed_messages st ++ processed) = Ok (confirmation, used) ∧
    confirmation_complaints confirmation = [] ∧
    completes (ds_config st) party used output ∧
    ds_config st' = ds_config st ∧ ds_output st' = Some output.
Proof.
  unfold process_dkg_messages. intros H.
  apply st_bind_inv in H as (seen & s1 & [[Hnd ->]%distinct_senders_inv ->]%st_lift_inv & H).
  apply st_bind_inv in H as (bytes & s2 & [Hb ->]%st_lift_inv & H).
  apply st_bind_inv in H as ([? ?] & s3 & Hg & H). injection Hg as <- <- <-.
  apply st_bind_inv in H as ([] & s4 & [Hv ->]%st_lift_inv & H).
  apply st_bind_inv in H as (party & [st1 g1] & Hparty & H).
  unfold with_rng in Hparty. destruct (new_advanced _ _ _ _ _ _ _) as [r g2] eqn:Hnew.
  injection Hparty as -> <- <-.
  apply st_bind_inv in H as ([] & [st2 g3] & (processed & HF & ->)%process_messages_inv & H).
  apply st_bind_inv in H as ([? ?] & s5 & Hg & H). injection Hg as <- <- <-.
  apply st_bind_inv in H as ([confirmation used] & s6 & [Hmerge ->]%st_lift_inv & H).
  destruct (confirmation_complaints confirmation) eqn:Hc; [|by apply st_lift_inv in H as [? _]].
  apply st_bind_inv in H as ([] & s7 & Hs & H). injection Hs as <-.
  apply st_bind_inv in H as (output' & s8 & [Ho ->]%st_lift_inv & H).
  apply st_bind_inv in H as ([] & s9 & Hs & H). injection Hs as <-.
  apply st_ret_inv in H as [[= -> ->] [= -> ->]].
  split; [done|]. split; [by exists bytes|]. split; [done|].
  exists party, g2, processed, confirmation, used. split_and!; try done.
  unfold completes. destruct (ic_old_threshold (ds_config st)); [|done].
  apply bind_ok_inv in Ho as (mapping & Hm & Ho).
  destruct (ic_new_to_old_mapping _); [injection Hm as ->|done]. eauto.
Qed.

(** C26: The members of a committee, each on its own machine, whose
    directories hold the same files, under whatever names and in whatever
    order they are listed, load the same messages. Any two of them, whatever
    their keys, states and randomness, that complete the key generation have
    the same hash to submit. For one member, the order makes no difference to
    anything: the output, the hash, the new state and every refusal are the
    same. The exception are directories in which a party has two messages:
    every member refuses those, before anything else. *)
Theorem messages_order_irrelevant (w1 w2 : Files) (entries1 entries entries2 : list (string + string))
    (messages1 : list SignedMessage) :
  Forall2 (same_file w1 w2) entries1 entries → entries ≡ₚ entries2 →
  load_entries entries1 w1 = (Ok messages1, w1) →
  ∃ messages2, load_entries entries2 w2 = (Ok messages2, w2) ∧ messages1 ≡ₚ messages2 ∧
    (∀ keys1 keys2 s1 s2 s1' s2' output1 output2 hash1 hash2,
       process_dkg_messages messages1 keys1 s1 = (Ok (output1, hash1), s1') →
       process_dkg_messages messages2 keys2 s2 = (Ok (output2, hash2), s2') →
       hash1 = hash2) ∧
    ((∀ keys s, process_dkg_messages messages1 keys s = process_dkg_messages messages2 keys s) ∨
     ¬ NoDup (sm_sender <$> messages1) ∧
     ∀ keys s, (∃ e, process_dkg_messages messages1 keys s = (Err e, s)) ∧
               (∃ e, process_dkg_messages messages2 keys s = (Err e, s))).
Proof.
  intros Hsame He H1.
  destruct (load_entries_same_files _ _ _ _ _ _ _ Hsame He H1) as (messages2 & H2 & Hp).
  exists messages2. split; [done|]. split; [done|].
  assert (sm_sender <$> messages1 ≡ₚ sm_sender <$> messages2) as Hs by by rewrite Hp.
  split.
  - intros keys1 keys2 [st1 g1] [st2 g2] [st1' g1'] [st2' g2'] o1 o2 h1 h2 Ho1 Ho2.
    apply process_inv in Ho1 as (Hnd & (b1 & Hb1 & ->) & _).
    apply process_inv in Ho2 as (_ & (b2 & Hb2 & ->) & _).
    rewrite (sort_senders_unique _ _ Hp Hnd), Hb2 in Hb1. by injection Hb1 as ->.
  - unfold process_dkg_messages.
    destruct (decide (NoDup (sm_sender <$> messages1))) as [Hnd|Hnd]; [left|right; split; [done|]];
      intros keys s.
    + assert (NoDup (sm_sender <$> messages2)) as Hnd2 by by rewrite <-Hs.
      rewrite !distinct_senders_NoDup by done.
      rewrite (list_to_set_perm_L _ _ Hs), (sort_senders_unique _ _ Hp Hnd). done.
    + assert (¬ NoDup (sm_sender <$> messages2)) as Hnd2 by by rewrite <-Hs.
      destruct (distinct_senders_spec ∅ messages1) as [(? & _)|[_ [e1 ->]]]; [done|].
      destruct (distinct_senders_spec ∅ messages2) as [(? & _)|[_ [e2 ->]]]; [done|]. eauto.
Qed.

(** C27: An outcome is computed from the messages of distinct parties: of all
    of them, or, in a rotation, of exactly as many continuing members as the
    old committee's threshold, each with the partial key that the old
    committee published for it. Every message was signed, for this committee,
    by the key that its sender registered, and the party that the library
    makes of the member's own encryption key and of the parameters in its
    state accepted every one without a complaint. What this party merges, and
    computes the outcome from, are these messages after those that the state
    says were processed before; a state as it is saved for the member says
    none, and then nothing else takes part. The hash is that of the messages
    sorted by party. *)
Theorem processed_messages_sound (messages : list SignedMessage) (keys : KeysFile)
    (st st' : DkgState) (g g' : Rng) (output : Output) (hash : list byte) :
  process_dkg_messages messages keys (st, g) = (Ok (output, hash), (st', g')) →
  ∃ sorted bytes party g1 processed merged confirmation used,
    messages ≡ₚ sorted ∧ StronglySorted (λ a b, (sm_sender a < sm_sender b)%N) sorted ∧
    bcs_signed_messages sorted = Ok bytes ∧ hash = blake2b256 bytes ∧
    right_messages (ds_config st) messages ∧
    new_advanced (kf_enc_sk keys) (ic_nodes (ds_config st)) (ic_threshold (ds_config st))
      (create_dkg_random_oracle (ic_committee_id (ds_config st))) (ic_my_old_share (ds_config st))
      (ic_old_threshold (ds_config st)) g = (Ok party, g1) ∧
    Forall2 (checked_message (ds_config st) party) sorted processed ∧
    merged = ds_processed_messages st ++ processed ∧
    (ds_processed_messages st = [] → merged = processed) ∧
    merge party merged = Ok (confirmation, used) ∧
    confirmation_complaints confirmation = [] ∧
    completes (ds_config st) party used output ∧
    ds_config st' = ds_config st ∧ ds_output st' = Some output.
Proof.
  intros (Hnd & (bytes & Hb & Hh) & Hv & party & g1 & processed & confirmation & used & Hnew & HF
    & Hmerge & Hc & Ho & Hconf & Hout)%process_inv.
  assert (messages ≡ₚ merge_sort sender_le messages) as Hp
    by (symmetry; apply merge_sort_Permutation).
  exists (merge_sort sender_le messages), bytes, party, g1, processed,
    (ds_processed_messages st ++ processed), confirmation, used. split_and!; try done.
  - apply sorted_strictly; [apply (StronglySorted_merge_sort _)|by rewrite <-Hp].
  - by eapply right_messages_intro.
  - by intros ->.
Qed.
End theory.

(** ** Two parties *)
#[local] Existing Instances Toy.curve ToyChain.sui ToyFiles.encodings ToyFiles.file_system
  ToyDkg.dkg ToyDkg.codecs.

Module TwoParties.
Definition committee_id : Address := [Byte.x07].
Definition keys : KeysFile := mkKeysFile (Byte.x03 : Scalar) (Byte.x03 : G1Element) Byte.x04 Byte.x04.

Definition state : DkgState :=
  mkDkgState (mkInitializedConfig 0 ([(0%N, Byte.x03); (1%N, Byte.x05)] : Nodes) committee_id 2
                (list_to_map [(0%N, Byte.x04); (1%N, Byte.x06)] : gmap N G2Element)
                None None None None None)
    None ∅ [] None None.

(** The files of the directory, and the messages in them. *)
Definition signed (id : N) (share sk : byte) : string :=
  match m ← sign_message committee_id ((id, share) : Message) (sk : Scalar) (() : DLNizk);
        bcs_signed_message m with
  | Ok b => String.string_of_list_byte b
  | _ => ""
  end.

Definition dir : Files :=
  {[ "m/0.json" := signed 0 Byte.x09 Byte.x04; "m/1.json" := signed 1 Byte.x0b Byte.x06;
     "m/notes.txt" := "" ]} : gmap string string.

Definition entries : list (string + string) := [inl "m/0.json"; inl "m/notes.txt"; inl "m/1.json"].
Definition messages : list SignedMessage :=
  match (load_entries entries dir).1 with Ok l => l | _ => [] end.

(** The other party, whose directory has the files under other names. *)
Definition other_keys : KeysFile :=
  mkKeysFile (Byte.x05 : Scalar) (Byte.x05 : G1Element) Byte.x06 Byte.x06.

Definition other_state : DkgState :=
  mkDkgState (mkInitializedConfig 1 ([(0%N, Byte.x03); (1%N, Byte.x05)] : Nodes) committee_id 2
                (list_to_map [(0%N, Byte.x04); (1%N, Byte.x06)] : gmap N G2Element)
                None None None None None)
    None ∅ [] None None.

Definition other_dir : Files :=
  {[ "x/a.json" := signed 1 Byte.x0b Byte.x06; "x/b.json" := signed 0 Byte.x09 Byte.x04;
     "x/notes" := "" ]} : gmap string string.

Definition other_entries : list (string + string) := [inl "x/a.json"; inl "x/notes"; inl "x/b.json"].
End TwoParties.

Lemma same_file_intro w1 w2 p1 p2 :
  bool_decide (extension p1 = Some "json") = bool_decide (extension p2 = Some "json") →
  fs_read_to_string p1 w1 = fs_read_to_string p2 w2 → same_file w1 w2 (inl p1) (inl p2).
Proof.
  intros He Hr. exists p1, p2. split_and!; [done..| |done].
  by rewrite <-(bool_decide_eq_true (extension p1 = _)), <-(bool_decide_eq_true (extension p2 = _)), He.
Qed.

Lemma messages_order_irrelevant_witness :
  ∃ messages2, load_entries TwoParties.other_entries TwoParties.other_dir
      = (Ok messages2, TwoParties.other_dir) ∧
    ∃ o1 o2 s1 s2 hash,
      process_dkg_messages TwoParties.messages TwoParties.keys (TwoParties.state, 0%N)
      = (Ok (o1, hash), s1) ∧
      process_dkg_messages messages2 TwoParties.other_keys (TwoParties.other_state, 7%N)
      = (Ok (o2, hash), s2).
Proof.
  assert (load_entries TwoParties.entries TwoParties.dir = (Ok TwoParties.messages, TwoParties.dir))
    as H1.
  { assert (length TwoParties.messages = 2) as Hl by (vm_compute; reflexivity).
    unfold TwoParties.messages in *.
    destruct (load_entries TwoParties.entries TwoParties.dir) as [[l|e|] w] eqn:H; try discriminate Hl.
    apply load_entries_spec in H as (-> & _). reflexivity. }
  destruct (messages_order_irrelevant TwoParties.dir TwoParties.other_dir TwoParties.entries
    (rev TwoParties.other_entries) TwoParties.other_entries TwoParties.messages)
    as (messages2 & H2 & _ & Hhash & _).
  - do 3 (constructor; [apply same_file_intro; vm_compute; reflexivity|]). constructor.
  - symmetry. apply Permutation_rev.
  - exact H1.
  - exists messages2. split; [exact H2|].
    assert (is_ok (process_dkg_messages TwoParties.messages TwoParties.keys
              (TwoParties.state, 0%N)).1 = true) as Ok1 by (vm_compute; reflexivity).
    assert (match (load_entries TwoParties.other_entries TwoParties.other_dir).1 with
            | Ok l => is_ok (process_dkg_messages l TwoParties.other_keys
                               (TwoParties.other_state, 7%N)).1
            | _ => false end = true) as Ok2 by (vm_compute; reflexivity).
    rewrite H2 in Ok2. cbn [fst] in Ok2.
    destruct (process_dkg_messages TwoParties.messages _ _) as [[[o1 h1]|e|] s1] eqn:E1;
      try discriminate Ok1.
    destruct (process_dkg_messages messages2 _ _) as [[[o2 h2]|e|] s2] eqn:E2;
      try discriminate Ok2.
    pose proof (Hhash _ _ _ _ _ _ _ _ _ _ E1 E2) as ->. exists o1, o2, s1, s2, h2.
    split; exact eq_refl.
Defined.

Lemma processed_messages_sound_witness :
  length TwoParties.messages = 2 ∧ right_messages (ds_config TwoParties.state) TwoParties.messages.
Proof.
  split; [vm_compute; reflexivity|].
  assert (is_ok (process_dkg_messages TwoParties.messages TwoParties.keys (TwoParties.state, 0%N)).1
          = true) as Hok by (vm_compute; reflexivity).
  destruct (process_dkg_messages TwoParties.messages TwoParties.keys (TwoParties.state, 0%N))
    as [[[output hash]|e|] [st' g']] eqn:H; try discriminate Hok.
  destruct (processed_messages_sound _ _ _ _ _ _ _ _ H)
    as (? & ? & ? & ? & ? & ? & ? & ? & _ & _ & _ & _ & Hr & _). exact Hr.
Defined.
