(* ===== verification/CommitteeCli.v ===== *)
(** * The committee tool ([crates/seal-committee-cli/src/main.rs])

    The commands with which the members of a committee, and its coordinator,
    set up a key server, rotate it, and upgrade its package: what they check,
    the files they write, and the transactions they build, sign, or print for
    another machine to sign. *)

From Stdlib Require Import NArith Lia.
From stdpp Require Import pretty.
From S2P Require Import Prelude Primitives Ibe Common Chain Committee RpcClient Options CliConfig.
From S2P Require Import Dkg.

(** ** Transactions

    A transaction is the sequence of calls that were made on its builder. *)
Inductive ObjectArg (ObjectRef : Type) : Type :=
  | ImmOrOwnedObject (ref : ObjectRef)
  | CliSharedObject (id : Address) (initial_shared_version : N) (mutable : bool).
Arguments ImmOrOwnedObject {ObjectRef} _.
Arguments CliSharedObject {ObjectRef} _ _ _.

(** The values that are passed by BCS, with their types. *)
Inductive PureArg : Type :=
  | PureU16 (n : N)
  | PureAddresses (l : list Address)
  | PureBytes (b : list byte)
  | PureBytesList (l : list (list byte))
  | PureString (s : string).

Inductive CallArg (ObjectRef : Type) : Type :=
  | ArgPure (p : PureArg)
  | ArgObject (o : ObjectArg ObjectRef)
  | ArgResult (command : nat).
Arguments ArgPure {ObjectRef} _.
Arguments ArgObject {ObjectRef} _.
Arguments ArgResult {ObjectRef} _.

Inductive BuilderCall (ObjectRef : Type) : Type :=
  | CallMove (package : Address) (module function : string) (args : list (CallArg ObjectRef))
  | PublishUpgradeable (modules : list (list byte)) (dependencies : list Address)
  | TransferArg (recipient : Address) (arg : CallArg ObjectRef)
  | UpgradePackage (package : Address) (ticket : CallArg ObjectRef) (dependencies : list Address)
      (modules : list (list byte)).
Arguments CallMove {ObjectRef} _ _ _ _.
Arguments PublishUpgradeable {ObjectRef} _ _.
Arguments TransferArg {ObjectRef} _ _.
Arguments UpgradePackage {ObjectRef} _ _ _ _.

Record TransactionData (ObjectRef : Type) : Type := mkTransactionData {
  td_sender : Address;
  td_gas_payment : list ObjectRef;
  td_calls : list (BuilderCall ObjectRef);
  td_gas_budget : N;
  td_gas_price : N;
}.
Arguments mkTransactionData {ObjectRef} _ _ _ _ _.
Arguments td_sender {ObjectRef} _.
Arguments td_gas_payment {ObjectRef} _.
Arguments td_calls {ObjectRef} _.
Arguments td_gas_budget {ObjectRef} _.
Arguments td_gas_price {ObjectRef} _.

Record ChangedObject : Type := mkChangedObject {
  co_object_type : option string;
  co_object_id : option string;
}.

Record ExecutedTransaction : Type := mkExecutedTransaction {
  et_digest : string;
  et_failure : option string; (** the status, unless it is ok *)
  et_changed_objects : list ChangedObject;
  et_new_package : option Address;
  et_new_upgrade_cap : option Address;
}.

Record CompiledPackage : Type := mkCompiledPackage {
  cp_modules : list (list byte);
  cp_dependencies : list Address;
  cp_digest : list byte;
}.

(** ** The wallet, the compiler, and encodings *)
Class CliLib (Tx : Type) `{FullNode Tx, Curve} : Type := {
  Wallet : Type;
  wallet_new : string → outcome string Wallet;
  set_active_address : Address → Wallet → Wallet;
  wallet_active_address : Wallet → outcome string Address;
  (** the aliases and URLs of its environments *)
  wallet_envs : Wallet → list (string * string);
  with_env_override : string → Wallet → Wallet;
  (** the URL of the active environment *)
  get_active_env : Wallet → outcome string string;
  (** generates a key in the keystore *)
  keystore_generate : Wallet → Env → ((Address * Wallet) + string) * Env;
  wallet_save : Wallet → Env → (unit + string) * Env;
  ObjectRef : Type;
  gas_for_owner_budget : Wallet → Address → N → Env → (ObjectRef + string) * Env;
  gas_objects : Wallet → Address → Env → (list (N * Address) + string) * Env;
  get_object_ref : Wallet → Address → Env → (ObjectRef + string) * Env;
  TxSignature : Type;
  sign_secure : Wallet → Address → TransactionData ObjectRef → outcome string TxSignature;
  execute_transaction_may_fail : Wallet → TransactionData ObjectRef → TxSignature → Env →
    (ExecutedTransaction + string) * Env;
  bcs_transaction : TransactionData ObjectRef → outcome string (list byte);
  bcs_decode_transaction : list byte → outcome string (TransactionData ObjectRef);
  build_package : string → CommitteeNetwork → outcome string CompiledPackage;
  canonicalize : string → outcome string string;
  current_dir : outcome string string;
  home_dir : option string;
  MAINNET_FULLNODE : string;
  TESTNET_FULLNODE : string;
  str_to_lowercase : string → string;
  str_trim : string → string;
  str_contains : string → string → bool;
  fields_debug : list string → string;
  (** [bcs::to_bytes] of a scalar, [serde_yaml::to_string] of strings *)
  bcs_scalar : Scalar → outcome string (list byte);
  bcs_decode_scalar : list byte → outcome string Scalar;
  yaml_strings : list string → outcome string string;
}.

Section cli.
  Context {Tx : Type} {node : FullNode Tx} {sui : SuiTypes} {sym : Symmetric} {crv : Curve}
    {bcs : BcsTypes} {profile : BuildProfile} {dkg : DkgLib} {codecs : DkgCodecs}
    {fs : FileSystem} {yaml : Yaml} {encs : Encodings} {cli : CliLib Tx}.
  Context (state_debug : CommitteeState → string).

(** What a command can see and change; [executed] and [printed] list the
    transactions that were handed to the chain, and printed unsigned, the
    latest first. *)
Record Machine : Type := mkMachine {
  files : Files;
  world : World;
  rng : Rng;
  executed : list (TransactionData ObjectRef);
  printed : list string;
}.

Definition CM (A : Type) : Type := ST Machine string A.

Definition on_files {A : Type} (m : FM A) : CM A :=
  λ s, let '(r, f) := m (files s) in (r, mkMachine f (world s) (rng s) (executed s) (printed s)).

Definition on_chain {A : Type} (m : M RpcError A) : CM A :=
  λ s, let '(r, w) := m (world s) in
       (map_err (rpc_display code_display) r,
        mkMachine (files s) w (rng s) (executed s) (printed s)).

Definition on_env {A : Type} (f : Env → (A + string) * Env) : CM A :=
  λ s, let '(r, w) := with_env (E := string) f (world s) in
       (x ← r; of_sum x, mkMachine (files s) w (rng s) (executed s) (printed s)).

Definition on_rng {A : Type} (f : Rng → A * Rng) : CM A :=
  λ s, let '(a, g) := f (rng s) in
       (Ok a, mkMachine (files s) (world s) g (executed s) (printed s)).

Definition on_rng_try {A : Type} (f : Rng → outcome string A * Rng) : CM A :=
  r ← on_rng f; st_lift r.

(** ** Clients, wallets and gas *)
Definition create_grpc_client_with_url (network : CommitteeNetwork) (custom_rpc_url : option string) :
    outcome string GrpcClient :=
  grpc_client_new (default (default_rpc_url MAINNET_FULLNODE TESTNET_FULLNODE network)
                     custom_rpc_url).

Definition load_wallet (wallet_path : option string) (active_address : option Address) :
    outcome string Wallet :=
  config_path ← match wallet_path with
                | Some path => Ok path
                | None =>
                    home ← ok_or home_dir "Cannot find home directory";
                    Ok (home +:+ "/.sui/sui_config/client.yaml")
                end;
  wallet ← map_err (λ _, "Failed to load wallet context") (wallet_new config_path);
  Ok (match active_address with
      | Some addr => set_active_address addr wallet
      | None => wallet
      end).

Definition load_wallet_for_network (wallet_path : option string) (active_address : option Address)
    (network : CommitteeNetwork) (rpc_url : option string) : outcome string Wallet :=
  wallet ← load_wallet wallet_path active_address;
  match rpc_url with
  | Some url =>
      target_env ← ok_or (fst <$> List.find (λ env, bool_decide (snd env = url)) (wallet_envs wallet))
        ("RPC URL " +:+ url +:+ " not found in wallet config, add it first. e.g. 'sui client new-env --alias my-testnet-rpc --rpc https://my-rpc.example.com:443'");
      Ok (with_env_override target_env wallet)
  | None =>
      Ok (with_env_override
            (match network with CTestnet => "testnet" | CMainnet => "mainnet" end) wallet)
  end.

Definition transaction_sender_address (wallet : Wallet) (sender_address : option Address)
    (unsigned : bool) : outcome string Address :=
  if unsigned then ok_or sender_address "--sender-address is required with --unsigned"
  else map_err (λ _, "Failed to get active address from wallet") (wallet_active_address wallet).

Definition get_gas_params (grpc_client : GrpcClient) (wallet : Wallet) (address : Address)
    (gas_budget : N) : CM (N * N * ObjectRef) :=
  gas_price ← on_chain (grpc (get_epoch_rgp_rpc grpc_client));
  gas_coin ← on_env (gas_for_owner_budget wallet address gas_budget);
  mret (gas_price, gas_budget, gas_coin).

Definition get_shared_committee_arg (grpc_client : GrpcClient) (committee_id : Address)
    (mutable : bool) : CM (ObjectArg ObjectRef) :=
  response ← on_chain (grpc (get_object_rpc grpc_client (address_to_string committee_id) ["owner"]));
  object ← st_lift (ok_or (resp_object response)
    ("Committee object " +:+ address_to_string committee_id +:+ " not found"));
  owner ← st_lift (ok_or (obj_owner object)
    ("Committee object " +:+ address_to_string committee_id +:+ " has no owner"));
  initial_shared_version ← st_lift (ok_or (owner_version owner)
    ("Shared committee object " +:+ address_to_string committee_id +:+ " has no version"));
  mret (CliSharedObject committee_id initial_shared_version mutable).

(** ** Executing and printing *)
Definition execute_signed_txn_and_log (wallet : Wallet) (tx_data : TransactionData ObjectRef)
    (signature : TxSignature) : CM ExecutedTransaction :=
  _ ← st_modify (λ s, mkMachine (files s) (world s) (rng s) (tx_data :: executed s) (printed s));
  response ← on_env (execute_transaction_may_fail wallet tx_data signature);
  match et_failure response with
  | Some status => st_lift (Err ("Transaction FAILED: digest " +:+ et_digest response
                     +:+ ", status " +:+ status))
  | None => mret response
  end.

(** Signing with the wallet panics if it does not have the key. *)
Definition sign_and_execute_txn_and_log (wallet : Wallet) (tx_data : TransactionData ObjectRef) :
    CM ExecutedTransaction :=
  signature ← st_lift (expect_ok (sign_secure wallet (td_sender tx_data) tx_data));
  execute_signed_txn_and_log wallet tx_data signature.

Definition print_unsigned_tx_bytes (tx_data : TransactionData ObjectRef) : CM unit :=
  tx_bytes ← st_lift (bcs_transaction tx_data);
  st_modify (λ s, mkMachine (files s) (world s) (rng s) (executed s)
                    (encode (Encoding := base64) tx_bytes :: printed s)).

Definition decode_unsigned_tx_bytes (tx_bytes : string) :
    outcome string (TransactionData ObjectRef) :=
  bytes ← ok_or (Options.decode (Encoding := base64) tx_bytes) "Invalid base64 transaction bytes";
  map_err (λ _, "Failed to parse tx bytes as BCS TransactionData") (bcs_decode_transaction bytes).

(** A transaction that is printed, or signed and executed. *)
Definition print_or_execute (unsigned : bool) (wallet : Wallet) (tx_data : TransactionData ObjectRef) :
    CM unit :=
  if unsigned then print_unsigned_tx_bytes tx_data
  else _ ← sign_and_execute_txn_and_log wallet tx_data; mret ().

Definition extract_created_object_by_type (response : ExecutedTransaction) (type_name : string) :
    outcome string Address :=
  ok_or (head (omap (λ changed,
      object_type ← co_object_type changed;
      if str_contains object_type type_name then
        object_id_str ← co_object_id changed;
        match address_from_str object_id_str with Ok object_id => Some object_id | _ => None end
      else None) (et_changed_objects response)))
    ("Could not find created " +:+ type_name +:+ " object").

Definition extract_created_committee_id (response : ExecutedTransaction) : outcome string Address :=
  extract_created_object_by_type response "Committee".

(** ** Packages *)
Definition get_package_digest (package_path : string) (network : CommitteeNetwork) :
    outcome string string :=
  path ← canonicalize package_path;
  compiled_package ← map_err (λ _, "Failed to build package") (build_package path network);
  Ok (hex_encode_with_format (cp_digest compiled_package)).
End cli.

(** ** The state and the message of a member *)
Section member.
  Context {Tx : Type} {node : FullNode Tx} {sui : SuiTypes} {sym : Symmetric} {crv : Curve}
    {bcs : BcsTypes} {profile : BuildProfile} {dkg : DkgLib} {codecs : DkgCodecs}
    {fs : FileSystem} {yaml : Yaml} {encs : Encodings} {cli : CliLib Tx} {order : HashOrder}.
  Context (state_debug : CommitteeState → string).

(** The parameters of the old committee, in a rotation. *)
Record OldCommittee : Type := mkOldCommittee {
  oc_threshold : N;
  oc_new_to_old_mapping : gmap N N;
  oc_expected_old_pks : gmap N G2Element;
}.

(** [HashMap]'s index panics on a missing key. *)
Definition index_map {A : Type} (m : gmap N A) (k : N) : outcome string A := expect (m !! k).

Definition check_old_share (my_address : Address) (my_party_id : N) (my_old_pk : option G2Element)
    (old_committee_id : Address) (old_committee : SealCommittee) (old : OldCommittee) :
    outcome string unit :=
  match my_old_pk with
  | Some my_old_pk =>
      if negb (Committee.contains old_committee my_address) then
        Err ("Invalid state: My address " +:+ address_to_string my_address
          +:+ " not found in old committee " +:+ address_to_string old_committee_id
          +:+ " so I am a new member. Do not provide `--old-share` for key rotation.")
      else
        old_party_id ← index_map (oc_new_to_old_mapping old) my_party_id;
        expected_old_pk ← index_map (oc_expected_old_pks old) old_party_id;
        if bool_decide (expected_old_pk = my_old_pk) then Ok ()
        else Err ("Invalid --old-share for address " +:+ address_to_string my_address
          +:+ ": derived old partial public key does not match onchain old committee "
          +:+ address_to_string old_committee_id +:+ " party " +:+ pretty old_party_id)
  | None =>
      if Committee.contains old_committee my_address then
        Err ("Invalid state: My address " +:+ address_to_string my_address
          +:+ " found in old committee " +:+ address_to_string old_committee_id
          +:+ " so I am a continuing member. Must provide `--old-share` for key rotation.")
      else Ok ()
  end.

Definition old_committee_params (grpc_client : GrpcClient) (committee : SealCommittee)
    (my_address : Address) (my_party_id : N) (my_old_pk : option G2Element) :
    CM (option OldCommittee) :=
  match sc_old_committee_id committee with
  | None =>
      match my_old_pk with
      | Some _ => st_lift (Err "--old-share should not be provided for fresh DKG.")
      | None => mret None
      end
  | Some old_committee_id =>
      old_committee ← on_chain (fetch_committee_data grpc_client old_committee_id);
      let new_to_old_mapping := build_new_to_old_map committee old_committee in
      if (N.of_nat (size new_to_old_mapping) <? sc_threshold old_committee)%N then
        st_lift (Err ("Rotation cannot meet old committee threshold: old committee "
          +:+ address_to_string old_committee_id +:+ " requires "
          +:+ pretty (sc_threshold old_committee)
          +:+ " continuing member message(s), but only " +:+ pretty (size new_to_old_mapping)
          +:+ " new committee member(s) continue from the old committee."))
      else
        '(_, ks) ← on_chain (fetch_key_server_by_committee grpc_client old_committee_id);
        old_partial_key_infos ← st_lift (to_partial_key_servers ks (sc_members old_committee));
        let expected_old_pks := hashmap_collect
              ((λ '(_, info), (pki_party_id info, pki_partial_pk info))
                 <$> hash_order (map_to_list old_partial_key_infos)) in
        let old := mkOldCommittee (sc_threshold old_committee) new_to_old_mapping
                     expected_old_pks in
        _ ← st_lift (check_old_share my_address my_party_id my_old_pk old_committee_id
                       old_committee old);
        mret (Some old)
  end.

(** Everyone creates a message in a fresh key generation; in a rotation those
    with an old share do. *)
Definition create_my_message (state_dir : string) (local_keys : KeysFile)
    (committee_id : Address) (committee : SealCommittee) (my_party_id : N)
    (nodes : list DkgNode) (my_old_share : option Scalar) (old : option OldCommittee) :
    CM (option Message) :=
  match old, my_old_share with
  | Some _, None => mret None
  | _, _ =>
      nodes ← st_lift (nodes_new nodes);
      party ← on_rng_try (new_advanced (kf_enc_sk local_keys) nodes (sc_threshold committee)
                (create_dkg_random_oracle committee_id) my_old_share (oc_threshold <$> old));
      message ← on_rng_try (create_message party);
      nizk_proof ← on_rng (nizk_pop_of_secret party);
      signed_message ← st_lift (sign_message committee_id message (kf_signing_sk local_keys)
                                  nizk_proof);
      bytes ← st_lift (bcs_signed_message signed_message);
      message_json ← st_lift (json_of_message (hex_encode bytes));
      _ ← on_files (fs_do (fs_write (state_dir +:+ "/message_" +:+ pretty my_party_id +:+ ".json")
                             message_json));
      mret (Some message)
  end.

Definition to_node (m : ParsedMemberInfo) : DkgNode :=
  mkDkgNode (pmi_party_id m) (pmi_enc_pk m) 1.

Definition create_dkg_state_and_message (state_dir config keys_file : string)
    (old_share : option Scalar) : CM unit :=
  config_content ← on_files (load_config config);
  my_address ← st_lift (get_my_address config_content);
  committee_id ← st_lift (get_committee_id config_content);
  network ← st_lift (get_network str_to_lowercase config_content);
  let node_url := get_node_url config_content in
  local_keys ← on_files (keys_load keys_file);
  let my_old_pk := (λ key_share, g_mul g_generator key_share) <$> old_share in
  grpc_client ← st_lift (create_grpc_client_with_url network node_url);
  committee ← on_chain (fetch_committee_data grpc_client committee_id);
  if negb (Committee.contains committee my_address) then
    st_lift (Err ("Address " +:+ address_to_string my_address
      +:+ " is not a member of committee " +:+ address_to_string committee_id))
  else
    members_info ← st_lift (get_members_info state_debug committee);
    my_member_info ← st_lift (ok_or (members_info !! my_address)
      ("Address " +:+ address_to_string my_address +:+ " not found in committee members"));
    let my_party_id := pmi_party_id my_member_info in
    if negb (bool_decide (kf_enc_pk local_keys = pmi_enc_pk my_member_info)
             && bool_decide (kf_signing_pk local_keys = pmi_signing_pk my_member_info)) then
      st_lift (Err ("Mismatched PK for address " +:+ address_to_string my_address +:+ "!"))
    else
      old ← old_committee_params grpc_client committee my_address my_party_id my_old_pk;
      let members := (hash_order (map_to_list (members_info : gmap Address ParsedMemberInfo))).*2 in
      let nodes := to_node <$> members in
      let signing_pks := hashmap_collect ((λ m, (pmi_party_id m, pmi_signing_pk m)) <$> members) in
      my_message ← create_my_message state_dir local_keys committee_id committee my_party_id
                     nodes old_share old;
      nodes ← st_lift (nodes_new nodes);
      on_files (state_save
        (mkDkgState
           (mkInitializedConfig my_party_id nodes committee_id (sc_threshold committee)
              signing_pks (oc_threshold <$> old) (oc_new_to_old_mapping <$> old)
              (oc_expected_old_pks <$> old) old_share my_old_pk)
           my_message ∅ [] None None)
        state_dir).
End member.

(** ** The commands *)
Section commands.
  Context {Tx : Type} {node : FullNode Tx} {sui : SuiTypes} {sym : Symmetric} {crv : Curve}
    {bcs : BcsTypes} {profile : BuildProfile} {dkg : DkgLib} {codecs : DkgCodecs}
    {fs : FileSystem} {yaml : Yaml} {encs : Encodings} {cli : CliLib Tx} {order : HashOrder}.
  Context (state_debug : CommitteeState → string).

(** The arguments that all commands have. *)
Record Cli : Type := mkCli {
  cli_wallet : option string;
  cli_active_address : option Address;
  cli_sender_address : option Address;
  cli_gas_budget : option N;
}.

Definition call (package : Address) (function : string) (args : list (CallArg ObjectRef)) :
    BuilderCall ObjectRef :=
  CallMove package "seal_committee" function args.

Definition publish_and_init (args : Cli) (state_dir : string) : CM unit :=
  let config := (derive_paths state_dir).1 in
  config_content ← on_files (load_config config);
  if bool_decide (is_Some (get_config_field config_content "publish-and-init" "COMMITTEE_PKG"))
     || bool_decide (is_Some (get_config_field config_content "publish-and-init" "COMMITTEE_ID"))
  then mret ()
  else
    network ← st_lift (get_network str_to_lowercase config_content);
    let node_url := get_node_url config_content in
    members ← st_lift (get_members config_content);
    threshold ← st_lift (get_threshold config_content);
    wallet ← st_lift (load_wallet_for_network (cli_wallet args) (cli_active_address args)
                        network node_url);
    coordinator_address ← st_lift (wallet_active_address wallet);
    _ ← st_lift (get_active_env wallet);
    cwd ← st_lift current_dir;
    let committee_path := cwd +:+ "/move/committee" in
    exists_path ← on_files (f ← st_get; mret (path_exists committee_path f));
    if negb exists_path then
      st_lift (Err ("Committee package not found at: " +:+ committee_path))
    else
      let published_toml := committee_path +:+ "/Published.toml" in
      published ← on_files (f ← st_get; mret (path_exists published_toml f));
      _ ← (if published : bool then on_files (fs_do (fs_remove_file published_toml)) else mret ());
      compiled_package ← st_lift (build_package committee_path network);
      grpc_client ← st_lift (create_grpc_client_with_url network node_url);
      '(gas_price, gas_budget, gas_coin_ref) ← get_gas_params grpc_client wallet
        coordinator_address (package_ops_budget (cli_gas_budget args) network);
      response ← sign_and_execute_txn_and_log wallet
        (mkTransactionData coordinator_address [gas_coin_ref]
           [PublishUpgradeable (cp_modules compiled_package) (cp_dependencies compiled_package);
            TransferArg coordinator_address (ArgResult 0)] gas_budget gas_price);
      package_id ← st_lift (ok_or (et_new_package response) "Could not find published package ID");
      upgrade_cap_id ← st_lift (ok_or (et_new_upgrade_cap response) "Could not find UpgradeCap");
      upgrade_cap_ref ← on_env (get_object_ref wallet upgrade_cap_id);
      init_gas_coin_ref ← on_env (gas_for_owner_budget wallet coordinator_address gas_budget);
      init_response ← sign_and_execute_txn_and_log wallet
        (mkTransactionData coordinator_address [init_gas_coin_ref]
           [call package_id "init_committee"
              [ArgObject (ImmOrOwnedObject upgrade_cap_ref); ArgPure (PureU16 threshold);
               ArgPure (PureAddresses members)]] gas_budget gas_price);
      committee_id ← st_lift (extract_created_committee_id init_response);
      on_files (update_config_bytes_val config "publish-and-init"
        [("COMMITTEE_PKG", package_id); ("COMMITTEE_ID", committee_id);
         ("COORDINATOR_ADDRESS", coordinator_address)]).

Definition init_rotation (args : Cli) (state_dir : string) : CM unit :=
  let config := (derive_paths state_dir).1 in
  config_content ← on_files (load_config config);
  if bool_decide (is_Some (get_config_field config_content "init-rotation" "COMMITTEE_ID"))
  then mret ()
  else
    key_server_obj_id ← st_lift (get_key_server_obj_id config_content);
    network ← st_lift (get_network str_to_lowercase config_content);
    let node_url := get_node_url config_content in
    members ← st_lift (get_members config_content);
    threshold ← st_lift (get_threshold config_content);
    wallet ← st_lift (load_wallet_for_network (cli_wallet args) (cli_active_address args)
                        network node_url);
    coordinator_address ← st_lift (wallet_active_address wallet);
    grpc_client ← st_lift (create_grpc_client_with_url network node_url);
    '(current_committee_id, package_id) ← on_chain
      (grpc_fetch_committee_from_key_server grpc_client key_server_obj_id);
    _ ← on_files (update_config_bytes_val config "init-rotation"
          [("COMMITTEE_PKG", package_id); ("CURRENT_COMMITTEE_ID", current_committee_id);
           ("COORDINATOR_ADDRESS", coordinator_address)]);
    current_committee_arg ← get_shared_committee_arg grpc_client current_committee_id false;
    '(gas_price, gas_budget, gas_coin_ref) ← get_gas_params grpc_client wallet
      coordinator_address (regular_gas_budget (cli_gas_budget args) network);
    rotation_response ← sign_and_execute_txn_and_log wallet
      (mkTransactionData coordinator_address [gas_coin_ref]
         [call package_id "init_rotation"
            [ArgObject current_committee_arg; ArgPure (PureU16 threshold);
             ArgPure (PureAddresses members)]] gas_budget gas_price);
    new_committee_id ← st_lift (extract_created_committee_id rotation_response);
    on_files (update_config_bytes_val config "init-rotation" [("COMMITTEE_ID", new_committee_id)]).

(** [bcs_enc_pk], [bcs_signing_pk] encode the public keys; the two generators
    draw a private key. *)
Class KeyGeneration : Type := {
  enc_sk_new : Rng → Scalar * Rng;
  signing_key_generate : Rng → (Scalar * G2Element) * Rng;
  bcs_enc_pk : G1Element → outcome string (list byte);
  bcs_signing_pk : G2Element → outcome string (list byte);
  keys_dir : string → option string; (** [Path::parent] *)
}.

Definition genkey_and_register {keygen : KeyGeneration} (args : Cli)
    (state_dir server_url server_name : string) (unsigned : bool) : CM unit :=
  let '(config, keys_file) := derive_paths state_dir in
  config_content ← on_files (load_config config);
  if bool_decide (is_Some (get_config_field config_content "genkey-and-register" "DKG_ENC_PK"))
     || bool_decide (is_Some (get_config_field config_content "genkey-and-register" "DKG_SIGNING_PK"))
  then mret ()
  else if bool_decide (str_trim server_url = "") || bool_decide (str_trim server_name = "") then
    st_lift (Err "Server URL and name are required.")
  else
    network ← st_lift (get_network str_to_lowercase config_content);
    let node_url := get_node_url config_content in
    wallet ← st_lift (load_wallet_for_network (cli_wallet args) (cli_active_address args)
                        network node_url);
    my_address ← st_lift (transaction_sender_address wallet (cli_sender_address args) unsigned);
    _ ← on_files (update_config_bytes_val config "genkey-and-register" [("MY_ADDRESS", my_address)]);
    _ ← on_files (update_config_string_val config "genkey-and-register"
          [("MY_SERVER_URL", server_url); ("MY_SERVER_NAME", server_name)]);
    config_content ← on_files (load_config config);
    committee_pkg ← st_lift (get_committee_pkg config_content);
    committee_id ← st_lift (get_committee_id config_content);
    enc_sk ← on_rng enc_sk_new;
    let enc_pk := g_mul g_generator enc_sk in
    '(signing_sk, signing_pk) ← on_rng signing_key_generate;
    enc_pk_bytes ← st_lift (bcs_enc_pk enc_pk);
    signing_pk_bytes ← st_lift (bcs_signing_pk signing_pk);
    json_content ← st_lift (json_keys_file (mkKeysFile enc_sk enc_pk signing_sk signing_pk));
    _ ← (match keys_dir keys_file with
         | Some parent => on_files (fs_do (fs_create_dir_all parent))
         | None => mret ()
         end);
    _ ← on_files (write_secret_file keys_file json_content);
    _ ← on_files (update_config_bytes_val config "genkey-and-register"
          [("DKG_ENC_PK", enc_pk_bytes); ("DKG_SIGNING_PK", signing_pk_bytes)]);
    grpc_client ← st_lift (create_grpc_client_with_url network node_url);
    committee_arg ← get_shared_committee_arg grpc_client committee_id true;
    '(gas_price, gas_budget, gas_coin_ref) ← get_gas_params grpc_client wallet my_address
      (regular_gas_budget (cli_gas_budget args) network);
    print_or_execute unsigned wallet
      (mkTransactionData my_address [gas_coin_ref]
         [call committee_pkg "register"
            [ArgObject committee_arg; ArgPure (PureBytes enc_pk_bytes);
             ArgPure (PureBytes signing_pk_bytes); ArgPure (PureString server_url);
             ArgPure (PureString server_name)]] gas_budget gas_price).

Definition init_state (state_dir : string) : CM unit :=
  let '(config, keys_file) := derive_paths state_dir in
  create_dkg_state_and_message state_debug state_dir config keys_file None.

Definition create_message_command (state_dir : string) (old_share : option Scalar) : CM unit :=
  let '(config, keys_file) := derive_paths state_dir in
  create_dkg_state_and_message state_debug state_dir config keys_file old_share.
End commands.
