(* ===== verification/CliCommands.v ===== *)
(** * The committee tool: processing messages, status and upgrades
    ([crates/seal-committee-cli/src/main.rs])

    The commands that follow the registration of the members: processing the
    messages of a key generation and proposing its outcome, looking at a
    committee, voting on an upgrade of its package and executing it, and
    signing what another machine printed. What the commands only print is
    their result here. *)

From Stdlib Require Import NArith Lia.
From stdpp Require Import pretty.
From S2P Require Import Prelude Primitives Ibe Common Chain Committee RpcClient Options CliConfig.
From S2P Require Import Dkg CommitteeCli.

Section cli_commands.
  Context {Tx : Type} {node : FullNode Tx} {sui : SuiTypes} {sym : Symmetric} {crv : Curve}
    {bcs : BcsTypes} {profile : BuildProfile} {dkg : DkgLib} {codecs : DkgCodecs}
    {fs : FileSystem} {yaml : Yaml} {encs : Encodings} {cli : CliLib Tx} {order : HashOrder}.

Definition parse_old_share (s : string) : outcome string Scalar :=
  bytes ← ok_or (hex_decode s) "invalid hex";
  bcs_decode_scalar bytes.

(** ** Processing the messages *)

(** The [state] that the processing updates is dropped at the end. *)
Definition on_dkg {A : Type} (state : DkgState) (m : DM A) : CM A :=
  λ s, let '(r, (_, g)) := m (state, rng s) in
       (r, mkMachine (files s) (world s) g (executed s) (printed s)).

(** [NonZeroU16::new(party_id as u16 + 1)]: the increment must not overflow. *)
Definition share_index (party_id : nat) : outcome string N :=
  let index := (as_u16 party_id + 1)%N in
  if (index <? 2 ^ 16)%N then Ok index else Panic.

Definition partial_pks_of (output : Output) (num_nodes : nat) : outcome string (list string) :=
  try_map (λ party_id,
      index ← share_index party_id;
      Ok (hex_encode_with_format (bcs_g2 (output_eval output index)))) (seq 0 num_nodes).

Definition master_share_of (output : Output) : outcome string (list byte) :=
  match output_shares output ≫= head with
  | Some share => bcs_scalar share
  | None => Err "DKG output did not contain a master share"
  end.

(** What the messages yield: the key, the partial keys, and their hash. *)
Definition process_outputs (state : DkgState) (local_keys : KeysFile)
    (messages : list SignedMessage) (config : string) (next_version : N)
    (old_key_server_pk : option (list byte)) : CM (list byte * list string * list byte) :=
  '(output, messages_hash) ← on_dkg state (process_dkg_messages messages local_keys);
  let key_server_pk_bytes := bcs_g2 (output_c0 output) in
  master_share_bytes ← st_lift (master_share_of output);
  partial_pks ← st_lift (partial_pks_of output (num_nodes (ic_nodes (ds_config state))));
  partial_pks_yaml ← st_lift (yaml_strings partial_pks);
  _ ← on_files (persist_process_outputs str_trim config next_version key_server_pk_bytes
                  old_key_server_pk (str_trim partial_pks_yaml) master_share_bytes);
  config_content ← on_files (load_config config);
  _ ← st_lift (validate_process_outputs_added fields_debug config_content next_version);
  mret (key_server_pk_bytes, partial_pks, messages_hash).

Definition propose_calls (committee_pkg : Address) (grpc_client : GrpcClient)
    (committee_id : Address) (current_committee_id : option Address)
    (key_server_pk_bytes : list byte) (partial_pks : list string) (messages_hash : list byte) :
    CM (list (BuilderCall ObjectRef)) :=
  committee_arg ← get_shared_committee_arg grpc_client committee_id true;
  partial_pks_bytes ← st_lift (try_map (λ s, ok_or (hex_decode s) "invalid hex") partial_pks);
  match current_committee_id with
  | Some current_committee_id =>
      current_committee_arg ← get_shared_committee_arg grpc_client current_committee_id true;
      mret [call committee_pkg "propose_for_rotation"
              [ArgObject committee_arg; ArgPure (PureBytesList partial_pks_bytes);
               ArgPure (PureBytes messages_hash); ArgObject current_committee_arg]]
  | None =>
      mret [call committee_pkg "propose"
              [ArgObject committee_arg; ArgPure (PureBytesList partial_pks_bytes);
               ArgPure (PureBytes key_server_pk_bytes); ArgPure (PureBytes messages_hash)]]
  end.

Definition process_all_and_propose (args : Cli) (state_dir : string)
    (messages_dir : option string) (unsigned : bool) : CM unit :=
  let '(config, keys_file) := derive_paths state_dir in
  let full_messages_dir := default (state_dir +:+ "/dkg-messages") messages_dir in
  config_content ← on_files (load_config config);
  committee_pkg ← st_lift (get_committee_pkg config_content);
  committee_id ← st_lift (get_committee_id config_content);
  my_address ← st_lift (get_my_address config_content);
  network ← st_lift (get_network str_to_lowercase config_content);
  let node_url := get_node_url config_content in
  state ← on_files (state_load state_dir);
  if negb (bool_decide (committee_id = ic_committee_id (ds_config state))) then
    st_lift (Err ("dkg.yaml COMMITTEE_ID " +:+ address_to_string committee_id
      +:+ " does not match state.json committee ID "
      +:+ address_to_string (ic_committee_id (ds_config state))))
  else
    local_keys ← on_files (keys_load keys_file);
    grpc_client ← st_lift (create_grpc_client_with_url network node_url);
    '(next_version, old_key_server_pk, current_committee_id) ← on_chain
      (get_committee_rotation_info grpc_client (ic_committee_id (ds_config state)));
    _ ← st_lift (validate_process_section fields_debug config_content next_version
                   old_key_server_pk);
    wallet ← st_lift (load_wallet_for_network (cli_wallet args) (cli_active_address args)
                        network node_url);
    sender_address ← st_lift (transaction_sender_address wallet (cli_sender_address args) unsigned);
    if negb (bool_decide (my_address = sender_address)) then
      st_lift (Err ("Transaction sender address " +:+ address_to_string sender_address
        +:+ " does not match genkey-and-register.MY_ADDRESS " +:+ address_to_string my_address))
    else
      messages ← on_files (load_messages_from_dir full_messages_dir);
      '(key_server_pk_bytes, partial_pks, messages_hash) ← process_outputs state local_keys
        messages config next_version old_key_server_pk;
      calls ← propose_calls committee_pkg grpc_client committee_id current_committee_id
                key_server_pk_bytes partial_pks messages_hash;
      '(gas_price, gas_budget, gas_coin_ref) ← get_gas_params grpc_client wallet my_address
        (regular_gas_budget (cli_gas_budget args) network);
      print_or_execute unsigned wallet
        (mkTransactionData my_address [gas_coin_ref] calls gas_budget gas_price).

(** ** Upgrades of the package *)
Inductive UpgradeVoteChoice : Type :=
  | VoteApprove (package_path : string)
  | VoteReject.

Record UpgradeVoteContext : Type := mkUpgradeVoteContext {
  uv_key_server_id : Address;
  uv_network : CommitteeNetwork;
  uv_gas_budget : N;
  uv_rpc_url : option string;
  uv_sender_address : option Address;
  uv_unsigned : bool;
}.

(** The committee of a key server with the package it runs, from its
    [UpgradeCap]. *)
Definition fetch_committee_package (grpc_client : GrpcClient) (key_server_id : Address) :
    CM (Address * Address) :=
  '(committee_id, _) ← on_chain (grpc_fetch_committee_from_key_server grpc_client key_server_id);
  upgrade_manager ← on_chain (fetch_upgrade_manager grpc_client committee_id);
  mret (committee_id, uc_package (um_cap upgrade_manager)).

Definition vote_for_upgrade (vote : UpgradeVoteChoice) (wallet : Wallet)
    (context : UpgradeVoteContext) : CM unit :=
  voter_address ← st_lift (transaction_sender_address wallet (uv_sender_address context)
                             (uv_unsigned context));
  '(digest, function_name) ← st_lift
    (match vote with
     | VoteApprove package_path =>
         digest ← get_package_digest package_path (uv_network context);
         Ok (Some digest, "approve_digest_for_upgrade")
     | VoteReject => Ok (None, "reject_digest_for_upgrade")
     end);
  grpc_client ← st_lift (create_grpc_client_with_url (uv_network context) (uv_rpc_url context));
  '(committee_id, committee_pkg) ← fetch_committee_package grpc_client (uv_key_server_id context);
  committee_arg ← get_shared_committee_arg grpc_client committee_id true;
  args ← st_lift (match digest with
                  | Some digest_str =>
                      digest_bytes ← ok_or (hex_decode digest_str) "invalid hex";
                      Ok [ArgObject committee_arg; ArgPure (PureBytes digest_bytes)]
                  | None => Ok [ArgObject committee_arg]
                  end);
  '(gas_price, gas_budget, gas_coin_ref) ← get_gas_params grpc_client wallet voter_address
    (uv_gas_budget context);
  print_or_execute (uv_unsigned context) wallet
    (mkTransactionData voter_address [gas_coin_ref] [call committee_pkg function_name args]
       gas_budget gas_price).

Definition vote_command (vote : UpgradeVoteChoice) (args : Cli) (key_server_id : Address)
    (network : CommitteeNetwork) (rpc_url : option string) (unsigned : bool) : CM unit :=
  wallet ← st_lift (load_wallet_for_network (cli_wallet args) (cli_active_address args)
                      network rpc_url);
  vote_for_upgrade vote wallet
    (mkUpgradeVoteContext key_server_id network (regular_gas_budget (cli_gas_budget args) network)
       rpc_url (cli_sender_address args) unsigned).

Definition approve_upgrade (args : Cli) (package_path : string) :=
  vote_command (VoteApprove package_path) args.

Definition reject_upgrade (args : Cli) := vote_command VoteReject args.

Definition authorize_and_upgrade (args : Cli) (package_path : string) (key_server_id : Address)
    (network : CommitteeNetwork) (rpc_url : option string) (unsigned : bool) : CM unit :=
  wallet ← st_lift (load_wallet_for_network (cli_wallet args) (cli_active_address args)
                      network rpc_url);
  executor_address ← st_lift (transaction_sender_address wallet (cli_sender_address args) unsigned);
  _ ← st_lift (get_package_digest package_path network);
  compiled_package ← st_lift (build_package package_path network);
  grpc_client ← st_lift (create_grpc_client_with_url network rpc_url);
  '(committee_id, committee_pkg) ← fetch_committee_package grpc_client key_server_id;
  committee_arg_auth ← get_shared_committee_arg grpc_client committee_id true;
  committee_arg_commit ← get_shared_committee_arg grpc_client committee_id true;
  '(gas_price, gas_budget, gas_coin_ref) ← get_gas_params grpc_client wallet executor_address
    (package_ops_budget (cli_gas_budget args) network);
  let upgrade_tx_data := mkTransactionData executor_address [gas_coin_ref]
        [call committee_pkg "authorize_upgrade" [ArgObject committee_arg_auth];
         UpgradePackage committee_pkg (ArgResult 0) (cp_dependencies compiled_package)
           (cp_modules compiled_package);
         call committee_pkg "commit_upgrade" [ArgObject committee_arg_commit; ArgResult 1]]
        gas_budget gas_price in
  if unsigned then print_unsigned_tx_bytes upgrade_tx_data
  else
    upgrade_response ← sign_and_execute_txn_and_log wallet upgrade_tx_data;
    _ ← st_lift (ok_or (et_new_package upgrade_response) "Could not find upgraded package ID");
    mret ().

Definition reset_proposal (args : Cli) (key_server_id : Address) (network : CommitteeNetwork)
    (rpc_url : option string) : CM unit :=
  wallet ← st_lift (load_wallet_for_network (cli_wallet args) (cli_active_address args)
                      network rpc_url);
  member_address ← st_lift (wallet_active_address wallet);
  grpc_client ← st_lift (create_grpc_client_with_url network rpc_url);
  '(committee_id, committee_pkg) ← fetch_committee_package grpc_client key_server_id;
  committee_arg ← get_shared_committee_arg grpc_client committee_id true;
  '(gas_price, gas_budget, gas_coin_ref) ← get_gas_params grpc_client wallet member_address
    (regular_gas_budget (cli_gas_budget args) network);
  _ ← sign_and_execute_txn_and_log wallet
        (mkTransactionData member_address [gas_coin_ref]
           [call committee_pkg "reset_proposal" [ArgObject committee_arg]] gas_budget gas_price);
  mret ().

(** ** Addresses and signatures *)
Definition new_address (args : Cli) : CM Address :=
  wallet ← st_lift (load_wallet (cli_wallet args) (cli_active_address args));
  '(generated, wallet) ← on_env (keystore_generate wallet);
  _ ← on_env (wallet_save (set_active_address generated wallet));
  mret generated.

Definition active_address (args : Cli) : CM Address :=
  wallet ← st_lift (load_wallet (cli_wallet args) (cli_active_address args));
  st_lift (wallet_active_address wallet).

Definition sign_and_execute (args : Cli) (tx_bytes : string) : CM unit :=
  wallet ← st_lift (load_wallet (cli_wallet args) (cli_active_address args));
  tx_data ← st_lift (decode_unsigned_tx_bytes tx_bytes);
  signature ← st_lift (sign_secure wallet (td_sender tx_data) tx_data);
  _ ← execute_signed_txn_and_log wallet tx_data signature;
  mret ().

(** [unwrap_or] evaluates its argument: the wallet must have an address. *)
Definition gas (args : Cli) : CM (list (N * Address)) :=
  wallet ← st_lift (load_wallet (cli_wallet args) (cli_active_address args));
  active ← st_lift (wallet_active_address wallet);
  on_env (gas_objects wallet (default active (cli_sender_address args))).

(** ** Looking at a committee *)
Record KeyServerReport : Type := mkKeyServerReport {
  kr_obj_id : Address;
  kr_version : option N; (** of a committee's key server *)
  kr_partial : list (Address * PartialKeyServerInfo * string) + string;
}.

Definition display_partial_key_servers (key_server : KeyServerV2) (members : list Address) :
    outcome string (list (Address * PartialKeyServerInfo * string) + string) :=
  match to_partial_key_servers key_server members with
  | Ok partial_key_servers =>
      Ok (inl ((λ '(addr, info), (addr, info, encode (Encoding := base64) (bcs_g2 (pki_partial_pk info))))
                 <$> hash_order (map_to_list partial_key_servers)))
  | Err e => Ok (inr e)
  | Panic => Panic
  end.

Definition report_key_server (r : (Address * KeyServerV2) + string) (members : list Address) :
    CM (KeyServerReport + string) :=
  match r with
  | inl (ks_obj_id, key_server) =>
      partial_ks ← st_lift (display_partial_key_servers key_server members);
      mret (inl (mkKeyServerReport ks_obj_id
        (match ks_server_type key_server with
         | CommitteeServer version _ _ => Some version
         | Independent _ => None
         end) partial_ks))
  | inr e => mret (inr e)
  end.

Inductive CommitteeReport : Type :=
  | Registration (registered missing : list (Address * N))
  | Approval (approved missing : list Address)
  | FinalizedReport (key_server : KeyServerReport + string).

(** [iter.partition(pred)]. *)
Definition partition_by {A : Type} (p : A → bool) (l : list A) : list A * list A :=
  (List.filter p l, List.filter (λ x, negb (p x)) l).

(** Members with their party ids. *)
Definition with_party_ids (committee : SealCommittee) (l : list Address) :
    outcome string (list (Address * N)) :=
  try_map (λ addr, party_id ← get_party_id committee addr; Ok (addr, party_id)) l.

Definition check_committee (state_dir : string) : CM CommitteeReport :=
  let config := (derive_paths state_dir).1 in
  config_content ← on_files (load_config config);
  committee_id ← st_lift (get_committee_id config_content);
  network ← st_lift (get_network str_to_lowercase config_content);
  let node_url := get_node_url config_content in
  grpc_client ← st_lift (create_grpc_client_with_url network node_url);
  committee ← on_chain (fetch_committee_data grpc_client committee_id);
  match sc_state committee with
  | Init members_info =>
      let registered_addrs : gset Address := list_to_set members_info.*1 in
      let '(registered, not_registered) :=
        partition_by (λ addr, bool_decide (addr ∈ registered_addrs)) (sc_members committee) in
      registered ← st_lift (with_party_ids committee registered);
      not_registered ← st_lift (with_party_ids committee not_registered);
      mret (Registration registered not_registered)
  | PostDKG _ _ _ _ approvals =>
      let approved_addrs : gset Address := list_to_set approvals in
      let '(approved, not_approved) :=
        partition_by (λ addr, bool_decide (addr ∈ approved_addrs)) (sc_members committee) in
      mret (Approval approved not_approved)
  | Finalized =>
      r ← st_try (on_chain (fetch_key_server_by_committee grpc_client committee_id));
      report ← report_key_server r (sc_members committee);
      mret (FinalizedReport report)
  end.

Record StatusReport : Type := mkStatusReport {
  sr_committee : SealCommittee;
  sr_key_server : KeyServerReport + string;
  sr_upgrade_manager : UpgradeManager + string;
  sr_proposal : option UpgradeProposal + string;
}.

(** Only the committee must be there; the rest is reported as it is found. *)
Definition check_key_server_status (key_server_id : Address) (network : CommitteeNetwork)
    (rpc_url : option string) : CM StatusReport :=
  grpc_client ← st_lift (create_grpc_client_with_url network rpc_url);
  '(committee_id, _) ← on_chain (grpc_fetch_committee_from_key_server grpc_client key_server_id);
  committee ← on_chain (fetch_committee_data grpc_client committee_id);
  r ← st_try (on_chain (fetch_key_server_by_committee grpc_client committee_id));
  key_server ← report_key_server r (sc_members committee);
  upgrade_manager ← st_try (on_chain (fetch_upgrade_manager grpc_client committee_id));
  proposal ← st_try (on_chain (grpc_fetch_upgrade_proposal grpc_client committee_id));
  mret (mkStatusReport committee key_server upgrade_manager proposal).

(** ** The program *)
Inductive Commands : Type :=
  | PublishAndInit (state_dir : string)
  | InitRotation (state_dir : string)
  | GenkeyAndRegister (state_dir server_url server_name : string) (unsigned : bool)
  | InitState (state_dir : string)
  | CreateMessage (state_dir : string) (old_share : option Scalar)
  | ProcessAllAndPropose (state_dir : string) (messages_dir : option string) (unsigned : bool)
  | CheckCommittee (state_dir : string)
  | PackageDigest (package_path : string) (network : CommitteeNetwork)
  | ApproveUpgrade (package_path : string) (key_server_id : Address) (network : CommitteeNetwork)
      (rpc_url : option string) (unsigned : bool)
  | RejectUpgrade (key_server_id : Address) (network : CommitteeNetwork)
      (rpc_url : option string) (unsigned : bool)
  | AuthorizeAndUpgrade (package_path : string) (key_server_id : Address)
      (network : CommitteeNetwork) (rpc_url : option string) (unsigned : bool)
  | ResetProposal (key_server_id : Address) (network : CommitteeNetwork) (rpc_url : option string)
  | CheckKeyServerStatus (key_server_id : Address) (network : CommitteeNetwork)
      (rpc_url : option string)
  | NewAddress
  | ActiveAddress
  | SignAndExecute (tx_bytes : string)
  | Gas.

Inductive CommandOutput : Type :=
  | NoOutput
  | CommitteeOutput (r : CommitteeReport)
  | StatusOutput (r : StatusReport)
  | DigestOutput (digest : string)
  | AddressOutput (a : Address)
  | GasOutput (coins : list (N * Address)).

Definition with_output {A : Type} (f : A → CommandOutput) (m : CM A) : CM CommandOutput :=
  a ← m; mret (f a).

Definition run {keygen : KeyGeneration} (state_debug : CommitteeState → string)
    (args : Cli) (command : Commands) : CM CommandOutput :=
  let quiet := with_output (λ _ : unit, NoOutput) in
  match command with
  | PublishAndInit state_dir => quiet (publish_and_init args state_dir)
  | InitRotation state_dir => quiet (init_rotation args state_dir)
  | GenkeyAndRegister state_dir server_url server_name unsigned =>
      quiet (genkey_and_register args state_dir server_url server_name unsigned)
  | InitState state_dir => quiet (init_state state_debug state_dir)
  | CreateMessage state_dir old_share => quiet (create_message_command state_debug state_dir old_share)
  | ProcessAllAndPropose state_dir messages_dir unsigned =>
      quiet (process_all_and_propose args state_dir messages_dir unsigned)
  | CheckCommittee state_dir => with_output CommitteeOutput (check_committee state_dir)
  | PackageDigest package_path network =>
      with_output DigestOutput (st_lift (get_package_digest package_path network))
  | ApproveUpgrade package_path key_server_id network rpc_url unsigned =>
      quiet (approve_upgrade args package_path key_server_id network rpc_url unsigned)
  | RejectUpgrade key_server_id network rpc_url unsigned =>
      quiet (reject_upgrade args key_server_id network rpc_url unsigned)
  | AuthorizeAndUpgrade package_path key_server_id network rpc_url unsigned =>
      quiet (authorize_and_upgrade args package_path key_server_id network rpc_url unsigned)
  | ResetProposal key_server_id network rpc_url =>
      quiet (reset_proposal args key_server_id network rpc_url)
  | CheckKeyServerStatus key_server_id network rpc_url =>
      with_output StatusOutput (check_key_server_status key_server_id network rpc_url)
  | NewAddress => with_output AddressOutput (new_address args)
  | ActiveAddress => with_output AddressOutput (active_address args)
  | SignAndExecute tx_bytes => quiet (sign_and_execute args tx_bytes)
  | Gas => with_output GasOutput (gas args)
  end.
End cli_commands.

(** ** A chain with one committee, and a wallet that signs everything

    Transactions have an encoding if they make one call with shared objects. *)
Module ToyCli.
Inductive CliTx : Set := TheTx.

#[local] Existing Instances Toy.curve Toy.symmetric ToyChain.sui ToyFiles.encodings
  ToyFiles.file_system ToyFiles.yaml ToyDkg.dkg ToyDkg.codecs ToyCommon.profile.

#[local] Instance node : FullNode CliTx := {
  Env := unit; GrpcClient := unit;
  grpc_client_new _ := Ok ();
  metadata_value_error _ := None; metadata_key_error _ := None; with_header c _ _ := c;
  get_object_rpc _ _ _ e :=
    (inl (mkGetObjectResponse (Some (mkObjectProto (Some (Some []))
       (Some (mkOwnerProto (Some "o") (Some 1%N))) (Some "t")))), e);
  simulate_rpc _ _ _ e := (inl (mkSimulateResponse None 0), e);
  get_epoch_rgp_rpc _ e := (inl 1000%N, e);
  build_mainnet_rpc e := (true, e);
  bcs_object b := Ok (DataMove b);
  env_sleep _ e := e; env_now e := (0%N, e); env_instant e := (0%N, e);
  env_package_cached _ _ := false; env_mvr_cached _ _ := false; env_committee_version _ := 0%N;
}.

Definition committee : SealCommittee :=
  mkSealCommittee [Byte.x63] 2 [[Byte.x61]; [Byte.x62]]
    (Init [([Byte.x61], mkMemberInfo (Byte.x03 : G1Element) (Byte.x04 : G2Element) "" "");
           ([Byte.x62], mkMemberInfo (Byte.x05 : G1Element) (Byte.x06 : G2Element) "" "")]) None.

#[local] Instance bcs : BcsTypes := {
  decode_field_key_server _ := Err ""; decode_committee _ := Ok committee;
  decode_field_wrapper _ := Ok (mkField [Byte.x66] [Byte.x63] [Byte.x6b]);
  decode_upgrade_manager_wrapper _ := Ok (mkField [Byte.x66] false [Byte.x6d]);
  decode_upgrade_manager _ := Ok (mkUpgradeManager [Byte.x6d] (mkUpgradeCap [] [Byte.x70] 1 u8_zero) None);
  encode_wrapper _ := Ok []; encode_upgrade_manager_key _ := Ok [];
}.

Definition arg_code (a : CallArg nat) : option (Address * N * bool) :=
  match a with ArgObject (CliSharedObject id v m) => Some (id, v, m) | _ => None end.

Definition TxCode : Type :=
  Address * list nat * (Address * string * string * list (Address * N * bool)) * N * N.

Definition tx_code (tx : TransactionData nat) : option TxCode :=
  match td_calls tx with
  | [CallMove p m f args] =>
      l ← mapM arg_code args;
      Some (td_sender tx, td_gas_payment tx, (p, m, f, l), td_gas_budget tx, td_gas_price tx)
  | _ => None
  end.

Definition tx_of (c : TxCode) : TransactionData nat :=
  let '(sender, payment, (p, m, f, l), budget, price) := c in
  mkTransactionData sender payment
    [CallMove p m f ((λ '(id, v, mut), ArgObject (CliSharedObject id v mut)) <$> l)] budget price.

Lemma tx_of_code tx c : tx_code tx = Some c → tx_of c = tx.
Proof.
  destruct tx as [sender payment calls budget price]. unfold tx_code. cbn [td_calls].
  destruct calls as [|[p m f args| | |] [|]]; try done.
  intros (l & Hl%mapM_Some & [= <-])%bind_Some. simpl. do 3 f_equal.
  induction Hl as [|a x args l Ha _ IH]; csimpl; [done|]. rewrite IH. f_equal.
  destruct a as [|[|]|]; try done. by injection Ha as <-.
Qed.

#[local] Instance cli : CliLib CliTx := {
  Wallet := Address;
  wallet_new _ := Ok [Byte.x61];
  set_active_address a _ := a;
  wallet_active_address w := Ok w;
  wallet_envs _ := [];
  with_env_override _ w := w;
  get_active_env _ := Ok "";
  keystore_generate w e := (inl (w, w), e);
  wallet_save _ e := (inl (), e);
  ObjectRef := nat;
  gas_for_owner_budget _ _ _ e := (inl 7, e);
  gas_objects _ _ e := (inl [], e);
  get_object_ref _ _ e := (inl 8, e);
  TxSignature := unit;
  sign_secure _ _ _ := Ok ();
  execute_transaction_may_fail _ _ _ e := (inl (mkExecutedTransaction "" None [] None None), e);
  bcs_transaction tx :=
    c ← ok_or (tx_code tx) "unsupported transaction"; Ok (ToyDkg.bytes_print c);
  bcs_decode_transaction b :=
    c ← ok_or (ToyDkg.bytes_parse (A := TxCode) b) "invalid transaction"; Ok (tx_of c);
  build_package _ _ := Err "";
  canonicalize s := Ok s;
  current_dir := Ok "";
  home_dir := Some "h";
  MAINNET_FULLNODE := ""; TESTNET_FULLNODE := "";
  str_to_lowercase s := s; str_trim s := s; str_contains _ _ := false;
  fields_debug _ := "";
  bcs_scalar s := Ok [s : byte];
  bcs_decode_scalar b := match b with [s] => Ok (s : byte) | _ => Err "" end;
  yaml_strings _ := Ok "";
}.

#[local] Instance keygen : KeyGeneration := {
  enc_sk_new g := (u8_of g : Scalar, g);
  signing_key_generate g := ((u8_of g : Scalar, u8_of g : G2Element), g);
  bcs_enc_pk k := Ok [k : byte]; bcs_signing_pk k := Ok [k : byte];
  keys_dir _ := None;
}.

#[local] Instance order : HashOrder := λ _ l, rev l.

(** The member's directory, before it creates its state. *)
Definition pair (k : string) (v : ToyFiles.Tree) : list ToyFiles.Tree := [GenLeaf (inl k); v].

Definition config : ToyFiles.Tree :=
  GenNode 0 (pair "init-params" (GenNode 0 (pair "NETWORK" (GenLeaf (inl "testnet"))))
    ++ pair "publish-and-init" (GenNode 0 (pair "COMMITTEE_ID" (GenLeaf (inl "c"))
         ++ pair "COMMITTEE_PKG" (GenLeaf (inl "p"))))
    ++ pair "genkey-and-register" (GenNode 0 (pair "MY_ADDRESS" (GenLeaf (inl "a"))))).

Definition keys : KeysFile :=
  mkKeysFile (Byte.x03 : Scalar) (Byte.x03 : G1Element) (Byte.x04 : Scalar) (Byte.x04 : G2Element).

Definition text (o : outcome string string) : string := match o with Ok s => s | _ => "" end.

Definition machine (f : gmap string string) : Machine :=
  mkMachine (f : Files) (mkWorld (() : Env) [] ∅ ∅) (0%N : Rng) [] [].

Definition before : Machine :=
  machine {[ "d/dkg.yaml" := ToyFiles.print config; "d/dkg.key" := text (json_keys_file keys) ]}.

Definition args : Cli := mkCli None None (Some [Byte.x61]) None.
Definition no_debug (_ : CommitteeState) : string := "".
End ToyCli.
