(* ===== verification/CliProps.v ===== *)
(** * What the commands of the committee tool guarantee

    Commands that print a transaction for another machine to sign do not
    execute one; the outputs of a key generation are added to a configuration
    without overwriting any of it; and the state that a member saves for a key
    generation is complete. *)

From Stdlib Require Import NArith Lia.
From stdpp Require Import pretty.
From S2P Require Import Prelude Primitives Ibe Common Chain Committee RpcClient Keeps Options.
From S2P Require Import CliConfig Dkg DkgProps CommitteeCli CliCommands.

(** Encodings that are read back. *)
Class CliLaws (Tx : Type) `{CliLib Tx, Encodings} : Prop := {
  base64_round_trip b :
    Options.decode (Encoding := base64) (encode (Encoding := base64) b) = Some b;
  transaction_round_trip tx b :
    bcs_transaction tx = Ok b → bcs_decode_transaction b = Ok tx;
}.

Section cli_theory.
  Context {Tx : Type} {node : FullNode Tx} {sui : SuiTypes} {sym : Symmetric} {crv : Curve}
    {bcs : BcsTypes} {profile : BuildProfile} {dkg : DkgLib} {codecs : DkgCodecs}
    {fs : FileSystem} {yaml : Yaml} {encs : Encodings} {cli : CliLib Tx} {order : HashOrder}
    {keygen : KeyGeneration} {laws : CliLaws Tx}.
  Context (state_debug : CommitteeState → string).

(** ** What the steps leave alone *)
Section steps.
  Context {R : relation Machine} `{!PreOrder R}.

Lemma keeps_lift_bind {E A B : Type} (o : outcome E A) (f : A → ST Machine E B) :
  (∀ a, o = Ok a → keeps R (f a)) → keeps R (st_lift o ≫= f).
Proof.
  intros Hf w. unfold mbind, st_bind, st_lift. destruct o; [by apply Hf|done..].
Qed.

(** A step that changes the files, the world or the randomness only. *)
Lemma keeps_step {A : Type} (m : CM A) :
  (∀ s, executed (m s).2 = executed s ∧ printed (m s).2 = printed s) →
  (∀ s s', executed s' = executed s → printed s' = printed s → R s s') → keeps R m.
Proof. intros Hm HR s. destruct (Hm s). by apply HR. Qed.

(** A step that does not change the files. *)
Lemma keeps_files {A : Type} (m : CM A) :
  (∀ s, files (m s).2 = files s) → (∀ s s', files s' = files s → R s s') → keeps R m.
Proof. intros Hm HR s. by apply HR. Qed.
End steps.

Lemma on_files_step {A : Type} (m : FM A) s :
  executed (on_files m s).2 = executed s ∧ printed (on_files m s).2 = printed s.
Proof. unfold on_files. by destruct (m (files s)). Qed.

Lemma on_chain_step {A : Type} (m : M RpcError A) s :
  executed (on_chain m s).2 = executed s ∧ printed (on_chain m s).2 = printed s ∧
  files (on_chain m s).2 = files s.
Proof. unfold on_chain. by destruct (m (world s)). Qed.

Lemma on_env_step {A : Type} (f : Env → (A + string) * Env) s :
  executed (on_env f s).2 = executed s ∧ printed (on_env f s).2 = printed s ∧
  files (on_env f s).2 = files s.
Proof. unfold on_env. by destruct (with_env f (world s)). Qed.

Lemma on_rng_step {A : Type} (f : Rng → A * Rng) s :
  executed (on_rng f s).2 = executed s ∧ printed (on_rng f s).2 = printed s ∧
  files (on_rng f s).2 = files s.
Proof. unfold on_rng. by destruct (f (rng s)). Qed.

Lemma on_dkg_step {A : Type} (st : DkgState) (m : DM A) s :
  executed (on_dkg st m s).2 = executed s ∧ printed (on_dkg st m s).2 = printed s ∧
  files (on_dkg st m s).2 = files s.
Proof. unfold on_dkg. by destruct (m (st, rng s)) as [r [? ?]]. Qed.

(** ** Unsigned transactions *)
Section unsigned.
  Context (args : Cli).

Definition printed_for_sender (text : string) : Prop :=
  ∃ tx, decode_unsigned_tx_bytes text = Ok tx ∧ cli_sender_address args = Some (td_sender tx).

Definition only_prints (s s' : Machine) : Prop :=
  executed s' = executed s ∧
  ∃ texts, printed s' = texts ++ printed s ∧ Forall printed_for_sender texts.

#[local] Instance only_prints_preorder : PreOrder only_prints.
Proof.
  split.
  - intros s. split; [done|]. by exists [].
  - intros s1 s2 s3 [E1 (t1 & P1 & F1)] [E2 (t2 & P2 & F2)]. split; [congruence|].
    exists (t2 ++ t1). rewrite P2, P1. split; [by rewrite <-app_assoc|by apply Forall_app].
Qed.

Lemma only_prints_same s s' :
  executed s' = executed s → printed s' = printed s → only_prints s s'.
Proof. intros He Hp. split; [done|]. by exists []. Qed.

Lemma only_prints_step {A : Type} (m : CM A) :
  (∀ s, executed (m s).2 = executed s ∧ printed (m s).2 = printed s) → keeps only_prints m.
Proof. intros Hm. by apply keeps_step; [|apply only_prints_same]. Qed.

Lemma only_prints_files {A : Type} (m : FM A) : keeps only_prints (on_files m).
Proof. apply only_prints_step, on_files_step. Qed.
Lemma only_prints_chain {A : Type} (m : M RpcError A) : keeps only_prints (on_chain m).
Proof. apply only_prints_step. intros s. split; apply on_chain_step. Qed.
Lemma only_prints_env {A : Type} (f : Env → (A + string) * Env) : keeps only_prints (on_env f).
Proof. apply only_prints_step. intros s. split; apply on_env_step. Qed.
Lemma only_prints_rng {A : Type} (f : Rng → A * Rng) : keeps only_prints (on_rng f).
Proof. apply only_prints_step. intros s. split; apply on_rng_step. Qed.
Lemma only_prints_dkg {A : Type} (st : DkgState) (m : DM A) : keeps only_prints (on_dkg st m).
Proof. apply only_prints_step. intros s. split; apply on_dkg_step. Qed.
#[local] Hint Resolve only_prints_files only_prints_chain only_prints_env only_prints_rng
  only_prints_dkg : keeps.

Lemma only_prints_gas client wallet address budget :
  keeps only_prints (get_gas_params client wallet address budget).
Proof. unfold get_gas_params. keeps. Qed.
Lemma only_prints_shared client id mutable :
  keeps only_prints (get_shared_committee_arg client id mutable).
Proof. unfold get_shared_committee_arg. keeps. Qed.
Lemma only_prints_package client id : keeps only_prints (fetch_committee_package client id).
Proof. unfold fetch_committee_package. keeps. Qed.
#[local] Hint Resolve only_prints_gas only_prints_shared only_prints_package : keeps.

Lemma only_prints_unsigned tx :
  cli_sender_address args = Some (td_sender tx) → keeps only_prints (print_unsigned_tx_bytes tx).
Proof.
  intros Hs. unfold print_unsigned_tx_bytes. apply keeps_lift_bind.
  intros b Hb. intros s. simpl.
  split; [done|]. exists [encode (Encoding := base64) b]. split; [done|].
  apply Forall_singleton. exists tx. split; [|done]. unfold decode_unsigned_tx_bytes.
  rewrite base64_round_trip. simpl. by rewrite (transaction_round_trip _ _ Hb).
Qed.

Lemma sender_address_unsigned wallet a :
  transaction_sender_address wallet (cli_sender_address args) true = Ok a →
  cli_sender_address args = Some a.
Proof. simpl. destruct (cli_sender_address args); [by intros [= ->]|done]. Qed.

(** The step that fixes the sender, and those that follow it. *)
Ltac sender := apply keeps_lift_bind; intros ? ?Hsender%sender_address_unsigned.
Ltac printing := try (unfold print_or_execute; apply only_prints_unsigned; done).

Lemma genkey_and_register_unsigned state_dir url name :
  keeps only_prints (genkey_and_register args state_dir url name true).
Proof.
  unfold genkey_and_register. destruct (derive_paths state_dir).
  apply keeps_bind; [keeps|intros config]. destruct (_ || _); [keeps|].
  destruct (_ || _); [keeps|]. apply keeps_bind; [keeps|intros network].
  apply keeps_bind; [keeps|intros wallet]. sender. keeps; printing.
Qed.

Lemma process_outputs_prints st keys messages config version pk :
  keeps only_prints (process_outputs st keys messages config version pk).
Proof. unfold process_outputs. keeps. Qed.
#[local] Hint Resolve process_outputs_prints : keeps.

Lemma propose_calls_prints pkg client id current pk pks hash :
  keeps only_prints (propose_calls pkg client id current pk pks hash).
Proof. unfold propose_calls. keeps. Qed.
#[local] Hint Resolve propose_calls_prints : keeps.

Lemma process_all_and_propose_unsigned state_dir messages_dir :
  keeps only_prints (process_all_and_propose args state_dir messages_dir true).
Proof.
  unfold process_all_and_propose. destruct (derive_paths state_dir).
  do 6 (apply keeps_bind; [keeps|intros ?]). destruct (negb _); [keeps|].
  do 2 (apply keeps_bind; [keeps|intros ?]).
  apply keeps_bind; [keeps|intros [[version pk] current]].
  do 2 (apply keeps_bind; [keeps|intros ?]). sender.
  case_bool_decide as Ha; cbn [negb]; [subst|keeps].
  keeps; printing.
Qed.

Lemma vote_for_upgrade_unsigned vote wallet key_server_id network budget url :
  keeps only_prints (vote_for_upgrade vote wallet
    (mkUpgradeVoteContext key_server_id network budget url (cli_sender_address args) true)).
Proof.
  unfold vote_for_upgrade. cbn [uv_key_server_id uv_network uv_gas_budget uv_rpc_url
    uv_sender_address uv_unsigned]. sender. keeps; printing.
Qed.

Lemma authorize_and_upgrade_unsigned path key_server_id network url :
  keeps only_prints (authorize_and_upgrade args path key_server_id network url true).
Proof.
  unfold authorize_and_upgrade. apply keeps_bind; [keeps|intros wallet]. sender.
  keeps; printing.
Qed.

(** The commands that were given [--unsigned]. *)
Definition is_unsigned (command : Commands) : bool :=
  match command with
  | GenkeyAndRegister _ _ _ unsigned | ProcessAllAndPropose _ _ unsigned
  | ApproveUpgrade _ _ _ _ unsigned | RejectUpgrade _ _ _ unsigned
  | AuthorizeAndUpgrade _ _ _ _ unsigned => unsigned
  | _ => false
  end.

Lemma run_unsigned command :
  is_unsigned command = true → keeps only_prints (run state_debug args command).
Proof.
  destruct command; try done; intros Hu; simpl in Hu; subst; unfold run, with_output;
    apply keeps_bind; try (intros ?; keeps).
  - apply genkey_and_register_unsigned.
  - apply process_all_and_propose_unsigned.
  - unfold approve_upgrade, vote_command.
    apply keeps_bind; [keeps|intros ?]. apply vote_for_upgrade_unsigned.
  - unfold reject_upgrade, vote_command.
    apply keeps_bind; [keeps|intros ?]. apply vote_for_upgrade_unsigned.
  - apply authorize_and_upgrade_unsigned.
Qed.
End unsigned.

(** Signing a printed text executes what it encodes, or nothing. *)
Lemma sign_and_execute_printed args text tx s out s' :
  decode_unsigned_tx_bytes text = Ok tx →
  run state_debug args (SignAndExecute text) s = (out, s') →
  executed s' = executed s ∧ is_ok out = false ∨ executed s' = tx :: executed s.
Proof.
  intros Hd. unfold run, with_output, sign_and_execute. rewrite Hd.
  unfold mbind, st_bind, st_lift.
  destruct (load_wallet _ _) as [wallet|e|]; [|by intros [= <- <-]; left..].
  destruct (sign_secure _ _ _) as [signature|e|]; [|by intros [= <- <-]; left..].
  unfold execute_signed_txn_and_log, st_modify, mbind, st_bind.
  set (s1 := mkMachine _ _ _ (tx :: executed s) _).
  pose proof (on_env_step (execute_transaction_may_fail wallet tx signature) s1) as (He & _).
  destruct (on_env _ s1) as [[response|e|] s2]; simpl in He; [|by intros [= _ <-]; right..].
  destruct (et_failure response); by intros [= _ <-]; right.
Qed.

(** C28: A command that is given [--unsigned] hands no transaction to the
    chain, however it ends. Each text it prints is the transaction of the
    [--sender-address] that it was given, and [sign-and-execute], run with
    such a text on any machine and with any wallet, executes that very
    transaction or fails without executing any. *)
Theorem unsigned_never_executes (args : Cli) (command : Commands) (s s' : Machine)
    (out : outcome string CommandOutput) :
  is_unsigned command = true → run state_debug args command s = (out, s') →
  executed s' = executed s ∧
  ∃ texts, printed s' = texts ++ printed s ∧
    ∀ text, text ∈ texts → ∃ tx,
      decode_unsigned_tx_bytes text = Ok tx ∧ cli_sender_address args = Some (td_sender tx) ∧
      ∀ args2 s2 out2 s2', run state_debug args2 (SignAndExecute text) s2 = (out2, s2') →
        executed s2' = executed s2 ∧ is_ok out2 = false ∨ executed s2' = tx :: executed s2.
Proof.
  intros Hu Hr. destruct (keeps_inv _ _ _ _ _ (run_unsigned args command Hu) Hr)
    as [He (texts & Hp & HF)].
  split; [done|]. exists texts. split; [done|]. intros text Hin.
  rewrite Forall_forall in HF. destruct (HF _ Hin) as (tx & Hd & Hs). exists tx.
  split; [done|]. split; [done|]. intros args2 s2 out2 s2'. by apply sign_and_execute_printed.
Qed.

(** ** The outputs of a key generation *)
Section outputs.
  Context {fs_laws : FileSystemLaws} {yaml_laws : YamlLaws}.

Definition same_files (s s' : Machine) : Prop := files s' = files s.

#[local] Instance same_files_preorder : PreOrder same_files.
Proof. split; unfold same_files; congruence. Qed.

Lemma same_files_chain {A : Type} (m : M RpcError A) : keeps same_files (on_chain m).
Proof. intros s. apply on_chain_step. Qed.
Lemma same_files_env {A : Type} (f : Env → (A + string) * Env) : keeps same_files (on_env f).
Proof. intros s. apply on_env_step. Qed.
#[local] Hint Resolve same_files_chain same_files_env : keeps.

Lemma same_files_execute wallet tx : keeps same_files (sign_and_execute_txn_and_log wallet tx).
Proof.
  unfold sign_and_execute_txn_and_log, execute_signed_txn_and_log.
  apply keeps_bind; [keeps|intros signature]. apply keeps_bind; [by intros s|intros _]. keeps.
Qed.
#[local] Hint Resolve same_files_execute : keeps.

Lemma same_files_send unsigned wallet tx : keeps same_files (print_or_execute unsigned wallet tx).
Proof.
  unfold print_or_execute, print_unsigned_tx_bytes. destruct unsigned; [|keeps].
  apply keeps_bind; [keeps|by intros b s].
Qed.

Lemma same_files_gas client wallet address budget :
  keeps same_files (get_gas_params client wallet address budget).
Proof. unfold get_gas_params. keeps. Qed.

Lemma same_files_propose pkg client id current pk pks hash :
  keeps same_files (propose_calls pkg client id current pk pks hash).
Proof. unfold propose_calls, get_shared_committee_arg. keeps. Qed.
#[local] Hint Resolve same_files_send same_files_gas same_files_propose : keeps.

(** A step that only reads the files. *)
Lemma on_files_inv {A : Type} (m : FM A) s a s' :
  on_files m s = (Ok a, s') → m (files s) = (Ok a, files s').
Proof. unfold on_files. destruct (m (files s)) as [r f]. by intros [= -> <-]. Qed.

Lemma reads_only_get {A : Type} (f : Files → A + string) : keeps eq (fs_get f).
Proof. unfold fs_get. keeps. Qed.
#[local] Hint Resolve reads_only_get : keeps.

Lemma reads_only_config path : keeps eq (load_config path).
Proof. unfold load_config. keeps. Qed.
Lemma reads_only_state dir : keeps eq (state_load dir).
Proof. unfold state_load. keeps. Qed.
Lemma reads_only_keys path : keeps eq (keys_load path).
Proof. unfold keys_load. keeps. Qed.
Lemma reads_only_messages dir : keeps eq (load_messages_from_dir dir).
Proof.
  unfold load_messages_from_dir. apply keeps_bind; [keeps|intros entries].
  apply keeps_bind; [|intros messages; keeps].
  induction entries as [|entry entries IH]; cbn [load_entries]; [keeps|].
  apply keeps_bind; [keeps|intros path]. destruct (negb _); [done|]. unfold load_message. keeps.
Qed.

(** A command that only reads the files, in a run that succeeds. *)
Lemma on_files_read {A : Type} (m : FM A) s a s' :
  keeps eq m → on_files m s = (Ok a, s') → m (files s) = (Ok a, files s) ∧ files s' = files s.
Proof.
  intros Hm H%on_files_inv. pose proof (Hm (files s)) as Hf. rewrite H in Hf. simpl in Hf.
  by rewrite <-Hf in H.
Qed.

(** The outputs of one run, and the configuration before and after it. *)
Record persisted_outputs (path : string) (version : N) (old_pk : option (list byte))
    (output : Output) (w w' : Files) : Prop := {
  po_configs : ∃ c c' share,
    load_config path w = (Ok c, w) ∧ load_config path w' = (Ok c', w') ∧
    master_share_of output = Ok share ∧
    (** nothing is overwritten *)
    (∀ s k x, get_config_field c s k = Some x → get_config_field c' s k = Some x) ∧
    (** the outputs are added *)
    (∀ s k, get_config_field c' s k ≠ get_config_field c s k →
       s = PROCESS_SECTION ∧ k ∈ expected_process_output_fields version) ∧
    validate_process_outputs_added fields_debug c' version = Ok () ∧
    get_config_field c' PROCESS_SECTION (master_share_key version)
      = Some (yaml_string (hex_encode_with_format share)) ∧
    (if (version =? 0)%N
     then get_config_field c' PROCESS_SECTION "KEY_SERVER_PK"
            = Some (yaml_string (hex_encode_with_format (bcs_g2 (output_c0 output))))
     else old_pk = Some (bcs_g2 (output_c0 output)));
  po_other_files : ∀ p, p ≠ path → fs_read_to_string p w' = fs_read_to_string p w;
}.

Lemma process_outputs_inv st keys messages path version old_pk c s r s' :
  load_config path (files s) = (Ok c, files s) →
  validate_process_section fields_debug c version old_pk = Ok () →
  process_outputs st keys messages path version old_pk s = (Ok r, s') →
  ∃ output hash st' g, process_dkg_messages messages keys (st, rng s) = (Ok (output, hash), (st', g)) ∧
    persisted_outputs path version old_pk output (files s) (files s').
Proof.
  intros Hc Hv H. unfold process_outputs in H.
  apply st_bind_inv in H as ([output hash] & s1 & Hd & H).
  assert (files s1 = files s) as Hf.
  { pose proof (on_dkg_step st (process_dkg_messages messages keys) s) as (_ & _ & Hf).
    by rewrite Hd in Hf. }
  unfold on_dkg in Hd. destruct (process_dkg_messages _ _ _) as [o [st' g]] eqn:Hp.
  injection Hd as -> <-. exists output, hash, st', g. split; [done|]. cbn in Hf.
  apply st_bind_inv in H as (share & s2 & [Hshare ->]%st_lift_inv & H).
  apply st_bind_inv in H as (pks & s3 & [_ ->]%st_lift_inv & H).
  apply st_bind_inv in H as (text & s4 & [_ ->]%st_lift_inv & H).
  apply st_bind_inv in H as ([] & s5 & H1%on_files_inv & H). cbn [files] in H1.
  apply st_bind_inv in H as (c1 & s6 & H2%on_files_inv & H).
  apply st_bind_inv in H as ([] & s7 & [H3 ->]%st_lift_inv & [_ ->]%st_ret_inv).
  destruct (persist_process_outputs_spec _ _ _ _ _ _ _ _ _ _ Hc H1)
    as (c' & Hc' & Hsame & Hms & _ & Hpk & Hother).
  rewrite Hc' in H2. injection H2 as <- <-. split; [|done].
  exists c, c', share. split_and!; try done.
  - intros s0 k x Hx. rewrite Hsame; [done|]. intros -> Hin.
    by rewrite (validate_process_section_none _ _ _ _ Hv _ Hin) in Hx.
  - intros s0 k Hne. destruct (decide (s0 = PROCESS_SECTION ∧
      k ∈ expected_process_output_fields version)) as [|Hn]; [done|].
    destruct Hne. apply Hsame. naive_solver.
Qed.

(** C29: When [process-all-and-propose] succeeds, the configuration has
    gained the outputs of exactly this key generation and lost or changed
    nothing, whatever it held before: a key share of another version, or one
    that is already there, is never overwritten. The share that is stored is
    that of the outcome; a first key generation stores the new public key, a
    rotation only an outcome that has the public key that is on chain. *)
Theorem outputs_only_added (args : Cli) (state_dir : string) (messages_dir : option string)
    (unsigned : bool) (s s' : Machine) (u : unit) :
  process_all_and_propose args state_dir messages_dir unsigned s = (Ok u, s') →
  ∃ st st' keys messages g g' output hash client w w' version old_pk current,
    state_load state_dir (files s) = (Ok st, files s) ∧
    get_committee_rotation_info client (ic_committee_id (ds_config st)) w
      = (Ok (version, old_pk, current), w') ∧
    process_dkg_messages messages keys (st, g) = (Ok (output, hash), (st', g')) ∧
    persisted_outputs (derive_paths state_dir).1 version old_pk output (files s) (files s').
Proof.
  unfold process_all_and_propose. destruct (derive_paths state_dir) as [path keys_file]. simpl fst.
  intros H.
  apply st_bind_inv in H as (c & s1 & [Hc H1]%(on_files_read _ _ _ _ (reads_only_config _)) & H).
  do 4 apply st_bind_inv in H as (? & ? & [_ ->]%st_lift_inv & H).
  apply st_bind_inv in H as (st & s2 & [Hst H2]%(on_files_read _ _ _ _ (reads_only_state _)) & H).
  destruct (negb _); [by apply st_lift_inv in H as [? _]|].
  apply st_bind_inv in H as (keys & s3 & [_ H3]%(on_files_read _ _ _ _ (reads_only_keys _)) & H).
  apply st_bind_inv in H as (client & ? & [_ ->]%st_lift_inv & H).
  apply st_bind_inv in H as ([[version old_pk] current] & s4 & Hrotation & H).
  pose proof (keeps_inv _ _ _ _ _ (same_files_chain _) Hrotation) as H4.
  apply st_bind_inv in H as ([] & ? & [Hv ->]%st_lift_inv & H).
  do 2 apply st_bind_inv in H as (? & ? & [_ ->]%st_lift_inv & H).
  destruct (negb _); [by apply st_lift_inv in H as [? _]|].
  apply st_bind_inv in H as (messages & s5
    & [_ H5]%(on_files_read _ _ _ _ (reads_only_messages _)) & H).
  apply st_bind_inv in H as ([[pk pks] hash] & s6 & Hout & H).
  assert (same_files s6 s') as H6 by (eapply (keeps_inv same_files); [|exact H]; keeps).
  unfold same_files in *. rewrite H1 in Hst, H2. rewrite H2 in H3. rewrite H3 in H4.
  rewrite H4 in H5. rewrite <-H5 in Hc, Hst |- *. rewrite H6.
  destruct (process_outputs_inv _ _ _ _ _ _ _ _ _ _ Hc Hv Hout)
    as (output & hash' & st' & g & Hd & Hpo).
  unfold on_chain in Hrotation. destruct (get_committee_rotation_info _ _ (world s3)) as [r w'] eqn:Hr.
  destruct r as [[[v o] cur]| |]; try done. simpl in Hrotation. injection Hrotation as -> -> -> _.
  eauto 20.
Qed.
End outputs.
End cli_theory.

(** ** One committee of two *)
#[local] Existing Instances Toy.curve Toy.symmetric ToyChain.sui ToyCommon.profile
  ToyFiles.encodings ToyFiles.file_system ToyFiles.file_system_laws ToyFiles.yaml ToyFiles.yaml_laws
  ToyDkg.dkg ToyDkg.codecs ToyCli.node ToyCli.bcs ToyCli.cli ToyCli.keygen ToyCli.order.

#[local] Instance toy_laws : CliLaws ToyCli.CliTx.
Proof.
  split.
  - intros b. simpl. unfold bytes_of. by rewrite String.list_byte_of_string_of_list_byte.
  - intros tx b. unfold bcs_transaction, bcs_decode_transaction, ToyCli.cli.
    intros (c & Hc & [= <-])%bind_ok_inv. destruct (ToyCli.tx_code tx) eqn:Hcode; [|done].
    injection Hc as ->. unfold ToyDkg.bytes_parse, ToyDkg.bytes_print, bytes_of.
    rewrite String.string_of_list_byte_of_string, ToyFiles.parse_print. simpl. f_equal.
    by apply ToyCli.tx_of_code.
Qed.

(** A member votes against an upgrade from an offline key. *)
Lemma unsigned_never_executes_witness :
  let command := RejectUpgrade [Byte.x6b] CTestnet None true in
  let s' := (run ToyCli.no_debug ToyCli.args command ToyCli.before).2 in
  executed s' = [] ∧ length (printed s') = 1.
Proof.
  intros command s'.
  destruct (unsigned_never_executes ToyCli.no_debug ToyCli.args command ToyCli.before s'
    (run ToyCli.no_debug ToyCli.args command ToyCli.before).1 eq_refl) as [He _].
  - apply surjective_pairing.
  - split; [exact He|]. vm_compute. reflexivity.
Defined.

Module Processing.
Definition state : DkgState :=
  mkDkgState (mkInitializedConfig 0 ([(0%N, Byte.x03); (1%N, Byte.x05)] : Nodes) [Byte.x63] 2
                (list_to_map [(0%N, Byte.x04); (1%N, Byte.x06)] : gmap N G2Element)
                None None None None None)
    None ∅ [] None None.

Definition signed (id : N) (share sk : byte) : string :=
  match m ← sign_message [Byte.x63] ((id, share) : Message) (sk : Scalar) (() : DLNizk);
        bcs_signed_message m with
  | Ok b => String.string_of_list_byte b
  | _ => ""
  end.

Definition before : Machine :=
  ToyCli.machine {[
    "d/dkg.yaml" := ToyFiles.print ToyCli.config;
    "d/dkg.key" := ToyCli.text (json_keys_file ToyCli.keys);
    "d/state.json" := ToyCli.text (json_state state);
    "d/dkg-messages/0.json" := signed 0 Byte.x09 Byte.x04;
    "d/dkg-messages/1.json" := signed 1 Byte.x0b Byte.x06 ]}.
End Processing.

Lemma outputs_only_added_witness :
  let r := process_all_and_propose ToyCli.args "d" None false Processing.before in
  length (executed r.2) = 1 ∧
  ∃ version old_pk output, persisted_outputs "d/dkg.yaml" version old_pk output
    (files Processing.before) (files r.2).
Proof.
  intros r. split; [vm_compute; reflexivity|].
  assert (is_ok r.1 = true) as Hok by (vm_compute; reflexivity).
  destruct r as [[u|e|] s'] eqn:H; try discriminate Hok.
  destruct (outputs_only_added ToyCli.args "d" None false Processing.before s' u H)
    as (st & st' & keys & messages & g & g' & output & hash & client & w & w' & version & old_pk
        & current & _ & _ & _ & Hpo).
  exists version, old_pk, output. exact Hpo.
Defined.
