(* ===== verification/MemberProps.v ===== *)
(** * The state that a member saves for a key generation

    What [create-message] and [init-state] establish before they write
    [state.json] and the member's message: who takes part, with which keys,
    and, in a rotation, from which shares of the old committee. *)

From Stdlib Require Import NArith Lia.
From stdpp Require Import pretty.
From S2P Require Import Prelude Gf256 Primitives Ibe Common Chain Committee RpcClient Keeps Options.
From S2P Require Import CliConfig Dkg DkgProps CommitteeCli CliCommands CliProps.

(** Encodings that are read back, and signatures that verify. *)
Class MemberLaws `{DkgCodecs, Encodings} : Prop := {
  state_round_trip st j : json_state st = Ok j → json_decode_state j = Ok st;
  message_json_round_trip h j : json_of_message h = Ok j → json_message j = Ok (Some h);
  message_hex_round_trip b : hex_decode (hex_encode b) = Some b;
  signed_message_round_trip m b :
    bcs_signed_message m = Ok b → bcs_decode_signed_message b = Ok m;
  bls_sign_verifies sk m : bls_verify (g_mul g_generator sk) m (bls_sign sk m) = Ok ();
}.

Section member.
  Context {Tx : Type} {node : FullNode Tx} {sui : SuiTypes} {sym : Symmetric} {crv : Curve}
    {bcs : BcsTypes} {profile : BuildProfile} {dkg : DkgLib} {codecs : DkgCodecs}
    {fs : FileSystem} {yaml : Yaml} {encs : Encodings} {cli : CliLib Tx} {order : HashOrder}
    {fs_laws : FileSystemLaws} {yaml_laws : YamlLaws} {laws : MemberLaws}
    {order_laws : HashOrderLaws}.
  Context (state_debug : CommitteeState → string).

(** What a rotation takes over from the chain, asked from world [w] on: the
    old committee that the new one names, with its threshold and members, and
    the partial keys of its key server; [share] is the share of this member in
    it. *)
Definition rotation_of (client : GrpcClient) (w : World) (committee : SealCommittee)
    (my_address : Address) (my_party_id : N) (share : option Scalar) (old : option OldCommittee) :
    Prop :=
  match old with
  | None => sc_old_committee_id committee = None ∧ share = None
  | Some old =>
      ∃ old_id old_committee w1 key_server_id ks w2 infos,
        sc_old_committee_id committee = Some old_id ∧
        fetch_committee_data client old_id w = (Ok old_committee, w1) ∧
        fetch_key_server_by_committee client old_id w1 = (Ok (key_server_id, ks), w2) ∧
        to_partial_key_servers ks (sc_members old_committee) = Ok infos ∧
        oc_threshold old = sc_threshold old_committee ∧
        oc_new_to_old_mapping old = build_new_to_old_map committee old_committee ∧
        (∀ party pk, oc_expected_old_pks old !! party = Some pk ↔
           ∃ address info, sc_members old_committee !! N.to_nat party = Some address ∧
             infos !! address = Some info ∧ pki_party_id info = party ∧ pki_partial_pk info = pk) ∧
        (sc_threshold old_committee ≤ N.of_nat (size (oc_new_to_old_mapping old)))%N ∧
        Committee.contains old_committee my_address = bool_decide (is_Some share) ∧
        ∀ sh, share = Some sh →
          sc_members committee !! N.to_nat my_party_id = Some my_address →
          (N.of_nat (length (sc_members committee)) ≤ 65536)%N →
          (N.of_nat (length (sc_members old_committee)) ≤ 65536)%N →
          ∃ info, infos !! my_address = Some info ∧
            pki_partial_pk info = g_mul g_generator sh
  end.

(** A member of the committee of a key server is at its party id. *)
Lemma partial_infos_party ks members infos address info :
  to_partial_key_servers ks members = Ok infos → infos !! address = Some info →
  members !! N.to_nat (pki_party_id info) = Some address.
Proof.
  unfold to_partial_key_servers. destruct (ks_server_type ks) as [|? ? servers]; [done|].
  intros (entries & He & [= <-])%bind_ok_inv Hi%hashmap_collect_elem.
  apply list_elem_of_lookup in Hi as [k Hk]. apply try_map_inv in He.
  destruct (Forall2_lookup_r _ _ _ _ _ He Hk) as (server & _ & Hf).
  apply bind_ok_inv in Hf as (a & Ha & [= -> <-]). cbn [pki_party_id].
  destruct (members !! _); [by injection Ha as ->|done].
Qed.

Lemma expected_pks_spec ks members infos party pk :
  to_partial_key_servers ks members = Ok infos →
  hashmap_collect ((λ '(_, info), (pki_party_id info, pki_partial_pk info))
                     <$> hash_order (map_to_list (infos : gmap Address PartialKeyServerInfo)))
    !! party = Some pk ↔
  ∃ address info, members !! N.to_nat party = Some address ∧ infos !! address = Some info ∧
    pki_party_id info = party ∧ pki_partial_pk info = pk.
Proof.
  intros Hinfos. rewrite hashmap_collect_lookup.
  - rewrite list_elem_of_fmap. split.
    + intros ([a info] & [= -> ->] & Hin). rewrite hash_order_perm, elem_of_map_to_list in Hin.
      exists a, info. split_and!; [by eapply partial_infos_party|done..].
    + intros (a & info & _ & Hi & <- & <-). exists (a, info).
      by rewrite hash_order_perm, elem_of_map_to_list.
  - rewrite <-list_fmap_compose. apply NoDup_fmap_2_strong.
    + intros [a1 i1] [a2 i2]. rewrite !hash_order_perm, !elem_of_map_to_list. simpl. intros H1 H2 He.
      pose proof (partial_infos_party _ _ _ _ _ Hinfos H1) as M1.
      pose proof (partial_infos_party _ _ _ _ _ Hinfos H2) as M2.
      rewrite He, M2 in M1. injection M1 as ->. by rewrite H1 in H2; injection H2 as ->.
    + rewrite hash_order_perm. apply NoDup_map_to_list.
Qed.

(** The old party id of a new one is of the same member. *)
Lemma new_to_old_member new old i j :
  (N.of_nat (length (sc_members new)) ≤ 65536)%N →
  (N.of_nat (length (sc_members old)) ≤ 65536)%N →
  build_new_to_old_map new old !! i = Some j →
  ∃ address, sc_members new !! N.to_nat i = Some address ∧
             sc_members old !! N.to_nat j = Some address.
Proof.
  intros Hn Ho Hm. apply hashmap_collect_elem, list_elem_of_omap in Hm
    as ([k address] & Hk%elem_of_enumerate & Hp).
  unfold get_party_id in Hp. destruct (position address _) as [p|] eqn:Hpos; [|done].
  simpl in Hp. injection Hp as <- <-. exists address. apply position_Some in Hpos as [Hpos _].
  pose proof (lookup_lt_Some _ _ _ Hk). pose proof (lookup_lt_Some _ _ _ Hpos).
  rewrite !as_u16_small by lia. by rewrite !Nat2N.id.
Qed.

(** A request to the chain leaves the files alone. *)
Lemma on_chain_inv {A : Type} (m : M RpcError A) s a s' :
  on_chain m s = (Ok a, s') → m (world s) = (Ok a, world s') ∧ files s' = files s.
Proof. unfold on_chain. destruct (m (world s)) as [[] w]; [|done..]. by intros [= -> <-]. Qed.

Lemma on_files_world {A : Type} (m : FM A) s r s' : on_files m s = (r, s') → world s' = world s.
Proof. unfold on_files. destruct (m (files s)). by intros [= _ <-]. Qed.

Lemma check_old_share_inv address party_id pk old_id old_committee old :
  check_old_share address party_id pk old_id old_committee old = Ok () →
  Committee.contains old_committee address = bool_decide (is_Some pk) ∧
  ∀ k, pk = Some k → ∃ old_party_id,
    oc_new_to_old_mapping old !! party_id = Some old_party_id ∧
    oc_expected_old_pks old !! old_party_id = Some k.
Proof.
  unfold check_old_share. destruct pk as [k|].
  - destruct (Committee.contains _ _); [|done]. cbn [negb]. unfold index_map.
    intros (o & Ho & (k' & Hk & H)%bind_ok_inv)%bind_ok_inv.
    case_bool_decide; [|done]. subst. split; [by rewrite bool_decide_true|].
    intros ? [= <-]. exists o.
    destruct (oc_new_to_old_mapping old !! party_id); [|done]. injection Ho as ->.
    destruct (oc_expected_old_pks old !! o); [by injection Hk as ->|done].
  - destruct (Committee.contains _ _); [done|]. intros _. split; [|done].
    by rewrite bool_decide_false by (by intros [? ?]).
Qed.

Lemma old_committee_params_inv client committee address party_id share s old s' :
  old_committee_params client committee address party_id
    ((λ key_share, g_mul g_generator key_share) <$> share) s = (Ok old, s') →
  files s' = files s ∧ rotation_of client (world s) committee address party_id share old.
Proof.
  unfold old_committee_params. destruct (sc_old_committee_id committee) as [old_id|] eqn:Hid.
  2: { destruct share; simpl; [by intros [? _]%st_lift_inv|].
       intros [-> ->]%st_ret_inv. done. }
  intros (old_committee & s1 & [H1 F1]%on_chain_inv & H)%st_bind_inv. cbn zeta in H.
  destruct (_ <? _)%N eqn:Hlt; [by apply st_lift_inv in H as [? _]|]. apply N.ltb_ge in Hlt.
  apply st_bind_inv in H as ([ks_id ks] & s2 & [H2 F2]%on_chain_inv & H).
  apply st_bind_inv in H as (infos & ? & [Hinfos ->]%st_lift_inv & H).
  apply st_bind_inv in H as ([] & ? & [Hc%check_old_share_inv ->]%st_lift_inv & H).
  apply st_ret_inv in H as [-> ->]. split; [congruence|].
  destruct Hc as [Hcontains Hshare]. exists old_id, old_committee, (world s1), ks_id, ks, (world s2), infos.
  cbn [oc_threshold oc_new_to_old_mapping oc_expected_old_pks] in *.
  split_and!; try done.
  - intros party pk. by eapply expected_pks_spec.
  - rewrite Hcontains. apply bool_decide_ext. by rewrite fmap_is_Some.
  - intros sh -> Hmember Hln Hlo. destruct (Hshare _ eq_refl) as (old_party & Hmap & Hpk).
    apply (expected_pks_spec _ _ _ _ _ Hinfos) in Hpk as (a & info & Ha & Hi & _ & Hpk).
    destruct (new_to_old_member _ _ _ _ Hln Hlo Hmap) as (a' & Hn & Ho).
    rewrite Hmember in Hn. injection Hn as <-. rewrite Ha in Ho. injection Ho as ->. eauto.
Qed.

(** ** The message *)
Definition message_path (state_dir : string) (party_id : N) : string :=
  state_dir +:+ "/message_" +:+ pretty party_id +:+ ".json".

Lemma sign_message_verifies committee_id m sk nizk sm :
  sign_message committee_id m sk nizk = Ok sm →
  sm_message sm = m ∧ verify_signature committee_id sm (g_mul g_generator sk) = Ok ().
Proof.
  unfold sign_message, verify_signature. intros (b & Hb & [= <-])%bind_ok_inv.
  cbn [sm_message sm_nizk_proof sm_signature]. split; [done|].
  destruct (bcs_payload _); [|done..]. injection Hb as ->. apply bls_sign_verifies.
Qed.

Lemma create_my_message_inv state_dir keys committee_id committee party_id nodes share old s m s' :
  create_my_message state_dir keys committee_id committee party_id nodes share old s = (Ok m, s') →
  match m with
  | None => files s' = files s ∧ is_Some old ∧ share = None
  | Some m =>
      (is_Some old → is_Some share) ∧
      ∃ sm, load_message (message_path state_dir party_id) (files s') = (Ok sm, files s') ∧
        sm_message sm = m ∧
        verify_signature committee_id sm (g_mul g_generator (kf_signing_sk keys)) = Ok ()
  end.
Proof.
  unfold create_my_message. intros H.
  assert ((∃ o, old = Some o ∧ share = None ∧ (Ok m : outcome string _, s') = (Ok None, s)) ∨
    (is_Some old → is_Some share) ∧ ∃ (ns : Nodes) s0, (party ← on_rng_try (new_advanced (kf_enc_sk keys) ns
        (sc_threshold committee) (create_dkg_random_oracle committee_id) share (oc_threshold <$> old));
      message ← on_rng_try (create_message party);
      nizk_proof ← on_rng (nizk_pop_of_secret party);
      signed_message ← st_lift (sign_message committee_id message (kf_signing_sk keys) nizk_proof);
      bytes ← st_lift (bcs_signed_message signed_message);
      message_json ← st_lift (json_of_message (hex_encode bytes));
      _ ← on_files (fs_do (fs_write (message_path state_dir party_id) message_json));
      mret (Some message)) s0 = (Ok m, s')) as [(o & -> & -> & [= -> ->])|[Hos (ns & s0 & Hm)]].
  { destruct old as [o|], share as [sh|];
      [right|left; exists o; split_and!; [done..|by symmetry]|right|right];
      (split; [by eauto|]); apply st_bind_inv in H as (ns & s0 & _ & H); by exists ns, s0. }
  { eauto. }
  clear H.
  apply st_bind_inv in Hm as (party & s1 & _ & H).
  apply st_bind_inv in H as (message & s2 & _ & H).
  apply st_bind_inv in H as (nizk & s3 & _ & H).
  apply st_bind_inv in H as (sm & ? & [Hsm ->]%st_lift_inv & H).
  apply st_bind_inv in H as (b & ? & [Hb ->]%st_lift_inv & H).
  apply st_bind_inv in H as (j & ? & [Hj ->]%st_lift_inv & H).
  apply st_bind_inv in H as ([] & s4 & Hw & [-> ->]%st_ret_inv).
  split; [done|]. exists sm. apply sign_message_verifies in Hsm as [Hsm Hv].
  split; [|done]. unfold on_files, fs_do in Hw.
  destruct (fs_write _ _ _) as [[[]|] f] eqn:Hwrite; simpl in Hw; [|done]. injection Hw as <-.
  cbn [files]. unfold load_message, fs_get, st_map_err, mbind, st_bind, st_get, st_lift.
  rewrite (read_write _ _ _ _ Hwrite). simpl. rewrite (message_json_round_trip _ _ Hj). simpl.
  rewrite message_hex_round_trip. simpl. by rewrite (signed_message_round_trip _ _ Hb).
Qed.

Lemma state_save_inv st dir s u s' :
  on_files (state_save st dir) s = (Ok u, s') →
  state_load dir (files s') = (Ok st, files s') ∧
  ∀ p, p ≠ dir +:+ "/state.json" → fs_read_to_string p (files s') = fs_read_to_string p (files s).
Proof.
  intros H%on_files_inv. unfold state_save in H.
  apply st_bind_inv in H as ([] & w1 & H1 & H).
  apply st_bind_inv in H as (j & w2 & [Hj ->]%st_lift_inv & H2).
  unfold fs_do in H1, H2. destruct (fs_create_dir_all dir (files s)) as [r1 w1'] eqn:Hd.
  injection H1 as Hr1 ->. destruct (fs_write _ j w1) as [[[]|] w3] eqn:Hw; [|done].
  injection H2 as <- ->. split.
  - unfold state_load, fs_get, mbind, st_bind, st_get, st_lift. rewrite (read_write _ _ _ _ Hw).
    simpl. by rewrite (state_round_trip _ _ Hj).
  - intros p Hp. erewrite read_write_other, read_create_dir; [done|exact Hd|exact Hw|done].
Qed.

Lemma message_path_not_state dir id : message_path dir id ≠ dir +:+ "/state.json".
Proof.
  unfold message_path. induction dir as [|c dir IH]; simpl; [done|]. intros [= H]. by apply IH.
Qed.

(** ** Members *)
Lemma members_info_lookup committee infos a info :
  get_members_info state_debug committee = Ok infos →
  (N.of_nat (length (sc_members committee)) ≤ 65536)%N → infos !! a = Some info →
  sc_members committee !! N.to_nat (pmi_party_id info) = Some a.
Proof.
  unfold get_members_info. intros (l & _ & (entries & He & [= <-])%bind_ok_inv)%bind_ok_inv Hl Hi.
  apply hashmap_collect_elem, list_elem_of_lookup in Hi as [k Hk].
  apply try_map_inv in He. destruct (Forall2_lookup_r _ _ _ _ _ He Hk) as ([i x] & Hx & Hf).
  assert ((i, x) ∈ enumerate (sc_members committee)) as Hin by (by eapply list_elem_of_lookup_2).
  apply elem_of_enumerate in Hin. apply bind_ok_inv in Hf as (mi & _ & [= -> <-]).
  cbn [pmi_party_id]. pose proof (lookup_lt_Some _ _ _ Hin).
  rewrite as_u16_small by lia. by rewrite Nat2N.id.
Qed.

Lemma signing_pks_lookup committee infos a info :
  get_members_info state_debug committee = Ok infos →
  (N.of_nat (length (sc_members committee)) ≤ 65536)%N → infos !! a = Some info →
  hashmap_collect ((λ m, (pmi_party_id m, pmi_signing_pk m))
                     <$> (hash_order (map_to_list (infos : gmap Address ParsedMemberInfo))).*2)
    !! pmi_party_id info = Some (pmi_signing_pk info).
Proof.
  intros Hi Hl Ha. apply hashmap_collect_lookup.
  - rewrite <-!list_fmap_compose. apply NoDup_fmap_2_strong.
    + intros [a1 i1] [a2 i2]. rewrite !hash_order_perm, !elem_of_map_to_list. simpl. intros H1 H2 He.
      pose proof (members_info_lookup _ _ _ _ Hi Hl H1) as M1.
      pose proof (members_info_lookup _ _ _ _ Hi Hl H2) as M2.
      rewrite He, M2 in M1. injection M1 as ->. by rewrite H1 in H2; injection H2 as ->.
    + rewrite hash_order_perm. apply NoDup_map_to_list.
  - rewrite list_elem_of_fmap. exists info. split; [done|]. rewrite list_elem_of_fmap.
    exists (a, info). by rewrite hash_order_perm, elem_of_map_to_list.
Qed.

(** ** Properties *)

(** A state that was saved by the member of a committee that has [keys], and
    the message that goes with it; [chain] is the world after [committee] was
    fetched. *)
Record saved_member (state_dir : string) (client : GrpcClient) (chain : World)
    (committee : SealCommittee) (my_address : Address)
    (keys : KeysFile) (share : option Scalar) (old : option OldCommittee) (st : DkgState)
    (w : Files) : Prop := {
  sv_loads : state_load state_dir w = (Ok st, w);
  sv_empty : ds_processed_messages st = [] ∧ ds_output st = None;
  sv_member : sc_members committee !! N.to_nat (ic_my_party_id (ds_config st)) = Some my_address;
  sv_threshold : ic_threshold (ds_config st) = sc_threshold committee;
  sv_key : ic_signing_pks (ds_config st) !! ic_my_party_id (ds_config st)
             = Some (kf_signing_pk keys);
  sv_rotation : rotation_of client chain committee my_address (ic_my_party_id (ds_config st)) share old;
  sv_config : ic_old_threshold (ds_config st) = oc_threshold <$> old ∧
    ic_new_to_old_mapping (ds_config st) = oc_new_to_old_mapping <$> old ∧
    ic_expected_old_pks (ds_config st) = oc_expected_old_pks <$> old ∧
    ic_my_old_share (ds_config st) = share;
  sv_message :
    match ds_my_message st with
    | None => is_Some old ∧ share = None
    | Some m =>
        (is_Some old → is_Some share) ∧
        ∃ sm, load_message (message_path state_dir (ic_my_party_id (ds_config st))) w = (Ok sm, w) ∧
          sm_message sm = m ∧
          verify_signature (ic_committee_id (ds_config st)) sm (kf_signing_pk keys) = Ok ()
    end;
}.

(** C30: When [create-message] or [init-state] succeeds for the holder of a
    registered key, the state it saved can be loaded and is that of a member
    of the committee that the configuration names, as its full node answers
    it: of the member that the configuration names, under the party id that the
    committee's list gives it, and with its own key among those that messages
    are checked with. In a rotation, the parameters are those of the old
    committee that the new one names, and the expected partial keys exactly
    those of its key server, as the same full node answers them next: the
    threshold is within reach, and a member has a share if and only if it was
    in the old committee, where the share has the partial key that the chain
    gives to this member. Whoever has to contribute has a message on disk,
    which loads and passes the check of its signature. The lists of members
    are taken to be no longer than party ids can count, and the keys file to
    hold a pair. *)
Theorem created_state_complete (state_dir config keys_file : string) (share : option Scalar)
    (s s' : Machine) (u : unit) :
  create_dkg_state_and_message state_debug state_dir config keys_file share s = (Ok u, s') →
  ∃ content my_address committee_id network client keys committee w old st,
    load_config config (files s) = (Ok content, files s) ∧
    get_my_address content = Ok my_address ∧
    get_committee_id content = Ok committee_id ∧
    get_network str_to_lowercase content = Ok network ∧
    create_grpc_client_with_url network (get_node_url content) = Ok client ∧
    keys_load keys_file (files s) = (Ok keys, files s) ∧
    fetch_committee_data client committee_id (world s) = (Ok committee, w) ∧
    ic_committee_id (ds_config st) = committee_id ∧
    (kf_signing_pk keys = g_mul g_generator (kf_signing_sk keys) →
     (N.of_nat (length (sc_members committee)) ≤ 65536)%N →
     saved_member state_dir client w committee my_address keys share old st (files s')).
Proof.
  unfold create_dkg_state_and_message. intros H.
  apply st_bind_inv in H as (c & s1 & Hs1 & H). pose proof (on_files_world _ _ _ _ Hs1) as W1.
  apply (on_files_read _ _ _ _ (reads_only_config _)) in Hs1 as [Hconfig F1].
  apply st_bind_inv in H as (address & ? & [Haddress ->]%st_lift_inv & H).
  apply st_bind_inv in H as (committee_id & ? & [Hid ->]%st_lift_inv & H).
  apply st_bind_inv in H as (network & ? & [Hnetwork ->]%st_lift_inv & H).
  apply st_bind_inv in H as (keys & s2 & Hs2 & H). pose proof (on_files_world _ _ _ _ Hs2) as W2.
  apply (on_files_read _ _ _ _ (reads_only_keys _)) in Hs2 as [Hk F2].
  apply st_bind_inv in H as (client & ? & [Hclient ->]%st_lift_inv & H).
  apply st_bind_inv in H as (committee & s3 & [Hc F3]%on_chain_inv & H).
  destruct (negb _); [by apply st_lift_inv in H as [? _]|].
  apply st_bind_inv in H as (infos & ? & [Hinfos ->]%st_lift_inv & H).
  apply st_bind_inv in H as (info & ? & [Hinfo ->]%st_lift_inv & H). cbn zeta in H.
  destruct (negb _) eqn:Hkeys in H; [by apply st_lift_inv in H as [? _]|].
  apply negb_false_iff, andb_true_iff in Hkeys as [_ Hsk%bool_decide_eq_true_1].
  apply st_bind_inv in H as (old & s4 & [F4 Hold]%old_committee_params_inv & H).
  apply st_bind_inv in H as (m & s5 & Hm%create_my_message_inv & H).
  apply st_bind_inv in H as (ns & ? & [_ ->]%st_lift_inv & H).
  apply state_save_inv in H as [Hload Hother]. rewrite F1 in Hk. rewrite W2, W1 in Hc.
  exists c, address, committee_id, network, client, keys, committee, (world s3), old. eexists.
  do 7 (split; [done|]). split; [|intros Hpair Hlen; split; [exact Hload|split; done|..]; try done].
  - done.
  - cbn [ds_config ic_my_party_id]. destruct (infos !! address) eqn:Ha; [|done].
    injection Hinfo as ->. by eapply members_info_lookup.
  - cbn [ds_config ic_signing_pks ic_my_party_id]. rewrite Hsk.
    destruct (infos !! address) eqn:Ha; [|done]. injection Hinfo as ->.
    by eapply signing_pks_lookup.
  - cbn [ds_my_message ds_config ic_my_party_id ic_committee_id]. destruct m as [m|].
    + destruct Hm as (Hos & sm & Hl & Hsm & Hv). split; [done|]. exists sm.
      rewrite <-Hpair in Hv. split; [|done]. eapply load_message_same_file; [|exact Hl].
      symmetry. apply Hother, message_path_not_state.
    + by destruct Hm as (_ & ? & ?).
Qed.
End member.

(** ** The first member of a committee of two *)
#[local] Existing Instances Toy.curve Toy.symmetric ToyChain.sui ToyCommon.profile
  ToyFiles.encodings ToyFiles.file_system ToyFiles.file_system_laws ToyFiles.yaml ToyFiles.yaml_laws
  ToyDkg.dkg ToyDkg.codecs ToyCli.node ToyCli.bcs ToyCli.cli ToyCli.order.

#[local] Instance toy_order_laws : HashOrderLaws.
Proof. intros A l. symmetry. apply Permutation_rev. Qed.

#[local] Instance toy_member_laws : MemberLaws.
Proof.
  split.
  - intros [[] m r p c o] j Hj. injection Hj as <-. unfold json_decode_state, ToyDkg.codecs.
    by rewrite ToyFiles.parse_print.
  - by intros h j [= <-].
  - intros b. simpl. unfold bytes_of. by rewrite String.list_byte_of_string_of_list_byte.
  - intros [m sig []] b Hb. injection Hb as <-. unfold bcs_decode_signed_message, ToyDkg.codecs.
    unfold ToyDkg.bytes_parse, ToyDkg.bytes_print, bytes_of.
    by rewrite String.string_of_list_byte_of_string, ToyFiles.parse_print.
  - intros sk m. simpl. rewrite bool_decide_true; [done|].
    by rewrite gf_mul_1_l, (gf_mul_comm _ gf_one), gf_mul_1_l.
Qed.

(** The same two members in a rotation from their own committee, whose key
    server has the partial keys of the shares [x21] and [x22]. *)
Definition rotation_committee : SealCommittee :=
  mkSealCommittee (sc_id ToyCli.committee) 2 (sc_members ToyCli.committee)
    (sc_state ToyCli.committee) (Some (sc_id ToyCli.committee)).

Definition rotation_bcs : BcsTypes := {|
  decode_committee _ := Ok rotation_committee;
  decode_field_key_server _ := Ok (mkField [] 2%N (mkKeyServerV2 "ks" Byte.x00 []
    (CommitteeServer 0 2 [mkPartialKeyServer "a" "" (Byte.x21 : G2Element) 0;
                          mkPartialKeyServer "b" "" (Byte.x22 : G2Element) 1])));
  decode_field_wrapper := decode_field_wrapper (BcsTypes := ToyCli.bcs);
  decode_upgrade_manager_wrapper := decode_upgrade_manager_wrapper (BcsTypes := ToyCli.bcs);
  decode_upgrade_manager := decode_upgrade_manager (BcsTypes := ToyCli.bcs);
  encode_wrapper := encode_wrapper (BcsTypes := ToyCli.bcs);
  encode_upgrade_manager_key := encode_upgrade_manager_key (BcsTypes := ToyCli.bcs);
|}.

Lemma toy_keys_read keys :
  keys_load "d/dkg.key" (files ToyCli.before) = (Ok keys, files ToyCli.before) →
  keys = ToyCli.keys.
Proof.
  intros Hk. assert ((keys_load "d/dkg.key" (files ToyCli.before)).1 = Ok ToyCli.keys) as E
    by (vm_compute; reflexivity).
  rewrite Hk in E. cbn [fst] in E. by injection E as ->.
Qed.

Lemma created_state_complete_witness :
  (let r := create_dkg_state_and_message ToyCli.no_debug "d" "d/dkg.yaml" "d/dkg.key" None
              ToyCli.before in
   is_ok r.1 = true ∧ ∃ client w my_address old st,
     saved_member "d" client w ToyCli.committee my_address ToyCli.keys None old st (files r.2)) ∧
  (let r := create_dkg_state_and_message (bcs := rotation_bcs) ToyCli.no_debug "d" "d/dkg.yaml"
              "d/dkg.key" (Some Byte.x21) ToyCli.before in
   is_ok r.1 = true ∧ ∃ client w my_address old st,
     saved_member (bcs := rotation_bcs) "d" client w rotation_committee my_address ToyCli.keys
       (Some Byte.x21) old st (files r.2)).
Proof.
  split; intros r; (assert (is_ok r.1 = true) as Hok by (vm_compute; reflexivity));
    (split; [exact Hok|]); destruct r as [[u|e|] s'] eqn:H; try discriminate Hok.
  - destruct (created_state_complete ToyCli.no_debug "d" "d/dkg.yaml" "d/dkg.key" None
      ToyCli.before s' u H) as (content & my_address & id & network & client & keys & committee & w
        & old & st & _ & _ & _ & _ & _ & Hk & Hc & _ & Hs).
    apply toy_keys_read in Hk as ->.
    assert (committee = ToyCli.committee) as ->.
    { apply (f_equal fst) in Hc. unfold fetch_committee_data, fetch_object in Hc. simpl in Hc.
      injection Hc as <-. reflexivity. }
    exists client, w, my_address, old, st.
    apply Hs; [vm_compute; reflexivity|vm_compute; discriminate].
  - destruct (created_state_complete (bcs := rotation_bcs) ToyCli.no_debug "d" "d/dkg.yaml"
      "d/dkg.key" (Some Byte.x21) ToyCli.before s' u H) as (content & my_address & id & network
        & client & keys & committee & w & old & st & _ & _ & _ & _ & _ & Hk & Hc & _ & Hs).
    apply toy_keys_read in Hk as ->.
    assert (committee = rotation_committee) as ->.
    { apply (f_equal fst) in Hc. unfold fetch_committee_data, fetch_object in Hc. simpl in Hc.
      injection Hc as <-. reflexivity. }
    exists client, w, my_address, old, st.
    apply Hs; [vm_compute; reflexivity|vm_compute; discriminate].
Defined.
