(* ===== verification/MoveLib.v ===== *)
(** * The Move side: aborts, vectors and the framework ([move/])

    A Move function aborts or returns. An abort with a code of its module is
    [Err code]; an abort of the virtual machine or of the framework (an
    overflow, an index out of range, a missing field, an invalid group
    element) is [Panic]. A transaction that aborts has no effect. *)

From Stdlib Require Import NArith Lia.
From S2P Require Import Prelude Utils Primitives Common Chain.

Abbreviation move := (outcome N) (only parsing).

Definition move_assert (b : bool) (code : N) : outcome N unit := if b then Ok () else Err code.

(** A result of a fixed width, or an abort: [x as u16], [x + 1]. *)
Definition move_uint (width n : N) : outcome N N := if (n <? 2 ^ width)%N then Ok n else Panic.

(** [vector::find_index!] *)
Fixpoint find_index {A : Type} (f : A → bool) (l : list A) : option nat :=
  match l with
  | [] => None
  | x :: l => if f x then Some 0 else S <$> find_index f l
  end.

(** [sui::vec_map] and [sui::vec_set]: the entries in their order. *)
Section vec_map.
  Context {K V : Type} `{EqDecision K}.

Fixpoint vec_map_get (m : list (K * V)) (k : K) : option V :=
  match m with
  | [] => None
  | (k', v) :: m => if bool_decide (k' = k) then Some v else vec_map_get m k
  end.

Definition vec_map_contains (m : list (K * V)) (k : K) : bool := bool_decide (k ∈ m.*1).

Definition vec_map_insert (m : list (K * V)) (k : K) (v : V) : outcome N (list (K * V)) :=
  if vec_map_contains m k then Panic else Ok (m ++ [(k, v)]).

Fixpoint vec_map_delete (m : list (K * V)) (k : K) : list (K * V) :=
  match m with
  | [] => []
  | (k', v) :: m => if bool_decide (k' = k) then m else (k', v) :: vec_map_delete m k
  end.

Definition vec_map_remove (m : list (K * V)) (k : K) : outcome N (list (K * V)) :=
  if vec_map_contains m k then Ok (vec_map_delete m k) else Panic.

Definition vec_set_contains (s : list K) (k : K) : bool := bool_decide (k ∈ s).

Definition vec_set_insert (s : list K) (k : K) : outcome N (list K) :=
  if vec_set_contains s k then Panic else Ok (s ++ [k]).

Fixpoint vec_set_from_keys_in (s keys : list K) : outcome N (list K) :=
  match keys with
  | [] => Ok s
  | k :: keys => s ← vec_set_insert s k; vec_set_from_keys_in s keys
  end.
Definition vec_set_from_keys : list K → outcome N (list K) := vec_set_from_keys_in [].
End vec_map.

(** ** The framework

    [bls12381] and [package] of the Sui framework. *)
Class MoveFramework `{Curve} : Type := {
  g1_from_bytes : list byte → option G1Element;
  g2_from_bytes : list byte → option G2Element;
  (** the address of the n-th new object *)
  object_address : N → Address;
  (** [address::to_string] *)
  move_address_to_string : Address → string;
  (** the package that defines [SEAL_COMMITTEE] *)
  seal_committee_package : Address;
  MoveUpgradeCap : Type;
  UpgradeTicket : Type;
  UpgradeReceipt : Type;
  upgrade_package : MoveUpgradeCap → Address;
  cap_version : MoveUpgradeCap → N;
  cap_policy : MoveUpgradeCap → byte;
  cap_authorize : MoveUpgradeCap → byte → list byte → outcome N (UpgradeTicket * MoveUpgradeCap);
  cap_commit : MoveUpgradeCap → UpgradeReceipt → outcome N MoveUpgradeCap;
  ticket_digest : UpgradeTicket → list byte;
  (** the publication of the upgraded package, which takes the ticket *)
  publish_upgrade : UpgradeTicket → UpgradeReceipt;
}.

Class MoveFrameworkLaws `{MoveFramework} : Prop := {
  #[global] object_address_inj :: Inj (=) (=) object_address;
  cap_authorize_digest cap policy digest ticket cap' :
    cap_authorize cap policy digest = Ok (ticket, cap') → ticket_digest ticket = digest;
}.

Definition check_g1 `{MoveFramework} (b : list byte) : outcome N G1Element := expect (g1_from_bytes b).
Definition check_g2 `{MoveFramework} (b : list byte) : outcome N G2Element := expect (g2_from_bytes b).

(** Over the toy groups: the address of an object has its number as length,
    a cap is its package and version, and a ticket its digest. *)
Module ToyMove.
#[local] Existing Instance Toy.curve.

#[local] Instance framework : MoveFramework := {
  g1_from_bytes b := match Toy.from_bytes b with Ok g => Some g | _ => None end;
  g2_from_bytes b := match Toy.from_bytes (drop (length b - 32) b) with Ok g => Some g | _ => None end;
  object_address n := replicate (N.to_nat n) Byte.x01;
  move_address_to_string a := String.string_of_list_byte a;
  seal_committee_package := [Byte.x05];
  MoveUpgradeCap := Address * N;
  UpgradeTicket := list byte;
  UpgradeReceipt := unit;
  upgrade_package cap := cap.1;
  cap_version cap := cap.2;
  cap_policy _ := u8_zero;
  cap_authorize cap _ digest := Ok (digest, cap);
  cap_commit cap _ := Ok (cap.1, (cap.2 + 1)%N);
  ticket_digest ticket := ticket;
  publish_upgrade _ := ();
}.

#[local] Instance framework_laws : MoveFrameworkLaws.
Proof.
  split.
  - intros m n H. apply (f_equal length) in H. cbn in H. rewrite !length_replicate in H. lia.
  - by intros cap policy digest ticket cap' [= -> _].
Qed.
End ToyMove.

(** ** Lemmas *)
Lemma move_assert_inv b code u : move_assert b code = Ok u → b = true.
Proof. by destruct b. Qed.

Lemma move_assert_true b code : b = true → move_assert b code = Ok ().
Proof. by intros ->. Qed.

Lemma move_uint_inv w n m : move_uint w n = Ok m → m = n ∧ (n < 2 ^ w)%N.
Proof. unfold move_uint. case (N.ltb_spec n (2 ^ w)); [|done]. by intros ? [= ->]. Qed.

Lemma move_uint_ok w n : (n < 2 ^ w)%N → move_uint w n = Ok n.
Proof. intros. unfold move_uint. by rewrite (proj2 (N.ltb_lt _ _)). Qed.

Lemma expect_inv {E A : Type} (o : option A) (a : A) : expect (E := E) o = Ok a → o = Some a.
Proof. destruct o; [by intros [= ->]|done]. Qed.

(** Inverts every step of a function that returned. *)
Ltac move_inv :=
  repeat match goal with
  | H : (_ ≫= _) = Ok _ |- _ => apply bind_ok_inv in H as (? & ? & H)
  | H : move_assert _ _ = Ok ?u |- _ => destruct u; apply move_assert_inv in H
  | H : Ok _ = Ok _ |- _ => injection H as H
  | H : move_uint _ _ = Ok _ |- _ => apply move_uint_inv in H as [? H]; subst
  | H : bool_decide _ = true |- _ => apply bool_decide_eq_true_1 in H
  | H : Err _ = Ok _ |- _ => discriminate H
  | H : Panic = Ok _ |- _ => discriminate H
  end.

(** Runs a step whose result is known. *)
Lemma bind_Ok {E A B : Type} (a : A) (f : A → outcome E B) : (Ok a ≫= f) = f a.
Proof. done. Qed.

Lemma bind_assert {A : Type} b code (f : unit → outcome N A) :
  b = true → (move_assert b code ≫= f) = f ().
Proof. by intros ->. Qed.

Lemma bind_uint {A : Type} w n (f : N → outcome N A) :
  (n < 2 ^ w)%N → (move_uint w n ≫= f) = f n.
Proof. intros. by rewrite move_uint_ok. Qed.

Section vec_map_lemmas.
  Context {K V : Type} `{EqDecision K}.
  Implicit Types (m : list (K * V)) (s : list K).

Lemma vec_map_get_elem m k v : NoDup m.*1 → vec_map_get m k = Some v ↔ (k, v) ∈ m.
Proof.
  induction m as [|[k' v'] m IH]; csimpl; [set_solver|].
  intros [Hk Hnd]%NoDup_cons. rewrite elem_of_cons. case_bool_decide as Hkk.
  - subst. split; [intros [= ->]; by left|]. intros [[= ->]|Hin]; [done|].
    destruct Hk. apply list_elem_of_fmap. by exists (k, v).
  - rewrite IH by done. naive_solver.
Qed.

Lemma vec_map_get_is_Some m k : is_Some (vec_map_get m k) ↔ k ∈ m.*1.
Proof.
  induction m as [|[k' v'] m IH]; csimpl.
  - split; [by intros [? ?]|set_solver].
  - rewrite elem_of_cons. case_bool_decide; [naive_solver|]. rewrite IH. naive_solver.
Qed.

Lemma vec_map_insert_inv m k v m' :
  vec_map_insert m k v = Ok m' → k ∉ m.*1 ∧ m' = m ++ [(k, v)].
Proof.
  unfold vec_map_insert, vec_map_contains. case_bool_decide; [done|]. by intros [= <-].
Qed.

Lemma vec_map_insert_ok m k v : k ∉ m.*1 → vec_map_insert m k v = Ok (m ++ [(k, v)]).
Proof. intros. unfold vec_map_insert, vec_map_contains. by rewrite bool_decide_eq_false_2. Qed.

Lemma vec_map_delete_sublist m k : vec_map_delete m k `sublist_of` m.
Proof.
  induction m as [|[k' v'] m IH]; simpl; [constructor|].
  case_bool_decide; by constructor.
Qed.

Lemma vec_map_delete_NoDup m k : NoDup m.*1 → NoDup (vec_map_delete m k).*1.
Proof.
  intros Hnd. apply (sublist_NoDup _ _ Hnd), fmap_sublist, vec_map_delete_sublist.
Qed.

Lemma vec_map_delete_elem m k j v :
  NoDup m.*1 → (j, v) ∈ vec_map_delete m k ↔ j ≠ k ∧ (j, v) ∈ m.
Proof.
  induction m as [|[k' v'] m IH]; csimpl; [set_solver|]. intros [Hk Hnd]%NoDup_cons.
  assert (∀ x w, (x, w) ∈ m → x ∈ m.*1) as Hin by
    (intros x w ?; apply list_elem_of_fmap; by exists (x, w)).
  rewrite elem_of_cons. case_bool_decide as Hkk; [subst|rewrite elem_of_cons, IH by done];
    split; try naive_solver.
Qed.

Lemma vec_map_remove_ok m k : k ∈ m.*1 → vec_map_remove m k = Ok (vec_map_delete m k).
Proof. intros. unfold vec_map_remove, vec_map_contains. by rewrite bool_decide_eq_true_2. Qed.

Lemma vec_map_remove_inv m k m' : vec_map_remove m k = Ok m' → m' = vec_map_delete m k.
Proof. unfold vec_map_remove. by destruct (vec_map_contains m k); [intros [= <-]|]. Qed.

Lemma vec_set_insert_inv s k s' : vec_set_insert s k = Ok s' → k ∉ s ∧ s' = s ++ [k].
Proof.
  unfold vec_set_insert, vec_set_contains. case_bool_decide; [done|]. by intros [= <-].
Qed.

Lemma vec_set_insert_ok s k : k ∉ s → vec_set_insert s k = Ok (s ++ [k]).
Proof. intros. unfold vec_set_insert, vec_set_contains. by rewrite bool_decide_eq_false_2. Qed.

Lemma vec_set_from_keys_inv keys s : vec_set_from_keys keys = Ok s → NoDup keys ∧ s = keys.
Proof.
  unfold vec_set_from_keys.
  enough (∀ s0, NoDup s0 → vec_set_from_keys_in s0 keys = Ok s →
    NoDup (s0 ++ keys) ∧ s = s0 ++ keys) as E by (intros; by apply (E []); [constructor|]).
  induction keys as [|k keys IH]; intros s0 Hnd; simpl.
  - rewrite app_nil_r. by intros [= <-].
  - intros (s1 & [Hk ->]%vec_set_insert_inv & H)%bind_ok_inv.
    rewrite cons_middle, app_assoc. apply IH; [|done].
    apply NoDup_app. split_and!; [done|set_solver|apply NoDup_singleton].
Qed.
End vec_map_lemmas.
