(* ===== verification/MoveKeyServer.v ===== *)
(** * Key servers on chain ([move/seal/sources/key_server.move])

    The object of a key server, its versions, which are dynamic fields, and
    the functions that create and update them; what the Rust tools see of it
    is related to [Committee.KeyServerV2] at the end. *)

From Stdlib Require Import NArith Lia.
From S2P Require Import Prelude Utils Primitives Ibe Common Chain Committee MoveLib.

Module KS.
Definition KEY_TYPE_BONEH_FRANKLIN_BLS12381 : N := 0.
Definition EInvalidKeyType : N := 1.
Definition EInvalidVersion : N := 2.
Definition EInvalidServerType : N := 3.
Definition EInvalidThreshold : N := 4.
Definition EInvalidPartyId : N := 5.
Definition EDuplicateName : N := 6.

Definition V1 : N := 1.
Definition V2 : N := 2.

Record PartialKeyServer : Type := mkPartialKeyServer {
  pks_name : string;
  pks_url : string;
  pks_partial_pk : list byte;
  pks_party_id : N;
}.

Inductive ServerType : Type :=
  | Independent (url : string)
  | Committee (version threshold : N) (partial_key_servers : list PartialKeyServer).

Record KeyServerV1 : Type := mkKeyServerV1 {
  v1_name : string;
  v1_url : string;
  v1_key_type : N;
  v1_pk : list byte;
}.

Record KeyServerV2 : Type := mkKeyServerV2 {
  v2_name : string;
  v2_key_type : N;
  v2_pk : list byte;
  v2_server_type : ServerType;
}.

(** A dynamic field of a key server; the name of a field is a number. *)
Inductive VersionField : Type := FieldV1 (v1 : KeyServerV1) | FieldV2 (v2 : KeyServerV2).

Record KeyServer : Type := mkKeyServer {
  ks_id : Address;
  first_version : N;
  last_version : N;
  ks_fields : gmap N VersionField;
}.

Definition set_field (s : KeyServer) (name : N) (f : VersionField) : KeyServer :=
  mkKeyServer (ks_id s) (first_version s) (last_version s) (<[name := f]> (ks_fields s)).

(** [df::add], [df::borrow] (with its two types) and [df::exists_]. *)
Definition df_add (s : KeyServer) (name : N) (f : VersionField) : outcome N KeyServer :=
  if bool_decide (is_Some (ks_fields s !! name)) then Panic else Ok (set_field s name f).
Definition df_borrow_v1 (s : KeyServer) (name : N) : outcome N KeyServerV1 :=
  match ks_fields s !! name with Some (FieldV1 v1) => Ok v1 | _ => Panic end.
Definition df_borrow_v2 (s : KeyServer) (name : N) : outcome N KeyServerV2 :=
  match ks_fields s !! name with Some (FieldV2 v2) => Ok v2 | _ => Panic end.
Definition df_exists (s : KeyServer) (name : N) : bool :=
  bool_decide (is_Some (ks_fields s !! name)).

Definition has_v1 (s : KeyServer) : bool := df_exists s V1.
Definition has_v2 (s : KeyServer) : bool := df_exists s V2.

Definition v1 (s : KeyServer) : outcome N KeyServerV1 :=
  _ ← move_assert (has_v1 s) EInvalidVersion; df_borrow_v1 s V1.

Definition v2 (s : KeyServer) : outcome N KeyServerV2 :=
  _ ← move_assert (has_v2 s) EInvalidVersion;
  _ ← move_assert ((first_version s <=? V2)%N && (V2 <=? last_version s)%N) EInvalidVersion;
  df_borrow_v2 s V2.

Definition set_server_type (v2 : KeyServerV2) (t : ServerType) : KeyServerV2 :=
  mkKeyServerV2 (v2_name v2) (v2_key_type v2) (v2_pk v2) t.

Definition is_committee (t : ServerType) : bool :=
  match t with Committee _ _ _ => true | Independent _ => false end.

Definition assert_committee_server_v2 (s : KeyServer) : outcome N unit :=
  _ ← move_assert ((first_version s <=? V2)%N && (V2 <=? last_version s)%N) EInvalidVersion;
  _ ← move_assert (df_exists s V2) EInvalidVersion;
  v2 ← df_borrow_v2 s V2;
  move_assert (is_committee (v2_server_type v2)) EInvalidServerType.

(** The loop of [validate_partial_key_servers]; [i] and [names] are its variables. *)
Fixpoint validate_from (i : N) (names : list string) (l : list PartialKeyServer) :
    outcome N unit :=
  match l with
  | [] => Ok ()
  | p :: l =>
      _ ← move_assert (pks_party_id p =? i)%N EInvalidPartyId;
      _ ← move_assert (negb (vec_set_contains names (pks_name p))) EDuplicateName;
      names ← vec_set_insert names (pks_name p);
      i ← move_uint 16 (i + 1);
      validate_from i names l
  end.

Definition validate_partial_key_servers (threshold : N) (l : list PartialKeyServer) :
    outcome N unit :=
  _ ← move_assert (1 <? threshold)%N EInvalidThreshold;
  n ← move_uint 16 (N.of_nat (length l));
  _ ← move_assert (threshold <=? n)%N EInvalidThreshold;
  validate_from 0 [] l.

Section functions.
  Context {crv : Curve} {fw : MoveFramework}.

Definition create_partial_key_server (name url : string) (partial_pk : list byte) (party_id : N) :
    outcome N PartialKeyServer :=
  _ ← check_g2 partial_pk;
  Ok (mkPartialKeyServer name url partial_pk party_id).

(** [id] is the address that [object::new] takes from the context. *)
Definition create_committee_v2 (id : Address) (name : string) (threshold : N) (pk : list byte)
    (partial_key_servers : list PartialKeyServer) : outcome N KeyServer :=
  _ ← check_g2 pk;
  _ ← validate_partial_key_servers threshold partial_key_servers;
  df_add (mkKeyServer id V2 V2 ∅) V2
    (FieldV2 (mkKeyServerV2 name KEY_TYPE_BONEH_FRANKLIN_BLS12381 pk
       (Committee 0 threshold partial_key_servers))).

Definition create_v2_independent_server (id : Address) (name url : string) (key_type : N)
    (pk : list byte) : outcome N KeyServer :=
  _ ← move_assert (key_type =? KEY_TYPE_BONEH_FRANKLIN_BLS12381)%N EInvalidKeyType;
  _ ← check_g2 pk;
  df_add (mkKeyServer id V2 V2 ∅) V2 (FieldV2 (mkKeyServerV2 name key_type pk (Independent url))).

Definition upgrade_v1_to_independent_v2 (ks : KeyServer) : outcome N KeyServer :=
  _ ← move_assert (first_version ks =? V1)%N EInvalidVersion;
  _ ← move_assert (last_version ks =? V1)%N EInvalidVersion;
  _ ← move_assert (negb (has_v2 ks)) EInvalidVersion;
  v1 ← v1 ks;
  ks ← df_add ks V2 (FieldV2 (mkKeyServerV2 (v1_name v1) (v1_key_type v1) (v1_pk v1)
         (Independent (v1_url v1))));
  Ok (mkKeyServer (ks_id ks) (first_version ks) V2 (ks_fields ks)).

Definition update_partial_key_servers (s : KeyServer) (new_threshold : N)
    (new_partial_key_servers : list PartialKeyServer) : outcome N KeyServer :=
  _ ← validate_partial_key_servers new_threshold new_partial_key_servers;
  _ ← assert_committee_server_v2 s;
  v2 ← df_borrow_v2 s V2;
  match v2_server_type v2 with
  | Committee v _ _ =>
      v ← move_uint 32 (v + 1);
      Ok (set_field s V2 (FieldV2 (set_server_type v2
            (Committee v new_threshold new_partial_key_servers))))
  | Independent _ => Err EInvalidServerType
  end.

Definition set_url (p : PartialKeyServer) (url : string) : PartialKeyServer :=
  mkPartialKeyServer (pks_name p) url (pks_partial_pk p) (pks_party_id p).

Definition update_member_url (s : KeyServer) (url : string) (party_id : N) : outcome N KeyServer :=
  _ ← assert_committee_server_v2 s;
  v2 ← df_borrow_v2 s V2;
  match v2_server_type v2 with
  | Committee v threshold l =>
      n ← move_uint 16 (N.of_nat (length l));
      _ ← move_assert (party_id <? n)%N EInvalidPartyId;
      Ok (set_field s V2 (FieldV2 (set_server_type v2
            (Committee v threshold (alter (λ p, set_url p url) (N.to_nat party_id) l)))))
  | Independent _ => Err EInvalidServerType
  end.

Definition update (s : KeyServer) (new_url : string) : outcome N KeyServer :=
  s ← (if has_v2 s then
         v2 ← df_borrow_v2 s V2;
         match v2_server_type v2 with
         | Independent _ => Ok (set_field s V2 (FieldV2 (set_server_type v2 (Independent new_url))))
         | Committee _ _ _ => Err EInvalidServerType
         end
       else Ok s);
  if has_v1 s then
    v1 ← df_borrow_v1 s V1;
    Ok (set_field s V1 (FieldV1 (mkKeyServerV1 (v1_name v1) new_url (v1_key_type v1) (v1_pk v1))))
  else Ok s.

(** [get_field!] *)
Definition get_field {T : Type} (s : KeyServer) (v2_expr : KeyServerV2 → T) (v1_expr : KeyServerV1 → T) :
    outcome N T :=
  if has_v2 s then v2 ← v2 s; Ok (v2_expr v2)
  else if has_v1 s then v1 ← v1 s; Ok (v1_expr v1)
  else Err EInvalidVersion.

Definition name (s : KeyServer) : outcome N string := get_field s v2_name v1_name.
Definition key_type (s : KeyServer) : outcome N N := get_field s v2_key_type v1_key_type.
Definition pk (s : KeyServer) : outcome N (list byte) := get_field s v2_pk v1_pk.

Definition url (s : KeyServer) : outcome N string :=
  if has_v2 s then
    v2 ← v2 s;
    match v2_server_type v2 with
    | Independent url => Ok url
    | Committee _ _ _ => Err EInvalidServerType
    end
  else if has_v1 s then v1_url <$> v1 s
  else Err EInvalidVersion.

Definition pk_as_bf_bls12381 (s : KeyServer) : outcome N G2Element :=
  if has_v2 s then
    v2 ← v2 s;
    _ ← move_assert (v2_key_type v2 =? KEY_TYPE_BONEH_FRANKLIN_BLS12381)%N EInvalidKeyType;
    check_g2 (v2_pk v2)
  else if has_v1 s then
    v1 ← v1 s;
    _ ← move_assert (v1_key_type v1 =? KEY_TYPE_BONEH_FRANKLIN_BLS12381)%N EInvalidKeyType;
    check_g2 (v1_pk v1)
  else Err EInvalidVersion.
End functions.

(** ** Well-formed committee servers *)

(** What [validate_partial_key_servers] establishes. *)
Record servers_wf (threshold : N) (l : list PartialKeyServer) : Prop := {
  sw_threshold : (1 < threshold)%N;
  sw_enough : (threshold ≤ N.of_nat (length l))%N;
  sw_length : (N.of_nat (length l) < 2 ^ 16)%N;
  sw_party : ∀ i p, l !! i = Some p → pks_party_id p = N.of_nat i;
  sw_names : NoDup (pks_name <$> l);
}.

Lemma validate_from_ok i names l :
  NoDup names → (N.of_nat (i + length l) < 2 ^ 16)%N →
  validate_from (N.of_nat i) names l = Ok () ↔
  (∀ j p, l !! j = Some p → pks_party_id p = N.of_nat (i + j)) ∧ NoDup (names ++ (pks_name <$> l)).
Proof.
  revert i names. induction l as [|p l IH]; intros i names Hnd Hlen.
  { csimpl. rewrite app_nil_r. naive_solver. }
  simpl in Hlen. cbn [validate_from].
  destruct (N.eqb_spec (pks_party_id p) (N.of_nat i)) as [Hp|Hp]; cbn [move_assert].
  2: { split; [done|]. intros [Hparty _]. destruct Hp. rewrite (Hparty 0 p) by done. f_equal. lia. }
  rewrite bind_Ok. unfold vec_set_contains. case_bool_decide as Hin; cbn [negb move_assert].
  { split; [done|]. intros [_ [_ [Hd _]]%NoDup_app]. csimpl in Hd.
    destruct (Hd _ Hin). by left. }
  rewrite bind_Ok, vec_set_insert_ok by done. rewrite bind_Ok, move_uint_ok by lia.
  rewrite bind_Ok. replace (N.of_nat i + 1)%N with (N.of_nat (S i)) by lia.
  rewrite IH; [|by apply NoDup_app; split_and!; [|set_solver|apply NoDup_singleton]|lia].
  rewrite <-app_assoc. csimpl. split; intros [Hj Hn]; (split; [|done]).
  - intros [|j] q; simpl; [intros [= <-]; rewrite Hp; f_equal; lia|].
    intros Hq. rewrite (Hj _ _ Hq). f_equal. lia.
  - intros j q Hq. rewrite (Hj (S j) q) by done. f_equal. lia.
Qed.

Lemma validate_partial_key_servers_ok threshold l :
  validate_partial_key_servers threshold l = Ok () ↔ servers_wf threshold l.
Proof.
  unfold validate_partial_key_servers. split.
  - intros ([] & Ht%move_assert_inv%N.ltb_lt & (n & [-> Hl]%move_uint_inv &
      ([] & He%move_assert_inv%N.leb_le & H)%bind_ok_inv)%bind_ok_inv)%bind_ok_inv.
    apply (validate_from_ok 0) in H as [Hp Hn]; [|constructor|done]. by split.
  - intros [Ht He Hl Hp Hn]. rewrite bind_assert by (by apply N.ltb_lt).
    rewrite bind_uint, bind_assert by (done || by apply N.leb_le).
    apply (validate_from_ok 0); [constructor|done|]. split; [|done]. intros. by apply Hp.
Qed.
End KS.
