(* ===== verification/MoveCommittee.v ===== *)
(** * Committees on chain ([move/committee/sources/committee.move])

    The objects of the contract, its functions, and the chain as the contract
    changes it: each transaction calls one function and either takes effect
    or aborts. The ticket and the receipt of an upgrade, which one
    transaction passes from call to call, wait on the chain here, so that any
    calls can come between. *)

From Stdlib Require Import NArith Lia.
From S2P Require Import Prelude Utils Primitives Ibe Common Chain MoveLib MoveKeyServer.

Definition ENotMember : N := 0.
Definition EInvalidMembers : N := 1.
Definition EInvalidThreshold : N := 2.
Definition EInsufficientOldMembers : N := 3.
Definition EAlreadyRegistered : N := 4.
Definition ENotRegistered : N := 5.
Definition EAlreadyProposed : N := 6.
Definition EInvalidProposal : N := 7.
Definition EInvalidState : N := 8.
Definition ENameAlreadyTaken : N := 9.
Definition ENotAuthorized : N := 10.
Definition EInvalidPackageDigest : N := 11.
Definition ENoProposalForDigest : N := 12.
Definition ENotEnoughVotes : N := 13.
Definition EWrongVersion : N := 14.
Definition EWrongUpgradeCap : N := 15.

Module SC.
Record MemberInfo : Type := mkMemberInfo {
  enc_pk : list byte;
  signing_pk : list byte;
  url : string;
  name : string;
}.

Inductive State : Type :=
  | Init (members_info : list (Address * MemberInfo))
  | PostDKG (members_info : list (Address * MemberInfo)) (partial_pks : list (list byte))
      (pk messages_hash : list byte) (approvals : list Address)
  | Finalized.

Inductive Vote : Type := Approve | Reject.

#[export] Instance Vote_eq_dec : EqDecision Vote.
Proof. solve_decision. Defined.

Record UpgradeProposal : Type := mkUpgradeProposal {
  digest : list byte;
  version : N;
  votes : list (Address * Vote);
}.

Section types.
  Context {crv : Curve} {fw : MoveFramework}.

Record UpgradeManager : Type := mkUpgradeManager {
  um_id : Address;
  cap : MoveUpgradeCap;
  upgrade_proposal : option UpgradeProposal;
}.

(** An object in a dynamic object field of a committee. *)
Inductive Child : Type :=
  | ChildKeyServer (key_server : KS.KeyServer)
  | ChildUpgradeManager (upgrade_manager : UpgradeManager).

(** The name of a dynamic object field is an [ID], [Some], or
    [UpgradeManagerKey], [None]. *)
Record Committee : Type := mkCommittee {
  id : Address;
  threshold : N;
  members : list Address;
  state : State;
  old_committee_id : option Address;
  children : gmap (option Address) Child;
}.

Record Chain : Type := mkChain {
  ch_next : N; (** the number of objects that were created *)
  ch_committees : gmap Address Committee; (** the shared committees *)
  ch_events : list (Address * Address); (** [CommitteeRotationInitiated] *)
  ch_tickets : list UpgradeTicket;
  ch_receipts : list UpgradeReceipt;
}.
End types.

Section functions.
  Context {crv : Curve} {fw : MoveFramework}.

Definition set_state (c : Committee) (s : State) : Committee :=
  mkCommittee (id c) (threshold c) (members c) s (old_committee_id c) (children c).
Definition set_children (c : Committee) (ch : gmap (option Address) Child) : Committee :=
  mkCommittee (id c) (threshold c) (members c) (state c) (old_committee_id c) ch.

(** ** Dynamic object fields *)
Definition dof_add (c : Committee) (k : option Address) (o : Child) : outcome N Committee :=
  if bool_decide (is_Some (children c !! k)) then Panic
  else Ok (set_children c (<[k := o]> (children c))).

Definition dof_key_server (c : Committee) (k : option Address) : outcome N KS.KeyServer :=
  match children c !! k with Some (ChildKeyServer ks) => Ok ks | _ => Panic end.
Definition dof_upgrade_manager (c : Committee) (k : option Address) : outcome N UpgradeManager :=
  match children c !! k with Some (ChildUpgradeManager m) => Ok m | _ => Panic end.
Definition dof_remove (c : Committee) (k : option Address) : Committee :=
  set_children c (delete k (children c)).

(** Writes through the reference of [borrow_mut]. *)
Definition dof_put (c : Committee) (k : option Address) (o : Child) : Committee :=
  set_children c (<[k := o]> (children c)).

Definition borrow_upgrade_manager_mut (c : Committee) : outcome N UpgradeManager :=
  dof_upgrade_manager c None.

(** ** Creation *)
Definition is_finalized (c : Committee) : bool :=
  match state c with Finalized => true | _ => false end.

Definition is_member (c : Committee) (a : Address) : bool := bool_decide (a ∈ members c).

Definition init_internal (new_id : Address) (threshold : N) (members : list Address)
    (old_committee_id : option Address) : outcome N Committee :=
  _ ← move_assert (1 <? threshold)%N EInvalidThreshold;
  _ ← move_assert (N.of_nat (length members) <? 65535)%N EInvalidMembers;
  n ← move_uint 16 (N.of_nat (length members));
  _ ← move_assert (threshold <=? n)%N EInvalidThreshold;
  _ ← vec_set_from_keys members;
  Ok (mkCommittee new_id threshold members (Init []) old_committee_id ∅).

(** The type's address is that of the package that defines it. *)
Definition init_committee (new_id manager_id : Address) (cap : MoveUpgradeCap) (threshold : N)
    (members : list Address) : outcome N Committee :=
  _ ← move_assert (bool_decide (seal_committee_package = upgrade_package cap)) EWrongUpgradeCap;
  committee ← init_internal new_id threshold members None;
  dof_add committee None (ChildUpgradeManager (mkUpgradeManager manager_id cap None)).

(** The loop's counter has the type of the threshold it is compared to. *)
Fixpoint count_continuing (old : list Address) (members : list Address) (continuing : N) :
    outcome N N :=
  match members with
  | [] => Ok continuing
  | m :: members =>
      continuing ← (if bool_decide (m ∈ old) then move_uint 16 (continuing + 1) else Ok continuing);
      count_continuing old members continuing
  end.

Definition init_rotation (new_id : Address) (sender : Address) (old_committee : Committee)
    (threshold' : N) (members' : list Address) : outcome N (Committee * (Address * Address)) :=
  _ ← move_assert (is_finalized old_committee) EInvalidState;
  _ ← move_assert (is_member old_committee sender) ENotMember;
  continuing_members ← count_continuing (members old_committee) members' 0;
  _ ← move_assert (threshold old_committee <=? continuing_members)%N EInsufficientOldMembers;
  committee ← init_internal new_id threshold' members' (Some (id old_committee));
  Ok (committee, (id committee, id old_committee)).

(** ** Registration *)
Definition check_name (name : string) (members_info : list (Address * MemberInfo)) :
    outcome N unit :=
  try_for (λ '(_, info), move_assert (negb (bool_decide (SC.name info = name))) ENameAlreadyTaken)
    members_info.

Definition register (committee : Committee) (enc_pk signing_pk : list byte) (url name : string)
    (sender : Address) : outcome N Committee :=
  _ ← check_g1 enc_pk;
  _ ← check_g2 signing_pk;
  _ ← move_assert (is_member committee sender) ENotMember;
  match state committee with
  | Init members_info =>
      _ ← move_assert (negb (vec_map_contains members_info sender)) EAlreadyRegistered;
      _ ← check_name name members_info;
      members_info ← vec_map_insert members_info sender (mkMemberInfo enc_pk signing_pk url name);
      Ok (set_state committee (Init members_info))
  | _ => Err EInvalidState
  end.

(** ** Proposals of a key generation *)
Definition propose_internal (committee : Committee) (partial_pks : list (list byte))
    (pk messages_hash : list byte) (sender : Address) : outcome N Committee :=
  _ ← check_g2 pk;
  _ ← try_map check_g2 partial_pks;
  _ ← move_assert (is_member committee sender) ENotMember;
  _ ← move_assert (length partial_pks =? length (members committee)) EInvalidProposal;
  match state committee with
  | Init members_info =>
      _ ← move_assert (length members_info =? length (members committee)) ENotRegistered;
      Ok (set_state committee (PostDKG members_info partial_pks pk messages_hash [sender]))
  | PostDKG members_info existing_partial_pks existing_pk existing_messages_hash approvals =>
      _ ← move_assert (bool_decide (partial_pks = existing_partial_pks)) EInvalidProposal;
      _ ← move_assert (bool_decide (pk = existing_pk)) EInvalidProposal;
      _ ← move_assert (bool_decide (messages_hash = existing_messages_hash)) EInvalidProposal;
      _ ← move_assert (negb (vec_set_contains approvals sender)) EAlreadyProposed;
      approvals ← vec_set_insert approvals sender;
      Ok (set_state committee (PostDKG members_info existing_partial_pks existing_pk
                                 existing_messages_hash approvals))
  | Finalized => Err EInvalidState
  end.

(** The loop of [build_partial_key_servers] from index [i] on. *)
Fixpoint build_from (members_info : list (Address * MemberInfo)) (partial_pks : list (list byte))
    (i : nat) (members : list Address) : outcome N (list KS.PartialKeyServer) :=
  match members with
  | [] => Ok []
  | member :: members =>
      info ← expect (vec_map_get members_info member);
      partial_pk ← expect (partial_pks !! i);
      party_id ← move_uint 16 (N.of_nat i);
      p ← KS.create_partial_key_server (name info) (url info) partial_pk party_id;
      l ← build_from members_info partial_pks (S i) members;
      Ok (p :: l)
  end.

Definition build_partial_key_servers (committee : Committee)
    (members_info : list (Address * MemberInfo)) (partial_pks : list (list byte)) :
    outcome N (list KS.PartialKeyServer) :=
  _ ← move_assert (0 <? length (members committee)) EInvalidMembers;
  _ ← move_assert (length (members committee) =? length partial_pks) EInvalidMembers;
  _ ← move_assert (length (members committee) =? length members_info) EInvalidMembers;
  build_from members_info partial_pks 0 (members committee).

Definition try_finalize (new_id : Address) (committee : Committee) : outcome N Committee :=
  _ ← move_assert (bool_decide (old_committee_id committee = None)) EInvalidState;
  match state committee with
  | PostDKG members_info partial_pks pk _ approvals =>
      if negb (length approvals =? length (members committee)) then Ok committee
      else
        partial_key_servers ← build_partial_key_servers committee members_info partial_pks;
        ks ← KS.create_committee_v2 new_id (move_address_to_string (id committee))
               (threshold committee) pk partial_key_servers;
        committee ← dof_add committee (Some (id committee)) (ChildKeyServer ks);
        Ok (set_state committee Finalized)
  | _ => Err EInvalidState
  end.

Definition propose (new_id : Address) (committee : Committee) (partial_pks : list (list byte))
    (pk messages_hash : list byte) (sender : Address) : outcome N Committee :=
  _ ← move_assert (bool_decide (old_committee_id committee = None)) EInvalidState;
  committee ← propose_internal committee partial_pks pk messages_hash sender;
  try_finalize new_id committee.

Definition check_rotation_consistency (self old_committee : Committee) : outcome N unit :=
  _ ← move_assert (bool_decide (is_Some (old_committee_id self))) EInvalidState;
  _ ← move_assert (bool_decide (old_committee_id self = Some (id old_committee))) EInvalidState;
  move_assert (is_finalized old_committee) EInvalidState.

Definition drop_proposal (m : UpgradeManager) : UpgradeManager :=
  mkUpgradeManager (um_id m) (cap m) None.

(** The new committee, and the old one unless it was destroyed. *)
Definition try_finalize_for_rotation (committee old_committee : Committee)
    (key_server : KS.KeyServer) : outcome N (Committee * option Committee) :=
  _ ← check_rotation_consistency committee old_committee;
  match state committee with
  | PostDKG members_info partial_pks _ _ approvals =>
      if negb (length approvals =? length (members committee)) then
        old_committee ← dof_add old_committee (Some (id old_committee)) (ChildKeyServer key_server);
        Ok (committee, Some old_committee)
      else
        partial_key_servers ← build_partial_key_servers committee members_info partial_pks;
        key_server ← KS.update_partial_key_servers key_server (threshold committee)
                       partial_key_servers;
        committee ← dof_add committee (Some (id committee)) (ChildKeyServer key_server);
        upgrade_manager ← dof_upgrade_manager old_committee None;
        committee ← dof_add committee None (ChildUpgradeManager (drop_proposal upgrade_manager));
        Ok (set_state committee Finalized, None)
  | _ => Err EInvalidState
  end.

Definition propose_for_rotation (committee : Committee) (partial_pks : list (list byte))
    (messages_hash : list byte) (old_committee : Committee) (sender : Address) :
    outcome N (Committee * option Committee) :=
  _ ← check_rotation_consistency committee old_committee;
  let old_committee_id := id old_committee in
  key_server ← dof_key_server old_committee (Some old_committee_id);
  let old_committee := dof_remove old_committee (Some old_committee_id) in
  pk ← KS.pk key_server;
  committee ← propose_internal committee partial_pks pk messages_hash sender;
  try_finalize_for_rotation committee old_committee key_server.

Definition update_member_url (committee : Committee) (url : string) (sender : Address) :
    outcome N Committee :=
  _ ← move_assert (is_member committee sender) ENotMember;
  party_id ← expect (find_index (λ a, bool_decide (a = sender)) (members committee));
  party_id ← move_uint 16 (N.of_nat party_id);
  key_server ← dof_key_server committee (Some (id committee));
  key_server ← KS.update_member_url key_server url party_id;
  Ok (dof_put committee (Some (id committee)) (ChildKeyServer key_server)).

(** ** Upgrades *)
Definition package_digest (digest : list byte) : outcome N (list byte) :=
  _ ← move_assert (length digest =? 32) EInvalidPackageDigest; Ok digest.

Definition insert_vote (proposal : UpgradeProposal) (sender : Address) (vote : Vote) :
    outcome N UpgradeProposal :=
  votes' ← (if vec_map_contains (votes proposal) sender then vec_map_remove (votes proposal) sender
            else Ok (votes proposal));
  votes' ← vec_map_insert votes' sender vote;
  Ok (mkUpgradeProposal (digest proposal) (version proposal) votes').

Fixpoint count_votes_in (vote_type : Vote) (votes : list (Address * Vote)) (count : N) :
    outcome N N :=
  match votes with
  | [] => Ok count
  | (_, vote) :: votes =>
      count ← (if bool_decide (vote = vote_type) then move_uint 16 (count + 1) else Ok count);
      count_votes_in vote_type votes count
  end.
Definition count_votes (proposal : UpgradeProposal) (vote_type : Vote) : outcome N N :=
  count_votes_in vote_type (votes proposal) 0.

(** What the upgrade functions check first. *)
Definition check_authorized (committee : Committee) (sender : Address) : outcome N unit :=
  _ ← move_assert (is_member committee sender) ENotAuthorized;
  move_assert (is_finalized committee) EInvalidState.

Definition set_proposal (m : UpgradeManager) (p : option UpgradeProposal) : UpgradeManager :=
  mkUpgradeManager (um_id m) (cap m) p.

Definition put_manager (c : Committee) (m : UpgradeManager) : Committee :=
  dof_put c None (ChildUpgradeManager m).

Definition approve_digest_for_upgrade (committee : Committee) (digest' : list byte)
    (sender : Address) : outcome N Committee :=
  _ ← check_authorized committee sender;
  upgrade_manager ← borrow_upgrade_manager_mut committee;
  next_version ← move_uint 64 (cap_version (cap upgrade_manager) + 1);
  proposal ←
    match upgrade_proposal upgrade_manager with
    | None =>
        parsed_digest ← package_digest digest';
        Ok (mkUpgradeProposal parsed_digest next_version [])
    | Some proposal => Ok proposal
    end;
  parsed_digest ← package_digest digest';
  _ ← move_assert (bool_decide (digest proposal = parsed_digest)) ENoProposalForDigest;
  _ ← move_assert (version proposal =? next_version)%N EWrongVersion;
  proposal ← insert_vote proposal sender Approve;
  Ok (put_manager committee (set_proposal upgrade_manager (Some proposal))).

Definition reject_digest_for_upgrade (committee : Committee) (sender : Address) :
    outcome N Committee :=
  _ ← check_authorized committee sender;
  upgrade_manager ← borrow_upgrade_manager_mut committee;
  match upgrade_proposal upgrade_manager with
  | None => Err ENoProposalForDigest
  | Some proposal =>
      proposal ← insert_vote proposal sender Reject;
      Ok (put_manager committee (set_proposal upgrade_manager (Some proposal)))
  end.

Definition authorize_upgrade (committee : Committee) (sender : Address) :
    outcome N (UpgradeTicket * Committee) :=
  _ ← check_authorized committee sender;
  upgrade_manager ← borrow_upgrade_manager_mut committee;
  match upgrade_proposal upgrade_manager with
  | None => Err ENoProposalForDigest
  | Some proposal =>
      next_version ← move_uint 64 (cap_version (cap upgrade_manager) + 1);
      _ ← move_assert (version proposal =? next_version)%N EWrongVersion;
      approval_count ← count_votes proposal Approve;
      _ ← move_assert (threshold committee <=? approval_count)%N ENotEnoughVotes;
      let policy := cap_policy (cap upgrade_manager) in
      '(ticket, cap) ← cap_authorize (cap upgrade_manager) policy (digest proposal);
      Ok (ticket, put_manager committee (mkUpgradeManager (um_id upgrade_manager) cap None))
  end.

Definition commit_upgrade (committee : Committee) (receipt : UpgradeReceipt) (sender : Address) :
    outcome N Committee :=
  _ ← check_authorized committee sender;
  upgrade_manager ← borrow_upgrade_manager_mut committee;
  cap ← cap_commit (cap upgrade_manager) receipt;
  Ok (put_manager committee (mkUpgradeManager (um_id upgrade_manager) cap None)).

Definition reset_proposal (committee : Committee) (sender : Address) : outcome N Committee :=
  _ ← check_authorized committee sender;
  upgrade_manager ← borrow_upgrade_manager_mut committee;
  match upgrade_proposal upgrade_manager with
  | None => Err ENoProposalForDigest
  | Some proposal =>
      rejection_count ← count_votes proposal Reject;
      _ ← move_assert (threshold committee <=? rejection_count)%N ENotEnoughVotes;
      Ok (put_manager committee (set_proposal upgrade_manager None))
  end.

(** ** Transactions *)
Inductive Call : Type :=
  | InitCommittee (cap : MoveUpgradeCap) (threshold : N) (members : list Address)
  | InitRotation (old_committee : Address) (threshold : N) (members : list Address)
  | Register (committee : Address) (enc_pk signing_pk : list byte) (url name : string)
  | Propose (committee : Address) (partial_pks : list (list byte)) (pk messages_hash : list byte)
  | ProposeForRotation (committee : Address) (partial_pks : list (list byte))
      (messages_hash : list byte) (old_committee : Address)
  | UpdateMemberUrl (committee : Address) (url : string)
  | ApproveDigestForUpgrade (committee : Address) (digest : list byte)
  | RejectDigestForUpgrade (committee : Address)
  | AuthorizeUpgrade (committee : Address)
  | PublishUpgrade (ticket : nat)
  | CommitUpgrade (committee : Address) (receipt : nat)
  | ResetProposal (committee : Address).

(** Two objects are created at most; a number that is not used is skipped. *)
Definition put_committees (ch : Chain) (committees : gmap Address Committee) : Chain :=
  mkChain (2 + ch_next ch) committees (ch_events ch) (ch_tickets ch) (ch_receipts ch).
Definition put_committee (ch : Chain) (c : Committee) : Chain :=
  put_committees ch (<[id c := c]> (ch_committees ch)).

Definition shared (ch : Chain) (a : Address) : outcome N Committee := expect (ch_committees ch !! a).

(** A call that changes one committee. *)
Definition on_committee (ch : Chain) (a : Address) (f : Committee → outcome N Committee) :
    outcome N Chain :=
  c ← shared ch a; c ← f c; Ok (put_committee ch c).

Definition exec (ch : Chain) (sender : Address) (call : Call) : outcome N Chain :=
  let id1 := object_address (ch_next ch) in
  let id2 := object_address (1 + ch_next ch) in
  match call with
  | InitCommittee cap threshold members =>
      c ← init_committee id1 id2 cap threshold members; Ok (put_committee ch c)
  | InitRotation old threshold members =>
      old ← shared ch old;
      '(c, event) ← init_rotation id1 sender old threshold members;
      Ok (mkChain (2 + ch_next ch) (<[id c := c]> (ch_committees ch)) (event :: ch_events ch)
            (ch_tickets ch) (ch_receipts ch))
  | Register a enc_pk signing_pk url name =>
      on_committee ch a (λ c, register c enc_pk signing_pk url name sender)
  | Propose a partial_pks pk messages_hash =>
      on_committee ch a (λ c, propose id1 c partial_pks pk messages_hash sender)
  | ProposeForRotation a partial_pks messages_hash old =>
      if bool_decide (a = old) then Panic
      else
        c ← shared ch a;
        old_c ← shared ch old;
        '(c, old_c) ← propose_for_rotation c partial_pks messages_hash old_c sender;
        let committees := delete old (ch_committees ch) in
        let committees := match old_c with Some o => <[id o := o]> committees | None => committees end in
        Ok (put_committees ch (<[id c := c]> committees))
  | UpdateMemberUrl a url => on_committee ch a (λ c, update_member_url c url sender)
  | ApproveDigestForUpgrade a digest =>
      on_committee ch a (λ c, approve_digest_for_upgrade c digest sender)
  | RejectDigestForUpgrade a => on_committee ch a (λ c, reject_digest_for_upgrade c sender)
  | AuthorizeUpgrade a =>
      c ← shared ch a;
      '(ticket, c) ← authorize_upgrade c sender;
      Ok (mkChain (2 + ch_next ch) (<[id c := c]> (ch_committees ch)) (ch_events ch)
            (ticket :: ch_tickets ch) (ch_receipts ch))
  | PublishUpgrade i =>
      ticket ← expect (ch_tickets ch !! i);
      Ok (mkChain (2 + ch_next ch) (ch_committees ch) (ch_events ch) (delete i (ch_tickets ch))
            (publish_upgrade ticket :: ch_receipts ch))
  | CommitUpgrade a i =>
      receipt ← expect (ch_receipts ch !! i);
      c ← shared ch a;
      c ← commit_upgrade c receipt sender;
      Ok (mkChain (2 + ch_next ch) (<[id c := c]> (ch_committees ch)) (ch_events ch)
            (ch_tickets ch) (delete i (ch_receipts ch)))
  | ResetProposal a => on_committee ch a (λ c, reset_proposal c sender)
  end.

Definition genesis : Chain := mkChain 0 ∅ [] [] [].

(** The transactions that took effect, in their order, and the chain after
    them. *)
Inductive history : list (Address * Call) → Chain → Prop :=
  | history_nil : history [] genesis
  | history_snoc tr ch sender call ch' :
      history tr ch → exec ch sender call = Ok ch' → history (tr ++ [(sender, call)]) ch'.
End functions.
End SC.
