(* ===== verification/MoveCommitteeTheory.v ===== *)
(** * Invariants of the committee contract

    Well-formed committees, what each function of the contract does to a
    well-formed committee, and the invariant of the chain. *)

From Stdlib Require Import NArith Lia.
From S2P Require Import Prelude Utils Primitives Ibe Common Chain MoveLib MoveKeyServer MoveCommittee.

Import SC.

Section theory.
  Context {crv : Curve} {fw : MoveFramework}.

Definition valid_g1 (b : list byte) : Prop := is_Some (g1_from_bytes b).
Definition valid_g2 (b : list byte) : Prop := is_Some (g2_from_bytes b).

(** ** Well-formed committees *)
Record info_wf (members : list Address) (mi : list (Address * MemberInfo)) : Prop := {
  iw_keys : NoDup mi.*1;
  iw_members : ∀ a, a ∈ mi.*1 → a ∈ members;
  iw_names : NoDup ((λ e, name e.2) <$> mi);
  iw_valid : ∀ a info, (a, info) ∈ mi → valid_g1 (enc_pk info) ∧ valid_g2 (signing_pk info);
}.

Record proposal_wf (members : list Address) (mi : list (Address * MemberInfo))
    (partial_pks : list (list byte)) (pk : list byte) (approvals : list Address) : Prop := {
  pw_info : info_wf members mi;
  pw_registered : length mi = length members;
  pw_partial_pks : length partial_pks = length members;
  pw_valid : Forall valid_g2 partial_pks;
  pw_pk : valid_g2 pk;
  pw_approvals : NoDup approvals;
  pw_approvers : ∀ a, a ∈ approvals → a ∈ members;
}.

Definition state_wf (c : Committee) : Prop :=
  match state c with
  | Init mi => info_wf (members c) mi
  | PostDKG mi partial_pks pk _ approvals =>
      proposal_wf (members c) mi partial_pks pk approvals ∧ length approvals < length (members c)
  | Finalized => True
  end.

Record server_wf (c : Committee) (ks : KS.KeyServer) (v : N) (pk : list byte)
    (l : list KS.PartialKeyServer) : Prop := {
  sv_first : KS.first_version ks = KS.V2;
  sv_last : KS.last_version ks = KS.V2;
  sv_fields : ∃ n, KS.ks_fields ks = {[ KS.V2 := KS.FieldV2 (KS.mkKeyServerV2 n 0 pk
                     (KS.Committee v (threshold c) l)) ]};
  sv_pk : valid_g2 pk;
  sv_servers : KS.servers_wf (threshold c) l;
  sv_length : length l = length (members c);
  sv_valid : ∀ p, p ∈ l → valid_g2 (KS.pks_partial_pk p);
}.

Record manager_wf (c : Committee) (m : UpgradeManager) : Prop := {
  mw_votes p : upgrade_proposal m = Some p →
    is_finalized c = true ∧ NoDup (votes p).*1 ∧ ∀ a, a ∈ (votes p).*1 → a ∈ members c;
}.

Definition child_wf (c : Committee) (k : option Address) (o : Child) : Prop :=
  match o with
  | ChildKeyServer ks =>
      k = Some (id c) ∧ is_finalized c = true ∧ ∃ v pk l, server_wf c ks v pk l
  | ChildUpgradeManager m => k = None ∧ manager_wf c m
  end.

Record committee_wf (c : Committee) : Prop := {
  cw_members : NoDup (members c);
  cw_threshold : (1 < threshold c)%N;
  cw_enough : (threshold c ≤ N.of_nat (length (members c)))%N;
  cw_length : (N.of_nat (length (members c)) < 65535)%N;
  cw_state : state_wf c;
  cw_children k o : children c !! k = Some o → child_wf c k o;
  cw_server : is_finalized c = true → is_Some (children c !! Some (id c));
  cw_manager : is_finalized c = true ∨ old_committee_id c = None ↔ is_Some (children c !! None);
}.

(** A committee that keeps its parameters and its children. *)
Lemma committee_wf_set_state c s :
  committee_wf c → is_finalized c = false →
  state_wf (set_state c s) → s ≠ Finalized → committee_wf (set_state c s).
Proof.
  intros [Hm Ht He Hl _ Hch Hsv Hmg] Hf Hs Hne.
  assert (is_finalized (set_state c s) = false) as Hf' by (by destruct s).
  split; try done.
  - intros k o Hk. specialize (Hch k o Hk). destruct o as [ks|m]; simpl in *.
    + destruct Hch as (_ & Hfin & _). congruence.
    + destruct Hch as [-> [Hv]]. split; [done|]. split. intros p Hp.
      destruct (Hv p Hp) as [? _]. congruence.
  - congruence.
  - rewrite <-Hmg, Hf, Hf'. done.
Qed.

(** ** Creation *)
Lemma init_internal_wf new_id t ms old c :
  init_internal new_id t ms old = Ok c →
  c = mkCommittee new_id t ms (Init []) old ∅ ∧ NoDup ms ∧ (1 < t)%N ∧
  (t ≤ N.of_nat (length ms))%N ∧ (N.of_nat (length ms) < 65535)%N.
Proof.
  unfold init_internal. intros ([] & Ht%move_assert_inv%N.ltb_lt & ([] & Hl%move_assert_inv%N.ltb_lt &
    (n & [-> _]%move_uint_inv & ([] & He%move_assert_inv%N.leb_le & (s & [Hnd _]%vec_set_from_keys_inv
    & [= <-])%bind_ok_inv)%bind_ok_inv)%bind_ok_inv)%bind_ok_inv)%bind_ok_inv. done.
Qed.

Lemma info_wf_nil ms : info_wf ms [].
Proof. split; csimpl; [constructor|set_solver|constructor|set_solver]. Qed.

Lemma init_committee_wf new_id manager_id cap t ms c :
  init_committee new_id manager_id cap t ms = Ok c →
  committee_wf c ∧ id c = new_id ∧ state c = Init [] ∧ old_committee_id c = None ∧
  children c = {[ None := ChildUpgradeManager (mkUpgradeManager manager_id cap None) ]}.
Proof.
  intros ([] & _ & (c0 & (-> & Hnd & Ht & He & Hl)%init_internal_wf & H)%bind_ok_inv)%bind_ok_inv.
  unfold dof_add in H. cbn [children] in H. rewrite lookup_empty, bool_decide_eq_false_2 in H by
    (by intros [? ?]).
  injection H as <-. split_and!; try done. split; try done.
  - apply info_wf_nil.
  - intros k o Hk. cbn [set_children children] in Hk. apply lookup_singleton_Some in Hk as [<- <-].
    split; [done|]. by split.
  - split; [by eexists|by right].
Qed.

Lemma init_rotation_wf new_id sender old t ms c event :
  init_rotation new_id sender old t ms = Ok (c, event) →
  committee_wf c ∧ id c = new_id ∧ state c = Init [] ∧ old_committee_id c = Some (id old) ∧
  children c = ∅ ∧ is_finalized old = true.
Proof.
  intros ([] & Hf%move_assert_inv & ([] & _ & (n & _ & ([] & _ & (c0 & (-> & Hnd & Ht & He & Hl)%init_internal_wf
    & [= <- <-])%bind_ok_inv)%bind_ok_inv)%bind_ok_inv)%bind_ok_inv)%bind_ok_inv.
  split_and!; try done. split; try done.
  - apply info_wf_nil.
  - cbn. rewrite lookup_empty. split; [by intros [?|?]|by intros [? ?]].
Qed.

(** ** Registration *)
Lemma check_name_ok n mi :
  check_name n mi = Ok () ↔ n ∉ (λ e, name e.2) <$> mi.
Proof.
  unfold check_name. induction mi as [|[a info] mi IH]; csimpl; [set_solver|].
  rewrite not_elem_of_cons. case_bool_decide as Hn; cbn [negb move_assert].
  - naive_solver.
  - rewrite bind_Ok, IH. naive_solver.
Qed.

Lemma register_inv c e s u n sender c' :
  register c e s u n sender = Ok c' →
  ∃ mi, state c = Init mi ∧ sender ∈ members c ∧ sender ∉ mi.*1 ∧
    n ∉ (λ e, name e.2) <$> mi ∧ valid_g1 e ∧ valid_g2 s ∧
    c' = set_state c (Init (mi ++ [(sender, mkMemberInfo e s u n)])).
Proof.
  unfold register. intros (g1 & Hg1%expect_inv & (g2 & Hg2%expect_inv & ([] & Hm%move_assert_inv & H)
    %bind_ok_inv)%bind_ok_inv)%bind_ok_inv.
  apply bool_decide_eq_true_1 in Hm. destruct (state c) as [mi| |] eqn:Hs; try done.
  apply bind_ok_inv in H as ([] & _ & ([] & Hn%check_name_ok & (mi' & [Hk ->]%vec_map_insert_inv
    & [= <-])%bind_ok_inv)%bind_ok_inv).
  exists mi. split_and!; try done; by eexists.
Qed.

Lemma register_wf c e s u n sender c' :
  committee_wf c → register c e s u n sender = Ok c' → committee_wf c'.
Proof.
  intros Hwf (mi & Hs & Hm & Hk & Hn & Hg1 & Hg2 & ->)%register_inv.
  apply committee_wf_set_state; try done; [by unfold is_finalized; rewrite Hs|].
  pose proof (cw_state _ Hwf) as Hsw. unfold state_wf in *. rewrite Hs in Hsw.
  destruct Hsw as [Hkeys Hmem Hnames Hvalid]. cbn [state set_state]. split.
  - rewrite fmap_app. apply NoDup_app. split_and!; [done|set_solver|apply NoDup_singleton].
  - intros a. rewrite fmap_app. set_solver.
  - rewrite fmap_app. apply NoDup_app. split_and!; [done|set_solver|apply NoDup_singleton].
  - intros a info [?|[= -> ->]%list_elem_of_singleton]%elem_of_app; [by eapply Hvalid|done].
Qed.

(** ** Proposals *)
Lemma propose_internal_inv c pks pk h sender c' :
  propose_internal c pks pk h sender = Ok c' →
  ∃ mi approvals, c' = set_state c (PostDKG mi pks pk h approvals) ∧ sender ∈ members c ∧
    valid_g2 pk ∧ Forall valid_g2 pks ∧ length pks = length (members c) ∧
    ((state c = Init mi ∧ length mi = length (members c) ∧ approvals = [sender]) ∨
     (∃ approvals', state c = PostDKG mi pks pk h approvals' ∧ sender ∉ approvals' ∧
        approvals = approvals' ++ [sender])).
Proof.
  unfold propose_internal. intros (g & Hg%expect_inv & (gs & Hgs%try_map_inv & ([] & Hm%move_assert_inv &
    ([] & Hl%move_assert_inv%Nat.eqb_eq & H)%bind_ok_inv)%bind_ok_inv)%bind_ok_inv)%bind_ok_inv.
  apply bool_decide_eq_true_1 in Hm.
  assert (Forall valid_g2 pks) as Hv.
  { clear -Hgs. induction Hgs as [|b x ? ? Hb%expect_inv]; constructor; [by exists x|done]. }
  destruct (state c) as [mi|mi pks' pk' h' ap|] eqn:Hs; [..|done].
  - apply bind_ok_inv in H as ([] & Hr%move_assert_inv%Nat.eqb_eq & [= <-]).
    exists mi, [sender]. split_and!; try done; [by eexists|by left].
  - apply bind_ok_inv in H as ([] & ->%move_assert_inv%bool_decide_eq_true_1 & ([] &
      ->%move_assert_inv%bool_decide_eq_true_1 & ([] & ->%move_assert_inv%bool_decide_eq_true_1 & ([] & _ &
      (ap' & [Hin ->]%vec_set_insert_inv & [= <-])%bind_ok_inv)%bind_ok_inv)%bind_ok_inv)%bind_ok_inv).
    exists mi, (ap ++ [sender]). split_and!; try done; [by eexists|right; by exists ap].
Qed.

(** After a proposal the committee is well-formed, but all may have approved. *)
Lemma propose_internal_wf c pks pk h sender c' :
  committee_wf c → propose_internal c pks pk h sender = Ok c' →
  is_finalized c = false ∧ ∃ mi approvals, c' = set_state c (PostDKG mi pks pk h approvals) ∧
    proposal_wf (members c) mi pks pk approvals ∧
    (length approvals < length (members c) → committee_wf c').
Proof.
  intros Hwf (mi & ap & -> & Hm & Hpk & Hv & Hl & Hst)%propose_internal_inv.
  pose proof (cw_state _ Hwf) as Hsw. unfold state_wf in Hsw.
  assert (is_finalized c = false) as Hf.
  { unfold is_finalized. by destruct Hst as [(-> & _)|(? & -> & _)]. }
  assert (proposal_wf (members c) mi pks pk ap) as Hp.
  { destruct Hst as [(Hs & Hr & ->)|(ap' & Hs & Hin & ->)]; rewrite Hs in Hsw.
    - split; try done; [apply NoDup_singleton|by intros a ->%list_elem_of_singleton].
    - destruct Hsw as [[Hi Hr Hpl Hpv Hpg Ha Hap] _]. split; try done.
      + apply NoDup_app. split_and!; [done|set_solver|apply NoDup_singleton].
      + intros a [?| ->%list_elem_of_singleton]%elem_of_app; [by apply Hap|done]. }
  split; [done|]. exists mi, ap. split_and!; [done..|]. intros Hlt.
  by apply committee_wf_set_state.
Qed.

(** ** The partial key servers of a proposal *)
Record built (ms : list Address) (mi : list (Address * MemberInfo)) (pks : list (list byte))
    (l : list KS.PartialKeyServer) : Prop := {
  bt_length : length l = length ms;
  bt_entry i a : ms !! i = Some a → ∃ info partial_pk,
    (a, info) ∈ mi ∧ pks !! i = Some partial_pk ∧
    l !! i = Some (KS.mkPartialKeyServer (name info) (url info) partial_pk (N.of_nat i));
}.

Lemma build_from_ok mi pks ms i :
  NoDup mi.*1 → (∀ a, a ∈ ms → a ∈ mi.*1) → length pks = i + length ms → Forall valid_g2 pks →
  (N.of_nat (length pks) < 2 ^ 16)%N →
  ∃ l, build_from mi pks i ms = Ok l ∧ length l = length ms ∧
    ∀ j a, ms !! j = Some a → ∃ info partial_pk,
      (a, info) ∈ mi ∧ pks !! (i + j) = Some partial_pk ∧
      l !! j = Some (KS.mkPartialKeyServer (name info) (url info) partial_pk (N.of_nat (i + j))).
Proof.
  intros Hnd Hin Hl Hv Hb. revert i Hl Hin. induction ms as [|a ms IH]; intros i Hl Hin.
  { by exists []. }
  simpl in Hl. destruct (proj2 (vec_map_get_is_Some mi a)) as [info Hinfo]; [apply Hin; by left|].
  destruct (lookup_lt_is_Some_2 pks i) as [p Hp]; [lia|].
  assert (valid_g2 p) as [g Hg] by (by eapply Forall_lookup_1).
  destruct (IH (S i)) as (l & Hbuild & Hlen & Hl'); [lia|intros; apply Hin; by right|].
  exists (KS.mkPartialKeyServer (name info) (url info) p (N.of_nat i) :: l). split_and!.
  - cbn [build_from]. rewrite Hinfo. cbn [expect]. rewrite bind_Ok, Hp. cbn [expect].
    rewrite bind_Ok, bind_uint by lia. unfold KS.create_partial_key_server, check_g2.
    rewrite Hg. cbn [expect]. by rewrite !bind_Ok, Hbuild.
  - simpl. by rewrite Hlen.
  - intros [|j] b; simpl.
    + intros [= <-]. exists info, p. rewrite Nat.add_0_r. split_and!; [|done..].
      by apply vec_map_get_elem.
    + intros (info' & p' & H1 & H2 & H3)%Hl'. exists info', p'. rewrite <-Nat.add_succ_comm. done.
Qed.

(** Registered members are all the members. *)
Lemma info_wf_complete ms mi :
  NoDup ms → info_wf ms mi → length mi = length ms → ∀ a, a ∈ ms ↔ a ∈ mi.*1.
Proof.
  intros Hnd [Hk Hm _ _] Hl a. split; [|apply Hm]. intros Ha.
  assert (mi.*1 ≡ₚ ms) as ->; [|done]. apply submseteq_length_Permutation.
  - by apply NoDup_submseteq.
  - rewrite length_fmap. lia.
Qed.

Lemma build_partial_key_servers_ok c mi pks pk ap :
  committee_wf c → proposal_wf (members c) mi pks pk ap →
  ∃ l, build_partial_key_servers c mi pks = Ok l ∧ built (members c) mi pks l.
Proof.
  intros Hwf [Hi Hr Hp Hv _ _ _]. pose proof (cw_threshold _ Hwf). pose proof (cw_enough _ Hwf).
  pose proof (cw_length _ Hwf).
  destruct (build_from_ok mi pks (members c) 0) as (l & Hb & Hl & He); try done.
  - apply Hi.
  - intros a Ha. by apply (info_wf_complete (members c) mi); [apply Hwf|..].
  - rewrite Hp. change (2 ^ 16)%N with 65536%N. lia.
  - exists l. split; [|by split]. unfold build_partial_key_servers.
    rewrite !bind_assert; [done|apply Nat.eqb_eq; lia..|apply Nat.ltb_lt; lia].
Qed.

Lemma built_wf c mi pks pk ap l :
  committee_wf c → proposal_wf (members c) mi pks pk ap → built (members c) mi pks l →
  KS.servers_wf (threshold c) l ∧ ∀ p, p ∈ l → valid_g2 (KS.pks_partial_pk p).
Proof.
  intros Hwf [Hi Hr Hp Hv _ _ _] [Hl He].
  assert (∀ i p, l !! i = Some p → ∃ a info partial_pk, members c !! i = Some a ∧
    (a, info) ∈ mi ∧ pks !! i = Some partial_pk ∧
    p = KS.mkPartialKeyServer (name info) (url info) partial_pk (N.of_nat i)) as Hall.
  { intros i p Hip. destruct (lookup_lt_is_Some_2 (members c) i) as [a Ha].
    { rewrite <-Hl. by apply lookup_lt_Some in Hip. }
    destruct (He i a Ha) as (info & q & Hin & Hq & Hli). exists a, info, q.
    split_and!; [done..|]. congruence. }
  split.
  - pose proof (cw_length _ Hwf). split; [apply Hwf|rewrite Hl; apply Hwf|
      rewrite Hl; change (2 ^ 16)%N with 65536%N; lia|..].
    + intros i p (a & info & q & _ & _ & _ & ->)%Hall. done.
    + apply NoDup_alt. intros i j n Hn Hm.
      rewrite list_lookup_fmap in Hn, Hm. destruct (l !! i) as [p|] eqn:Hpi; [|done].
      destruct (l !! j) as [q|] eqn:Hqj; [|done].
      apply Hall in Hpi as (a & info & x & Ha & Hin & _ & ->).
      apply Hall in Hqj as (b & info' & y & Hb & Hin' & _ & ->). simpl in Hn, Hm.
      apply list_elem_of_lookup in Hin as [k Hk], Hin' as [k' Hk'].
      assert (k = k') as ->.
      { apply (NoDup_lookup _ k k' n (iw_names _ _ Hi)); by rewrite list_lookup_fmap, ?Hk, ?Hk'. }
      rewrite Hk in Hk'. injection Hk' as -> _.
      exact (NoDup_lookup _ _ _ _ (cw_members _ Hwf) Ha Hb).
  - intros p [i (a & info & q & _ & _ & Hq & ->)%Hall]%list_elem_of_lookup. simpl.
    by eapply Forall_lookup_1.
Qed.

(** ** Key servers of committees *)
Lemma server_pk c ks v pk l : server_wf c ks v pk l → KS.pk ks = Ok pk.
Proof.
  intros [Hf Hl [n Hfs] _ _ _ _]. unfold KS.pk, KS.get_field, KS.has_v2, KS.df_exists, KS.v2, KS.has_v2,
    KS.df_exists, KS.df_borrow_v2. by rewrite Hfs, lookup_singleton_eq, Hf, Hl.
Qed.

Lemma create_committee_v2_wf new_id n c pk l :
  valid_g2 pk → KS.servers_wf (threshold c) l → length l = length (members c) →
  (∀ p, p ∈ l → valid_g2 (KS.pks_partial_pk p)) →
  ∃ ks, KS.create_committee_v2 new_id n (threshold c) pk l = Ok ks ∧ KS.ks_id ks = new_id ∧
    server_wf c ks 0 pk l.
Proof.
  intros [g Hg] Hl Hlen Hv. unfold KS.create_committee_v2, check_g2. rewrite Hg. cbn [expect].
  rewrite bind_Ok, (proj2 (KS.validate_partial_key_servers_ok _ _) Hl), bind_Ok.
  unfold KS.df_add. cbn [KS.ks_fields]. rewrite lookup_empty, bool_decide_eq_false_2 by
    (by intros [? ?]).
  eexists. split_and!; [done|done|]. split; try done; [by eexists|by exists g].
Qed.

Lemma server_committee_v2 c ks v pk l n :
  KS.first_version ks = KS.V2 → KS.last_version ks = KS.V2 →
  KS.ks_fields ks = {[ KS.V2 := KS.FieldV2 (KS.mkKeyServerV2 n 0 pk (KS.Committee v (threshold c) l)) ]} →
  KS.assert_committee_server_v2 ks = Ok () ∧
  KS.df_borrow_v2 ks KS.V2 = Ok (KS.mkKeyServerV2 n 0 pk (KS.Committee v (threshold c) l)).
Proof.
  intros Hf Hl Hfs. unfold KS.assert_committee_server_v2, KS.df_borrow_v2, KS.df_exists.
  by rewrite Hfs, lookup_singleton_eq, Hf, Hl.
Qed.

(** A rotation, from the committee [old] to the committee [c]. *)
Lemma update_partial_key_servers_wf old c ks v pk l l' :
  server_wf old ks v pk l → KS.servers_wf (threshold c) l' → length l' = length (members c) →
  (∀ p, p ∈ l' → valid_g2 (KS.pks_partial_pk p)) →
  ∃ ks', KS.ks_id ks' = KS.ks_id ks ∧ server_wf c ks' (v + 1) pk l' ∧
    KS.update_partial_key_servers ks (threshold c) l' =
      (_ ← move_uint 32 (v + 1); Ok ks').
Proof.
  intros [Hf Hl [n Hfs] Hpk Hs Hlen Hv] Hs' Hlen' Hv'.
  destruct (server_committee_v2 old ks v pk l n Hf Hl Hfs) as [Ha Hb].
  eexists (KS.set_field ks KS.V2 _). split_and!; [done| |].
  2: { unfold KS.update_partial_key_servers.
       rewrite (proj2 (KS.validate_partial_key_servers_ok _ _) Hs'), bind_Ok, Ha, bind_Ok, Hb, bind_Ok.
       cbn [KS.v2_server_type]. unfold move_uint. by destruct (v + 1 <? 2 ^ 32)%N. }
  split; try done. exists n. cbn [KS.set_field KS.ks_fields KS.set_server_type]. rewrite Hfs.
  apply insert_singleton_eq.
Qed.

Definition with_url (url : string) (i : N) (l : list KS.PartialKeyServer) : list KS.PartialKeyServer :=
  alter (λ p, KS.set_url p url) (N.to_nat i) l.

Lemma with_url_names url i l : KS.pks_name <$> with_url url i l = KS.pks_name <$> l.
Proof.
  apply list_eq. intros j. unfold with_url. rewrite !list_lookup_fmap, list_lookup_alter.
  case_decide; [subst|done]. by destruct (l !! _).
Qed.

Lemma with_url_lookup url i l j p :
  with_url url i l !! j = Some p → ∃ q, l !! j = Some q ∧
    KS.pks_party_id p = KS.pks_party_id q ∧ KS.pks_partial_pk p = KS.pks_partial_pk q.
Proof.
  unfold with_url. rewrite list_lookup_alter. case_decide; [subst|by exists p].
  intros (q & Hq & ->)%fmap_Some. by exists q.
Qed.

Lemma with_url_wf t url i l : KS.servers_wf t l → KS.servers_wf t (with_url url i l).
Proof.
  intros [Ht He Hl Hp Hn]. split; [done|unfold with_url; by rewrite length_alter..| |].
  - intros j p (q & Hq & -> & _)%with_url_lookup. by apply Hp.
  - by rewrite with_url_names.
Qed.

Lemma update_member_url_wf c ks v pk l url i ks' :
  server_wf c ks v pk l → KS.update_member_url ks url i = Ok ks' →
  KS.ks_id ks' = KS.ks_id ks ∧ server_wf c ks' v pk (with_url url i l).
Proof.
  intros [Hf Hl [n Hfs] Hpk Hs Hlen Hv] H.
  destruct (server_committee_v2 c ks v pk l n Hf Hl Hfs) as [Ha Hb].
  unfold KS.update_member_url in H. rewrite Ha, bind_Ok, Hb, bind_Ok in H.
  cbn [KS.v2_server_type] in H. apply bind_ok_inv in H as (k & _ & ([] & _ & [= <-])%bind_ok_inv).
  split; [done|]. split; try done.
  - exists n. cbn [KS.set_field KS.ks_fields KS.set_server_type]. rewrite Hfs. apply insert_singleton_eq.
  - by apply with_url_wf.
  - unfold with_url. by rewrite length_alter.
  - intros p [j (q & Hq & _ & ->)%with_url_lookup]%list_elem_of_lookup.
    apply Hv. by eapply list_elem_of_lookup_2.
Qed.

(** ** Finalization *)
Definition proposal_of (c : Committee) : option UpgradeProposal :=
  match children c !! None with Some (ChildUpgradeManager m) => upgrade_proposal m | _ => None end.

Definition finalized (c : Committee) (ch : gmap (option Address) Child) : Committee :=
  set_state (set_children c ch) Finalized.

Lemma server_wf_ext c c' ks v pk l :
  threshold c' = threshold c → members c' = members c → server_wf c ks v pk l → server_wf c' ks v pk l.
Proof. intros Ht Hm []. split; rewrite ?Ht, ?Hm; done. Qed.

(** A committee with its key server and a manager without a proposal. *)
Lemma finalized_wf c ks m v pk l ch :
  committee_wf c → server_wf c ks v pk l → upgrade_proposal m = None →
  ch = {[ Some (id c) := ChildKeyServer ks; None := ChildUpgradeManager m ]} →
  committee_wf (finalized c ch).
Proof.
  intros Hwf Hsv Hm ->. destruct Hwf as [Hnd Ht He Hl _ _ _ _].
  split; try done; cbn [finalized set_state set_children children].
  - intros k o. rewrite lookup_insert_Some, lookup_singleton_Some.
    intros [[<- <-]|(_ & <- & <-)]; simpl.
    + split_and!; [done..|]. exists v, pk, l. by apply (server_wf_ext c).
    + split; [done|]. split. intros p. congruence.
  - intros _. cbn. by rewrite lookup_insert_eq.
  - split; [|by left]. intros _. rewrite lookup_insert_ne, lookup_singleton_eq by done. by eexists.
Qed.

Lemma build_after c mi pks pk ap s :
  committee_wf c → proposal_wf (members c) mi pks pk ap →
  ∃ l, build_partial_key_servers (set_state c s) mi pks = Ok l ∧ built (members c) mi pks l ∧
    KS.servers_wf (threshold c) l ∧ length l = length (members c) ∧
    ∀ p, p ∈ l → valid_g2 (KS.pks_partial_pk p).
Proof.
  intros Hwf Hp. destruct (build_partial_key_servers_ok c mi pks pk ap Hwf Hp) as (l & Hb & Hl).
  exists l. destruct (built_wf c mi pks pk ap l Hwf Hp Hl). split_and!; try done. apply Hl.
Qed.

(** An unfinished committee has no key server, and a manager only when it is
    the first. *)
Lemma unfinished_children c :
  committee_wf c → is_finalized c = false →
  children c !! Some (id c) = None ∧
  (old_committee_id c = None → ∃ m, upgrade_proposal m = None ∧
    children c = {[ None := ChildUpgradeManager m ]}) ∧
  (old_committee_id c ≠ None → children c = ∅).
Proof.
  intros Hwf Hf. assert (∀ a, children c !! Some a = None) as Hno.
  { intros a. destruct (children c !! Some a) as [o|] eqn:Ho; [|done].
    apply (cw_children _ Hwf) in Ho. destruct o; simpl in Ho; [|by destruct Ho].
    destruct Ho as (_ & ? & _). congruence. }
  split_and!; [done| |].
  - intros Hold. destruct (proj1 (cw_manager _ Hwf)) as [o Ho]; [by right|].
    pose proof (cw_children _ Hwf _ _ Ho) as Hch. destruct o as [|m]; [by destruct Hch as [? _]|].
    destruct Hch as [_ [Hv]]. exists m. split.
    + destruct (upgrade_proposal m) as [p|] eqn:Hp; [|done]. destruct (Hv p eq_refl). congruence.
    + apply map_eq. intros [a|]; [rewrite Hno, lookup_singleton_ne by done; done|].
      by rewrite lookup_singleton_eq.
  - intros Hold. apply map_eq. intros [a|]; [by rewrite Hno|]. rewrite lookup_empty.
    apply eq_None_not_Some. rewrite <-(cw_manager _ Hwf). intros [?|?]; congruence.
Qed.

Lemma try_finalize_full new_id c mi pks pk h ap :
  committee_wf c → is_finalized c = false → old_committee_id c = None →
  proposal_wf (members c) mi pks pk ap → length ap = length (members c) →
  ∃ l ks c', try_finalize new_id (set_state c (PostDKG mi pks pk h ap)) = Ok c' ∧
    built (members c) mi pks l ∧ KS.ks_id ks = new_id ∧ server_wf c' ks 0 pk l ∧
    c' = finalized c (<[Some (id c) := ChildKeyServer ks]> (children c)) ∧ proposal_of c' = None ∧ committee_wf c'.
Proof.
  intros Hwf Hf Hold Hp Hl. destruct (unfinished_children c Hwf Hf) as (Hnone & Hm & _).
  destruct (build_after c mi pks pk ap (PostDKG mi pks pk h ap) Hwf Hp) as (l & Hb & Hbt & Hsw & Hlen & Hv).
  destruct (create_committee_v2_wf new_id (move_address_to_string (id c)) c pk l) as (ks & Hks & Hid & Hsv);
    [apply Hp|done..|].
  eexists l, ks, _. split.
  { unfold try_finalize. cbn [old_committee_id set_state state]. rewrite bind_assert by
      (by apply bool_decide_eq_true_2). cbn [members set_state].
    rewrite (proj2 (Nat.eqb_eq _ _) Hl). cbn [negb]. rewrite Hb, bind_Ok. cbn [id threshold set_state].
    rewrite Hks, bind_Ok. unfold dof_add. cbn [children set_state].
    rewrite Hnone, bool_decide_eq_false_2 by (by intros [? ?]). rewrite bind_Ok. reflexivity. }
  destruct (Hm Hold) as (m & Hno & Hch). rewrite Hch.
  split_and!; try done; [by apply (server_wf_ext c)| |by apply (finalized_wf c ks m 0 pk l)].
  unfold proposal_of. cbn [finalized set_state set_children children].
  by rewrite lookup_insert_ne, lookup_singleton_eq.
Qed.

Lemma try_finalize_for_rotation_full c old old' ks v pk l0 mi pks h ap :
  committee_wf c → is_finalized c = false → old_committee_id c = Some (id old) →
  proposal_wf (members c) mi pks pk ap → length ap = length (members c) →
  committee_wf old → is_finalized old = true → server_wf old ks v pk l0 →
  old' = dof_remove old (Some (id old)) →
  ∃ l ks' c', try_finalize_for_rotation (set_state c (PostDKG mi pks pk h ap)) old' ks =
      (_ ← move_uint 32 (v + 1); Ok (c', None)) ∧
    built (members c) mi pks l ∧ KS.ks_id ks' = KS.ks_id ks ∧ server_wf c' ks' (v + 1) pk l ∧
    children c' !! Some (id c) = Some (ChildKeyServer ks') ∧
    (∃ ch, c' = finalized c ch) ∧ proposal_of c' = None ∧ committee_wf c'.
Proof.
  intros Hwf Hf Hold Hp Hl Hwo Hfo Hso ->. destruct (unfinished_children c Hwf Hf) as (_ & _ & He).
  destruct (build_after c mi pks pk ap (PostDKG mi pks pk h ap) Hwf Hp) as (l & Hb & Hbt & Hsw & Hlen & Hv).
  destruct (update_partial_key_servers_wf old c ks v pk l0 l) as (ks' & Hid & Hsv & Hup); try done.
  destruct (proj1 (cw_manager _ Hwo)) as [o Ho]; [by left|].
  pose proof (cw_children _ Hwo _ _ Ho) as Hch. destruct o as [|m]; [by destruct Hch as [? _]|].
  assert (children c = ∅) as Hemp by (apply He; by rewrite Hold).
  eexists l, ks', (finalized c (<[None := ChildUpgradeManager (drop_proposal m)]>
    (<[Some (id c) := ChildKeyServer ks']> ∅))). split.
  { unfold try_finalize_for_rotation, check_rotation_consistency.
    cbn [old_committee_id set_state state dof_remove set_children id].
    rewrite !bind_assert; [|done|by apply bool_decide_eq_true_2..].
    cbn [members set_state]. rewrite (proj2 (Nat.eqb_eq _ _) Hl). cbn [negb].
    rewrite Hb, bind_Ok. cbn [threshold set_state]. rewrite Hup. unfold move_uint.
    destruct (v + 1 <? 2 ^ 32)%N; [|done]. rewrite !bind_Ok.
    unfold dof_add, dof_upgrade_manager. cbn [children set_state set_children].
    rewrite Hemp, lookup_empty, bool_decide_eq_false_2 by (by intros [? ?]). rewrite bind_Ok.
    cbn [children set_children dof_remove]. rewrite lookup_delete_ne, Ho, bind_Ok by done.
    cbn [set_children children]. rewrite lookup_insert_ne, lookup_empty, bool_decide_eq_false_2 by
      (done || by intros [? ?]). rewrite bind_Ok. reflexivity. }
  split_and!; try done; [by apply (server_wf_ext c)|..].
  - cbn [finalized set_state set_children children]. by rewrite lookup_insert_ne, lookup_insert_eq.
  - by eexists.
  - unfold proposal_of. cbn [finalized set_state set_children children]. by rewrite lookup_insert_eq.
  - apply (finalized_wf c ks' (drop_proposal m) (v + 1) pk l); try done.
    by rewrite insert_insert_ne.
Qed.

(** ** Upgrades *)
Lemma insert_vote_inv p sender v p' :
  NoDup (votes p).*1 → insert_vote p sender v = Ok p' →
  digest p' = digest p ∧ version p' = version p ∧ NoDup (votes p').*1 ∧
  ∀ a w, (a, w) ∈ votes p' ↔ (a = sender ∧ w = v) ∨ (a ≠ sender ∧ (a, w) ∈ votes p).
Proof.
  intros Hnd H. unfold insert_vote in H.
  apply bind_ok_inv in H as (vs & Hvs & (vs' & [Hin ->]%vec_map_insert_inv & [= <-])%bind_ok_inv).
  assert (NoDup vs.*1 ∧ ∀ a w, (a, w) ∈ vs ↔ a ≠ sender ∧ (a, w) ∈ votes p) as [Hnd' Hel].
  { unfold vec_map_contains in Hvs. case_bool_decide as Hs.
    - apply vec_map_remove_inv in Hvs as ->. split; [by apply vec_map_delete_NoDup|].
      intros. by apply vec_map_delete_elem.
    - injection Hvs as <-. split; [done|]. intros a w. split; [|by intros [_ ?]].
      intros Hw. split; [|done]. intros ->. destruct Hs. apply list_elem_of_fmap.
      by exists (sender, w). }
  cbn [digest version votes]. split_and!; [done..| |].
  - rewrite fmap_app. apply NoDup_app. split_and!; [done| |apply NoDup_singleton].
    intros a Ha Ha'. apply list_elem_of_singleton in Ha' as ->. done.
  - intros a w. rewrite elem_of_app, list_elem_of_singleton, Hel. naive_solver.
Qed.

Lemma count_votes_in_inv t vs k n :
  count_votes_in t vs k = Ok n → n = (k + N.of_nat (length (filter (λ e, e.2 = t) vs)))%N.
Proof.
  revert k. induction vs as [|[a v] vs IH]; intros k; simpl; [intros [= <-]; lia|].
  intros (k' & Hk & H)%bind_ok_inv. apply IH in H as ->. rewrite filter_cons. cbn [snd].
  case_bool_decide as Hv.
  - apply move_uint_inv in Hk as [-> _]. rewrite decide_True by done. simpl. lia.
  - injection Hk as <-. by rewrite decide_False.
Qed.

Lemma put_manager_wf c m :
  committee_wf c → is_finalized c = true → manager_wf c m → committee_wf (put_manager c m).
Proof.
  intros [Hnd Ht He Hl Hs Hch Hsv Hmg] Hf Hm. split; try done; cbn [put_manager dof_put set_children children].
  - intros k o. rewrite lookup_insert_Some. intros [[<- <-]|[Hne Hk]]; [by split; destruct Hm|].
    specialize (Hch k o Hk). destruct o as [ks|m']; simpl in *.
    + destruct Hch as (? & ? & v & pk & l & Hks). split_and!; [done..|]. exists v, pk, l.
      by apply (server_wf_ext c).
    + destruct Hch as [-> _]; congruence.
  - intros _. rewrite lookup_insert_ne by done. by apply Hsv.
  - split; [|by left]. intros _. rewrite lookup_insert_eq. by eexists.
Qed.

(** What an upgrade function reads. *)
Lemma borrow_manager c sender m :
  committee_wf c → check_authorized c sender = Ok () → borrow_upgrade_manager_mut c = Ok m →
  is_finalized c = true ∧ sender ∈ members c ∧ manager_wf c m ∧
  children c !! None = Some (ChildUpgradeManager m).
Proof.
  intros Hwf ([] & Hm%move_assert_inv%bool_decide_eq_true_1 & Hf%move_assert_inv)%bind_ok_inv Hb.
  unfold borrow_upgrade_manager_mut, dof_upgrade_manager in Hb.
  destruct (children c !! None) as [[|m']|] eqn:Hc; [done| |done]. injection Hb as ->.
  split_and!; [done..| |done]. by apply (cw_children _ Hwf) in Hc as [_ ?].
Qed.

Lemma no_proposal_wf c m : upgrade_proposal m = None → manager_wf c m.
Proof. intros Hm. split. intros p. congruence. Qed.

Lemma voted_wf c m p p' sender v :
  is_finalized c = true → sender ∈ members c →
  (NoDup (votes p).*1 ∧ ∀ a, a ∈ (votes p).*1 → a ∈ members c) →
  insert_vote p sender v = Ok p' → manager_wf c (set_proposal m (Some p')).
Proof.
  intros Hf Hs [Hnd Hin] H. apply insert_vote_inv in H as (_ & _ & Hnd' & Hel); [|done].
  split. intros q [= <-]. split_and!; [done..|]. intros a [[b w] [-> Hb]]%list_elem_of_fmap.
  apply Hel in Hb as [[-> _]|[_ Hb]]; [done|]. apply Hin, list_elem_of_fmap. by exists (b, w).
Qed.

(** The calls on the upgrade manager: the committee keeps all but the manager. *)
Definition manager_changed (c c' : Committee) : Prop :=
  ∃ m, is_finalized c = true ∧ manager_wf c m ∧ c' = put_manager c m.

Lemma manager_changed_wf c c' : committee_wf c → manager_changed c c' → committee_wf c'.
Proof. intros Hwf (m & Hf & Hm & ->). by apply put_manager_wf. Qed.

Lemma approve_inv c d sender c' :
  committee_wf c → approve_digest_for_upgrade c d sender = Ok c' →
  sender ∈ members c ∧ is_finalized c = true ∧ ∃ m p p',
    children c !! None = Some (ChildUpgradeManager m) ∧
    (upgrade_proposal m = Some p ∨ upgrade_proposal m = None ∧ votes p = []) ∧
    digest p = d ∧ insert_vote p sender Approve = Ok p' ∧ digest p' = d ∧
    manager_wf c (set_proposal m (Some p')) ∧ c' = put_manager c (set_proposal m (Some p')).
Proof.
  intros Hwf ([] & Hau & (m & Hm & (nv & _ & (p & Hp & (d' & Hd & ([] & Hdd%move_assert_inv%bool_decide_eq_true_1
    & ([] & _ & (p' & Hp' & [= <-])%bind_ok_inv)%bind_ok_inv)%bind_ok_inv)%bind_ok_inv)%bind_ok_inv)%bind_ok_inv)%bind_ok_inv)%bind_ok_inv.
  destruct (borrow_manager c sender m Hwf Hau Hm) as (Hf & Hs & [Hv] & Hch).
  apply bind_ok_inv in Hd as ([] & _ & [= <-]).
  assert ((upgrade_proposal m = Some p ∨ upgrade_proposal m = None ∧ votes p = []) ∧
    NoDup (votes p).*1 ∧ ∀ a, a ∈ (votes p).*1 → a ∈ members c) as [Hor Hpv].
  { destruct (upgrade_proposal m) as [q|] eqn:Hq.
    - injection Hp as ->. split; [by left|]. by destruct (Hv p eq_refl).
    - apply bind_ok_inv in Hp as (x & _ & [= <-]). split; [by right|]. cbn. split; [constructor|].
      set_solver. }
  split_and!; [done..|]. exists m, p, p'. split_and!; try done.
  - by destruct (insert_vote_inv p sender Approve p' (proj1 Hpv) Hp') as (-> & _).
  - by eapply voted_wf.
Qed.

Lemma reject_inv c sender c' :
  committee_wf c → reject_digest_for_upgrade c sender = Ok c' →
  sender ∈ members c ∧ is_finalized c = true ∧ ∃ m p p',
    children c !! None = Some (ChildUpgradeManager m) ∧ upgrade_proposal m = Some p ∧
    insert_vote p sender Reject = Ok p' ∧ manager_wf c (set_proposal m (Some p')) ∧
    c' = put_manager c (set_proposal m (Some p')).
Proof.
  intros Hwf ([] & Hau & (m & Hm & H)%bind_ok_inv)%bind_ok_inv.
  destruct (borrow_manager c sender m Hwf Hau Hm) as (Hf & Hs & [Hv] & Hch).
  destruct (upgrade_proposal m) as [p|] eqn:Hp; [|done].
  apply bind_ok_inv in H as (p' & Hp' & [= <-]). split_and!; [done..|]. exists m, p, p'.
  split_and!; try done. eapply voted_wf; [done..| |done]. by destruct (Hv p eq_refl).
Qed.

Lemma authorize_inv c sender ticket c' :
  committee_wf c → authorize_upgrade c sender = Ok (ticket, c') →
  sender ∈ members c ∧ is_finalized c = true ∧ ∃ m p cap',
    children c !! None = Some (ChildUpgradeManager m) ∧ upgrade_proposal m = Some p ∧
    (threshold c ≤ N.of_nat (length (filter (λ e, e.2 = Approve) (votes p))))%N ∧
    cap_authorize (cap m) (cap_policy (cap m)) (digest p) = Ok (ticket, cap') ∧
    c' = put_manager c (mkUpgradeManager (um_id m) cap' None).
Proof.
  intros Hwf ([] & Hau & (m & Hm & H)%bind_ok_inv)%bind_ok_inv.
  destruct (borrow_manager c sender m Hwf Hau Hm) as (Hf & Hs & [Hv] & Hch).
  destruct (upgrade_proposal m) as [p|] eqn:Hp; [|done].
  apply bind_ok_inv in H as (nv & _ & ([] & _ & (n & Hn%count_votes_in_inv & ([] &
    Ht%move_assert_inv%N.leb_le & ([t cap'] & Hc & [= <- <-])%bind_ok_inv)%bind_ok_inv)%bind_ok_inv)%bind_ok_inv).
  subst n. split_and!; [done..|]. exists m, p, cap'. split_and!; done.
Qed.

Lemma commit_inv c receipt sender c' :
  committee_wf c → commit_upgrade c receipt sender = Ok c' →
  ∃ m cap', children c !! None = Some (ChildUpgradeManager m) ∧
    is_finalized c = true ∧ c' = put_manager c (mkUpgradeManager (um_id m) cap' None).
Proof.
  intros Hwf ([] & Hau & (m & Hm & (cap' & _ & [= <-])%bind_ok_inv)%bind_ok_inv)%bind_ok_inv.
  destruct (borrow_manager c sender m Hwf Hau Hm) as (Hf & Hs & _ & Hch). by exists m, cap'.
Qed.

Lemma reset_inv c sender c' :
  committee_wf c → reset_proposal c sender = Ok c' →
  sender ∈ members c ∧ is_finalized c = true ∧ ∃ m p,
    children c !! None = Some (ChildUpgradeManager m) ∧ upgrade_proposal m = Some p ∧
    (threshold c ≤ N.of_nat (length (filter (λ e, e.2 = Reject) (votes p))))%N ∧
    c' = put_manager c (set_proposal m None).
Proof.
  intros Hwf ([] & Hau & (m & Hm & H)%bind_ok_inv)%bind_ok_inv.
  destruct (borrow_manager c sender m Hwf Hau Hm) as (Hf & Hs & _ & Hch).
  destruct (upgrade_proposal m) as [p|] eqn:Hp; [|done].
  apply bind_ok_inv in H as (n & Hn%count_votes_in_inv & ([] & Ht%move_assert_inv%N.leb_le & [= <-])%bind_ok_inv).
  subst n. split_and!; [done..|]. by exists m, p.
Qed.

(** ** URLs of members *)
Lemma update_member_url_inv c u sender c' :
  committee_wf c → update_member_url c u sender = Ok c' →
  is_finalized c = true ∧ ∃ ks ks' v pk l i,
    children c !! Some (id c) = Some (ChildKeyServer ks) ∧ server_wf c ks v pk l ∧
    KS.ks_id ks' = KS.ks_id ks ∧ server_wf c ks' v pk (with_url u i l) ∧
    c' = dof_put c (Some (id c)) (ChildKeyServer ks').
Proof.
  intros Hwf ([] & _ & (p & _ & (i & _ & (ks & Hks & (ks' & Hks' & [= <-])%bind_ok_inv)%bind_ok_inv)%bind_ok_inv)%bind_ok_inv)%bind_ok_inv.
  unfold dof_key_server in Hks. destruct (children c !! Some (id c)) as [[ks0|]|] eqn:Hc; [|done..].
  injection Hks as ->. pose proof (cw_children _ Hwf _ _ Hc) as (_ & Hf & v & pk & l & Hsv).
  apply (update_member_url_wf c _ v pk l) in Hks' as [Hid Hsv']; [|done].
  split; [done|]. by exists ks, ks', v, pk, l, i.
Qed.

Lemma put_key_server_wf c ks v pk l :
  committee_wf c → is_finalized c = true → server_wf c ks v pk l →
  committee_wf (dof_put c (Some (id c)) (ChildKeyServer ks)).
Proof.
  intros [Hnd Ht He Hl Hs Hch Hsv Hmg] Hf Hks. split; try done; cbn [dof_put set_children children].
  - intros k o. rewrite lookup_insert_Some. intros [[<- <-]|[Hne Hk]].
    + split_and!; [done..|]. exists v, pk, l. by apply (server_wf_ext c).
    + specialize (Hch k o Hk). destruct o as [ks0|m']; simpl in *.
      * by destruct Hch as (-> & _).
      * destruct Hch as [-> [Hv]]. by split.
  - intros _. cbn. rewrite lookup_insert_eq. by eexists.
  - rewrite lookup_insert_ne by done. apply Hmg.
Qed.
End theory.
