(* ===== verification/MoveChain.v ===== *)
(** * The invariant of the chain of committees

    Every history of transactions keeps the shared committees well-formed,
    their identifiers fresh, each key server at one committee, and the key
    that a rotation proposes equal to that of the key server it takes over. *)

From Stdlib Require Import NArith Lia.
From S2P Require Import Prelude Utils Primitives Ibe Common Chain MoveLib MoveKeyServer MoveCommittee.
From S2P Require Import MoveCommitteeTheory.

Import SC.

Section chain.
  Context {crv : Curve} {fw : MoveFramework} {laws : MoveFrameworkLaws}.
  Implicit Types (cs : gmap Address Committee) (n : N).

Definition server (c : Committee) : option KS.KeyServer :=
  match children c !! Some (id c) with Some (ChildKeyServer ks) => Some ks | _ => None end.

Definition proposed_pk (c : Committee) : option (list byte) :=
  match state c with PostDKG _ _ pk _ _ => Some pk | _ => None end.

(** The version of a committee server. *)
Definition server_version (ks : KS.KeyServer) : option N :=
  match KS.ks_fields ks !! KS.V2 with
  | Some (KS.FieldV2 (KS.mkKeyServerV2 _ _ _ (KS.Committee v _ _))) => Some v
  | _ => None
  end.

Lemma server_wf_version c ks v pk l : server_wf c ks v pk l → server_version ks = Some v.
Proof. intros [_ _ [n Hn] _ _ _ _]. unfold server_version. by rewrite Hn, lookup_singleton_eq. Qed.

(** Among the first [n] objects. *)
Definition old_object n (a : Address) : Prop := ∃ k, (k < n)%N ∧ a = object_address k.

Lemma old_object_mono n m a : (n ≤ m)%N → old_object n a → old_object m a.
Proof. intros ? (k & ? & ->). exists k. split; [lia|done]. Qed.

Lemma new_object_fresh n a : old_object n a → ∀ m, (n ≤ m)%N → a ≠ object_address m.
Proof. intros (k & Hk & ->) m Hm Heq. apply (inj object_address) in Heq as ->. lia. Qed.

Record chain_wf n cs : Prop := {
  cw_committee a c : cs !! a = Some c → id c = a ∧ committee_wf c ∧ old_object n a;
  cw_server_old a c ks : cs !! a = Some c → server c = Some ks → old_object n (KS.ks_id ks);
  cw_unique a b c d ks ks' : cs !! a = Some c → cs !! b = Some d →
    server c = Some ks → server d = Some ks' → KS.ks_id ks = KS.ks_id ks' → a = b;
  cw_old a c o : cs !! a = Some c → old_committee_id c = Some o → old_object n o;
  cw_rotating a c o oc : cs !! a = Some c → old_committee_id c = Some o → cs !! o = Some oc →
    is_finalized oc = true;
  cw_proposed a c o oc pk : cs !! a = Some c → old_committee_id c = Some o → cs !! o = Some oc →
    proposed_pk c = Some pk → ∃ ks, server oc = Some ks ∧ KS.pk ks = Ok pk;
}.

(** ** Key servers of well-formed committees *)
Lemma server_spec c ks :
  committee_wf c → server c = Some ks →
  is_finalized c = true ∧ children c !! Some (id c) = Some (ChildKeyServer ks) ∧
  ∃ v pk l, server_wf c ks v pk l.
Proof.
  intros Hwf. unfold server. destruct (children c !! Some (id c)) as [[ks0|]|] eqn:Hc; [|done..].
  intros [= ->]. by destruct (cw_children _ Hwf _ _ Hc) as (_ & ? & ?).
Qed.

Lemma finalized_server c :
  committee_wf c → is_finalized c = true → ∃ ks, server c = Some ks.
Proof.
  intros Hwf Hf. destruct (cw_server _ Hwf Hf) as [o Ho]. unfold server. rewrite Ho.
  pose proof (cw_children _ Hwf _ _ Ho) as Hch. destruct o as [ks|]; [by exists ks|by destruct Hch].
Qed.

Lemma unfinished_server c : committee_wf c → is_finalized c = false → server c = None.
Proof.
  intros Hwf Hf. destruct (server c) as [ks|] eqn:Hs; [|done].
  apply server_spec in Hs as (? & _); [congruence|done].
Qed.

(** ** Steps of one committee *)

(** How the key server of a committee changes: it keeps its object, its key
    and its version, or it is a new object. *)
Definition server_evolves n (s s' : option KS.KeyServer) : Prop :=
  match s, s' with
  | None, None => True
  | Some ks, Some ks' =>
      KS.ks_id ks' = KS.ks_id ks ∧ KS.pk ks' = KS.pk ks ∧ server_version ks' = server_version ks
  | None, Some ks' => KS.ks_id ks' = object_address n
  | Some _, None => False
  end.

Record evolves n cs (c c' : Committee) : Prop := {
  ev_id : id c' = id c;
  ev_old : old_committee_id c' = old_committee_id c;
  ev_wf : committee_wf c';
  ev_final : is_finalized c = true → is_finalized c' = true;
  ev_server : server_evolves n (server c) (server c');
  ev_proposed pk o oc : old_committee_id c = Some o → proposed_pk c' = Some pk → cs !! o = Some oc →
    proposed_pk c = Some pk ∨ ∃ ks, server oc = Some ks ∧ KS.pk ks = Ok pk;
}.

Lemma server_evolves_refl n s : server_evolves n s s.
Proof. by destruct s. Qed.

(** A step that changes neither the key server nor the proposal. *)
Lemma evolves_keep n cs c c' :
  id c' = id c → old_committee_id c' = old_committee_id c → committee_wf c' →
  (is_finalized c = true → is_finalized c' = true) → server c' = server c →
  (proposed_pk c' = None ∨ proposed_pk c' = proposed_pk c) → evolves n cs c c'.
Proof.
  intros ????? Hp. split; try done; [rewrite H3; apply server_evolves_refl|].
  intros pk o oc _ Hpk _. left. destruct Hp; congruence.
Qed.

(** The server of the committee that replaces [c] at [a]. *)
Lemma lookup_step cs a c' b d :
  <[a := c']> cs !! b = Some d → (b = a ∧ d = c') ∨ (b ≠ a ∧ cs !! b = Some d).
Proof. rewrite lookup_insert_Some. naive_solver. Qed.

Lemma chain_wf_evolve n cs a c c' :
  chain_wf n cs → cs !! a = Some c → evolves n cs c c' → chain_wf (2 + n) (<[a := c']> cs).
Proof.
  intros Hwf Ha [Hid Hold Hcwf Hfin Hsv Hprop].
  assert (∀ b, old_object n b → old_object (2 + n) b) as Hmono by (intros; eapply old_object_mono; [|done]; lia).
  assert (∀ ks', server c' = Some ks' → (∃ ks, server c = Some ks ∧ KS.ks_id ks' = KS.ks_id ks ∧
    KS.pk ks' = KS.pk ks) ∨ KS.ks_id ks' = object_address n) as Hsv'.
  { intros ks' Hks'. rewrite Hks' in Hsv. destruct (server c) as [ks|]; [left; exists ks; naive_solver|by right]. }
  split.
  - intros b d [[-> ->]|[Hne Hb]]%lookup_step.
    + rewrite Hid. destruct (cw_committee _ _ Hwf a c Ha) as (-> & _ & ?). auto.
    + destruct (cw_committee _ _ Hwf b d Hb) as (-> & ? & ?). auto.
  - intros b d ks [[-> ->]|[Hne Hb]]%lookup_step Hks.
    + apply Hsv' in Hks as [(ks0 & Hks0 & -> & _)|Hn]; [|exists n; split; [lia|done]].
      apply Hmono. by eapply (cw_server_old _ _ Hwf a c).
    + apply Hmono. by eapply (cw_server_old _ _ Hwf b d).
  - assert (∀ b d ks ks', b ≠ a → cs !! b = Some d → server d = Some ks → server c' = Some ks' →
      KS.ks_id ks ≠ KS.ks_id ks') as Hdiff.
    { intros b d ks ks' Hne Hb Hks Hks' Heq. apply Hsv' in Hks' as [(ks0 & Hks0 & Hi & _)|Hn].
      - apply Hne. eapply (cw_unique _ _ Hwf b a d c); [done..|congruence].
      - rewrite Hn in Heq. eapply (new_object_fresh n (KS.ks_id ks)); [|done|done].
        by eapply (cw_server_old _ _ Hwf b d). }
    intros b1 b2 d1 d2 ks1 ks2 [[-> ->]|[Hne1 Hb1]]%lookup_step [[-> ->]|[Hne2 Hb2]]%lookup_step
      Hs1 Hs2 Heq; [done| | |by eapply (cw_unique _ _ Hwf b1 b2 d1 d2)].
    + by destruct (Hdiff b2 d2 ks2 ks1).
    + by destruct (Hdiff b1 d1 ks1 ks2).
  - intros b d o [[-> ->]|[Hne Hb]]%lookup_step Ho; apply Hmono.
    + rewrite Hold in Ho. by eapply (cw_old _ _ Hwf a c).
    + by eapply (cw_old _ _ Hwf b d).
  - intros b d o oc Hb Ho Hoc.
    assert (∃ d0, cs !! b = Some d0 ∧ old_committee_id d0 = Some o) as (d0 & Hb0 & Ho0).
    { apply lookup_step in Hb as [[-> ->]|[_ Hb]]; [exists c; by rewrite <-Hold|by exists d]. }
    apply lookup_step in Hoc as [[-> ->]|[_ Hoc]]; [apply Hfin; by eapply (cw_rotating _ _ Hwf b d0 a)|].
    by eapply (cw_rotating _ _ Hwf b d0 o).
  - assert (∀ o oc, <[a := c']> cs !! o = Some oc → ∃ oc0, cs !! o = Some oc0 ∧
      ∀ pk, (∃ ks, server oc0 = Some ks ∧ KS.pk ks = Ok pk) → ∃ ks, server oc = Some ks ∧ KS.pk ks = Ok pk)
      as Hback.
    { intros o oc [[-> ->]|[_ Hoc]]%lookup_step; [|by exists oc]. exists c. split; [done|].
      intros pk (ks & Hks & Hpk). rewrite Hks in Hsv. destruct (server c') as [ks'|]; [|done].
      exists ks'. split; [done|]. destruct Hsv as (_ & -> & _). done. }
    intros b d o oc pk Hb Ho Hoc Hpk. apply Hback in Hoc as (oc0 & Hoc0 & Hks). apply Hks.
    apply lookup_step in Hb as [[-> ->]|[_ Hb]]; [|by eapply (cw_proposed _ _ Hwf b d o oc0)].
    rewrite Hold in Ho. destruct (Hprop pk o oc0 Ho Hpk Hoc0) as [?|?]; [|done].
    by eapply (cw_proposed _ _ Hwf a c o oc0).
Qed.

(** A new committee. *)
Lemma chain_wf_new n cs c :
  chain_wf n cs → committee_wf c → id c = object_address n → state c = Init [] →
  (∀ o, old_committee_id c = Some o → ∃ oc, cs !! o = Some oc ∧ is_finalized oc = true) →
  chain_wf (2 + n) (<[object_address n := c]> cs).
Proof.
  intros Hwf Hc Hid Hst Hro.
  assert (∀ b, old_object n b → old_object (2 + n) b) as Hmono by (intros; eapply old_object_mono; [|done]; lia).
  assert (server c = None) as Hsv by (apply unfinished_server; [done|]; unfold is_finalized; by rewrite Hst).
  assert (∀ b, old_object n b → b ≠ object_address n) as Hfresh by (intros b Hb; by eapply new_object_fresh).
  split.
  - intros b d [[-> ->]|[Hne Hb]]%lookup_step; [by split_and!; [..|exists n; split; [lia|]]|].
    destruct (cw_committee _ _ Hwf b d Hb) as (-> & ? & ?). auto.
  - intros b d ks [[-> ->]|[Hne Hb]]%lookup_step Hks; [congruence|].
    apply Hmono. by eapply (cw_server_old _ _ Hwf b d).
  - intros b1 b2 d1 d2 ks1 ks2 [[-> ->]|[Hne1 Hb1]]%lookup_step [[-> ->]|[Hne2 Hb2]]%lookup_step
      Hs1 Hs2 Heq; [congruence..|by eapply (cw_unique _ _ Hwf b1 b2 d1 d2)].
  - intros b d o [[-> ->]|[Hne Hb]]%lookup_step Ho; apply Hmono.
    + destruct (Hro o Ho) as (oc & Hoc & _). by apply (cw_committee _ _ Hwf o oc).
    + by eapply (cw_old _ _ Hwf b d).
  - intros b d o oc [[-> ->]|[Hne Hb]]%lookup_step Ho Hoc.
    + destruct (Hro o Ho) as (oc0 & Hoc0 & Hf). rewrite lookup_insert_ne in Hoc; [congruence|].
      apply not_eq_sym, Hfresh. by apply (cw_committee _ _ Hwf o oc0).
    + rewrite lookup_insert_ne in Hoc; [by eapply (cw_rotating _ _ Hwf b d o)|].
      apply not_eq_sym, Hfresh. by eapply (cw_old _ _ Hwf b d).
  - intros b d o oc pk [[-> ->]|[Hne Hb]]%lookup_step Ho Hoc Hpk.
    + unfold proposed_pk in Hpk. by rewrite Hst in Hpk.
    + rewrite lookup_insert_ne in Hoc; [by eapply (cw_proposed _ _ Hwf b d o)|].
      apply not_eq_sym, Hfresh. by eapply (cw_old _ _ Hwf b d).
Qed.

(** A rotation that completes: [c'] takes the key server of [oc] over. *)
Lemma chain_wf_rotate n cs a o c oc c' ks ks' :
  chain_wf n cs → cs !! a = Some c → cs !! o = Some oc → a ≠ o → is_finalized c = false →
  id c' = a → old_committee_id c' = Some o → committee_wf c' → is_finalized c' = true →
  server oc = Some ks → server c' = Some ks' → KS.ks_id ks' = KS.ks_id ks →
  chain_wf (2 + n) (<[a := c']> (delete o cs)).
Proof.
  intros Hwf Ha Ho Hao Hf Hid Hold Hcwf Hf' Hks Hks' Hkid.
  assert (∀ b, old_object n b → old_object (2 + n) b) as Hmono by (intros; eapply old_object_mono; [|done]; lia).
  assert (∀ b d, <[a := c']> (delete o cs) !! b = Some d →
    (b = a ∧ d = c') ∨ (b ≠ a ∧ b ≠ o ∧ cs !! b = Some d)) as Hstep.
  { intros b d [?|[? [? ?]%lookup_delete_Some]]%lookup_step; [by left|right; split_and!; congruence]. }
  split.
  - intros b d [[-> ->]|(? & ? & Hb)]%Hstep.
    + split_and!; [done..|]. apply Hmono. by apply (cw_committee _ _ Hwf a c).
    + destruct (cw_committee _ _ Hwf b d Hb) as (-> & ? & ?). auto.
  - intros b d k [[-> ->]|(? & ? & Hb)]%Hstep Hk; apply Hmono.
    + assert (k = ks') as -> by congruence. rewrite Hkid. by eapply (cw_server_old _ _ Hwf o oc).
    + by eapply (cw_server_old _ _ Hwf b d).
  - assert (∀ b d k, b ≠ o → cs !! b = Some d → server d = Some k → KS.ks_id k ≠ KS.ks_id ks') as Hd.
    { intros b d k Hbo Hb Hk Heq. apply Hbo. eapply (cw_unique _ _ Hwf b o d oc); [done..|congruence]. }
    intros b1 b2 d1 d2 k1 k2 [[-> ->]|(? & ? & Hb1)]%Hstep [[-> ->]|(? & ? & Hb2)]%Hstep Hs1 Hs2 Heq;
      [done| | |by eapply (cw_unique _ _ Hwf b1 b2 d1 d2)].
    + destruct (Hd b2 d2 k2); [done..|congruence].
    + destruct (Hd b1 d1 k1); [done..|congruence].
  - intros b d x [[-> ->]|(? & ? & Hb)]%Hstep Hx; apply Hmono.
    + assert (x = o) as -> by congruence. by apply (cw_committee _ _ Hwf o oc).
    + by eapply (cw_old _ _ Hwf b d).
  - intros b d x xc [[-> ->]|(? & ? & Hb)]%Hstep Hx [[-> ->]|(? & ? & Hxc)]%Hstep; try done.
    + congruence.
    + by eapply (cw_rotating _ _ Hwf b d x).
  - intros b d x xc pk [[-> ->]|(? & ? & Hb)]%Hstep Hx [[-> ->]|(? & ? & Hxc)]%Hstep Hpk.
    + congruence.
    + congruence.
    + pose proof (cw_rotating _ _ Hwf b d a c Hb Hx Ha). congruence.
    + by eapply (cw_proposed _ _ Hwf b d x).
Qed.

(** ** The functions of the contract *)
Lemma approvals_bound ms mi pks pk ap : proposal_wf ms mi pks pk ap → length ap ≤ length ms.
Proof.
  intros [_ _ _ _ _ Hnd Hin]. by apply submseteq_length, NoDup_submseteq.
Qed.

(** A proposal is recorded, or it is the last one and the committee is
    finalized with a key server of the version [v]. *)
Definition completes n (c : Committee) pks pk v (ks_id : Address) (c' : Committee) : Prop :=
  ∃ mi l ks, built (members c) mi pks l ∧ KS.ks_id ks = ks_id ∧ server c' = Some ks ∧
    server_wf c' ks v pk l ∧ committee_wf c' ∧ is_finalized c' = true ∧ id c' = id c ∧
    old_committee_id c' = old_committee_id c ∧ members c' = members c ∧ threshold c' = threshold c ∧
    proposal_of c' = None.

Lemma propose_spec n c pks pk h sender c' :
  committee_wf c → propose (object_address n) c pks pk h sender = Ok c' →
  old_committee_id c = None ∧ is_finalized c = false ∧
  ((∃ mi ap, c' = set_state c (PostDKG mi pks pk h ap) ∧ committee_wf c') ∨
   completes n c pks pk 0 (object_address n) c').
Proof.
  intros Hwf ([] & Hold%move_assert_inv%bool_decide_eq_true_1 & (c1 & H1 & H2)%bind_ok_inv)%bind_ok_inv.
  destruct (propose_internal_wf c pks pk h sender c1 Hwf H1) as (Hf & mi & ap & -> & Hp & Hlt).
  split_and!; [done..|]. destruct (decide (length ap = length (members c))) as [Hl|Hl].
  - destruct (try_finalize_full (object_address n) c mi pks pk h ap) as
      (l & ks & c2 & Hfin & Hb & Hid & Hsv & Hc2 & Hno & Hwf2); [done..|].
    assert (c2 = c') as -> by congruence. right. exists mi, l, ks. split_and!; try done; [|by subst c'..].
    subst c'. unfold server. cbn [finalized set_state set_children children id]. by rewrite lookup_insert_eq.
  - left. exists mi, ap. unfold try_finalize in H2. rewrite bind_assert in H2 by
      (by apply bool_decide_eq_true_2). cbn [state set_state members] in H2.
    rewrite (proj2 (Nat.eqb_neq _ _) Hl) in H2. injection H2 as <-. split; [done|]. apply Hlt.
    pose proof (approvals_bound _ _ _ _ _ Hp). lia.
Qed.

Lemma dof_remove_add c k o :
  children c !! k = Some o → dof_add (dof_remove c k) k o = Ok c.
Proof.
  intros Hk. unfold dof_add. cbn [dof_remove set_children children].
  rewrite lookup_delete_eq, bool_decide_eq_false_2 by (by intros [? ?]).
  unfold set_children. cbn. rewrite insert_delete_id by done. by destruct c.
Qed.

Lemma propose_for_rotation_spec n c pks h oc sender c' oc' :
  committee_wf c → committee_wf oc →
  propose_for_rotation c pks h oc sender = Ok (c', oc') →
  old_committee_id c = Some (id oc) ∧ is_finalized oc = true ∧ is_finalized c = false ∧
  ∃ ks v pk l, server oc = Some ks ∧ server_wf oc ks v pk l ∧
  ((oc' = Some oc ∧ ∃ mi ap, c' = set_state c (PostDKG mi pks pk h ap) ∧ committee_wf c') ∨
   (oc' = None ∧ (v + 1 < 2 ^ 32)%N ∧ completes n c pks pk (v + 1) (KS.ks_id ks) c')).
Proof.
  intros Hwf Hwo ([] & ([] & _ & ([] & Hold%move_assert_inv%bool_decide_eq_true_1 & Hfo%move_assert_inv)%bind_ok_inv)%bind_ok_inv
    & (ks & Hks & (pk' & Hpk & (c1 & H1 & H2)%bind_ok_inv)%bind_ok_inv)%bind_ok_inv)%bind_ok_inv.
  unfold dof_key_server in Hks. destruct (children oc !! Some (id oc)) as [[ks0|]|] eqn:Hc; [|done..].
  injection Hks as ->. assert (server oc = Some ks) as Hs by (unfold server; by rewrite Hc).
  destruct (server_spec oc ks Hwo Hs) as (_ & _ & v & pk & l & Hsv).
  rewrite (server_pk oc ks v pk l Hsv) in Hpk. injection Hpk as <-.
  destruct (propose_internal_wf c pks pk h sender c1 Hwf H1) as (Hf & mi & ap & -> & Hp & Hlt).
  split_and!; [done..|]. exists ks, v, pk, l. split_and!; [done..|].
  destruct (decide (length ap = length (members c))) as [Hl|Hl].
  - destruct (try_finalize_for_rotation_full c oc _ ks v pk l mi pks h ap Hwf Hf Hold Hp Hl Hwo Hfo Hsv
      eq_refl) as (l' & ks' & c2 & Hfin & Hb & Hid & Hsv' & Hch & [ch Hc2] & Hno & Hwf2).
    rewrite Hfin in H2. apply bind_ok_inv in H2 as (w & [_ Hw]%move_uint_inv & [= -> <-]).
    right. split_and!; [done..|]. exists mi, l', ks'. split_and!; try done; [|by subst c'..].
    unfold server. assert (id c' = id c) as -> by (by subst c'). by rewrite Hch.
  - left. unfold try_finalize_for_rotation in H2.
    apply bind_ok_inv in H2 as ([] & _ & H2). cbn [state set_state members] in H2.
    rewrite (proj2 (Nat.eqb_neq _ _) Hl) in H2. cbn [negb id dof_remove set_children] in H2.
    change (set_children oc _) with (dof_remove oc (Some (id oc))) in H2.
    rewrite dof_remove_add in H2 by done. injection H2 as <- <-. split; [done|].
    exists mi, ap. split; [done|]. apply Hlt. pose proof (approvals_bound _ _ _ _ _ Hp). lia.
Qed.

Lemma completes_evolves n cs c pks pk v k c' :
  is_finalized c = false → committee_wf c → completes n c pks pk v k c' → k = object_address n →
  evolves n cs c c'.
Proof.
  intros Hf Hwf (mi & l & ks & _ & Hk & Hs & _ & Hwf' & Hf' & Hid & Ho & _) ->. split; try done.
  - by rewrite Hs, unfinished_server.
  - intros q o oc _ Hq. unfold proposed_pk, is_finalized in *. by destruct (state c').
Qed.

Lemma put_manager_evolves n cs c m :
  committee_wf c → is_finalized c = true → manager_wf c m → evolves n cs c (put_manager c m).
Proof.
  intros Hwf Hf Hm. apply evolves_keep; try done; [by apply put_manager_wf| |by right].
  unfold server. cbn [put_manager dof_put set_children children id]. by rewrite lookup_insert_ne.
Qed.

Lemma register_evolves n cs c e s u nm sender c' :
  committee_wf c → register c e s u nm sender = Ok c' → evolves n cs c c'.
Proof.
  intros Hwf Hf. pose proof (register_wf c _ _ _ _ _ c' Hwf Hf) as Hwf'.
  apply register_inv in Hf as (mi & Hs & _ & _ & _ & _ & _ & ->). apply evolves_keep; try done; [|by left].
  unfold is_finalized. by rewrite Hs.
Qed.

Lemma propose_evolves n cs c pks pk h sender c' :
  committee_wf c → propose (object_address n) c pks pk h sender = Ok c' → evolves n cs c c'.
Proof.
  intros Hwf Hf.
  destruct (propose_spec _ _ _ _ _ _ _ Hwf Hf) as (Hold & Hfin & [(mi & ap & -> & Hwf')|Hcomp]).
  - split; try done; [congruence|apply server_evolves_refl|]. intros ? ? ? ?. congruence.
  - by eapply completes_evolves.
Qed.

Lemma update_member_url_evolves n cs c u sender c' :
  committee_wf c → update_member_url c u sender = Ok c' → evolves n cs c c'.
Proof.
  intros Hwf (Hf & ks & ks' & v & pk & l & i & Hc & Hsv & Hid & Hsv' & ->)%update_member_url_inv; [|done].
  split; try done.
  - by eapply put_key_server_wf.
  - unfold server. rewrite Hc. cbn [dof_put set_children children id]. rewrite lookup_insert_eq. simpl.
    by rewrite (server_pk _ _ _ _ _ Hsv), (server_pk _ _ _ _ _ Hsv'), (server_wf_version _ _ _ _ _ Hsv),
      (server_wf_version _ _ _ _ _ Hsv').
  - intros q o oc _ Hq _. by left.
Qed.

Lemma approve_evolves n cs c d sender c' :
  committee_wf c → approve_digest_for_upgrade c d sender = Ok c' → evolves n cs c c'.
Proof.
  intros Hwf (_ & Hfin & m & p & p' & _ & _ & _ & _ & _ & Hm & ->)%approve_inv; [|done].
  by apply put_manager_evolves.
Qed.

Lemma reject_evolves n cs c sender c' :
  committee_wf c → reject_digest_for_upgrade c sender = Ok c' → evolves n cs c c'.
Proof.
  intros Hwf (_ & Hfin & m & p & p' & _ & _ & _ & Hm & ->)%reject_inv; [|done].
  by apply put_manager_evolves.
Qed.

Lemma authorize_evolves n cs c sender t c' :
  committee_wf c → authorize_upgrade c sender = Ok (t, c') → evolves n cs c c'.
Proof.
  intros Hwf (_ & Hfin & m & p & cap' & _ & _ & _ & _ & ->)%authorize_inv; [|done].
  by apply put_manager_evolves, no_proposal_wf.
Qed.

Lemma commit_evolves n cs c r sender c' :
  committee_wf c → commit_upgrade c r sender = Ok c' → evolves n cs c c'.
Proof.
  intros Hwf (m & cap' & _ & Hfin & ->)%commit_inv; [|done]. by apply put_manager_evolves, no_proposal_wf.
Qed.

Lemma reset_evolves n cs c sender c' :
  committee_wf c → reset_proposal c sender = Ok c' → evolves n cs c c'.
Proof.
  intros Hwf (_ & Hfin & m & p & _ & _ & _ & ->)%reset_inv; [|done].
  by apply put_manager_evolves, no_proposal_wf.
Qed.

#[local] Hint Resolve register_evolves propose_evolves update_member_url_evolves approve_evolves
  reject_evolves authorize_evolves commit_evolves reset_evolves : evolves.

(** ** The invariant *)
Lemma exec_on_committee ch a f ch' :
  on_committee ch a f = Ok ch' → ∃ c c', ch_committees ch !! a = Some c ∧ f c = Ok c' ∧
    ch_committees ch' = <[id c' := c']> (ch_committees ch) ∧ ch_next ch' = (2 + ch_next ch)%N.
Proof.
  intros (c & Hc%expect_inv & (c' & Hf & [= <-])%bind_ok_inv)%bind_ok_inv. by exists c, c'.
Qed.

Lemma chain_wf_on_committee ch a c c' :
  chain_wf (ch_next ch) (ch_committees ch) → ch_committees ch !! a = Some c →
  evolves (ch_next ch) (ch_committees ch) c c' →
  chain_wf (2 + ch_next ch) (<[id c' := c']> (ch_committees ch)).
Proof.
  intros Hwf Ha He. rewrite (ev_id _ _ _ _ He). destruct (cw_committee _ _ Hwf a c Ha) as (-> & _ & _).
  by eapply chain_wf_evolve.
Qed.

(** What each call does to the committees. *)
Inductive effect (ch : Chain) : Call → gmap Address Committee → Prop :=
  | EffectNew call c : committee_wf c → id c = object_address (ch_next ch) → state c = Init [] →
      (∀ o, old_committee_id c = Some o → ∃ oc, ch_committees ch !! o = Some oc ∧ is_finalized oc = true) →
      effect ch call (<[id c := c]> (ch_committees ch))
  | EffectEvolve call a c c' : ch_committees ch !! a = Some c →
      evolves (ch_next ch) (ch_committees ch) c c' → effect ch call (<[id c' := c']> (ch_committees ch))
  | EffectRotate a pks h o c oc c' ks v pk l : a ≠ o →
      ch_committees ch !! a = Some c → ch_committees ch !! o = Some oc →
      is_finalized c = false → old_committee_id c = Some o → is_finalized oc = true →
      server oc = Some ks → server_wf oc ks v pk l →
      completes (ch_next ch) c pks pk (v + 1) (KS.ks_id ks) c' →
      effect ch (ProposeForRotation a pks h o) (<[a := c']> (delete o (ch_committees ch)))
  | EffectNone call : effect ch call (ch_committees ch).

Lemma evolve_effect ch call a c c' :
  ch_committees ch !! a = Some c → chain_wf (ch_next ch) (ch_committees ch) →
  (committee_wf c → evolves (ch_next ch) (ch_committees ch) c c') →
  effect ch call (<[id c' := c']> (ch_committees ch)).
Proof.
  intros Hc Hwf He. apply (EffectEvolve _ _ a c c'); [done|]. apply He.
  by apply (cw_committee _ _ Hwf a c Hc).
Qed.

Lemma on_committee_effect ch call a f ch' :
  chain_wf (ch_next ch) (ch_committees ch) → on_committee ch a f = Ok ch' →
  (∀ c c', committee_wf c → f c = Ok c' → evolves (ch_next ch) (ch_committees ch) c c') →
  effect ch call (ch_committees ch') ∧ ch_next ch' = (2 + ch_next ch)%N.
Proof.
  intros Hwf (c & c' & Hc & Hf & -> & ->)%exec_on_committee He. split; [|done].
  eapply evolve_effect; eauto.
Qed.

Lemma rotation_effect ch a pks h o sender c oc c' oc' :
  chain_wf (ch_next ch) (ch_committees ch) → a ≠ o →
  ch_committees ch !! a = Some c → ch_committees ch !! o = Some oc →
  propose_for_rotation c pks h oc sender = Ok (c', oc') →
  effect ch (ProposeForRotation a pks h o) (<[id c' := c']>
    (match oc' with Some x => <[id x := x]> (delete o (ch_committees ch))
     | None => delete o (ch_committees ch) end)).
Proof.
  intros Hwf Hao Hc Hoc Hp. destruct (cw_committee _ _ Hwf a c Hc) as (Hida & Hcw & _).
  destruct (cw_committee _ _ Hwf o oc Hoc) as (Hido & Hcwo & _).
  destruct (propose_for_rotation_spec (ch_next ch) _ _ _ _ _ _ _ Hcw Hcwo Hp) as
    (Hold & Hfo & Hfin & ks & v & pk & l & Hks & Hsv & [(-> & mi & ap & -> & Hcw')|(-> & Hv & Hcomp)]).
  - rewrite Hido, insert_delete_id by done. apply (EffectEvolve _ _ a c); [done|].
    split; try done; [congruence|apply server_evolves_refl|].
    intros q x xc Hx [= <-] Hxc. right. exists ks. assert (xc = oc) as -> by congruence.
    by rewrite (server_pk _ _ _ _ _ Hsv).
  - assert (id c' = a) as -> by (destruct Hcomp as (? & ? & ? & _ & _ & _ & _ & _ & _ & -> & _); done).
    apply (EffectRotate _ a pks h o c oc c' ks v pk l); try done. congruence.
Qed.

Lemma exec_effect ch sender call ch' :
  chain_wf (ch_next ch) (ch_committees ch) → exec ch sender call = Ok ch' →
  effect ch call (ch_committees ch') ∧ ch_next ch' = (2 + ch_next ch)%N.
Proof.
  intros Hwf H. destruct call as [cap t ms|o t ms|a e s u nm|a pks pk h|a pks h o|a u|a d|a|a|i|a i|a];
    simpl in H; try (eapply on_committee_effect; [done|exact H|intros ??? Hf; cbv beta in Hf; eauto with evolves]; fail).
  - apply bind_ok_inv in H as (c & (Hc & Hid & Hst & Ho & _)%init_committee_wf & [= <-]).
    split; [|done]. apply EffectNew; try done. by rewrite Ho.
  - apply bind_ok_inv in H as (oc & Hoc%expect_inv & ([c ev] & (Hc & Hid & Hst & Ho & _ & Hf)%init_rotation_wf
      & [= <-])%bind_ok_inv).
    split; [|done]. apply EffectNew; try done. rewrite Ho. intros ? [= <-]. exists oc.
    by destruct (cw_committee _ _ Hwf o oc Hoc) as (-> & _ & _).
  - case_bool_decide as Hao; [done|].
    apply bind_ok_inv in H as (c & Hc%expect_inv & (oc & Hoc%expect_inv & ([c' oc'] & Hp & [= <-])%bind_ok_inv)%bind_ok_inv).
    split; [|done]. by apply (rotation_effect ch a pks h o sender c oc c' oc').
  - apply bind_ok_inv in H as (c & Hc%expect_inv & ([t c'] & Hf & [= <-])%bind_ok_inv). split; [|done].
    eapply evolve_effect; eauto with evolves.
  - apply bind_ok_inv in H as (t & _ & [= <-]). split; [cbn [ch_committees]; apply EffectNone|done].
  - apply bind_ok_inv in H as (r & _ & (c & Hc%expect_inv & (c' & Hf & [= <-])%bind_ok_inv)%bind_ok_inv).
    split; [|done]. eapply evolve_effect; eauto with evolves.
Qed.

Lemma chain_wf_mono n m cs : (n ≤ m)%N → chain_wf n cs → chain_wf m cs.
Proof.
  intros Hnm Hwf. split; intros.
  - destruct (cw_committee _ _ Hwf a c H) as (? & ? & ?). split_and!; [done..|]. by eapply old_object_mono.
  - eapply old_object_mono; [done|]. by eapply (cw_server_old _ _ Hwf a c).
  - by eapply (cw_unique _ _ Hwf a b c d ks ks').
  - eapply old_object_mono; [done|]. by eapply (cw_old _ _ Hwf a c).
  - by eapply (cw_rotating _ _ Hwf a c o).
  - by eapply (cw_proposed _ _ Hwf a c o).
Qed.

Lemma effect_wf ch call cs :
  chain_wf (ch_next ch) (ch_committees ch) → effect ch call cs → chain_wf (2 + ch_next ch) cs.
Proof.
  intros Hwf [call' c Hc Hid Hst Ho|call' a c c' Hc He|a pks h o c oc c' ks v pk l Hao Hc Hoc Hf Hold Hfo Hks Hsv Hcomp|call'].
  - rewrite Hid. by apply chain_wf_new.
  - by eapply chain_wf_on_committee.
  - destruct Hcomp as (mi & l' & ks' & _ & Hkid & Hs' & _ & Hwf' & Hf' & Hid & Hold' & _).
    apply (chain_wf_rotate _ _ a o c oc c' ks ks'); try done; [|congruence].
    rewrite Hid. by apply (cw_committee _ _ Hwf a c Hc).
  - eapply chain_wf_mono; [|done]. lia.
Qed.

Lemma genesis_wf : chain_wf (ch_next genesis) (ch_committees genesis).
Proof. split; cbn; intros *; rewrite lookup_empty; done. Qed.

Lemma history_wf tr ch : history tr ch → chain_wf (ch_next ch) (ch_committees ch).
Proof.
  induction 1 as [|tr ch sender call ch' _ IH H]; [apply genesis_wf|].
  destruct (exec_effect ch sender call ch' IH H) as [He ->]. by eapply effect_wf.
Qed.
End chain.
