(* ===== verification/MoveCommitteeProps.v ===== *)
(** * Properties of the committee contract

    Over the histories of transactions: a key server keeps its key through
    all rotations, one committee holds it, and each new version is a rotation;
    the approvals of the members that are left finalize a proposal, in any
    order; and an upgrade has the approvals of a threshold of members. *)

From Stdlib Require Import NArith Lia.
From S2P Require Import Prelude Utils Primitives Ibe Common Chain MoveLib MoveKeyServer MoveCommittee.
From S2P Require Import MoveCommitteeTheory MoveChain.

Import SC.

Section props.
  Context {crv : Curve} {fw : MoveFramework} {laws : MoveFrameworkLaws}.

(** The key server of a finalized committee: its object, version, public key
    and partial servers. *)
Definition committee_server (a : Address) (c : Committee) :
    option (Address * N * list byte * list KS.PartialKeyServer) :=
  match is_finalized c, children c !! Some a with
  | true, Some (ChildKeyServer ks) =>
      match KS.ks_fields ks !! KS.V2 with
      | Some (KS.FieldV2 (KS.mkKeyServerV2 _ _ pk (KS.Committee v _ l))) => Some (KS.ks_id ks, v, pk, l)
      | _ => None
      end
  | _, _ => None
  end.

(** The committee at [a] has the key server [k] with the version [v], the
    public key [pk] and the partial servers [l]. *)
Definition serves (ch : Chain) (a k : Address) (v : N) (pk : list byte)
    (l : list KS.PartialKeyServer) : Prop :=
  ∃ c, ch_committees ch !! a = Some c ∧ committee_server a c = Some (k, v, pk, l).

(** The rotations among [calls] that lead from the committee [a] to [b]. *)
Inductive rotations (calls : list (Address * Call)) (a : Address) (v : N) : Address → N → Prop :=
  | rotations_none : rotations calls a v a v
  | rotations_next b w c sender pks h :
      rotations calls a v b w → (sender, ProposeForRotation c pks h b) ∈ calls →
      rotations calls a v c (w + 1).

Definition one_server (ch : Chain) (k a : Address) (v : N) (pk : list byte) : Prop :=
  (∃ l, serves ch a k v pk l) ∧
  ∀ b w q l, serves ch b k w q l → b = a ∧ w = v ∧ q = pk.

(** ** Servers and the invariant *)
Lemma serves_inv ch a k v pk l :
  chain_wf (ch_next ch) (ch_committees ch) → serves ch a k v pk l →
  ∃ c ks, ch_committees ch !! a = Some c ∧ is_finalized c = true ∧ server c = Some ks ∧ KS.ks_id ks = k ∧
    server_wf c ks v pk l.
Proof.
  intros Hwf (c & Ha & H). unfold committee_server in H.
  destruct (is_finalized c) eqn:Hf; [|done]. destruct (children c !! Some a) as [[ks|]|] eqn:Hch; [|done..].
  destruct (cw_committee _ _ Hwf a c Ha) as (<- & Hcw & _). exists c, ks.
  assert (server c = Some ks) as Hs by (unfold server; by rewrite Hch).
  destruct (server_spec c ks Hcw Hs) as (_ & _ & v' & pk' & l' & Hsv).
  destruct (sv_fields _ _ _ _ _ Hsv) as [n Hn]. rewrite Hn, lookup_singleton_eq in H.
  by injection H as <- <- <- <-.
Qed.

Lemma serves_intro ch a c ks v pk l :
  ch_committees ch !! a = Some c → id c = a → is_finalized c = true → server c = Some ks →
  server_wf c ks v pk l → serves ch a (KS.ks_id ks) v pk l.
Proof.
  intros Ha <- Hf Hs Hsv. destruct (sv_fields _ _ _ _ _ Hsv) as [n Hn]. exists c. split; [done|].
  unfold committee_server. rewrite Hf. unfold server in Hs.
  destruct (children c !! Some (id c)) as [[]|]; [|done..]. injection Hs as ->.
  by rewrite Hn, lookup_singleton_eq.
Qed.

Lemma serves_of_lookup ch a k v pk l :
  (ch_committees ch !! a ≫= committee_server a) = Some (k, v, pk, l) → serves ch a k v pk l.
Proof. intros (c & Hc & Ha)%bind_Some. by exists c. Qed.

Lemma serves_unique ch a k v pk l :
  chain_wf (ch_next ch) (ch_committees ch) → serves ch a k v pk l → one_server ch k a v pk.
Proof.
  intros Hwf Hs. split; [by exists l|]. intros b w q l' Hs'.
  destruct (serves_inv _ _ _ _ _ _ Hwf Hs) as (c & ks & Ha & _ & Hks & Hk & Hsv).
  destruct (serves_inv _ _ _ _ _ _ Hwf Hs') as (d & ks' & Hb & _ & Hks' & Hk' & Hsv').
  assert (b = a) as -> by (eapply (cw_unique _ _ Hwf b a d c); [done..|congruence]).
  assert (d = c) as -> by congruence. assert (ks' = ks) as -> by congruence.
  pose proof (server_wf_version _ _ _ _ _ Hsv). pose proof (server_wf_version _ _ _ _ _ Hsv').
  pose proof (server_pk _ _ _ _ _ Hsv). pose proof (server_pk _ _ _ _ _ Hsv').
  split_and!; congruence.
Qed.

Lemma evolves_serves n cs c c' ks v pk l :
  evolves n cs c c' → server c = Some ks → server_wf c ks v pk l →
  ∃ ks' l', server c' = Some ks' ∧ KS.ks_id ks' = KS.ks_id ks ∧ server_wf c' ks' v pk l'.
Proof.
  intros He Hs Hsv. pose proof (ev_server _ _ _ _ He) as Hsv'. rewrite Hs in Hsv'.
  destruct (server c') as [ks'|] eqn:Hs'; [|done]. destruct Hsv' as (Hid & Hpk & Hv).
  destruct (server_spec c' ks' (ev_wf _ _ _ _ He) Hs') as (_ & _ & v' & pk' & l' & Hsv').
  rewrite (server_pk _ _ _ _ _ Hsv), (server_pk _ _ _ _ _ Hsv') in Hpk.
  rewrite (server_wf_version _ _ _ _ _ Hsv), (server_wf_version _ _ _ _ _ Hsv') in Hv.
  injection Hpk as ->. injection Hv as ->. by exists ks', l'.
Qed.

(** One transaction. *)
Lemma serves_step ch sender call ch' a k v pk l :
  chain_wf (ch_next ch) (ch_committees ch) → exec ch sender call = Ok ch' → serves ch a k v pk l →
  (∃ l', serves ch' a k v pk l') ∨
  (∃ b pks h l', call = ProposeForRotation b pks h a ∧ serves ch' b k (v + 1) pk l').
Proof.
  intros Hwf H Hs. destruct (exec_effect ch sender call ch' Hwf H) as [He _].
  destruct (serves_inv _ _ _ _ _ _ Hwf Hs) as (c & ks & Ha & Hf & Hks & Hk & Hsv). subst k.
  destruct (cw_committee _ _ Hwf a c Ha) as (Hida & Hcw & Hold).
  inversion He as [call' d Hd Hid Hst Ho Hcall Hcs|call' b d d' Hb Hev Hcall Hcs
    |b pks h o d oc d' ks0 v0 pk0 l0 Hbo Hb Hoc Hfd Holdd Hfo Hks0 Hsv0 Hcomp Hcall Hcs|call' Hcall Hcs].
  - left. exists l. apply (serves_intro ch' a c); try done. rewrite <-Hcs, Hid, lookup_insert_ne; [done|].
    intros Heq. by eapply (new_object_fresh _ a Hold).
  - left. rewrite (ev_id _ _ _ _ Hev) in Hcs. destruct (cw_committee _ _ Hwf b d Hb) as (Hidb & _ & _).
    destruct (decide (b = a)) as [->|Hne].
    + assert (d = c) as -> by congruence.
      destruct (evolves_serves _ _ _ _ _ _ _ _ Hev Hks Hsv) as (ks' & l' & Hks' & <- & Hsv').
      exists l'. apply (serves_intro ch' a d'); try done; [|by rewrite (ev_id _ _ _ _ Hev)|by apply (ev_final _ _ _ _ Hev)].
      by rewrite <-Hcs, Hida, lookup_insert_eq.
    + exists l. apply (serves_intro ch' a c); try done. rewrite <-Hcs, lookup_insert_ne; congruence.
  - destruct (decide (o = a)) as [->|Hne].
    + assert (oc = c) as -> by congruence. assert (ks0 = ks) as -> by congruence.
      destruct Hcomp as (mi & l' & ks' & _ & Hkid & Hs' & Hsv' & _ & Hf' & Hid & _).
      pose proof (server_wf_version _ _ _ _ _ Hsv). pose proof (server_wf_version _ _ _ _ _ Hsv0).
      pose proof (server_pk _ _ _ _ _ Hsv). pose proof (server_pk _ _ _ _ _ Hsv0).
      assert (v0 = v) as -> by congruence. assert (pk0 = pk) as -> by congruence.
      right. exists b, pks, h, l'. split; [done|]. rewrite <-Hkid.
      apply (serves_intro ch' b d'); try done; [by rewrite <-Hcs, lookup_insert_eq|].
      rewrite Hid. by apply (cw_committee _ _ Hwf b d).
    + left. exists l. apply (serves_intro ch' a c); try done. rewrite <-Hcs, lookup_insert_ne by congruence.
      by rewrite lookup_delete_ne.
  - left. exists l. by apply (serves_intro ch' a c); rewrite <-?Hcs.
Qed.

Lemma rotations_mono calls calls' a v b w :
  rotations calls a v b w → rotations (calls ++ calls') a v b w.
Proof.
  induction 1 as [|b w c sender pks h _ IH Hin]; [constructor|].
  apply (rotations_next _ _ _ b w c sender pks h IH). apply elem_of_app. by left.
Qed.

(** The transactions determine the chain. *)
Lemma history_snoc_inv tr sender call ch' :
  history (tr ++ [(sender, call)]) ch' → ∃ ch, history tr ch ∧ exec ch sender call = Ok ch'.
Proof.
  inversion 1 as [Heq|tr0 ch0 s0 call0 ch2 H0 Hex Heq]; [by destruct tr|].
  apply app_inj_tail in Heq as [-> [= -> ->]]. by exists ch0.
Qed.

Lemma history_fun tr ch ch' : history tr ch → history tr ch' → ch' = ch.
Proof.
  intros H. revert ch'. induction H as [|tr ch s call ch1 H IH Hex]; intros ch' H'.
  - inversion H' as [|????? ? ? Heq]; [done|]. by destruct tr.
  - apply history_snoc_inv in H' as (ch0 & H0 & Hex0). rewrite (IH _ H0) in Hex0. congruence.
Qed.

(** ** Approvals *)

(** The call with which a member approves a proposal. *)
Definition approve_call (a : Address) (pks : list (list byte)) (pk h : list byte)
    (old : option Address) : Call :=
  match old with None => Propose a pks pk h | Some o => ProposeForRotation a pks h o end.

Fixpoint exec_all (ch : Chain) (calls : list (Address * Call)) : outcome N Chain :=
  match calls with
  | [] => Ok ch
  | (sender, call) :: calls => ch ← exec ch sender call; exec_all ch calls
  end.

Lemma exec_all_history tr tr' ch ch' : history tr ch → exec_all ch tr' = Ok ch' → history (tr ++ tr') ch'.
Proof.
  revert tr ch. induction tr' as [|[sender call] tr' IH]; intros tr ch Hh H; cbn in H.
  - rewrite app_nil_r. by injection H as <-.
  - apply bind_ok_inv in H as (ch1 & H1 & H). rewrite cons_middle, app_assoc.
    eapply IH; [|done]. by eapply history_snoc.
Qed.

(** A committee that rotates still has the old one to take over from, and a
    version is left. *)
Definition ready (ch : Chain) (c : Committee) : Prop :=
  ∀ o, old_committee_id c = Some o → ∃ k v pk l, serves ch o k v pk l ∧ (v + 1 < 2 ^ 32)%N.

Lemma try_map_check_g2 pks : Forall valid_g2 pks → ∃ gs, try_map check_g2 pks = Ok gs.
Proof.
  intros Hv. destruct (try_map_ok check_g2 (λ _ _, True) pks) as (gs & Hgs & _); [|by exists gs].
  rewrite Forall_forall in Hv. intros b [g Hg]%Hv. exists g. unfold check_g2. by rewrite Hg.
Qed.

Lemma propose_internal_ok c mi pks pk h ap sender :
  committee_wf c → state c = PostDKG mi pks pk h ap → sender ∈ members c → sender ∉ ap →
  propose_internal c pks pk h sender = Ok (set_state c (PostDKG mi pks pk h (ap ++ [sender]))).
Proof.
  intros Hwf Hs Hm Hin. pose proof (cw_state _ Hwf) as Hsw. unfold state_wf in Hsw. rewrite Hs in Hsw.
  destruct Hsw as [[_ _ Hl Hv [g Hg] _ _] _]. destruct (try_map_check_g2 pks Hv) as [gs Hgs].
  assert (check_g2 pk = Ok g) as Hpk by (unfold check_g2; by rewrite Hg).
  unfold propose_internal. rewrite Hpk, bind_Ok, Hgs, bind_Ok.
  rewrite !bind_assert; [|by apply Nat.eqb_eq|by apply bool_decide_eq_true_2]. rewrite Hs.
  rewrite !bind_assert; [|unfold vec_set_contains; by rewrite bool_decide_eq_false_2|by apply bool_decide_eq_true_2..].
  by rewrite vec_set_insert_ok.
Qed.

Lemma after_approval c mi pks pk h ap sender :
  committee_wf c → state c = PostDKG mi pks pk h ap → sender ∈ members c → sender ∉ ap →
  is_finalized c = false ∧ proposal_wf (members c) mi pks pk (ap ++ [sender]) ∧
  length (ap ++ [sender]) = S (length ap).
Proof.
  intros Hwf Hs Hm Hin.
  destruct (propose_internal_wf c pks pk h sender _ Hwf (propose_internal_ok c _ _ _ _ _ _ Hwf Hs Hm Hin))
    as (Hf & mi' & ap' & Heq & Hp & _).
  apply (f_equal state) in Heq. cbn in Heq. injection Heq as <- <-.
  split_and!; [done..|]. rewrite length_app. simpl. lia.
Qed.

(** What a further approval leads to. *)
Definition approved (ch : Chain) a c mi pks pk h ap sender : Prop :=
  (S (length ap) < length (members c) →
     ch_committees ch !! a = Some (set_state c (PostDKG mi pks pk h (ap ++ [sender]))) ∧ ready ch c) ∧
  (S (length ap) = length (members c) →
     ∃ k v l, serves ch a k v pk l ∧ built (members c) mi pks l).

Lemma fresh_approval ch a c mi pks pk h ap sender :
  chain_wf (ch_next ch) (ch_committees ch) → ch_committees ch !! a = Some c →
  state c = PostDKG mi pks pk h ap → sender ∈ members c → sender ∉ ap → old_committee_id c = None →
  ∃ ch', exec ch sender (Propose a pks pk h) = Ok ch' ∧ approved ch' a c mi pks pk h ap sender.
Proof.
  intros Hwf Ha Hs Hm Hin Hold. destruct (cw_committee _ _ Hwf a c Ha) as (Hid & Hcw & _).
  destruct (after_approval c mi pks pk h ap sender Hcw Hs Hm Hin) as (Hf & Hp & Hl).
  assert (∀ c', try_finalize (object_address (ch_next ch)) (set_state c (PostDKG mi pks pk h (ap ++ [sender])))
    = Ok c' → exec ch sender (Propose a pks pk h) = Ok (put_committee ch c')) as Hexec.
  { intros c' Hfin. cbn [exec]. unfold on_committee, shared. rewrite Ha. cbn [expect]. rewrite bind_Ok.
    unfold propose. rewrite bind_assert by (by apply bool_decide_eq_true_2).
    by rewrite (propose_internal_ok c mi pks pk h ap sender), bind_Ok, Hfin, bind_Ok. }
  destruct (decide (S (length ap) = length (members c))) as [Hlast|Hmore].
  - destruct (try_finalize_full (object_address (ch_next ch)) c mi pks pk h (ap ++ [sender])) as
      (l & ks & c' & Hfin & Hb & Hk & Hsv & Hc' & _ & Hcw'); [done..|by rewrite Hl|].
    eexists. split; [by apply Hexec|]. split; [intros; lia|]. intros _.
    exists (KS.ks_id ks), 0%N, l. split; [|done]. apply (serves_intro _ a c'); try done.
    + cbn. subst c'. cbn. rewrite Hid. by rewrite lookup_insert_eq.
    + by subst c'.
    + by subst c'.
    + subst c'. unfold server. cbn [finalized set_state set_children children id]. by rewrite lookup_insert_eq.
  - eexists. split.
    { apply Hexec. unfold try_finalize. rewrite bind_assert by (by apply bool_decide_eq_true_2).
      cbn [state set_state members]. by rewrite (proj2 (Nat.eqb_neq _ _)) by (by rewrite Hl). }
    split; [|by intros ?]. intros _. split.
    + cbn. rewrite Hid. by rewrite lookup_insert_eq.
    + intros o Ho. congruence.
Qed.

Lemma check_rotation_ok c oc :
  old_committee_id c = Some (id oc) → is_finalized oc = true → check_rotation_consistency c oc = Ok ().
Proof.
  intros Hold Hf. unfold check_rotation_consistency.
  by rewrite !bind_assert, move_assert_true by (done || apply bool_decide_eq_true_2; eauto).
Qed.

(** The proposal of a rotation reaches its last part. *)
Lemma propose_for_rotation_ok c oc ks mi pks pk h ap sender r :
  committee_wf c → state c = PostDKG mi pks pk h ap → sender ∈ members c → sender ∉ ap →
  old_committee_id c = Some (id oc) → is_finalized oc = true → server oc = Some ks → KS.pk ks = Ok pk →
  try_finalize_for_rotation (set_state c (PostDKG mi pks pk h (ap ++ [sender])))
    (dof_remove oc (Some (id oc))) ks = Ok r →
  propose_for_rotation c pks h oc sender = Ok r.
Proof.
  intros Hwf Hs Hm Hin Hold Hf Hks Hpk Hr. unfold propose_for_rotation.
  rewrite check_rotation_ok, bind_Ok by done. unfold dof_key_server.
  unfold server in Hks. destruct (children oc !! Some (id oc)) as [[ks0|]|]; [|done..].
  injection Hks as ->. rewrite bind_Ok, Hpk, bind_Ok.
  by rewrite (propose_internal_ok c mi pks pk h ap sender), bind_Ok.
Qed.

Lemma exec_rotation ch a c o oc ks mi pks pk h ap sender :
  committee_wf c → id c = a → id oc = o → a ≠ o → ch_committees ch !! a = Some c → ch_committees ch !! o = Some oc →
  state c = PostDKG mi pks pk h ap → sender ∈ members c → sender ∉ ap →
  old_committee_id c = Some (id oc) → is_finalized oc = true → server oc = Some ks → KS.pk ks = Ok pk →
  ∀ c' oc', try_finalize_for_rotation (set_state c (PostDKG mi pks pk h (ap ++ [sender])))
    (dof_remove oc (Some (id oc))) ks = Ok (c', oc') →
  exec ch sender (ProposeForRotation a pks h o) = Ok (put_committees ch (<[id c' := c']>
    (match oc' with Some x => <[id x := x]> (delete o (ch_committees ch))
     | None => delete o (ch_committees ch) end))).
Proof.
  intros Hcw Hid Hido Hao Ha Ho Hs Hm Hin Hold Hfo Hks Hpk c' oc' Hr. cbn [exec].
  rewrite bool_decide_eq_false_2 by done. unfold shared. rewrite Ha, Ho. cbn [expect]. rewrite !bind_Ok.
  by rewrite (propose_for_rotation_ok c oc ks mi pks pk h ap sender (c', oc')), bind_Ok.
Qed.

Lemma rotation_approval ch a c mi pks pk h ap sender o :
  chain_wf (ch_next ch) (ch_committees ch) → ch_committees ch !! a = Some c →
  state c = PostDKG mi pks pk h ap → sender ∈ members c → sender ∉ ap → old_committee_id c = Some o →
  ready ch c →
  ∃ ch', exec ch sender (ProposeForRotation a pks h o) = Ok ch' ∧ approved ch' a c mi pks pk h ap sender.
Proof.
  intros Hwf Ha Hs Hm Hin Hold Hready. destruct (cw_committee _ _ Hwf a c Ha) as (Hid & Hcw & _).
  destruct (after_approval c mi pks pk h ap sender Hcw Hs Hm Hin) as (Hf & Hp & Hl).
  destruct (Hready o Hold) as (k & v & pk' & l0 & Hsv & Hv).
  destruct (serves_inv _ _ _ _ _ _ Hwf Hsv) as (oc & ks & Ho & Hfo & Hks & Hk & Hsvw).
  destruct (cw_committee _ _ Hwf o oc Ho) as (Hido & Hcwo & _). rewrite <-Hido in Hold.
  assert (KS.pk ks = Ok pk) as Hpk.
  { destruct (cw_proposed _ _ Hwf a c o oc pk) as (ks' & Hks' & Hpk'); try done; [congruence| |congruence].
    unfold proposed_pk. by rewrite Hs. }
  assert (pk' = pk) as -> by (rewrite (server_pk _ _ _ _ _ Hsvw) in Hpk; by injection Hpk).
  assert (a ≠ o) as Hao by congruence.
  pose proof (exec_rotation ch a c o oc ks mi pks pk h ap sender Hcw Hid Hido Hao Ha Ho Hs Hm Hin Hold Hfo
    Hks Hpk) as Hexec.
  destruct (decide (S (length ap) = length (members c))) as [Hlast|Hmore].
  - destruct (try_finalize_for_rotation_full c oc (dof_remove oc (Some (id oc))) ks v pk l0 mi pks h
      (ap ++ [sender]) Hcw Hf Hold Hp) as (l & ks' & c' & Hfin & Hb & Hk' & Hsv' & Hch & [x Hc'] & _ & Hcw'); [by rewrite Hl|done..|].
    rewrite bind_uint in Hfin by done.
    eexists. split; [by apply Hexec|]. split; [intros; lia|]. intros _.
    exists (KS.ks_id ks'), (v + 1)%N, l. split; [|done].
    assert (id c' = a) as Hid' by (by subst c').
    apply (serves_intro _ a c'); [cbn; by rewrite Hid', lookup_insert_eq|done|by subst c'| |done].
    unfold server. by rewrite Hid', <-Hid, Hch.
  - eexists. split.
    { apply (Hexec (set_state c (PostDKG mi pks pk h (ap ++ [sender]))) (Some oc)).
      unfold try_finalize_for_rotation. rewrite check_rotation_ok, bind_Ok by done.
      cbn [state set_state members]. rewrite (proj2 (Nat.eqb_neq _ _)) by (by rewrite Hl). cbn [negb].
      change (Some (id (dof_remove oc (Some (id oc))))) with (Some (id oc)).
      rewrite dof_remove_add; [done|]. by apply server_spec in Hks as (_ & ? & _). }
    split; [|by intros ?]. intros _. cbn. rewrite Hid, Hido, insert_delete_id by done. split.
    + by rewrite lookup_insert_eq.
    + intros o' Ho'. assert (o' = o) as -> by congruence. exists k, v, pk, l0. split; [|done].
      rewrite <-Hk. apply (serves_intro _ o oc); try done. cbn. by rewrite lookup_insert_ne.
Qed.

Lemma approval_step ch a c mi pks pk h ap sender :
  chain_wf (ch_next ch) (ch_committees ch) → ch_committees ch !! a = Some c →
  state c = PostDKG mi pks pk h ap → sender ∈ members c → sender ∉ ap → ready ch c →
  ∃ ch', exec ch sender (approve_call a pks pk h (old_committee_id c)) = Ok ch' ∧
    approved ch' a c mi pks pk h ap sender.
Proof.
  intros. destruct (old_committee_id c) as [o|] eqn:Hold; [by apply rotation_approval|by apply fresh_approval].
Qed.

Lemma exec_wf ch sender call ch' :
  chain_wf (ch_next ch) (ch_committees ch) → exec ch sender call = Ok ch' →
  chain_wf (ch_next ch') (ch_committees ch').
Proof. intros Hwf H. destruct (exec_effect _ _ _ _ Hwf H) as [He ->]. by eapply effect_wf. Qed.

(** ** Votes *)
(** A call after which the approval of [member] at the committee [a] no
    longer counts. *)
Definition withdraws (a member : Address) (e : Address * Call) : Prop :=
  match e.2 with
  | RejectDigestForUpgrade b => b = a ∧ e.1 = member
  | ResetProposal b | AuthorizeUpgrade b | CommitUpgrade b _ => b = a
  | _ => False
  end.

(** The member approved the digest, and nothing withdrew it since. *)
Definition stands (tr : list (Address * Call)) (a member : Address) (digest : list byte) : Prop :=
  ∃ before after, tr = before ++ (member, ApproveDigestForUpgrade a digest) :: after ∧
    Forall (λ e, ¬ withdraws a member e) after.

Lemma stands_snoc tr a m d e : stands tr a m d → ¬ withdraws a m e → stands (tr ++ [e]) a m d.
Proof.
  intros (before & after & -> & Hf) He. exists before, (after ++ [e]). split.
  - by rewrite <-app_assoc.
  - apply Forall_app. by repeat constructor.
Qed.

Lemma stands_new tr a m d : stands (tr ++ [(m, ApproveDigestForUpgrade a d)]) a m d.
Proof. by exists tr, []. Qed.

Definition votes_stand (tr : list (Address * Call)) (ch : Chain) : Prop :=
  ∀ a c p m, ch_committees ch !! a = Some c → proposal_of c = Some p → (m, Approve) ∈ votes p →
    stands tr a m (digest p).

(** What a call does to the proposal of the committee at [a]: an approval of
    the new proposal is the call itself, or was one of the old proposal that
    the call does not withdraw. *)
Definition votes_follow (a : Address) (e : Address * Call) (c c' : Committee) : Prop :=
  ∀ p' m, proposal_of c' = Some p' → (m, Approve) ∈ votes p' →
    e = (m, ApproveDigestForUpgrade a (digest p')) ∨
    (∃ p, proposal_of c = Some p ∧ (m, Approve) ∈ votes p ∧ digest p = digest p' ∧ ¬ withdraws a m e).

Lemma votes_follow_same a e c c' :
  (∀ m, ¬ withdraws a m e) → proposal_of c' = proposal_of c → votes_follow a e c c'.
Proof. intros He Hp p m Hp' Hm. right. exists p. rewrite <-Hp. auto. Qed.

Lemma votes_follow_none a e c c' : proposal_of c' = None → votes_follow a e c c'.
Proof. intros Hp p m. congruence. Qed.

Lemma proposal_put_manager c m : proposal_of (put_manager c m) = upgrade_proposal m.
Proof. unfold proposal_of. cbn [put_manager dof_put set_children children]. by rewrite lookup_insert_eq. Qed.

Lemma approve_follow a c d sender c' :
  committee_wf c → approve_digest_for_upgrade c d sender = Ok c' →
  votes_follow a (sender, ApproveDigestForUpgrade a d) c c'.
Proof.
  intros Hwf (_ & Hf & m & p & p' & Hch & Hor & Hd & Hv & Hd' & _ & ->)%approve_inv; [|done].
  intros q x. rewrite proposal_put_manager. intros [= <-] Hx.
  assert (NoDup (votes p).*1) as Hnd.
  { destruct Hor as [Hp|[_ ->]]; [|constructor]. pose proof (cw_children _ Hwf _ _ Hch) as [_ [Hmw]].
    by apply (Hmw p Hp). }
  apply insert_vote_inv in Hv as (_ & _ & _ & Hel); [|done].
  apply Hel in Hx as [[-> _]|[Hne Hx]]; [left; by rewrite Hd'|]. right. exists p.
  destruct Hor as [Hp|[_ Hnil]]; [|rewrite Hnil in Hx; by inversion Hx].
  split_and!; [unfold proposal_of; by rewrite Hch|done|congruence|by intros []].
Qed.

Lemma reject_follow a c sender c' :
  committee_wf c → reject_digest_for_upgrade c sender = Ok c' →
  votes_follow a (sender, RejectDigestForUpgrade a) c c'.
Proof.
  intros Hwf (_ & Hf & m & p & p' & Hch & Hp & Hv & _ & ->)%reject_inv; [|done].
  intros q x. rewrite proposal_put_manager. intros [= <-] Hx.
  pose proof (cw_children _ Hwf _ _ Hch) as [_ [Hmw]]. destruct (Hmw p Hp) as (_ & Hnd & _).
  apply insert_vote_inv in Hv as (Hd & _ & _ & Hel); [|done].
  apply Hel in Hx as [[_ ?]|[Hne Hx]]; [done|]. right. exists p.
  split_and!; [unfold proposal_of; by rewrite Hch|done|done|]. intros [_ Heq]. by apply Hne.
Qed.


Definition votes_kept (ch ch' : Chain) (e : Address * Call) : Prop :=
  ∀ b d, ch_committees ch' !! b = Some d →
    proposal_of d = None ∨ ∃ d0, ch_committees ch !! b = Some d0 ∧ votes_follow b e d0 d.

Lemma votes_kept_at (ch : Chain) (e : Address * Call) (a : Address) (c c' : Committee) (cs' : gmap Address Committee) :
  chain_wf (ch_next ch) (ch_committees ch) → ch_committees ch !! a = Some c → id c' = id c →
  (proposal_of c' = None ∨ votes_follow a e c c') → (∀ b m, b ≠ a → ¬ withdraws b m e) →
  (∀ b, b ≠ a → cs' !! b = ch_committees ch !! b ∨ cs' !! b = None) → cs' !! a = Some c' →
  ∀ b d, cs' !! b = Some d →
    proposal_of d = None ∨ ∃ d0, ch_committees ch !! b = Some d0 ∧ votes_follow b e d0 d.
Proof.
  intros Hwf Ha Hid Hf He Hcs Ha' b d Hb. destruct (decide (b = a)) as [->|Hne].
  - assert (d = c') as -> by congruence. destruct Hf; [by left|right; by exists c].
  - right. exists d. destruct (Hcs b Hne) as [Hb'|Hb']; [|congruence].
    split; [congruence|]. apply votes_follow_same; [|done]. intros m. by apply He.
Qed.

Lemma votes_on_committee ch a f ch' e :
  chain_wf (ch_next ch) (ch_committees ch) → on_committee ch a f = Ok ch' →
  (∀ c c', committee_wf c → f c = Ok c' →
     evolves (ch_next ch) (ch_committees ch) c c' ∧ (proposal_of c' = None ∨ votes_follow a e c c')) →
  (∀ b m, b ≠ a → ¬ withdraws b m e) → votes_kept ch ch' e.
Proof.
  intros Hwf (c & c' & Ha & Hf & Hcs & _)%exec_on_committee Hfv He b d. rewrite Hcs.
  destruct (cw_committee _ _ Hwf a c Ha) as (Hida & Hcw & _).
  destruct (Hfv c c' Hcw Hf) as [Hev Hv]. pose proof (ev_id _ _ _ _ Hev) as Hid.
  apply (votes_kept_at ch e a c c'); try done.
  - intros x Hx. left. by rewrite Hid, Hida, lookup_insert_ne.
  - by rewrite Hid, Hida, lookup_insert_eq.
Qed.

Lemma register_votes a e c ep sp u n sender c' :
  (∀ m, ¬ withdraws a m e) → register c ep sp u n sender = Ok c' → votes_follow a e c c'.
Proof. intros He (mi & _ & _ & _ & _ & _ & _ & ->)%register_inv. by apply votes_follow_same. Qed.

Lemma propose_votes n a e c pks pk h sender c' :
  (∀ m, ¬ withdraws a m e) → committee_wf c → propose (object_address n) c pks pk h sender = Ok c' →
  proposal_of c' = None ∨ votes_follow a e c c'.
Proof.
  intros He Hwf H. destruct (propose_spec n c pks pk h sender c' Hwf H) as (_ & _ & [(mi & ap & -> & _)|Hc]).
  - right. by apply votes_follow_same.
  - left. destruct Hc as (? & ? & ? & _ & _ & _ & _ & _ & _ & _ & _ & _ & _ & ?). done.
Qed.

Lemma url_votes a e c u sender c' :
  (∀ m, ¬ withdraws a m e) → committee_wf c → update_member_url c u sender = Ok c' → votes_follow a e c c'.
Proof.
  intros He Hwf (_ & ks & ks' & v & pk & l & i & _ & _ & _ & _ & ->)%update_member_url_inv; [|done].
  apply votes_follow_same; [done|]. unfold proposal_of. cbn [dof_put set_children children].
  by rewrite lookup_insert_ne.
Qed.

Lemma rotation_votes ch a pks h o sender ch' :
  chain_wf (ch_next ch) (ch_committees ch) → exec ch sender (ProposeForRotation a pks h o) = Ok ch' →
  votes_kept ch ch' (sender, ProposeForRotation a pks h o).
Proof.
  intros Hwf H. cbn [exec] in H. case_bool_decide as Hao; [done|].
  apply bind_ok_inv in H as (c & Hc%expect_inv & (oc & Hoc%expect_inv & ([c' oc'] & Hp & [= <-])%bind_ok_inv)%bind_ok_inv).
  destruct (cw_committee _ _ Hwf a c Hc) as (Hida & Hcw & _).
  destruct (cw_committee _ _ Hwf o oc Hoc) as (Hido & Hcwo & _).
  destruct (propose_for_rotation_spec (ch_next ch) _ _ _ _ _ _ _ Hcw Hcwo Hp) as
    (_ & _ & _ & ks & v & pk & l & _ & _ & [(-> & mi & ap & -> & _)|(-> & _ & Hcomp)]);
    intros b d; cbn [put_committees ch_committees].
  - apply (votes_kept_at ch _ a c (set_state c (PostDKG mi pks pk h ap))); try done.
    + right. apply votes_follow_same; [by intros ? []|done].
    + by intros ? ? ? [].
    + intros x Hx. left. cbn [id set_state]. by rewrite Hida, lookup_insert_ne, Hido, insert_delete_id.
    + cbn [id set_state]. by rewrite Hida, lookup_insert_eq.
  - destruct Hcomp as (? & ? & ? & _ & _ & _ & _ & _ & _ & Hid & _ & _ & _ & Hno).
    apply (votes_kept_at ch _ a c c'); try done.
    + by left.
    + by intros ? ? ? [].
    + intros y Hy. rewrite Hid, Hida, lookup_insert_ne by done. destruct (decide (y = o)) as [->|Hne].
      * right. apply lookup_delete_eq.
      * left. by apply lookup_delete_ne.
    + by rewrite Hid, Hida, lookup_insert_eq.
Qed.

Lemma votes_new ch ch' e a c :
  ch_committees ch' = <[a := c]> (ch_committees ch) → proposal_of c = None →
  (∀ b m, ¬ withdraws b m e) → votes_kept ch ch' e.
Proof.
  intros Hcs Hno He b d. rewrite Hcs. intros [[_ ->]|[_ Hb]]%lookup_step; [by left|].
  right. exists d. split; [done|]. apply votes_follow_same; [apply He|done].
Qed.

(** A call that leaves the committee at [a] without a proposal. *)
Lemma votes_cleared ch ch' e a c c' :
  chain_wf (ch_next ch) (ch_committees ch) → ch_committees ch !! a = Some c → id c' = id c →
  proposal_of c' = None → ch_committees ch' = <[id c' := c']> (ch_committees ch) →
  (∀ b m, b ≠ a → ¬ withdraws b m e) → votes_kept ch ch' e.
Proof.
  intros Hwf Ha Hid Hno Hcs He b d. rewrite Hcs.
  destruct (cw_committee _ _ Hwf a c Ha) as (Hida & _ & _). rewrite Hid, Hida.
  apply (votes_kept_at ch e a c c'); try done; [by left| |apply lookup_insert_eq].
  intros x Hx. left. by rewrite lookup_insert_ne.
Qed.

Lemma authorize_votes ch sender a ch' :
  chain_wf (ch_next ch) (ch_committees ch) → exec ch sender (AuthorizeUpgrade a) = Ok ch' →
  votes_kept ch ch' (sender, AuthorizeUpgrade a).
Proof.
  intros Hwf (c & Hc%expect_inv & ([t c'] & Hf & [= <-])%bind_ok_inv)%bind_ok_inv.
  destruct (cw_committee _ _ Hwf a c Hc) as (_ & Hcw & _).
  apply authorize_inv in Hf as (_ & _ & m & p & cap' & _ & _ & _ & _ & ->); [|done].
  apply (votes_cleared ch _ _ a c (put_manager c (mkUpgradeManager (um_id m) cap' None))); try done.
  - apply proposal_put_manager.
  - intros b x Hne Heq. cbn in Heq. congruence.
Qed.

Lemma commit_votes ch sender a i ch' :
  chain_wf (ch_next ch) (ch_committees ch) → exec ch sender (CommitUpgrade a i) = Ok ch' →
  votes_kept ch ch' (sender, CommitUpgrade a i).
Proof.
  intros Hwf (r & _ & (c & Hc%expect_inv & (c' & Hf & [= <-])%bind_ok_inv)%bind_ok_inv)%bind_ok_inv.
  destruct (cw_committee _ _ Hwf a c Hc) as (_ & Hcw & _).
  apply commit_inv in Hf as (m & cap' & _ & _ & ->); [|done].
  apply (votes_cleared ch _ _ a c (put_manager c (mkUpgradeManager (um_id m) cap' None))); try done.
  - apply proposal_put_manager.
  - intros b x Hne Heq. cbn in Heq. congruence.
Qed.

Lemma reset_votes c sender c' :
  committee_wf c → reset_proposal c sender = Ok c' → proposal_of c' = None.
Proof. intros Hwf (_ & _ & m & p & _ & _ & _ & ->)%reset_inv; [|done]. apply proposal_put_manager. Qed.

Lemma exec_votes ch sender call ch' :
  chain_wf (ch_next ch) (ch_committees ch) → exec ch sender call = Ok ch' →
  votes_kept ch ch' (sender, call).
Proof.
  intros Hwf H.
  destruct call as [cap t ms|o t ms|a ep sp u nm|a pks pk h|a pks h o|a u|a d|a|a|i|a i|a];
    [..|by apply rotation_votes| | | |by apply authorize_votes| |by apply commit_votes|]; cbn [exec] in H;
    try (apply (votes_on_committee ch a _ ch' _ Hwf H);
         [intros c c' Hcw Hf|intros b m Hne Heq; cbn in Heq; naive_solver]).
  - apply bind_ok_inv in H as (c & (_ & _ & _ & _ & Hch)%init_committee_wf & [= <-]).
    eapply votes_new; [done| |by intros ? ? []]. unfold proposal_of. by rewrite Hch, lookup_singleton_eq.
  - apply bind_ok_inv in H as (oc & _ & ([c ev] & (_ & _ & _ & _ & Hch & _)%init_rotation_wf & [= <-])%bind_ok_inv).
    eapply votes_new; [done| |by intros ? ? []]. unfold proposal_of. by rewrite Hch, lookup_empty.
  - split; [by eapply register_evolves|]. right. by eapply register_votes; [intros ? []|].
  - split; [by eapply propose_evolves|]. by eapply propose_votes; [intros ? []|..].
  - split; [by eapply update_member_url_evolves|]. right. by eapply url_votes; [intros ? []|..].
  - split; [by eapply approve_evolves|]. right. by apply approve_follow.
  - split; [by eapply reject_evolves|]. right. by apply reject_follow.
  - apply bind_ok_inv in H as (t & _ & [= <-]). intros b d Hb. right. exists d. split; [done|].
    apply votes_follow_same; [by intros ? []|done].
  - split; [by eapply reset_evolves|]. left. by eapply reset_votes.
Qed.

Lemma history_votes_stand tr ch : history tr ch → votes_stand tr ch.
Proof.
  induction 1 as [|tr ch sender call ch' H IH Hex]; intros b d p m Hb Hp Hm.
  { cbn in Hb. by rewrite lookup_empty in Hb. }
  destruct (exec_votes ch sender call ch' (history_wf _ _ H) Hex b d Hb) as [?|(d0 & Hd0 & Hf)]; [congruence|].
  destruct (Hf p m Hp Hm) as [[= -> ->]|(p0 & Hp0 & Hm0 & <- & Hw)]; [apply stands_new|].
  apply stands_snoc; [|done]. by eapply IH.
Qed.

(** The members that are left are as many as approvals are missing. *)
Lemma remaining_length c mi pks pk h ap rest :
  committee_wf c → state c = PostDKG mi pks pk h ap → NoDup rest →
  (∀ m, m ∈ rest ↔ m ∈ members c ∧ m ∉ ap) →
  length ap < length (members c) ∧ length ap + length rest = length (members c).
Proof.
  intros Hwf Hs Hnd Hrest. pose proof (cw_state _ Hwf) as Hsw. unfold state_wf in Hsw. rewrite Hs in Hsw.
  destruct Hsw as [[_ _ _ _ _ Ha Hin] Hlt]. split; [done|]. rewrite <-length_app.
  apply Permutation_length, NoDup_Permutation; [|apply Hwf|].
  - apply NoDup_app. split_and!; [done| |done]. intros x Hx Hr. by apply Hrest in Hr as [_ ?].
  - intros x. rewrite elem_of_app, Hrest. split; [naive_solver|]. intros Hx.
    destruct (decide (x ∈ ap)); [by left|by right].
Qed.

(** ** Properties *)

(** C32: a key server keeps its public key whatever transactions follow: one
    committee holds it at any time, and its version counts the rotations
    that led to that committee. *)
Theorem key_server_identity tr ch tr' ch' a k v pk l :
  history tr ch → history (tr ++ tr') ch' → serves ch a k v pk l →
  ∃ a' v', one_server ch' k a' v' pk ∧ rotations tr' a v a' v'.
Proof.
  intros H H' Hs. revert ch' H'. induction tr' as [|[sender call] tr' IH] using rev_ind; intros ch' H'.
  - rewrite app_nil_r in H'. rewrite (history_fun _ _ _ H H'). exists a, v. split; [|constructor].
    apply (serves_unique _ _ _ _ _ l); [by eapply history_wf|done].
  - rewrite app_assoc in H'. pose proof (history_wf _ _ H') as Hwf'.
    apply history_snoc_inv in H' as (ch0 & H0 & Hex). pose proof (history_wf _ _ H0) as Hwf0.
    destruct (IH ch0 H0) as (b & w & [[l' Hb] _] & Hrot).
    destruct (serves_step ch0 sender call ch' b k w pk l' Hwf0 Hex Hb)
      as [[l'' Hs']|(b' & pks & h & l'' & -> & Hs')].
    + exists b, w. split; [by eapply serves_unique|by apply rotations_mono].
    + exists b', (w + 1)%N. split; [by eapply serves_unique|].
      eapply rotations_next; [by apply rotations_mono|]. apply elem_of_app. right. by left.
Qed.

(** C33: once a proposal is on chain, the members that have not approved it
    can complete it, in any order: each approval takes effect, whatever the
    others did before, and the last one gives the committee a key server with
    the proposed key, whose partial servers are those of the members, in
    their order. A rotation needs the old committee, with a version left. *)
Theorem remaining_approvals_finalize tr ch a c mi pks pk h ap rest :
  history tr ch → ch_committees ch !! a = Some c → state c = PostDKG mi pks pk h ap →
  ready ch c → NoDup rest → (∀ m, m ∈ rest ↔ m ∈ members c ∧ m ∉ ap) →
  ∃ ch' k v l, exec_all ch ((λ m, (m, approve_call a pks pk h (old_committee_id c))) <$> rest) = Ok ch' ∧
    serves ch' a k v pk l ∧ built (members c) mi pks l.
Proof.
  intros Hh Ha Hs Hr Hnd Hrest. pose proof (history_wf _ _ Hh) as Hwf. clear Hh tr.
  revert ch c ap Ha Hs Hr Hrest Hwf. induction rest as [|m rest IH]; intros ch c ap Ha Hs Hr Hrest Hwf;
    destruct (cw_committee _ _ Hwf a c Ha) as (_ & Hcw & _);
    destruct (remaining_length c mi pks pk h ap _ Hcw Hs Hnd Hrest) as [Hlt Hlen]; simpl in Hlen; [lia|].
  apply NoDup_cons in Hnd as [Hm Hnd]. destruct (proj1 (Hrest m) ltac:(by left)) as [Hmc Hma].
  destruct (approval_step ch a c mi pks pk h ap m Hwf Ha Hs Hmc Hma Hr) as (ch1 & Hex & Hmore & Hlast).
  csimpl. cbn [exec_all]. rewrite Hex, bind_Ok. destruct rest as [|x rest'].
  - destruct Hlast as (k & v & l & Hsv & Hbt); [simpl in Hlen; lia|]. by exists ch1, k, v, l.
  - destruct Hmore as [Ha1 Hr1]; [simpl in Hlen; lia|].
    apply (IH Hnd ch1 (set_state c (PostDKG mi pks pk h (ap ++ [m]))) (ap ++ [m])); try done.
    + intros y. specialize (Hrest y). rewrite elem_of_cons in Hrest. cbn [members set_state].
      rewrite not_elem_of_app, list_elem_of_singleton. clear -Hrest Hm. naive_solver.
    + by eapply exec_wf.
Qed.

(** C34: an upgrade is authorized only for a digest that a threshold of the
    members approved, each by an own transaction that no later transaction
    withdrew. *)
Theorem upgrades_need_threshold tr ch sender a ch' :
  history tr ch → exec ch sender (AuthorizeUpgrade a) = Ok ch' →
  ∃ c ticket voters, ch_committees ch !! a = Some c ∧ sender ∈ members c ∧
    ch_tickets ch' = ticket :: ch_tickets ch ∧
    NoDup voters ∧ (threshold c ≤ N.of_nat (length voters))%N ∧
    ∀ m, m ∈ voters → m ∈ members c ∧ stands tr a m (ticket_digest ticket).
Proof.
  intros Hh (c & Hc%expect_inv & ([t c'] & Hf & [= <-])%bind_ok_inv)%bind_ok_inv.
  pose proof (history_wf _ _ Hh) as Hwf. destruct (cw_committee _ _ Hwf a c Hc) as (_ & Hcw & _).
  apply authorize_inv in Hf as (Hs & _ & m & p & cap' & Hch & Hp & Ht & Hcap & ->); [|done].
  apply cap_authorize_digest in Hcap. exists c, t, (filter (λ e, e.2 = Approve) (votes p)).*1.
  pose proof (cw_children _ Hcw _ _ Hch) as [_ [Hmw]]. destruct (Hmw p Hp) as (_ & Hnd & Hin).
  split_and!; [done..| |by rewrite length_fmap|].
  - apply (sublist_NoDup _ _ Hnd), fmap_sublist, sublist_filter.
  - intros x [[y w] [-> [Hw Hy]%list_elem_of_filter]]%list_elem_of_fmap. cbn in Hw. subst w. cbn [fst].
    split; [apply Hin, list_elem_of_fmap; by exists (y, Approve)|]. rewrite Hcap.
    apply (history_votes_stand tr ch Hh a c p y Hc); [|done]. unfold proposal_of. by rewrite Hch.
Qed.
End props.

(** ** Concrete histories

    Three members with a threshold of two, a rotation to two of them, and an
    upgrade that two of the three approve. *)
Module Example.
#[local] Existing Instances Toy.curve ToyMove.framework.

Definition m1 : Address := [Byte.x11].
Definition m2 : Address := [Byte.x12].
Definition m3 : Address := [Byte.x13].
Definition element (b : byte) : list byte := Toy.to_bytes b.

(** The objects: the committee, its manager, the key server, the next committee. *)
Definition first : Address := object_address 0.
Definition next : Address := object_address 14.

Definition registration (c : Address) (m : Address) (name : string) : Address * Call :=
  (m, Register c (element Byte.x02) (element Byte.x03) "https://member" name).

Definition pks : list (list byte) := [element Byte.x21; element Byte.x22; element Byte.x23].

Definition registered : list (Address * Call) :=
  [(m1, InitCommittee ([Byte.x05], 1%N) 2 [m1; m2; m3]);
   registration first m2 "two"; registration first m1 "one"; registration first m3 "three"].
Definition proposed : list (Address * Call) :=
  registered ++ [(m3, Propose first pks (element Byte.x07) [Byte.x09])].
Definition approvals : list (Address * Call) :=
  [(m1, Propose first pks (element Byte.x07) [Byte.x09]); (m2, Propose first pks (element Byte.x07) [Byte.x09])].
Definition rotation : list (Address * Call) :=
  [(m2, InitRotation first 2 [m2; m1]); registration next m1 "uno"; registration next m2 "due";
   (m1, ProposeForRotation next (take 2 pks) [Byte.x0a] first);
   (m2, ProposeForRotation next (take 2 pks) [Byte.x0a] first)].

Definition digest : list byte := replicate 32 Byte.x42.
Definition voting : list (Address * Call) :=
  [(m1, ApproveDigestForUpgrade first digest); (m2, RejectDigestForUpgrade first);
   (m3, ApproveDigestForUpgrade first digest)].

Definition chain_after (tr : list (Address * Call)) : Chain :=
  match exec_all genesis tr with Ok ch => ch | _ => genesis end.

Lemma chain_after_history tr : is_ok (exec_all genesis tr) = true → history tr (chain_after tr).
Proof.
  unfold chain_after. destruct (exec_all genesis tr) as [ch| |] eqn:H; [|done..]. intros _.
  exact (exec_all_history [] tr genesis ch history_nil H).
Qed.
End Example.

#[local] Existing Instances Toy.curve ToyMove.framework ToyMove.framework_laws.

(** The rotation leads the key server of the first committee to the next. *)
Lemma key_server_identity_witness :
  ∃ a v, one_server (Example.chain_after ((Example.proposed ++ Example.approvals) ++ Example.rotation))
           (object_address 12) a v (Example.element Byte.x07) ∧
         rotations Example.rotation Example.first 0 a v.
Proof.
  assert (serves (Example.chain_after (Example.proposed ++ Example.approvals)) Example.first
    (object_address 12) 0 (Example.element Byte.x07)
    [KS.mkPartialKeyServer "one" "https://member" (Example.element Byte.x21) 0;
     KS.mkPartialKeyServer "two" "https://member" (Example.element Byte.x22) 1;
     KS.mkPartialKeyServer "three" "https://member" (Example.element Byte.x23) 2]) as Hs.
  { apply serves_of_lookup. vm_compute. reflexivity. }
  assert (history (Example.proposed ++ Example.approvals)
    (Example.chain_after (Example.proposed ++ Example.approvals))) as H1.
  { apply Example.chain_after_history. vm_compute. reflexivity. }
  assert (history ((Example.proposed ++ Example.approvals) ++ Example.rotation)
    (Example.chain_after ((Example.proposed ++ Example.approvals) ++ Example.rotation))) as H2.
  { apply Example.chain_after_history. vm_compute. reflexivity. }
  exact (key_server_identity _ _ _ _ _ _ _ _ _ H1 H2 Hs).
Defined.

(** After the first member, the others complete the proposal, last first. *)
Lemma remaining_approvals_finalize_witness :
  ∃ ch' k v l, exec_all (Example.chain_after Example.proposed)
      ((λ m, (m, Propose Example.first Example.pks (Example.element Byte.x07) [Byte.x09])) <$>
         [Example.m2; Example.m1]) = Ok ch' ∧
    serves ch' Example.first k v (Example.element Byte.x07) l.
Proof.
  pose (view := λ c : Committee, (proposed_pk c, members c, old_committee_id c,
    match state c with PostDKG _ pks _ h ap => (pks, h, ap) | _ => ([], [], []) end)).
  assert (view <$> ch_committees (Example.chain_after Example.proposed) !! Example.first =
    Some (Some (Example.element Byte.x07), [Example.m1; Example.m2; Example.m3], None,
          (Example.pks, [Byte.x09], [Example.m3]))) as Hview by (vm_compute; reflexivity).
  apply fmap_Some in Hview as (c & Hc & Hv). unfold view, proposed_pk in Hv.
  destruct (state c) as [|mi pks pk h ap|] eqn:Hst; [done| |done].
  symmetry in Hv. injection Hv as -> Hm Ho -> -> ->.
  assert (history Example.proposed (Example.chain_after Example.proposed)) as H1.
  { apply Example.chain_after_history. vm_compute. reflexivity. }
  destruct (remaining_approvals_finalize _ _ Example.first c mi Example.pks
    (Example.element Byte.x07) [Byte.x09] [Example.m3] [Example.m2; Example.m1] H1 Hc Hst) as (ch' & k & v & l & Hex & Hs & _).
  - intros o. congruence.
  - by apply (bool_decide_unpack _).
  - intros m. rewrite Hm. unfold Example.m1, Example.m2, Example.m3.
    rewrite !elem_of_cons, !elem_of_nil. naive_solver.
  - exists ch', k, v, l. rewrite Ho in Hex. done.
Defined.

(** Two of the three members approved the digest and the third rejected it. *)
Lemma upgrades_need_threshold_witness :
  ∃ voters, NoDup voters ∧ 2 ≤ length voters ∧
    ∀ m, m ∈ voters → stands (Example.proposed ++ Example.approvals ++ Example.voting) Example.first m
                        Example.digest.
Proof.
  assert (history (Example.proposed ++ Example.approvals ++ Example.voting)
    (Example.chain_after (Example.proposed ++ Example.approvals ++ Example.voting))) as H1.
  { apply Example.chain_after_history. vm_compute. reflexivity. }
  destruct (exec (Example.chain_after (Example.proposed ++ Example.approvals ++ Example.voting)) Example.m2
    (AuthorizeUpgrade Example.first)) as [ch'|e|] eqn:Hex;
    [|apply (f_equal is_ok) in Hex; vm_compute in Hex; discriminate Hex..].
  destruct (upgrades_need_threshold _ _ Example.m2 Example.first ch' H1 Hex)
    as (c & ticket & voters & Hc & _ & Ht & Hnd & Hle & Hv).
  assert (threshold <$> ch_committees (Example.chain_after (Example.proposed ++ Example.approvals
    ++ Example.voting)) !! Example.first = Some 2%N) as Hth by (vm_compute; reflexivity).
  rewrite Hc in Hth. injection Hth as Hth.
  assert (ch_tickets <$> exec (Example.chain_after (Example.proposed ++ Example.approvals ++ Example.voting))
    Example.m2 (AuthorizeUpgrade Example.first) = Ok [Example.digest]) as Htk by (vm_compute; reflexivity).
  rewrite Hex in Htk. injection Htk as Htk. rewrite Htk in Ht.
  apply (f_equal head) in Ht. injection Ht as <-.
  exists voters. split_and!; [done|rewrite Hth in Hle; lia|]. intros m Hm. by apply Hv.
Defined.
