(* ===== verification/MoveReadable.v ===== *)
(** * The committees of the chain as the Rust tools read them

    The objects of the contract, with their group elements decoded, are the
    values of [seal-committee]'s [move_types.rs]. Whatever the history of the
    chain, the accessors the tools are built on succeed on them, and give
    each member its own entry. *)

From Stdlib Require Import NArith Lia.
From stdpp Require Import pretty.
From S2P Require Import Prelude Utils Primitives Ibe Common Chain Committee MoveLib MoveKeyServer.
From S2P Require Import MoveCommittee MoveCommitteeTheory MoveChain MoveCommitteeProps.

(** ** What the Rust types hold *)
Section view.
  Context {crv : Curve} {fw : MoveFramework}.

Definition rust_member (info : SC.MemberInfo) : option MemberInfo :=
  enc_pk ← g1_from_bytes (SC.enc_pk info);
  signing_pk ← g2_from_bytes (SC.signing_pk info);
  Some (mkMemberInfo enc_pk signing_pk (SC.url info) (SC.name info)).

Definition rust_members (mi : list (Address * SC.MemberInfo)) : option (list (Address * MemberInfo)) :=
  mapM (λ '(a, info), pair a <$> rust_member info) mi.

Definition rust_state (s : SC.State) : option CommitteeState :=
  match s with
  | SC.Init mi => Init <$> rust_members mi
  | SC.PostDKG mi partial_pks pk h approvals =>
      (λ mi, PostDKG mi partial_pks pk h approvals) <$> rust_members mi
  | SC.Finalized => Some Finalized
  end.

Definition rust_committee (c : SC.Committee) : option SealCommittee :=
  (λ s, mkSealCommittee (SC.id c) (SC.threshold c) (SC.members c) s (SC.old_committee_id c))
    <$> rust_state (SC.state c).

Definition rust_partial_server (p : KS.PartialKeyServer) : option PartialKeyServer :=
  (λ g, mkPartialKeyServer (KS.pks_name p) (KS.pks_url p) g (KS.pks_party_id p))
    <$> g2_from_bytes (KS.pks_partial_pk p).

Definition rust_server (ks : KS.KeyServer) : option KeyServerV2 :=
  match KS.ks_fields ks !! KS.V2 with
  | Some (KS.FieldV2 v2) =>
      mkKeyServerV2 (KS.v2_name v2) (u8_of (KS.v2_key_type v2)) (KS.v2_pk v2) <$>
        match KS.v2_server_type v2 with
        | KS.Independent url => Some (Independent url)
        | KS.Committee v t l => CommitteeServer v t <$> mapM rust_partial_server l
        end
  | _ => None
  end.
End view.

Section readable.
  Context {crv : Curve} {fw : MoveFramework} {laws : MoveFrameworkLaws}.
  Context (state_debug : CommitteeState → string) {sui : SuiTypes}.

Lemma rust_members_ok ms mi :
  info_wf ms mi → ∃ rmi, rust_members mi = Some rmi ∧ rmi.*1 = mi.*1 ∧
    (λ e, mi_name e.2) <$> rmi = (λ e, SC.name e.2) <$> mi.
Proof.
  intros Hw. pose proof (iw_valid _ _ Hw) as Hv. clear Hw.
  assert (∃ rmi, Forall2 (λ '(a, info) y, pair a <$> rust_member info = Some y) mi rmi ∧ rmi.*1 = mi.*1 ∧
    (λ e, mi_name e.2) <$> rmi = (λ e, SC.name e.2) <$> mi) as (rmi & Hf & H1 & H2).
  { induction mi as [|[a info] mi IH]; [by exists []|].
    destruct (Hv a info) as [[e He] [s Hs]]; [by left|].
    destruct IH as (rmi & Hr & H1 & H2); [intros b i Hb; apply (Hv b); by right|].
    exists ((a, mkMemberInfo e s (SC.url info) (SC.name info)) :: rmi). csimpl. rewrite H1, H2.
    split_and!; [|done..]. constructor; [|done]. unfold rust_member. by rewrite He; cbn; rewrite Hs. }
  exists rmi. split_and!; [|done..]. apply mapM_Some. eapply Forall2_impl; [done|]. by intros [a info] y.
Qed.

(** Every member's entry: its index is its party id. *)
Lemma get_members_info_ok (rc : SealCommittee) mi :
  (sc_state rc = Init mi ∨ ∃ pks pk h ap, sc_state rc = PostDKG mi pks pk h ap) →
  NoDup mi.*1 → NoDup (sc_members rc) → (N.of_nat (length (sc_members rc)) < 65535)%N →
  (∀ m, m ∈ sc_members rc → m ∈ mi.*1) →
  ∃ infos, get_members_info state_debug rc = Ok infos ∧
    ∀ i m, sc_members rc !! i = Some m → ∃ info p, (m, info) ∈ mi ∧ infos !! m = Some p ∧
      pmi_name p = mi_name info ∧ pmi_party_id p = N.of_nat i ∧ pmi_address p = m.
Proof.
  intros Hst Hnd Hms Hlen Hin. unfold get_members_info.
  assert (match sc_state rc with
    | Init members_info => Ok members_info
    | PostDKG members_info _ _ _ _ => Ok members_info
    | _ => Err ("Invalid committee state " +:+ address_to_string (sc_id rc) +:+ ": "
             +:+ state_debug (sc_state rc)) end = Ok (E := string) mi) as ->.
  { by destruct Hst as [->|(? & ? & ? & ? & ->)]. }
  unfold mbind at 1, outcome_bind at 1.
  destruct (try_map_ok (λ '(party_id, member_addr),
      info ← ok_or ((hashmap_collect mi : gmap Address MemberInfo) !! member_addr)
        ("Member " +:+ address_to_string member_addr +:+ " not registered in committee "
           +:+ address_to_string (sc_id rc)
           +:+ ". Do not init DKG before all members register.");
      Ok (E := string) (member_addr, mkParsedMemberInfo (mi_name info) (as_u16 party_id) member_addr
            (mi_enc_pk info) (mi_signing_pk info)))
    (λ e q, q.1 = e.2 ∧ ∃ info, (e.2, info) ∈ mi ∧ pmi_name q.2 = mi_name info ∧
       pmi_party_id q.2 = as_u16 e.1 ∧ pmi_address q.2 = e.2) (enumerate (sc_members rc)))
    as (entries & Hmap & Hall).
  { intros [i m] Him%elem_of_enumerate.
    assert (∃ info, (m, info) ∈ mi) as [info Hi].
    { apply list_elem_of_lookup_2, Hin, list_elem_of_fmap in Him as ([? info] & -> & ?). by exists info. }
    rewrite (proj2 (hashmap_collect_lookup mi m info Hnd) Hi). eexists. split; [reflexivity|].
    split; [done|]. exists info. done. }
  rewrite Hmap. eexists. split; [reflexivity|]. intros i m Him.
  assert (entries.*1 = sc_members rc) as Hfst.
  { rewrite <-(snd_enumerate (sc_members rc)). clear -Hall.
    induction Hall as [|? ? ? ? [? _] ? IH]; csimpl; congruence. }
  assert (∃ q, entries !! i = Some q ∧ q.1 = m ∧ ∃ info, (m, info) ∈ mi ∧ pmi_name q.2 = mi_name info ∧
     pmi_party_id q.2 = as_u16 i ∧ pmi_address q.2 = m) as ([m' p] & Hq & Hm' & info & Hi & Hn & Hp & Ha).
  { assert (enumerate (sc_members rc) !! i = Some (i, m)) as He.
    { unfold enumerate. apply lookup_zip_with_Some. exists i, m. split_and!; [done| |done].
      apply lookup_seq. split; [done|]. by apply lookup_lt_Some in Him. }
    destruct (Forall2_lookup_l _ _ _ _ _ Hall He) as (q & Hq & Hq1 & Hq2). by exists q. }
  simpl in *. subst m'. exists info, p. split_and!; try done.
  - apply hashmap_collect_lookup; [by rewrite Hfst|]. by eapply list_elem_of_lookup_2.
  - rewrite Hp. apply as_u16_small. apply lookup_lt_Some in Him. lia.
Qed.

Lemma rust_partial_servers_ok l :
  (∀ p, p ∈ l → valid_g2 (KS.pks_partial_pk p)) →
  ∃ rl, mapM rust_partial_server l = Some rl ∧
    Forall2 (λ p r, pks_name r = KS.pks_name p ∧ pks_party_id r = KS.pks_party_id p) l rl.
Proof.
  intros Hv. assert (∃ rl, Forall2 (λ p r, rust_partial_server p = Some r) l rl ∧
    Forall2 (λ p r, pks_name r = KS.pks_name p ∧ pks_party_id r = KS.pks_party_id p) l rl) as (rl & H1 & H2).
  { induction l as [|p l IH]; [exists []; by split|].
    destruct IH as (rl & H1 & H2); [intros q Hq; apply Hv; by right|].
    destruct (Hv p) as [g Hg]; [by left|].
    exists (mkPartialKeyServer (KS.pks_name p) (KS.pks_url p) g (KS.pks_party_id p) :: rl).
    split; constructor; try done. unfold rust_partial_server. by rewrite Hg. }
  exists rl. split; [by apply mapM_Some|done].
Qed.

(** The partial servers of a committee, by member. *)
Lemma to_partial_key_servers_ok rks v t rl (ms : list Address) :
  ks_server_type rks = CommitteeServer v t rl → NoDup ms → length rl = length ms →
  (∀ i r, rl !! i = Some r → pks_party_id r = N.of_nat i) →
  ∃ servers, to_partial_key_servers rks ms = Ok servers ∧
    ∀ m x, servers !! m = Some x ↔ ∃ i r, ms !! i = Some m ∧ rl !! i = Some r ∧
      x = mkPartialKeyServerInfo (pks_party_id r) (pks_partial_pk r) (pks_name r) (pks_url r).
Proof.
  intros Ht Hnd Hl Hp. unfold to_partial_key_servers. rewrite Ht.
  pose (entry := λ r, mkPartialKeyServerInfo (pks_party_id r) (pks_partial_pk r) (pks_name r) (pks_url r)).
  match goal with |- context [try_map ?f rl] =>
    destruct (try_map_ok f (λ r e, ∃ m, ms !! N.to_nat (pks_party_id r) = Some m ∧ e = (m, entry r)) rl)
      as (entries & Hmap & Hall) end.
  { intros r [i Hi]%list_elem_of_lookup. rewrite (Hp i r Hi), Nat2N.id.
    destruct (lookup_lt_is_Some_2 ms i) as [m Hm]; [rewrite <-Hl; by apply lookup_lt_Some in Hi|].
    rewrite Hm. eexists. split; [reflexivity|]. exists m. rewrite <-(Hp i r Hi). done. }
  rewrite Hmap. eexists. split; [reflexivity|].
  assert (∀ i r, rl !! i = Some r → ∃ m, ms !! i = Some m ∧ entries !! i = Some (m, entry r)) as Hent.
  { intros i r Hr. destruct (Forall2_lookup_l _ _ _ _ _ Hall Hr) as (e & He & m & Hm & ->).
    exists m. by rewrite (Hp i r Hr), Nat2N.id in Hm. }
  assert (entries.*1 = ms) as Hfst.
  { apply list_eq. intros i. rewrite list_lookup_fmap. destruct (rl !! i) as [r|] eqn:Hr.
    - destruct (Hent i r Hr) as (m & -> & ->). done.
    - apply lookup_ge_None in Hr. pose proof (Forall2_length _ _ _ Hall).
      rewrite !(proj2 (lookup_ge_None _ _)); [done|lia..]. }
  intros m x. rewrite hashmap_collect_lookup by (by rewrite Hfst). rewrite list_elem_of_lookup. split.
  - intros [i Hi]. destruct (lookup_lt_is_Some_2 rl i) as [r Hr].
    { pose proof (Forall2_length _ _ _ Hall). apply lookup_lt_Some in Hi. lia. }
    destruct (Hent i r Hr) as (m' & Hm & He). rewrite Hi in He. injection He as <- ->. by exists i, r.
  - intros (i & r & Hm & Hr & ->). exists i. destruct (Hent i r Hr) as (m' & Hm' & ->).
    by assert (m' = m) as -> by congruence.
Qed.

Definition registered (c : SC.Committee) : Prop :=
  match SC.state c with
  | SC.Init mi | SC.PostDKG mi _ _ _ _ => length mi = length (SC.members c)
  | SC.Finalized => False
  end.

Lemma state_readable c :
  committee_wf c → ∃ s, rust_state (SC.state c) = Some s ∧ (registered c → ∃ mi,
    (s = Init mi ∨ ∃ pks pk h ap, s = PostDKG mi pks pk h ap) ∧ NoDup mi.*1 ∧
    ∀ m, m ∈ SC.members c → m ∈ mi.*1).
Proof.
  intros Hcw. pose proof (cw_state _ Hcw) as Hst. pose proof (cw_members _ Hcw) as Hnd.
  unfold state_wf, registered in *. destruct (SC.state c) as [mi|mi pks pk h ap|]; [| |by eexists].
  - destruct (rust_members_ok _ mi Hst) as (rmi & Hr & H1 & _). cbn. rewrite Hr. eexists. split; [done|].
    intros Hl. exists rmi. rewrite H1. split_and!; [by left|apply Hst|].
    intros m Hm. by apply (info_wf_complete (SC.members c)).
  - destruct Hst as [Hp _]. destruct (rust_members_ok _ mi (pw_info _ _ _ _ _ Hp)) as (rmi & Hr & H1 & _).
    cbn. rewrite Hr. eexists. split; [done|]. intros Hl. exists rmi. rewrite H1.
    split_and!; [right; by eexists _, _, _, _|apply Hp|].
    intros m Hm. apply (info_wf_complete (SC.members c)); [done|apply Hp|done..].
Qed.

(** The key server of a committee, as the Rust tools read it. *)
Lemma server_readable c ks v pk l :
  committee_wf c → server_wf c ks v pk l →
  ∃ rks rl servers, rust_server ks = Some rks ∧
    ks_server_type rks = CommitteeServer v (SC.threshold c) rl ∧ ks_pk rks = pk ∧
    to_partial_key_servers rks (SC.members c) = Ok servers ∧
    (∀ i m, SC.members c !! i = Some m → ∃ info, servers !! m = Some info ∧ pki_party_id info = N.of_nat i) ∧
    (∀ m m' x y, servers !! m = Some x → servers !! m' = Some y → pki_name x = pki_name y → m = m').
Proof.
  intros Hwf [_ _ [n Hn] _ Hs Hlen Hv]. destruct (rust_partial_servers_ok l Hv) as (rl & Hmap & Hall).
  assert (∀ i r, rl !! i = Some r → ∃ p, l !! i = Some p ∧ pks_name r = KS.pks_name p ∧
    pks_party_id r = N.of_nat i) as Hrl.
  { intros i r Hr. destruct (Forall2_lookup_r _ _ _ _ _ Hall Hr) as (p & Hp & Hnm & ->). exists p.
    split_and!; [done..|]. by apply (KS.sw_party _ _ Hs). }
  pose proof (Forall2_length _ _ _ Hall) as Hrlen.
  pose (rks := mkKeyServerV2 n (u8_of 0) pk (CommitteeServer v (SC.threshold c) rl)).
  destruct (to_partial_key_servers_ok rks v (SC.threshold c) rl (SC.members c)) as (servers & Hsv & Hel);
    [done|apply Hwf|congruence|by intros i r (p & _ & _ & ?)%Hrl|].
  exists rks, rl, servers. split_and!; try done.
  - unfold rust_server. rewrite Hn, lookup_singleton_eq. cbn [KS.v2_server_type]. by rewrite Hmap.
  - intros i m Hm. destruct (lookup_lt_is_Some_2 rl i) as [r Hr].
    { rewrite <-Hrlen, Hlen. by apply lookup_lt_Some in Hm. }
    eexists. split; [apply Hel; by exists i, r|]. cbn. by destruct (Hrl i r Hr) as (_ & _ & _ & ->).
  - intros m m' x y (i & r & Hm & Hr & ->)%Hel (j & r' & Hm' & Hr' & ->)%Hel. cbn. intros Heq.
    destruct (Hrl i r Hr) as (p & Hp & Hnp & _). destruct (Hrl j r' Hr') as (q & Hq & Hnq & _).
    assert (i = j) as ->; [|congruence].
    apply (NoDup_lookup _ i j (KS.pks_name p) (KS.sw_names _ _ Hs)); rewrite list_lookup_fmap.
    + by rewrite Hp.
    + rewrite Hq. simpl. congruence.
Qed.

(** ** Properties *)

(** C35: whatever happened on the chain, the Rust tools can read each
    committee and its key server: once all members have registered, every
    member has its entry with its index as party id; and the partial servers
    of a key server go to the members one to one, each with the party id
    that [get_party_id] gives the member, and no two under the same name. *)
Theorem committees_readable tr ch a c :
  SC.history tr ch → SC.ch_committees ch !! a = Some c →
  ∃ rc, rust_committee c = Some rc ∧
    (registered c → ∃ infos, get_members_info state_debug rc = Ok infos ∧
       ∀ i m, sc_members rc !! i = Some m → ∃ p, infos !! m = Some p ∧ pmi_party_id p = N.of_nat i ∧
         pmi_address p = m) ∧
    (∀ k v pk l, serves ch a k v pk l → ∃ ks rks rl servers, server c = Some ks ∧ rust_server ks = Some rks ∧
       ks_server_type rks = CommitteeServer v (sc_threshold rc) rl ∧ ks_pk rks = pk ∧
       to_partial_key_servers rks (sc_members rc) = Ok servers ∧
       (∀ i m, sc_members rc !! i = Some m → ∃ info, servers !! m = Some info ∧
          pki_party_id info = N.of_nat i ∧ get_party_id rc m = Ok (N.of_nat i)) ∧
       ∀ m m' x y, servers !! m = Some x → servers !! m' = Some y → pki_name x = pki_name y → m = m').
Proof.
  intros Hh Ha. pose proof (history_wf _ _ Hh) as Hwf. destruct (cw_committee _ _ Hwf a c Ha) as (_ & Hcw & _).
  pose proof (cw_length _ Hcw) as Hlen. pose proof (cw_members _ Hcw) as Hnd.
  destruct (state_readable c Hcw) as (s & Hs & Hreg).
  eexists. split; [unfold rust_committee; by rewrite Hs|]. cbn [sc_members sc_threshold]. split.
  - intros (mi & Hsm & Hk & Hin)%Hreg.
    destruct (get_members_info_ok (mkSealCommittee (SC.id c) (SC.threshold c) (SC.members c) s
      (SC.old_committee_id c)) mi) as (infos & Hi & Hall); [done..|].
    exists infos. split; [done|]. intros i m Hm. destruct (Hall i m Hm) as (info & p & _ & Hp & _ & ? & ?).
    by exists p.
  - intros k v pk l Hsv. destruct (serves_inv _ _ _ _ _ _ Hwf Hsv) as (c' & ks & Ha' & _ & Hks & _ & Hw).
    assert (c' = c) as -> by congruence.
    destruct (server_readable c ks v pk l Hcw Hw) as (rks & rl & servers & H1 & H2 & H3 & H4 & H5 & H6).
    exists ks, rks, rl, servers. split_and!; try done. intros i m Hm. destruct (H5 i m Hm) as (info & Hi & Hp).
    exists info. split_and!; [done..|]. unfold get_party_id. cbn [sc_members sc_id].
    rewrite (proj2 (position_NoDup _ _ i Hnd) Hm). cbn. rewrite as_u16_small; [done|].
    apply lookup_lt_Some in Hm. lia.
Qed.
End readable.

#[local] Existing Instances Toy.curve ToyMove.framework ToyMove.framework_laws ToyChain.sui.

(** The three members before and the two members after the rotation. *)
Lemma committees_readable_witness :
  ∃ rc ks rks servers, get_party_id rc Example.m1 = Ok 1%N ∧ rust_server ks = Some rks ∧
    to_partial_key_servers rks [Example.m2; Example.m1] = Ok servers ∧
    pki_party_id <$> servers !! Example.m1 = Some 1%N.
Proof.
  pose (tr := (Example.proposed ++ Example.approvals) ++ Example.rotation).
  assert (SC.history tr (Example.chain_after tr)) as H1.
  { apply Example.chain_after_history. vm_compute. reflexivity. }
  assert (SC.members <$> SC.ch_committees (Example.chain_after tr) !! Example.next =
    Some [Example.m2; Example.m1]) as Hm by (vm_compute; reflexivity).
  apply fmap_Some in Hm as (c & Hc & Hm).
  assert (serves (Example.chain_after tr) Example.next (object_address 12) 1 (Example.element Byte.x07)
    [KS.mkPartialKeyServer "due" "https://member" (Example.element Byte.x21) 0;
     KS.mkPartialKeyServer "uno" "https://member" (Example.element Byte.x22) 1]) as Hs.
  { apply serves_of_lookup. vm_compute. reflexivity. }
  destruct (committees_readable (λ _, "") tr _ Example.next c H1 Hc) as (rc & Hrc & _ & Hsv).
  destruct (Hsv _ _ _ _ Hs) as (ks & rks & rl & servers & _ & Hrks & _ & _ & Hto & Hall & _).
  assert (sc_members rc = [Example.m2; Example.m1]) as Hmem.
  { unfold rust_committee in Hrc. apply fmap_Some in Hrc as (s & _ & ->).
    cbn [sc_members]. symmetry. exact Hm. }
  rewrite Hmem in *. destruct (Hall 1 Example.m1 eq_refl) as (info & Hi & Hp & Hg).
  exists rc, ks, rks, servers. rewrite Hi. cbn [fmap option_fmap option_map]. rewrite Hp.
  split; [exact Hg|]. split; [exact Hrks|]. split; [exact Hto|reflexivity].
Defined.
