(* ===== verification/MoveCrypto.v ===== *)
(** * The cryptography of on-chain decryption ([move/seal/sources/]: [gf256.move],
    [polynomial.move], [hmac256ctr.move], [kdf.move])

    What [bf_hmac_encryption.move] computes with, next to the Rust functions of
    the same names. The field aborts where the Rust code returns an error or
    asserts, and polynomials are interpolated with precomputed numerators and
    weights; the lemmas show that the results are those of the Rust code. An
    index that is out of range and an arithmetic overflow abort ([Panic]). *)

From Stdlib Require Import NArith Lia Ring Field.
From Stdlib Require Import Strings.Byte.
From S2P Require Import Prelude Gf256 Polynomial Utils Tss Primitives Dem Elgamal Ibe Common Chain MoveLib.

(** ** Vectors *)

(** Indexing a vector. *)
Definition borrow {A : Type} (l : list A) (i : nat) : outcome N A := expect (l !! i).

(** The macros that loop: [fold!], [do!] over a range with the variables it
    assigns as accumulator. *)
Fixpoint move_fold {A B : Type} (f : A → B → outcome N A) (a : A) (l : list B) : outcome N A :=
  match l with
  | [] => Ok a
  | b :: l => a ← f a b; move_fold f a l
  end.

(** [zip_map_ref!] aborts on vectors of different lengths. *)
Definition zip_map {A B C : Type} (f : A → B → outcome N C) (l : list A) (k : list B) :
    outcome N (list C) :=
  if length l =? length k then try_map (λ '(a, b), f a b) (zip l k) else Panic.

(** [find_indices!] *)
Definition find_indices {A : Type} (f : A → bool) (l : list A) : list nat :=
  (List.filter (λ '(_, a), f a) (enumerate l)).*1.

(** [range_do_eq!]: both ends included, nothing when they cross. *)
Definition range_eq (start stop : nat) : list nat := seq start (S stop - start).

(** The subtraction of unsigned integers. *)
Definition move_sub (a b : N) : outcome N N := if (b <=? a)%N then Ok (a - b)%N else Panic.

(** ** gf256.move *)
Module GF.
Definition ELogOfZero : N := 1.
Definition EDivideByZero : N := 2.
Definition MULTIPLICATIVE_GROUP_SIZE : N := 255.

Definition EXP : list byte :=
  [x01; x03; x05; x0f; x11; x33; x55; xff; x1a; x2e; x72; x96; xa1; xf8; x13; x35;
   x5f; xe1; x38; x48; xd8; x73; x95; xa4; xf7; x02; x06; x0a; x1e; x22; x66; xaa;
   xe5; x34; x5c; xe4; x37; x59; xeb; x26; x6a; xbe; xd9; x70; x90; xab; xe6; x31;
   x53; xf5; x04; x0c; x14; x3c; x44; xcc; x4f; xd1; x68; xb8; xd3; x6e; xb2; xcd;
   x4c; xd4; x67; xa9; xe0; x3b; x4d; xd7; x62; xa6; xf1; x08; x18; x28; x78; x88;
   x83; x9e; xb9; xd0; x6b; xbd; xdc; x7f; x81; x98; xb3; xce; x49; xdb; x76; x9a;
   xb5; xc4; x57; xf9; x10; x30; x50; xf0; x0b; x1d; x27; x69; xbb; xd6; x61; xa3;
   xfe; x19; x2b; x7d; x87; x92; xad; xec; x2f; x71; x93; xae; xe9; x20; x60; xa0;
   xfb; x16; x3a; x4e; xd2; x6d; xb7; xc2; x5d; xe7; x32; x56; xfa; x15; x3f; x41;
   xc3; x5e; xe2; x3d; x47; xc9; x40; xc0; x5b; xed; x2c; x74; x9c; xbf; xda; x75;
   x9f; xba; xd5; x64; xac; xef; x2a; x7e; x82; x9d; xbc; xdf; x7a; x8e; x89; x80;
   x9b; xb6; xc1; x58; xe8; x23; x65; xaf; xea; x25; x6f; xb1; xc8; x43; xc5; x54;
   xfc; x1f; x21; x63; xa5; xf4; x07; x09; x1b; x2d; x77; x99; xb0; xcb; x46; xca;
   x45; xcf; x4a; xde; x79; x8b; x86; x91; xa8; xe3; x3e; x42; xc6; x51; xf3; x0e;
   x12; x36; x5a; xee; x29; x7b; x8d; x8c; x8f; x8a; x85; x94; xa7; xf2; x0d; x17;
   x39; x4b; xdd; x7c; x84; x97; xa2; xfd; x1c; x24; x6c; xb4; xc7; x52; xf6].

Definition LOG : list byte :=
  [x00; x19; x01; x32; x02; x1a; xc6; x4b; xc7; x1b; x68; x33; xee; xdf; x03; x64;
   x04; xe0; x0e; x34; x8d; x81; xef; x4c; x71; x08; xc8; xf8; x69; x1c; xc1; x7d;
   xc2; x1d; xb5; xf9; xb9; x27; x6a; x4d; xe4; xa6; x72; x9a; xc9; x09; x78; x65;
   x2f; x8a; x05; x21; x0f; xe1; x24; x12; xf0; x82; x45; x35; x93; xda; x8e; x96;
   x8f; xdb; xbd; x36; xd0; xce; x94; x13; x5c; xd2; xf1; x40; x46; x83; x38; x66;
   xdd; xfd; x30; xbf; x06; x8b; x62; xb3; x25; xe2; x98; x22; x88; x91; x10; x7e;
   x6e; x48; xc3; xa3; xb6; x1e; x42; x3a; x6b; x28; x54; xfa; x85; x3d; xba; x2b;
   x79; x0a; x15; x9b; x9f; x5e; xca; x4e; xd4; xac; xe5; xf3; x73; xa7; x57; xaf;
   x58; xa8; x50; xf4; xea; xd6; x74; x4f; xae; xe9; xd5; xe7; xe6; xad; xe8; x2c;
   xd7; x75; x7a; xeb; x16; x0b; xf5; x59; xcb; x5f; xb0; x9c; xa9; x51; xa0; x7f;
   x0c; xf6; x6f; x17; xc4; x49; xec; xd8; x43; x1f; x2d; xa4; x76; x7b; xb7; xcc;
   xbb; x3e; x5a; xfb; x60; xb1; x86; x3b; x52; xa1; x6c; xaa; x55; x29; x9d; x97;
   xb2; x87; x90; x61; xbe; xdc; xfc; xbc; x95; xcf; xcd; x37; x3f; x5b; xd1; x53;
   x39; x84; x3c; x41; xa2; x6d; x47; x14; x2a; x9e; x5d; x56; xf2; xd3; xab; x44;
   x11; x92; xd9; x23; x20; x2e; x89; xb4; x7c; xb8; x26; x77; x99; xe3; xa5; x67;
   x4a; xed; xde; xc5; x31; xfe; x18; x0d; x63; x8c; x80; xc0; xf7; x70; x07].

Record GF256 : Type := mkGF256 {
  exp_table : list byte;
  log_table : list byte;
}.

Definition new : GF256 := mkGF256 EXP LOG.

Definition log (self : GF256) (x : byte) : outcome N N :=
  _ ← move_assert (negb (bool_decide (x = u8_zero))) ELogOfZero;
  y ← borrow (log_table self) (N.to_nat (u8_val x - 1));
  Ok (u8_val y).

Definition exp (self : GF256) (x : N) : outcome N byte :=
  borrow (exp_table self) (N.to_nat (x mod MULTIPLICATIVE_GROUP_SIZE)).

Definition add (x y : byte) : byte := byte_xor x y.
Definition sub (x y : byte) : byte := add x y.

Definition mul (self : GF256) (x y : byte) : outcome N byte :=
  if bool_decide (x = u8_zero) || bool_decide (y = u8_zero) then Ok u8_zero
  else
    log_x ← log self x;
    log_y ← log self y;
    s ← move_uint 16 (log_x + log_y);
    exp self s.

Definition div (self : GF256) (x y : byte) : outcome N byte :=
  _ ← move_assert (negb (bool_decide (y = u8_zero))) EDivideByZero;
  if bool_decide (x = u8_zero) then Ok u8_zero
  else
    log_x ← log self x;
    s ← move_uint 16 (log_x + MULTIPLICATIVE_GROUP_SIZE);
    log_y ← log self y;
    d ← move_sub s log_y;
    exp self d.
End GF.

(** ** polynomial.move

    Indices are subtracted only where the loops keep them in range. *)
Module MP.
Definition EIncompatibleInputLengths : N := 1.

Record Polynomial : Type := mkPolynomial { coefficients : list byte }.

Definition evaluate_with_g (g : GF.GF256) (p : Polynomial) (x : byte) : outcome N byte :=
  if bool_decide (coefficients p = []) then Ok u8_zero
  else
    let n := length (coefficients p) in
    result ← borrow (coefficients p) (n - 1);
    move_fold (λ result i,
        m ← GF.mul g result x;
        c ← borrow (coefficients p) (n - i - 2);
        Ok (GF.add m c))
      result (seq 0 (n - 1)).

Definition evaluate (p : Polynomial) (x : byte) : outcome N byte :=
  evaluate_with_g GF.new p x.

Definition get_constant_term (p : Polynomial) : byte :=
  match coefficients p with [] => u8_zero | c :: _ => c end.

Definition degree (p : Polynomial) : nat :=
  match last (find_indices (λ c, negb (bool_decide (c = u8_zero))) (coefficients p)) with
  | None => 0
  | Some i => i
  end.

Definition div_by_monic_linear (g : GF.GF256) (x : Polynomial) (c : byte) :
    outcome N Polynomial :=
  let n := length (coefficients x) in
  coefficients ←
    (if 1 <? n then
      previous ← borrow (coefficients x) (n - 1);
      '(_, cs) ← move_fold (λ '(previous, cs) i,
          a ← borrow (coefficients x) (n - i - 1);
          m ← GF.mul g previous c;
          let previous := GF.sub a m in
          Ok (previous, cs ++ [previous]))
        (previous, [previous]) (range_eq 1 (n - 2));
      Ok (rev cs)
    else Ok []);
  Ok (mkPolynomial coefficients).

Definition compute_weights (g : GF.GF256) (x : list byte) : outcome N (list byte) :=
  try_map (λ xj,
    move_fold (λ acc xi,
        if bool_decide (xi = xj) then Ok acc else GF.div g acc (GF.sub xj xi))
      x01 x) x.

Definition scale (g : GF.GF256) (x : Polynomial) (s : byte) : outcome N Polynomial :=
  cs ← try_map (λ c, GF.mul g c s) (coefficients x);
  Ok (mkPolynomial cs).

(** [add], when [x] is the longer vector. *)
Definition add_longer (x y : Polynomial) : outcome N Polynomial :=
  let x_length := length (coefficients x) in
  let y_length := length (coefficients y) in
  cs ← try_map (λ i,
      if i <? y_length then
        a ← borrow (coefficients x) i;
        b ← borrow (coefficients y) i;
        Ok (GF.add a b)
      else borrow (coefficients x) i)
    (seq 0 x_length);
  Ok (mkPolynomial cs).

Definition add (x y : Polynomial) : outcome N Polynomial :=
  if length (coefficients x) <? length (coefficients y) then add_longer y x
  else add_longer x y.

Definition mul (g : GF.GF256) (x y : Polynomial) : outcome N Polynomial :=
  let x_length := length (coefficients x) in
  let y_length := length (coefficients y) in
  if bool_decide (coefficients x = []) || bool_decide (coefficients y = []) then
    Ok (mkPolynomial [])
  else
    cs ← try_map (λ i,
        move_fold (λ sum j,
            if (j <? x_length) && (i - j <? y_length) then
              a ← borrow (coefficients x) j;
              b ← borrow (coefficients y) (i - j);
              m ← GF.mul g a b;
              Ok (GF.add sum m)
            else Ok sum)
          u8_zero (range_eq 0 i))
      (seq 0 (x_length + y_length - 1));
    Ok (mkPolynomial cs).

(** x - c *)
Definition monic_linear (c : byte) : Polynomial := mkPolynomial [c; x01].

Definition interpolate_with_numerators (g : GF.GF256) (x y : list byte)
    (numerators : list Polynomial) (weights : list byte) : outcome N Polynomial :=
  let n := length x in
  _ ← move_assert ((length y =? n) && (length numerators =? n) && (length weights =? n))
        EIncompatibleInputLengths;
  move_fold (λ sum j,
      numerator ← borrow numerators j;
      yj ← borrow y j;
      wj ← borrow weights j;
      s ← GF.mul g yj wj;
      term ← scale g numerator s;
      add sum term)
    (mkPolynomial []) (seq 0 n).

Definition compute_numerators (g : GF.GF256) (x : list byte) : outcome N (list Polynomial) :=
  full_numerator ← move_fold (λ product x_j, mul g product (monic_linear x_j))
    (mkPolynomial [x01]) x;
  try_map (λ x_j, div_by_monic_linear g full_numerator x_j) x.

Definition interpolate_all (x : list byte) (y : list (list byte)) :
    outcome N (list Polynomial) :=
  _ ← move_assert (length x =? length y) EIncompatibleInputLengths;
  y0 ← borrow y 0;
  let l := length y0 in
  _ ← move_assert (forallb (λ yi, length yi =? l) y) EIncompatibleInputLengths;
  let g := GF.new in
  weights ← compute_weights g x;
  numerators ← compute_numerators g x;
  try_map (λ i,
      yi ← try_map (λ yj, borrow yj i) y;
      interpolate_with_numerators g x yi numerators weights)
    (seq 0 l).
End MP.

(** ** hmac256ctr.move *)
Module HC.
Section hmac256ctr.
  Context {sym : Symmetric}.

Definition ENC_TAG : list byte := bytes_of "HMAC-CTR-ENC".
Definition MAC_TAG : list byte := bytes_of "HMAC-CTR-MAC".

Definition mac (key aux ciphertext : list byte) : list byte :=
  hmac_sha3_256 key (((MAC_TAG ++ bcs_u64 (N.of_nat (length aux))) ++ aux) ++ ciphertext).

(** The variables that the closure of the loop assigns, and its results. *)
Record Loop : Type := mkLoop {
  next_block : N;
  i : nat;
  current_mask : list byte;
  results : list byte;
}.

Definition decrypt_byte (key : list byte) (s : Loop) (b : byte) : outcome N Loop :=
  '(next_block, current_mask) ←
    (if i s =? 0 then
      next ← move_uint 64 (next_block s + 1);
      Ok (next, hmac_sha3_256 key (ENC_TAG ++ bcs_u64 (next_block s)))
    else Ok (next_block s, current_mask s));
  m ← borrow current_mask (i s);
  Ok (mkLoop next_block (S (i s) mod 32) current_mask (results s ++ [byte_xor b m])).

Definition decrypt (ciphertext mac' aad key : list byte) : outcome N (option (list byte)) :=
  if negb (bool_decide (mac key aad ciphertext = mac')) then Ok None
  else
    s ← move_fold (decrypt_byte key) (mkLoop 0 0 [] []) ciphertext;
    Ok (Some (results s)).
End hmac256ctr.
End HC.

(** ** kdf.move *)
Module KD.
Section kdf.
  Context {sym : Symmetric} {crv : Curve}.

Definition DST_KDF : list byte := bytes_of "SUI-SEAL-IBE-BLS12381-H2-00".
Definition DST_ID : list byte := bytes_of "SUI-SEAL-IBE-BLS12381-00".

Definition kdf (input : GTElement) (nonce : G2Element) (gid : G1Element)
    (object_id : Address) (index : byte) : list byte :=
  sha3_256 (((((DST_KDF ++ gt_to_byte_array input) ++ g2_to_byte_array nonce)
    ++ g1_to_byte_array gid) ++ object_id) ++ [index]).

Definition hash_to_g1_with_dst (id : list byte) : G1Element :=
  hash_to_group_element (DST_ID ++ id).
End kdf.
End KD.

(** ** Lemmas on vectors and loops *)
Lemma borrow_ok {A : Type} (l : list A) i a : l !! i = Some a → borrow l i = Ok a.
Proof. unfold borrow. by intros ->. Qed.

Lemma borrow_inv {A : Type} (l : list A) i a : borrow l i = Ok a → l !! i = Some a.
Proof. unfold borrow. destruct (l !! i); [by intros [= ->]|done]. Qed.

Lemma borrow_nth (l : list byte) i : i < length l → borrow l i = Ok (nth i l u8_zero).
Proof.
  intros [a Ha]%lookup_lt_is_Some. by rewrite (borrow_ok _ _ _ Ha), (nth_lookup_Some _ _ _ _ Ha).
Qed.

(** A loop over a range keeps an invariant. *)
Lemma move_fold_seq {A : Type} (P : nat → A → Prop) (f : A → nat → outcome N A) a k n :
  P k a → (∀ i a, k ≤ i < k + n → P i a → ∃ a', f a i = Ok a' ∧ P (S i) a') →
  ∃ a', move_fold f a (seq k n) = Ok a' ∧ P (k + n) a'.
Proof.
  revert k a. induction n as [|n IH]; intros k a Ha Hf; simpl.
  { exists a. by rewrite Nat.add_0_r. }
  destruct (Hf k a) as (a1 & H1 & HP1); [lia|done|].
  destruct (IH (S k) a1) as (a2 & H2 & HP2); [done| |].
  { intros i b Hi. apply Hf. lia. }
  exists a2. rewrite H1. simpl. split; [done|]. by rewrite Nat.add_succ_r.
Qed.

Lemma move_fold_app {A B : Type} (f : A → B → outcome N A) a l k :
  move_fold f a (l ++ k) = (a ← move_fold f a l; move_fold f a k).
Proof.
  revert a. induction l as [|b l IH]; intros a; [done|]. simpl.
  destruct (f a b); [apply IH|done..].
Qed.

Lemma try_map_pure {E A B : Type} (f : A → outcome E B) (g : A → B) (l : list A) :
  (∀ x, x ∈ l → f x = Ok (g x)) → try_map f l = Ok (g <$> l).
Proof.
  intros H. apply try_map_inv. rewrite Forall2_fmap_r.
  apply Forall_Forall2_diag, Forall_forall, H.
Qed.

Lemma zip_map_pure {A B C : Type} (f : A → B → outcome N C) (g : A → B → C) l k :
  length l = length k → (∀ a b, (a, b) ∈ zip l k → f a b = Ok (g a b)) →
  zip_map f l k = Ok (zip_with g l k).
Proof.
  intros Hl H. unfold zip_map. rewrite Hl, Nat.eqb_refl.
  rewrite (try_map_pure _ (λ '(a, b), g a b)) by (intros [a b]; apply H).
  f_equal. clear H Hl. revert k. induction l as [|a l IH]; intros [|b k]; csimpl; [done..|].
  by rewrite IH.
Qed.

Lemma elem_of_find_indices {A : Type} (f : A → bool) (l : list A) i :
  i ∈ find_indices f l ↔ ∃ a, l !! i = Some a ∧ f a = true.
Proof.
  unfold find_indices. rewrite list_elem_of_fmap. split.
  - intros ([j a] & -> & [Hin Hf]%list_elem_of_In%filter_In). exists a.
    split; [by apply elem_of_enumerate, list_elem_of_In|done].
  - intros (a & Hi & Hf). exists (i, a). split; [done|].
    by apply list_elem_of_In, filter_In; split; [apply list_elem_of_In, elem_of_enumerate|].
Qed.

(** ** The field is that of [gf256.rs] *)
Lemma gf_log_spec x : x ≠ u8_zero → ∃ l, Gf256.log x = Some l ∧ GF.log GF.new x = Ok l.
Proof.
  intros Hx. assert (∀ x, match Gf256.log x, GF.log GF.new x with
    | Some l, Ok l' => (l =? l')%N | None, Err _ => true | _, _ => false end = true) as H
    by by_bytes.
  specialize (H x). destruct (log_nonzero x Hx) as [l Hl]. rewrite Hl in H.
  exists l. split; [done|]. destruct (GF.log GF.new x); [|done..].
  apply N.eqb_eq in H. by subst.
Qed.

Lemma gf_exp_spec n : GF.exp GF.new n = Ok (Gf256.exp n).
Proof.
  unfold GF.exp, Gf256.exp, GF.MULTIPLICATIVE_GROUP_SIZE.
  change (GF.exp_table GF.new) with EXP. rewrite borrow_nth; [done|].
  change (length EXP) with 255. pose proof (N.mod_lt n 255 ltac:(done)). lia.
Qed.

Lemma gf_mul_spec x y : GF.mul GF.new x y = Ok (gf_mul x y).
Proof.
  unfold GF.mul, gf_mul. case_bool_decide as Hx; [by rewrite decide_True by (by left)|].
  case_bool_decide as Hy; [by rewrite decide_True by (by right)|].
  rewrite decide_False by tauto. cbn [orb].
  destruct (gf_log_spec x Hx) as (lx & Hlx & ->), (gf_log_spec y Hy) as (ly & Hly & ->).
  rewrite Hlx, Hly, !bind_Ok. rewrite bind_uint; [apply gf_exp_spec|].
  apply log_check in Hlx as [_ ?], Hly as [_ ?]. lia.
Qed.

Lemma gf_div_spec x y : y ≠ u8_zero → GF.div GF.new x y = Ok (gf_mul x (gf_inv y)).
Proof.
  intros Hy. pose proof (gf_div_inv x y Hy) as H. unfold gf_div in H.
  rewrite decide_False in H by done. unfold GF.div.
  rewrite bind_assert by (by rewrite bool_decide_eq_false_2).
  case_bool_decide as Hx; [by rewrite decide_True in H; [injection H as <-|]|].
  rewrite decide_False in H by done.
  destruct (gf_log_spec x Hx) as (lx & Hlx & ->), (gf_log_spec y Hy) as (ly & Hly & ->).
  rewrite Hlx, Hly in H. injection H as <-. rewrite !bind_Ok.
  apply log_check in Hlx as [_ ?], Hly as [_ ?]. unfold GF.MULTIPLICATIVE_GROUP_SIZE.
  rewrite bind_uint by lia. rewrite bind_Ok. unfold move_sub.
  rewrite (proj2 (N.leb_le _ _)) by lia. rewrite bind_Ok, gf_exp_spec. do 2 f_equal. lia.
Qed.

(** ** Polynomials *)
Lemma peval_drop (p : Polynomial) k x :
  k < length p →
  peval (drop k p) x = gf_add (nth k p u8_zero) (gf_mul x (peval (drop (S k) p) x)).
Proof.
  intros [a Ha]%lookup_lt_is_Some. by rewrite (drop_S _ _ _ Ha), (nth_lookup_Some _ _ _ _ Ha).
Qed.

Lemma peval_last (p : Polynomial) x :
  p ≠ [] → peval (drop (length p - 1) p) x = nth (length p - 1) p u8_zero.
Proof.
  intros Hp. destruct p as [|a p]; [done|]. rewrite peval_drop by (simpl; lia).
  rewrite drop_ge by (simpl; lia). simpl peval. ring.
Qed.

Lemma mp_evaluate_spec p x : MP.evaluate p x = Ok (peval (MP.coefficients p) x).
Proof.
  destruct p as [p]. unfold MP.evaluate, MP.evaluate_with_g. cbn [MP.coefficients].
  case_bool_decide as Hp; [by rewrite Hp|]. assert (0 < length p) as Hl by (destruct p; simpl; [done|lia]).
  rewrite borrow_nth by lia. rewrite bind_Ok.
  destruct (move_fold_seq (λ i r, r = peval (drop (length p - 1 - i) p) x)
    (λ result i, m ← GF.mul GF.new result x; c ← borrow p (length p - i - 2); Ok (GF.add m c))
    (nth (length p - 1) p u8_zero) 0 (length p - 1)) as (r & -> & ->).
  - by rewrite Nat.sub_0_r, peval_last.
  - intros i r Hi ->. rewrite gf_mul_spec, bind_Ok, borrow_nth by lia. eexists. split; [done|].
    rewrite (peval_drop p (length p - 1 - S i)) by lia.
    replace (S (length p - 1 - S i)) with (length p - 1 - i) by lia.
    replace (length p - i - 2) with (length p - 1 - S i) by lia.
    change GF.add with gf_add. ring.
  - f_equal. rewrite Nat.add_0_l. by replace (length p - 1 - (length p - 1)) with 0 by lia.
Qed.

Lemma mp_constant_term p : MP.get_constant_term p = peval (MP.coefficients p) u8_zero.
Proof. destruct p as [[|a p]]; [done|]. cbn. rewrite gf_mul_0_l. by rewrite byte_xor_comm, byte_xor_0_l. Qed.

(** The quotient of synthetic division by x - c. *)
Definition synthetic (p : Polynomial) (c : byte) : Polynomial :=
  (λ k, peval (drop (S k) p) c) <$> seq 0 (length p - 1).

Lemma synthetic_spec p c z :
  gf_sub (peval p z) (peval p c) = gf_mul (gf_sub z c) (peval (synthetic p c) z).
Proof.
  unfold synthetic. induction p as [|a p IH]; [cbn; ring|].
  destruct p as [|b p]; [cbn; ring|]. set (q := b :: p) in *.
  replace (length (a :: q) - 1) with (S (length q - 1)) by (simpl; lia).
  rewrite peval_tab_S. cbn [drop]. change (drop 0 q) with q.
  change (peval (a :: q) z) with (gf_add a (gf_mul z (peval q z))).
  change (peval (a :: q) c) with (gf_add a (gf_mul c (peval q c))).
  transitivity (gf_add (gf_mul z (gf_sub (peval q z) (peval q c)))
    (gf_mul (gf_sub z c) (peval q c))); [ring|]. rewrite IH. ring.
Qed.

Lemma rev_seq_fmap {A : Type} (f : nat → A) n :
  rev (f <$> seq 0 n) = (λ i, f (n - 1 - i)) <$> seq 0 n.
Proof.
  induction n as [|n IH]; [done|]. rewrite seq_S at 1. rewrite fmap_app, rev_app_distr, IH.
  csimpl. rewrite Nat.sub_0_r. f_equal; [f_equal; lia|].
  rewrite <-fmap_S_seq, <-list_fmap_compose. apply list_fmap_ext. intros i j _. simpl. f_equal. lia.
Qed.

Lemma mp_div_spec p c :
  MP.div_by_monic_linear GF.new p c = Ok (MP.mkPolynomial (synthetic (MP.coefficients p) c)).
Proof.
  destruct p as [p]. unfold MP.div_by_monic_linear, synthetic. cbn [MP.coefficients].
  destruct (Nat.ltb_spec 1 (length p)) as [Hl|Hl].
  2: { replace (length p - 1) with 0 by lia. done. }
  rewrite borrow_nth by lia. rewrite bind_Ok.
  set (n := length p) in *. set (q := λ i, peval (drop (n - 1 - i) p) c).
  destruct (move_fold_seq (λ i s, s = (q (i - 1), q <$> seq 0 i))
    (λ '(previous, cs) i, a ← borrow p (n - i - 1); m ← GF.mul GF.new previous c;
      let previous := GF.sub a m in Ok (previous, cs ++ [previous]))
    (nth (n - 1) p u8_zero, [nth (n - 1) p u8_zero]) 1 (n - 2)) as (s & Hs & ->).
  - unfold q. rewrite Nat.sub_diag. csimpl. rewrite Nat.sub_0_r. unfold n.
    rewrite peval_last; [done|]. intros ->. simpl in *. lia.
  - intros i s Hi ->. rewrite borrow_nth, bind_Ok, gf_mul_spec, bind_Ok by (unfold n in *; lia).
    eexists. split; [done|].
    assert (GF.sub (nth (n - i - 1) p u8_zero) (gf_mul (q (i - 1)) c) = q i) as ->.
    { unfold q. rewrite (peval_drop p (n - 1 - i)) by (unfold n in *; lia).
      replace (n - 1 - (i - 1)) with (S (n - 1 - i)) by lia.
      replace (n - i - 1) with (n - 1 - i) by lia. change GF.sub with gf_add. ring. }
    rewrite seq_S, fmap_app. simpl. do 2 f_equal. f_equal; lia.
  - replace (range_eq 1 (n - 2)) with (seq 1 (n - 2)) by (unfold range_eq; f_equal; lia).
    cbv zeta in Hs. rewrite Hs, !bind_Ok. do 2 f_equal.
    replace (1 + (n - 2)) with (n - 1) by lia.
    rewrite rev_seq_fmap. apply list_fmap_ext. intros i j [-> Hj]%lookup_seq. unfold q.
    f_equal. f_equal. lia.
Qed.

Lemma try_map_tabulate {A : Type} (f : nat → outcome N A) n :
  (∀ i, i < n → ∃ a, f i = Ok a) → ∃ l, try_map f (seq 0 n) = Ok l ∧ length l = n ∧
    ∀ i a, l !! i = Some a → f i = Ok a.
Proof.
  intros H. destruct (try_map_ok f (λ i a, f i = Ok a) (seq 0 n)) as (l & Hl & HF).
  { intros i [_ Hi]%elem_of_seq. destruct (H i Hi) as [a Ha]. by exists a. }
  exists l. split; [done|]. pose proof (Forall2_length _ _ _ HF) as Hn. rewrite length_seq in Hn.
  split; [done|]. intros i a Hi. destruct (Forall2_lookup_r _ _ _ _ _ HF Hi) as (j & Hj & Ha).
  by apply lookup_seq in Hj as [-> _].
Qed.

Lemma mp_scale_spec p s :
  MP.scale GF.new p s = Ok (MP.mkPolynomial ((λ c, gf_mul c s) <$> MP.coefficients p)).
Proof.
  unfold MP.scale. rewrite (try_map_pure _ (λ c, gf_mul c s)); [done|].
  intros c _. apply gf_mul_spec.
Qed.

Lemma zip_longest_tabulate (p q : Polynomial) :
  length q ≤ length p →
  zip_longest_add p q = (λ i, if i <? length q then gf_add (nth i p u8_zero) (nth i q u8_zero)
    else nth i p u8_zero) <$> seq 0 (length p).
Proof.
  revert q. induction p as [|a p IH]; intros q Hq;
    [destruct q; [done|simpl in Hq; lia]|].
  change (length (a :: p)) with (S (length p)).
  change (seq 0 (S (length p))) with (0 :: seq 1 (length p)).
  rewrite <-fmap_S_seq. csimpl. rewrite <-list_fmap_compose. destruct q as [|b q]; simpl.
  - f_equal. symmetry. etransitivity;
      [apply (fmap_nth_seq (λ x, x) p u8_zero)|apply list_fmap_id].
  - rewrite IH by (simpl in Hq; lia). f_equal. 
Qed.

Lemma mp_add_longer_spec p q :
  length (MP.coefficients q) ≤ length (MP.coefficients p) →
  MP.add_longer p q = Ok (MP.mkPolynomial (zip_longest_add (MP.coefficients p) (MP.coefficients q))).
Proof.
  intros Hl. unfold MP.add_longer. rewrite zip_longest_tabulate by done.
  erewrite try_map_pure; [done|]. intros i [_ Hi]%elem_of_seq. cbv beta.
  destruct (Nat.ltb_spec i (length (MP.coefficients q))) as [Hq|Hq].
  - rewrite !borrow_nth by (simpl in *; lia). done.
  - rewrite borrow_nth by (simpl in *; lia). done.
Qed.

Lemma zip_longest_comm (p q : Polynomial) : zip_longest_add p q = zip_longest_add q p.
Proof.
  revert q. induction p as [|a p IH]; intros [|b q]; simpl; try done.
  rewrite IH. f_equal. apply byte_xor_comm.
Qed.

Lemma mp_add_spec p q :
  MP.add p q = Ok (MP.mkPolynomial (zip_longest_add (MP.coefficients p) (MP.coefficients q))).
Proof.
  unfold MP.add. destruct (Nat.ltb_spec (length (MP.coefficients p)) (length (MP.coefficients q))).
  - rewrite mp_add_longer_spec by lia. by rewrite zip_longest_comm.
  - by rewrite mp_add_longer_spec.
Qed.

Lemma gsum_snoc l a : gsum (l ++ [a]) = gf_add (gsum l) a.
Proof. induction l as [|b l IH]; simpl; [ring|]. rewrite IH. ring. Qed.

Lemma mp_mul_spec p q :
  MP.coefficients p ≠ [] → MP.coefficients q ≠ [] →
  MP.mul GF.new p q = Ok (MP.mkPolynomial ((λ i, conv (MP.coefficients p) (MP.coefficients q) i)
    <$> seq 0 (length (MP.coefficients p) + length (MP.coefficients q) - 1))).
Proof.
  destruct p as [p], q as [q]. cbn [MP.coefficients]. intros Hp Hq.
  unfold MP.mul. cbn [MP.coefficients]. rewrite !bool_decide_eq_false_2 by done. cbn [orb].
  erewrite try_map_pure; [done|]. intros i _. cbv beta. unfold range_eq.
  rewrite Nat.sub_0_r.
  match goal with |- move_fold ?f _ _ = _ => destruct (move_fold_seq
    (λ k s, s = gsum ((λ j, gf_mul (nth j p gf_zero) (nth (i - j) q gf_zero)) <$> seq 0 k))
    f u8_zero 0 (S i)) as (s & -> & ->); [done| |done] end.
  intros j s _ ->. rewrite seq_S, fmap_app. cbn [fmap list_fmap]. rewrite gsum_snoc.
  destruct (Nat.ltb_spec j (length p)) as [Hj|Hj];
    [destruct (Nat.ltb_spec (i - j) (length q)) as [Hk|Hk]|]; cbn [andb].
  - rewrite !borrow_nth, !bind_Ok, gf_mul_spec by done. eexists. split; [done|]. done.
  - eexists. split; [done|]. rewrite (nth_overflow q) by lia. cbn [Nat.add]. ring.
  - eexists. split; [done|]. rewrite (nth_overflow p) by lia. cbn [Nat.add]. ring.
Qed.

(** The product of the x - r, over the values [rs]. *)
Lemma mp_product_spec rs p :
  MP.coefficients p ≠ [] →
  ∃ q, move_fold (λ product r, MP.mul GF.new product (MP.monic_linear r)) p rs = Ok q ∧
    length (MP.coefficients q) = length (MP.coefficients p) + length rs ∧
    ∀ z, peval (MP.coefficients q) z =
      gf_mul (peval (MP.coefficients p) z) (gprod ((λ r, gf_sub z r) <$> rs)).
Proof.
  revert p. induction rs as [|r rs IH]; intros p Hp; cbn [move_fold length].
  { exists p. split_and!; [done|lia|]. intros z. cbn. ring. }
  rewrite mp_mul_spec by done. rewrite bind_Ok. cbn [MP.monic_linear MP.coefficients length].
  set (p' := (λ i, conv _ _ i) <$> _).
  assert (length p' = S (length (MP.coefficients p))) as Hl.
  { unfold p'. rewrite length_fmap, length_seq. lia. }
  destruct (IH (MP.mkPolynomial p')) as (q & Hq & Hlq & Hz).
  { cbn. intros E. rewrite E in Hl. done. }
  exists q. split_and!; [done|cbn in *; lia|]. intros z. rewrite Hz. cbn [MP.coefficients].
  unfold p'. etransitivity; [apply (f_equal (λ a, gf_mul a _)), (peval_conv (MP.coefficients p) [r; x01])|].
  { cbn. lia. }
  rewrite (gprod_fmap_cons (λ r, gf_sub z r)). cbn [peval]. change x01 with gf_one.
  change (gf_sub z r) with (gf_add z r). ring.
Qed.

(** ** Interpolation *)

(** The numerator at [x]: the product of the z - r over the other values. *)
Definition is_numerator (xs : list byte) (x : byte) (num : Polynomial) : Prop :=
  length num = length xs ∧
  ∀ z, peval num z =
    gprod ((λ r, gf_sub z r) <$> List.filter (λ r, negb (bool_decide (r = x))) xs).

Lemma mp_compute_numerators_spec xs :
  NoDup xs → length xs ≤ 255 →
  ∃ nums, MP.compute_numerators GF.new xs = Ok nums ∧
    Forall2 (λ x num, is_numerator xs x (MP.coefficients num)) xs nums.
Proof.
  intros Hnd Hl. unfold MP.compute_numerators.
  destruct (mp_product_spec xs (MP.mkPolynomial [x01])) as (full & -> & Hfl & Hfull); [done|].
  cbn [MP.coefficients length] in *. rewrite bind_Ok. set (N := MP.coefficients full) in *.
  eexists. split; [apply try_map_pure; intros; apply mp_div_spec|].
  apply Forall2_fmap_r, Forall_Forall2_diag, Forall_forall. intros x Hx. cbn [MP.coefficients].
  fold N. set (others := List.filter (λ r, negb (bool_decide (r = x))) xs).
  pose proof (filter_ne_perm xs x Hnd Hx) as Hperm. fold others in Hperm.
  assert (∀ z, peval N z = gf_mul (gf_sub z x) (gprod ((λ r, gf_sub z r) <$> others))) as HN.
  { intros z. rewrite Hfull, (gprod_perm _ ((λ r, gf_sub z r) <$> x :: others))
      by (by apply Permutation_map).
    rewrite (gprod_fmap_cons (λ r, gf_sub z r)). cbn [peval]. change x01 with gf_one. ring. }
  destruct (mp_product_spec others (MP.mkPolynomial [x01])) as (q & _ & Hql & Hq); [done|].
  cbn [MP.coefficients length] in *.
  apply Permutation_length in Hperm. cbn [length] in Hperm.
  assert (length (synthetic N x) = length xs) as Hsl.
  { unfold synthetic. rewrite length_fmap, length_seq. lia. }
  split; [done|].
  assert (∀ z, z ≠ x → peval (synthetic N x) z = gprod ((λ r, gf_sub z r) <$> others)) as Hne.
  { intros z Hz. assert (gf_sub z x ≠ gf_zero) as Hzx by (by rewrite gf_sub_eq_0).
    pose proof (synthetic_spec N x z) as Hs. rewrite !HN in Hs.
    assert (gf_mul (gf_sub z x) (gf_sub (peval (synthetic N x) z)
      (gprod ((λ r, gf_sub z r) <$> others))) = gf_zero) as [?|E]%gf_mul_eq_0; [|done|].
    - transitivity (gf_sub (gf_mul (gf_sub z x) (peval (synthetic N x) z))
        (gf_mul (gf_sub z x) (gprod ((λ r, gf_sub z r) <$> others)))); [ring|].
      rewrite <-Hs. ring.
    - by apply gf_sub_eq_0. }
  cbn [MP.coefficients]. fold others. intros z. etransitivity; [|etransitivity; [apply (Hq z)|cbn [peval]; change x01 with gf_one; ring]].
  assert (NoDup all_bytes) as Hall by (by apply (bool_decide_unpack (NoDup all_bytes)); vm_compute).
  pose proof (filter_ne_perm all_bytes x Hall (all_bytes_complete x)) as Hb.
  set (bs := List.filter (λ r, negb (bool_decide (r = x))) all_bytes) in *.
  assert (length bs = 255) as Hbl.
  { apply Permutation_length in Hb. cbn [length] in Hb.
    change (length all_bytes) with 256 in Hb. lia. }
  apply (peval_unique _ _ bs); [|lia..|].
  - rewrite Hb in Hall. by apply NoDup_cons in Hall as [_ ?].
  - intros b Hb'%list_elem_of_In%filter_In. destruct Hb' as [_ Hbx].
    rewrite Hne, Hq; [cbn [peval]; change x01 with gf_one; ring|].
    by apply negb_true_iff, bool_decide_eq_false in Hbx.
Qed.

Lemma mp_weight_spec xs xj acc :
  ∃ w, move_fold (λ acc xi, if bool_decide (xi = xj) then Ok acc
      else GF.div GF.new acc (GF.sub xj xi)) acc xs = Ok w ∧
    gf_mul w (gprod ((λ r, gf_sub xj r) <$> List.filter (λ r, negb (bool_decide (r = xj))) xs))
    = acc.
Proof.
  revert acc. induction xs as [|xi xs IH]; intros acc; cbn [move_fold List.filter].
  { exists acc. split; [done|]. cbn. ring. }
  case_bool_decide as Hx; [apply IH|]. cbn [negb]. change GF.sub with gf_sub.
  assert (gf_sub xj xi ≠ gf_zero) as Hz by (rewrite gf_sub_eq_0; congruence).
  rewrite gf_div_spec, bind_Ok by done.
  destruct (IH (gf_mul acc (gf_inv (gf_sub xj xi)))) as (w & Hw & Hp).
  exists w. split; [done|]. rewrite (gprod_fmap_cons (λ r, gf_sub xj r)).
  transitivity (gf_mul (gf_mul w (gprod ((λ r, gf_sub xj r) <$>
    List.filter (λ r, negb (bool_decide (r = xj))) xs))) (gf_sub xj xi)); [ring|].
  rewrite Hp. transitivity (gf_mul acc (gf_mul (gf_inv (gf_sub xj xi)) (gf_sub xj xi))); [ring|].
  rewrite gf_mul_inv_l by done. ring.
Qed.

Lemma mp_compute_weights_spec xs :
  ∃ ws, MP.compute_weights GF.new xs = Ok ws ∧ Forall2 (λ x w,
    gf_mul w (gprod ((λ r, gf_sub x r) <$> List.filter (λ r, negb (bool_decide (r = x))) xs))
    = gf_one) xs ws.
Proof. apply try_map_ok. intros x _. apply mp_weight_spec. Qed.

(** A numerator vanishes at the other values. *)
Lemma is_numerator_other xs x z num : is_numerator xs x num → z ∈ xs → z ≠ x → peval num z = gf_zero.
Proof.
  intros [_ ->] Hz Hne. apply (gprod_zero _ _ z); [|by apply gf_sub_eq_0].
  apply list_elem_of_In, filter_In. split; [by apply list_elem_of_In|].
  by rewrite bool_decide_eq_false_2.
Qed.

Lemma mp_interpolate_spec xs ys nums ws :
  NoDup xs → length ys = length xs →
  Forall2 (λ x num, is_numerator xs x (MP.coefficients num)) xs nums →
  Forall2 (λ x w, gf_mul w (gprod ((λ r, gf_sub x r)
    <$> List.filter (λ r, negb (bool_decide (r = x))) xs)) = gf_one) xs ws →
  ∃ p, MP.interpolate_with_numerators GF.new xs ys nums ws = Ok p ∧
    length (MP.coefficients p) ≤ length xs ∧
    ∀ k x y, xs !! k = Some x → ys !! k = Some y → peval (MP.coefficients p) x = y.
Proof.
  intros Hnd Hl HN HW. pose proof (Forall2_length _ _ _ HN) as HlN.
  pose proof (Forall2_length _ _ _ HW) as HlW. unfold MP.interpolate_with_numerators.
  rewrite bind_assert by (by rewrite Hl, <-HlN, <-HlW, Nat.eqb_refl).
  match goal with |- ∃ p, move_fold ?f _ _ = _ ∧ _ => destruct (move_fold_seq (λ j p,
    length (MP.coefficients p) ≤ length xs ∧ ∀ k x y, xs !! k = Some x → ys !! k = Some y →
      peval (MP.coefficients p) x = if k <? j then y else gf_zero)
    f (MP.mkPolynomial []) 0 (length xs)) as (p & Hp & Hpl & Hpe) end.
  - split; [cbn; lia|done].
  - intros j p Hj [Hpl Hpe].
    destruct (lookup_lt_is_Some_2 xs j) as [xj Hxj]; [lia|].
    destruct (lookup_lt_is_Some_2 ys j) as [yj Hyj]; [lia|].
    destruct (Forall2_lookup_l _ _ _ _ _ HN Hxj) as (num & Hnum & HNj).
    destruct (Forall2_lookup_l _ _ _ _ _ HW Hxj) as (w & Hw & HWj).
    rewrite (borrow_ok _ _ _ Hnum), bind_Ok, (borrow_ok _ _ _ Hyj), bind_Ok,
      (borrow_ok _ _ _ Hw), bind_Ok, gf_mul_spec, bind_Ok, mp_scale_spec, bind_Ok, mp_add_spec.
    eexists. split; [done|]. cbn [MP.coefficients]. split.
    { rewrite zip_longest_length, length_fmap. destruct HNj as [-> _]. lia. }
    intros k x y Hx Hy. rewrite peval_zip_longest, peval_map_mul, (Hpe k x y Hx Hy).
    destruct (decide (k = j)) as [->|Hkj].
    + rewrite Hx in Hxj. injection Hxj as ->. rewrite Hy in Hyj. injection Hyj as ->.
      rewrite Nat.ltb_irrefl, (proj2 (Nat.ltb_lt j (S j))) by lia.
      destruct HNj as [_ ->]. transitivity (gf_mul yj (gf_mul w (gprod ((λ r, gf_sub xj r)
        <$> List.filter (λ r, negb (bool_decide (r = xj))) xs)))); [ring|]. rewrite HWj. ring.
    + rewrite (is_numerator_other _ _ _ _ HNj).
      * destruct (Nat.ltb_spec k j), (Nat.ltb_spec k (S j)); try lia; ring.
      * by apply list_elem_of_lookup_2 in Hx.
      * intros ->. apply Hkj. by apply (NoDup_lookup xs k j xj).
  - exists p. split_and!; [done..|]. intros k x y Hx Hy. rewrite (Hpe k x y Hx Hy).
    rewrite (proj2 (Nat.ltb_lt _ _)); [done|]. by apply lookup_lt_Some in Hx.
Qed.

(** [interpolate_all]: the polynomials through the points, of the least degree. *)
Lemma mp_interpolate_all_spec xs ys l :
  NoDup xs → xs ≠ [] → length xs ≤ 255 → length ys = length xs →
  Forall (λ y : list byte, length y = l) ys →
  ∃ ps, MP.interpolate_all xs ys = Ok ps ∧ length ps = l ∧
    Forall (λ p, length (MP.coefficients p) ≤ length xs) ps ∧
    ∀ k x y, xs !! k = Some x → ys !! k = Some y → y = share_of (MP.coefficients <$> ps) x.
Proof.
  intros Hnd Hne H255 Hl HF. unfold MP.interpolate_all.
  rewrite bind_assert by (by rewrite Hl, Nat.eqb_refl).
  destruct ys as [|y0 ys]; [by destruct xs|]. pose proof (Forall_inv HF) as Hy0. cbn beta in Hy0.
  rewrite (borrow_ok _ 0 y0), bind_Ok by done. rewrite Hy0. set (yys := y0 :: ys) in *.
  rewrite bind_assert by (by apply forallb_forall; intros y Hy%list_elem_of_In;
    rewrite Forall_forall in HF; apply Nat.eqb_eq, HF).
  cbv zeta. destruct (mp_compute_weights_spec xs) as (ws & -> & HW). rewrite bind_Ok.
  destruct (mp_compute_numerators_spec xs Hnd H255) as (nums & -> & HN). rewrite bind_Ok.
  assert (∀ i, i < l → ∃ yi, try_map (λ yj, borrow yj i) yys = Ok yi ∧
    Forall2 (λ y b, y !! i = Some b) yys yi) as Hcol.
  { intros i Hi. apply try_map_ok. intros y Hy. rewrite Forall_forall in HF.
    destruct (lookup_lt_is_Some_2 y i) as [b Hb]; [by rewrite HF|].
    exists b. by rewrite (borrow_ok _ _ _ Hb). }
  destruct (try_map_ok (λ i, yi ← try_map (λ yj, borrow yj i) yys;
      MP.interpolate_with_numerators GF.new xs yi nums ws)
    (λ i p, length (MP.coefficients p) ≤ length xs ∧
      ∀ k x y, xs !! k = Some x → yys !! k = Some y → y !! i = Some (peval (MP.coefficients p) x))
    (seq 0 l)) as (ps & Hps & HP).
  { intros i [_ Hi]%elem_of_seq. destruct (Hcol i Hi) as (yi & -> & HFi). rewrite bind_Ok.
    pose proof (Forall2_length _ _ _ HFi).
    destruct (mp_interpolate_spec xs yi nums ws) as (p & Hp & Hpl & Hpe); [done|lia|done..|].
    exists p. split_and!; [done..|]. intros k x y Hx Hy.
    destruct (Forall2_lookup_l _ _ _ _ _ HFi Hy) as (b & Hb & ->). by rewrite (Hpe k x b). }
  exists ps. pose proof (Forall2_length _ _ _ HP) as Hpl. rewrite length_seq in Hpl.
  split_and!; [done..| |].
  - apply Forall_lookup. intros i p Hi.
    by destruct (Forall2_lookup_r _ _ _ _ _ HP Hi) as (? & _ & ? & _).
  - intros k x y Hx Hy. apply list_eq. intros i. unfold share_of.
    rewrite !list_lookup_fmap. rewrite Forall_forall in HF.
    specialize (HF y (list_elem_of_lookup_2 _ _ _ Hy)).
    destruct (ps !! i) as [p|] eqn:Hi; cbn [fmap option_fmap option_map].
    + destruct (Forall2_lookup_r _ _ _ _ _ HP Hi) as (j & [-> _]%lookup_seq & _ & Hpe).
      rewrite Nat.add_0_l in Hpe. by rewrite evaluate_peval, (Hpe k x y).
    + apply lookup_ge_None in Hi. apply lookup_ge_None. lia.
Qed.

(** ** The degree *)
Lemma find_indices_snoc {A : Type} (f : A → bool) (l : list A) a :
  find_indices f (l ++ [a]) = find_indices f l ++ (if f a then [length l] else []).
Proof.
  unfold find_indices, enumerate. rewrite length_app, Nat.add_1_r, seq_S.
  rewrite zip_with_app by (by rewrite length_seq). cbn [zip_with].
  rewrite List.filter_app, fmap_app. f_equal. simpl. by destruct (f a).
Qed.

Lemma mp_degree_spec p :
  let d := MP.degree p in
  (∀ i, d < i → nth i (MP.coefficients p) gf_zero = gf_zero) ∧
  (d ≠ 0 → nth d (MP.coefficients p) gf_zero ≠ gf_zero).
Proof.
  destruct p as [l]. unfold MP.degree. cbn [MP.coefficients].
  induction l as [|c l IH] using rev_ind; [split; [by intros [|i]|done]|].
  rewrite find_indices_snoc. case_bool_decide as Hc; cbn [negb].
  - subst c. rewrite app_nil_r. destruct (last _) as [d|]; cbv zeta in *.
    all: destruct IH as [IH1 IH2]; split; [intros i Hi|intros Hd].
    + destruct (decide (i < length l)); [rewrite app_nth1 by done; by apply IH1|].
      rewrite app_nth2 by lia. by destruct (i - length l) as [|[|]].
    + specialize (IH2 Hd). rewrite app_nth1; [done|].
      destruct (decide (d < length l)); [done|]. by rewrite nth_overflow in IH2 by lia.
    + destruct (decide (i < length l)); [rewrite app_nth1 by done; by apply IH1|].
      rewrite app_nth2 by lia. by destruct (i - length l) as [|[|]].
    + done.
  - rewrite last_snoc. cbv zeta. split; [intros i Hi|intros _].
    + apply nth_overflow. rewrite length_app. simpl. lia.
    + by rewrite app_nth2, Nat.sub_diag by lia.
Qed.

Lemma mp_degree_take p t z :
  MP.degree p + 1 ≤ t → peval (MP.coefficients p) z = peval (take t (MP.coefficients p)) z.
Proof.
  intros Hdt. destruct (mp_degree_spec p) as [Hhigh _]. destruct p as [l].
  cbn [MP.coefficients] in *.
  rewrite <-(peval_tab_nth (take t l) (length l)) by (rewrite length_take; lia).
  rewrite <-(peval_tab_nth l (length l)) by done. f_equal. apply list_fmap_ext.
  intros i j [-> Hj]%lookup_seq. simpl. destruct (decide (i < t)) as [Hi|Hi].
  + rewrite <-(take_drop t l) at 1. rewrite app_nth1; [done|]. rewrite length_take. lia.
  + rewrite (nth_overflow (take t l)) by (rewrite length_take; lia). apply Hhigh. lia.
Qed.

(** The degree is below a bound exactly when a vector of that length has the
    same values. *)
Lemma mp_degree_bound p t :
  length (MP.coefficients p) ≤ 256 → 0 < t →
  MP.degree p + 1 ≤ t ↔
  ∃ q : Polynomial, length q ≤ t ∧ ∀ z, peval q z = peval (MP.coefficients p) z.
Proof.
  intros Hl Ht. destruct (mp_degree_spec p) as [Hhigh Hd]. destruct p as [l].
  cbn [MP.coefficients] in *. split.
  - intros Hdt. exists (take t l). split; [rewrite length_take; lia|]. intros z.
    symmetry. by apply (mp_degree_take (MP.mkPolynomial l)).
  - intros (q & Hq & Hz). destruct (decide (MP.degree (MP.mkPolynomial l) + 1 ≤ t)); [done|].
    set (d := MP.degree _) in *.
    assert (d < length l) as Hdl.
    { destruct (decide (d < length l)); [done|]. exfalso.
      apply Hd; [lia|]. apply nth_overflow. lia. }
    exfalso. apply Hd; [lia|].
    assert (zip_longest_add l q = replicate (length (zip_longest_add l q)) gf_zero) as E.
    { apply peval_zero_coefficients; [rewrite zip_longest_length; lia|].
      intros z. rewrite peval_zip_longest, Hz. apply byte_xor_nilpotent. }
    assert (nth d (zip_longest_add l q) gf_zero = nth d l gf_zero) as <-.
    { clear -Hdl Hq n. assert (length q ≤ d) as Hqd by lia. clear Hq n. clearbody d.
      revert q d Hdl Hqd. induction l as [|a l IH]; intros [|b q] [|d] Hdl Hqd;
        simpl in *; try done; try lia. apply IH; lia. }
    rewrite E. generalize (length (zip_longest_add l q)). intros m.
    generalize d. induction m as [|m IH]; intros [|d']; simpl; auto.
Qed.

(** ** Counter mode *)
Section counter_mode.
  Context {sym : Symmetric} {sym_laws : SymmetricLaws}.

(** The bytes of a block after its first. *)
Lemma hc_block_rest key l nb i m out :
  0 < i → length m = 32 → i + length l ≤ 32 →
  move_fold (HC.decrypt_byte key) (HC.mkLoop nb (i mod 32) m out) l
  = Ok (HC.mkLoop nb ((i + length l) mod 32) m (out ++ xor_unchecked l (drop i m))).
Proof.
  revert i out. induction l as [|b l IH]; intros i out Hi Hm Hl; cbn [move_fold length].
  { by rewrite Nat.add_0_r, app_nil_r. }
  cbn [length] in Hl. unfold HC.decrypt_byte at 2. cbn [HC.i HC.next_block HC.current_mask HC.results].
  rewrite (Nat.mod_small i 32) by lia.
  rewrite (proj2 (Nat.eqb_neq i 0)), bind_Ok, borrow_nth, bind_Ok by lia.
  rewrite bind_Ok, IH by lia. do 2 f_equal; [f_equal; lia|].
  rewrite (drop_S m (nth i m u8_zero) i).
  - by rewrite <-app_assoc.
  - destruct (lookup_lt_is_Some_2 m i) as [x Hx]; [lia|]. by rewrite (nth_lookup_Some _ _ _ _ Hx).
Qed.

Lemma hc_block key l nb m out :
  l ≠ [] → length l ≤ 32 → (nb + 1 < 2 ^ 64)%N →
  ∃ m', move_fold (HC.decrypt_byte key) (HC.mkLoop nb 0 m out) l
    = Ok (HC.mkLoop (nb + 1) (length l mod 32) m'
        (out ++ xor_unchecked l (hmac Dem.Encryption key (to_bytes nb)))).
Proof.
  intros Hne Hl Hnb. destruct l as [|b l]; [done|]. cbn [move_fold length] in *.
  unfold HC.decrypt_byte at 2. cbn [HC.i HC.next_block HC.current_mask HC.results].
  cbn [Nat.eqb]. rewrite bind_uint, bind_Ok by done.
  set (mask := hmac_sha3_256 key _).
  assert (length mask = 32) as Hm by apply hmac_sha3_256_length.
  rewrite borrow_nth, !bind_Ok by lia. exists mask.
  rewrite (hc_block_rest key l (nb + 1) 1) by lia. do 2 f_equal.
  change (hmac Dem.Encryption key (to_bytes nb)) with mask. rewrite <-app_assoc. f_equal.
  by destruct mask as [|x mask].
Qed.

Lemma hc_fold key l fuel nb m out :
  length l ≤ fuel → (N.of_nat nb + N.of_nat (length l) < 2 ^ 64)%N →
  ∃ s, move_fold (HC.decrypt_byte key) (HC.mkLoop (N.of_nat nb) 0 m out) l = Ok s ∧
    HC.results s =
      out ++ ctr_fuel (λ i, hmac Dem.Encryption key (to_bytes (N.of_nat i))) KEY_SIZE fuel nb l.
Proof.
  revert l nb m out. induction fuel as [|fuel IH]; intros l nb m out Hl Hnb;
    (destruct l as [|b l]; [eexists; split; [done|by rewrite app_nil_r]|]); [simpl in Hl; lia|].
  set (bl := b :: l) in *. assert (bl ≠ []) as Hne by done.
  assert (0 < length bl) as Hpos by (unfold bl; simpl; lia).
  change (ctr_fuel _ _ (S fuel) nb bl) with
    (xor_unchecked (take 32 bl) (hmac Dem.Encryption key (to_bytes (N.of_nat nb)))
     ++ ctr_fuel (λ i, hmac Dem.Encryption key (to_bytes (N.of_nat i))) KEY_SIZE fuel (S nb)
          (drop 32 bl)).
  assert (∀ s, move_fold (HC.decrypt_byte key) s bl =
    (s ← move_fold (HC.decrypt_byte key) s (take 32 bl);
     move_fold (HC.decrypt_byte key) s (drop 32 bl))) as Hsplit
    by (intros; by rewrite <-move_fold_app, take_drop).
  rewrite Hsplit.
  destruct (hc_block key (take 32 bl) (N.of_nat nb) m out) as (m' & ->).
  { intros E. apply (f_equal length) in E. rewrite length_take in E. simpl length in E at 2. lia. }
  { rewrite length_take. lia. }
  { lia. }
  rewrite bind_Ok. destruct (decide (length bl ≤ 32)) as [Hb|Hb].
  - rewrite drop_ge by done. eexists. split; [done|]. cbn [HC.results].
    by rewrite ctr_fuel_nil, app_nil_r.
  - rewrite length_take, Nat.min_l by lia. change (32 mod 32) with 0.
    replace (N.of_nat nb + 1)%N with (N.of_nat (S nb)) by lia.
    destruct (IH (drop 32 bl) (S nb) m' (out ++ xor_unchecked (take 32 bl)
      (hmac Dem.Encryption key (to_bytes (N.of_nat nb))))) as (s & Hs & Hr).
    { rewrite length_drop. lia. }
    { rewrite length_drop. lia. }
    exists s. split; [done|]. by rewrite Hr, app_assoc.
Qed.

(** On chain, decryption in counter mode is that of [dem.rs]. *)
Lemma hc_decrypt_spec ct mac aad key :
  (N.of_nat (length ct) < 2 ^ 64)%N →
  HC.decrypt ct mac aad key =
    Ok (match hmac256ctr_decrypt ct mac aad key with Ok m => Some m | _ => None end).
Proof.
  intros Hl. unfold HC.decrypt, hmac256ctr_decrypt.
  assert (HC.mac key aad ct = compute_mac key aad ct) as ->.
  { unfold HC.mac, compute_mac, hmac, hmac_input, mac_input. by rewrite <-!app_assoc. }
  destruct (decide (compute_mac key aad ct = mac)) as [<-|Hne].
  - rewrite !bool_decide_eq_true_2 by done. cbn [negb].
    destruct (hc_fold key ct (length ct) 0 [] []) as (s & Hs & Hr); [lia..|].
    change (N.of_nat 0) with 0%N in Hs. rewrite Hs, bind_Ok, Hr. by rewrite encrypt_in_ctr_mode_fuel.
  - rewrite !bool_decide_eq_false_2 by congruence. done.
Qed.

(** The functions of [kdf.move] are those of [ibe.rs]. *)
Lemma kd_kdf_spec {crv : Curve} input nonce gid object_id index :
  KD.kdf input nonce gid object_id index = kdf input nonce gid (object_id, index).
Proof. unfold KD.kdf, kdf. by rewrite <-!app_assoc. Qed.
End counter_mode.
