(* ===== verification/MoveDecrypt.v ===== *)
(** * Decryption on chain ([move/seal/sources/bf_hmac_encryption.move])

    The Move functions that parse an encrypted object, verify derived keys and
    decrypt; and the BCS encoding that the derived serializer of
    [crates/crypto/src/lib.rs] gives an object, which they read. Decryption
    aborts ([Err], [Panic]) on keys that do not belong to the object, and
    returns [None] when the object itself is at fault. *)

From Stdlib Require Import NArith Lia.
From S2P Require Import Prelude Gf256 Polynomial Utils Tss Primitives Dem Elgamal Ibe Seal Common Chain MoveLib MoveCrypto.

(** The order of the scalar field for BLS12-381. *)
Definition SCALAR_FIELD_ORDER : N :=
  52435875175126190479447740508185965837690552500527637822603658699938581184513.

Definition SCALAR_BYTE_LENGTH : nat := 32.

(** ** The framework: [bls12381] and [bcs], and the encoder of the Rust side

    [sui::bcs] peels values off the front of a byte string; a value that it
    cannot read aborts. *)
Class OnChain `{MoveFramework} : Type := {
  scalar_from_bytes : list byte → option Scalar;
  peel_vec_length : ST (list byte) N nat;
  peel_enum_tag : ST (list byte) N N;
  (** the encodings of a length and of the index of an enum's variant *)
  bcs_length : nat → list byte;
  bcs_variant : N → list byte;
}.

Class OnChainLaws `{OnChain} : Prop := {
  scalar_from_bytes_agree b s : length b = SCALAR_BYTE_LENGTH →
    scalar_from_byte_array b = Ok s ↔
      (le_value (rev b) < SCALAR_FIELD_ORDER)%N ∧ scalar_from_bytes b = Some s;
  scalar_from_bytes_total b : length b = SCALAR_BYTE_LENGTH →
    (le_value (rev b) < SCALAR_FIELD_ORDER)%N → is_Some (scalar_from_bytes b);
  g2_from_bytes_bcs g : g2_from_bytes (bcs_g2 g) = Some g;
  bcs_g2_length g : length (bcs_g2 g) = 96;
  peel_vec_length_bcs n rest : (N.of_nat n < 2 ^ 31)%N →
    peel_vec_length (bcs_length n ++ rest) = (Ok n, rest);
  peel_enum_tag_bcs n rest : (n < 128)%N → peel_enum_tag (bcs_variant n ++ rest) = (Ok n, rest);
}.

(** ** Reading BCS *)
Section bcs.
  Context {crv : Curve} {framework : MoveFramework} {chain : OnChain}.

Definition peel_u8 : ST (list byte) N byte := λ bcs,
  match bcs with b :: bcs => (Ok b, bcs) | [] => (Panic, bcs) end.

Fixpoint peel_times {A : Type} (n : nat) (f : ST (list byte) N A) : ST (list byte) N (list A) :=
  match n with
  | 0 => mret []
  | S n => a ← f; l ← peel_times n f; mret (a :: l)
  end.

Definition peel_vec {A : Type} (f : ST (list byte) N A) : ST (list byte) N (list A) :=
  n ← peel_vec_length; peel_times n f.

Definition peel_vec_u8 : ST (list byte) N (list byte) := peel_vec peel_u8.

(** An address is its 32 bytes. *)
Definition peel_address : ST (list byte) N Address := peel_times 32 peel_u8.

Definition peel_option {A : Type} (f : ST (list byte) N A) : ST (list byte) N (option A) :=
  b ← peel_u8;
  if bool_decide (b = Byte.x00) then mret None
  else if bool_decide (b = Byte.x01) then a ← f; mret (Some a)
  else st_lift Panic.

(** ** The derived serializer of [lib.rs] *)
Definition bcs_bytes (l : list byte) : list byte := bcs_length (length l) ++ l.

Definition bcs_vec {A : Type} (f : A → list byte) (l : list A) : list byte :=
  bcs_length (length l) ++ concat (f <$> l).

Definition bcs_option (o : option (list byte)) : list byte :=
  match o with None => [Byte.x00] | Some l => Byte.x01 :: bcs_bytes l end.

Definition bcs_ibe_encryptions (e : IBEEncryptions) : list byte :=
  match e with
  | BonehFranklinBLS12381 nonce encrypted_shares encrypted_randomness =>
      bcs_variant 0 ++ bcs_g2 nonce ++ bcs_vec (λ share, share) encrypted_shares
        ++ encrypted_randomness
  end.

Definition bcs_ciphertext (c : Ciphertext) : list byte :=
  match c with
  | CAes256Gcm blob aad => bcs_variant 0 ++ bcs_bytes blob ++ bcs_option aad
  | CHmac256Ctr blob aad mac => bcs_variant 1 ++ bcs_bytes blob ++ bcs_option aad ++ mac
  | CPlain => bcs_variant 2
  end.

Definition bcs_encrypted_object (obj : EncryptedObject) : list byte :=
  eo_version obj :: eo_package_id obj ++ bcs_bytes (eo_id obj)
    ++ bcs_vec (λ '(address, index), address ++ [index]) (eo_services obj)
    ++ [eo_threshold obj] ++ bcs_ibe_encryptions (eo_encrypted_shares obj)
    ++ bcs_ciphertext (eo_ciphertext obj).
End bcs.

(** ** bf_hmac_encryption.move *)
Module BF.
Section bf_hmac_encryption.
  Context {sym : Symmetric} {crv : Curve} {framework : MoveFramework} {chain : OnChain}.

Definition EWrongVerifiedKeys : N := 0.
Definition EWrongPublicKeys : N := 1.
Definition EIncompatibleInputLengths : N := 2.
Definition EInvalidEncryptedObject : N := 3.
Definition EInsufficientDerivedKeys : N := 4.
Definition EInvalidVerifiedKey : N := 5.

Definition DST_DERIVE_KEY : list byte := bytes_of "SUI-SEAL-IBE-BLS12381-H3-00".

Record EncryptedObject : Type := mkEncryptedObject {
  package_id : Address;
  id : list byte;
  indices : list byte;
  services : list Address;
  threshold : byte;
  nonce : G2Element;
  encrypted_shares : list (list byte);
  encrypted_randomness : list byte;
  blob : list byte;
  aad : option (list byte);
  mac : list byte;
}.

Record VerifiedDerivedKey : Type := mkVerifiedDerivedKey {
  derived_key : G1Element;
  vdk_package_id : Address;
  vdk_id : list byte;
  vdk_key_server : Address;
}.

Record PublicKey : Type := mkPublicKey {
  pk_key_server : Address;
  pk : G2Element;
}.

Definition new_public_key (key_server_id : Address) (pk_bytes : list byte) : outcome N PublicKey :=
  pk ← check_g2 pk_bytes;
  Ok (mkPublicKey key_server_id pk).

Definition xor (a b : list byte) : outcome N (list byte) :=
  _ ← move_assert (length a =? length b) EIncompatibleInputLengths;
  Ok (zip_with byte_xor a b).

Definition safe_scalar_from_bytes (be_bytes : list byte) : outcome N (option Scalar) :=
  if negb (length be_bytes =? SCALAR_BYTE_LENGTH) then Ok None
  else
    let le_bytes := rev be_bytes in
    let as_integer := le_value le_bytes in
    if (SCALAR_FIELD_ORDER <=? as_integer)%N then Ok None
    else s ← expect (scalar_from_bytes be_bytes); Ok (Some s).

Definition decrypt_randomness (randomness_key encrypted_randomness : list byte) :
    outcome N (option Scalar) :=
  b ← xor encrypted_randomness randomness_key;
  safe_scalar_from_bytes b.

Definition verify_nonce (randomness : Scalar) (nonce : G2Element) : bool :=
  bool_decide (nonce = g_mul g_generator randomness).

Definition verify_share (polynomials : list MP.Polynomial) (share : list byte) (index : byte) :
    outcome N bool :=
  verified ← zip_map (λ p s, v ← MP.evaluate p index; Ok (bool_decide (v = s))) polynomials share;
  Ok (forallb (λ v, v) verified).

(** Decrypts one share under the pairing of its key with the nonce. *)
Definition decrypt_share (encrypted_object : EncryptedObject) (gid : G1Element)
    (target_element : GTElement) (i : nat) : outcome N (list byte) :=
  encrypted_share ← borrow (encrypted_shares encrypted_object) i;
  service ← borrow (services encrypted_object) i;
  index ← borrow (indices encrypted_object) i;
  xor encrypted_share (KD.kdf target_element (nonce encrypted_object) gid service index).

Definition decrypt_shares_with_derived_keys (indices_per_vdk : list (list nat))
    (derived_keys : list VerifiedDerivedKey) (encrypted_object : EncryptedObject)
    (gid : G1Element) : outcome N (list (list byte)) :=
  shares ← zip_map (λ indices vdk,
      let target_element := pairing (derived_key vdk) (nonce encrypted_object) in
      try_map (decrypt_share encrypted_object gid target_element) indices)
    indices_per_vdk derived_keys;
  Ok (concat shares).

Definition decrypt_remaining_shares_with_randomness (randomness : Scalar)
    (encrypted_object : EncryptedObject) (remaining_indices : list nat)
    (public_keys : list G2Element) (gid : G1Element) : outcome N (list (list byte)) :=
  _ ← move_assert (length remaining_indices =? length public_keys) EIncompatibleInputLengths;
  let gid_r := g_mul gid randomness in
  zip_map (λ i pk, decrypt_share encrypted_object gid (pairing gid_r pk) i)
    remaining_indices public_keys.

Definition create_full_id (package_id : Address) (id : list byte) : list byte :=
  package_id ++ id.

Definition key_purpose_tag (purpose : KeyPurpose) : byte :=
  match purpose with EncryptedRandomness => Byte.x00 | DEM => Byte.x01 end.

Definition derive_key (purpose : KeyPurpose) (base_key : list byte)
    (encrypted_object : EncryptedObject) : list byte :=
  let tag := key_purpose_tag purpose in
  let bytes := ((DST_DERIVE_KEY ++ base_key) ++ [tag]) ++ [threshold encrypted_object] in
  let bytes := foldl app bytes (encrypted_shares encrypted_object) in
  let bytes := foldl app bytes (services encrypted_object) in
  sha3_256 bytes.

Definition verify_derived_key (derived_key gid : G1Element) (public_key : G2Element) : bool :=
  bool_decide (pairing derived_key g_generator = pairing gid public_key).

Definition verify_derived_keys (derived_keys : list G1Element) (package_id : Address)
    (id : list byte) (public_keys : list PublicKey) : outcome N (list VerifiedDerivedKey) :=
  _ ← move_assert (length public_keys =? length derived_keys) EIncompatibleInputLengths;
  let gid := KD.hash_to_g1_with_dst (create_full_id package_id id) in
  zip_map (λ public_key derived_key,
      _ ← move_assert (verify_derived_key derived_key gid (pk public_key)) EInvalidVerifiedKey;
      Ok (mkVerifiedDerivedKey derived_key package_id id (pk_key_server public_key)))
    public_keys derived_keys.

(** [index_of] returns the first index of the value. *)
Definition assert_all_unique {T : Type} `{EqDecision T} (items : list T) (error_code : N) :
    outcome N unit :=
  try_for (λ i,
      item ← borrow items i;
      let j := default 0 (find_index (λ x, bool_decide (x = item)) items) in
      move_assert (i =? j) error_code)
    (seq 0 (length items)).

Definition decrypt (encrypted_object : EncryptedObject)
    (verified_derived_keys : list VerifiedDerivedKey) (public_keys : list PublicKey) :
    outcome N (option (list byte)) :=
  let '{| package_id := package_id; id := id; indices := indices; services := services;
          threshold := threshold; nonce := nonce; encrypted_randomness := encrypted_randomness;
          blob := blob; aad := aad; mac := mac |} := encrypted_object in
  _ ← move_assert (forallb (λ vdk, bool_decide (vdk_package_id vdk = package_id)
        && bool_decide (vdk_id vdk = id)) verified_derived_keys) EWrongVerifiedKeys;
  _ ← assert_all_unique (vdk_key_server <$> verified_derived_keys) EWrongVerifiedKeys;
  _ ← assert_all_unique (pk_key_server <$> public_keys) EWrongPublicKeys;
  public_keys_indices ← try_map (λ addr,
      expect (find_index (λ pk, bool_decide (pk_key_server pk = addr)) public_keys)) services;
  _ ← try_for (λ i, move_assert (bool_decide (i ∈ public_keys_indices)) EWrongPublicKeys)
        (seq 0 (length public_keys));
  indices_per_vdk ← try_map (λ vdk,
      let indices := find_indices (λ service, bool_decide (vdk_key_server vdk = service)) services in
      _ ← move_assert (negb (bool_decide (indices = []))) EWrongVerifiedKeys;
      Ok indices) verified_derived_keys;
  let given_indices := concat indices_per_vdk in
  _ ← move_assert (u8_val threshold <=? N.of_nat (length given_indices))%N
        EInsufficientDerivedKeys;
  let gid := KD.hash_to_g1_with_dst (create_full_id package_id id) in
  decrypted_shares ← decrypt_shares_with_derived_keys indices_per_vdk verified_derived_keys
    encrypted_object gid;
  xs ← try_map (λ i, borrow indices i) given_indices;
  polynomials ← MP.interpolate_all xs decrypted_shares;
  if existsb (λ p, (u8_val threshold <? N.of_nat (MP.degree p + 1))%N) polynomials then Ok None
  else
    let base_key := MP.get_constant_term <$> polynomials in
    let randomness_key := derive_key EncryptedRandomness base_key encrypted_object in
    let dem_key := derive_key DEM base_key encrypted_object in
    randomness ← decrypt_randomness randomness_key encrypted_randomness;
    match randomness with
    | None => Ok None
    | Some randomness =>
        if negb (verify_nonce randomness nonce) then Ok None
        else
          let remaining_indices := List.filter (λ i, negb (bool_decide (i ∈ given_indices)))
            (seq 0 (length indices)) in
          remaining_pks ← try_map (λ i,
              k ← borrow public_keys_indices i;
              public_key ← borrow public_keys k;
              Ok (pk public_key)) remaining_indices;
          remaining_shares ← decrypt_remaining_shares_with_randomness randomness encrypted_object
            remaining_indices remaining_pks gid;
          verified ← zip_map (λ share i,
              index ← borrow indices i; verify_share polynomials share index)
            remaining_shares remaining_indices;
          if existsb negb verified then Ok None
          else HC.decrypt blob mac (default [] aad) dem_key
    end.

Definition peel_tuple_u8 (length : nat) : ST (list byte) N (list byte) := peel_times length peel_u8.

Definition parse_encrypted_object (object : list byte) : outcome N EncryptedObject :=
  let assert_ b := st_lift (move_assert b EInvalidEncryptedObject) in
  fst ((version ← peel_u8;
    _ ← assert_ (bool_decide (version = Byte.x00));
    package_id ← peel_address;
    id ← peel_vec_u8;
    entries ← peel_vec (address ← peel_address; index ← peel_u8; mret (address, index));
    let services := entries.*1 in
    let indices := entries.*2 in
    _ ← assert_ (length services =? length indices);
    _ ← st_lift (assert_all_unique indices EInvalidEncryptedObject);
    _ ← st_lift (try_for (λ index, move_assert (0 <? u8_val index)%N EInvalidEncryptedObject) indices);
    threshold ← peel_u8;
    _ ← (if (0 <? u8_val threshold)%N then
          n ← st_lift (move_uint 8 (N.of_nat (length indices)));
          assert_ (u8_val threshold <=? n)%N
        else assert_ false);
    ibe_type ← peel_enum_tag;
    _ ← assert_ (ibe_type =? 0)%N;
    nonce_bytes ← peel_tuple_u8 96;
    nonce ← st_lift (check_g2 nonce_bytes);
    encrypted_shares ← peel_vec (peel_tuple_u8 32);
    _ ← assert_ (length encrypted_shares =? length indices);
    encrypted_randomness ← peel_tuple_u8 32;
    encryption_type ← peel_enum_tag;
    _ ← assert_ (encryption_type =? 1)%N;
    blob ← peel_vec_u8;
    aad ← peel_option peel_vec_u8;
    mac ← peel_tuple_u8 32;
    mret (mkEncryptedObject package_id id indices services threshold nonce encrypted_shares
      encrypted_randomness blob aad mac)) object).
End bf_hmac_encryption.
End BF.

(** Over the toy groups: lengths are four bytes and variants are one. *)
Module ToyOnChain.
#[local] Existing Instances Toy.symmetric Toy.curve ToyMove.framework.

#[local] Instance chain : OnChain := {
  scalar_from_bytes b := match Toy.scalar_from_bytes b with Ok s => Some s | _ => None end;
  peel_vec_length bcs := (Ok (N.to_nat (le_value (take 4 bcs))), drop 4 bcs);
  peel_enum_tag bcs := match bcs with b :: bcs => (Ok (u8_val b), bcs) | [] => (Panic, []) end;
  bcs_length n := Toy.le_bytes 4 (N.of_nat n);
  bcs_variant n := [u8_of n];
}.

Lemma le_value_le_bytes k n : (n < 256 ^ N.of_nat k)%N → le_value (Toy.le_bytes k n) = n.
Proof.
  revert n. induction k as [|k IH]; intros n Hn; [simpl in *; lia|].
  rewrite Nat2N.inj_succ, N.pow_succ_r' in Hn. cbn [Toy.le_bytes].
  change (le_value (u8_of n :: ?l)) with (u8_val (u8_of n) + 256 * le_value l)%N.
  rewrite IH by (apply N.Div0.div_lt_upper_bound; lia).
  rewrite u8_val_of. pose proof (N.div_mod n 256). lia.
Qed.

#[local] Instance chain_laws : OnChainLaws.
Proof.
  split.
  - intros b s Hl. cbn. unfold Toy.scalar_from_bytes. change Toy.order with SCALAR_FIELD_ORDER.
    rewrite Hl. cbn [Nat.eqb SCALAR_BYTE_LENGTH andb].
    destruct (N.leb_spec SCALAR_FIELD_ORDER (le_value (rev b))); cbn [negb]; [|naive_solver].
    split; [done|]. intros [? _]. lia.
  - intros b Hl Hlt. cbn. unfold Toy.scalar_from_bytes. change Toy.order with SCALAR_FIELD_ORDER.
    rewrite Hl, (proj2 (N.leb_gt _ _) Hlt). by eexists.
  - intros g. destruct g; reflexivity.
  - intros g. destruct g; reflexivity.
  - intros n rest Hn. cbn [peel_vec_length bcs_length chain].
    assert (length (Toy.le_bytes 4 (N.of_nat n)) = 4) as Hl by done.
    rewrite take_app_length' by done. rewrite drop_app_length' by done.
    rewrite le_value_le_bytes, Nat2N.id; [done|]. cbn. lia.
  - intros n rest Hn. cbn. rewrite u8_val_of, N.mod_small; [done|lia].
Qed.
End ToyOnChain.

(** ** What is parsed *)

(** Lengths as the types of the source fix them, and short enough for BCS. *)
Record wire_ok {crv : Curve} (obj : EncryptedObject) : Prop := {
  wire_package : length (eo_package_id obj) = 32;
  wire_id : (N.of_nat (length (eo_id obj)) < 2 ^ 31)%N;
  wire_services : (N.of_nat (length (eo_services obj)) < 2 ^ 31)%N ∧
    Forall (λ service, length service.1 = 32) (eo_services obj);
  wire_shares : match eo_encrypted_shares obj with
    | BonehFranklinBLS12381 _ cs er => (N.of_nat (length cs) < 2 ^ 31)%N ∧
        Forall (λ c, length c = 32) cs ∧ length er = 32 end;
  wire_ciphertext : match eo_ciphertext obj with
    | CHmac256Ctr blob aad mac => (N.of_nat (length blob) < 2 ^ 31)%N ∧
        (N.of_nat (length (default [] aad)) < 2 ^ 31)%N ∧ length mac = 32
    | _ => True end;
}.

(** The object as the contract holds it. *)
Definition on_chain {crv : Curve} (obj : EncryptedObject) : option BF.EncryptedObject :=
  match eo_encrypted_shares obj, eo_ciphertext obj with
  | BonehFranklinBLS12381 nonce cs er, CHmac256Ctr blob aad mac =>
      Some (BF.mkEncryptedObject (eo_package_id obj) (eo_id obj) (eo_services obj).*2
        (eo_services obj).*1 (eo_threshold obj) nonce cs er blob aad mac)
  | _, _ => None
  end.

(** What [parse_encrypted_object] checks. *)
Record valid_on_chain {crv : Curve} (obj : EncryptedObject) : Prop := {
  voc_version : eo_version obj = Byte.x00;
  voc_unique : NoDup (eo_services obj).*2;
  voc_nonzero : u8_zero ∉ (eo_services obj).*2;
  voc_threshold : (0 < u8_val (eo_threshold obj) ≤ N.of_nat (length (eo_services obj)))%N;
  voc_shares : length (ciphertexts (eo_encrypted_shares obj)) = length (eo_services obj);
}.

Section parsing.
  Context {sym : Symmetric} {crv : Curve} {framework : MoveFramework} {chain : OnChain}.
  Context {chain_laws : OnChainLaws}.

Lemma peel_times_bcs {A : Type} (f : ST (list byte) N A) (enc : A → list byte) l rest :
  (∀ a rest, a ∈ l → f (enc a ++ rest) = (Ok a, rest)) →
  peel_times (length l) f (concat (enc <$> l) ++ rest) = (Ok l, rest).
Proof.
  induction l as [|a l IH]; intros Hf; csimpl; [done|]. rewrite <-app_assoc.
  rewrite (st_bind_ok _ _ _ a _ (Hf _ _ ltac:(by left))).
  rewrite (st_bind_ok _ _ _ l rest); [done|]. apply IH. intros. apply Hf. by right.
Qed.

Lemma peel_bytes l rest n : length l = n → peel_times n peel_u8 (l ++ rest) = (Ok l, rest).
Proof.
  intros <-. rewrite <-(peel_times_bcs peel_u8 (λ b, [b]) l rest) by done.
  f_equal. by induction l as [|b l IH]; csimpl; [|rewrite <-IH].
Qed.

Lemma peel_vec_bcs {A : Type} (f : ST (list byte) N A) (enc : A → list byte) l rest :
  (N.of_nat (length l) < 2 ^ 31)%N → (∀ a rest, a ∈ l → f (enc a ++ rest) = (Ok a, rest)) →
  peel_vec f (bcs_vec enc l ++ rest) = (Ok l, rest).
Proof.
  intros Hl Hf. unfold peel_vec, bcs_vec. rewrite <-app_assoc.
  rewrite (st_bind_ok _ _ _ _ _ (peel_vec_length_bcs _ _ Hl)). by apply peel_times_bcs.
Qed.

Lemma peel_vec_u8_bcs l rest :
  (N.of_nat (length l) < 2 ^ 31)%N → peel_vec_u8 (bcs_bytes l ++ rest) = (Ok l, rest).
Proof.
  intros Hl. unfold peel_vec_u8, peel_vec, bcs_bytes. rewrite <-app_assoc.
  rewrite (st_bind_ok _ _ _ _ _ (peel_vec_length_bcs _ _ Hl)). by apply peel_bytes.
Qed.

Lemma peel_option_bcs o rest :
  (N.of_nat (length (default [] o)) < 2 ^ 31)%N →
  peel_option peel_vec_u8 (bcs_option o ++ rest) = (Ok o, rest).
Proof.
  destruct o as [l|]; intros Hl; [|done]. unfold peel_option. cbn [bcs_option app].
  rewrite (st_bind_ok _ _ _ Byte.x01 (bcs_bytes l ++ rest)) by done. cbn beta iota.
  rewrite bool_decide_eq_false_2, bool_decide_eq_true_2 by done.
  by rewrite (st_bind_ok _ _ _ l rest) by (by apply peel_vec_u8_bcs).
Qed.

(** Steps of the parser. *)
Lemma parse_step {A B : Type} (m : ST (list byte) N A) (f : A → ST (list byte) N B) s a s' (b : B) :
  m s = (Ok a, s') → fst ((m ≫= f) s) = Ok b ↔ fst (f a s') = Ok b.
Proof. intros H. by rewrite (st_bind_ok _ _ _ _ _ H). Qed.

Lemma parse_assert {A : Type} (o : outcome N unit) (f : unit → ST (list byte) N A) s (a : A) :
  fst ((st_lift o ≫= f) s) = Ok a ↔ o = Ok () ∧ fst (f () s) = Ok a.
Proof. unfold mbind, st_bind, st_lift. destruct o as [[]| |]; naive_solver. Qed.

Lemma try_for_iff {E A : Type} (f : A → outcome E unit) (l : list A) :
  try_for f l = Ok () ↔ ∀ a, a ∈ l → f a = Ok ().
Proof.
  induction l as [|a l IH]; simpl; [split; [by intros _ a ?%elem_of_nil|done]|]. split.
  - intros ([] & Ha & Hl)%bind_ok_inv b [->|Hb]%elem_of_cons; [done|]. by apply IH.
  - intros H. rewrite (H a) by (by left). apply IH. intros b Hb. apply H. by right.
Qed.

Lemma find_index_spec {A : Type} (f : A → bool) (l : list A) i :
  find_index f l = Some i ↔
  ∃ a, l !! i = Some a ∧ f a = true ∧ ∀ j b, j < i → l !! j = Some b → f b = false.
Proof.
  revert i. induction l as [|a l IH]; intros i; simpl; [split; [done|naive_solver]|].
  destruct (f a) eqn:Ha.
  - split.
    + intros [= <-]. exists a. split_and!; [done..|lia].
    + intros (b & Hb & Hfb & Hfirst). destruct i as [|i]; [done|].
      specialize (Hfirst 0 a ltac:(lia) eq_refl). congruence.
  - rewrite fmap_Some. setoid_rewrite IH. split.
    + intros (i' & (b & Hb & Hfb & Hfirst) & ->). exists b. split_and!; [done..|].
      intros [|j] c Hj Hc; [by injection Hc as <-|]. apply (Hfirst j); [lia|done].
    + intros (b & Hb & Hfb & Hfirst). destruct i as [|i]; [injection Hb as ->; congruence|].
      exists i. split; [|done]. exists b. split_and!; [done..|].
      intros j c Hj Hc. apply (Hfirst (S j)); [lia|done].
Qed.

Lemma assert_all_unique_iff {T : Type} `{EqDecision T} (items : list T) code :
  BF.assert_all_unique items code = Ok () ↔ NoDup items.
Proof.
  unfold BF.assert_all_unique. rewrite try_for_iff. split.
  - intros H. apply NoDup_alt. intros i j x Hi Hj.
    enough (∀ i, items !! i = Some x →
      find_index (λ y, bool_decide (y = x)) items = Some i) as E.
    { apply E in Hi, Hj. congruence. }
    clear i j Hi Hj. intros i Hi.
    assert (∃ k, find_index (λ y, bool_decide (y = x)) items = Some k) as [k Hk].
    { clear H. revert i Hi. induction items as [|y items IH]; intros [|i] Hi; simpl in *; try done.
      - injection Hi as ->. rewrite bool_decide_eq_true_2 by done. by exists 0.
      - case_bool_decide; [by exists 0|]. destruct (IH i Hi) as [k ->]. by exists (S k). }
    specialize (H i). rewrite (borrow_ok _ _ _ Hi), bind_Ok, Hk in H. cbn [default from_option id] in H.
    rewrite Hk. f_equal. symmetry. apply Nat.eqb_eq, (move_assert_inv _ code ()), H, elem_of_seq.
    apply lookup_lt_Some in Hi. lia.
  - intros Hnd i [_ Hi]%elem_of_seq. simpl in Hi.
    destruct (lookup_lt_is_Some_2 items i Hi) as [x Hx].
    rewrite (borrow_ok _ _ _ Hx), bind_Ok.
    rewrite (proj2 (find_index_spec _ _ i)); [by simpl; rewrite Nat.eqb_refl|].
    exists x. split_and!; [done|by apply bool_decide_eq_true|]. intros j y Hj Hy.
    apply bool_decide_eq_false. intros ->. assert (i = j) by (by apply (NoDup_lookup items i j x)). lia.
Qed.

Lemma peel_services_bcs (services : list (Address * byte)) rest :
  (N.of_nat (length services) < 2 ^ 31)%N → Forall (λ service, length service.1 = 32) services →
  peel_vec (address ← peel_address; index ← peel_u8; mret (address, index))
    (bcs_vec (λ '(address, index), address ++ [index]) services ++ rest) = (Ok services, rest).
Proof.
  intros Hl HF. apply peel_vec_bcs; [done|]. intros [a i] r Hin.
  rewrite Forall_forall in HF. specialize (HF _ Hin). simpl in HF.
  rewrite <-app_assoc. rewrite (st_bind_ok _ _ _ a ([i] ++ r)); [done|]. by apply peel_bytes.
Qed.

Lemma nonzero_bytes_length (l : list byte) : NoDup l → u8_zero ∉ l → length l ≤ 255.
Proof.
  intros Hnd Hz. change 255 with (length (share_indices Byte.xff)).
  apply NoDup_incl_length; [by apply NoDup_ListNoDup|]. intros i Hin%list_elem_of_In.
  apply list_elem_of_In, elem_of_share_indices. pose proof (u8_val_bound i).
  destruct (decide (u8_val i = 0)%N) as [E|]; [|cbn; lia].
  assert (i = u8_zero) as -> by (by apply (inj u8_val)). done.
Qed.

(** The parser accepts the encodings of the valid objects in HMAC mode, whatever
    follows them, and reads them as they are. *)
Lemma parse_spec obj rest e :
  wire_ok obj →
  BF.parse_encrypted_object (bcs_encrypted_object obj ++ rest) = Ok e ↔
  valid_on_chain obj ∧ on_chain obj = Some e.
Proof.
  intros [Hp Hi [Hs Hsa] He Hc].
  destruct obj as [v p id services t [nonce cs er] c]. cbn [eo_version eo_package_id eo_id
    eo_services eo_threshold eo_encrypted_shares eo_ciphertext ciphertexts] in *.
  destruct He as (Hcl & Hcs & Her).
  unfold BF.parse_encrypted_object, bcs_encrypted_object.
  cbn [eo_version eo_package_id eo_id eo_services eo_threshold eo_encrypted_shares eo_ciphertext].
  cbn [app]. rewrite <-!app_assoc. cbv zeta.
  rewrite (parse_step _ _ _ v) by done.
  rewrite parse_assert.
  rewrite (parse_step _ _ _ p) by (by apply peel_bytes).
  rewrite (parse_step _ _ _ id) by (by apply peel_vec_u8_bcs).
  rewrite (parse_step _ _ _ services) by (by apply peel_services_bcs).
  rewrite !parse_assert. cbn [app].
  rewrite (parse_step _ _ _ t) by done.
  rewrite <-!app_assoc.
  assert (∀ (f : unit → ST (list byte) N BF.EncryptedObject) s,
    fst (((if (0 <? u8_val t)%N then
        n ← st_lift (move_uint 8 (N.of_nat (length services.*2)));
        st_lift (move_assert (u8_val t <=? n)%N BF.EInvalidEncryptedObject)
      else st_lift (move_assert false BF.EInvalidEncryptedObject)) ≫= f) s) = Ok e ↔
    ((0 < u8_val t ≤ N.of_nat (length services))%N ∧ (N.of_nat (length services) < 2 ^ 8)%N)
      ∧ fst (f () s) = Ok e) as Hthr.
  { intros f s. rewrite length_fmap. destruct (N.ltb_spec 0 (u8_val t)).
    - destruct (decide (N.of_nat (length services) < 2 ^ 8)%N) as [Hn|Hn].
      + unfold mbind at 2, st_bind at 2. unfold st_lift at 1. rewrite move_uint_ok by done.
        rewrite parse_assert. destruct (N.leb_spec (u8_val t) (N.of_nat (length services))).
        * naive_solver.
        * split; [by intros [? _]|lia].
      + unfold mbind, st_bind, st_lift, move_uint. rewrite (proj2 (N.ltb_ge _ _)) by lia.
        split; [done|tauto].
    - rewrite parse_assert. split; [by intros [? _]|lia]. }
  rewrite Hthr. clear Hthr. unfold bcs_ibe_encryptions. rewrite <-!app_assoc.
  rewrite (parse_step _ _ _ 0%N) by (by apply peel_enum_tag_bcs).
  rewrite parse_assert.
  rewrite (parse_step _ _ _ (bcs_g2 nonce)) by (apply peel_bytes, bcs_g2_length).
  unfold check_g2. rewrite g2_from_bytes_bcs.
  rewrite (parse_step _ _ _ nonce) by done.
  rewrite (parse_step _ _ _ cs).
  2: { apply peel_vec_bcs; [done|]. intros c' r Hin. apply peel_bytes.
    by rewrite Forall_forall in Hcs; apply Hcs. }
  rewrite parse_assert.
  rewrite (parse_step _ _ _ er) by (by apply peel_bytes).
  assert (∀ b code, move_assert b code = Ok () ↔ b = true) as Hassert.
  { intros b code. by destruct b. }
  assert (fst ((encryption_type ← peel_enum_tag;
      _ ← st_lift (move_assert (encryption_type =? 1)%N BF.EInvalidEncryptedObject);
      blob ← peel_vec_u8; aad ← peel_option peel_vec_u8; mac ← BF.peel_tuple_u8 32;
      mret (BF.mkEncryptedObject p id services.*2 services.*1 t nonce cs er blob aad mac))
      (bcs_ciphertext c ++ rest)) = Ok e ↔
    on_chain (mkEncryptedObject v p id services t (BonehFranklinBLS12381 nonce cs er) c) = Some e)
    as Htail.
  { destruct c as [blob aad|blob aad mac|]; cbn [bcs_ciphertext on_chain eo_encrypted_shares
      eo_ciphertext]; rewrite <-?app_assoc.
    - rewrite (parse_step _ _ _ 0%N) by (by apply peel_enum_tag_bcs).
      rewrite parse_assert, Hassert. split; [by intros [? _]|done].
    - destruct Hc as (Hb & Ha & Hm).
      rewrite (parse_step _ _ _ 1%N) by (by apply peel_enum_tag_bcs).
      rewrite parse_assert, Hassert.
      rewrite (parse_step _ _ _ blob) by (by apply peel_vec_u8_bcs).
      rewrite (parse_step _ _ _ aad) by (by apply peel_option_bcs).
      rewrite (parse_step _ _ _ mac) by (by apply peel_bytes). cbn. naive_solver.
    - rewrite (parse_step _ _ _ 2%N) by (by apply peel_enum_tag_bcs).
      rewrite parse_assert, Hassert. split; [by intros [? _]|done]. }
  rewrite Htail, !Hassert, assert_all_unique_iff, try_for_iff, bool_decide_eq_true, !Nat.eqb_eq.
  rewrite !length_fmap. split.
  - intros (-> & _ & Hnd & Hz & (Ht & _) & _ & Hlen & ->). split; [|done]. split; try done.
    intros H0. specialize (Hz _ H0). by apply Hassert in Hz.
  - intros [[Hv Hnd Hz Ht Hlen] ->].
    cbn [eo_version eo_services eo_threshold eo_encrypted_shares ciphertexts] in *. subst v.
    split_and!; try done; try lia.
    + intros i Hin. apply Hassert, N.ltb_lt. destruct (decide (u8_val i = 0)%N) as [E|]; [|lia].
      assert (i = u8_zero) as -> by (by apply (inj u8_val)). done.
    + pose proof (nonzero_bytes_length services.*2 Hnd Hz) as H. rewrite length_fmap in H. lia.
Qed.
End parsing.
