(* ===== verification/MoveDecryptTheory.v ===== *)
(** * What decryption on chain computes

    The steps of [bf_hmac_encryption.move] against those of
    [crates/crypto/src/lib.rs], for an object, master keys, and a choice of key
    servers whose keys are given: both open the same shares, and both derive
    the same keys from them. *)

From Stdlib Require Import NArith Lia.
From S2P Require Import Prelude Gf256 Polynomial Utils Tss Primitives Dem Elgamal Ibe Seal SealTheory Common Chain MoveLib MoveCrypto MoveDecrypt.

(** ** Generic lemmas *)
Lemma find_index_is_Some {A : Type} (f : A → bool) (l : list A) a :
  a ∈ l → f a = true → is_Some (find_index f l).
Proof.
  induction 1 as [a l|a b l _ IH]; intros Hf; simpl; [by rewrite Hf|].
  destruct (f b); [done|]. by apply fmap_is_Some, IH.
Qed.

Lemma find_indices_NoDup {A : Type} (f : A → bool) (l : list A) : NoDup (find_indices f l).
Proof.
  unfold find_indices.
  assert ((List.filter (λ '(_, a), f a) (enumerate l)).*1 `sublist_of` (enumerate l).*1) as Hs.
  { apply fmap_sublist. induction (enumerate l) as [|[i a] k IH]; simpl; [done|].
    destruct (f a); by constructor. }
  apply (sublist_NoDup _ _ (NoDup_seq 0 (length l))). revert Hs. unfold enumerate.
  rewrite fst_zip by (by rewrite length_seq). done.
Qed.

Lemma concat_fmap_bind {A B : Type} (f : A → list B) (l : list A) : concat (f <$> l) = l ≫= f.
Proof. induction l as [|a l IH]; [done|]. csimpl. by rewrite IH. Qed.

Lemma foldl_app_concat (l : list (list byte)) acc : foldl app acc l = acc ++ concat l.
Proof.
  revert acc. induction l as [|a l IH]; intros acc; simpl; [by rewrite app_nil_r|].
  by rewrite IH, <-app_assoc.
Qed.

(** ** The degree of the polynomials *)

(** The shares that the keys open lie on polynomials of a degree below the
    threshold, as those of an honest encryption do. *)
Definition low_degree {sym : Symmetric} {crv : Curve} (obj : EncryptedObject)
    (usks : gmap ObjectID UserSecretKey) : Prop :=
  ∃ polys : list Polynomial, length polys = KEY_SIZE ∧
    Forall (λ p : Polynomial, length p ≤ N.to_nat (u8_val (eo_threshold obj))) polys ∧
    ∀ x share, (x, share) ∈ opened_shares obj usks → share = share_of polys x.

(** Two lists of short polynomials with the same shares have the same degrees. *)
Lemma low_degree_polys (ps : list MP.Polynomial) (xs : list byte) t :
  NoDup xs → length xs ≤ 255 → 0 < t ≤ length xs →
  Forall (λ p, length (MP.coefficients p) ≤ length xs) ps →
  (∀ p, p ∈ ps → MP.degree p + 1 ≤ t) ↔
  ∃ polys : list Polynomial, length polys = length ps ∧
    Forall (λ p : Polynomial, length p ≤ t) polys ∧
    ∀ x, x ∈ xs → share_of (MP.coefficients <$> ps) x = share_of polys x.
Proof.
  intros Hnd Hxs Ht Hl. split.
  - intros Hd. exists ((λ p, take t (MP.coefficients p)) <$> ps). split_and!.
    + by rewrite length_fmap.
    + apply Forall_fmap, Forall_forall. intros p _. simpl. rewrite length_take. lia.
    + intros x _. unfold share_of. rewrite <-!list_fmap_compose. apply list_fmap_ext.
      intros i p Hp. simpl. rewrite !evaluate_peval.
      apply mp_degree_take, Hd. by apply list_elem_of_lookup_2 in Hp.
  - intros (polys & Hpl & Hpt & Hx) p [i Hi]%list_elem_of_lookup.
    destruct (lookup_lt_is_Some_2 polys i) as [q Hq]; [apply lookup_lt_Some in Hi; lia|].
    pose proof (Forall_lookup_1 _ _ _ _ Hl Hi) as Hlp. cbv beta in Hlp.
    pose proof (Forall_lookup_1 _ _ _ _ Hpt Hq) as Hlq. cbv beta in Hlq.
    apply mp_degree_bound; [lia..|]. exists q. split; [done|].
    apply (peval_unique _ _ xs Hnd); [lia..|]. intros x Hin.
    pose proof (f_equal (λ l, l !! i) (Hx x Hin)) as E. cbv beta in E. unfold share_of in E.
    rewrite !list_lookup_fmap, Hi, Hq in E. injection E as E. by rewrite !evaluate_peval in E.
Qed.

(** ** One object *)
Section agreement.
  Context {sym : Symmetric} {sym_laws : SymmetricLaws} {crv : Curve} {crv_laws : CurveLaws}.
  Context {framework : MoveFramework} {chain : OnChain} {chain_laws : OnChainLaws}.
  Context (pkg oid : list byte) (services : list (Address * byte)) (t : byte)
    (nonce : G2Element) (cs : list (list byte)) (er blob : list byte) (aad : option (list byte))
    (mac : list byte) (msk : Address → Scalar).

  #[local] Notation obj := (mkEncryptedObject Byte.x00 pkg oid services t
    (BonehFranklinBLS12381 nonce cs er) (CHmac256Ctr blob aad mac)).
  #[local] Notation e := (BF.mkEncryptedObject pkg oid services.*2 services.*1 t
    nonce cs er blob aad mac).
  #[local] Notation full_id := (Seal.create_full_id pkg oid).

  Context (Hnd : NoDup services.*2) (Hz : u8_zero ∉ services.*2) (Ht : (0 < u8_val t)%N)
    (Hcs : length cs = length services) (Hc32 : Forall (λ c, length c = 32) cs)
    (Her : length er = 32) (Hblob : (N.of_nat (length blob) < 2 ^ 64)%N).

(** Every share, opened with the key of its server. *)
Definition all_opened : list (byte * list byte) :=
  zip_with (λ service c, (service.2,
    ibe_decrypt nonce c (extract (msk service.1) full_id) full_id service)) services cs.

Definition index_at (i : nat) : byte := nth i services.*2 u8_zero.
Definition share_at (i : nat) : list byte := nth i all_opened.*2 [].

Lemma index_at_spec i service : services !! i = Some service → index_at i = service.2.
Proof. intros Hi. apply nth_lookup_Some. by rewrite list_lookup_fmap, Hi. Qed.

Lemma share_at_spec i service c :
  services !! i = Some service → cs !! i = Some c →
  share_at i = ibe_decrypt nonce c (extract (msk service.1) full_id) full_id service.
Proof.
  intros Hi Hc. apply nth_lookup_Some. unfold all_opened.
  by rewrite list_lookup_fmap, lookup_zip_with, Hi, Hc.
Qed.

Lemma share_lookup i service : services !! i = Some service → is_Some (cs !! i).
Proof. intros Hi. apply lookup_lt_is_Some. apply lookup_lt_Some in Hi. lia. Qed.

Lemma ciphertext_length i c : cs !! i = Some c → length c = 32.
Proof. intros Hi. by apply (Forall_lookup_1 _ _ _ _ Hc32 Hi). Qed.

Lemma share_at_length i service : services !! i = Some service → length (share_at i) = 32.
Proof.
  intros Hi. destruct (share_lookup i service Hi) as [c Hc].
  rewrite (share_at_spec i service c Hi Hc). unfold ibe_decrypt, Utils.xor.
  by rewrite xor_unchecked_length, kdf_length, (ciphertext_length i c Hc).
Qed.

Lemma decrypt_share_spec i service target :
  services !! i = Some service →
  target = pairing (extract (msk service.1) full_id) nonce →
  BF.decrypt_share e (hash_to_g1 full_id) target i = Ok (share_at i).
Proof.
  intros Hi ->. destruct (share_lookup i service Hi) as [c Hc]. unfold BF.decrypt_share.
  cbn [BF.encrypted_shares BF.services BF.indices BF.nonce].
  rewrite (borrow_ok _ _ _ Hc), bind_Ok.
  rewrite (borrow_ok services.*1 i service.1), bind_Ok by (by rewrite list_lookup_fmap, Hi).
  rewrite (borrow_ok services.*2 i service.2), bind_Ok by (by rewrite list_lookup_fmap, Hi).
  rewrite kd_kdf_spec, (share_at_spec i service c Hi Hc). unfold BF.xor, ibe_decrypt.
  destruct service as [a x]. rewrite bind_assert; [done|].
  by rewrite kdf_length, (ciphertext_length i c Hc).
Qed.

(** Under the randomness of the nonce, keys are not needed. *)
Lemma pairing_randomness r a :
  nonce = g_mul g_generator r →
  pairing (g_mul (hash_to_g1 full_id) r) (public_key_from_master_key (msk a))
  = pairing (extract (msk a) full_id) nonce.
Proof.
  intros ->. unfold extract, public_key_from_master_key. by rewrite <-!pairing_mul, (g_mul_comm _ r).
Qed.

Lemma bf_derive_key_spec purpose base_key :
  Seal.derive_key purpose base_key cs t services.*1 = Ok (BF.derive_key purpose base_key e).
Proof.
  unfold Seal.derive_key, BF.derive_key. rewrite length_fmap, Hcs, Nat.eqb_refl.
  cbn [BF.threshold BF.encrypted_shares BF.services assert]. rewrite bind_Ok, !foldl_app_concat.
  rewrite <-!app_assoc. by destruct purpose.
Qed.

Lemma bf_derive_key_length purpose base_key : length (BF.derive_key purpose base_key e) = 32.
Proof. apply sha3_256_length. Qed.

Lemma safe_scalar_spec b :
  length b = 32 →
  BF.safe_scalar_from_bytes b =
    Ok (match scalar_from_byte_array b with Ok s => Some s | _ => None end).
Proof.
  intros Hl. unfold BF.safe_scalar_from_bytes. rewrite Hl. cbn [Nat.eqb SCALAR_BYTE_LENGTH negb].
  destruct (N.leb_spec SCALAR_FIELD_ORDER (le_value (rev b))) as [Ho|Ho].
  - destruct (scalar_from_byte_array b) as [s| |] eqn:Hs; [|done..].
    apply scalar_from_bytes_agree in Hs as [Hlt _]; [lia|done].
  - destruct (scalar_from_bytes_total b Hl Ho) as [s Hs]. rewrite Hs.
    by rewrite (proj2 (scalar_from_bytes_agree b s Hl)).
Qed.

Lemma bf_decrypt_randomness_spec key :
  length key = 32 →
  BF.decrypt_randomness key er =
    Ok (match decrypt_randomness er key with Ok s => Some s | _ => None end).
Proof.
  intros Hk. unfold BF.decrypt_randomness, decrypt_randomness, BF.xor.
  rewrite Her, Hk. cbn [Nat.eqb move_assert]. rewrite !bind_Ok.
  rewrite safe_scalar_spec by (rewrite length_zip_with; lia).
  by change (zip_with byte_xor er key) with (xor_unchecked er key); rewrite xor_unchecked_comm.
Qed.

(** ** The given keys *)

(** The positions that the key server [ks] holds. *)
Definition positions (ks : Address) : list nat :=
  find_indices (λ service, bool_decide (ks = service)) services.*1.

Context (sel : list Address) (usks : gmap ObjectID UserSecretKey).
Context (Hsel : NoDup sel) (Hsub : ∀ ks, ks ∈ sel → ks ∈ services.*1)
  (Husks : ∀ ks usk, usks !! ks = Some usk ↔ ks ∈ sel ∧ usk = extract (msk ks) full_id).

Definition given : list nat := concat (positions <$> sel).

Lemma elem_of_positions i ks :
  i ∈ positions ks ↔ ∃ service, services !! i = Some service ∧ service.1 = ks.
Proof.
  unfold positions. rewrite elem_of_find_indices. setoid_rewrite list_lookup_fmap.
  setoid_rewrite bool_decide_eq_true. split.
  - intros (a & (service & -> & Hi)%fmap_Some & ->). by exists service.
  - intros (service & -> & <-). by eexists.
Qed.

Lemma elem_of_given i : i ∈ given ↔ ∃ service, services !! i = Some service ∧ service.1 ∈ sel.
Proof.
  unfold given. rewrite concat_fmap_bind, list_elem_of_bind. setoid_rewrite elem_of_positions.
  naive_solver.
Qed.

Lemma given_NoDup : NoDup given.
Proof.
  unfold given. rewrite concat_fmap_bind. apply NoDup_bind; [|intros; apply find_indices_NoDup|done].
  intros ks ks' i _ _ (s & Hs & <-)%elem_of_positions (s' & Hs' & <-)%elem_of_positions. congruence.
Qed.

Lemma given_lt i : i ∈ given → i < length services.
Proof. intros (service & Hi & _)%elem_of_given. by apply lookup_lt_Some in Hi. Qed.

Lemma index_at_nonzero i : i < length services → u8_zero ≠ index_at i.
Proof.
  intros [s Hi]%lookup_lt_is_Some. rewrite (index_at_spec i s Hi). intros E. apply Hz.
  rewrite E. apply list_elem_of_fmap. exists s. split; [done|by apply list_elem_of_lookup_2 in Hi].
Qed.

Lemma index_at_inj i j :
  i < length services → j < length services → index_at i = index_at j → i = j.
Proof.
  intros [s Hi]%lookup_lt_is_Some [s' Hj]%lookup_lt_is_Some.
  rewrite (index_at_spec i s Hi), (index_at_spec j s' Hj). intros E.
  apply (NoDup_lookup services.*2 i j s.2 Hnd); rewrite list_lookup_fmap; [by rewrite Hi|].
  by rewrite Hj, E.
Qed.

Lemma elem_of_opened x sh :
  (x, sh) ∈ opened_shares obj usks ↔ ∃ i, i ∈ given ∧ x = index_at i ∧ sh = share_at i.
Proof.
  unfold opened_shares, selected. cbn [eo_encrypted_shares eo_services eo_package_id eo_id].
  rewrite list_elem_of_omap. split.
  - intros ([service c] & Hz' & (usk & [Hin ->]%Husks & [= -> ->])%fmap_Some).
    apply list_elem_of_lookup in Hz' as (i & (s & c' & [= <- <-] & Hs & Hc)%lookup_zip_with_Some).
    exists i. split_and!; [apply elem_of_given; by exists service|by rewrite (index_at_spec i service)|].
    by rewrite (share_at_spec i service c).
  - intros (i & (service & Hi & Hin)%elem_of_given & -> & ->).
    destruct (share_lookup i service Hi) as [c Hc]. exists (service, c). split.
    + apply list_elem_of_lookup. exists i. by rewrite lookup_zip_with, Hi, Hc.
    + apply fmap_Some. exists (extract (msk service.1) full_id). split; [by apply Husks|].
      by rewrite (index_at_spec i service Hi), (share_at_spec i service c Hi Hc).
Qed.

Lemma opened_perm : (λ i, (index_at i, share_at i)) <$> given ≡ₚ opened_shares obj usks.
Proof.
  apply NoDup_Permutation.
  - apply NoDup_fmap_2_strong; [|apply given_NoDup].
    intros i j Hi Hj [= E _]. by apply index_at_inj; [apply given_lt..|].
  - apply (NoDup_fmap_1 fst). apply (sublist_NoDup _ _ Hnd), (opened_shares_sublist obj).
  - intros [x sh]. rewrite elem_of_opened, list_elem_of_fmap. naive_solver.
Qed.

Lemma given_length : length given = keys_held obj usks.
Proof.
  rewrite <-(opened_shares_length obj usks) by done.
  by rewrite <-(Permutation_length opened_perm), length_fmap.
Qed.

(** ** Decryption by the Rust code, over polynomials through the given shares *)
#[local] Notation public_keys :=
  ((λ service, public_key_from_master_key (msk service.1)) <$> services).

Lemma decrypt_all_spec base_key r :
  decrypt_randomness er (BF.derive_key EncryptedRandomness base_key e) = Ok r →
  nonce = g_mul g_generator r →
  decrypt_all_shares_and_verify_nonce (BonehFranklinBLS12381 nonce cs er) full_id services
    (BonehFranklinPublicKeys public_keys) base_key t = Ok all_opened.
Proof.
  intros Hr Hn. unfold decrypt_all_shares_and_verify_nonce. cbn [ciphertexts].
  assert (verify_nonce r nonce = Ok ()) as Hv by (by rewrite Hn, verify_nonce_ok).
  rewrite bf_derive_key_spec, bind_Ok, Hr, bind_Ok, Hv, bind_Ok.
  rewrite length_fmap, Hcs, Nat.eqb_refl. cbn [negb].
  apply try_map_inv, Forall2_same_length_lookup_2.
  { unfold all_opened. rewrite !length_zip_with, length_fmap. lia. }
  intros i [[pk c] service] [x sh] Hi Ho.
  apply lookup_zip_with_Some in Hi as ([pk' c'] & service' & [= <- <- <-] & Hi & Hs).
  apply lookup_zip_with_Some in Hi as (pk' & c' & [= <- <-] & Hpk & Hc).
  rewrite list_lookup_fmap, Hs in Hpk. injection Hpk as <-.
  unfold all_opened in Ho. rewrite lookup_zip_with, Hs, Hc in Ho. injection Ho as <- <-.
  by rewrite ibe_decrypt_deterministic, <-Hn.
Qed.

Lemma all_opened_elem x sh :
  (x, sh) ∈ all_opened ↔ ∃ i, i < length services ∧ x = index_at i ∧ sh = share_at i.
Proof.
  unfold all_opened. rewrite list_elem_of_lookup. split.
  - intros (i & (service & c & [= -> ->] & Hs & Hc)%lookup_zip_with_Some). exists i.
    split_and!; [by apply lookup_lt_Some in Hs|by rewrite (index_at_spec i service)|].
    by rewrite (share_at_spec i service c).
  - intros (i & [service Hs]%lookup_lt_is_Some & -> & ->).
    destruct (share_lookup i service Hs) as [c Hc]. exists i.
    by rewrite lookup_zip_with, Hs, Hc, (index_at_spec i service Hs), (share_at_spec i service c Hs Hc).
Qed.

(** ** Decryption by the contract *)
Context (servers : list Address) (Hsrv : NoDup servers)
  (Hsrv_in : ∀ ks, ks ∈ servers ↔ ks ∈ services.*1).

Definition contract_pks : list BF.PublicKey :=
  (λ ks, BF.mkPublicKey ks (public_key_from_master_key (msk ks))) <$> servers.
Definition contract_vdks : list BF.VerifiedDerivedKey :=
  (λ ks, BF.mkVerifiedDerivedKey (extract (msk ks) full_id) pkg oid ks) <$> sel.

Lemma contract_pks_find ks :
  ks ∈ servers →
  ∃ k, find_index (λ pk, bool_decide (BF.pk_key_server pk = ks)) contract_pks = Some k ∧
    servers !! k = Some ks.
Proof.
  intros Hin. destruct (find_index_is_Some (λ pk, bool_decide (BF.pk_key_server pk = ks))
    contract_pks (BF.mkPublicKey ks (public_key_from_master_key (msk ks)))) as [k Hk].
  - apply list_elem_of_fmap. by exists ks.
  - by apply bool_decide_eq_true.
  - exists k. split; [done|]. apply find_index_spec in Hk as (p & Hp & Hks & _).
    unfold contract_pks in Hp. rewrite list_lookup_fmap in Hp.
    apply fmap_Some in Hp as (ks' & Hk & ->). by apply bool_decide_eq_true in Hks as <-.
Qed.

Lemma public_keys_indices_spec :
  ∃ pki, try_map (λ addr, expect (E := N) (find_index
      (λ pk, bool_decide (BF.pk_key_server pk = addr)) contract_pks)) services.*1 = Ok pki ∧
    Forall2 (λ addr k, servers !! k = Some addr) services.*1 pki.
Proof.
  apply try_map_ok. intros ks Hks%Hsrv_in. destruct (contract_pks_find ks Hks) as (k & Hk & Hs).
  exists k. by rewrite Hk.
Qed.

Lemma public_keys_used pki :
  Forall2 (λ addr k, servers !! k = Some addr) services.*1 pki →
  try_for (λ i, move_assert (bool_decide (i ∈ pki)) BF.EWrongPublicKeys)
    (seq 0 (length contract_pks)) = Ok ().
Proof.
  intros HF. apply try_for_iff. intros i [_ Hi]%elem_of_seq.
  unfold contract_pks in Hi. rewrite length_fmap in Hi.
  destruct (lookup_lt_is_Some_2 servers i) as [ks Hks]; [done|].
  apply move_assert_true, bool_decide_eq_true.
  assert (ks ∈ services.*1) as [j Hj]%list_elem_of_lookup
    by (by apply Hsrv_in; apply list_elem_of_lookup_2 in Hks).
  destruct (Forall2_lookup_l _ _ _ _ _ HF Hj) as (k & Hk & Hks').
  rewrite (NoDup_lookup servers i k ks Hsrv Hks Hks'). by apply list_elem_of_lookup_2 in Hk.
Qed.

Lemma indices_per_vdk_spec :
  try_map (λ vdk,
    _ ← move_assert (negb (bool_decide (find_indices
      (λ service, bool_decide (BF.vdk_key_server vdk = service)) services.*1 = [])))
      BF.EWrongVerifiedKeys;
    Ok (find_indices (λ service, bool_decide (BF.vdk_key_server vdk = service)) services.*1))
    contract_vdks = Ok (positions <$> sel).
Proof.
  unfold contract_vdks. rewrite try_map_fmap. apply try_map_pure. intros ks Hks.
  cbn [BF.vdk_key_server]. fold (positions ks). apply bind_assert.
  rewrite bool_decide_eq_false_2; [done|]. intros E.
  apply Hsub, list_elem_of_fmap in Hks as (service & -> & [i Hi]%list_elem_of_lookup).
  assert (i ∈ positions service.1) as Hin by (apply elem_of_positions; by exists service).
  rewrite E in Hin. by apply elem_of_nil in Hin.
Qed.

Lemma decrypted_shares_spec :
  BF.decrypt_shares_with_derived_keys (positions <$> sel) contract_vdks e (hash_to_g1 full_id)
  = Ok (share_at <$> given).
Proof.
  unfold BF.decrypt_shares_with_derived_keys, contract_vdks, given.
  rewrite (zip_map_pure _ (λ idxs _, share_at <$> idxs)).
  - rewrite bind_Ok. f_equal. clear. induction sel as [|ks l IH]; [done|]. csimpl.
    by rewrite IH, fmap_app.
  - by rewrite !length_fmap.
  - intros idxs vdk Hin. cbv zeta. cbn [BF.nonce].
    apply list_elem_of_lookup in Hin as (k & (idxs' & vdk' & [= <- <-] & H1 & H2)%lookup_zip_with_Some).
    rewrite list_lookup_fmap in H1. rewrite list_lookup_fmap in H2. destruct (sel !! k) as [ks|]; [|done].
    injection H1 as <-. injection H2 as <-. cbn [BF.derived_key].
    apply try_map_pure. intros i (service & Hi & <-)%elem_of_positions.
    by apply (decrypt_share_spec i service).
Qed.

Lemma given_indices_spec :
  try_map (λ i, borrow services.*2 i) given = Ok (index_at <$> given).
Proof.
  apply try_map_pure. intros i Hi%given_lt. apply borrow_nth. by rewrite length_fmap.
Qed.

Lemma verify_share_spec ps share x :
  length share = length ps →
  BF.verify_share ps share x = Ok (bool_decide (share = share_of (MP.coefficients <$> ps) x)).
Proof.
  intros Hl. unfold BF.verify_share.
  rewrite (zip_map_pure _ (λ p s, bool_decide (evaluate (MP.coefficients p) x = s))).
  2: done.
  2: { intros p s _. by rewrite mp_evaluate_spec, bind_Ok, evaluate_peval. }
  rewrite bind_Ok. f_equal. unfold share_of. rewrite <-list_fmap_compose.
  revert share Hl. induction ps as [|p ps IH]; intros [|s share] Hl; try done.
  csimpl. rewrite IH by (simpl in Hl; lia).
  destruct (decide (evaluate (MP.coefficients p) x = s)) as [->|Hne].
  - rewrite bool_decide_eq_true_2 by done. cbn [andb]. apply bool_decide_ext. naive_solver.
  - rewrite (bool_decide_eq_false_2 (evaluate _ _ = s)) by done.
    by rewrite (bool_decide_eq_false_2 (s :: share = _)) by (by intros [= ? _]).
Qed.

(** *** The shares that are left *)
Definition remaining : list nat :=
  List.filter (λ i, negb (bool_decide (i ∈ given))) (seq 0 (length services)).

Lemma elem_of_remaining i : i ∈ remaining ↔ i < length services ∧ i ∉ given.
Proof.
  unfold remaining. rewrite list_elem_of_In, filter_In, <-list_elem_of_In, elem_of_seq.
  rewrite negb_true_iff, bool_decide_eq_false. simpl. split; intros []; split; auto; lia.
Qed.

Definition server_at (i : nat) : Address := nth i services.*1 [].

Lemma remaining_pks_spec pki :
  Forall2 (λ addr k, servers !! k = Some addr) services.*1 pki →
  try_map (λ i, k ← borrow pki i; public_key ← borrow contract_pks k; Ok (BF.pk public_key))
    remaining = Ok ((λ i, public_key_from_master_key (msk (server_at i))) <$> remaining).
Proof.
  intros HF. apply try_map_pure. intros i [Hi _]%elem_of_remaining.
  destruct (lookup_lt_is_Some_2 services.*1 i) as [ks Hks]; [by rewrite length_fmap|].
  destruct (Forall2_lookup_l _ _ _ _ _ HF Hks) as (k & Hk & Hsk).
  rewrite (borrow_ok _ _ _ Hk), bind_Ok. unfold contract_pks, server_at.
  rewrite (borrow_ok _ k (BF.mkPublicKey ks (public_key_from_master_key (msk ks)))), bind_Ok
    by (by rewrite list_lookup_fmap, Hsk).
  by rewrite (nth_lookup_Some _ _ _ _ Hks).
Qed.

Lemma remaining_shares_spec r :
  nonce = g_mul g_generator r →
  BF.decrypt_remaining_shares_with_randomness r e remaining
    ((λ i, public_key_from_master_key (msk (server_at i))) <$> remaining) (hash_to_g1 full_id)
  = Ok (share_at <$> remaining).
Proof.
  intros Hn. unfold BF.decrypt_remaining_shares_with_randomness.
  rewrite bind_assert by (by rewrite length_fmap, Nat.eqb_refl). cbv zeta.
  rewrite (zip_map_pure _ (λ i _, share_at i)).
  - f_equal. generalize remaining. intros l. induction l as [|i l IH]; [done|]. csimpl. by rewrite IH.
  - by rewrite length_fmap.
  - intros i pk Hin.
    apply list_elem_of_lookup in Hin as (k & (i' & pk' & [= <- <-] & H1 & H2)%lookup_zip_with_Some).
    rewrite list_lookup_fmap, H1 in H2. injection H2 as <-.
    apply list_elem_of_lookup_2, elem_of_remaining in H1 as [Hi _].
    destruct (lookup_lt_is_Some_2 services i Hi) as [service Hs].
    apply (decrypt_share_spec i service); [done|]. rewrite <-(pairing_randomness r) by done.
    do 3 f_equal. unfold server_at. apply nth_lookup_Some. by rewrite list_lookup_fmap, Hs.
Qed.

Lemma verified_spec ps :
  length ps = 32 →
  zip_map (λ share i, index ← borrow services.*2 i; BF.verify_share ps share index)
    (share_at <$> remaining) remaining
  = Ok ((λ i, bool_decide (share_at i = share_of (MP.coefficients <$> ps) (index_at i)))
      <$> remaining).
Proof.
  intros Hps. rewrite (zip_map_pure _ (λ share i,
    bool_decide (share = share_of (MP.coefficients <$> ps) (index_at i)))).
  - f_equal. generalize remaining. intros l. induction l as [|i l IH]; [done|]. csimpl. by rewrite IH.
  - by rewrite length_fmap.
  - intros share i Hin.
    apply list_elem_of_lookup in Hin as (k & (share' & i' & [= <- <-] & H1 & H2)%lookup_zip_with_Some).
    rewrite list_lookup_fmap, H2 in H1. injection H1 as <-.
    apply list_elem_of_lookup_2, elem_of_remaining in H2 as [Hi _].
    destruct (lookup_lt_is_Some_2 services i Hi) as [service Hs].
    rewrite borrow_nth, bind_Ok by (by rewrite length_fmap).
    apply verify_share_spec. by rewrite Hps, (share_at_length i service).
Qed.

Lemma degrees_spec ps :
  existsb (λ p, (u8_val t <? N.of_nat (MP.degree p + 1))%N) ps = false ↔
  ∀ p, p ∈ ps → MP.degree p + 1 ≤ N.to_nat (u8_val t).
Proof.
  rewrite <-not_true_iff_false, existsb_exists. split.
  - intros H p Hp%list_elem_of_In. destruct (decide (MP.degree p + 1 ≤ N.to_nat (u8_val t))); [done|].
    destruct H. exists p. split; [done|]. apply N.ltb_lt. lia.
  - intros H (p & Hp%list_elem_of_In & Hlt%N.ltb_lt). specialize (H p Hp). lia.
Qed.

Lemma existsb_negb {A : Type} (f : A → bool) (l : list A) :
  existsb negb (f <$> l) = false ↔ ∀ a, a ∈ l → f a = true.
Proof.
  rewrite <-not_true_iff_false, existsb_exists. split.
  - intros H a Ha. destruct (f a) eqn:Hf; [done|]. destruct H. exists (f a).
    split; [by apply list_elem_of_In, list_elem_of_fmap_2|by rewrite Hf].
  - intros H (b & (a & -> & Ha)%list_elem_of_In%list_elem_of_fmap & Hb). by rewrite H in Hb.
Qed.

(** The last steps of [decrypt], from the interpolated polynomials on. *)
Definition finish (ps : list MP.Polynomial) (m : list byte) : Prop :=
  let polys := MP.coefficients <$> ps in
  (∀ p, p ∈ ps → MP.degree p + 1 ≤ N.to_nat (u8_val t)) ∧
  ∃ r, decrypt_randomness er (BF.derive_key EncryptedRandomness (share_of polys u8_zero) e) = Ok r ∧
    nonce = g_mul g_generator r ∧
    (∀ i, i ∈ remaining → share_at i = share_of polys (index_at i)) ∧
    hmac256ctr_decrypt blob mac (default [] aad)
      (BF.derive_key DEM (share_of polys u8_zero) e) = Ok m.

(** The polynomials that the given shares determine. *)
Definition interpolates (ps : list MP.Polynomial) : Prop :=
  length ps = 32 ∧ Forall (λ p, length (MP.coefficients p) ≤ length given) ps ∧
  ∀ i, i ∈ given → share_at i = share_of (MP.coefficients <$> ps) (index_at i).

Lemma interpolate_given :
  given ≠ [] →
  ∃ ps, MP.interpolate_all (index_at <$> given) (share_at <$> given) = Ok ps ∧ interpolates ps.
Proof.
  intros Hne. assert (NoDup (index_at <$> given)) as Hnd'.
  { apply NoDup_fmap_2_strong; [|apply given_NoDup].
    intros i j Hi Hj E. by apply index_at_inj; [apply given_lt..|]. }
  assert (u8_zero ∉ index_at <$> given) as Hz'.
  { intros (i & E & Hi%given_lt)%list_elem_of_fmap. by apply (index_at_nonzero i). }
  destruct (mp_interpolate_all_spec (index_at <$> given) (share_at <$> given) 32)
    as (ps & Hps & Hl & Hlen & Hon).
  - done.
  - by intros E%fmap_nil_inv.
  - by apply nonzero_bytes_length.
  - by rewrite !length_fmap.
  - apply Forall_fmap, Forall_forall. intros i (service & Hi & _)%elem_of_given.
    by apply (share_at_length i service).
  - exists ps. split; [done|]. rewrite length_fmap in Hlen. split_and!; [done..|].
    intros i [k Hk]%list_elem_of_lookup.
    apply (Hon k); by rewrite list_lookup_fmap, Hk.
Qed.

Lemma contract_decrypt_spec :
  (N.of_nat (length given) < u8_val t →
    BF.decrypt e contract_vdks contract_pks = Err BF.EInsufficientDerivedKeys)%N ∧
  ((u8_val t ≤ N.of_nat (length given))%N →
    ∃ ps o, interpolates ps ∧ BF.decrypt e contract_vdks contract_pks = Ok o ∧
      ∀ m, o = Some m ↔ finish ps m).
Proof.
  destruct public_keys_indices_spec as (pki & Hpki & HF).
  unfold BF.decrypt. cbv zeta. rewrite bind_assert.
  2: { apply forallb_forall. intros vdk (ks & -> & _)%list_elem_of_In%list_elem_of_fmap.
    cbn. by rewrite !bool_decide_eq_true_2. }
  rewrite (bind_ok _ _ ()).
  2: { apply assert_all_unique_iff. unfold contract_vdks. rewrite <-list_fmap_compose.
    by rewrite list_fmap_id. }
  rewrite (bind_ok _ _ ()).
  2: { apply assert_all_unique_iff. unfold contract_pks. rewrite <-list_fmap_compose.
    by rewrite list_fmap_id. }
  rewrite Hpki, bind_Ok, (bind_ok _ _ () (public_keys_used pki HF)), indices_per_vdk_spec, bind_Ok.
  fold given. split; intros Hlen.
  { unfold move_assert at 1. by rewrite (proj2 (N.leb_gt _ _)). }
  rewrite bind_assert by (by apply N.leb_le).
  change (KD.hash_to_g1_with_dst (BF.create_full_id pkg oid)) with (hash_to_g1 full_id).
  rewrite decrypted_shares_spec, bind_Ok, given_indices_spec, bind_Ok.
  destruct interpolate_given as (ps & -> & Hps); [by intros E; rewrite E in Hlen; simpl in Hlen; lia|].
  rewrite bind_Ok. exists ps. pose proof Hps as (Hps32 & _ & _).
  assert (MP.get_constant_term <$> ps = share_of (MP.coefficients <$> ps) u8_zero) as ->.
  { unfold share_of. rewrite <-list_fmap_compose. apply list_fmap_ext. intros _ p _. simpl.
    by rewrite evaluate_peval, mp_constant_term. }
  unfold finish. cbv zeta. destruct (existsb _ ps) eqn:Hdeg.
  { exists None. split_and!; [done..|]. intros m. split; [done|].
    intros [Hd%degrees_spec _]. congruence. }
  rewrite degrees_spec in Hdeg.
  rewrite bf_decrypt_randomness_spec, bind_Ok by apply bf_derive_key_length.
  destruct (decrypt_randomness er _) as [r| |];
    [|by exists None; split_and!; [done..|]; intros m; split; [|intros (_ & ? & ? & _)]..].
  unfold BF.verify_nonce. case_bool_decide as Hn; cbn [negb].
  2: { exists None. split_and!; [done..|]. intros m. split; [done|].
    by intros (_ & r' & [= <-] & ? & _). }
  rewrite length_fmap. fold remaining.
  rewrite (remaining_pks_spec pki HF), bind_Ok, (remaining_shares_spec r Hn), bind_Ok.
  rewrite (verified_spec ps Hps32), bind_Ok.
  destruct (existsb negb _) eqn:Hver.
  - exists None. split_and!; [done..|]. intros m. split; [done|].
    intros (_ & r' & _ & _ & Hrem & _). apply not_false_iff_true in Hver. destruct Hver.
    apply existsb_negb. intros i Hi. by apply bool_decide_eq_true, Hrem.
  - rewrite hc_decrypt_spec by done. eexists. split_and!; [done..|]. intros m.
    rewrite existsb_negb in Hver. split.
    + intros Hm. split; [done|]. exists r. split_and!; [done..| |].
      * intros i Hi. by apply (bool_decide_eq_true_1 _), Hver.
      * by destruct (hmac256ctr_decrypt _ _ _ _); [injection Hm as ->|..].
    + by intros (_ & r' & _ & _ & _ & ->).
Qed.

Context (Hheld : (u8_val t ≤ N.of_nat (length given))%N).

Lemma opened_valid : valid_shares (opened_shares obj usks).
Proof.
  apply (valid_shares_sublist _ services.*2); [apply (opened_shares_sublist obj)|done..|].
  intros E. pose proof (Permutation_length opened_perm) as Hl.
  rewrite E, length_fmap in Hl. simpl in Hl. lia.
Qed.

Lemma rust_spec (polys : list Polynomial) m :
  length polys = KEY_SIZE → Forall (λ p : Polynomial, length p ≤ length given) polys →
  (∀ i, i ∈ given → share_at i = share_of polys (index_at i)) →
  seal_decrypt obj (BonehFranklinUserSecretKeys usks) (Some (BonehFranklinPublicKeys public_keys))
    = Ok m ↔
  ∃ r, decrypt_randomness er (BF.derive_key EncryptedRandomness (share_of polys u8_zero) e) = Ok r ∧
    nonce = g_mul g_generator r ∧
    (∀ i, i < length services → share_at i = share_of polys (index_at i)) ∧
    hmac256ctr_decrypt blob mac (default [] aad)
      (BF.derive_key DEM (share_of polys u8_zero) e) = Ok m.
Proof.
  intros Hpl Hlen Hon. unfold seal_decrypt.
  cbn [eo_version]. rewrite bool_decide_eq_true_2 by done. cbn [negb].
  rewrite user_shares_spec. cbn [eo_encrypted_shares eo_services eo_threshold eo_package_id eo_id
    eo_ciphertext ciphertexts].
  rewrite Hcs, Nat.eqb_refl, (proj2 (N.ltb_ge _ _)) by (rewrite <-given_length; lia).
  cbn [negb orb]. rewrite bind_Ok. unfold combine_and_check_share_consistency.
  destruct (interpolate_share_of polys (opened_shares obj usks) opened_valid) as (f & Hf & Hx).
  { rewrite <-(Permutation_length opened_perm), length_fmap. done. }
  { intros x sh (i & Hi & -> & ->)%elem_of_opened. by apply Hon. }
  rewrite Hpl in Hf. rewrite Hf, bind_Ok, Hx. split.
  - intros (bk & (all & Hall & Hbk)%bind_ok_inv & Hm)%bind_ok_inv.
    pose proof (decrypt_all_inv _ _ _ _ _ _ _ Hall) as (r & cs' & er' & key & [= Hn <- <-] & Hkey & Hr & _).
    rewrite bf_derive_key_spec in Hkey. injection Hkey as <-.
    rewrite (decrypt_all_spec _ r Hr Hn) in Hall. injection Hall as <-.
    destruct (existsb _ _) eqn:Hex; [done|]. injection Hbk as <-.
    exists r. split_and!; [done..| |].
    + intros i Hi. apply not_true_iff_false in Hex. rewrite existsb_exists in Hex.
      destruct (decide (share_at i = share_of polys (index_at i))) as [|Hne]; [done|].
      destruct Hex. exists (index_at i, share_at i). split.
      * apply list_elem_of_In, all_opened_elem. by exists i.
      * by rewrite Hx, bool_decide_eq_false_2.
    + rewrite bf_derive_key_spec, bind_Ok in Hm. exact Hm.
  - intros (r & Hr & Hn & Hall & Hm). rewrite (decrypt_all_spec _ r Hr Hn), bind_Ok.
    replace (existsb _ all_opened) with false.
    + rewrite bind_Ok, bf_derive_key_spec, bind_Ok. exact Hm.
    + symmetry. apply not_true_iff_false. rewrite existsb_exists.
      intros ([x sh] & (i & Hi & -> & ->)%list_elem_of_In%all_opened_elem & Hne).
      by rewrite Hx, bool_decide_eq_true_2 in Hne by (by rewrite Hall).
Qed.
(** What the contract has checked is what the Rust code checks, and the degree. *)
Lemma finish_iff ps m :
  interpolates ps →
  finish ps m ↔
  seal_decrypt obj (BonehFranklinUserSecretKeys usks) (Some (BonehFranklinPublicKeys public_keys))
    = Ok m ∧ low_degree obj usks.
Proof.
  intros (Hl & Hlen & Hon).
  rewrite (rust_spec (MP.coefficients <$> ps)); [|by rewrite length_fmap|by apply Forall_fmap|done].
  assert (NoDup (index_at <$> given)) as Hnd'.
  { apply NoDup_fmap_2_strong; [|apply given_NoDup].
    intros i j Hi Hj E. by apply index_at_inj; [apply given_lt..|]. }
  assert (u8_zero ∉ index_at <$> given) as Hz'.
  { intros (i & E & Hi%given_lt)%list_elem_of_fmap. by apply (index_at_nonzero i). }
  pose proof (low_degree_polys ps (index_at <$> given) (N.to_nat (u8_val t)) Hnd'
    (nonzero_bytes_length _ Hnd' Hz')) as Hdeg. rewrite length_fmap in Hdeg.
  specialize (Hdeg ltac:(lia) Hlen). unfold finish. cbv zeta. rewrite Hdeg. clear Hdeg.
  assert (low_degree obj usks ↔ ∃ polys : list Polynomial, length polys = length ps ∧
    Forall (λ p : Polynomial, length p ≤ N.to_nat (u8_val t)) polys ∧
    ∀ x, x ∈ index_at <$> given → share_of (MP.coefficients <$> ps) x = share_of polys x) as ->.
  { unfold low_degree. rewrite Hl. cbn [eo_threshold]. apply exist_proper. intros polys.
    do 2 (apply and_iff_compat_l). split.
    - intros H x (i & -> & Hi)%list_elem_of_fmap. rewrite <-Hon by done.
      apply H, elem_of_opened. by exists i.
    - intros H x share (i & Hi & -> & ->)%elem_of_opened. rewrite Hon by done.
      by apply H, list_elem_of_fmap_2. }
  split.
  - intros [Hd (r & Hr & Hn & Hrem & Hm)]. split; [|done]. exists r. split_and!; [done..| |done].
    intros i Hi. destruct (decide (i ∈ given)); [by apply Hon|]. by apply Hrem, elem_of_remaining.
  - intros [(r & Hr & Hn & Hall & Hm) Hd]. split; [done|]. exists r. split_and!; [done..| |done].
    intros i [Hi _]%elem_of_remaining. by apply Hall.
Qed.
End agreement.

(** ** Verified keys *)
Lemma verify_derived_keys_spec {sym : Symmetric} {sym_laws : SymmetricLaws} {crv : Curve}
    {crv_laws : CurveLaws} {framework : MoveFramework} (msk : Address → Scalar) pkg oid sel dks vdks :
  BF.verify_derived_keys dks pkg oid
    ((λ ks, BF.mkPublicKey ks (public_key_from_master_key (msk ks))) <$> sel) = Ok vdks ↔
  dks = (λ ks, extract (msk ks) (Seal.create_full_id pkg oid)) <$> sel ∧
  vdks = contract_vdks pkg oid msk sel.
Proof.
  unfold BF.verify_derived_keys, contract_vdks, zip_map.
  change (KD.hash_to_g1_with_dst (BF.create_full_id pkg oid))
    with (hash_to_g1 (Seal.create_full_id pkg oid)).
  rewrite length_fmap. destruct (Nat.eqb_spec (length sel) (length dks)) as [Hl|Hl].
  2: { split; [done|]. intros [-> _]. by rewrite length_fmap in Hl. }
  cbn [move_assert]. rewrite bind_Ok. cbv zeta.
  revert dks vdks Hl. induction sel as [|ks sel IH]; intros [|dk dks] vdks Hl; try done.
  { csimpl. naive_solver. }
  injection Hl as Hl. specialize (IH dks). csimpl. cbn [BF.pk BF.pk_key_server].
  assert (BF.verify_derived_key dk (hash_to_g1 (Seal.create_full_id pkg oid))
    (public_key_from_master_key (msk ks))
    = bool_decide (pairing dk g_generator
        = pairing (extract (msk ks) (Seal.create_full_id pkg oid)) g_generator)) as ->
    by (unfold BF.verify_derived_key; by rewrite pairing_hash_pk).
  case_bool_decide as Hdk.
  - apply pairing_generator_inj in Hdk as ->. cbn [move_assert]. rewrite !bind_Ok.
    destruct (try_map _ _) as [l| |] eqn:Hl'; [rewrite bind_Ok|..].
    + destruct (IH l Hl) as [[-> ->] _]; [done|]. naive_solver.
    + split; [done|]. intros [[= ->] _].
      discriminate (proj2 (IH _ Hl) (conj eq_refl eq_refl)).
    + split; [done|]. intros [[= ->] _].
      discriminate (proj2 (IH _ Hl) (conj eq_refl eq_refl)).
  - split; [done|]. by intros [[= -> _] _].
Qed.
