(* ===== verification/MoveDecryptProps.v ===== *)
(** * Properties of decryption on chain

    The contract and the Rust code agree on every object and on every choice
    of keys, up to the degree of the sharing polynomials, which only the
    contract checks; and what the Rust code encrypts in HMAC mode, the contract
    parses and decrypts. *)

From Stdlib Require Import NArith Lia.
From S2P Require Import Prelude Gf256 Polynomial Utils Tss Primitives Dem Elgamal Ibe Seal SealTheory Common Chain MoveLib MoveCrypto MoveDecrypt MoveDecryptTheory.

Section properties.
  Context {sym : Symmetric} {sym_laws : SymmetricLaws} {crv : Curve} {crv_laws : CurveLaws}.
  Context {framework : MoveFramework} {chain : OnChain} {chain_laws : OnChainLaws}.

(** The public key of a key server, as the contract is given it. *)
Definition server_key (msk : Address → Scalar) (ks : Address) : BF.PublicKey :=
  BF.mkPublicKey ks (public_key_from_master_key (msk ks)).

(** The store of keys that a list of key servers and their keys makes. *)
Definition store (sel : list Address) (dks : list G1Element) : gmap ObjectID UserSecretKey :=
  list_to_map (zip sel dks).

Lemma store_lookup (msk : Address → Scalar) fid sel ks usk :
  NoDup sel →
  store sel ((λ ks, extract (msk ks) fid) <$> sel) !! ks = Some usk ↔
  ks ∈ sel ∧ usk = extract (msk ks) fid.
Proof.
  intros Hnd. unfold store.
  rewrite <-elem_of_list_to_map by (by rewrite fst_zip by (by rewrite length_fmap)).
  rewrite list_elem_of_lookup. setoid_rewrite lookup_zip_with_Some.
  setoid_rewrite list_lookup_fmap. split.
  - intros (i & a & b & [= -> ->] & Hi & Hb). rewrite Hi in Hb. injection Hb as <-.
    split; [by apply list_elem_of_lookup_2 in Hi|done].
  - intros [[i Hi]%list_elem_of_lookup ->]. exists i, ks, (extract (msk ks) fid). by rewrite Hi.
Qed.

(** C37: the contract and the Rust code decrypt alike. Take the encoding of
    any object that the contract parses, whoever made it, the public keys of
    its key servers in any order, and verified keys of some of these. Without
    keys for [threshold] shares the contract aborts and says so. Otherwise it
    never aborts, and it returns [m] exactly when [seal_decrypt] with the same
    keys returns [m] and the shares that the keys open lie on polynomials of a
    degree below the threshold. *)
Theorem contract_decrypts_as_rust (obj : EncryptedObject) (rest : list byte)
    (e : BF.EncryptedObject) (msk : Address → Scalar) (servers sel : list Address)
    (dks : list G1Element) (vdks : list BF.VerifiedDerivedKey) :
  wire_ok obj → BF.parse_encrypted_object (bcs_encrypted_object obj ++ rest) = Ok e →
  NoDup servers → (∀ ks, ks ∈ servers ↔ ks ∈ (eo_services obj).*1) →
  NoDup sel → (∀ ks, ks ∈ sel → ks ∈ servers) →
  BF.verify_derived_keys dks (BF.package_id e) (BF.id e) (server_key msk <$> sel) = Ok vdks →
  let usks := store sel dks in
  let pks := (λ service, public_key_from_master_key (msk service.1)) <$> eo_services obj in
  let threshold := u8_val (eo_threshold obj) in
  let on_chain := BF.decrypt e vdks (server_key msk <$> servers) in
  ((N.of_nat (keys_held obj usks) < threshold)%N → on_chain = Err BF.EInsufficientDerivedKeys) ∧
  ((threshold ≤ N.of_nat (keys_held obj usks))%N → ∃ result, on_chain = Ok result ∧
    ∀ m, result = Some m ↔
      seal_decrypt obj (BonehFranklinUserSecretKeys usks) (Some (BonehFranklinPublicKeys pks)) = Ok m
      ∧ low_degree obj usks).
Proof.
  intros Hw Hparse Hsrv Hsrv_in Hsel Hsub Hvdk.
  apply parse_spec in Hparse as [[Hv Hnd Hz [Ht _] Hlen] He]; [|done].
  destruct Hw as [_ _ _ Hshares Hct].
  destruct obj as [v pkg oid services t [nonce cs er] c].
  cbn [eo_version eo_package_id eo_id eo_services eo_threshold eo_encrypted_shares eo_ciphertext
    ciphertexts] in *. subst v. destruct Hshares as (_ & Hc32 & Her).
  destruct c as [|blob aad mac|]; [done| |done]. injection He as <-.
  destruct Hct as (Hblob & _ & _). cbn [BF.package_id BF.id] in Hvdk.
  apply verify_derived_keys_spec in Hvdk as [-> ->].
  assert (∀ ks, ks ∈ sel → ks ∈ services.*1) as Hsub' by (intros ks ?; by apply Hsrv_in, Hsub).
  assert (N.of_nat (length blob) < 2 ^ 64)%N as Hblob' by lia.
  cbv zeta. set (usks := store sel _).
  assert (∀ ks usk, usks !! ks = Some usk ↔
    ks ∈ sel ∧ usk = extract (msk ks) (Seal.create_full_id pkg oid)) as Husks.
  { intros ks usk. by apply store_lookup. }
  destruct (contract_decrypt_spec pkg oid services t nonce cs er blob aad mac msk Hnd Hz Ht Hlen Hc32
    Her Hblob' sel usks Hsel Hsub' Husks servers Hsrv Hsrv_in) as [Hfew Henough].
  rewrite <-(given_length pkg oid services t nonce cs er blob aad mac msk Hnd Ht Hlen Her Hblob' sel
    usks Hsel Husks).
  split; [exact Hfew|]. intros Hheld.
  destruct (Henough Hheld) as (ps & o & Hps & Hres & Ho).
  exists o. split; [exact Hres|]. intros m. rewrite Ho.
  by apply (finish_iff pkg oid services t nonce cs er blob aad mac msk).
Qed.

(** ** What the Rust code encrypts *)
Lemma encrypted_on_chain {R : Type} `{AllowedRng R, !RngLaws R} (package_id : ObjectID)
    (id : list byte) (key_servers : list ObjectID) (msks : list MasterKey) (t : byte)
    (m : list byte) (aad : option (list byte)) (rng rng' : R) obj key :
  length package_id = 32 → Forall (λ ks : list byte, length ks = 32) key_servers →
  (N.of_nat (length id) < 2 ^ 31)%N → (N.of_nat (length m) < 2 ^ 31)%N →
  (N.of_nat (length (default [] aad)) < 2 ^ 31)%N →
  seal_encrypt package_id id key_servers
    (BonehFranklinPublicKeys (public_key_from_master_key <$> msks)) t (EHmac256Ctr m aad) rng
    = (Ok (obj, key), rng') →
  wire_ok obj ∧ valid_on_chain obj ∧ is_Some (on_chain obj) ∧ (eo_services obj).*1 = key_servers ∧
  eo_package_id obj = package_id ∧ eo_id obj = id ∧ eo_threshold obj = t ∧
  ∃ polys r, encrypts obj (public_key_from_master_key <$> msks) polys r key.
Proof.
  intros Hp Hks Hid Hm Ha He.
  pose proof (seal_encrypt_spec package_id id key_servers (public_key_from_master_key <$> msks) t
    (EHmac256Ctr m aad) rng) as Hs. cbv zeta in Hs. rewrite He in Hs. cbn [fst] in Hs.
  destruct (_ || _) eqn:Hc; [done|]. apply orb_false_iff in Hc as [Hle%N.ltb_ge Ht%bool_decide_eq_false].
  destruct (negb _) eqn:Hpk; [done|].
  destruct (Nat.leb_spec (length key_servers) 255) as [Hn|]; [|done]. cbn [negb] in Hs.
  destruct Hs as (obj' & key' & polys & r & [= <- <-] & Henc & <- & <- & Hsv & <- & Hct).
  pose proof Henc as [Hv Hcount [Hnd Hz] [Hp32 _] _ (rk & Hrk & _ & _ & Hes)].
  assert ((eo_services obj).*1 = key_servers) as Hs1.
  { rewrite Hsv. apply fst_zip. rewrite share_indices_length, u8_val_of_small by lia. lia. }
  assert (length (eo_services obj) = length key_servers) as Hlen by (by rewrite <-Hs1, length_fmap).
  rewrite u8_val_of_small in Hle by lia.
  assert (Forall (λ c, length c = 32) (zip_with (λ pk service, batch_ciphertext r
    (create_full_id (eo_package_id obj) (eo_id obj)) pk service (share_of polys service.2))
    (public_key_from_master_key <$> msks) (eo_services obj))) as Hc32.
  { apply Forall_lookup. intros i c (pk & service & -> & _ & _)%lookup_zip_with_Some.
    apply batch_ciphertext_length. by rewrite share_of_length, Hp32. }
  split_and!; try done; [split|split| |by exists polys, r].
  - done.
  - done.
  - split; [lia|]. rewrite <-Hs1 in Hks. by apply Forall_fmap in Hks.
  - rewrite Hes. split_and!; [rewrite length_zip_with; lia|done|].
    unfold encrypt_randomness, xor. by rewrite xor_unchecked_length, scalar_to_byte_array_length, Hrk.
  - rewrite Hct. cbn. destruct (encrypt_in_ctr_mode_involutive key m) as [-> _].
    split_and!; [done..|]. apply hmac_sha3_256_length.
  - done.
  - done.
  - done.
  - split; [|lia]. destruct (decide (u8_val (eo_threshold obj) = 0)%N) as [E|]; [|lia].
    destruct Ht. by apply (inj u8_val).
  - rewrite Hes. cbn. rewrite length_zip_with. lia.
  - unfold on_chain. by rewrite Hes, Hct.
Qed.

(** C38: what is encrypted off chain decrypts on chain. Whatever [seal_encrypt]
    encrypts in HMAC mode to the public keys of the key servers' master keys,
    the contract parses; given their public keys in any order and verified
    keys of some of them that hold at least [threshold] shares, it returns the
    message. *)
Theorem encrypted_objects_decrypt_on_chain {R : Type} `{AllowedRng R, !RngLaws R}
    (package_id : ObjectID) (id : list byte) (key_servers : list ObjectID)
    (msk : Address → MasterKey) (t : byte) (m : list byte) (aad : option (list byte))
    (rng rng' : R) (obj : EncryptedObject) (key rest : list byte) (servers sel : list Address)
    (dks : list G1Element) (vdks : list BF.VerifiedDerivedKey) :
  length package_id = 32 → Forall (λ ks : list byte, length ks = 32) key_servers →
  (N.of_nat (length id) < 2 ^ 31)%N → (N.of_nat (length m) < 2 ^ 31)%N →
  (N.of_nat (length (default [] aad)) < 2 ^ 31)%N →
  seal_encrypt package_id id key_servers
    (BonehFranklinPublicKeys ((λ ks, public_key_from_master_key (msk ks)) <$> key_servers)) t
    (EHmac256Ctr m aad) rng = (Ok (obj, key), rng') →
  NoDup servers → (∀ ks, ks ∈ servers ↔ ks ∈ key_servers) →
  NoDup sel → (∀ ks, ks ∈ sel → ks ∈ servers) →
  BF.verify_derived_keys dks package_id id (server_key msk <$> sel) = Ok vdks →
  N.to_nat (u8_val t) ≤ length (List.filter (λ ks, bool_decide (ks ∈ sel)) key_servers) →
  ∃ e, BF.parse_encrypted_object (bcs_encrypted_object obj ++ rest) = Ok e ∧
    BF.decrypt e vdks (server_key msk <$> servers) = Ok (Some m).
Proof.
  intros Hp Hks Hid Hm Ha He Hsrv Hsrv_in Hsel Hsub Hvdk Hcount.
  change (λ ks, public_key_from_master_key (msk ks))
    with (public_key_from_master_key ∘ msk) in He. rewrite list_fmap_compose in He.
  destruct (encrypted_on_chain package_id id key_servers (msk <$> key_servers) t m aad rng rng' obj key)
    as (Hw & Hvalid & [e Hoc] & Hs1 & Hpkg & Hoid & Hthr & polys & r & Henc); [done..|].
  assert (BF.parse_encrypted_object (bcs_encrypted_object obj ++ rest) = Ok e) as Hparse
    by (by apply parse_spec).
  exists e. split; [done|].
  assert (BF.package_id e = package_id ∧ BF.id e = id) as [Hep Hei].
  { unfold on_chain in Hoc. destruct (eo_encrypted_shares obj), (eo_ciphertext obj); try done.
    injection Hoc as <-. done. }
  destruct (contract_decrypts_as_rust obj rest e msk servers sel dks vdks) as [_ Henough];
    [done..|by rewrite Hs1|done|done|by rewrite Hep, Hei|].
  apply verify_derived_keys_spec in Hvdk as [-> _]. cbv zeta in Henough.
  set (fid := create_full_id package_id id) in *.
  set (usks := store sel ((λ ks, extract (msk ks) fid) <$> sel)) in *.
  assert (∀ ks usk, usks !! ks = Some usk ↔ ks ∈ sel ∧ usk = extract (msk ks) fid) as Husks.
  { intros ks usk. by apply store_lookup. }
  assert (∀ ks, bool_decide (is_Some (usks !! ks)) = bool_decide (ks ∈ sel)) as Hheld.
  { intros ks. apply bool_decide_ext. unfold is_Some. setoid_rewrite Husks. naive_solver. }
  assert (List.filter (λ ks, bool_decide (is_Some (usks !! ks))) key_servers
    = List.filter (λ ks, bool_decide (ks ∈ sel)) key_servers) as Hfilter.
  { apply List.filter_ext. exact Hheld. }
  assert (N.to_nat (u8_val t) ≤ keys_held obj usks) as Hk.
  { unfold keys_held. rewrite <-Hfilter, <-Hs1, filter_fmap, length_fmap in Hcount. done. }
  rewrite Hthr in Henough. destruct (Henough ltac:(lia)) as (result & -> & Hresult).
  do 2 f_equal. apply Hresult. split.
  - assert (((λ service, public_key_from_master_key (msk service.1)) <$> eo_services obj)
      = public_key_from_master_key <$> (msk <$> key_servers)) as ->.
    { rewrite <-Hs1, <-!list_fmap_compose. by apply list_fmap_ext. }
    apply (seal_decrypt_of_encrypt package_id id key_servers (msk <$> key_servers) t
      (EHmac256Ctr m aad) rng rng' obj key usks); [done| |by rewrite Hfilter|by right].
    intros i ks msk' usk Hi Hm' [_ ->]%Husks. rewrite list_lookup_fmap, Hi in Hm'.
    by injection Hm' as <-.
  - exists polys. pose proof Henc as [_ _ _ [Hp32 Hpl] _ _]. split_and!; [done| |].
    + eapply Forall_impl; [exact Hpl|]. intros p Hlp. cbv beta in *. rewrite Hlp. lia.
    + intros x share. apply (opened_shares_on_polys obj (msk <$> key_servers) polys r key usks);
        [done|]. intros i service msk' usk Hi Hm' [_ ->]%Husks.
      rewrite <-Hs1, !list_lookup_fmap, Hi in Hm'. injection Hm' as <-. by rewrite Hpkg, Hoid.
Qed.
End properties.

(** ** Witnesses on the toy groups *)
#[local] Existing Instances Toy.symmetric Toy.symmetric_laws Toy.curve Toy.curve_laws
  ToyMove.framework ToyOnChain.chain ToyOnChain.chain_laws.

Definition contract_package : Address := replicate 32 Byte.x50.
Definition contract_id : list byte := [Byte.x01; Byte.x02].
Definition contract_servers : list Address :=
  [replicate 32 Byte.xa1; replicate 32 Byte.xa2; replicate 32 Byte.xa3].
Definition contract_msk (ks : Address) : Scalar (Curve := Toy.curve) :=
  match ks with b :: _ => byte_xor b Byte.x42 | [] => Byte.x01 end.
Definition contract_encrypt :=
  seal_encrypt (crv := Toy.curve) contract_package contract_id contract_servers
    (BonehFranklinPublicKeys ((λ ks, public_key_from_master_key (crv := Toy.curve) (contract_msk ks))
      <$> contract_servers)) Byte.x02 (EHmac256Ctr (bytes_of "on chain") None) all_bytes.
Definition contract_object : EncryptedObject (crv := Toy.curve) :=
  match contract_encrypt.1 with
  | Ok (obj, _) => obj
  | _ => mkEncryptedObject Byte.x01 [] [] [] u8_zero (BonehFranklinBLS12381 u8_zero [] []) CPlain
  end.
Definition contract_key : list byte :=
  match contract_encrypt.1 with Ok (_, key) => key | _ => [] end.
Definition contract_entry : BF.EncryptedObject (crv := Toy.curve) :=
  match on_chain contract_object with
  | Some e => e
  | None => BF.mkEncryptedObject [] [] [] [] u8_zero (u8_zero : G2Element (Curve := Toy.curve))
      [] [] [] None []
  end.
Definition contract_dks (sel : list Address) : list (G1Element (Curve := Toy.curve)) :=
  (λ ks, extract (crv := Toy.curve) (contract_msk ks) (create_full_id contract_package contract_id))
    <$> sel.

Lemma contract_encrypted :
  contract_encrypt = (Ok (contract_object, contract_key), contract_encrypt.2).
Proof.
  unfold contract_object, contract_key.
  assert (is_ok contract_encrypt.1 = true) as H by (vm_compute; reflexivity).
  destruct contract_encrypt as [[[obj key]| |] rng]; done.
Qed.

Lemma contract_object_servers : (eo_services contract_object).*1 = contract_servers.
Proof. vm_compute. reflexivity. Qed.

Lemma contract_object_wire : wire_ok contract_object.
Proof.
  split.
  - reflexivity.
  - reflexivity.
  - split; [reflexivity|]. apply (bool_decide_unpack (Forall _ _)). vm_compute. done.
  - vm_compute. split; [done|]. split; [|done]. repeat constructor.
  - vm_compute. done.
Qed.

Lemma contract_selected ks : ks ∈ drop 1 contract_servers → ks ∈ reverse contract_servers.
Proof.
  intros Hks. apply elem_of_reverse.
  change contract_servers with (replicate 32 Byte.xa1 :: drop 1 contract_servers). by right.
Qed.

Lemma contract_decrypts_as_rust_witness :
  let vdks sel := contract_vdks contract_package contract_id contract_msk sel in
  let pks := server_key contract_msk <$> reverse contract_servers in
  BF.decrypt contract_entry (vdks [replicate 32 Byte.xa2]) pks = Err BF.EInsufficientDerivedKeys ∧
  ∃ result, BF.decrypt contract_entry (vdks (drop 1 contract_servers)) pks = Ok result.
Proof.
  assert (BF.parse_encrypted_object (bcs_encrypted_object contract_object ++ [Byte.x07])
    = Ok contract_entry) as Hparse by (vm_cast_no_check (eq_refl (Ok (E := N) contract_entry))).
  assert (∀ ks, ks ∈ reverse contract_servers ↔ ks ∈ (eo_services contract_object).*1) as Hsrv.
  { intros ks. rewrite elem_of_reverse. by rewrite contract_object_servers. }
  assert (NoDup (reverse contract_servers)) as Hnd by (by apply (bool_decide_unpack (NoDup _)); vm_compute).
  split.
  - apply (contract_decrypts_as_rust contract_object [Byte.x07] contract_entry contract_msk
      (reverse contract_servers) [replicate 32 Byte.xa2] (contract_dks [replicate 32 Byte.xa2])
      _ contract_object_wire Hparse Hnd Hsrv).
    + apply NoDup_singleton.
    + intros ks ->%list_elem_of_singleton. apply (bool_decide_unpack (_ ∈ _)). vm_compute. done.
    + apply verify_derived_keys_spec. by split.
    + vm_compute. reflexivity.
  - destruct (contract_decrypts_as_rust contract_object [Byte.x07] contract_entry contract_msk
      (reverse contract_servers) (drop 1 contract_servers) (contract_dks (drop 1 contract_servers))
      (contract_vdks contract_package contract_id contract_msk (drop 1 contract_servers))
      contract_object_wire Hparse Hnd Hsrv) as [_ H].
    + by apply (bool_decide_unpack (NoDup _)); vm_compute.
    + apply contract_selected.
    + apply verify_derived_keys_spec. by split.
    + destruct H as (result & Hres & _); [vm_compute; discriminate|]. by exists result.
Defined.

Lemma encrypted_objects_decrypt_on_chain_witness :
  ∃ e, BF.parse_encrypted_object (bcs_encrypted_object contract_object ++ []) = Ok e ∧
    BF.decrypt e (contract_vdks contract_package contract_id contract_msk (drop 1 contract_servers))
      (server_key contract_msk <$> reverse contract_servers) = Ok (Some (bytes_of "on chain")).
Proof.
  apply (encrypted_objects_decrypt_on_chain contract_package contract_id contract_servers contract_msk
    Byte.x02 (bytes_of "on chain") None all_bytes contract_encrypt.2 contract_object contract_key []
    (reverse contract_servers)
    (drop 1 contract_servers) (contract_dks (drop 1 contract_servers))
    (contract_vdks contract_package contract_id contract_msk (drop 1 contract_servers))).
  - reflexivity.
  - by apply (bool_decide_unpack (Forall _ _)); vm_compute.
  - reflexivity.
  - reflexivity.
  - reflexivity.
  - exact contract_encrypted.
  - by apply (bool_decide_unpack (NoDup _)); vm_compute.
  - intros ks. by rewrite elem_of_reverse.
  - by apply (bool_decide_unpack (NoDup _)); vm_compute.
  - apply contract_selected.
  - apply verify_derived_keys_spec. by split.
  - vm_compute. lia.
Defined.

(** *** The degree is checked on chain only

    An object made with polynomials of degree two and threshold two: with all
    keys the Rust code decrypts it and its consistency check passes; the
    contract refuses it. *)
Definition steep_polys : list Polynomial :=
  (λ k, [u8_of (N.of_nat k); Byte.x11; Byte.x22]) <$> seq 0 32.

Definition steep_object : EncryptedObject (crv := Toy.curve) :=
  let services := zip contract_servers [Byte.x01; Byte.x02; Byte.x03] in
  let full_id := create_full_id contract_package contract_id in
  let r : Randomness (Curve := Toy.curve) := Byte.x09 in
  let cs := (λ service, batch_ciphertext (crv := Toy.curve) r full_id
    (public_key_from_master_key (crv := Toy.curve) (contract_msk service.1)) service
    (share_of steep_polys service.2)) <$> services in
  let base_key := share_of steep_polys u8_zero in
  match derive_key EncryptedRandomness base_key cs Byte.x02 contract_servers,
        derive_key DEM base_key cs Byte.x02 contract_servers with
  | Ok key, Ok dem_key => mkEncryptedObject Byte.x00 contract_package contract_id services Byte.x02
      (BonehFranklinBLS12381 (g_mul g_generator r) cs (encrypt_randomness (crv := Toy.curve) r key))
      (input_encrypt (EHmac256Ctr (bytes_of "m") None) dem_key)
  | _, _ => contract_object
  end.

Lemma contract_checks_degree :
  seal_decrypt steep_object
    (BonehFranklinUserSecretKeys (store contract_servers (contract_dks contract_servers)))
    (Some (BonehFranklinPublicKeys ((λ ks, public_key_from_master_key (crv := Toy.curve)
      (contract_msk ks)) <$> contract_servers))) = Ok (bytes_of "m") ∧
  (e ← BF.parse_encrypted_object (bcs_encrypted_object steep_object);
   BF.decrypt e (contract_vdks contract_package contract_id contract_msk contract_servers)
     (server_key contract_msk <$> contract_servers)) = Ok None.
Proof. split; vm_compute; reflexivity. Qed.
